(* ===== verification/_CoqProject ===== *)
-Q . S2P
Prelude.v
GoStrings.v
GoSort.v
GoFloat.v
Routes.v
RouteMappings.v
Associations.v
BackendSets.v
FixWeights.v
Collector.v
Api.v
Handlers.v
Wire.v
BulkStream.v
Certs.v
Istio.v
GoSlices.v
Sidecars.v
Gateways.v
DestinationRules.v
ServiceEntries.v
VirtualServices.v
McpCache.v
UniqueQueue.v
McpStream.v
SnapshotLoop.v
LoopInterfaces.v
McpClient.v
Delivery.v
ServerConfig.v
Tls.v
Grpc.v
Clients.v
McpPort.v
TestHelpers.v
System.v
EndToEnd.v
Fitting.v
Pilot.v
Ports.v
Pipeline.v
Lifecycle.v
Fakes.v
FakeInstances.v
FakeRuns.v
