(* ===== verification/Prelude.v ===== *)
(** * Copilot: a verification development

    Copilot is the control plane of Cloud Foundry's Istio integration.  The Cloud
    Controller writes routes, route mappings and process associations over gRPC, the
    Diego BBS reports running instances, the policy server reports network policies,
    and on every tick a loop joins all of it into Istio resources and publishes them
    to Pilot over MCP.  DNS asks for the virtual IP of internal routes.  This library
    translates that program from its Go sources (paths below are under [src/]) into
    executable definitions and proves what makes its parts correct.

    ** How the parts interact

<<
   Cloud Controller         Diego BBS               librarian (certs/locator.go)
    |  Clients                |                       |  Stow
    |  Tls, Grpc              |                       |
    |  Ports, Wire, Api       |                       |
    v                         v                       v
   handlers/capi.go         models/diego_process_   certificates on disk
    |  Handlers             backend_set.go            |  Locate
    v                         |  BackendSets           |
   Routes RouteMappings       |                        |
   Associations               |                        |
    |                         |                        |
    +-----------+-------------+                        |
                v                                      |
   routes/routes.go: Collector, FixWeights             |
                |  Collect                policies     |
                v                            |         |
   snapshot/config.go: Sidecars, Gateways, DestinationRules,
                       ServiceEntries, VirtualServices
                |  Create...Resources
                v
   snapshot/snapshot.go: SnapshotLoop --SetSnapshot--> McpCache
                                                          |  Watch, push
                                                          v
             source.go: McpStream, UniqueQueue <--requests, responses--> sink.go:
                        McpPort, Pilot                     McpStream, McpClient
>>

    [System] wires them as [cmd/copilot-server/main.go] does, [Lifecycle] starts and
    stops their processes, [Delivery] composes the cache with a stream and a client,
    [EndToEnd] the whole server with both, [Pilot] the server with Pilot's client over the
    wire, and [Ports] the server with what arrives at its two other gRPC ports.

    ** The files

    - [Prelude]: Go's outcomes ([outcome]: a value or a run-time panic), 32- and 64-bit
      integers as [Z] with their wrap-around, slices seen as values with nil apart
      from empty ([gslice]), the unspecified order of [range] over a map ([MapOrder],
      a permutation of the entries; theorems hold for every order), sums, and the
      lemmas on loops that fill maps which the components share.
    - [GoStrings] (strings.ToLower, strings.TrimRight, byte order), [GoSort]
      (sort.SliceStable as insertion sort, with its specification), [GoFloat]
      (float32 division and multiplication on Stdlib's [SpecFloat], and the
      conversion to int32, whose out-of-range results are the platform's, a
      parameter), [GoSlices] (slices with their backing arrays, where aliasing
      shows; how far [append] over-allocates is a parameter).
    - [Routes], [RouteMappings], [Associations] ([models/route.go],
      [models/route_mapping.go], [models/capi_diego_process_association.go],
      [models/diego_process.go]): the three repositories.  A critical section is a
      function on the state, and every method has one, except [GetVIPByName], which has
      two and is shown to answer as if it had one.
    - [BackendSets] ([models/diego_process_backend_set.go],
      [models/noop_backend_set_repo.go]): the store, each goroutine alone, and both
      interleaved as a step relation cut at the critical sections.
    - [FixWeights], [Collector] ([routes/routes.go]): the join of the repositories
      and the correction of its weights; the interfaces of the source are type
      classes and every call reads the world at its own time.
    - [Api], [Handlers], [Wire] ([api/*.pb.go], [handlers/]): messages and getters,
      the handlers with their validation and errors, over the interfaces of the
      repositories (type classes that the repositories implement), the ten unary calls of
      the Cloud Controller's service as one type ([capi_call], indexed by the reply), and
      the generated stubs and dispatch between clients and handlers; [BulkStream]: the
      bulk sync over the interface of its stream.
    - [Certs] ([certs/locator.go]): locating and stowing certificates.
    - [Istio]: the messages of istio.io/api; [Sidecars], [Gateways],
      [DestinationRules], [ServiceEntries], [VirtualServices] ([snapshot/config.go]):
      the five resource builders.
    - [McpCache] ([vendor/istio.io/istio/pkg/mcp/snapshot]), [SnapshotLoop]
      ([snapshot/snapshot.go]): the cache of watches and the publishing loop;
      [LoopInterfaces]: the loop's round over the interfaces of its surroundings,
      every method call in its place, shown to be [SnapshotLoop]'s tick for the
      server's implementations.
    - [UniqueQueue], [McpStream] ([vendor/istio.io/istio/pkg/mcp/internal/queue.go],
      [.../source/source.go], [.../sink/sink.go]): the queue of responses and both ends
      of an MCP stream, one function per round of their loops; [McpClient]
      ([testhelpers/mock_mcp_client.go]): the client of the integration tests.
    - [Delivery]: the cache, a stream and a client as one transition system, with
      publications, other clients and breaks of the stream at any time, after which the
      client's loop ([.../sink/client_sink.go]) opens a new one; [EndToEnd]: [System]
      with such a stream and client.
    - [Tls] ([crypto/tls], as [config/config.go] sets it up), [Grpc]
      ([vendor/google.golang.org/grpc]): handshakes, dialling, connections, the frames of
      messages with their flag and length, compression, size limits, status codes and the
      client stream of the bulk sync; [Clients]
      ([client.go]): the two clients from dialling to closing, against the two servers of
      the program.
    - [McpPort] ([testhelpers/mock_mcp_client.go], [vendor/istio.io/istio/pkg/mcp/source/
      server_source.go], [vendor/istio.io/api/mcp/v1alpha1/mcp.pb.go]): dialling the MCP
      port, opening the stream, and the stream as bytes within gRPC's limits, each end of
      which can return alone; [Fitting]: a stream of which all that is served fits those
      limits; [Pilot]: [System] with that client and its stream through errors, closings
      and new streams.
    - [TestHelpers] ([testhelpers/credentials.go], [pick_a_port.go], [temp_file_name.go],
      [mock_bbs_server.go], [mock_policy_server.go]): the certificates, ports, files and
      stand-ins of the integration tests.
    - [Fakes], [FakeInstances] ([*/fakes/*.go],
      [testhelpers/fakebulksyncserver.go]): the template of the generated fakes and its
      instance for every fake; [FakeRuns]: handlers, bulk sync and loop run over them.
    - [ServerConfig] ([config/config.go], [librarianconfig/config.go],
      [cmd/librarian/main.go]): loading, defaults, validation, TLS settings.
    - [System] ([cmd/copilot-server/main.go]): the start, and the running server as
      one transition system over all of the above; [Ports]: that server behind its two
      gRPC ports, where methods' names, encodings and the bytes of streams arrive from any
      client, whole frames or not;
      [Pipeline]: that and [Pilot] at once, from the Cloud Controller's client to
      Pilot's.
    - [Lifecycle] ([cmd/copilot-server/main.go], [vendor/github.com/tedsuo/ifrit],
      [vendor/github.com/pivotal-cf/paraphernalia/serve/grpcrunner]): the ordered group
      of the five processes, from the start over signals and exits to the exit status,
      as a transition system of the group and its members.

    ** What the theorems show

    - From one end to the other ([Pipeline]): a route that the Cloud Controller's client
      announces in three calls over the wire is in the virtual services of Pilot's client
      after one quiet tick, whenever the stream, itself over the wire and however often it
      broke, is up and at rest; a stream that stays up gets there, and a client whose
      connection opens streams gets to one, which stays up if what is served fits.
    - On the MCP port ([McpPort], [Pilot]): a stream of bytes that is up is a stream of
      [Delivery], and the other way round as long as the messages fit; what cannot be sent
      or is larger than 4 MB ends an end of it and leaves the other alone, so a collection
      that large never arrives; whatever happens, Pilot's client holds nothing or all of
      one snapshot of each collection, which a tick of that history published
      ([published_in]: from the routes, policies and certificates of that tick), and reads
      it without a panic; and only a
      client with a certificate that the CA file for Pilot vouches for gets a stream.
    - To the client ([EndToEnd], [Delivery], [McpStream], [UniqueQueue]): a route that
      is mapped and associated and has a running backend reaches the client after one
      quiet tick and finitely many moves of the stream, whatever was in flight; what
      a client holds was published, under its version, however often its stream broke
      and was opened anew; the exchange between two publications ends; requests are refused exactly in the cases the code names; the
      queue is a bounded list; increments applied to the acknowledged versions give
      the current ones.
    - End to end ([System]): a mapped and associated route with a running backend is
      served as a virtual service after one quiet tick; one quiet tick makes the
      cache serve exactly the state of the repositories; no step of a server with a
      policy client panics as long as no swap of the backend sets falls inside an
      insertion; and exactly when the start succeeds.
    - From the clients ([Clients], [Ports]): a client without a certificate that the
      configured CA vouches for leaves no trace; a client's calls reach the handlers they
      name, whole and in order, the bulk sync across as many messages as it takes; what arrives at
      the ports is a run of [System], whatever bytes it is; a route that a client
      announced over the wire is served after one quiet tick, and a route that was
      upserted resolves, unless its host ends in a dot.
    - Life of the processes ([Lifecycle]): started in order, stopped in the reverse
      order; the exit status tells whether all ended well; a stop always can end, within
      a bound that only connections, rounds and signals extend.  A connection that stays
      open holds it.
    - Tests ([TestHelpers]): in the integration tests the MCP port admits the Pilot client
      and not the Cloud Controller's, the other port the other way round, and parallel test processes pick ports that
      never clash.
    - Publishing ([SnapshotLoop], [McpCache]): the loop publishes exactly the
      changes, under increasing versions, each snapshot a function of its own
      observation; every waiting client gets a change at once, is pushed exactly that
      change, and none waits behind what is served.
    - Interfaces ([LoopInterfaces], [FakeRuns], [Fakes]): the loop over its interfaces
      is the loop of the model; over fakes in any state the program makes exactly the
      calls it should; a fake is determined by the history of its use.
    - Resources: each builder is characterised on all inputs it gets from the
      collector, in every map order; the longest prefix is matched first and the
      weights of an HTTP route are those of its group.
    - Collection: [Collect] is the join of the repositories, keeps its promises to
      the builders under every interleaving of writes, and its percentages add up
      to 100 for well-behaved mappings.
    - Repositories and handlers: each repository refines the log of its operations;
      handlers, the listings included, implement a contract of validity, effect and
      answer on every branch; calls over the wire reach their handler.
    - Configuration: [Load] accepts exactly the complete configurations; saving and
      loading round-trip; what is stowed is located.

    Some theorems state behaviour the code hardly intends, because it is there: the
    race of [swap_inside_insert], sidecars prefixed twice, certificates that never
    reach clients, the nil policy client of a disabled policy server, denominators
    that drift, hosts that survive their route, hosts with a dot behind them that never
    resolve, the MCP stream that holds the shutdown ([connection_holds_shutdown]).  The specifications of the well-behaved case name the
    hypotheses that exclude them.

    ** Parameters, bounds and fuel

    Recursion is on lists, streams or schedules; the one exception is the bulk sync
    over an arbitrary stream ([BulkStream.BulkSync_on]), whose fuel is enough as soon
    as it is the number of the stream's answers.  A run of the group of processes takes
    at most 26 steps, plus those that connections, rounds and signals add.  A stream
    sends at most six messages per collection between two publications, so
    [Pilot.stream_bound] nonces are enough.  Go's
    [int] is 64 bits wide, so versions are fresh for less than 2^63 publications; the
    counters of watches and of nonces are taken not to wrap.
    Parameters stand for code outside the repository: protobuf encoding ([Codec],
    [Marshal], [McpCodec]), JSON and files ([ConfigFiles], [FileSystem], [PoliciesJSON],
    [BBSEncoding]), certificates, their files and their verification ([X509], [TLS],
    [X509Verify], [PKIX], [PKI]), temporary names ([TempFiles]), name resolution and
    reaching a server ([Network]), [Compressors], CIDR parsing ([CIDR]), the BBS and
    policy clients' answers, non-ASCII lower-casing ([UnicodeLower]), quoting
    ([GoQuote]) and Go-syntax printing ([GoSyntax]).  Where a class carries laws, they
    are what that code documents, and an instance next to the witnesses satisfies them.

    ** Not modelled

    Logging, metrics, command-line flags, the debug server, TCP and HTTP/2 below the
    messages of gRPC, interceptors, deadlines, keep-alive, the reflection service, the
    request limiter of the MCP source, the integration tests themselves and the Ruby
    SDK: they keep no state of the program's logic, or are not part of it.  Nor is a read
    that races with a write ([BackendSets.get_side]), or two paths of one file
    ([Certs.FileSystem]).  The read-outs
    of the MCP cache ([Status], [GetSnapshotInfo]) and the unused entry-wise builder
    methods are left out. *)
From Stdlib Require Export ZArith Lia.
From stdpp Require Export gmap strings list sorting.

(** ** Go outcomes: a value, or a run-time panic *)
Inductive outcome (A : Type) : Type :=
| Ret (a : A)
| Panic (why : string).
Arguments Ret {A} a.
Arguments Panic {A} why.

Global Instance outcome_ret : MRet outcome := @Ret.
Global Instance outcome_bind : MBind outcome := λ A B f m,
  match m with Ret a => f a | Panic w => Panic w end.

Definition is_ret {A} (m : outcome A) : Prop := ∃ a, m = Ret a.

(** A loop whose body may panic. *)
Fixpoint foldM {A S} (f : S → A → outcome S) (s : S) (l : list A) : outcome S :=
  match l with
  | [] => Ret s
  | x :: l => s' ← f s x; foldM f s' l
  end.

(** ** Machine integers, kept as [Z] inside their range *)
Definition u32 (z : Z) : Z := (z mod 2 ^ 32)%Z.
Definition i32 (z : Z) : Z := ((z + 2 ^ 31) mod 2 ^ 32 - 2 ^ 31)%Z.
Definition i64 (z : Z) : Z := ((z + 2 ^ 63) mod 2 ^ 64 - 2 ^ 63)%Z.

(** ** Go slices seen as values: nil is not the empty slice *)
Inductive gslice (A : Type) : Type :=
| Nil
| Sl (l : list A).
Arguments Nil {A}.
Arguments Sl {A} l.

Global Instance gslice_eq_dec {A} `{EqDecision A} : EqDecision (gslice A).
Proof. solve_decision. Defined.

Definition elems {A} (s : gslice A) : list A :=
  match s with Nil => [] | Sl l => l end.
Definition glen {A} (s : gslice A) : nat := length (elems s).
(** [append(s, xs...)]: appending nothing to nil leaves nil. *)
Definition gappend {A} (s : gslice A) (xs : list A) : gslice A :=
  match s, xs with
  | Nil, [] => Nil
  | _, _ => Sl (elems s ++ xs)
  end.
(** In-place permutation or update of the elements (sort, indexed write). *)
Definition gmap_elems {A} (f : list A → list A) (s : gslice A) : gslice A :=
  match s with Nil => Nil | Sl l => Sl (f l) end.

(** ** Go maps: the iteration order of [range] is unspecified *)
Class MapOrder := {
  map_order : ∀ {K} `{Countable K} {V}, gmap K V → list (K * V);
  map_order_perm : ∀ {K} `{Countable K} {V} (m : gmap K V),
    map_order m ≡ₚ map_to_list m;
}.

(** Two concrete orders. *)
Definition asc_order : MapOrder :=
  {| map_order := λ K _ _ V m, map_to_list m;
     map_order_perm := λ K _ _ V m, reflexivity _ |}.
Definition desc_order : MapOrder :=
  {| map_order := λ K _ _ V m, reverse (map_to_list m);
     map_order_perm := λ K _ _ V m, reverse_Permutation _ |}.

(** [m[k]] of a Go map whose value type has a zero value. *)
Definition lookup0 {K} `{Countable K} {V} (zero : V) (m : gmap K V) (k : K) : V :=
  default zero (m !! k).

(** The loop [for _, x := range l { m[f(x)] = g(x) }]. *)
Definition insert_all {K} `{Countable K} {A V} (f : A → K) (g : A → V)
    (l : list A) (m : gmap K V) : gmap K V :=
  foldl (λ m x, <[f x := g x]> m) m l.

(** The last element of a list with a given key. *)
Fixpoint last_with {K} `{EqDecision K} {A} (f : A → K) (k : K) (l : list A) : option A :=
  match l with
  | [] => None
  | x :: l =>
      match last_with f k l with
      | Some y => Some y
      | None => if decide (f x = k) then Some x else None
      end
  end.

(** ** Sums *)
Definition sumZ (l : list Z) : Z := foldr Z.add 0%Z l.
Global Arguments sumZ : simpl never.

(** ** Tactics *)
(** Case analysis on the innermost [match] of the goal or a hypothesis. *)
Ltac case_match_in H :=
  match type of H with
  | context [ match ?x with _ => _ end ] =>
      lazymatch x with
      | context [ match _ with _ => _ end ] => fail
      | _ => destruct x eqn:?
      end
  end.

(** ** Outcome lemmas *)
Section outcome_lemmas.
Context {A B S : Type}.

Lemma Ret_default (d : A) (m : outcome A) :
  match m with Ret _ => True | Panic _ => False end →
  m = Ret (match m with Ret r => r | Panic _ => d end).
Proof. by destruct m. Qed.

Lemma bind_Ret (m : outcome A) (f : A → outcome B) b :
  (m ≫= f) = Ret b ↔ ∃ a, m = Ret a ∧ f a = Ret b.
Proof. destruct m; simpl; naive_solver. Qed.

Lemma bind_Panic (m : outcome A) (f : A → outcome B) w :
  (m ≫= f) = Panic w ↔ m = Panic w ∨ ∃ a, m = Ret a ∧ f a = Panic w.
Proof. destruct m; simpl; naive_solver. Qed.

Lemma foldM_app (f : S → A → outcome S) s l1 l2 :
  foldM f s (l1 ++ l2) = s' ← foldM f s l1; foldM f s' l2.
Proof.
  revert s; induction l1 as [|x l1 IH]; intros s; simpl; [done|].
  destruct (f s x); simpl; [apply IH | done].
Qed.

(** An invariant of the loop body under which it does not panic. *)
Lemma foldM_inv (P : S → list A → Prop) (f : S → A → outcome S) s l :
  P s l →
  (∀ s x l', P s (x :: l') → ∃ s', f s x = Ret s' ∧ P s' l') →
  ∃ s', foldM f s l = Ret s' ∧ P s' [].
Proof.
  revert s; induction l as [|x l IH]; intros s HP Hstep; simpl; [eauto|].
  destruct (Hstep _ _ _ HP) as (s' & -> & HP'). simpl. eauto.
Qed.
End outcome_lemmas.

(** ** Machine-integer lemmas *)
Section ints.
Local Open Scope Z_scope.

Lemma u32_range z : 0 ≤ u32 z < 2 ^ 32.
Proof. unfold u32. apply Z.mod_pos_bound. lia. Qed.
Lemma u32_small z : 0 ≤ z < 2 ^ 32 → u32 z = z.
Proof. intros. unfold u32. by apply Z.mod_small. Qed.
Lemma u32_add_l a b : u32 (u32 a + b) = u32 (a + b).
Proof. unfold u32. apply Zplus_mod_idemp_l. Qed.
Lemma u32_sub_l a b : u32 (u32 a - b) = u32 (a - b).
Proof. unfold u32. apply Zminus_mod_idemp_l. Qed.
Lemma u32_add_ne a w : 0 < w < 2 ^ 32 → u32 (a + w) ≠ u32 a.
Proof.
  unfold u32. intros Hw E. assert ((a + w - a) mod 2 ^ 32 = 0) as E'.
  { by rewrite Zminus_mod, E, Z.sub_diag. }
  replace (a + w - a) with w in E' by lia. rewrite Z.mod_small in E'; lia.
Qed.

Lemma i32_range z : - 2 ^ 31 ≤ i32 z < 2 ^ 31.
Proof.
  unfold i32. pose proof (Z.mod_pos_bound (z + 2 ^ 31) (2 ^ 32)). lia.
Qed.
Lemma i32_small z : - 2 ^ 31 ≤ z < 2 ^ 31 → i32 z = z.
Proof. intros. unfold i32. rewrite Z.mod_small; lia. Qed.
Lemma i64_small z : - 2 ^ 63 ≤ z < 2 ^ 63 → i64 z = z.
Proof. intros. unfold i64. rewrite Z.mod_small; lia. Qed.
Lemma i32_period z k : i32 (z + k * 2 ^ 32) = i32 z.
Proof.
  unfold i32. replace (z + k * 2 ^ 32 + 2 ^ 31) with (z + 2 ^ 31 + k * 2 ^ 32) by lia.
  by rewrite Z_mod_plus_full.
Qed.
Lemma i32_eq z : i32 z = z + (- ((z + 2 ^ 31) / 2 ^ 32)) * 2 ^ 32.
Proof. unfold i32. rewrite Z.mod_eq; lia. Qed.
Lemma i32_add_l a b : i32 (i32 a + b) = i32 (a + b).
Proof.
  rewrite (i32_eq a), <-(i32_period (a + b) (- ((a + 2 ^ 31) / 2 ^ 32))). f_equal. lia.
Qed.
Lemma i32_u32 z : u32 (i32 z) = u32 z.
Proof. rewrite i32_eq. unfold u32. apply Z_mod_plus_full. Qed.
Lemma i32_u32_sub a b : u32 (a - i32 b) = u32 (a - b).
Proof.
  rewrite i32_eq. unfold u32.
  replace (a - _) with (a - b + ((b + 2 ^ 31) / 2 ^ 32) * 2 ^ 32) by lia.
  apply Z_mod_plus_full.
Qed.
Lemma i32_zero z : i32 z = 0 ↔ u32 z = 0.
Proof.
  rewrite <-(i32_u32 z). pose proof (i32_range z). split; [intros ->; done|].
  unfold u32. intros E. apply Z.mod_divide in E as [k E]; lia.
Qed.
End ints.

(** ** Slice and sum lemmas *)
Section slices.
Context {A : Type}.

Lemma elems_gappend (s : gslice A) xs : elems (gappend s xs) = elems s ++ xs.
Proof. destruct s, xs; simpl; rewrite ?app_nil_r; done. Qed.
Lemma gappend_nil (s : gslice A) : gappend s [] = s.
Proof. destruct s; simpl; rewrite ?app_nil_r; done. Qed.
Lemma gappend_app (s : gslice A) xs ys :
  gappend (gappend s xs) ys = gappend s (xs ++ ys).
Proof. destruct s, xs, ys; simpl; rewrite ?app_nil_r, <-?app_assoc; done. Qed.
End slices.

Lemma sumZ_nil : sumZ [] = 0%Z.
Proof. done. Qed.
Lemma sumZ_cons x l : sumZ (x :: l) = (x + sumZ l)%Z.
Proof. done. Qed.
Lemma sumZ_fmap_cons {A} (f : A → Z) x l : sumZ (f <$> x :: l) = (f x + sumZ (f <$> l))%Z.
Proof. done. Qed.
Lemma sumZ_app l1 l2 : sumZ (l1 ++ l2) = (sumZ l1 + sumZ l2)%Z.
Proof. induction l1 as [|x l1 IH]; [done|]. simpl. rewrite !sumZ_cons. lia. Qed.
Lemma sumZ_perm l1 l2 : l1 ≡ₚ l2 → sumZ l1 = sumZ l2.
Proof. induction 1; rewrite ?sumZ_cons; lia. Qed.
Lemma sumZ_fmap_nonneg {A} (f : A → Z) l :
  (∀ x, x ∈ l → 0 ≤ f x)%Z → (0 ≤ sumZ (f <$> l))%Z.
Proof.
  induction l as [|x l IH]; intros Hf; [done|]. rewrite sumZ_fmap_cons.
  pose proof (Hf x ltac:(by left)). assert (0 ≤ sumZ (f <$> l))%Z; [|lia].
  apply IH. intros. apply Hf. by right.
Qed.

Lemma sumZ_fmap_elem {A} (f : A → Z) l x :
  x ∈ l → (∀ y, y ∈ l → 0 ≤ f y)%Z → (f x ≤ sumZ (f <$> l))%Z.
Proof.
  intros Hx Hf. apply list_elem_of_split in Hx as (l1 & l2 & ->).
  rewrite fmap_app, fmap_cons, sumZ_app, sumZ_cons.
  pose proof (sumZ_fmap_nonneg f l1). pose proof (sumZ_fmap_nonneg f l2).
  assert (0 ≤ sumZ (f <$> l1))%Z by (apply sumZ_fmap_nonneg; set_solver).
  assert (0 ≤ sumZ (f <$> l2))%Z by (apply sumZ_fmap_nonneg; set_solver). lia.
Qed.
Lemma filter_not_nil {A} (P : A → Prop) `{∀ x, Decision (P x)} l :
  filter P l ≠ [] ↔ ∃ x, x ∈ l ∧ P x.
Proof.
  split.
  - destruct (filter P l) as [|x l'] eqn:E; [done|]. intros _. exists x.
    assert (x ∈ filter P l) as Hx by (rewrite E; by left). by apply list_elem_of_filter in Hx as [??].
  - intros (x & Hx & HP) E. assert (x ∈ filter P l) as Hin by by apply list_elem_of_filter.
    rewrite E in Hin. by apply not_elem_of_nil in Hin.
Qed.
Lemma filter_empty_iff {A} (P : A → Prop) `{∀ x, Decision (P x)} l :
  filter P l = [] ↔ ∀ x, x ∈ l → ¬ P x.
Proof.
  pose proof (filter_not_nil P l) as Hf. destruct (filter P l) as [|x l'].
  - split; [|done]. intros _ y Hy HP. by destruct (proj2 Hf (ex_intro _ y (conj Hy HP))).
  - split; [done|]. intros Hno. destruct (proj1 Hf) as (y & Hy & HP); [done|]. by destruct (Hno y Hy).
Qed.
Lemma list_filter_iff' {A} (P Q : A → Prop) `{∀ x, Decision (P x)} `{∀ x, Decision (Q x)} (l : list A) :
  (∀ x, x ∈ l → P x ↔ Q x) → filter P l = filter Q l.
Proof.
  induction l as [|x l IH]; intros HPQ; [done|]. rewrite !filter_cons.
  rewrite IH by (intros; apply HPQ; by right).
  pose proof (HPQ x ltac:(by left)). repeat case_decide; tauto.
Qed.
Lemma Some_default {A} (d : A) (o : option A) : bool_decide (is_Some o) = true → o = Some (default d o).
Proof. by destruct o. Qed.

Lemma NoDup_singleton_inv {A} (l : list A) (x : A) :
  NoDup l → (∀ y, y ∈ l ↔ y = x) → l = [x].
Proof.
  intros Hnd Hl. apply Permutation_singleton_r, NoDup_Permutation; [done|apply NoDup_singleton|].
  intros y. by rewrite Hl, list_elem_of_singleton.
Qed.
Global Instance sumZ_proper : Proper ((≡ₚ) ==> (=)) sumZ.
Proof. intros ???. by apply sumZ_perm. Qed.

(** ** Map iteration lemmas *)
Section map_order.
Context `{O : MapOrder} `{Countable K} {V : Type}.
Implicit Types m : gmap K V.

Lemma elem_of_map_order m k v : (k, v) ∈ map_order m ↔ m !! k = Some v.
Proof. rewrite map_order_perm. apply elem_of_map_to_list. Qed.
Lemma elem_of_map_order_fst m k : k ∈ (map_order m).*1 ↔ is_Some (m !! k).
Proof.
  rewrite list_elem_of_fmap. split.
  - intros ([k' v] & -> & Hin%elem_of_map_order). eauto.
  - intros [v Hv]. exists (k, v). by rewrite elem_of_map_order.
Qed.
Lemma NoDup_map_order_fst m : NoDup (map_order m).*1.
Proof. rewrite map_order_perm. apply NoDup_fst_map_to_list. Qed.
Lemma NoDup_map_order m : NoDup (map_order m).
Proof. rewrite map_order_perm. apply NoDup_map_to_list. Qed.
Lemma length_map_order m : length (map_order m) = size m.
Proof. by rewrite map_order_perm, length_map_to_list. Qed.
End map_order.

(** ** Loops that fill a map *)
Section insert_all.
Context `{Countable K} {A : Type} (f : A → K).

Lemma last_with_Some l k x : last_with f k l = Some x → f x = k ∧ x ∈ l.
Proof.
  induction l as [|y l IH]; simpl; [done|].
  destruct (last_with f k l); intros.
  - simplify_eq. destruct IH as [? ?]; [done|]. split; [done|]. by right.
  - case_decide; simplify_eq. split; [done|]. by left.
Qed.

Lemma last_with_None l k : last_with f k l = None ↔ ∀ x, x ∈ l → f x ≠ k.
Proof.
  induction l as [|y l IH]; simpl.
  - split; [intros _ x Hx; by apply not_elem_of_nil in Hx | done].
  - setoid_rewrite elem_of_cons. destruct (last_with f k l) eqn:E.
    + apply last_with_Some in E as [? ?]. split; [done|]. naive_solver.
    + case_decide; naive_solver.
Qed.

Lemma last_with_unique l k x :
  x ∈ l → f x = k → (∀ y, y ∈ l → f y = k → y = x) → last_with f k l = Some x.
Proof.
  intros Hx Hk Huniq. destruct (last_with f k l) as [y|] eqn:E.
  - apply last_with_Some in E as [??]. by rewrite (Huniq y).
  - rewrite last_with_None in E. by destruct (E x).
Qed.
Lemma lookup_insert_all {V} (g : A → V) l (m : gmap K V) k :
  insert_all f g l m !! k =
  match last_with f k l with Some x => Some (g x) | None => m !! k end.
Proof.
  revert m; induction l as [|x l IH]; intros m; simpl; [done|].
  rewrite IH. destruct (last_with f k l); [done|].
  rewrite lookup_insert. by case_decide.
Qed.
End insert_all.

(** A loop that writes every key a map has forgets the map. *)
Lemma insert_all_override `{Countable K} {A V} (f : A → K) (g : A → V) l (m : gmap K V) :
  (∀ k, is_Some (m !! k) → k ∈ f <$> l) → insert_all f g l m = insert_all f g l ∅.
Proof.
  intros Hm. apply map_eq; intros k. rewrite !lookup_insert_all.
  destruct (last_with f k l) as [x|] eqn:E; [done|]. rewrite lookup_empty.
  destruct (m !! k) as [v|] eqn:Ek; [|done]. rewrite last_with_None in E.
  assert (k ∈ f <$> l) as (x & ? & ?)%list_elem_of_fmap by (apply Hm; rewrite Ek; eauto).
  by destruct (E x).
Qed.
Lemma insert_all_keys `{Countable K} {A V} (f : A → K) (g : A → V) l k :
  is_Some (insert_all f g l ∅ !! k) → k ∈ f <$> l.
Proof.
  rewrite lookup_insert_all. destruct (last_with f k l) as [x|] eqn:E.
  - intros _. apply last_with_Some in E as [<- ?]. by apply list_elem_of_fmap_2.
  - rewrite lookup_empty. by intros [??].
Qed.

(** Filling an empty map under distinct keys lists exactly the entries. *)
Lemma map_to_list_insert_all `{Countable K} {A V} (f : A → K) (g : A → V) l (m : gmap K V) :
  NoDup (f <$> l) → (∀ x, x ∈ l → m !! f x = None) →
  map_to_list (insert_all f g l m) ≡ₚ ((λ x, (f x, g x)) <$> l) ++ map_to_list m.
Proof.
  revert m; induction l as [|x l IH]; intros m; simpl; [done|].
  intros [Hx Hnd]%NoDup_cons Hm. rewrite IH; [|done|].
  - rewrite map_to_list_insert by (apply Hm; by left). symmetry. apply Permutation_middle.
  - intros y Hy. rewrite lookup_insert_ne; [apply Hm; by right|].
    intros E. apply Hx. rewrite E. by apply list_elem_of_fmap_2.
Qed.

(** Copying a map entry by entry, in any order, is [fmap]. *)
Lemma insert_all_map_order `{O : MapOrder} `{Countable K} {V W} (g : V → W) (m : gmap K V) :
  insert_all fst (g ∘ snd) (map_order m) ∅ = g <$> m.
Proof.
  apply map_eq; intros k. rewrite lookup_insert_all, lookup_fmap.
  destruct (m !! k) as [v|] eqn:E; simpl.
  - assert (last_with fst k (map_order m) = Some (k, v)) as ->; [|done].
    apply last_with_unique; [by apply elem_of_map_order|done|].
    intros [k' v'] Hin%elem_of_map_order ?. by simplify_eq/=.
  - destruct (last_with _ _ _) as [[k' v']|] eqn:E'; [|done].
    apply last_with_Some in E' as [? Hin%elem_of_map_order]. by simplify_eq/=.
Qed.

Create HintDb copilot discriminated.
#[export] Hint Resolve u32_range i32_range NoDup_map_order_fst NoDup_map_order : copilot.
