(* ===== verification/GoStrings.v ===== *)
(** * Go strings

    Go strings are byte sequences, which is what [string] (a list of 8-bit
    [ascii]) is, so [len] is [String.length] and [<] the lexicographic order on
    bytes.  This file holds what the program uses of package [strings] and the
    order facts its sorts rely on. *)
From S2P Require Import Prelude.
From Stdlib Require Import Ascii.
From stdpp Require Import pretty.

(** ** Definitions *)

(** [strings.ToLower]: bytes [A]-[Z] are mapped when the string is ASCII; other
    strings go through the Unicode tables of the standard library, a parameter
    here. *)
Class UnicodeLower := unicode_ToLower : string → string.

Definition is_upper (c : ascii) : bool :=
  (65 <=? nat_of_ascii c)%nat && (nat_of_ascii c <=? 90)%nat.
Definition lower_byte (c : ascii) : ascii :=
  if is_upper c then ascii_of_nat (nat_of_ascii c + 32) else c.

Fixpoint isASCII (s : string) : bool :=
  match s with
  | EmptyString => true
  | String c s => (nat_of_ascii c <? 128)%nat && isASCII s
  end.
Fixpoint map_bytes (f : ascii → ascii) (s : string) : string :=
  match s with
  | EmptyString => EmptyString
  | String c s => String (f c) (map_bytes f s)
  end.

Definition ToLower `{UnicodeLower} (s : string) : string :=
  if isASCII s then map_bytes lower_byte s else unicode_ToLower s.

(** [strings.TrimRight(s, cutset)] for a one-byte cutset. *)
Fixpoint TrimRight (s : string) (cut : ascii) : string :=
  match s with
  | EmptyString => EmptyString
  | String c s =>
      match TrimRight s cut with
      | EmptyString => if bool_decide (c = cut) then EmptyString else String c EmptyString
      | s' => String c s'
      end
  end.

(** The operator [<] on strings. *)
Definition str_lt (a b : string) : bool := String.ltb a b.

(** [s[:i]] and [s[i+1:]] for the index [i] of the last [c] in [s]. *)
Fixpoint rsplit (c : ascii) (s : string) : option (string * string) :=
  match s with
  | EmptyString => None
  | String d s =>
      match rsplit c s with
      | Some (l, r) => Some (String d l, r)
      | None => if decide (d = c) then Some (EmptyString, s) else None
      end
  end.

(** [strconv.Itoa], and [strconv.Quote] (the format [%q]), a parameter. *)
Definition Itoa (z : Z) : string := pretty z.
Class GoQuote := Quote : string → string.

(** A string of [n] dots. *)
Fixpoint dots (n : nat) : string :=
  match n with O => EmptyString | S n => String "."%char (dots n) end.

(** ** The order on strings is a strict total order *)
Lemma str_lt_le a b : str_lt a b = false ↔ String.le b a.
Proof.
  unfold str_lt, String.ltb, String.le, String.leb.
  rewrite (String.compare_antisym a b).
  destruct (b ?= a)%string; simpl; rewrite ?Is_true_true; naive_solver.
Qed.

Lemma str_lt_asym a b : str_lt a b = true → str_lt b a = false.
Proof.
  intros H. apply str_lt_le. destruct (total String.le a b) as [|Hba]; [done|].
  apply str_lt_le in Hba. congruence.
Qed.

Lemma str_lt_irrefl a : str_lt a a = false.
Proof. by apply str_lt_le. Qed.

Lemma str_lt_total a b : str_lt a b = false → str_lt b a = false → a = b.
Proof. intros ?%str_lt_le ?%str_lt_le. by apply (anti_symm String.le). Qed.

(** ** Concatenation *)
Lemma string_app_nil_r (s : string) : s +:+ "" = s.
Proof. induction s; [done|]. unfold String.app in *. simpl. congruence. Qed.

Lemma string_app_nil_l (s : string) : "" +:+ s = s.
Proof. done. Qed.

Lemma string_app_cons c (s t : string) : String c s +:+ t = String c (s +:+ t).
Proof. done. Qed.

Lemma string_app_assoc (a b c : string) : (a +:+ b) +:+ c = a +:+ (b +:+ c).
Proof. induction a; [done|]. rewrite !string_app_cons. congruence. Qed.

Lemma string_app_length (a b : string) :
  String.length (a +:+ b) = String.length a + String.length b.
Proof. induction a; [done|]. rewrite string_app_cons. simpl. congruence. Qed.

(** Equal-length prefixes of equal strings are equal. *)
Lemma string_app_inj_length (a a' b b' : string) :
  String.length a = String.length a' → a +:+ b = a' +:+ b' → a = a' ∧ b = b'.
Proof.
  revert a'; induction a as [|c a IH]; intros [|c' a'] Hlen Heq; try done.
  rewrite !string_app_cons in Heq. simplify_eq/=.
  destruct (IH a') as [-> ->]; auto.
Qed.

(** ** [TrimRight] *)
Lemma TrimRight_dots n : TrimRight (dots n) "." = "".
Proof. induction n as [|n IH]; [done|]. simpl. by rewrite IH. Qed.

(** The result of trimming followed by the dots that were cut is the input. *)
Lemma TrimRight_spec s : ∃ n, s = TrimRight s "." +:+ dots n.
Proof.
  induction s as [|c s [n IH]]; [by exists O|]. simpl.
  destruct (TrimRight s ".") as [|c' s'] eqn:E.
  - case_bool_decide as Hc.
    + exists (S n). subst c. rewrite IH. done.
    + exists n. rewrite string_app_cons. f_equal. exact IH.
  - exists n. rewrite string_app_cons. f_equal. exact IH.
Qed.

Lemma TrimRight_app_dots s n : TrimRight (s +:+ dots n) "." = TrimRight s ".".
Proof.
  induction s as [|c s IH]; [by rewrite string_app_nil_l, TrimRight_dots|].
  rewrite string_app_cons. simpl. by rewrite IH.
Qed.

(** ** Numbers *)

(** A printed number is never empty. *)
Lemma pretty_go_ne_empty x s : s ≠ "" → pretty_N_go x s ≠ "".
Proof.
  revert s. induction (N.lt_wf_0 x) as [x _ IH]; intros s Hs.
  destruct (decide (0 < x)%N) as [Hx|Hx].
  - rewrite pretty_N_go_step by done. apply IH; [by apply N.div_lt|done].
  - assert (x = 0%N) as -> by lia. by rewrite pretty_N_go_0.
Qed.
Lemma pretty_N_ne_empty (n : N) : pretty n ≠ "".
Proof.
  unfold pretty, pretty_N. case_decide; [done|].
  rewrite pretty_N_go_step by lia. by apply pretty_go_ne_empty.
Qed.
Lemma Itoa_ne_empty z : Itoa z ≠ "".
Proof. unfold Itoa. destruct z; [done|apply pretty_N_ne_empty|done]. Qed.
Lemma Itoa_inj z1 z2 : Itoa z1 = Itoa z2 → z1 = z2.
Proof. apply (inj pretty). Qed.
