(* ===== verification/GoSort.v ===== *)
(** * [sort.SliceStable]

    A stable sort of a list by a [less] function.  The standard library documents
    the result (sorted, equal elements in their original order), which determines
    it for every [less] that is a strict weak order: [SliceStable_perm],
    [SliceStable_sorted] and [SliceStable_filter] state those three facts. *)
From S2P Require Import Prelude.

Section def.
Context {A : Type} (less : A → A → bool).

Fixpoint stable_insert (x : A) (l : list A) : list A :=
  match l with
  | [] => [x]
  | y :: l' => if less y x then y :: stable_insert x l' else x :: l
  end.
Definition SliceStable (l : list A) : list A := foldr stable_insert [] l.
End def.

(** What the program's [less] functions satisfy: comparison of a key in a total
    order. *)
Class WeakOrder {A} (less : A → A → bool) := {
  less_asym : ∀ x y, less x y = true → less y x = false;
  nless_trans : ∀ x y z, less y x = false → less z y = false → less z x = false;
}.

Definition nless {A} (less : A → A → bool) (x y : A) : Prop := less y x = false.

Section sort_lemmas.
Context {A : Type} (less : A → A → bool) `{!WeakOrder less}.
Local Notation le := (nless less).

Lemma le_total x y : le x y ∨ le y x.
Proof.
  unfold nless. destruct (less y x) eqn:E; [|by left]. right. by apply less_asym.
Qed.

Lemma stable_insert_perm x l : stable_insert less x l ≡ₚ x :: l.
Proof.
  induction l as [|y l IH]; simpl; [done|].
  destruct (less y x); [|done]. rewrite IH. apply Permutation_swap.
Qed.

Lemma SliceStable_perm l : SliceStable less l ≡ₚ l.
Proof.
  induction l as [|x l IH]; simpl; [done|].
  change (stable_insert less x (SliceStable less l) ≡ₚ x :: l).
  by rewrite stable_insert_perm, IH.
Qed.

Lemma stable_insert_sorted x l :
  StronglySorted le l → StronglySorted le (stable_insert less x l).
Proof.
  induction 1 as [|y l Hs IH Hy]; simpl; [repeat constructor|].
  destruct (less y x) eqn:E.
  - constructor; [done|]. rewrite stable_insert_perm. constructor; [|done].
    by apply less_asym.
  - constructor; [by constructor|]. constructor; [done|].
    eapply Forall_impl; [exact Hy|]. intros z Hz. by eapply nless_trans.
Qed.

Lemma SliceStable_sorted l : StronglySorted le (SliceStable less l).
Proof. induction l; simpl; [constructor|]. by apply stable_insert_sorted. Qed.

(** Stability: the elements of a class of mutually equal elements keep their
    order. *)
Lemma stable_insert_filter (P : A → Prop) `{∀ x, Decision (P x)} x l :
  (∀ y z, P y → P z → less y z = false) →
  filter P (stable_insert less x l) = filter P (x :: l).
Proof.
  intros HP. induction l as [|y l IH]; [done|]. simpl stable_insert.
  destruct (less y x) eqn:E; [|done].
  rewrite (filter_cons _ y), IH, !filter_cons.
  repeat case_decide; try done. by rewrite HP in E.
Qed.

Lemma SliceStable_filter (P : A → Prop) `{∀ x, Decision (P x)} l :
  (∀ y z, P y → P z → less y z = false) →
  filter P (SliceStable less l) = filter P l.
Proof.
  intros HP. induction l as [|x l IH]; [done|].
  change (filter P (stable_insert less x (SliceStable less l)) = filter P (x :: l)).
  rewrite stable_insert_filter by done. rewrite !filter_cons, IH. done.
Qed.

Lemma stable_insert_sorted_id x l :
  StronglySorted le (x :: l) → stable_insert less x l = x :: l.
Proof.
  intros Hs. destruct l as [|y l]; [done|]. simpl.
  apply StronglySorted_inv in Hs as [_ Hs]. apply Forall_cons in Hs as [Hs _].
  unfold nless in Hs. by rewrite Hs.
Qed.

Lemma SliceStable_id l : StronglySorted le l → SliceStable less l = l.
Proof.
  induction 1 as [|x l Hs IH Hx]; [done|].
  change (stable_insert less x (SliceStable less l) = x :: l).
  rewrite IH. apply stable_insert_sorted_id. by constructor.
Qed.

(** When distinct elements have distinct keys the sort forgets the input order. *)
Lemma SliceStable_unique l1 l2 :
  l1 ≡ₚ l2 →
  (∀ x y, x ∈ l1 → y ∈ l1 → less x y = false → less y x = false → x = y) →
  SliceStable less l1 = SliceStable less l2.
Proof.
  intros Hp Hkey. apply (StronglySorted_unique_strong le).
  - intros x1 x2 Hx1 Hx2. rewrite SliceStable_perm in Hx1.
    rewrite SliceStable_perm, <-Hp in Hx2. unfold nless. auto.
  - apply SliceStable_sorted.
  - apply SliceStable_sorted.
  - by rewrite !SliceStable_perm.
Qed.

Lemma elem_of_SliceStable x l : x ∈ SliceStable less l ↔ x ∈ l.
Proof. by rewrite SliceStable_perm. Qed.
End sort_lemmas.

(** ** Sorted lists and their parts *)
Section parts.
Context {A : Type}.

Lemma StronglySorted_sublist (R : A → A → Prop) l k :
  l `sublist_of` k → StronglySorted R k → StronglySorted R l.
Proof.
  induction 1 as [|x l k Hs IH|x l k Hs IH]; intros Hk; [constructor|..].
  - apply StronglySorted_inv in Hk as [Hk Hx]. constructor; [by apply IH|].
    rewrite Forall_forall in *. intros y Hy. apply Hx. by eapply elem_of_sublist.
  - apply StronglySorted_inv in Hk as [Hk _]. by apply IH.
Qed.

Lemma StronglySorted_impl' (R R' : A → A → Prop) l :
  (∀ a b, R a b → R' a b) → StronglySorted R l → StronglySorted R' l.
Proof.
  intros HR. induction 1 as [|x l Hs IH Hx]; constructor; [done|].
  eapply Forall_impl; [exact Hx|]. eauto.
Qed.

Lemma sublist_filter_self (P : A → Prop) `{∀ x, Decision (P x)} l : filter P l `sublist_of` l.
Proof.
  induction l as [|x l IH]; [done|]. rewrite filter_cons. case_decide.
  - by apply sublist_skip.
  - by apply sublist_cons.
Qed.

Lemma sublist_filter (P : A → Prop) `{∀ x, Decision (P x)} l k :
  l `sublist_of` k → filter P l `sublist_of` filter P k.
Proof.
  induction 1 as [|x l k Hs IH|x l k Hs IH]; [done|..]; rewrite !filter_cons; case_decide; try done.
  - by apply sublist_skip.
  - by apply sublist_cons.
Qed.

Lemma StronglySorted_reverse (R : A → A → Prop) l :
  StronglySorted R l → StronglySorted (flip R) (reverse l).
Proof.
  induction 1 as [|x l Hs IH Hx]; [constructor|]. rewrite reverse_cons.
  apply StronglySorted_app_2; [|done|repeat constructor].
  intros y z Hy ->%list_elem_of_singleton. unfold flip. rewrite Forall_forall in Hx.
  apply Hx. by rewrite elem_of_reverse in Hy.
Qed.
End parts.
