(* ===== verification/GoFloat.v ===== *)
(** * [float32]

    Go's [float32] is IEEE 754 binary32 and its conversions and operators round
    to nearest even, which is what the Standard Library's [SpecFloat] computes
    at precision 24 and exponent bound 128.  The lemmas bound the rounding error
    of the operations on normal numbers by one unit in the last place. *)
From S2P Require Import Prelude.
From Stdlib Require Import SpecFloat.
Local Open Scope Z_scope.

(** ** Definitions *)
Abbreviation prec := 24.
Abbreviation emax := 128.

(** [float32(u)] for a [uint32]. *)
Definition f32_of_u32 (z : Z) : spec_float := binary_normalize prec emax z 0 false.
Definition f32_div (x y : spec_float) : spec_float := SFdiv prec emax x y.
Definition f32_mul (x y : spec_float) : spec_float := SFmul prec emax x y.

(** A conversion of a float that is not in range of the integer type succeeds
    with an implementation-dependent value. *)
Class FloatToInt := {
  f2i_out_of_range : spec_float → Z;
  f2i_out_of_range_i32 : ∀ x, - 2 ^ 31 ≤ f2i_out_of_range x < 2 ^ 31;
}.

(** The amd64 instruction gives the "integer indefinite" value. *)
Definition amd64 : FloatToInt :=
  {| f2i_out_of_range := λ _, - 2 ^ 31;
     f2i_out_of_range_i32 := λ _, conj (Z.le_refl _) eq_refl |}.

(** The integer part of [m * 2 ^ e]. *)
Definition trunc (m : positive) (e : Z) : Z :=
  if 0 <=? e then Zpos m * 2 ^ e else Zpos m / 2 ^ (- e).

(** [int32(x)]. *)
Definition f32_to_i32 `{FloatToInt} (x : spec_float) : Z :=
  match x with
  | S754_zero _ => 0
  | S754_finite s m e =>
      let t := if s then - trunc m e else trunc m e in
      if (- 2 ^ 31 <=? t) && (t <? 2 ^ 31) then t else f2i_out_of_range x
  | _ => f2i_out_of_range x
  end.

(** ** Lemmas on the rounding primitives *)
Lemma Zdigits2_log2 m : 0 < m → Zdigits2 m = Z.log2 m + 1.
Proof.
  intros Hm. destruct m as [|p|p]; [lia| |lia]. clear Hm.
  change (Zpos (digits2_pos p) = Z.log2 (Zpos p) + 1).
  induction p as [p IH|p IH|]; [| |done].
  - change (digits2_pos p~1) with (Pos.succ (digits2_pos p)).
    rewrite Pos2Z.inj_succ, Pos2Z.inj_xI, Z.log2_succ_double; lia.
  - change (digits2_pos p~0) with (Pos.succ (digits2_pos p)).
    rewrite Pos2Z.inj_succ, Pos2Z.inj_xO, Z.log2_double; lia.
Qed.

Lemma shr_1_m mrs : 0 ≤ shr_m mrs → shr_m (shr_1 mrs) = shr_m mrs / 2.
Proof.
  destruct mrs as [[|[p|p|]|p] r s]; cbn; intros; try done; try lia.
  - rewrite (Pos2Z.inj_xI p). apply Z.div_unique with 1; lia.
  - rewrite (Pos2Z.inj_xO p). apply Z.div_unique with 0; lia.
Qed.

Lemma iter_shr_m n mrs :
  0 ≤ shr_m mrs → shr_m (iter_pos shr_1 n mrs) = shr_m mrs / 2 ^ Zpos n.
Proof.
  revert mrs; induction n as [n IH|n IH|]; intros mrs Hm; cbn [iter_pos].
  - pose proof (shr_1_m mrs Hm) as E1.
    assert (0 ≤ shr_m (shr_1 mrs)) by (rewrite E1; apply Z.div_pos; lia).
    assert (shr_m (iter_pos shr_1 n (shr_1 mrs)) = shr_m mrs / 2 / 2 ^ Zpos n) as E2
      by (rewrite IH, E1; [done|done]).
    rewrite IH.
    + rewrite E2, !Z.div_div by lia. f_equal.
      rewrite Pos2Z.inj_xI, Z.pow_add_r, Z.mul_comm, Z.pow_mul_r by lia.
      change (2 ^ 1) with 2. rewrite <-Z.pow_mul_r by lia.
      replace (2 * Z.pos n) with (Z.pos n + Z.pos n) by lia.
      rewrite Z.pow_add_r by lia. ring.
    + rewrite E2. apply Z.div_pos; [|lia]. apply Z.div_pos; lia.
  - pose proof (IH mrs Hm) as E1. rewrite IH.
    + rewrite E1, Z.div_div by lia. f_equal. rewrite <-Z.pow_add_r by lia. f_equal. lia.
    + rewrite E1. apply Z.div_pos; lia.
  - by apply shr_1_m.
Qed.

Lemma shr_m_shr mrs e n :
  0 ≤ shr_m mrs → 0 ≤ n →
  shr_m (shr mrs e n).1 = shr_m mrs / 2 ^ n ∧ (shr mrs e n).2 = e + n.
Proof.
  intros Hm Hn. destruct n as [|n|n]; [| |lia]; cbn [shr].
  - cbn [fst snd]. rewrite Z.pow_0_r, Z.div_1_r. lia.
  - cbn [fst snd]. split; [by apply iter_shr_m|done].
Qed.

Lemma shr_m_of_loc m l : shr_m (shr_record_of_loc m l) = m.
Proof. by destruct l as [|[]]. Qed.

(** Rounding to nearest is faithful. *)
Lemma round_nearest_even_faithful m l :
  round_nearest_even m l = m ∨ round_nearest_even m l = m + 1.
Proof. destruct l as [|[]]; cbn; try destruct (Z.even m); auto. Qed.

(** [shr_fexp] at binary32 of a number with at least 24 bits. *)
Lemma shr_fexp_norm m e l :
  2 ^ 23 ≤ m → -149 ≤ e + Z.log2 m - 23 →
  shr_m (shr_fexp prec emax m e l).1 = m / 2 ^ (Z.log2 m - 23) ∧
  (shr_fexp prec emax m e l).2 = e + Z.log2 m - 23.
Proof.
  intros Hm He. unfold shr_fexp.
  assert (23 ≤ Z.log2 m) by (change 23 with (Z.log2 (2 ^ 23)); by apply Z.log2_le_mono).
  replace (fexp prec emax (Zdigits2 m + e) - e) with (Z.log2 m - 23).
  - destruct (shr_m_shr (shr_record_of_loc m l) e (Z.log2 m - 23)) as [E1 E2];
      rewrite ?shr_m_of_loc in *; [lia..|]. rewrite E1, E2. lia.
  - rewrite Zdigits2_log2 by lia. unfold fexp, emin. lia.
Qed.

(** A rounded normal number: its mantissa is the exact quotient rounded down or
    up, up to renormalisation. *)
Lemma binary_round_aux_faithful mx ex lx :
  2 ^ 23 ≤ mx → -149 ≤ ex + Z.log2 mx - 23 → ex + Z.log2 mx - 23 < 104 →
  ∃ m e M,
    binary_round_aux prec emax false mx ex lx = S754_finite false m e ∧
    2 ^ 23 ≤ M ∧ 2 ^ 23 ≤ Zpos m < 2 ^ 24 ∧
    (M = mx / 2 ^ (Z.log2 mx - 23) ∨ M = mx / 2 ^ (Z.log2 mx - 23) + 1) ∧
    let E := ex + Z.log2 mx - 23 in
    (Zpos m = M ∧ e = E ∨ 2 * Zpos m = M ∧ e = E + 1).
Proof.
  intros Hmx He1 He2. unfold binary_round_aux.
  destruct (shr_fexp_norm mx ex lx Hmx He1) as [Em Ee].
  destruct (shr_fexp prec emax mx ex lx) as [mrs e'] eqn:E1. cbn [fst snd] in Em, Ee.
  set (k := Z.log2 mx - 23) in *.
  assert (23 ≤ Z.log2 mx) by (change 23 with (Z.log2 (2 ^ 23)); by apply Z.log2_le_mono).
  assert (0 ≤ k) by lia.
  assert (2 ^ 23 ≤ mx / 2 ^ k < 2 ^ 24) as Hq.
  { destruct (Z.log2_spec mx) as [Hl Hu]; [lia|]. split.
    - apply Z.div_le_lower_bound; [lia|]. rewrite <-Z.pow_add_r by lia.
      replace (k + 23) with (Z.log2 mx) by lia. done.
    - apply Z.div_lt_upper_bound; [lia|]. rewrite <-Z.pow_add_r by lia.
      replace (k + 24) with (Z.succ (Z.log2 mx)) by lia. done. }
  set (M := round_nearest_even (shr_m mrs) (loc_of_shr_record mrs)).
  assert (M = mx / 2 ^ k ∨ M = mx / 2 ^ k + 1) as HM
    by (rewrite <-Em; apply round_nearest_even_faithful).
  assert (2 ^ 23 ≤ M ≤ 2 ^ 24) by lia.
  assert (Z.log2 M = 23 ∧ M < 2 ^ 24 ∨ M = 2 ^ 24 ∧ Z.log2 M = 24) as HlM.
  { destruct (decide (M = 2 ^ 24)) as [->|]; [right; done|left].
    split; [|lia]. apply Z.log2_unique; lia. }
  destruct (shr_fexp_norm M e' loc_Exact) as [Em2 Ee2]; [lia|lia|].
  destruct (shr_fexp prec emax M e' loc_Exact) as [mrs2 e2]. cbn [fst snd] in Em2, Ee2.
  rewrite Em2. destruct HlM as [[Hl Hlt]|[HM24 Hl]]; rewrite Hl in *.
  - rewrite Z.pow_0_r, Z.div_1_r. destruct M as [|m|m] eqn:EM; [lia| |lia].
    assert (e2 <=? emax - prec = true) as -> by (apply Z.leb_le; lia).
    exists m, e2, (Zpos m). split_and!; auto; lia.
  - rewrite HM24. change (2 ^ 24 / 2 ^ (24 - 23)) with (8388608).
    assert (e2 <=? emax - prec = true) as -> by (apply Z.leb_le; lia).
    exists 8388608%positive, e2, (2 ^ 24). rewrite <-HM24. split_and!; auto; try lia.
    all: right; lia.
Qed.

Lemma shl_align_exact m n ex : 0 ≤ n →
  ∃ p, shl_align m ex (ex - n) = (p, ex - n) ∧ Zpos p = Zpos m * 2 ^ n.
Proof.
  intros Hn. unfold shl_align. replace (ex - n - ex) with (- n) by lia.
  destruct n as [|n|n]; [| |lia].
  - exists m. split; [cbn; f_equal; lia|lia].
  - exists (Pos.iter xO m n). split; [done|]. clear Hn.
    induction n as [|n IH] using Pos.peano_ind; [cbn; lia|].
    rewrite Pos.iter_succ. rewrite Pos2Z.inj_xO, IH.
    rewrite Pos2Z.inj_succ, Z.pow_succ_r by lia. ring.
Qed.

(** Small integers convert exactly. *)
Lemma f32_of_u32_exact w : 0 < w < 2 ^ 24 →
  ∃ m, f32_of_u32 w = S754_finite false m (Z.log2 w - 23) ∧
       Zpos m = w * 2 ^ (23 - Z.log2 w) ∧ 2 ^ 23 ≤ Zpos m < 2 ^ 24.
Proof.
  intros Hw. destruct w as [|w|w]; [lia| |lia].
  assert (0 ≤ Z.log2 (Zpos w) ≤ 23) as Hlog.
  { split; [apply Z.log2_nonneg|].
    assert (Z.log2 (Zpos w) < 24) by (apply Z.log2_lt_pow2; lia). lia. }
  destruct (Z.log2_spec (Zpos w)) as [Hl Hu]; [lia|].
  unfold f32_of_u32, binary_normalize, binary_round.
  change (Zpos (digits2_pos w)) with (Zdigits2 (Zpos w)).
  rewrite Zdigits2_log2 by lia. set (L := Z.log2 (Zpos w)) in *.
  replace (fexp prec emax (L + 1 + 0)) with (0 - (23 - L)) by (unfold fexp, emin; lia).
  destruct (shl_align_exact w (23 - L) 0) as (p & -> & Hp); [lia|].
  assert (2 ^ 23 ≤ Zpos p < 2 ^ 24) as Hpr.
  { rewrite Hp. assert (2 ^ 23 = 2 ^ L * 2 ^ (23 - L)) as -> by (rewrite <-Z.pow_add_r by lia; f_equal; lia).
    assert (2 ^ 24 = 2 ^ (Z.succ L) * 2 ^ (23 - L)) as -> by (rewrite <-Z.pow_add_r by lia; f_equal; lia).
    pose proof (Z.pow_pos_nonneg 2 (23 - L)). nia. }
  assert (Z.log2 (Zpos p) = 23) as Hlp by (apply Z.log2_unique; lia).
  assert (0 - (23 - L) = L - 23) as HeL by lia. rewrite HeL.
  exists p. split; [|split; [done|done]].
  unfold binary_round_aux.
  assert (∀ l, shr_fexp prec emax (Zpos p) (L - 23) l = (shr_record_of_loc (Zpos p) l, L - 23)) as Hsf.
  { intros l. unfold shr_fexp. rewrite Zdigits2_log2, Hlp by lia.
    replace (fexp prec emax (23 + 1 + (L - 23)) - (L - 23)) with 0
      by (unfold fexp, emin; lia). done. }
  rewrite Hsf. cbn [shr_record_of_loc shr_m loc_of_shr_record round_nearest_even].
  rewrite Hsf. cbn [shr_record_of_loc shr_m].
  assert (L - 23 <=? emax - prec = true) as -> by (apply Z.leb_le; lia). done.
Qed.

(** ** A ratio of small integers, as a percentage *)

(** [float32(w) / float32(d)]: the quotient [w / d] rounded at a unit [2 ^ -A]
    that is at most [2 ^ -23] of it. *)
(** The 24 leading digits of a number. *)
Lemma leading_digits x : 2 ^ 23 ≤ x → 2 ^ 23 ≤ x / 2 ^ (Z.log2 x - 23) < 2 ^ 24.
Proof.
  intros Hx. destruct (Z.log2_spec x) as [H1 H2]; [lia|].
  assert (23 ≤ Z.log2 x) by (change 23 with (Z.log2 (2 ^ 23)); by apply Z.log2_le_mono). split.
  - apply Z.div_le_lower_bound; [lia|]. rewrite <-Z.pow_add_r by lia.
    replace (Z.log2 x - 23 + 23) with (Z.log2 x) by lia. done.
  - apply Z.div_lt_upper_bound; [lia|]. rewrite <-Z.pow_add_r by lia.
    replace (Z.log2 x - 23 + 24) with (Z.succ (Z.log2 x)) by lia. done.
Qed.

(** Division by [t] and multiplication by [v], for a quotient that is off by less than one. *)
Lemma rescale x y p t v :
  0 < t → 0 < v → x * t = y * v → (p = y / t ∨ p = y / t + 1) →
  (p - 1) * v ≤ x ∧ x < (p + 1) * v.
Proof.
  intros Ht Hv Hs Hp. pose proof (Z.mul_div_le y t Ht) as Hlo.
  pose proof (Z.mul_succ_div_gt y t Ht) as Hhi. rewrite <-Z.add_1_r in Hhi.
  set (q := y / t) in *. clearbody q. split.
  - apply (Z.mul_le_mono_pos_r _ _ t Ht). rewrite Hs.
    assert ((p - 1) * t ≤ y) as HPT by (destruct Hp as [->| ->]; nia).
    replace ((p - 1) * v * t) with ((p - 1) * t * v) by ring. apply Z.mul_le_mono_pos_r; done.
  - apply (Z.mul_lt_mono_pos_r t _ _ Ht). rewrite Hs.
    assert (y < (p + 1) * t) as HPT by (destruct Hp as [->| ->]; nia).
    replace ((p + 1) * v * t) with ((p + 1) * t * v) by ring. apply Z.mul_lt_mono_pos_r; done.
Qed.

Lemma f32_div_small w d : 0 < w ≤ d → d ≤ 2 ^ 15 →
  ∃ m e M A,
    f32_div (f32_of_u32 w) (f32_of_u32 d) = S754_finite false m e ∧
    22 ≤ A ≤ 40 ∧ 2 ^ 23 ≤ Zpos m < 2 ^ 24 ∧ 2 ^ 23 * d ≤ w * 2 ^ A ∧
    (M - 1) * d ≤ w * 2 ^ A ∧ w * 2 ^ A < (M + 1) * d ∧
    (Zpos m = M ∧ e = - A ∨ 2 * Zpos m = M ∧ e = - A + 1).
Proof.
  intros Hw Hd.
  destruct (f32_of_u32_exact w) as (m1 & -> & Hm1 & Hr1); [lia|].
  destruct (f32_of_u32_exact d) as (m2 & -> & Hm2 & Hr2); [lia|].
  assert (0 ≤ Z.log2 w ∧ Z.log2 w ≤ Z.log2 d ∧ Z.log2 d ≤ 15) as (Hlw & Hlwd & Hld).
  { split_and!; [apply Z.log2_nonneg|apply Z.log2_le_mono; lia|].
    change 15 with (Z.log2 (2 ^ 15)). by apply Z.log2_le_mono. }
  set (a := 23 - Z.log2 w) in *. set (b := 23 - Z.log2 d) in *.
  replace (Z.log2 w - 23) with (- a) by lia. replace (Z.log2 d - 23) with (- b) by lia.
  assert (∀ p, 2 ^ 23 ≤ Zpos p < 2 ^ 24 → Zdigits2 (Zpos p) = 24) as Hdig.
  { intros p Hp. rewrite Zdigits2_log2 by lia. rewrite (Z.log2_unique (Zpos p) 23); lia. }
  unfold f32_div, SFdiv, SFdiv_core_binary. rewrite !Hdig by done.
  replace (Z.min (fexp prec emax (24 + - a - (24 + - b))) (- a - - b)) with (b - a - 24)
    by (unfold fexp, emin; lia).
  replace (- a - - b - (b - a - 24)) with 24 by lia.
  rewrite Z.shiftl_mul_pow2 by lia.
  destruct (Z.div_eucl (Zpos m1 * 2 ^ 24) (Zpos m2)) as [q r] eqn:Eq.
  assert (q = Zpos m1 * 2 ^ 24 / Zpos m2) as Hq by (unfold Z.div; by rewrite Eq).
  assert (2 ^ 23 ≤ q < 2 ^ 25) as Hqr.
  { rewrite Hq. split; [apply Z.div_le_lower_bound|apply Z.div_lt_upper_bound]; lia. }
  assert (Z.log2 q = 23 ∨ Z.log2 q = 24) as Hlq.
  { assert (23 ≤ Z.log2 q) by (change 23 with (Z.log2 (2 ^ 23)); apply Z.log2_le_mono; lia).
    assert (Z.log2 q < 25) by (apply Z.log2_lt_pow2; lia). lia. }
  destruct (binary_round_aux_faithful q (b - a - 24) (new_location (Zpos m2) r))
    as (m & e & M & Hres & HM & Hm & HMq & He); [lia..|].
  set (k := Z.log2 q - 23) in *.
  exists m, e, M, (a + 24 - b - k). split; [exact Hres|]. split; [lia|]. split; [done|].
  assert (2 ^ 23 ≤ q / 2 ^ k) as Hqk by (apply leading_digits; lia).
  set (Q := q / 2 ^ k) in *. set (A := a + 24 - b - k) in *.
  assert (Q = w * 2 ^ A / d) as HQ.
  { unfold Q. rewrite Hq, Hm1, Hm2, Z.div_div by lia.
    rewrite <-Z.mul_assoc, <-Z.pow_add_r by lia.
    rewrite <-Z.mul_assoc, <-Z.pow_add_r by lia.
    replace (a + 24) with (A + (b + k)) by lia. rewrite Z.pow_add_r by lia.
    rewrite Z.mul_assoc. apply Z.div_mul_cancel_r; lia. }
  pose proof (Z.mul_div_le (w * 2 ^ A) d ltac:(lia)) as Hlo.
  pose proof (Z.mul_succ_div_gt (w * 2 ^ A) d ltac:(lia)) as Hhi.
  rewrite <-HQ in Hlo, Hhi.
  clear - Hlo Hhi Hqk HMq He Hw.
  set (X := w * 2 ^ A) in *. rewrite <-Z.add_1_r in Hhi.
  assert (2 ^ 23 * d ≤ X).
  { transitivity (d * Q); [|done]. rewrite Z.mul_comm. apply Z.mul_le_mono_nonneg_l; lia. }
  split; [done|]. split; [destruct HMq as [->| ->]; nia|].
  split; [destruct HMq as [->| ->]; nia|].
  replace (- A) with (b - a - 24 + Z.log2 q - 23) by lia. exact He.
Qed.

(** The integer part of [x * 100] for such a quotient. *)
Lemma f32_mul100_trunc `{FloatToInt} m e :
  2 ^ 23 ≤ Zpos m < 2 ^ 24 → -40 ≤ e ≤ -21 →
  ∃ P F, 14 ≤ F ∧ 2 ^ 23 ≤ P ≤ 2 ^ 24 ∧
    (P - 1) * 2 ^ (- e) ≤ 100 * Zpos m * 2 ^ F ∧
    100 * Zpos m * 2 ^ F < (P + 1) * 2 ^ (- e) ∧
    f32_to_i32 (f32_mul (S754_finite false m e) (f32_of_u32 100)) = P / 2 ^ F.
Proof.
  intros Hm He.
  assert (f32_of_u32 100 = S754_finite false 13107200 (-17)) as -> by reflexivity.
  unfold f32_mul, SFmul. cbn [xorb].
  set (mx := Zpos (m * 13107200)).
  assert (mx = Zpos m * 13107200) as Hmx by done.
  assert (Z.log2 mx = 46 ∨ Z.log2 mx = 47) as Hl.
  { assert (46 ≤ Z.log2 mx) by (change 46 with (Z.log2 (2 ^ 46)); apply Z.log2_le_mono; lia).
    assert (Z.log2 mx < 48) by (apply Z.log2_lt_pow2; lia). lia. }
  destruct (binary_round_aux_faithful mx (e + -17) loc_Exact)
    as (m3 & e3 & P & Hres & HP & Hm3 & HPq & He3); [lia..|].
  rewrite Hres. set (k := Z.log2 mx - 23) in *.
  assert (2 ^ 23 ≤ mx / 2 ^ k < 2 ^ 24) as Hq by (apply leading_digits; lia).
  cbv zeta in He3. set (F := - e + 17 - k).
  assert (trunc m3 e3 = P / 2 ^ F) as Ht.
  { unfold trunc. assert (0 <=? e3 = false) as -> by (apply Z.leb_gt; lia).
    destruct He3 as [[Hm3' ->]|[Hm3' ->]].
    - rewrite Hm3'. do 2 f_equal. lia.
    - rewrite <-Hm3'. replace F with (1 + - (e + -17 + Z.log2 mx - 23 + 1)) by lia.
      rewrite Z.pow_add_r by lia. change (2 ^ 1) with 2.
      rewrite Z.div_mul_cancel_l by (try apply Z.pow_nonzero; lia). done. }
  assert (14 ≤ F) by (unfold F; lia).
  exists P, F. split; [done|]. split; [destruct HPq as [->| ->]; lia|].
  assert (100 * Zpos m * 2 ^ F * 2 ^ k = mx * 2 ^ (- e)) as Hscale.
  { rewrite <-Z.mul_assoc, <-Z.pow_add_r by lia. unfold F.
    replace (- e + 17 - k + k) with (17 + - e) by lia. rewrite Z.pow_add_r by lia.
    rewrite Hmx. change 13107200 with (100 * 2 ^ 17). ring. }
  destruct (rescale _ mx P (2 ^ k) (2 ^ (- e)) ltac:(lia) ltac:(lia) Hscale) as [? ?];
    [by destruct HPq; [left|right]|].
  split; [done|]. split; [done|].
  unfold f32_to_i32. rewrite Ht.
  assert (0 ≤ P / 2 ^ F < 2 ^ 24) as Hb.
  { split; [apply Z.div_pos; lia|]. apply Z.div_lt_upper_bound; [lia|].
    assert (2 ^ 14 ≤ 2 ^ F) by (apply Z.pow_le_mono_r; lia). nia. }
  assert ((- 2 ^ 31 <=? P / 2 ^ F) = true) as -> by (apply Z.leb_le; lia).
  assert ((P / 2 ^ F <? 2 ^ 31) = true) as -> by (apply Z.ltb_lt; lia). done.
Qed.

(** [int32((float32(w) / float32(d)) * 100)] is the percentage rounded down, or
    one below it. *)
Lemma f32_percent `{FloatToInt} w d : 0 < w ≤ d → d ≤ 2 ^ 15 →
  let g := f32_to_i32 (f32_mul (f32_div (f32_of_u32 w) (f32_of_u32 d)) (f32_of_u32 100)) in
  d * g ≤ 100 * w ≤ d * g + d.
Proof.
  intros Hw Hd. cbv zeta.
  destruct (f32_div_small w d Hw Hd) as (m & e & M & A & -> & HA & Hm & Hbig & Hlo & Hhi & HmM).
  destruct (f32_mul100_trunc m e) as (P & F & HF & HP & Plo & Phi & ->); [done|lia|].
  assert ((P - 1) * 2 ^ A ≤ 100 * M * 2 ^ F ∧ 100 * M * 2 ^ F < (P + 1) * 2 ^ A) as [Plo' Phi'].
  { destruct HmM as [[<- ->]|[<- ->]].
    - by rewrite Z.opp_involutive in *.
    - replace A with (1 + - (- A + 1)) by lia. rewrite Z.pow_add_r by lia.
      change (2 ^ 1) with 2. split; nia. }
  clear Plo Phi HmM Hm m e.
  assert (2 ^ 23 ≤ 2 ^ A) as HV by nia.
  assert (2 ^ 14 ≤ 2 ^ F) as HU0 by (apply Z.pow_le_mono_r; lia).
  set (U := 2 ^ F) in *. set (V := 2 ^ A) in *.
  pose proof (Z.mul_div_le P U ltac:(lia)) as Glo.
  pose proof (Z.mul_succ_div_gt P U ltac:(lia)) as Ghi.
  set (g := P / U) in *.
  assert (M ≤ V + 1) as HMV by nia.
  assert (2 ^ 16 ≤ U) as HU.
  { assert ((2 ^ 23 - 1) * V ≤ 100 * (V + 1) * U) by nia. nia. }
  (* [P / U] is within [100 d U + V d] of [100 w] at scale [U V]. *)
  assert (P * (V * d) ≤ 100 * U * (w * V + d) + V * d) as Up by nia.
  assert (100 * U * (w * V - d) ≤ P * (V * d) + V * d) as Lo by nia.
  assert (100 * (d * U) + V * d < U * V) as Hsmall.
  { assert (256 * (d * U) ≤ V * U) by nia. assert (2 * (V * d) ≤ V * U) by nia. nia. }
  assert (P * (V * d) < (100 * w + 1) * (U * V)) as Up'.
  { replace ((100 * w + 1) * (U * V)) with (100 * U * (w * V) + U * V) by ring. lia. }
  assert ((100 * w - 1) * (U * V) < P * (V * d)) as Lo'.
  { replace ((100 * w - 1) * (U * V)) with (100 * U * (w * V) - U * V) by ring. lia. }
  assert (0 < U * V) as HD by (apply Z.mul_pos_pos; lia).
  assert (0 < V * d) as HVd by (apply Z.mul_pos_pos; lia).
  clear Up Lo Hsmall Plo' Phi' Hlo Hhi Hbig HMV.
  assert (d * g * (U * V) ≤ P * (V * d)) as G1.
  { replace (d * g * (U * V)) with (U * g * (V * d)) by ring.
    by apply Z.mul_le_mono_pos_r. }
  assert (P * (V * d) < (d * g + d) * (U * V)) as G2.
  { replace ((d * g + d) * (U * V)) with (U * Z.succ g * (V * d)) by (unfold Z.succ; ring).
    by apply Z.mul_lt_mono_pos_r. }
  assert (d * g * (U * V) < (100 * w + 1) * (U * V)) as R1 by lia.
  assert ((100 * w - 1) * (U * V) < (d * g + d) * (U * V)) as R2 by lia.
  apply Z.mul_lt_mono_pos_r in R1, R2; [|done..]. lia.
Qed.

(** Where the percentage is not whole it is rounded down exactly. *)
Lemma f32_percent_floor `{FloatToInt} w d : 0 < w ≤ d → d ≤ 2 ^ 15 → (100 * w) mod d ≠ 0 →
  f32_to_i32 (f32_mul (f32_div (f32_of_u32 w) (f32_of_u32 d)) (f32_of_u32 100)) = 100 * w / d.
Proof.
  intros Hw Hd Hmod. pose proof (f32_percent w d Hw Hd) as Hg. cbv zeta in Hg.
  set (g := f32_to_i32 _) in *.
  apply Z.div_unique with (100 * w - d * g); [left|lia].
  split; [lia|]. destruct (decide (100 * w = d * g + d)) as [E|]; [|lia].
  exfalso. apply Hmod. rewrite E. replace (d * g + d) with ((g + 1) * d) by ring.
  apply Z.mod_mul. lia.
Qed.

(** A number divided by itself is one, and one hundred per cent of it 100. *)
Lemma f32_percent_self `{FloatToInt} w : 0 < w < 2 ^ 24 →
  f32_to_i32 (f32_mul (f32_div (f32_of_u32 w) (f32_of_u32 w)) (f32_of_u32 100)) = 100.
Proof.
  intros Hw. destruct (f32_of_u32_exact w Hw) as (m & -> & _ & Hm).
  assert (f32_div (S754_finite false m (Z.log2 w - 23)) (S754_finite false m (Z.log2 w - 23))
          = f32_of_u32 1) as ->; [|reflexivity].
  unfold f32_div, SFdiv, SFdiv_core_binary. rewrite Z.sub_diag.
  rewrite Zdigits2_log2 by lia. rewrite (Z.log2_unique (Zpos m) 23) by lia.
  set (e := Z.log2 w - 23).
  replace (23 + 1 + e - (23 + 1 + e)) with 0 by lia.
  change (Z.min (fexp prec emax 0) 0) with (-24). change (0 - -24) with 24.
  cbn iota. rewrite Z.shiftl_mul_pow2 by lia.
  destruct (Z.div_eucl (Zpos m * 2 ^ 24) (Zpos m)) as [q r] eqn:Eq.
  assert (q = 2 ^ 24) as ->.
  { transitivity (Zpos m * 2 ^ 24 / Zpos m); [unfold Z.div; by rewrite Eq|].
    rewrite Z.mul_comm. apply Z.div_mul. lia. }
  assert (r = 0) as ->.
  { transitivity ((Zpos m * 2 ^ 24) mod Zpos m); [unfold Z.modulo; by rewrite Eq|].
    rewrite Z.mul_comm. apply Z.mod_mul. lia. }
  unfold new_location, new_location_even, new_location_odd. cbn [Z.eqb].
  by destruct (Z.even (Zpos m)).
Qed.
