(* ===== verification/Routes.v ===== *)
(** * The routes repository ([models/route.go])

    [RoutesRepo] holds the Cloud Foundry routes by GUID and an index from host
    names to GUIDs.  Every method but one takes the repository's mutex once, so each is
    one atomic state transformer; [GetVIPByName] takes it twice, for the index and for
    the route, and other operations may fall between ([GetVIPByName_between]).  The
    pointers that the repository stores are never written through after they are
    stored, so a [*Route] is its value.  The second half gives the repository an abstract specification (a
    log of its operations) and the facts about [GetVIPByName] that follow. *)
From S2P Require Import Prelude GoStrings.

(** ** Data *)
Record Route := mkRoute {
  GUID : string;
  Host : string;
  Path : string;
  Internal : bool;
  VIP : string;
}.

Record RoutesRepo := mkRoutesRepo {
  repo : gmap string Route;
  repoByHostname : gmap string string;
}.

Global Instance Route_eq_dec : EqDecision Route.
Proof. solve_decision. Defined.

(** ** Operations *)
Definition Hostname `{UnicodeLower} (r : Route) : string := ToLower (Host r).
Definition GetPath (r : Route) : string := Path r.

Definition NewRoutesRepo : RoutesRepo := mkRoutesRepo ∅ ∅.

Definition Upsert (r : RoutesRepo) (route : Route) : RoutesRepo :=
  mkRoutesRepo (<[GUID route := route]> (repo r))
               (<[Host route := GUID route]> (repoByHostname r)).

Definition Delete (r : RoutesRepo) (guid : string) : RoutesRepo :=
  mkRoutesRepo (delete guid (repo r)) (repoByHostname r).

Definition Sync (r : RoutesRepo) (routes : list Route) : RoutesRepo :=
  mkRoutesRepo (insert_all GUID id routes ∅) (insert_all Host GUID routes ∅).

(** [route, ok := r.repo[guid]]: [Some route] when [ok]. *)
Definition Get (r : RoutesRepo) (guid : string) : option Route := repo r !! guid.

Definition getGUIDByHostname (r : RoutesRepo) (hostname : string) : string * bool :=
  match repoByHostname r !! hostname with
  | Some guid => (guid, true)
  | None => ("", false)
  end.

(** The index as it is in [r], the routes as they are by then in [r']. *)
Definition GetVIPByName_between (r r' : RoutesRepo) (hostname : string) : string * bool :=
  let '(guid, _) := getGUIDByHostname r hostname in
  match Get r' guid with
  | None => ("", false)
  | Some route => (VIP route, true)
  end.
Definition GetVIPByName (r : RoutesRepo) (hostname : string) : string * bool :=
  GetVIPByName_between r r hostname.

Definition List `{MapOrder} (r : RoutesRepo) : gmap string string :=
  insert_all fst (Host ∘ snd) (map_order (repo r)) ∅.

(** ** Abstract specification: the log of operations *)
Inductive op :=
| OUpsert (route : Route)
| ODelete (guid : string)
| OSync (routes : list Route).

Definition apply_op (r : RoutesRepo) (o : op) : RoutesRepo :=
  match o with
  | OUpsert route => Upsert r route
  | ODelete guid => Delete r guid
  | OSync routes => Sync r routes
  end.

(** The repository after a history, latest operation first. *)
Definition run (h : list op) : RoutesRepo := foldr (λ o r, apply_op r o) NewRoutesRepo h.

(** What the history says of a GUID: its latest write since the last sync. *)
Fixpoint log_route (h : list op) (guid : string) : option Route :=
  match h with
  | [] => None
  | OUpsert route :: h => if decide (GUID route = guid) then Some route else log_route h guid
  | ODelete g :: h => if decide (g = guid) then None else log_route h guid
  | OSync routes :: _ => last_with GUID guid routes
  end.

(** What the history says of a host name: the latest route written under it. *)
Fixpoint log_host (h : list op) (host : string) : option string :=
  match h with
  | [] => None
  | OUpsert route :: h => if decide (Host route = host) then Some (GUID route) else log_host h host
  | ODelete _ :: h => log_host h host
  | OSync routes :: _ => GUID <$> last_with Host host routes
  end.

Definition written (o : op) : list Route :=
  match o with OUpsert route => [route] | ODelete _ => [] | OSync routes => routes end.

(** A history in which host names are unambiguous: GUIDs are not empty, a GUID
    keeps its host and a host its GUID. *)
Definition hosts_stable (h : list op) : Prop :=
  ∀ r1 r2, r1 ∈ h ≫= written → r2 ∈ h ≫= written →
    GUID r1 ≠ "" ∧ (GUID r1 = GUID r2 ↔ Host r1 = Host r2).

(** ** Lemmas *)
Lemma run_log_route h guid : Get (run h) guid = log_route h guid.
Proof.
  induction h as [|[route|g|routes] h IH]; unfold Get in *; simpl.
  - apply lookup_empty.
  - rewrite lookup_insert, IH. done.
  - rewrite lookup_delete, IH. done.
  - rewrite lookup_insert_all, lookup_empty. by destruct (last_with _ _ _).
Qed.

Lemma run_log_host h host : repoByHostname (run h) !! host = log_host h host.
Proof.
  induction h as [|[route|g|routes] h IH]; simpl.
  - apply lookup_empty.
  - rewrite lookup_insert, IH. done.
  - done.
  - rewrite lookup_insert_all, lookup_empty. by destruct (last_with _ _ _).
Qed.

Lemma log_route_written h guid route :
  log_route h guid = Some route → GUID route = guid ∧ route ∈ h ≫= written.
Proof.
  induction h as [|[r|g|rs] h IH]; simpl; intros Hl; [done|..].
  - setoid_rewrite elem_of_cons. case_decide; simplify_eq; [by auto|]. naive_solver.
  - case_decide; simplify_eq. auto.
  - apply last_with_Some in Hl as [??]. split; [done|]. apply elem_of_app. by left.
Qed.

Lemma log_host_written h host guid :
  log_host h host = Some guid →
  ∃ route, route ∈ h ≫= written ∧ Host route = host ∧ GUID route = guid.
Proof.
  induction h as [|[r|g|rs] h IH]; simpl; intros Hl; [done|..].
  - setoid_rewrite elem_of_cons. case_decide; simplify_eq; naive_solver.
  - auto.
  - apply fmap_Some in Hl as (route & [??]%last_with_Some & ->).
    exists route. split; [|done]. apply elem_of_app. by left.
Qed.

(** A route that is in the repository is indexed under its host by someone. *)
Lemma log_route_host h guid route :
  log_route h guid = Some route → is_Some (log_host h (Host route)).
Proof.
  induction h as [|[r|g|rs] h IH]; simpl; intros Hl; [done|..].
  - repeat case_decide; simplify_eq; eauto.
  - case_decide; simplify_eq. auto.
  - apply last_with_Some in Hl as [? Hin]. apply fmap_is_Some.
    destruct (last_with Host (Host route) rs) eqn:E; [eauto|].
    rewrite last_with_None in E. by destruct (E route).
Qed.

Lemma GetVIPByName_between_log h h' host :
  GetVIPByName_between (run h) (run h') host =
  match log_route h' (default "" (log_host h host)) with
  | Some route => (VIP route, true)
  | None => ("", false)
  end.
Proof.
  unfold GetVIPByName_between, getGUIDByHostname. rewrite run_log_host.
  destruct (log_host h host); simpl; by rewrite run_log_route.
Qed.
Lemma GetVIPByName_log h host :
  GetVIPByName (run h) host =
  match log_route h (default "" (log_host h host)) with
  | Some route => (VIP route, true)
  | None => ("", false)
  end.
Proof. apply GetVIPByName_between_log. Qed.

Lemma log_route_empty h : hosts_stable h → log_route h "" = None.
Proof.
  intros Hst. destruct (log_route h "") eqn:E; [|done].
  apply log_route_written in E as [E Hin]. by destruct (Hst _ _ Hin Hin) as [[] _].
Qed.

(** With stable hosts, a route in the repository is indexed under its own host, and the
    GUID that a host had at some time is a route's with that host. *)
Lemma log_route_indexed h guid route :
  hosts_stable h → log_route h guid = Some route → log_host h (Host route) = Some guid.
Proof.
  intros Hst Hr. destruct (log_route_host _ _ _ Hr) as [g Hg]. rewrite Hg.
  apply log_route_written in Hr as [<- Hr].
  apply log_host_written in Hg as (r' & Hr' & Hh & <-). f_equal. by apply (Hst _ _ Hr' Hr).
Qed.
Lemma log_host_route h1 h2 host guid route :
  hosts_stable (h2 ++ h1) → log_host h1 host = Some guid → log_route (h2 ++ h1) guid = Some route →
  Host route = host.
Proof.
  intros Hst Hg Hr. apply log_route_written in Hr as [<- Hr].
  apply log_host_written in Hg as (r' & Hr' & <- & Hg). symmetry.
  apply (Hst _ _); [|done..]. rewrite bind_app. apply elem_of_app. by right.
Qed.

Lemma List_fmap `{MapOrder} r : List r = Host <$> repo r.
Proof. apply insert_all_map_order. Qed.

(** ** Properties *)

(** C35. The repository refines its operation log: after any history of
    [Upsert], [Delete] and [Sync] (latest first), [Get] answers with the latest
    write of the GUID that no later [Delete] or [Sync] removed, [List] lists
    exactly those routes with their hosts, and [GetVIPByName] follows the latest
    write under the host name to whatever route its GUID names now (or the
    empty GUID for an unknown host). *)
Theorem routes_refine_log `{MapOrder} (h : list op) :
  (∀ guid, Get (run h) guid = log_route h guid) ∧
  (∀ guid, List (run h) !! guid = Host <$> log_route h guid) ∧
  (∀ host, GetVIPByName (run h) host =
     match log_route h (default "" (log_host h host)) with
     | Some route => (VIP route, true)
     | None => ("", false)
     end).
Proof.
  split_and!; intros.
  - apply run_log_route.
  - rewrite List_fmap, lookup_fmap. f_equal. apply run_log_route.
  - apply GetVIPByName_log.
Qed.

(** On histories in which GUIDs are not empty, GUIDs keep their host and
    hosts their GUID, [GetVIPByName] is correct: it answers [vip] exactly when
    a route with that host and VIP is in the repository, and "not found"
    exactly when no route in the repository has the host. *)
Theorem GetVIPByName_correct (h : list op) (host : string) (Hst : hosts_stable h) :
  (∀ vip, GetVIPByName (run h) host = (vip, true) ↔
     ∃ route, Get (run h) (GUID route) = Some route ∧ Host route = host ∧ VIP route = vip) ∧
  (GetVIPByName (run h) host = ("", false) ↔
     ∀ guid route, Get (run h) guid = Some route → Host route ≠ host).
Proof.
  assert (∀ guid route, log_route h guid = Some route → Host route = host →
            log_host h host = Some guid) as Hidx.
  { intros guid route Hr <-. by apply log_route_indexed. }
  assert (∀ route, log_route h (default "" (log_host h host)) = Some route →
            Host route = host ∧ log_route h (GUID route) = Some route) as Hback.
  { intros route Hr. destruct (log_host h host) as [g|] eqn:Hg; simpl in Hr.
    - split; [by apply (log_host_route h [] host g)|]. by pose proof (log_route_written _ _ _ Hr) as [-> _].
    - by rewrite log_route_empty in Hr. }
  rewrite GetVIPByName_log. setoid_rewrite run_log_route. split.
  - intros vip. split.
    + destruct (log_route h _) as [route|] eqn:E; intros; simplify_eq.
      destruct (Hback _ eq_refl). eauto.
    + intros (route & Hr & Hh & <-). by rewrite (Hidx _ _ Hr Hh); simpl; rewrite Hr.
  - destruct (log_route h _) as [route|] eqn:E.
    + split; [done|]. intros Hno. destruct (Hback _ eq_refl) as [Hh Hr].
      by destruct (Hno _ _ Hr).
    + split; [|done]. intros _ guid route Hr Hh.
      rewrite (Hidx _ _ Hr Hh) in E. simpl in E. congruence.
Qed.

Definition w_r1 : Route := mkRoute "g1" "a.example.com" "" true "10.0.0.1".
Definition w_r2 : Route := mkRoute "g2" "b.example.com" "/p" false "10.0.0.2".
Definition w_hist : list op := [ODelete "g2"; OUpsert w_r2; OSync [w_r1]].

Lemma GetVIPByName_correct_witness :
  hosts_stable w_hist ∧
  GetVIPByName (run w_hist) "a.example.com" = ("10.0.0.1", true) ∧
  (GetVIPByName (run w_hist) "b.example.com" = ("", false) ↔
     ∀ guid route, Get (run w_hist) guid = Some route → Host route ≠ "b.example.com").
Proof.
  assert (hosts_stable w_hist) as Hst.
  { intros r1 r2 H1 H2. cbv [w_hist written mbind list_bind app] in H1, H2. rewrite !elem_of_cons, elem_of_nil in H1, H2. naive_solver. }
  split; [exact Hst|]. split; [reflexivity|].
  apply (GetVIPByName_correct w_hist "b.example.com" Hst).
Defined.

(** On such histories [GetVIPByName] is atomic after all: whatever operations [h2] fall
    between its two critical sections, it answers as it would at once, before them or
    after them. *)
Theorem GetVIPByName_linearizable (h1 h2 : list op) (host : string) (Hst : hosts_stable (h2 ++ h1)) :
  GetVIPByName_between (run h1) (run (h2 ++ h1)) host = GetVIPByName (run h1) host ∨
  GetVIPByName_between (run h1) (run (h2 ++ h1)) host = GetVIPByName (run (h2 ++ h1)) host.
Proof.
  assert (hosts_stable h1) as Hst1.
  { intros r1 r2 H1 H2. apply Hst; rewrite bind_app, elem_of_app; by right. }
  rewrite !GetVIPByName_log, GetVIPByName_between_log.
  destruct (log_host h1 host) as [g|] eqn:Hg; simpl; [|left; by rewrite !log_route_empty].
  right. destruct (log_route (h2 ++ h1) g) as [route|] eqn:Hr.
  - pose proof (log_host_route h1 h2 host g route Hst Hg Hr) as <-.
    by rewrite (log_route_indexed _ _ _ Hst Hr); simpl; rewrite Hr.
  - destruct (log_host (h2 ++ h1) host) as [g'|] eqn:Hg'; simpl; [|by rewrite log_route_empty].
    apply log_host_written in Hg as (r1 & Hr1 & Hh1 & <-), Hg' as (r2 & Hr2 & Hh2 & <-).
    assert (GUID r2 = GUID r1) as ->; [|by rewrite Hr]. apply (Hst r2 r1); [done| |congruence].
    rewrite bind_app, elem_of_app. by right.
Qed.

Lemma GetVIPByName_linearizable_witness :
  GetVIPByName_between (run [OSync [w_r1]]) (run (w_hist)) "a.example.com" = ("10.0.0.1", true).
Proof.
  destruct (GetVIPByName_linearizable [OSync [w_r1]] [ODelete "g2"; OUpsert w_r2] "a.example.com") as [E|E].
  - intros r1 r2 H1 H2. cbv [w_r1 w_r2 written mbind list_bind app] in H1, H2.
    rewrite !elem_of_cons, elem_of_nil in H1, H2. naive_solver.
  - exact E.
  - exact E.
Defined.

(** The host index is never cleaned by [Upsert] or [Delete]: a route that is
    renamed keeps answering under its old host name, with the VIP of the renamed
    route, and this in every state of the repository. *)
Theorem renamed_route_keeps_old_host (r : RoutesRepo) (old new : Route)
    (Hguid : GUID new = GUID old) (Hhost : Host new ≠ Host old) :
  let r' := Upsert (Upsert r old) new in
  GetVIPByName r' (Host old) = (VIP new, true) ∧
  ∀ guid route, Get r' guid = Some route → Host route = Host old → guid ≠ GUID old.
Proof.
  simpl. split.
  - unfold GetVIPByName, GetVIPByName_between, getGUIDByHostname, Get. simpl.
    rewrite lookup_insert_ne by done. rewrite lookup_insert_eq, Hguid, lookup_insert_eq. done.
  - unfold Get; simpl. intros guid route Hr Hh ->. rewrite Hguid, lookup_insert_eq in Hr.
    by simplify_eq.
Qed.

Lemma renamed_route_keeps_old_host_witness :
  GetVIPByName (Upsert (Upsert NewRoutesRepo w_r1)
     (mkRoute "g1" "c.example.com" "" true "10.0.0.9")) "a.example.com" = ("10.0.0.9", true).
Proof.
  apply (renamed_route_keeps_old_host NewRoutesRepo w_r1
           (mkRoute "g1" "c.example.com" "" true "10.0.0.9")); [reflexivity|discriminate].
Defined.

(** [GetVIPByName] ignores whether the host name was found: once a route
    with the empty GUID is in the repository (which [Sync] accepts), every
    unknown host name resolves to its VIP. *)
Theorem empty_guid_answers_for_unknown_hosts (r : RoutesRepo) (route : Route) (host : string)
    (Hempty : Get r "" = Some route) (Hunknown : repoByHostname r !! host = None) :
  GetVIPByName r host = (VIP route, true).
Proof. unfold GetVIPByName, GetVIPByName_between, getGUIDByHostname. by rewrite Hunknown, Hempty. Qed.

Lemma empty_guid_answers_for_unknown_hosts_witness :
  GetVIPByName (Sync NewRoutesRepo [mkRoute "" "x.example.com" "" false "1.2.3.4"])
    "no.such.host" = ("1.2.3.4", true).
Proof.
  apply (empty_guid_answers_for_unknown_hosts _
           (mkRoute "" "x.example.com" "" false "1.2.3.4")); reflexivity.
Defined.
