(* ===== verification/RouteMappings.v ===== *)
(** * The route-mappings repository ([models/route_mapping.go])

    [RouteMappingsRepo] holds the weighted mappings of routes to processes under
    the key [<route guid>-<process guid>], and per route the sum of its weights
    ([weightDenominator], a [uint32] that wraps).  Each method is one critical
    section of the repository's mutex. *)
From S2P Require Import Prelude GoStrings GoFloat.

(** ** Data *)
Record RouteMapping := mkRouteMapping {
  RouteGUID : string;
  CAPIProcessGUID : string;
  RouteWeight : Z;  (* uint32 *)
}.

Record RouteMappingsRepo := mkRouteMappingsRepo {
  repo : gmap string RouteMapping;
  weightDenominator : gmap string Z;
}.

Global Instance RouteMapping_eq_dec : EqDecision RouteMapping.
Proof. solve_decision. Defined.

(** ** Operations *)
Definition Key (r : RouteMapping) : string :=
  RouteGUID r +:+ "-" +:+ CAPIProcessGUID r.

Definition NewRouteMappingsRepo : RouteMappingsRepo := mkRouteMappingsRepo ∅ ∅.

Definition GetCalculatedWeight `{FloatToInt} (r : RouteMappingsRepo) (rm : RouteMapping) : Z :=
  f32_to_i32
    (f32_mul
       (f32_div (f32_of_u32 (RouteWeight rm))
                (f32_of_u32 (lookup0 0%Z (weightDenominator r) (RouteGUID rm))))
       (f32_of_u32 100)).

(** [d[guid] += w] and [d[guid] -= w] on the denominators. *)
Definition add_weight (d : gmap string Z) (rm : RouteMapping) : gmap string Z :=
  <[RouteGUID rm := u32 (lookup0 0%Z d (RouteGUID rm) + RouteWeight rm)]> d.
Definition sub_weight (d : gmap string Z) (rm : RouteMapping) : gmap string Z :=
  <[RouteGUID rm := u32 (lookup0 0%Z d (RouteGUID rm) - RouteWeight rm)]> d.

Definition Map (m : RouteMappingsRepo) (rm : RouteMapping) : RouteMappingsRepo :=
  mkRouteMappingsRepo (<[Key rm := rm]> (repo m)) (add_weight (weightDenominator m) rm).

Definition Unmap (m : RouteMappingsRepo) (rm : RouteMapping) : RouteMappingsRepo :=
  mkRouteMappingsRepo (delete (Key rm) (repo m)) (sub_weight (weightDenominator m) rm).

Definition Sync (m : RouteMappingsRepo) (routeMappings : list RouteMapping) : RouteMappingsRepo :=
  mkRouteMappingsRepo (insert_all Key id routeMappings ∅)
                      (foldl add_weight ∅ routeMappings).

Definition List `{MapOrder} (m : RouteMappingsRepo) : gmap string RouteMapping :=
  insert_all fst snd (map_order (repo m)) ∅.

(** ** Specification *)

(** The weight a repository holds for a route: the sum over its mappings. *)
Definition weight_for (g : string) (rm : RouteMapping) : Z :=
  if decide (RouteGUID rm = g) then RouteWeight rm else 0%Z.
Definition mapped_weight (g : string) (m : gmap string RouteMapping) : Z :=
  sumZ (weight_for g <$> (map_to_list m).*2).

Inductive op :=
| OMap (rm : RouteMapping)
| OUnmap (rm : RouteMapping)
| OSync (rms : list RouteMapping).

Definition apply_op (r : RouteMappingsRepo) (o : op) : RouteMappingsRepo :=
  match o with
  | OMap rm => Map r rm
  | OUnmap rm => Unmap r rm
  | OSync rms => Sync r rms
  end.

(** The calls a well-behaved client makes: it maps a pair that is not mapped,
    unmaps a mapping as it was mapped, and syncs each pair once. *)
Definition valid_op (r : RouteMappingsRepo) (o : op) : Prop :=
  match o with
  | OMap rm => repo r !! Key rm = None
  | OUnmap rm => repo r !! Key rm = Some rm
  | OSync rms => NoDup (Key <$> rms)
  end.

Inductive reachable : RouteMappingsRepo → Prop :=
| reach_new : reachable NewRouteMappingsRepo
| reach_op r o : reachable r → valid_op r o → reachable (apply_op r o).

(** The denominators are the sums of the mapped weights, and keys are [Key]. *)
Definition consistent (r : RouteMappingsRepo) : Prop :=
  (∀ g, lookup0 0%Z (weightDenominator r) g = u32 (mapped_weight g (repo r))) ∧
  (∀ k rm, repo r !! k = Some rm → Key rm = k).

(** The mappings of one route. *)
Definition route_mappings (g : string) (r : RouteMappingsRepo) : list RouteMapping :=
  filter (λ rm, RouteGUID rm = g) (map_to_list (repo r)).*2.

(** ** Lemmas *)
Lemma List_repo `{MapOrder} m : List m = repo m.
Proof.
  transitivity (id <$> repo m); [apply (insert_all_map_order id)|apply map_fmap_id].
Qed.

Lemma mapped_weight_insert g m k rm :
  m !! k = None → mapped_weight g (<[k := rm]> m) = (weight_for g rm + mapped_weight g m)%Z.
Proof. intros Hk. unfold mapped_weight. by rewrite map_to_list_insert. Qed.

Lemma mapped_weight_delete g m k rm :
  m !! k = Some rm → mapped_weight g m = (weight_for g rm + mapped_weight g (delete k m))%Z.
Proof.
  intros Hk. rewrite <-(mapped_weight_insert g (delete k m) k rm) by apply lookup_delete_eq.
  by rewrite insert_delete_id.
Qed.

Lemma lookup0_add_weight d rm g :
  (∀ g, 0 ≤ lookup0 0%Z d g < 2 ^ 32)%Z →
  lookup0 0%Z (add_weight d rm) g = u32 (lookup0 0%Z d g + weight_for g rm).
Proof.
  intros Hd. unfold add_weight, weight_for, lookup0 at 1. rewrite lookup_insert.
  case_decide as E; [by subst|]. simpl. fold (lookup0 0%Z d g).
  by rewrite Z.add_0_r, u32_small.
Qed.

Lemma lookup0_sub_weight d rm g :
  (∀ g, 0 ≤ lookup0 0%Z d g < 2 ^ 32)%Z →
  lookup0 0%Z (sub_weight d rm) g = u32 (lookup0 0%Z d g - weight_for g rm).
Proof.
  intros Hd. unfold sub_weight, weight_for, lookup0 at 1. rewrite lookup_insert.
  case_decide as E; [by subst|]. simpl. fold (lookup0 0%Z d g).
  by rewrite Z.sub_0_r, u32_small.
Qed.

Lemma lookup0_fold_add_weight rms d g :
  (∀ g, 0 ≤ lookup0 0%Z d g < 2 ^ 32)%Z →
  lookup0 0%Z (foldl add_weight d rms) g
  = u32 (lookup0 0%Z d g + sumZ (weight_for g <$> rms)).
Proof.
  revert d; induction rms as [|rm rms IH]; intros d Hd; simpl foldl.
  - by rewrite fmap_nil, sumZ_nil, Z.add_0_r, u32_small.
  - rewrite IH, sumZ_fmap_cons.
    + rewrite lookup0_add_weight, u32_add_l by done. f_equal. lia.
    + intros g'. rewrite lookup0_add_weight by done. apply u32_range.
Qed.

Lemma consistent_range r g :
  consistent r → (0 ≤ lookup0 0%Z (weightDenominator r) g < 2 ^ 32)%Z.
Proof. intros [Hc _]. rewrite Hc. apply u32_range. Qed.

Lemma consistent_op r o : consistent r → valid_op r o → consistent (apply_op r o).
Proof.
  intros Hcons Hv. pose proof (λ g, consistent_range r g Hcons) as Hr.
  destruct Hcons as [Hc Hk]. destruct o as [rm|rm|rms]; simpl in *; split; simpl.
  - intros g. rewrite lookup0_add_weight, Hc, mapped_weight_insert, u32_add_l by done.
    f_equal. lia.
  - intros k rm'. rewrite lookup_insert. case_decide; [naive_solver|eauto].
  - intros g. rewrite lookup0_sub_weight, Hc, u32_sub_l by done. f_equal.
    rewrite (mapped_weight_delete g (repo r) (Key rm) rm) by done. lia.
  - intros k rm'. rewrite lookup_delete. case_decide; naive_solver.
  - intros g. rewrite lookup0_fold_add_weight by (intros; unfold lookup0; rewrite lookup_empty; simpl; lia).
    unfold lookup0. rewrite lookup_empty. simpl. f_equal. unfold mapped_weight.
    rewrite map_to_list_insert_all, map_to_list_empty, app_nil_r;
      [|done|intros; apply lookup_empty].
    by rewrite <-!list_fmap_compose.
  - intros k rm'. rewrite lookup_insert_all, lookup_empty.
    destruct (last_with Key k rms) eqn:E; [|done].
    intros ?; simplify_eq/=. by apply last_with_Some in E as [? _].
Qed.

Lemma reachable_consistent r : reachable r → consistent r.
Proof.
  induction 1 as [|r o _ IH Hv]; [|by apply consistent_op].
  split; [done|]. intros k rm Hk. simpl in Hk. by rewrite lookup_empty in Hk.
Qed.

Lemma mapped_weight_filter g m :
  mapped_weight g m = sumZ (RouteWeight <$> filter (λ rm, RouteGUID rm = g) (map_to_list m).*2).
Proof.
  unfold mapped_weight. induction (map_to_list m).*2 as [|rm l IH]; [done|].
  rewrite filter_cons, sumZ_fmap_cons, IH. unfold weight_for at 1.
  case_decide; rewrite ?sumZ_fmap_cons; lia.
Qed.

(** A percentage bound summed over a list of weights. *)
Lemma percent_sum (l : list RouteMapping) (f : RouteMapping → Z) d :
  (0 < d)%Z → (∀ rm, rm ∈ l → d * f rm ≤ 100 * RouteWeight rm ≤ d * f rm + d)%Z →
  (d * sumZ (f <$> l) ≤ 100 * sumZ (RouteWeight <$> l)
   ≤ d * sumZ (f <$> l) + d * Z.of_nat (length l))%Z.
Proof.
  intros Hd. induction l as [|rm l IH]; intros Hl; [rewrite !fmap_nil, sumZ_nil; simpl; lia|].
  rewrite !sumZ_fmap_cons. simpl length.
  pose proof (Hl rm ltac:(by left)).
  assert (∀ rm, rm ∈ l → d * f rm ≤ 100 * RouteWeight rm ≤ d * f rm + d)%Z as Hl'
    by (intros; apply Hl; by right).
  specialize (IH Hl'). lia.
Qed.

(** The arguments of the float computation for a mapping in the repository. *)
Lemma calculated_weight_args `{FloatToInt} r k rm :
  reachable r → repo r !! k = Some rm →
  (∀ k' rm', repo r !! k' = Some rm' → (0 < RouteWeight rm')%Z) →
  (mapped_weight (RouteGUID rm) (repo r) ≤ 2 ^ 15)%Z →
  GetCalculatedWeight r rm =
    f32_to_i32 (f32_mul (f32_div (f32_of_u32 (RouteWeight rm))
      (f32_of_u32 (mapped_weight (RouteGUID rm) (repo r)))) (f32_of_u32 100)) ∧
  (0 < RouteWeight rm ≤ mapped_weight (RouteGUID rm) (repo r))%Z.
Proof.
  intros Hr Hk Hpos Hsum.
  assert (0 < RouteWeight rm ≤ mapped_weight (RouteGUID rm) (repo r))%Z as Hw.
  { split; [eauto|]. rewrite mapped_weight_filter. apply sumZ_fmap_elem.
    - apply list_elem_of_filter. split; [done|]. apply list_elem_of_fmap.
      exists (k, rm). split; [done|]. by apply elem_of_map_to_list.
    - intros y [_ Hy]%list_elem_of_filter.
      apply list_elem_of_fmap in Hy as ([k' rm'] & -> & Hin%elem_of_map_to_list).
      pose proof (Hpos _ _ Hin). simpl. lia. }
  split; [|done]. unfold GetCalculatedWeight.
  destruct (reachable_consistent r Hr) as [-> _]. rewrite u32_small by lia. done.
Qed.

Lemma calculated_weight_bound `{FloatToInt} r k rm :
  reachable r → repo r !! k = Some rm →
  (∀ k' rm', repo r !! k' = Some rm' → (0 < RouteWeight rm')%Z) →
  (mapped_weight (RouteGUID rm) (repo r) ≤ 2 ^ 15)%Z →
  let d := mapped_weight (RouteGUID rm) (repo r) in
  let g := GetCalculatedWeight r rm in
  (0 < RouteWeight rm ≤ d ∧ d * g ≤ 100 * RouteWeight rm ≤ d * g + d ∧ 0 ≤ g ≤ 100)%Z.
Proof.
  intros Hr Hk Hpos Hsum. cbv zeta.
  destruct (calculated_weight_args r k rm) as (-> & Hw); [done..|].
  pose proof (f32_percent (RouteWeight rm) (mapped_weight (RouteGUID rm) (repo r)) Hw Hsum) as Hb.
  cbv zeta in Hb. split; [done|]. split; [exact Hb|]. nia.
Qed.

Lemma elem_of_route_mappings g r rm :
  rm ∈ route_mappings g r ↔ RouteGUID rm = g ∧ ∃ k, repo r !! k = Some rm.
Proof.
  unfold route_mappings. rewrite list_elem_of_filter, list_elem_of_fmap. split.
  - intros [<- ([k rm'] & -> & Hin%elem_of_map_to_list)]. eauto.
  - intros [<- [k Hk]]. split; [done|]. exists (k, rm). by rewrite elem_of_map_to_list.
Qed.

Lemma calculated_weights_total `{FloatToInt} r g :
  reachable r → (∀ k rm, repo r !! k = Some rm → (0 < RouteWeight rm)%Z) →
  (0 < mapped_weight g (repo r) ≤ 2 ^ 15)%Z →
  (100 - Z.of_nat (length (route_mappings g r))
     ≤ sumZ (GetCalculatedWeight r <$> route_mappings g r) ≤ 100)%Z.
Proof.
  intros Hr Hpos Hsum. pose proof (percent_sum (route_mappings g r) (GetCalculatedWeight r)
                          (mapped_weight g (repo r)) ltac:(lia)) as Hps.
  assert (sumZ (RouteWeight <$> route_mappings g r) = mapped_weight g (repo r)) as HW
    by (symmetry; apply mapped_weight_filter).
  rewrite HW in Hps.
  assert (mapped_weight g (repo r) * sumZ (GetCalculatedWeight r <$> route_mappings g r)
     ≤ 100 * mapped_weight g (repo r)
     ≤ mapped_weight g (repo r) * sumZ (GetCalculatedWeight r <$> route_mappings g r)
       + mapped_weight g (repo r) * Z.of_nat (length (route_mappings g r)))%Z; [|nia].
  apply Hps. intros rm [<- [k Hk]]%elem_of_route_mappings.
  apply (calculated_weight_bound r k rm); [done|done|exact Hpos|lia].
Qed.

Lemma route_mapping_percent `{FloatToInt} r g rm :
  reachable r → (∀ k rm, repo r !! k = Some rm → (0 < RouteWeight rm)%Z) →
  (mapped_weight g (repo r) ≤ 2 ^ 15)%Z →
  rm ∈ route_mappings g r → (0 ≤ GetCalculatedWeight r rm ≤ 100)%Z.
Proof.
  intros Hr Hpos Hsum [<- [k Hk]]%elem_of_route_mappings.
  pose proof (calculated_weight_bound r k rm Hr Hk Hpos Hsum) as Hb. cbv zeta in Hb. lia.
Qed.

(** ** Properties *)

(** C32. Along every history of well-behaved calls (a pair is mapped when it is
    not mapped, unmapped as it was mapped, synced once per sync) the
    denominator of every route is the sum, modulo [2^32], of the weights of its
    mappings in the repository, and every mapping is stored under its own key. *)
Theorem denominators_consistent (r : RouteMappingsRepo) (Hr : reachable r) :
  (∀ g, lookup0 0%Z (weightDenominator r) g = u32 (mapped_weight g (repo r))) ∧
  (∀ k rm, repo r !! k = Some rm → Key rm = k).
Proof. by apply reachable_consistent. Qed.

Definition w_a : RouteMapping := mkRouteMapping "r" "p1" 1.
Definition w_b : RouteMapping := mkRouteMapping "r" "p2" 2.
Definition w_ops : list op := [OMap w_b; OUnmap w_b; OMap w_b; OMap w_a].
Definition w_repo : RouteMappingsRepo := foldr (λ o r, apply_op r o) NewRouteMappingsRepo w_ops.

Lemma w_repo_reachable : reachable w_repo.
Proof.
  repeat first [apply reach_op with (o := OMap w_b) | apply reach_op with (o := OUnmap w_b)
               | apply reach_op with (o := OMap w_a) | exact reach_new]; reflexivity.
Qed.

Lemma w_repo_positive k rm : repo w_repo !! k = Some rm → (0 < RouteWeight rm)%Z.
Proof.
  assert (map_Forall (λ _ rm, (0 < RouteWeight rm)%Z) (repo w_repo)) as Hall.
  { refine (bool_decide_unpack _ _). vm_compute. exact I. }
  apply Hall.
Qed.

Lemma denominators_consistent_witness :
  lookup0 0%Z (weightDenominator w_repo) "r" = 3%Z ∧
  lookup0 0%Z (weightDenominator w_repo) "r" = u32 (mapped_weight "r" (repo w_repo)).
Proof.
  split; [reflexivity|]. apply (denominators_consistent w_repo w_repo_reachable).
Defined.

(** [GetCalculatedWeight] is the mapping's percentage of its route: with
    positive weights whose sum [d] is at most [2^15] (256 mappings of the
    largest valid weight), the float32 computation of every mapping in a
    repository a well-behaved client produced never exceeds [100 w / d], is
    less than one below it, and is exactly [100 w / d] rounded down when that
    is not a whole number. *)
Theorem calculated_weight_percentage `{FloatToInt} (r : RouteMappingsRepo) (k : string)
    (rm : RouteMapping) (Hr : reachable r) (Hk : repo r !! k = Some rm)
    (Hpos : ∀ k' rm', repo r !! k' = Some rm' → (0 < RouteWeight rm')%Z)
    (Hsum : (mapped_weight (RouteGUID rm) (repo r) ≤ 2 ^ 15)%Z) :
  let d := mapped_weight (RouteGUID rm) (repo r) in
  let g := GetCalculatedWeight r rm in
  (d * g ≤ 100 * RouteWeight rm ≤ d * g + d)%Z ∧
  ((100 * RouteWeight rm) mod d ≠ 0 → g = 100 * RouteWeight rm / d)%Z ∧
  (0 ≤ g ≤ 100)%Z.
Proof.
  destruct (calculated_weight_bound r k rm) as (Hw & Hb & Hg); [done..|].
  split; [exact Hb|]. split; [|exact Hg]. intros Hm.
  destruct (calculated_weight_args r k rm) as (E & _); [done..|].
  rewrite E in *. by apply f32_percent_floor.
Qed.

Lemma calculated_weight_percentage_witness :
  @GetCalculatedWeight amd64 w_repo w_b = 66%Z ∧
  (0 ≤ @GetCalculatedWeight amd64 w_repo w_b ≤ 100)%Z.
Proof.
  split; [vm_compute; reflexivity|].
  refine (proj2 (proj2 (@calculated_weight_percentage amd64 w_repo "r-p2" w_b
                          w_repo_reachable eq_refl _ _))).
  - apply w_repo_positive.
  - vm_compute. discriminate.
Defined.



(** The only mapping of a route gets 100 per cent. *)
Theorem sole_mapping_gets_100 `{FloatToInt} (rm : RouteMapping)
    (Hw : (0 < RouteWeight rm < 2 ^ 24)%Z) :
  GetCalculatedWeight (Map NewRouteMappingsRepo rm) rm = 100%Z.
Proof.
  unfold GetCalculatedWeight, Map, add_weight, lookup0. simpl.
  rewrite lookup_insert_eq, lookup_empty. simpl. rewrite u32_small by lia.
  by apply f32_percent_self.
Qed.

Lemma sole_mapping_gets_100_witness :
  @GetCalculatedWeight amd64 (Map NewRouteMappingsRepo w_b) w_b = 100%Z.
Proof. apply (@sole_mapping_gets_100 amd64 w_b). simpl. lia. Defined.

(** The float computation loses whole percentages: weights 53 and 47 of one
    route are reported as 52 and 47, although both percentages are exact. *)
Theorem percentage_53_becomes_52 `{FloatToInt} :
  let a := mkRouteMapping "r" "a" 53 in
  let b := mkRouteMapping "r" "b" 47 in
  let r := Map (Map NewRouteMappingsRepo a) b in
  GetCalculatedWeight r a = 52%Z ∧ GetCalculatedWeight r b = 47%Z.
Proof. split; reflexivity. Qed.

(** [Map] is not idempotent although the repository of mappings is: sending a
    mapping again leaves the mappings as they are and adds its weight to the
    denominator once more, so the denominator no longer is the sum of the
    mapped weights. *)
Theorem remap_inflates_denominator (r : RouteMappingsRepo) (rm : RouteMapping)
    (Hr : reachable r) (Hin : repo r !! Key rm = Some rm)
    (Hw : (0 < RouteWeight rm < 2 ^ 32)%Z) :
  let g := RouteGUID rm in
  repo (Map r rm) = repo r ∧
  lookup0 0%Z (weightDenominator (Map r rm)) g
    = u32 (mapped_weight g (repo r) + RouteWeight rm) ∧
  ¬ consistent (Map r rm).
Proof.
  cbv zeta. pose proof (reachable_consistent r Hr) as Hc.
  assert (repo (Map r rm) = repo r) as Erepo by (simpl; by apply insert_id).
  assert (lookup0 0%Z (weightDenominator (Map r rm)) (RouteGUID rm)
            = u32 (mapped_weight (RouteGUID rm) (repo r) + RouteWeight rm)) as Eden.
  { simpl. rewrite lookup0_add_weight by (intros; by apply consistent_range).
    unfold weight_for. rewrite decide_True by done.
    destruct Hc as [Hc _]. by rewrite Hc, u32_add_l. }
  split_and!; [done..|]. intros [Hc' _]. specialize (Hc' (RouteGUID rm)).
  rewrite Eden, Erepo in Hc'. by apply u32_add_ne in Hc'.
Qed.

Lemma remap_inflates_denominator_witness :
  repo (Map w_repo w_b) = repo w_repo ∧
  lookup0 0%Z (weightDenominator (Map w_repo w_b)) "r" = 5%Z ∧ ¬ consistent (Map w_repo w_b).
Proof. apply (remap_inflates_denominator w_repo w_b w_repo_reachable eq_refl). simpl. lia. Defined.

(** [Unmap] subtracts whether or not the mapping is there: unmapping from a
    route with no mappings wraps its denominator around to [2^32 - w], after
    which a mapping of that route with weight [w'] has the denominator
    [2^32 - w + w'] instead of [w'] while [w' < w]. *)
Theorem unmap_unknown_underflows (r : RouteMappingsRepo) (rm rm' : RouteMapping)
    (Hr : reachable r) (Hnone : mapped_weight (RouteGUID rm) (repo r) = 0%Z)
    (Habsent : repo r !! Key rm = None)
    (Hsame : RouteGUID rm' = RouteGUID rm)
    (Hw : (0 ≤ RouteWeight rm' < RouteWeight rm)%Z) (Hw32 : (RouteWeight rm < 2 ^ 32)%Z) :
  let r1 := Unmap r rm in
  repo r1 = repo r ∧
  lookup0 0%Z (weightDenominator r1) (RouteGUID rm) = (2 ^ 32 - RouteWeight rm)%Z ∧
  lookup0 0%Z (weightDenominator (Map r1 rm')) (RouteGUID rm)
    = (2 ^ 32 - RouteWeight rm + RouteWeight rm')%Z.
Proof.
  cbv zeta. pose proof (reachable_consistent r Hr) as Hc.
  assert (lookup0 0%Z (weightDenominator (Unmap r rm)) (RouteGUID rm)
            = 2 ^ 32 - RouteWeight rm)%Z as Eden.
  { simpl. rewrite lookup0_sub_weight by (intros; by apply consistent_range).
    unfold weight_for. rewrite decide_True by done. destruct Hc as [Hc _].
    rewrite Hc, Hnone, u32_sub_l. unfold u32. symmetry.
    apply Z.mod_unique with (-1)%Z; lia. }
  split; [simpl; by apply delete_id|]. split; [exact Eden|].
  change (weightDenominator (Map (Unmap r rm) rm'))
    with (add_weight (weightDenominator (Unmap r rm)) rm').
  rewrite lookup0_add_weight.
  - unfold weight_for. rewrite decide_True, Eden by done. apply u32_small. lia.
  - intros g. simpl. rewrite lookup0_sub_weight by (intros; by apply consistent_range).
    apply u32_range.
Qed.

Lemma unmap_unknown_underflows_witness :
  lookup0 0%Z (weightDenominator (Map (Unmap NewRouteMappingsRepo w_b) w_a)) "r"
    = (2 ^ 32 - 2 + 1)%Z.
Proof.
  apply (unmap_unknown_underflows NewRouteMappingsRepo w_b w_a reach_new);
    try reflexivity; simpl; lia.
Defined.

(** Keys: two mappings whose route GUIDs have the same length (as GUIDs
    do) have the same key only when they name the same route and process; without
    that, keys collide, since the separator may occur in a GUID. *)
Theorem Key_injective :
  (∀ a b, String.length (RouteGUID a) = String.length (RouteGUID b) →
     Key a = Key b → RouteGUID a = RouteGUID b ∧ CAPIProcessGUID a = CAPIProcessGUID b) ∧
  (∃ a b, RouteGUID a ≠ RouteGUID b ∧ CAPIProcessGUID a ≠ CAPIProcessGUID b ∧ Key a = Key b).
Proof.
  split.
  - intros a b Hl Hk. apply string_app_inj_length in Hk as [? Hk]; [|done].
    split; [done|]. by apply (inj (String.app "-")) in Hk.
  - exists (mkRouteMapping "route-1" "p" 1), (mkRouteMapping "route" "1-p" 1). done.
Qed.
