(* ===== verification/Associations.v ===== *)
(** * CAPI process to Diego process associations
    ([models/capi_diego_process_association.go], [models/diego_process.go])

    [CAPIDiegoProcessAssociationsRepo] maps a CAPI process GUID to the Diego
    processes that run it.  As in the routes repository every method is one
    critical section, and what it stores is never written through afterwards. *)
From S2P Require Import Prelude.

(** ** Data *)
(** A [DiegoProcessGUIDs] is a slice of strings; both conversions copy it. *)
Definition DiegoProcessGUIDs : Type := gslice string.

Record CAPIDiegoProcessAssociation := mkAssociation {
  CAPIProcessGUID : string;
  GUIDs : DiegoProcessGUIDs;
}.

Record CAPIDiegoProcessAssociationsRepo := mkAssociationsRepo {
  Repo : gmap string CAPIDiegoProcessAssociation;
}.

Definition CF_APP_SSH_PORT : Z := 2222.

(** ** Operations *)
Definition DiegoProcessGUIDsFromStringSlice (diegoProcessGUIDs : gslice string)
    : DiegoProcessGUIDs :=
  foldl (λ diegoGUIDs diegoGUID, gappend diegoGUIDs [diegoGUID]) (Sl []) (elems diegoProcessGUIDs).

Definition ToStringSlice (p : DiegoProcessGUIDs) : gslice string :=
  foldl (λ diegoGUIDs diegoGUID, gappend diegoGUIDs [diegoGUID]) (Sl []) (elems p).

(** The composition roots make the repository with an empty, non-nil map. *)
Definition NewAssociationsRepo : CAPIDiegoProcessAssociationsRepo := mkAssociationsRepo ∅.

Definition Upsert (c : CAPIDiegoProcessAssociationsRepo) (a : CAPIDiegoProcessAssociation) :=
  mkAssociationsRepo (<[CAPIProcessGUID a := a]> (Repo c)).

Definition Delete (c : CAPIDiegoProcessAssociationsRepo) (capiProcessGUID : string) :=
  mkAssociationsRepo (delete capiProcessGUID (Repo c)).

Definition Sync (c : CAPIDiegoProcessAssociationsRepo) (l : list CAPIDiegoProcessAssociation) :=
  mkAssociationsRepo (insert_all CAPIProcessGUID id l ∅).

Definition List `{MapOrder} (c : CAPIDiegoProcessAssociationsRepo) : gmap string DiegoProcessGUIDs :=
  insert_all fst (GUIDs ∘ snd) (map_order (Repo c)) ∅.

(** A nil pointer when there is none. *)
Definition Get (c : CAPIDiegoProcessAssociationsRepo) (capiProcessGUID : string)
    : option CAPIDiegoProcessAssociation :=
  Repo c !! capiProcessGUID.

(** ** Specification: the log of operations *)
Inductive op :=
| OUpsert (a : CAPIDiegoProcessAssociation)
| ODelete (guid : string)
| OSync (l : list CAPIDiegoProcessAssociation).

Definition apply_op (c : CAPIDiegoProcessAssociationsRepo) (o : op) :=
  match o with
  | OUpsert a => Upsert c a
  | ODelete guid => Delete c guid
  | OSync l => Sync c l
  end.

(** The repository after a history, latest operation first. *)
Definition run (h : list op) : CAPIDiegoProcessAssociationsRepo :=
  foldr (λ o c, apply_op c o) NewAssociationsRepo h.

(** What the history says of a process. *)
Fixpoint log_assoc (h : list op) (guid : string) : option CAPIDiegoProcessAssociation :=
  match h with
  | [] => None
  | OUpsert a :: h => if decide (CAPIProcessGUID a = guid) then Some a else log_assoc h guid
  | ODelete g :: h => if decide (g = guid) then None else log_assoc h guid
  | OSync l :: _ => last_with CAPIProcessGUID guid l
  end.

(** ** Lemmas *)
Lemma foldl_gappend {A} (s : gslice A) l :
  s ≠ Nil → foldl (λ s x, gappend s [x]) s l = Sl (elems s ++ l).
Proof.
  revert s; induction l as [|x l IH]; intros s Hs; simpl.
  - destruct s; [done|]. simpl. by rewrite app_nil_r.
  - rewrite IH by (by destruct s). by rewrite elems_gappend, <-app_assoc.
Qed.

Lemma FromStringSlice_elems s : DiegoProcessGUIDsFromStringSlice s = Sl (elems s).
Proof. apply foldl_gappend. done. Qed.
Lemma ToStringSlice_elems p : ToStringSlice p = Sl (elems p).
Proof. apply foldl_gappend. done. Qed.

Lemma run_log h guid : Get (run h) guid = log_assoc h guid.
Proof.
  induction h as [|[a|g|l] h IH]; unfold Get in *; simpl.
  - apply lookup_empty.
  - rewrite lookup_insert, IH. done.
  - rewrite lookup_delete, IH. done.
  - rewrite lookup_insert_all, lookup_empty. by destruct (last_with _ _ _).
Qed.

Lemma log_assoc_guid h guid a : log_assoc h guid = Some a → CAPIProcessGUID a = guid.
Proof.
  induction h as [|[b|g|l] h IH]; simpl; intros Hl; [done|..].
  - case_decide; simplify_eq; auto.
  - case_decide; simplify_eq; auto.
  - by apply last_with_Some in Hl as [??].
Qed.

(** ** Properties *)

(** The associations repository refines its operation log: after any history
    of [Upsert], [Delete] and [Sync] (latest first), [Get] answers with the latest
    association written for the process and not removed since, that association
    carries the process's own GUID, and [List] lists exactly the processes [Get]
    finds with their Diego process GUIDs. *)
Theorem associations_refine_log `{MapOrder} (h : list op) :
  (∀ guid, Get (run h) guid = log_assoc h guid) ∧
  (∀ guid a, Get (run h) guid = Some a → CAPIProcessGUID a = guid) ∧
  (∀ guid, List (run h) !! guid = GUIDs <$> log_assoc h guid).
Proof.
  split_and!; intros.
  - apply run_log.
  - eapply log_assoc_guid. rewrite <-run_log. done.
  - unfold List. rewrite (insert_all_map_order GUIDs), lookup_fmap. f_equal. apply run_log.
Qed.

(** Converting GUIDs from strings and back keeps every element in order, and
    what comes back is never the nil slice, so a nil and an empty list of GUIDs
    become the same list. *)
Theorem DiegoProcessGUIDs_roundtrip (s : gslice string) :
  ToStringSlice (DiegoProcessGUIDsFromStringSlice s) = Sl (elems s) ∧
  (s ≠ Nil → ToStringSlice (DiegoProcessGUIDsFromStringSlice s) = s).
Proof.
  rewrite ToStringSlice_elems, FromStringSlice_elems. split; [done|]. by destruct s.
Qed.
