(* ===== verification/BackendSets.v ===== *)
(** * Diego backends ([models/diego_process_backend_set.go],
    [models/noop_backend_set_repo.go])

    [DiegoBackendSetRepo] keeps, per Diego process, the addresses at which its
    instances are reached from outside and from inside the platform.  Two
    goroutines write to it: one follows the instance events of the BBS, the other
    replaces the whole content on every tick.  [Insert] is written as two critical
    sections with an unlocked comparison between them, so the model splits it
    there, and a step function interleaves the two goroutines. *)
From S2P Require Import Prelude Associations.

(** ** Data *)
Record Backend := mkBackend {
  Address : string;
  Port : Z;           (* uint32 *)
  ContainerPort : Z;  (* uint32 *)
}.

Record BackendSet := mkBackendSet { Backends : gslice Backend }.

Record sets := mkSets { External : BackendSet; Internal : BackendSet }.

(** The content of a [store]; the mutex shows in how operations are cut. *)
Notation store := (gmap string sets).

(** The fields of the BBS messages that the repository reads; the port mappings
    are pointers. *)
Record PortMapping := mkPortMapping { pmContainerPort : Z; pmHostPort : Z }.
Record ActualLRP := mkActualLRP {
  ProcessGuid : string;
  lrpAddress : string;
  lrpInstanceAddress : string;
  Ports : list (option PortMapping);
  State : string;
  Presence : Z;
}.
Definition ActualLRP_Ordinary : Z := 0.
Definition ActualLRP_Evacuating : Z := 1.
Definition ActualLRPStateRunning : string := "RUNNING".

Inductive event :=
| ActualLRPInstanceCreatedEvent (lrp : option ActualLRP)
| ActualLRPInstanceRemovedEvent (lrp : option ActualLRP)
| OtherEvent.

Global Instance Backend_eq_dec : EqDecision Backend.
Proof. solve_decision. Defined.
Global Instance BackendSet_eq_dec : EqDecision BackendSet.
Proof. solve_decision. Defined.
Global Instance sets_eq_dec : EqDecision sets.
Proof. solve_decision. Defined.

Definition nil_deref : string := "invalid memory address or nil pointer dereference".

(** ** The getters of the messages, on nil receivers too *)
Definition GetPresence (lrp : option ActualLRP) : Z :=
  match lrp with Some l => Presence l | None => ActualLRP_Ordinary end.
Definition GetState (lrp : option ActualLRP) : string :=
  match lrp with Some l => State l | None => "" end.
(** [GetProcessGuid] is promoted from an embedded struct: a nil receiver panics. *)
Definition GetProcessGuid (lrp : option ActualLRP) : outcome string :=
  match lrp with Some l => Ret (ProcessGuid l) | None => Panic nil_deref end.

(** ** [processActualLRP] *)
Definition scan_port (acc : Z * Z) (port : option PortMapping) : outcome (Z * Z) :=
  match port with
  | None => Panic nil_deref
  | Some p =>
      Ret (if decide (pmContainerPort p ≠ CF_APP_SSH_PORT)
           then (pmHostPort p, pmContainerPort p) else acc)
  end.

Definition processActualLRP (lrp : option ActualLRP)
    : outcome (option Backend * option Backend) :=
  if decide (GetPresence lrp = ActualLRP_Evacuating) then Ret (None, None)
  else if decide (GetState lrp ≠ ActualLRPStateRunning) then Ret (None, None)
  else match lrp with
  | None => Panic nil_deref
  | Some l =>
      ports ← foldM scan_port (0%Z, 0%Z) (Ports l);
      let '(appHostPort, appContainerPort) := ports in
      let externalBackend :=
        if decide (appHostPort ≠ 0%Z)
        then Some (mkBackend (lrpAddress l) appHostPort appContainerPort) else None in
      let internalBackend :=
        if decide (appContainerPort ≠ 0%Z)
        then Some (mkBackend (lrpInstanceAddress l) appContainerPort appContainerPort)
        else None in
      Ret (externalBackend, internalBackend)
  end.

(** ** The store *)
Definition empty_sets : sets := mkSets (mkBackendSet Nil) (mkBackendSet Nil).

Definition side (isInternal : bool) (s : sets) : BackendSet :=
  if isInternal then Internal s else External s.
Definition add_backend (isInternal : bool) (b : Backend) (s : sets) : sets :=
  if isInternal
  then mkSets (External s) (mkBackendSet (gappend (Backends (Internal s)) [b]))
  else mkSets (mkBackendSet (gappend (Backends (External s)) [b])) (Internal s).

(** First critical section of [Insert]: make the entry, read its backends. *)
Definition insert_lock1 (s : store) (guid : string) (isInternal : bool)
    : store * gslice Backend :=
  let s := match s !! guid with None => <[guid := empty_sets]> s | Some _ => s end in
  (s, match s !! guid with Some e => Backends (side isInternal e) | None => Nil end).

(** The unlocked loop: [reflect.DeepEqual] on two [*Backend]. *)
Definition seen (backends : gslice Backend) (b : Backend) : bool :=
  existsb (λ backend, bool_decide (backend = b)) (elems backends).

(** Second critical section: append through the entry's pointer. *)
Definition insert_lock2 (s : store) (guid : string) (isInternal : bool) (b : Backend)
    : outcome store :=
  match s !! guid with
  | Some e => Ret (<[guid := add_backend isInternal b e]> s)
  | None => Panic nil_deref
  end.

Definition Insert (s : store) (guid : string) (isInternal : bool) (b : option Backend)
    : outcome store :=
  match b with
  | None => Ret s
  | Some b =>
      let '(s, backends) := insert_lock1 s guid isInternal in
      if seen backends b then Ret s else insert_lock2 s guid isInternal b
  end.

Definition Remove (s : store) (guid : string) : store := delete guid s.

(** ** The repository interface *)
Inductive BackendSetRepo :=
| DiegoBackendSetRepo (s : store)
| NoopBackendSetRepo.

Definition NewBackendSetRepo {bbs : Type} (b : option bbs) : BackendSetRepo :=
  match b with None => NoopBackendSetRepo | Some _ => DiegoBackendSetRepo ∅ end.

(** The source returns a pointer to the set and drops the lock; here the set itself is
    returned.  The caller reads it right after, outside the lock: what it finds is what the
    store held for the process at some moment between the call and the read, because a
    set is only written under the lock and only while it is in the store (a set that was
    removed or swapped out keeps what it had).  So it is as if the call had been made at
    that moment, and the collector is shown correct for any moments of its calls
    ([Collector], [System]).  That
    Go promises nothing about a read that races with such a write is left aside. *)
Definition get_side (isInternal : bool) (r : BackendSetRepo) (guid : string)
    : option BackendSet :=
  match r with
  | NoopBackendSetRepo => None
  | DiegoBackendSetRepo s =>
      match s !! guid with
      | Some val => Some (side isInternal val)
      | None => Some (mkBackendSet (Sl []))
      end
  end.
Definition Get : BackendSetRepo → string → option BackendSet := get_side false.
Definition GetInternalBackends : BackendSetRepo → string → option BackendSet := get_side true.

(** ** The goroutines, run alone *)
(** The two insertions of one created instance. *)
Definition insert_lrp (s : store) (lrp : option ActualLRP) : outcome store :=
  exin ← processActualLRP lrp;
  guid ← GetProcessGuid lrp;
  s ← Insert s guid false exin.1;
  Insert s guid true exin.2.

(** One round of [collectEvents] on what [Next] returned: the store, and whether
    the loop goes on. *)
Definition collect_event (s : store) (next : string + event) : outcome (store * bool) :=
  match next with
  | inl err => Ret (s, true)
  | inr (ActualLRPInstanceCreatedEvent lrp) => s ← insert_lrp s lrp; Ret (s, true)
  | inr (ActualLRPInstanceRemovedEvent lrp) =>
      guid ← GetProcessGuid lrp; Ret (Remove s guid, true)
  | inr OtherEvent => Ret (s, false)
  end.

(** One tick of [reconcileLRPs]: the content it builds, if the BBS answers. *)
Definition replacement (lrps : list (option ActualLRP)) : outcome store :=
  foldM insert_lrp ∅ lrps.
Definition reconcile_tick (s : store) (answer : string + list (option ActualLRP))
    : outcome store :=
  match answer with inl err => Ret s | inr lrps => replacement lrps end.

(** ** The goroutines, interleaved *)
Inductive events_pc :=
| ENext
| EInsert (guid : string) (todo : list (bool * option Backend))
| ELock2 (guid : string) (isInternal : bool) (b : Backend) (todo : list (bool * option Backend))
| EExit.
Inductive reconcile_pc := RWait | RSwap (content : store) | RExit.

Record state := mkState {
  content : store;
  events : events_pc;
  reconcile : reconcile_pc;
}.

(** What the scheduler runs, with what the environment answers. *)
Inductive label :=
| LNext (next : string + event)
| LInsert
| LLock2
| LTick (answer : string + list (option ActualLRP))
| LSwap
| LStopEvents
| LStopReconcile.

Definition initial : state := mkState ∅ ENext RWait.

(** One atomic step; [None] when the label is not enabled. *)
Definition step (st : state) (l : label) : option (outcome state) :=
  let '(mkState s e r) := st in
  match l, e, r with
  | LNext (inl _), ENext, _ => Some (Ret st)
  | LNext (inr (ActualLRPInstanceCreatedEvent lrp)), ENext, _ =>
      Some (exin ← processActualLRP lrp; guid ← GetProcessGuid lrp;
            Ret (mkState s (EInsert guid [(false, exin.1); (true, exin.2)]) r))
  | LNext (inr (ActualLRPInstanceRemovedEvent lrp)), ENext, _ =>
      Some (guid ← GetProcessGuid lrp; Ret (mkState (Remove s guid) ENext r))
  | LNext (inr OtherEvent), ENext, _ => Some (Ret (mkState s EExit r))
  | LInsert, EInsert guid [], _ => Some (Ret (mkState s ENext r))
  | LInsert, EInsert guid ((_, None) :: todo), _ => Some (Ret (mkState s (EInsert guid todo) r))
  | LInsert, EInsert guid ((i, Some b) :: todo), _ =>
      let '(s, backends) := insert_lock1 s guid i in
      Some (Ret (mkState s (if seen backends b then EInsert guid todo
                            else ELock2 guid i b todo) r))
  | LLock2, ELock2 guid i b todo, _ =>
      Some (s ← insert_lock2 s guid i b; Ret (mkState s (EInsert guid todo) r))
  | LTick (inl _), _, RWait => Some (Ret st)
  | LTick (inr lrps), _, RWait => Some (s' ← replacement lrps; Ret (mkState s e (RSwap s')))
  | LSwap, _, RSwap s' => Some (Ret (mkState s' e RWait))
  | LStopEvents, ENext, _ => Some (Ret (mkState s EExit r))
  | LStopReconcile, _, RWait => Some (Ret (mkState s e RExit))
  | _, _, _ => None
  end.

(** A schedule that runs to its end, or to a panic; [ok] restricts what the
    scheduler may run in a state. *)
Inductive trace (ok : state → label → Prop) (st : state) : list label → outcome state → Prop :=
| trace_nil : trace ok st [] (Ret st)
| trace_step l ls st' out :
    ok st l → step st l = Some (Ret st') → trace ok st' ls out → trace ok st (l :: ls) out
| trace_panic l why :
    ok st l → step st l = Some (Panic why) → trace ok st [l] (Panic why).

(** ** Specification *)
(** The backends a store holds for one side of a process. *)
Definition backends_at (s : store) (guid : string) (isInternal : bool) : list Backend :=
  match s !! guid with Some e => elems (Backends (side isInternal e)) | None => [] end.

Definition add_new (l : list Backend) (b : option Backend) : list Backend :=
  match b with
  | None => l
  | Some b => if decide (b ∈ l) then l else l ++ [b]
  end.

(** The backend of one instance: none unless it is running and not evacuating;
    else at its last port that is not the SSH port, when that is not zero. *)
Definition app_port (l : ActualLRP) : option PortMapping :=
  last (filter (λ p, pmContainerPort p ≠ CF_APP_SSH_PORT) (omap id (Ports l))).
Definition lrp_backend (isInternal : bool) (l : ActualLRP) : option Backend :=
  if decide (Presence l = ActualLRP_Evacuating ∨ State l ≠ ActualLRPStateRunning) then None
  else p ← app_port l;
       if isInternal then
         if decide (pmContainerPort p = 0%Z) then None
         else Some (mkBackend (lrpInstanceAddress l) (pmContainerPort p) (pmContainerPort p))
       else
         if decide (pmHostPort p = 0%Z) then None
         else Some (mkBackend (lrpAddress l) (pmHostPort p) (pmContainerPort p)).

(** Messages as they come off the wire: no nil pointers inside. *)
Definition wf_lrp (l : option ActualLRP) : Prop :=
  ∃ lrp, l = Some lrp ∧ Forall is_Some (Ports lrp).
Definition event_lrp (e : event) : option ActualLRP :=
  match e with
  | ActualLRPInstanceCreatedEvent l | ActualLRPInstanceRemovedEvent l => l
  | OtherEvent => None
  end.
Definition wf_label (l : label) : Prop :=
  match l with
  | LNext (inr OtherEvent) => True
  | LNext (inr e) => wf_lrp (event_lrp e)
  | LTick (inr lrps) => Forall wf_lrp lrps
  | _ => True
  end.

(** Schedules in which the swap does not fall between the two critical sections
    of an insertion. *)
Definition calm (st : state) (l : label) : Prop :=
  wf_label l ∧
  match l, events st with LSwap, ELock2 _ _ _ _ => False | _, _ => True end.
Definition any (st : state) (l : label) : Prop := wf_label l.

Definition nodup_store (s : store) : Prop := ∀ guid i, NoDup (backends_at s guid i).

Definition inv (st : state) : Prop :=
  nodup_store (content st) ∧
  match events st with
  | ELock2 guid i b _ => is_Some (content st !! guid) ∧ b ∉ backends_at (content st) guid i
  | _ => True
  end ∧
  match reconcile st with RSwap s => nodup_store s | _ => True end.

(** The events goroutine alone, over the events of a run of the stream. *)
Definition run_events (s : store) (es : list event) : outcome store :=
  foldM (λ s e, r ← collect_event s (inr e); Ret r.1) s es.

(** Instances created and not removed since, latest event first. *)
Fixpoint live (es : list event) (guid : string) (l : ActualLRP) : Prop :=
  match es with
  | [] => False
  | ActualLRPInstanceCreatedEvent o :: es =>
      (o = Some l ∧ ProcessGuid l = guid) ∨ live es guid l
  | ActualLRPInstanceRemovedEvent o :: es => (ProcessGuid <$> o) ≠ Some guid ∧ live es guid l
  | OtherEvent :: es => live es guid l
  end.

Global Arguments insert_lock1 : simpl never.
Global Arguments insert_lock2 : simpl never.
Global Arguments processActualLRP : simpl never.

(** A step that keeps the three parts of [inv]. *)
Ltac keep_inv := eexists; split; [done|]; split_and!; simpl; auto.

(** ** Lemmas *)
Lemma add_new_NoDup l b : NoDup l → NoDup (add_new l b).
Proof.
  intros Hl. destruct b as [b|]; simpl; [|done]. case_decide; [done|].
  apply NoDup_app. split_and!; [done| |apply NoDup_singleton].
  intros x Hx ->%list_elem_of_singleton. done.
Qed.
Lemma elem_of_add_new l b x : x ∈ add_new l b ↔ x ∈ l ∨ b = Some x.
Proof. destruct b as [b|]; simpl; [case_decide|]; set_solver. Qed.

Lemma seen_spec s b : seen s b = bool_decide (b ∈ elems s).
Proof.
  unfold seen. induction (elems s) as [|x l IH]; simpl.
  - reflexivity.
  - rewrite IH. apply eq_bool_prop_intro. rewrite orb_True, !bool_decide_spec, elem_of_cons.
    naive_solver.
Qed.

Lemma backends_at_insert s guid e g i :
  backends_at (<[guid := e]> s) g i =
  if decide (g = guid) then elems (Backends (side i e)) else backends_at s g i.
Proof. unfold backends_at. rewrite lookup_insert. repeat case_decide; by simplify_eq. Qed.

Lemma elems_add_backend i b e j :
  elems (Backends (side j (add_backend i b e))) =
  elems (Backends (side j e)) ++ (if decide (i = j) then [b] else []).
Proof. by destruct i, j; simpl; rewrite ?elems_gappend, ?app_nil_r. Qed.

Lemma insert_lock1_spec s guid i :
  let '(s', backends) := insert_lock1 s guid i in
  is_Some (s' !! guid) ∧ elems backends = backends_at s guid i ∧
  ∀ g j, backends_at s' g j = backends_at s g j.
Proof.
  unfold insert_lock1. destruct (s !! guid) as [e|] eqn:E.
  - rewrite E. unfold backends_at. rewrite E. eauto.
  - rewrite lookup_insert_eq. split; [eauto|]. split.
    + unfold backends_at. rewrite E. by destruct i.
    + intros g j. rewrite backends_at_insert. case_decide; [|done]. subst.
      unfold backends_at. rewrite E. by destruct j.
Qed.

Lemma insert_lock2_spec s guid i b :
  is_Some (s !! guid) →
  ∃ s', insert_lock2 s guid i b = Ret s' ∧
    ∀ g j, backends_at s' g j =
      backends_at s g j ++ (if decide (g = guid ∧ j = i) then [b] else []).
Proof.
  intros [e He]. unfold insert_lock2. rewrite He. eexists. split; [done|].
  intros g j. rewrite backends_at_insert. case_decide; subst.
  - rewrite elems_add_backend. unfold backends_at. rewrite He. f_equal.
    repeat case_decide; naive_solver.
  - rewrite decide_False by naive_solver. by rewrite app_nil_r.
Qed.

Lemma Insert_spec s guid i b :
  ∃ s', Insert s guid i b = Ret s' ∧
    ∀ g j, backends_at s' g j =
      if decide (g = guid ∧ j = i) then add_new (backends_at s g j) b else backends_at s g j.
Proof.
  destruct b as [b|]; unfold Insert; [|eexists; split; [done|]; intros; by case_decide].
  pose proof (insert_lock1_spec s guid i) as H1.
  destruct (insert_lock1 s guid i) as [s1 backends]. destruct H1 as (Hsome & Hel & Hs1).
  rewrite seen_spec, Hel. case_bool_decide as Hin.
  - eexists. split; [done|]. intros g j. rewrite Hs1. case_decide as E; [|done].
    destruct E as [-> ->]. simpl. by rewrite decide_True.
  - destruct (insert_lock2_spec s1 guid i b Hsome) as (s' & -> & Hs').
    eexists. split; [done|]. intros g j. rewrite Hs', Hs1.
    case_decide as E; [|by rewrite app_nil_r].
    destruct E as [-> ->]. simpl. by rewrite decide_False.
Qed.

Lemma scan_ports l acc :
  Forall is_Some l →
  foldM scan_port acc l = Ret
    match last (filter (λ p, pmContainerPort p ≠ CF_APP_SSH_PORT) (omap id l)) with
    | Some p => (pmHostPort p, pmContainerPort p)
    | None => acc
    end.
Proof.
  intros Hl. revert acc; induction Hl as [|o l [p ->] _ IH]; intros acc; [done|].
  change (omap id (Some p :: l)) with (p :: omap id l). simpl foldM. rewrite IH.
  rewrite filter_cons. repeat case_decide; try done. rewrite last_cons. by destruct (last _).
Qed.

Lemma processActualLRP_spec l :
  Forall is_Some (Ports l) →
  processActualLRP (Some l) = Ret (lrp_backend false l, lrp_backend true l).
Proof.
  intros Hp. unfold processActualLRP, lrp_backend, app_port. simpl.
  destruct (decide (Presence l = _)); [by rewrite !decide_True by auto|].
  destruct (decide (State l ≠ _)); [by rewrite !decide_True by auto|].
  rewrite !decide_False by naive_solver. rewrite scan_ports by done. simpl.
  destruct (last _) as [p|]; simpl; repeat case_decide; naive_solver.
Qed.

Lemma insert_lrp_spec s l :
  Forall is_Some (Ports l) →
  ∃ s', insert_lrp s (Some l) = Ret s' ∧
    ∀ g i, backends_at s' g i =
      if decide (g = ProcessGuid l) then add_new (backends_at s g i) (lrp_backend i l)
      else backends_at s g i.
Proof.
  intros Hp. unfold insert_lrp. rewrite processActualLRP_spec by done. simpl.
  destruct (Insert_spec s (ProcessGuid l) false (lrp_backend false l)) as (s1 & -> & H1). simpl.
  destruct (Insert_spec s1 (ProcessGuid l) true (lrp_backend true l)) as (s2 & -> & H2).
  eexists. split; [done|]. intros g i. rewrite H2, H1.
  destruct i; repeat case_decide; naive_solver.
Qed.

(** The content after a run of well-formed events or instances. *)
Lemma collect_event_spec s e :
  (e = OtherEvent ∨ wf_lrp (event_lrp e)) →
  ∃ s' go, collect_event s (inr e) = Ret (s', go) ∧
    ∀ g i, backends_at s' g i =
      match e with
      | ActualLRPInstanceCreatedEvent (Some l) =>
          if decide (g = ProcessGuid l) then add_new (backends_at s g i) (lrp_backend i l)
          else backends_at s g i
      | ActualLRPInstanceRemovedEvent (Some l) =>
          if decide (g = ProcessGuid l) then [] else backends_at s g i
      | _ => backends_at s g i
      end.
Proof.
  destruct e as [o|o|]; simpl; [intros [|(l & -> & Hp)]; [done|]..|eauto].
  - destruct (insert_lrp_spec s l Hp) as (s' & -> & Hs'). simpl. eauto.
  - eexists _, _. split; [done|]. intros g i. unfold Remove, backends_at at 1.
    rewrite lookup_delete. repeat case_decide; by simplify_eq.
Qed.

Global Arguments collect_event : simpl never.

Lemma replacement_from s lrps :
  Forall wf_lrp lrps → nodup_store s →
  ∃ s', foldM insert_lrp s lrps = Ret s' ∧ nodup_store s' ∧
    ∀ g i b, b ∈ backends_at s' g i ↔ b ∈ backends_at s g i ∨
      ∃ l, Some l ∈ lrps ∧ ProcessGuid l = g ∧ lrp_backend i l = Some b.
Proof.
  intros Hwf. revert s; induction Hwf as [|o lrps (l & -> & Hp) _ IH]; intros s Hs.
  - eexists. split; [done|]. split; [done|]. intros. set_solver.
  - simpl. destruct (insert_lrp_spec s l Hp) as (s1 & -> & H1). simpl.
    destruct (IH s1) as (s' & -> & Hnd & Hs').
    { intros g i. rewrite H1. case_decide; [apply add_new_NoDup|]; apply Hs. }
    eexists. split; [done|]. split; [done|]. intros g i b.
    rewrite Hs', H1. setoid_rewrite elem_of_cons.
    case_decide; rewrite ?elem_of_add_new; naive_solver.
Qed.

Lemma nodup_empty : nodup_store ∅.
Proof. intros g i. unfold backends_at. rewrite lookup_empty. apply NoDup_nil_2. Qed.

Lemma replacement_spec lrps :
  Forall wf_lrp lrps →
  ∃ s, replacement lrps = Ret s ∧ nodup_store s ∧
    ∀ g i b, b ∈ backends_at s g i ↔
      ∃ l, Some l ∈ lrps ∧ ProcessGuid l = g ∧ lrp_backend i l = Some b.
Proof.
  intros Hwf. destruct (replacement_from ∅ lrps Hwf nodup_empty) as (s & Hs & Hnd & Hin).
  exists s. split_and!; [done..|]. intros g i b. rewrite Hin.
  unfold backends_at. rewrite lookup_empty. set_solver.
Qed.

Lemma nodup_collect s e s' go :
  (e = OtherEvent ∨ wf_lrp (event_lrp e)) → nodup_store s →
  collect_event s (inr e) = Ret (s', go) → nodup_store s'.
Proof.
  intros Hwf Hs He. destruct (collect_event_spec s e Hwf) as (s1 & go1 & He1 & H1).
  rewrite He in He1. simplify_eq. intros g i. rewrite H1.
  repeat case_match; eauto using add_new_NoDup, NoDup_nil_2.
Qed.

(** Steps of the interleaved system. *)
Lemma nodup_lock1 s guid i :
  nodup_store s → nodup_store (insert_lock1 s guid i).1.
Proof.
  intros Hs g j. pose proof (insert_lock1_spec s guid i) as H.
  destruct (insert_lock1 s guid i). destruct H as (_ & _ & H). simpl. rewrite H. apply Hs.
Qed.

Lemma step_insert s guid i b todo r :
  step (mkState s (EInsert guid ((i, Some b) :: todo)) r) LInsert =
  Some (Ret (mkState (insert_lock1 s guid i).1
               (if seen (insert_lock1 s guid i).2 b then EInsert guid todo
                else ELock2 guid i b todo) r)).
Proof. done. Qed.

Lemma step_inv st l out :
  inv st → calm st l → step st l = Some out → ∃ st', out = Ret st' ∧ inv st'.
Proof.
  intros (Hnd & He & Hr) [Hwf Hcalm] Hstep. destruct st as [s e r]. simpl in *.
  destruct l as [[err|ev]| | |[err|lrps]| | |].
  - destruct e; simplify_eq. keep_inv.
  - destruct ev as [o|o|], e; simplify_eq/=.
    + destruct Hwf as (l & -> & Hp). rewrite processActualLRP_spec by done. simpl. keep_inv.
    + destruct Hwf as (l & -> & Hp). simpl. eexists. split; [done|]. split_and!; simpl; auto.
      intros g i. unfold backends_at, Remove. rewrite lookup_delete.
      case_decide; [apply NoDup_nil_2|apply Hnd].
    + keep_inv.
  - destruct e as [|guid [|[i [b|]] todo]| |]; try discriminate Hstep;
      [simplify_eq; by keep_inv| |simplify_eq; by keep_inv].
    change (step (mkState s (EInsert guid ((i, Some b) :: todo)) r) LInsert = Some out) in Hstep.
    rewrite step_insert in Hstep. pose proof (nodup_lock1 s guid i Hnd) as Hnd1.
    pose proof (insert_lock1_spec s guid i) as H1.
    destruct (insert_lock1 s guid i) as [s1 backends]. cbn [fst snd] in *. simplify_eq.
    destruct H1 as (Hsome & Hel & H1). rewrite seen_spec, Hel.
    eexists. split; [done|]. case_bool_decide; split_and!; simpl; auto.
    split; [done|]. by rewrite H1.
  - destruct e as [| |guid i b todo|]; simplify_eq. destruct He as [Hsome Hb].
    destruct (insert_lock2_spec s guid i b Hsome) as (s' & -> & Hs'). simpl.
    eexists. split; [done|]. split_and!; simpl; auto.
    intros g j. rewrite Hs'. case_decide as E; [|rewrite app_nil_r; apply Hnd].
    destruct E as [-> ->]. apply NoDup_app. split_and!; [apply Hnd| |apply NoDup_singleton].
    by intros x Hx ->%list_elem_of_singleton.
  - destruct r; simplify_eq. keep_inv.
  - destruct r; simplify_eq. destruct (replacement_spec lrps Hwf) as (s' & -> & Hs' & _).
    simpl. keep_inv.
  - destruct r; simplify_eq. eexists. split; [done|]. split_and!; simpl; auto.
    by destruct e.
  - destruct e; simplify_eq. keep_inv.
  - destruct r; simplify_eq. keep_inv.
Qed.

Lemma trace_inv st ls out :
  inv st → trace calm st ls out → ∃ st', out = Ret st' ∧ inv st'.
Proof.
  intros Hinv Htr. induction Htr as [st|st l ls st1 out Hok Hs _ IH|st l why Hok Hs].
  - eauto.
  - destruct (step_inv _ _ _ Hinv Hok Hs) as (? & ? & ?). simplify_eq. auto.
  - by destruct (step_inv _ _ _ Hinv Hok Hs) as (? & ? & ?).
Qed.

Lemma inv_initial : inv initial.
Proof. split_and!; [apply nodup_empty|done..]. Qed.

(** The events goroutine after its end. *)
Lemma step_exit st l st' :
  events st = EExit → step st l = Some (Ret st') →
  events st' = EExit ∧ (∀ next, l ≠ LNext next) ∧ (l ≠ LSwap → content st' = content st).
Proof.
  destruct st as [s1 e1 r1], st' as [s2 e2 r2]. simpl. intros -> Hs.
  destruct l as [[]| | |[err|lrps]| | |], r1; simpl in Hs; simplify_eq/=; try done.
  all: try by destruct e.
  apply (bind_Ret (replacement lrps)) in Hs as (? & _ & ?). by simplify_eq.
Qed.

Lemma trace_exit ok st ls st' :
  trace ok st ls (Ret st') → events st = EExit →
  events st' = EExit ∧ (∀ next, LNext next ∉ ls) ∧ (LSwap ∉ ls → content st' = content st).
Proof.
  remember (Ret st') as out eqn:Eout. intros Htr. revert Eout.
  induction Htr as [st|st l ls st1 out _ Hs Htr IH|]; intros Eout Hex; simplify_eq.
  - split_and!; [done| |done]. intros ? []%not_elem_of_nil.
  - destruct (step_exit _ _ _ Hex Hs) as (Hex1 & Hnext & Hcont).
    destruct (IH eq_refl Hex1) as (? & Hn & Hc). split_and!; [done|set_solver|].
    intros [??]%not_elem_of_cons. rewrite Hc, Hcont; auto.
Qed.

Lemma run_events_live es :
  Forall (λ e, wf_lrp (event_lrp e)) es →
  ∃ s, run_events ∅ es = Ret s ∧ nodup_store s ∧
    ∀ g i b, b ∈ backends_at s g i ↔
      ∃ l, live (reverse es) g l ∧ lrp_backend i l = Some b.
Proof.
  induction es as [|e es IH] using rev_ind.
  - intros _. eexists. split; [done|]. split; [apply nodup_empty|]. intros g i b.
    unfold backends_at. rewrite lookup_empty. simpl. set_solver.
  - intros [Hes He]%Forall_app. destruct (IH Hes) as (s & Hs & Hnd & Hin).
    rewrite Forall_singleton in He.
    destruct (collect_event_spec s e (or_intror He)) as (s1 & go & He1 & H1).
    exists s1. unfold run_events in *. rewrite foldM_app, Hs. simpl. rewrite He1. simpl.
    split; [done|]. split; [by eapply nodup_collect; [right; exact He| |]|].
    intros g i b. rewrite H1, reverse_snoc.
    destruct He as (l & Hl & _). destruct e as [o|o|]; simplify_eq/=.
    + case_decide; rewrite ?elem_of_add_new, Hin; naive_solver.
    + case_decide; [set_solver|]. rewrite Hin. naive_solver.
Qed.

Lemma get_side_backends i s guid :
  ∃ bs, get_side i (DiegoBackendSetRepo s) guid = Some bs ∧
        elems (Backends bs) = backends_at s guid i.
Proof. unfold get_side, backends_at. destruct (s !! guid); eauto. Qed.

(** ** Properties *)

(** [processActualLRP] computes the external and the internal backend of an
    instance: nothing unless it is running and not evacuating, and then the
    last of its ports that is not the SSH port, through the host address and port
    outside and the instance address and container port inside, each side absent
    when its port is zero. *)
Theorem processActualLRP_correct (l : ActualLRP) (Hp : Forall is_Some (Ports l)) :
  processActualLRP (Some l) = Ret (lrp_backend false l, lrp_backend true l).
Proof. by apply processActualLRP_spec. Qed.

Definition w_lrp : ActualLRP :=
  mkActualLRP "p" "10.0.0.1" "10.255.0.1"
    [Some (mkPortMapping 8080 61000); Some (mkPortMapping 2222 61001)] "RUNNING" 0.
Definition w_lrp2 : ActualLRP :=
  mkActualLRP "p" "10.0.0.2" "10.255.0.2" [Some (mkPortMapping 8080 61005)] "RUNNING" 0.

Lemma processActualLRP_correct_witness :
  processActualLRP (Some w_lrp) =
    Ret (Some (mkBackend "10.0.0.1" 61000 8080), Some (mkBackend "10.255.0.1" 8080 8080)).
Proof. apply (processActualLRP_correct w_lrp). repeat constructor; eauto. Defined.

(** C31. Left alone, the events goroutine is correct and never panics: after any
    stream of created and removed events, [Get] and [GetInternalBackends] answer,
    without duplicates, with exactly the backends of the instances that were
    created and whose process has seen no removal since. *)
Theorem events_alone_correct (es : list event)
    (Hes : Forall (λ e, wf_lrp (event_lrp e)) es) :
  ∃ s, run_events ∅ es = Ret s ∧
    ∀ guid i, ∃ bs, get_side i (DiegoBackendSetRepo s) guid = Some bs ∧
      NoDup (elems (Backends bs)) ∧
      ∀ b, b ∈ elems (Backends bs) ↔
        ∃ l, live (reverse es) guid l ∧ lrp_backend i l = Some b.
Proof.
  destruct (run_events_live es Hes) as (s & -> & Hnd & Hin). eexists. split; [done|].
  intros guid i. destruct (get_side_backends i s guid) as (bs & -> & Hbs).
  exists bs. rewrite Hbs. auto.
Qed.

Definition w_events : list event :=
  [ActualLRPInstanceCreatedEvent (Some w_lrp); ActualLRPInstanceRemovedEvent (Some w_lrp);
   ActualLRPInstanceCreatedEvent (Some w_lrp2)].

Lemma events_alone_correct_witness :
  ∃ s, run_events ∅ w_events = Ret s ∧
    ∀ guid i, ∃ bs, get_side i (DiegoBackendSetRepo s) guid = Some bs ∧
      NoDup (elems (Backends bs)) ∧
      ∀ b, b ∈ elems (Backends bs) ↔
        ∃ l, live (reverse w_events) guid l ∧ lrp_backend i l = Some b.
Proof.
  apply (events_alone_correct w_events).
  repeat constructor; eexists; (split; [reflexivity|]); repeat constructor; eauto.
Defined.

(** A tick to which the BBS answers replaces the store by exactly the backends
    of the instances in the answer, without duplicates; it never panics, and a
    tick to which the BBS answers with an error leaves the store alone. *)
Theorem reconcile_tick_correct (s : store) (lrps : list (option ActualLRP))
    (Hwf : Forall wf_lrp lrps) :
  (∀ err, reconcile_tick s (inl err) = Ret s) ∧
  ∃ s', reconcile_tick s (inr lrps) = Ret s' ∧
    ∀ guid i, ∃ bs, get_side i (DiegoBackendSetRepo s') guid = Some bs ∧
      NoDup (elems (Backends bs)) ∧
      ∀ b, b ∈ elems (Backends bs) ↔
        ∃ l, Some l ∈ lrps ∧ ProcessGuid l = guid ∧ lrp_backend i l = Some b.
Proof.
  split; [done|]. unfold reconcile_tick. destruct (replacement_spec lrps Hwf) as (s' & -> & Hnd & Hin).
  eexists. split; [done|]. intros guid i.
  destruct (get_side_backends i s' guid) as (bs & -> & Hbs). exists bs. rewrite Hbs. auto.
Qed.

Lemma reconcile_tick_correct_witness :
  ∃ s', reconcile_tick ∅ (inr [Some w_lrp; Some w_lrp2; Some w_lrp]) = Ret s' ∧
    (length (backends_at s' "p" false) = 2).
Proof.
  destruct (reconcile_tick_correct ∅ [Some w_lrp; Some w_lrp2; Some w_lrp]) as [_ (s' & Hs' & _)].
  - repeat constructor; eexists; (split; [reflexivity|]); repeat constructor; eauto.
  - exists s'. split; [exact Hs'|]. vm_compute in Hs'. injection Hs' as <-. reflexivity.
Defined.

(** C18. The interleaved system is safe as long as no swap of the store falls
    between the two critical sections of an insertion: along every such schedule,
    whatever the BBS answers and the events say, no goroutine panics and no
    process ever has a duplicate backend. *)
Theorem calm_schedules_safe (ls : list label) (out : outcome state)
    (Htr : trace calm initial ls out) :
  ∃ st, out = Ret st ∧ ∀ guid i, NoDup (backends_at (content st) guid i).
Proof.
  destruct (trace_inv _ _ _ inv_initial Htr) as (st & -> & Hnd & _). eauto.
Qed.

Definition w_calm : list label :=
  [LTick (inr [Some w_lrp2]); LNext (inr (ActualLRPInstanceCreatedEvent (Some w_lrp)));
   LInsert; LLock2; LSwap].

Ltac run_trace :=
  repeat first [apply trace_nil
               | eapply trace_step;
                 [ split; simpl; repeat constructor; eexists; (split; [reflexivity|]);
                   repeat constructor; eauto
                 | vm_compute; reflexivity | ] ].

Lemma calm_schedules_safe_witness :
  ∃ st, trace calm initial w_calm (Ret st) ∧
    ∀ guid i, NoDup (backends_at (content st) guid i).
Proof.
  assert (∃ st, trace calm initial w_calm (Ret st)) as [st Hst].
  { eexists. unfold w_calm. run_trace. }
  exists st. split; [exact Hst|].
  destruct (calm_schedules_safe w_calm (Ret st) Hst) as (st' & E & H).
  by injection E as <-.
Defined.

(** A swap between the two critical sections of an insertion crashes the
    server: a reachable schedule of well-formed messages ends in the nil
    dereference of the second critical section, when the new content lacks the
    process; and when the new content has the same instance, the insertion
    leaves a duplicate backend. *)
Theorem swap_inside_insert :
  let created := LNext (inr (ActualLRPInstanceCreatedEvent (Some w_lrp))) in
  trace any initial [LTick (inr []); created; LInsert; LSwap; LLock2] (Panic nil_deref) ∧
  ∃ st, trace any initial [LTick (inr [Some w_lrp]); created; LInsert; LSwap; LLock2] (Ret st) ∧
    backends_at (content st) "p" false
      = [mkBackend "10.0.0.1" 61000 8080; mkBackend "10.0.0.1" 61000 8080].
Proof.
  cbv zeta. assert (wf_lrp (Some w_lrp)) as Hwf.
  { eexists. split; [done|]. repeat constructor; eauto. }
  split.
  - do 4 (eapply trace_step; [by (repeat constructor)|vm_compute; reflexivity|]).
    apply trace_panic; [done|vm_compute; reflexivity].
  - eexists. split.
    + do 5 (eapply trace_step; [by (repeat constructor)|vm_compute; reflexivity|]).
      apply trace_nil.
    + vm_compute. reflexivity.
Qed.

(** An event of any other type ends the events goroutine for good: after it,
    under every schedule, no further event is ever taken from the stream, and
    between two swaps the store does not change. *)
Theorem unhandled_event_is_final (st : state) (ls : list label) (st' : state)
    (Hpc : events st = ENext)
    (Htr : trace any st (LNext (inr OtherEvent) :: ls) (Ret st')) :
  events st' = EExit ∧ (∀ next, LNext next ∉ ls) ∧
  (LSwap ∉ ls → content st' = content st).
Proof.
  destruct st as [s e r]; simpl in Hpc; subst e. inv Htr. simpl in *. simplify_eq.
  match goal with H : trace _ _ _ _ |- _ => destruct (trace_exit _ _ _ _ H eq_refl) as (?&?&?) end.
  by split_and!.
Qed.

Lemma unhandled_event_is_final_witness :
  let ls := [LTick (inr [Some w_lrp])] in
  ∃ st, trace any initial (LNext (inr OtherEvent) :: ls) (Ret st) ∧
    events st = EExit ∧ content st = ∅.
Proof.
  cbv zeta. assert (wf_lrp (Some w_lrp)) as Hwf.
  { eexists. split; [done|]. repeat constructor; eauto. }
  assert (∃ st, trace any initial [LNext (inr OtherEvent); LTick (inr [Some w_lrp])] (Ret st))
    as [st Hst].
  { eexists. do 2 (eapply trace_step; [by repeat constructor|vm_compute; reflexivity|]).
    apply trace_nil. }
  exists st. split; [exact Hst|].
  destruct (unhandled_event_is_final initial _ st eq_refl Hst) as (He & _ & Hc).
  split; [exact He|]. rewrite Hc; [reflexivity|].
  by intros [[=]|[]%elem_of_nil]%elem_of_cons.
Defined.
