(* ===== verification/FixWeights.v ===== *)
(** * Built routes and the correction of their weights
    ([models.RouteWithBackends], [fixRouteWeights] of [routes/routes.go])

    The percentages of the mappings of one route are rounded down, so they may sum
    to less than 100.  [fixRouteWeights] groups the built routes by host and path
    and hands the missing points out, one per route from the front of the group.
    It ranges over a Go map of groups; the model takes the order as a parameter
    and the theorems show the result does not depend on it. *)
From S2P Require Import Prelude BackendSets.

(** ** Data *)
Record RouteWithBackends := mkRouteWithBackends {
  Hostname : string;
  Path : string;
  rBackends : BackendSet;
  CapiProcessGUID : string;
  RouteWeight : Z;  (* int32 *)
  Internal : bool;
  VIP : string;
}.

Global Instance RouteWithBackends_eq_dec : EqDecision RouteWithBackends.
Proof. solve_decision. Defined.

Record RouteInfo := mkRouteInfo { Sum : Z; (* int32 *) Indicies : gslice nat }.

Definition index_out_of_range : string := "index out of range".

(** ** Operations *)
Definition routeKey (route : RouteWithBackends) : string := Hostname route +:+ "/" +:+ Path route.

(** [route.RouteWeight += 1] *)
Definition incr_weight (r : RouteWithBackends) : RouteWithBackends :=
  mkRouteWithBackends (Hostname r) (Path r) (rBackends r) (CapiProcessGUID r)
    (i32 (RouteWeight r + 1)) (Internal r) (VIP r).

(** The first loop: one step adds a route to its group. *)
Definition add_info (sumPerRoute : gmap string RouteInfo) (ir : nat * RouteWithBackends)
    : gmap string RouteInfo :=
  let '(i, route) := ir in
  let key := routeKey route in
  let info := lookup0 (mkRouteInfo 0 Nil) sumPerRoute key in
  <[key := mkRouteInfo (i32 (Sum info + RouteWeight route)) (gappend (Indicies info) [i])]>
    sumPerRoute.

Definition sum_per_route (routes : list RouteWithBackends) : gmap string RouteInfo :=
  foldl add_info ∅ (imap pair routes).

(** The inner loop over the indices of one group, with its [break]. *)
Fixpoint spread (leftover : Z) (indicies : list nat) (routes : list RouteWithBackends)
    : outcome (list RouteWithBackends) :=
  match indicies with
  | [] => Ret routes
  | index :: indicies =>
      if decide (leftover = 0%Z) then Ret routes
      else match routes !! index with
           | None => Panic index_out_of_range
           | Some r =>
               spread (i32 (leftover - 1)) indicies (<[index := incr_weight r]> routes)
           end
  end.

Definition fix_group (routes : list RouteWithBackends) (e : string * RouteInfo)
    : outcome (list RouteWithBackends) :=
  let info := e.2 in spread (i32 (100 - Sum info)) (elems (Indicies info)) routes.

Definition fixRouteWeights `{MapOrder} (routes : gslice RouteWithBackends)
    : outcome (gslice RouteWithBackends) :=
  if (glen routes =? 0)%nat then Ret routes
  else l ← foldM fix_group (elems routes) (map_order (sum_per_route (elems routes)));
       Ret (Sl l).

(** ** Specification *)
(** The weights of the group of a key, in order. *)
Definition group (key : string) (routes : list RouteWithBackends) : list RouteWithBackends :=
  filter (λ r, routeKey r = key) routes.
Definition group_sum (key : string) (routes : list RouteWithBackends) : Z :=
  sumZ (RouteWeight <$> group key routes).

(** The points a group lacks, as the [int32] loop counts them: an excess counts
    as almost [2^32]. *)
Definition missing (key : string) (routes : list RouteWithBackends) : Z :=
  u32 (100 - group_sum key routes).

(** How many routes of its group precede index [i]. *)
Definition rank (i : nat) (routes : list RouteWithBackends) (key : string) : nat :=
  length (group key (take i routes)).

Definition fix_one (routes : list RouteWithBackends) (i : nat) (r : RouteWithBackends)
    : RouteWithBackends :=
  if decide (Z.of_nat (rank i routes (routeKey r)) < missing (routeKey r) routes)%Z
  then incr_weight r else r.

(** ** Lemmas: the inner loop *)
(** How often the loop increments index [i]. *)
Fixpoint hits (left_over : Z) (indicies : list nat) (i : nat) : nat :=
  match indicies with
  | [] => 0
  | index :: indicies =>
      if decide (left_over = 0%Z) then 0
      else (if decide (index = i) then 1 else 0) + hits (i32 (left_over - 1)) indicies i
  end.

Lemma spread_hits L idx routes :
  Forall (λ i, i < length routes) idx →
  ∃ routes', spread L idx routes = Ret routes' ∧ length routes' = length routes ∧
    ∀ i, routes' !! i = Nat.iter (hits L idx i) incr_weight <$> routes !! i.
Proof.
  intros Hr. revert L routes Hr; induction idx as [|j idx IH]; intros L routes Hr; simpl.
  { eexists. split_and!; [done..|]. intros i. by destruct (routes !! i). }
  apply Forall_cons in Hr as [Hj Hr]. case_decide.
  { eexists. split_and!; [done..|]. intros i. by destruct (routes !! i). }
  destruct (lookup_lt_is_Some_2 routes j Hj) as [r Hjr]. rewrite Hjr.
  destruct (IH (i32 (L - 1)) (<[j:=incr_weight r]> routes)) as (routes' & -> & Hl & Hi).
  { by rewrite length_insert. }
  eexists. split_and!; [done|by rewrite Hl, length_insert|]. intros i. rewrite Hi.
  destruct (decide (j = i)) as [->|Hne]; simpl.
  - rewrite list_lookup_insert_eq, Hjr by done. simpl. by rewrite <-Nat.iter_succ_r.
  - by rewrite list_lookup_insert_ne.
Qed.

Lemma hits_out L idx i : i ∉ idx → hits L idx i = 0.
Proof.
  revert L; induction idx as [|j idx IH]; intros L Hi; simpl; [done|].
  apply not_elem_of_cons in Hi as [? ?]. case_decide; [done|].
  rewrite decide_False by done. by apply IH.
Qed.

Lemma hits_in L l1 i l2 :
  NoDup (l1 ++ i :: l2) →
  hits (i32 L) (l1 ++ i :: l2) i = if decide (Z.of_nat (length l1) < u32 L)%Z then 1 else 0.
Proof.
  assert (∀ L, u32 L ≠ 0%Z → u32 (i32 L - 1) = (u32 L - 1)%Z) as Hpred.
  { intros L' HL. pose proof (u32_range L'). rewrite <-(i32_u32 L'), <-u32_sub_l, i32_u32.
    apply u32_small. lia. }
  revert L; induction l1 as [|j l1 IH]; intros L; simpl; intros Hnd.
  - apply NoDup_cons in Hnd as [Hi _]. pose proof (u32_range L).
    destruct (decide (i32 L = 0%Z)) as [E|E]; rewrite i32_zero in E.
    + rewrite decide_False; [done|lia].
    + rewrite decide_True by done. rewrite decide_True by lia. by rewrite hits_out.
  - apply NoDup_cons in Hnd as [Hj Hnd]. pose proof (u32_range L).
    destruct (decide (i32 L = 0%Z)) as [E|E]; rewrite i32_zero in E.
    + rewrite decide_False; [done|lia].
    + rewrite decide_False by set_solver. simpl. rewrite IH, Hpred by done.
      repeat case_decide; lia.
Qed.

(** ** Lemmas: the groups *)
Definition group_idx (key : string) (routes : list RouteWithBackends) : list nat :=
  (filter (λ ir, routeKey ir.2 = key) (imap pair routes)).*1.

Lemma group_snoc key routes r :
  group key (routes ++ [r]) = group key routes ++ (if decide (routeKey r = key) then [r] else []).
Proof. unfold group. rewrite filter_app, filter_cons. by case_decide. Qed.

Lemma imap_pair_snoc {A} (l : list A) x : imap pair (l ++ [x]) = imap pair l ++ [(length l, x)].
Proof. rewrite imap_app. simpl. by rewrite Nat.add_0_r. Qed.

Lemma group_idx_snoc key routes r :
  group_idx key (routes ++ [r]) =
  group_idx key routes ++ (if decide (routeKey r = key) then [length routes] else []).
Proof.
  unfold group_idx. rewrite imap_pair_snoc, filter_app, fmap_app, filter_cons.
  simpl. by case_decide.
Qed.

Lemma group_nil key routes : group key routes = [] ↔ group_idx key routes = [].
Proof.
  induction routes as [|r routes IH] using rev_ind; [done|].
  rewrite group_snoc, group_idx_snoc. case_decide; rewrite ?app_nil_r; [|done].
  split; intros E; by apply app_nil in E as [_ ?].
Qed.

Lemma elem_of_group_idx key routes i :
  i ∈ group_idx key routes ↔ ∃ r, routes !! i = Some r ∧ routeKey r = key.
Proof.
  unfold group_idx. rewrite list_elem_of_fmap. setoid_rewrite list_elem_of_filter. split.
  - intros ([j r] & -> & Hk & Hin). apply elem_of_lookup_imap in Hin as (j' & r' & E & Hl).
    simplify_eq/=. eauto.
  - intros (r & Hr & Hk). exists (i, r). split; [done|]. split; [done|].
    apply elem_of_lookup_imap. eauto.
Qed.

Lemma group_idx_take key routes i r :
  routes !! i = Some r → routeKey r = key →
  ∃ l2, group_idx key routes = group_idx key (take i routes) ++ i :: l2.
Proof.
  intros Hr Hk. unfold group_idx.
  assert (imap pair routes = imap pair (take i routes ++ r :: drop (S i) routes)) as ->
    by (f_equal; by rewrite take_drop_middle).
  rewrite imap_app, filter_app, fmap_app. simpl.
  rewrite filter_cons, decide_True by done. simpl. rewrite length_take_le, Nat.add_0_r; [eauto|].
  apply lookup_lt_Some in Hr. lia.
Qed.

Lemma length_group_idx key routes : length (group_idx key routes) = length (group key routes).
Proof.
  induction routes as [|r routes IH] using rev_ind; [done|].
  rewrite group_snoc, group_idx_snoc, !length_app, IH. by case_decide.
Qed.

Lemma NoDup_group_idx key routes : NoDup (group_idx key routes).
Proof.
  induction routes as [|r routes IH] using rev_ind; [apply NoDup_nil_2|].
  rewrite group_idx_snoc. case_decide; [|by rewrite app_nil_r].
  apply NoDup_app. split_and!; [done| |apply NoDup_singleton].
  intros i (r' & Hr & _)%elem_of_group_idx ->%list_elem_of_singleton.
  apply lookup_lt_Some in Hr. lia.
Qed.

Lemma sum_per_route_lookup routes key :
  sum_per_route routes !! key =
  match group key routes with
  | [] => None
  | _ => Some (mkRouteInfo (i32 (group_sum key routes)) (Sl (group_idx key routes)))
  end.
Proof.
  unfold sum_per_route. induction routes as [|r routes IH] using rev_ind; [done|].
  rewrite imap_pair_snoc, foldl_app. simpl. unfold group_sum.
  rewrite group_snoc, group_idx_snoc, lookup_insert. case_decide as E.
  - subst key. rewrite fmap_app, sumZ_app. unfold lookup0. rewrite IH.
    destruct (group (routeKey r) routes) as [|r0 g] eqn:Eg; simpl.
    + apply group_nil in Eg. rewrite Eg. simpl. do 2 f_equal.
      f_equal. unfold sumZ. simpl. lia.
    + do 2 f_equal. rewrite i32_add_l. f_equal. unfold group_sum. rewrite Eg.
      unfold sumZ. simpl. lia.
  - rewrite !app_nil_r. apply IH.
Qed.

(** ** Lemmas: the outer loop *)
Definition info_hits (e : string * RouteInfo) (i : nat) : nat :=
  hits (i32 (100 - Sum e.2)) (elems (Indicies e.2)) i.

Lemma fix_groups_hits es routes :
  Forall (λ e, Forall (λ i, i < length routes) (elems (Indicies e.2))) es →
  ∃ routes', foldM fix_group routes es = Ret routes' ∧ length routes' = length routes ∧
    ∀ i, routes' !! i =
      Nat.iter (sum_list_with (λ e, info_hits e i) es) incr_weight <$> routes !! i.
Proof.
  revert routes; induction es as [|e es IH]; intros routes Hes; simpl.
  { eexists. split_and!; [done..|]. intros i. by destruct (routes !! i). }
  apply Forall_cons in Hes as [He Hes]. change (fix_group routes e)
    with (spread (i32 (100 - Sum e.2)) (elems (Indicies e.2)) routes).
  destruct (spread_hits (i32 (100 - Sum e.2)) _ routes He) as (r1 & -> & Hl1 & H1). simpl.
  destruct (IH r1) as (r2 & -> & Hl2 & H2); [by rewrite Hl1|].
  eexists. split; [done|]. split; [by rewrite Hl2|]. intros i. rewrite H2, H1.
  destruct (routes !! i); simpl; [|done]. rewrite Nat.add_comm, Nat.iter_add. done.
Qed.

Lemma sum_list_with_perm {A} (f : A → nat) l1 l2 :
  l1 ≡ₚ l2 → sum_list_with f l1 = sum_list_with f l2.
Proof. induction 1; simpl; lia. Qed.

Lemma sum_list_with_zero {A} (f : A → nat) l :
  (∀ x, x ∈ l → f x = 0) → sum_list_with f l = 0.
Proof.
  induction l as [|x l IH]; intros Hf; simpl; [done|].
  rewrite (Hf x) by (by left). apply IH. intros. apply Hf. by right.
Qed.

(** Only the group of a route's own key touches it. *)
Lemma total_hits routes i r :
  routes !! i = Some r →
  sum_list_with (λ e, info_hits e i) (map_to_list (sum_per_route routes)) =
  if decide (Z.of_nat (rank i routes (routeKey r)) < missing (routeKey r) routes)%Z then 1 else 0.
Proof.
  intros Hr. set (key := routeKey r).
  assert (i ∈ group_idx key routes) as Hi by (apply elem_of_group_idx; eauto).
  assert (sum_per_route routes !! key =
    Some (mkRouteInfo (i32 (group_sum key routes)) (Sl (group_idx key routes)))) as Hk.
  { rewrite sum_per_route_lookup. destruct (group key routes) eqn:E; [|done].
    apply group_nil in E. rewrite E in Hi. by apply not_elem_of_nil in Hi. }
  rewrite <-(insert_id _ _ _ Hk), <-insert_delete_eq.
  erewrite sum_list_with_perm by (apply map_to_list_insert, lookup_delete_eq). simpl.
  rewrite (sum_list_with_zero _ (map_to_list _)), Nat.add_0_r.
  - unfold info_hits. simpl. destruct (group_idx_take key routes i r Hr eq_refl) as [l2 E].
    pose proof (NoDup_group_idx key routes) as Hnd. rewrite E in Hnd |- *.
    rewrite hits_in by done. unfold missing, rank. rewrite length_group_idx.
    by rewrite i32_u32_sub.
  - intros [k info] Hin. apply elem_of_map_to_list, lookup_delete_Some in Hin as [Hne Hin].
    unfold info_hits. simpl. apply hits_out. rewrite sum_per_route_lookup in Hin.
    destruct (group k routes); simplify_eq. simpl.
    rewrite elem_of_group_idx. intros (r' & Hr' & ?). simplify_eq.
Qed.

Lemma rank_lt routes i key : rank i routes key ≤ i.
Proof.
  unfold rank, group. etransitivity; [apply length_filter|]. rewrite length_take. lia.
Qed.

(** The loops compute [fix_one] at every index, whatever the map order. *)
Lemma fixRouteWeights_spec `{MapOrder} routes :
  fixRouteWeights routes = Ret (gmap_elems (λ l, imap (fix_one l) l) routes).
Proof.
  unfold fixRouteWeights. destruct (glen routes =? 0)%nat eqn:E.
  { apply Nat.eqb_eq in E. destruct routes as [|[|]]; done. }
  destruct routes as [|l]; [done|]. simpl. clear E.
  destruct (fix_groups_hits (map_order (sum_per_route l)) l) as (l' & -> & Hlen & Hl').
  { rewrite map_order_perm. apply Forall_forall. intros [k info] Hin%elem_of_map_to_list.
    rewrite sum_per_route_lookup in Hin. destruct (group k l); simplify_eq. simpl.
    apply Forall_forall. intros i (r1 & Hr & _)%elem_of_group_idx.
    by eapply lookup_lt_Some. }
  simpl. do 2 f_equal. apply list_eq. intros i. rewrite Hl', list_lookup_imap.
  destruct (l !! i) as [r|] eqn:Hr; simpl; [|done]. f_equal.
  rewrite (sum_list_with_perm _ _ _ (map_order_perm _)), (total_hits l i r Hr).
  unfold fix_one. by case_decide.
Qed.

(** ** Lemmas: the sum of a corrected group *)
Definition fix_upto (m : string → Z) (l : list RouteWithBackends) : list RouteWithBackends :=
  imap (λ i r, if decide (Z.of_nat (rank i l (routeKey r)) < m (routeKey r))%Z
               then incr_weight r else r) l.

Lemma fix_upto_snoc m l r :
  fix_upto m (l ++ [r]) = fix_upto m l ++
    [if decide (Z.of_nat (length (group (routeKey r) l)) < m (routeKey r))%Z
     then incr_weight r else r].
Proof.
  unfold fix_upto. rewrite imap_app. simpl. f_equal.
  - apply list_eq. intros i. rewrite !list_lookup_imap.
    destruct (l !! i) eqn:E; [|done]. simpl. unfold rank.
    rewrite take_app_le; [done|]. apply lookup_lt_Some in E. lia.
  - unfold rank. by rewrite Nat.add_0_r, take_app_length.
Qed.

Lemma routeKey_incr r : routeKey (incr_weight r) = routeKey r.
Proof. done. Qed.

Lemma group_sum_snoc key l r :
  group_sum key (l ++ [r]) =
  (group_sum key l + if decide (routeKey r = key) then RouteWeight r else 0)%Z.
Proof.
  unfold group_sum. rewrite group_snoc, fmap_app, sumZ_app. f_equal.
  case_decide; unfold sumZ; simpl; lia.
Qed.

Definition incr_safe (r : RouteWithBackends) : Prop :=
  (- 2 ^ 31 ≤ RouteWeight r < 2 ^ 31 - 1)%Z.

Lemma group_sum_fix_upto m key l :
  (∀ r, r ∈ group key l → incr_safe r) → (0 ≤ m key)%Z →
  group_sum key (fix_upto m l) =
  (group_sum key l + Z.min (Z.of_nat (length (group key l))) (m key))%Z.
Proof.
  intros Hw Hm. induction l as [|r l IH] using rev_ind; [unfold group_sum, sumZ; simpl; lia|].
  rewrite fix_upto_snoc, !group_sum_snoc, IH, group_snoc, length_app;
    [|intros; apply Hw; rewrite group_snoc; set_solver]. clear IH.
  assert (∀ (b : Prop) (d : Decision b),
    routeKey (if decide b then incr_weight r else r) = routeKey r) as Hkey
    by (intros; by case_decide).
  rewrite Hkey. destruct (decide (routeKey r = key)) as [E|E]; [|rewrite Nat.add_0_r; lia].
  subst key. simpl length.
  assert (incr_safe r) as Hr.
  { apply Hw. rewrite group_snoc, decide_True by done. set_solver. }
  unfold incr_safe in Hr. case_decide; simpl; rewrite ?i32_small by lia; lia.
Qed.

Lemma fix_one_upto l : imap (fix_one l) l = fix_upto (λ key, missing key l) l.
Proof. done. Qed.

Lemma group_sum_bounds key l :
  (∀ r, r ∈ group key l → 0 ≤ RouteWeight r ≤ 100)%Z →
  (0 ≤ group_sum key l ≤ 100 * Z.of_nat (length (group key l)))%Z.
Proof.
  unfold group_sum. induction (group key l) as [|r g IH]; intros Hw.
  - rewrite fmap_nil, sumZ_nil. simpl. lia.
  - rewrite sumZ_fmap_cons. simpl length.
    pose proof (Hw r ltac:(by left)). pose proof (IH ltac:(intros; apply Hw; by right)). lia.
Qed.

Lemma group_sum_fixed `{MapOrder} key l l' :
  (∀ r, r ∈ group key l → 0 ≤ RouteWeight r ≤ 100)%Z →
  fixRouteWeights (Sl l) = Ret (Sl l') →
  group_sum key l' =
    (group_sum key l + Z.min (Z.of_nat (length (group key l))) (missing key l))%Z.
Proof.
  intros Hw. rewrite fixRouteWeights_spec. simpl. rewrite fix_one_upto. intros [= <-].
  apply (group_sum_fix_upto (λ key, missing key l)).
  - intros r Hr. pose proof (Hw r Hr). unfold incr_safe. lia.
  - apply u32_range.
Qed.

(** ** Properties *)

(** C34. Whatever order Go ranges over the groups in, [fixRouteWeights] never
    panics and adds one to exactly the routes whose rank in their group is below
    the points the group lacks, counted modulo [2^32]; everything else about the
    routes, their order included, stays. *)
Theorem fixRouteWeights_correct `{MapOrder} (routes : gslice RouteWithBackends) :
  fixRouteWeights routes = Ret (gmap_elems (λ l, imap (fix_one l) l) routes).
Proof. apply fixRouteWeights_spec. Qed.

(** What the correction does to the weights of one host and path, for
    percentages in [0..100]: a sum that is short by at most one point per route
    becomes exactly 100; one that is shorter gains one point per route and stays
    below 100; and one that is above 100 is not reduced but gains one point per
    route. *)
Theorem fixed_group_sum `{MapOrder} (l l' : list RouteWithBackends) (key : string)
    (Hw : ∀ r, r ∈ group key l → (0 ≤ RouteWeight r ≤ 100)%Z)
    (Hlen : (Z.of_nat (length (group key l)) < 2 ^ 24)%Z)
    (Hfix : fixRouteWeights (Sl l) = Ret (Sl l')) :
  let s := group_sum key l in
  let n := Z.of_nat (length (group key l)) in
  (100 - n ≤ s ≤ 100 → group_sum key l' = 100)%Z ∧
  (s < 100 - n → group_sum key l' = s + n)%Z ∧
  (100 < s → group_sum key l' = s + n)%Z.
Proof.
  cbv zeta. rewrite (group_sum_fixed key l l' Hw Hfix).
  pose proof (group_sum_bounds key l Hw) as Hb. unfold missing. split_and!; intros Hs.
  - rewrite u32_small; lia.
  - rewrite u32_small; lia.
  - assert (u32 (100 - group_sum key l) = 2 ^ 32 + 100 - group_sum key l)%Z as ->; [|lia].
    unfold u32. symmetry. apply Z.mod_unique with (-1)%Z; lia.
Qed.

Definition w_route (process : string) (weight : Z) : RouteWithBackends :=
  mkRouteWithBackends "h" "" (mkBackendSet Nil) process weight false "".

Lemma fixed_group_sum_witness :
  ∃ l', @fixRouteWeights asc_order (Sl [w_route "a" 33; w_route "b" 33; w_route "c" 33])
          = Ret (Sl l') ∧ group_sum "h/" l' = 100%Z.
Proof.
  eexists. split; [vm_compute; reflexivity|].
  refine (proj1 (@fixed_group_sum asc_order [w_route "a" 33; w_route "b" 33; w_route "c" 33]
                   _ "h/" _ _ _) _).
  - intros r Hr. apply list_elem_of_filter in Hr as [_ Hr]. revert Hr.
    rewrite !elem_of_cons, elem_of_nil. intros [->|[->|[->|[]]]]; simpl; lia.
  - vm_compute. reflexivity.
  - vm_compute. reflexivity.
  - vm_compute. split; discriminate.
Defined.
