(* ===== verification/Collector.v ===== *)
(** * The route collector ([routes/routes.go])

    [Collect] joins the four repositories into the routes the snapshot is built
    from.  It takes no lock of its own: between two of its calls the repositories
    may change.  The model therefore runs it against a schedule, the state of the
    world at each of its calls, and the interfaces of the source are type classes
    on that world.  A constant schedule is a quiet world. *)
From S2P Require Import Prelude GoStrings GoSort GoFloat.
From S2P Require Import Routes RouteMappings Associations BackendSets FixWeights.

(** ** The interfaces *)
Class routesRepo (W : Type) := routesRepo_Get : W → string → option Route.
Class routeMappings (W : Type) := {
  routeMappings_GetCalculatedWeight : W → RouteMapping → Z;
  routeMappings_List : W → gmap string RouteMapping;
}.
Class capiDiego (W : Type) := capiDiego_Get : W → string → option CAPIDiegoProcessAssociation.
Class backendSet (W : Type) := {
  backendSet_Get : W → string → option BackendSet;
  backendSet_GetInternalBackends : W → string → option BackendSet;
}.

(** ** Calls against a schedule *)
Definition clocked (A : Type) : Type := nat → A * nat.
Definition cret {A} (a : A) : clocked A := λ t, (a, t).
Definition cbind {A B} (m : clocked A) (f : A → clocked B) : clocked B :=
  λ t, let '(a, t) := m t in f a t.
Notation "x <~ m ;; k" := (cbind m (λ x, k))
  (at level 100, m at next level, k at level 200, right associativity).

Section collect.
Context `{O : MapOrder} `{UnicodeLower} {W : Type}.
Context `{!routesRepo W} `{!routeMappings W} `{!capiDiego W} `{!backendSet W}.
Context (env : nat → W).

(** One call, at the current time. *)
Definition call {A} (f : W → A) : clocked A := λ t, (f (env t), S t).

Definition address_less (a b : Backend) : bool := str_lt (Address a) (Address b).
Definition path_less (a b : RouteWithBackends) : bool :=
  (String.length (FixWeights.Path a) <? String.length (FixWeights.Path b))%nat.
Definition process_less (a b : RouteWithBackends) : bool :=
  str_lt (CapiProcessGUID a) (CapiProcessGUID b).

(** The inner loop over the Diego processes. *)
Fixpoint gather (internal : bool) (guids : list string) (backends : gslice Backend)
    : clocked (gslice Backend) :=
  match guids with
  | [] => cret backends
  | guid :: guids =>
      bs <~ call (λ w, if internal then backendSet_GetInternalBackends w guid
                       else backendSet_Get w guid);;
      match bs with
      | None => gather internal guids backends
      | Some bs => gather internal guids (gappend backends (elems (Backends bs)))
      end
  end.

(** One round of the outer loop: the built route, or [continue]. *)
Definition build_route (routeMapping : RouteMapping) : clocked (option RouteWithBackends) :=
  route <~ call (λ w, routesRepo_Get w (RouteMappings.RouteGUID routeMapping));;
  match route with
  | None => cret None
  | Some route =>
      assoc <~ call (λ w, capiDiego_Get w (RouteMappings.CAPIProcessGUID routeMapping));;
      match assoc with
      | None => cret None
      | Some assoc =>
          backends <~ gather (Routes.Internal route) (elems (GUIDs assoc)) Nil;;
          if (glen backends =? 0)%nat then cret None
          else
            let backends := gmap_elems (SliceStable address_less) backends in
            weight <~ call (λ w, routeMappings_GetCalculatedWeight w routeMapping);;
            cret (Some (mkRouteWithBackends (Routes.Hostname route) (Routes.Path route)
                          (mkBackendSet backends)
                          (RouteMappings.CAPIProcessGUID routeMapping)
                          weight (Routes.Internal route) (Routes.VIP route)))
      end
  end.

(** The outer loop, with the two slices it fills. *)
Fixpoint build_routes (mappings : list RouteMapping)
    (routes routesWithoutPath : gslice RouteWithBackends)
    : clocked (gslice RouteWithBackends * gslice RouteWithBackends) :=
  match mappings with
  | [] => cret (routes, routesWithoutPath)
  | rm :: mappings =>
      builtRoute <~ build_route rm;;
      match builtRoute with
      | None => build_routes mappings routes routesWithoutPath
      | Some builtRoute =>
          if decide (FixWeights.Path builtRoute ≠ "")
          then build_routes mappings (gappend routes [builtRoute]) routesWithoutPath
          else build_routes mappings routes (gappend routesWithoutPath [builtRoute])
      end
  end.

(** [Collect] up to the weight correction. *)
Definition collect_unfixed : clocked (gslice RouteWithBackends) :=
  mappings <~ call routeMappings_List;;
  rs <~ build_routes (map_order mappings).*2 Nil Nil;;
  let '(routes, routesWithoutPath) := rs in
  let routes := gmap_elems (SliceStable path_less) routes in
  let routesWithoutPath := gmap_elems (SliceStable process_less) routesWithoutPath in
  cret (gappend routes (elems routesWithoutPath)).

(** A panic of the correction would be a panic of [Collect]. *)
Definition Collect : outcome (gslice RouteWithBackends) :=
  fixRouteWeights (collect_unfixed 0).1.
End collect.

(** ** The repositories as a world *)
Record world := mkWorld {
  routes_repo : RoutesRepo;
  mappings_repo : RouteMappingsRepo;
  assoc_repo : CAPIDiegoProcessAssociationsRepo;
  backends_repo : BackendSetRepo;
}.

Section implementation.
Context `{MapOrder} `{FloatToInt}.

#[export] Instance world_routes : routesRepo world := λ w, Routes.Get (routes_repo w).
#[export] Instance world_mappings : routeMappings world := {|
  routeMappings_GetCalculatedWeight w := GetCalculatedWeight (mappings_repo w);
  routeMappings_List w := RouteMappings.List (mappings_repo w);
|}.
#[export] Instance world_assoc : capiDiego world := λ w, Associations.Get (assoc_repo w).
#[export] Instance world_backends : backendSet world := {|
  backendSet_Get w := BackendSets.Get (backends_repo w);
  backendSet_GetInternalBackends w := GetInternalBackends (backends_repo w);
|}.
End implementation.

(** ** Specification *)
Section spec.
Context `{UnicodeLower} {W : Type}.
Context `{!routesRepo W} `{!routeMappings W} `{!capiDiego W} `{!backendSet W}.
Context (w : W).

(** The backends of a process: of all its Diego processes, on the route's side. *)
Definition process_backends (internal : bool) (assoc : CAPIDiegoProcessAssociation)
    : list Backend :=
  elems (GUIDs assoc) ≫= λ guid,
    match (if internal then backendSet_GetInternalBackends w guid else backendSet_Get w guid)
    with Some bs => elems (Backends bs) | None => [] end.

(** The route a mapping contributes in a quiet world, before the correction. *)
Definition joined (rm : RouteMapping) : option RouteWithBackends :=
  route ← routesRepo_Get w (RouteMappings.RouteGUID rm);
  assoc ← capiDiego_Get w (RouteMappings.CAPIProcessGUID rm);
  match process_backends (Routes.Internal route) assoc with
  | [] => None
  | backends =>
      Some (mkRouteWithBackends (Routes.Hostname route) (Routes.Path route)
              (mkBackendSet (Sl (SliceStable address_less backends)))
              (RouteMappings.CAPIProcessGUID rm) (routeMappings_GetCalculatedWeight w rm)
              (Routes.Internal route) (Routes.VIP route))
  end.
End spec.

(** The promise to the snapshot builder: backends are there and sorted by
    address, routes with a path come first by length of path, the others follow
    by process GUID. *)
Definition wf_built (r : RouteWithBackends) : Prop :=
  elems (Backends (rBackends r)) ≠ [] ∧
  StronglySorted (nless address_less) (elems (Backends (rBackends r))).
Definition wf_collected (l : list RouteWithBackends) : Prop :=
  Forall wf_built l ∧
  ∃ l1 l2, l = l1 ++ l2 ∧
    Forall (λ r, FixWeights.Path r ≠ "") l1 ∧ StronglySorted (nless path_less) l1 ∧
    Forall (λ r, FixWeights.Path r = "") l2 ∧ StronglySorted (nless process_less) l2.

(** ** Lemmas: the orders *)
Lemma str_key_order {A} (f : A → string) : WeakOrder (λ a b, str_lt (f a) (f b)).
Proof.
  split.
  - intros x y. apply str_lt_asym.
  - intros x y z ?%str_lt_le ?%str_lt_le. apply str_lt_le. by etransitivity.
Qed.
#[export] Instance address_order : WeakOrder address_less := str_key_order Address.
#[export] Instance process_order : WeakOrder process_less := str_key_order CapiProcessGUID.
#[export] Instance path_order : WeakOrder path_less.
Proof.
  split; unfold path_less.
  - intros x y ?%Nat.ltb_lt. apply Nat.ltb_ge. lia.
  - intros x y z ?%Nat.ltb_ge ?%Nat.ltb_ge. apply Nat.ltb_ge. lia.
Qed.

(** ** Lemmas: any schedule *)
Section any_schedule.
Context `{O : MapOrder} `{UnicodeLower} {W : Type}.
Context `{!routesRepo W} `{!routeMappings W} `{!capiDiego W} `{!backendSet W}.
Context (env : nat → W).

Lemma build_route_wf rm t r : (build_route env rm t).1 = Some r → wf_built r.
Proof.
  unfold build_route, cbind, call, cret. simpl.
  repeat case_match; simplify_eq/=; try done. intros ?; simplify_eq/=.
  unfold wf_built; simpl. match goal with b : gslice Backend |- _ => destruct b as [|l] end; [done|].
  simpl. split; [|apply SliceStable_sorted, _].
  intros E. assert (l ≡ₚ []) as ->%Permutation_nil_r; [|done].
  by rewrite <-(SliceStable_perm address_less l), E.
Qed.

Lemma build_routes_wf mappings routes pathless t :
  Forall wf_built (elems routes) → Forall (λ r, FixWeights.Path r ≠ "") (elems routes) →
  Forall wf_built (elems pathless) → Forall (λ r, FixWeights.Path r = "") (elems pathless) →
  let rs := (build_routes env mappings routes pathless t).1 in
  Forall wf_built (elems rs.1) ∧ Forall (λ r, FixWeights.Path r ≠ "") (elems rs.1) ∧
  Forall wf_built (elems rs.2) ∧ Forall (λ r, FixWeights.Path r = "") (elems rs.2).
Proof.
  revert routes pathless t; induction mappings as [|rm mappings IH];
    intros routes pathless t H1 H2 H3 H4; [done|].
  simpl. unfold cbind. destruct (build_route env rm t) as [[r|] t'] eqn:E; [|by apply IH].
  assert (wf_built r) as Hr by (apply (build_route_wf rm t); by rewrite E).
  case_decide; apply IH; rewrite ?elems_gappend, ?Forall_app, ?Forall_singleton; auto.
Qed.

Lemma elems_sorted {A} (less : A → A → bool) (s : gslice A) :
  elems (gmap_elems (SliceStable less) s) = SliceStable less (elems s).
Proof. by destruct s. Qed.

Lemma collect_unfixed_wf t : wf_collected (elems (collect_unfixed env t).1).
Proof.
  unfold collect_unfixed, cbind, cret, call.
  pose proof (build_routes_wf (map_order (routeMappings_List (env t))).*2 Nil Nil (S t)) as Hwf.
  cbv zeta in Hwf. destruct (build_routes _ _ _ _ _) as [[rs ps] t'].
  destruct Hwf as (H1 & H2 & H3 & H4); [by constructor..|]. simpl in *.
  rewrite elems_gappend, !elems_sorted. split.
  - rewrite Forall_app, !SliceStable_perm. done.
  - eexists _, _. split; [done|].
    split_and!; try (apply SliceStable_sorted, _); by rewrite SliceStable_perm.
Qed.
End any_schedule.

(** The weight correction touches nothing the promise is about. *)
Definition same_route (r r' : RouteWithBackends) : Prop :=
  r' = r ∨ r' = incr_weight r.

Lemma fix_one_same l : Forall2 same_route l (imap (fix_one l) l).
Proof.
  apply Forall2_lookup. intros i. rewrite list_lookup_imap.
  destruct (l !! i) as [r|]; simpl; constructor.
  unfold fix_one, same_route. case_decide; auto.
Qed.

Lemma sorted_same (less : RouteWithBackends → RouteWithBackends → bool) l l' :
  (∀ a a' b b', same_route a a' → same_route b b' → less a' b' = less a b) →
  Forall2 same_route l l' → StronglySorted (nless less) l → StronglySorted (nless less) l'.
Proof.
  intros Hless HF. induction HF as [|a a' l l' Ha HF IH]; intros Hs; [done|].
  apply StronglySorted_inv in Hs as [Hs Hl]. constructor; [by apply IH|].
  apply Forall_forall. intros b' Hb'. 
  apply list_elem_of_lookup in Hb' as [i Hi].
  destruct (Forall2_lookup_r _ _ _ _ _ HF Hi) as (b & Hb & Hbb).
  unfold nless. rewrite (Hless b b' a a') by done.
  rewrite Forall_lookup in Hl. by apply (Hl i).
Qed.

Lemma Forall_same (P : RouteWithBackends → Prop) l l' :
  (∀ r, P r → P (incr_weight r)) → Forall2 same_route l l' → Forall P l → Forall P l'.
Proof.
  intros HP HF. induction HF as [|a a' l l' Ha HF IH]; [done|].
  intros [??]%Forall_cons. constructor; [|auto]. destruct Ha as [->| ->]; auto.
Qed.

Lemma wf_collected_fixed l : wf_collected l → wf_collected (imap (fix_one l) l).
Proof.
  intros [Hwf (l1 & l2 & E & H1 & H2 & H3 & H4)]. pose proof (fix_one_same l) as HF.
  split; [by apply (Forall_same _ l)|].
  rewrite E in HF at 1. apply Forall2_app_inv_l in HF as (l1' & l2' & HF1 & HF2 & ->).
  exists l1', l2'. split; [done|]. split_and!.
  - by apply (Forall_same _ l1).
  - eapply sorted_same; [|exact HF1|done]. by intros ???? [->| ->] [->| ->].
  - by apply (Forall_same _ l2).
  - eapply sorted_same; [|exact HF2|done]. by intros ???? [->| ->] [->| ->].
Qed.

(** ** Lemmas: a quiet world *)
Section quiet.
Context `{O : MapOrder} `{UnicodeLower} {W : Type}.
Context `{!routesRepo W} `{!routeMappings W} `{!capiDiego W} `{!backendSet W}.
Context (w : W).
Local Notation env := (λ _ : nat, w).

Lemma gather_quiet internal guids acc t :
  (gather env internal guids acc t).1 =
  gappend acc (guids ≫= λ guid,
    match (if internal then backendSet_GetInternalBackends w guid else backendSet_Get w guid)
    with Some bs => elems (Backends bs) | None => [] end).
Proof.
  revert acc t; induction guids as [|guid guids IH]; intros acc t; simpl.
  { by rewrite gappend_nil. }
  unfold cbind, call. destruct (if internal then _ else _); rewrite IH; [|done].
  by rewrite gappend_app.
Qed.

Lemma build_route_quiet rm t : (build_route env rm t).1 = joined w rm.
Proof.
  unfold build_route, joined, cbind, call, cret. simpl.
  destruct (routesRepo_Get w _) as [route|]; [|done]. simpl.
  destruct (capiDiego_Get w _) as [a|]; [|done]. simpl.
  pose proof (gather_quiet (Routes.Internal route) (elems (GUIDs a)) Nil (S (S t))) as Hg.
  destruct (gather _ _ _ _ _) as [bs t']. simpl in Hg. subst bs.
  unfold process_backends. by destruct (_ ≫= _).
Qed.

Lemma build_routes_quiet mappings routes pathless t :
  let rs := (build_routes env mappings routes pathless t).1 in
  elems rs.1 = elems routes ++ filter (λ r, FixWeights.Path r ≠ "") (omap (joined w) mappings) ∧
  elems rs.2 = elems pathless ++ filter (λ r, ¬ FixWeights.Path r ≠ "") (omap (joined w) mappings).
Proof.
  revert routes pathless t; induction mappings as [|rm mappings IH]; intros routes pathless t.
  { simpl. by rewrite !app_nil_r. }
  simpl. unfold cbind. pose proof (build_route_quiet rm t) as Hr.
  destruct (build_route env rm t) as [o t']. simpl in Hr. subst o.
  destruct (joined w rm) as [r|]; [|apply IH]. rewrite !filter_cons.
  destruct (decide (FixWeights.Path r ≠ "")) as [Hp|Hp].
  - rewrite (decide_False (P := ¬ _)) by tauto.
    destruct (IH (gappend routes [r]) pathless t') as [-> ->].
    by rewrite elems_gappend, <-app_assoc.
  - rewrite (decide_True (P := ¬ _)) by tauto.
    destruct (IH routes (gappend pathless [r]) t') as [-> ->].
    by rewrite elems_gappend, <-app_assoc.
Qed.

Lemma collect_unfixed_quiet t :
  let rs := omap (joined w) (map_order (routeMappings_List w)).*2 in
  elems (collect_unfixed env t).1 =
    SliceStable path_less (filter (λ r, FixWeights.Path r ≠ "") rs) ++
    SliceStable process_less (filter (λ r, ¬ FixWeights.Path r ≠ "") rs).
Proof.
  unfold collect_unfixed, cbind, cret, call. cbv zeta.
  pose proof (build_routes_quiet (map_order (routeMappings_List w)).*2 Nil Nil (S t)) as Hb.
  cbv zeta in Hb. destruct (build_routes _ _ _ _ _) as [[rs ps] t']. simpl in *.
  destruct Hb as [E1 E2]. by rewrite elems_gappend, !elems_sorted, E1, E2.
Qed.

Lemma collect_unfixed_perm t :
  elems (collect_unfixed env t).1 ≡ₚ omap (joined w) (map_to_list (routeMappings_List w)).*2.
Proof.
  rewrite collect_unfixed_quiet, !SliceStable_perm.
  rewrite filter_app_complement. by rewrite map_order_perm.
Qed.
End quiet.

(** ** Lemmas: the whole of [Collect] *)
Section whole.
Context `{O : MapOrder} `{UnicodeLower} {W : Type}.
Context `{!routesRepo W} `{!routeMappings W} `{!capiDiego W} `{!backendSet W}.

Lemma Collect_wf (env : nat → W) : ∃ l, Collect env = Ret l ∧ wf_collected (elems l).
Proof.
  unfold Collect. rewrite fixRouteWeights_spec. eexists. split; [done|].
  pose proof (collect_unfixed_wf env 0) as Hwf.
  destruct (collect_unfixed env 0).1 as [|l]; [exact Hwf|]. by apply wf_collected_fixed.
Qed.

Lemma Collect_join (w : W) :
  ∃ l rs, Collect (λ _, w) = Ret l ∧
    rs ≡ₚ omap (joined w) (map_to_list (routeMappings_List w)).*2 ∧
    elems l = imap (fix_one rs) rs.
Proof.
  unfold Collect. rewrite fixRouteWeights_spec.
  pose proof (collect_unfixed_perm w 0) as Hp.
  exists (gmap_elems (λ l, imap (fix_one l) l) (collect_unfixed (λ _, w) 0).1),
    (elems (collect_unfixed (λ _, w) 0).1).
  split; [done|]. split; [exact Hp|]. by destruct (collect_unfixed _ _).1.
Qed.
End whole.

(** ** Lemmas: the weights of one route *)
Section one_route.
Context `{O : MapOrder} `{UnicodeLower} `{FloatToInt} (w : world) (g : string) (route : Route).
Let key : string := Routes.Hostname route +:+ "/" +:+ Routes.Path route.
Let ms := mappings_repo w.
Context (Hroute : Routes.Get (routes_repo w) g = Some route).
Context (Hserved : ∀ k rm, RouteMappings.repo ms !! k = Some rm →
  RouteMappings.RouteGUID rm = g → is_Some (joined w rm)).
Context (Halone : ∀ k rm r, RouteMappings.repo ms !! k = Some rm →
  joined w rm = Some r → routeKey r = key → RouteMappings.RouteGUID rm = g).

Lemma joined_weight rm r :
  joined w rm = Some r → FixWeights.RouteWeight r = GetCalculatedWeight ms rm.
Proof.
  unfold joined. intros (rt & Hrt & Hj)%bind_Some.
  apply bind_Some in Hj as (a & Ha & Hj). destruct (process_backends _ _ _); by simplify_eq/=.
Qed.
Lemma joined_key rm r :
  joined w rm = Some r → RouteMappings.RouteGUID rm = g → routeKey r = key.
Proof.
  unfold joined. intros (rt & Hrt & Hj)%bind_Some Hg.
  apply bind_Some in Hj as (a & Ha & Hj). unfold routesRepo_Get, world_routes in Hrt.
  rewrite Hg, Hroute in Hrt. destruct (process_backends _ _ _); by simplify_eq/=.
Qed.

(** The group of the route's host and path is made of its own mappings. *)
Lemma route_group l :
  (∀ rm, rm ∈ l → ∃ k, RouteMappings.repo ms !! k = Some rm) →
  FixWeights.RouteWeight <$> group key (omap (joined w) l) =
  GetCalculatedWeight ms <$> filter (λ rm, RouteMappings.RouteGUID rm = g) l.
Proof.
  induction l as [|rm l IH]; intros Hin; [done|].
  destruct (Hin rm) as [k Hk]; [by left|].
  rewrite filter_cons. change (omap (joined w) (rm :: l)) with
    (match joined w rm with Some r => r :: omap (joined w) l | None => omap (joined w) l end).
  assert (∀ rm', rm' ∈ l → ∃ k, RouteMappings.repo ms !! k = Some rm') as Hin'
    by (intros; apply Hin; by right).
  destruct (joined w rm) as [r|] eqn:Hj.
  - unfold group. rewrite filter_cons. fold (group key (omap (joined w) l)).
    destruct (decide (RouteMappings.RouteGUID rm = g)) as [Hg|Hg].
    + rewrite decide_True by (by apply (joined_key rm)).
      rewrite !fmap_cons, (joined_weight rm r Hj), IH by done. done.
    + rewrite decide_False by (intros Hkey; apply Hg; by apply (Halone k rm r)). by apply IH.
  - rewrite decide_False; [by apply IH|]. intros Hg.
    destruct (Hserved k rm Hk Hg) as [? ?]. congruence.
Qed.

Lemma route_group_collected (t : nat) :
  FixWeights.RouteWeight <$> group key (elems (collect_unfixed (λ _, w) t).1) ≡ₚ
  GetCalculatedWeight ms <$> route_mappings g ms.
Proof.
  transitivity (FixWeights.RouteWeight <$>
    group key (omap (joined w) (map_to_list (routeMappings_List w)).*2)).
  { unfold group. by rewrite (collect_unfixed_perm w t). }
  change (routeMappings_List w) with (RouteMappings.List ms). rewrite List_repo.
  rewrite (route_group (map_to_list (RouteMappings.repo ms)).*2); [done|].
  intros rm ([k rm'] & -> & Hk%elem_of_map_to_list)%list_elem_of_fmap. eauto.
Qed.
End one_route.

(** ** Properties *)

(** Under every schedule of changes to the repositories between its calls,
    and in every map order, [Collect] does not panic and keeps its promise to the
    snapshot builder: every built route has backends, sorted by address; routes
    with a path come first, in order of path length, and the others follow in
    order of process GUID. *)
Theorem Collect_keeps_promise `{MapOrder} `{UnicodeLower} {W : Type}
    `{!routesRepo W} `{!routeMappings W} `{!capiDiego W} `{!backendSet W} (env : nat → W) :
  ∃ l, Collect env = Ret l ∧ wf_collected (elems l).
Proof.
  apply Collect_wf.
Qed.

(** C17. In a quiet world [Collect] is a join of the repositories: up to order the
    built routes are those of the mappings whose route is known, whose process is
    associated and has backends, each with the backends of all its Diego
    processes on the route's side, and then corrected by [fix_one]. *)
Theorem Collect_refines_join `{MapOrder} `{UnicodeLower} {W : Type}
    `{!routesRepo W} `{!routeMappings W} `{!capiDiego W} `{!backendSet W} (w : W) :
  ∃ l rs, Collect (λ _, w) = Ret l ∧
    rs ≡ₚ omap (joined w) (map_to_list (routeMappings_List w)).*2 ∧
    elems l = imap (fix_one rs) rs.
Proof.
  apply Collect_join.
Qed.

(** When no two built routes with a path have paths of one length, and no two
    without belong to one process, the order in which Go ranges over the mappings
    does not show in the result. *)
Theorem Collect_deterministic (O1 O2 : MapOrder) `{UnicodeLower} {W : Type}
    `{!routesRepo W} `{!routeMappings W} `{!capiDiego W} `{!backendSet W} (w : W)
    (Hpath : ∀ x y, x ∈ omap (joined w) (map_to_list (routeMappings_List w)).*2 →
       y ∈ omap (joined w) (map_to_list (routeMappings_List w)).*2 →
       FixWeights.Path x ≠ "" → FixWeights.Path y ≠ "" →
       String.length (FixWeights.Path x) = String.length (FixWeights.Path y) → x = y)
    (Hproc : ∀ x y, x ∈ omap (joined w) (map_to_list (routeMappings_List w)).*2 →
       y ∈ omap (joined w) (map_to_list (routeMappings_List w)).*2 →
       FixWeights.Path x = "" → FixWeights.Path y = "" →
       CapiProcessGUID x = CapiProcessGUID y → x = y) :
  ∃ l1 l2, @Collect O1 _ W _ _ _ _ (λ _, w) = Ret l1 ∧ @Collect O2 _ W _ _ _ _ (λ _, w) = Ret l2 ∧
    elems l1 = elems l2.
Proof.
  unfold Collect. rewrite !fixRouteWeights_spec. do 2 eexists. do 2 (split; [reflexivity|]).
  assert (elems (@collect_unfixed O1 _ W _ _ _ _ (λ _, w) 0).1 =
          elems (@collect_unfixed O2 _ W _ _ _ _ (λ _, w) 0).1) as E.
  { rewrite !collect_unfixed_quiet.
    assert ((@map_order O1 _ _ _ _ (routeMappings_List w)).*2 ≡ₚ
            (@map_order O2 _ _ _ _ (routeMappings_List w)).*2) as Hp
      by by rewrite !map_order_perm.
    f_equal; (apply SliceStable_unique; [apply _|by rewrite Hp|]); intros x y;
      rewrite map_order_perm, !list_elem_of_filter; unfold path_less, process_less.
    - intros [??] [??] ?%Nat.ltb_ge ?%Nat.ltb_ge. apply Hpath; auto. lia.
    - intros [Hx%dec_stable ?] [Hy%dec_stable ?] ??. apply Hproc; auto. by apply str_lt_total. }
  destruct (@collect_unfixed O1 _ _ _ _ _ _ _ _).1, (@collect_unfixed O2 _ _ _ _ _ _ _ _).1;
    simpl in *; by subst.
Qed.

(** A small world: one process with one instance, two routes with paths and one
    without. *)
Definition w_backend : Backend := mkBackend "10.0.0.1" 61000 8080.
Definition w_store : gmap string sets :=
  <["d1" := mkSets (mkBackendSet (Sl [w_backend])) (mkBackendSet Nil)]> ∅.
Definition w_world (path1 path2 : string) : world := mkWorld
  (Routes.Sync NewRoutesRepo
     [mkRoute "r1" "A.example.com" path1 false ""; mkRoute "r2" "b.example.com" path2 false ""])
  (RouteMappings.Sync NewRouteMappingsRepo
     [mkRouteMapping "r1" "p1" 1; mkRouteMapping "r2" "p1" 1; mkRouteMapping "r2" "p2" 2])
  (Associations.Sync NewAssociationsRepo
     [mkAssociation "p1" (Sl ["d1"]); mkAssociation "p2" (Sl ["d0"; "d1"])])
  (DiegoBackendSetRepo w_store).
Definition ascii_only : UnicodeLower := id.

Definition collected (o : outcome (gslice RouteWithBackends)) : list (string * string * string * Z) :=
  match o with
  | Ret l => (λ r, (FixWeights.Hostname r, FixWeights.Path r, CapiProcessGUID r,
                    FixWeights.RouteWeight r)) <$> elems l
  | Panic _ => []
  end.

Lemma Collect_deterministic_witness :
  let _ := ascii_only in let _ := amd64 in
  let w := mkWorld (routes_repo (w_world "/a" ""))
             (RouteMappings.Sync NewRouteMappingsRepo
                [mkRouteMapping "r1" "p1" 1; mkRouteMapping "r2" "p2" 2])
             (assoc_repo (w_world "/a" "")) (backends_repo (w_world "/a" "")) in
  ∃ l1 l2, @Collect asc_order ascii_only world _ (@world_mappings asc_order amd64) _ _ (λ _, w) = Ret l1 ∧
    @Collect desc_order ascii_only world _ (@world_mappings asc_order amd64) _ _ (λ _, w) = Ret l2 ∧
    elems l1 = elems l2.
Proof.
  cbv zeta.
  refine (@Collect_deterministic asc_order desc_order ascii_only world _
            (@world_mappings asc_order amd64) _ _ _ _ _);
  intros x y Hx Hy; vm_compute in Hx, Hy;
  repeat match goal with H : list_elem_of _ _ |- _ => inv H | H : _ ∈ _ |- _ => inv H end; vm_compute; intros; first
    [reflexivity | discriminate
    | exfalso; match goal with H : _ → False |- _ => apply H; reflexivity end].
Defined.

(** Otherwise it does show: with two routes whose different paths have one
    length, in an unchanging world, the built routes come in the order in which
    Go happens to range over the mappings. *)
Theorem Collect_order_dependent `{UnicodeLower} `{FloatToInt} :
  ∃ w : world,
    collected (@Collect asc_order _ world _ (@world_mappings asc_order _) _ _ (λ _, w)) ≠
    collected (@Collect desc_order _ world _ (@world_mappings desc_order _) _ _ (λ _, w)).
Proof.
  exists (w_world "/a" "/b"). vm_compute. discriminate.
Qed.

(** C13. The weights add up from end to end: in a quiet world in which the
    mappings came from well-behaved calls with positive weights (of sum at most
    [2^15] for the route), all mappings of a route are served and no other route
    has its host and path, the weights that [Collect] reports for that host and
    path sum to exactly 100, through the rounding of [GetCalculatedWeight] and
    the correction of [fixRouteWeights]. *)
Theorem collected_weights_sum_to_100 `{MapOrder} `{UnicodeLower} `{FloatToInt}
    (w : world) (g : string) (route : Route)
    (Hroute : Routes.Get (routes_repo w) g = Some route)
    (Hr : RouteMappings.reachable (mappings_repo w))
    (Hpos : ∀ k rm, RouteMappings.repo (mappings_repo w) !! k = Some rm →
       (0 < RouteMappings.RouteWeight rm)%Z)
    (Hsum : (0 < mapped_weight g (RouteMappings.repo (mappings_repo w)) ≤ 2 ^ 15)%Z)
    (Hserved : ∀ k rm, RouteMappings.repo (mappings_repo w) !! k = Some rm →
       RouteMappings.RouteGUID rm = g → is_Some (joined w rm))
    (Halone : ∀ k rm r, RouteMappings.repo (mappings_repo w) !! k = Some rm →
       joined w rm = Some r →
       routeKey r = Routes.Hostname route +:+ "/" +:+ Routes.Path route →
       RouteMappings.RouteGUID rm = g) :
  ∃ l, Collect (λ _, w) = Ret l ∧
    group_sum (Routes.Hostname route +:+ "/" +:+ Routes.Path route) (elems l) = 100%Z.
Proof.
  unfold Collect. rewrite fixRouteWeights_spec. eexists. split; [reflexivity|].
  pose proof (route_group_collected w g route Hroute Hserved Halone 0) as Hg.
  set (key := Routes.Hostname route +:+ "/" +:+ Routes.Path route) in *.
  set (l := (collect_unfixed (λ _, w) 0).1) in *.
  assert (elems (gmap_elems (λ l, imap (fix_one l) l) l)
            = fix_upto (λ key, missing key (elems l)) (elems l)) as -> by by destruct l.
  pose proof (calculated_weights_total (mappings_repo w) g Hr Hpos Hsum) as Ht.
  assert (length (group key (elems l)) = length (route_mappings g (mappings_repo w))) as Hlen
    by (apply Permutation_length in Hg; by rewrite !length_fmap in Hg).
  assert (group_sum key (elems l) =
    sumZ (GetCalculatedWeight (mappings_repo w) <$> route_mappings g (mappings_repo w))) as Hs
    by (by apply sumZ_perm).
  assert (∀ rm, rm ∈ route_mappings g (mappings_repo w) →
    0 ≤ GetCalculatedWeight (mappings_repo w) rm ≤ 100)%Z as Hpercent
    by (intros; apply (route_mapping_percent _ g); [done|done|lia|done]).
  rewrite group_sum_fix_upto.
  - assert (0 ≤ sumZ (GetCalculatedWeight (mappings_repo w) <$>
                        route_mappings g (mappings_repo w)))%Z
      by (apply sumZ_fmap_nonneg; intros; by apply Hpercent).
    rewrite Hlen. cbv beta. unfold missing. rewrite Hs, u32_small; lia.
  - intros r Hin. unfold incr_safe.
    assert (FixWeights.RouteWeight r ∈
      GetCalculatedWeight (mappings_repo w) <$> route_mappings g (mappings_repo w)) as Hel
      by (rewrite <-Hg; by apply list_elem_of_fmap_2).
    apply list_elem_of_fmap in Hel as (rm & -> & Hrm). pose proof (Hpercent rm Hrm). lia.
  - apply u32_range.
Qed.

Lemma collected_weights_sum_to_100_witness :
  let _ := asc_order in let _ := ascii_only in let _ := amd64 in
  ∃ l, Collect (λ _, w_world "/a" "/b") = Ret l ∧ group_sum "b.example.com//b" (elems l) = 100%Z.
Proof.
  cbv zeta.
  refine (@collected_weights_sum_to_100 asc_order ascii_only amd64 (w_world "/a" "/b") "r2"
            (mkRoute "r2" "b.example.com" "/b" false "") eq_refl _ _ _ _ _).
  - apply (RouteMappings.reach_op NewRouteMappingsRepo (RouteMappings.OSync _));
      [apply RouteMappings.reach_new|].
    refine (bool_decide_unpack _ _). vm_compute. exact I.
  - assert (map_Forall (λ _ rm, (0 < RouteMappings.RouteWeight rm)%Z)
              (RouteMappings.repo (mappings_repo (w_world "/a" "/b")))) as Hall
      by (refine (bool_decide_unpack _ _); vm_compute; exact I).
    apply Hall.
  - vm_compute. split; [reflexivity|discriminate].
  - assert (map_Forall (λ _ rm, RouteMappings.RouteGUID rm = "r2" →
       is_Some (@joined ascii_only world _ (@world_mappings asc_order amd64) _ _ (w_world "/a" "/b") rm))
              (RouteMappings.repo (mappings_repo (w_world "/a" "/b")))) as Hall
      by (refine (bool_decide_unpack _ _); vm_compute; exact I).
    apply Hall.
  - assert (map_Forall (λ _ rm,
       routeKey <$> @joined ascii_only world _ (@world_mappings asc_order amd64) _ _
                      (w_world "/a" "/b") rm = Some "b.example.com//b" →
       RouteMappings.RouteGUID rm = "r2")
              (RouteMappings.repo (mappings_repo (w_world "/a" "/b")))) as Hall
      by (refine (bool_decide_unpack _ _); vm_compute; exact I).
    intros k rm r Hk Hj Hkey. apply (Hall k rm Hk). rewrite Hj. exact (f_equal Some Hkey).
Defined.
