(* ===== verification/Api.v ===== *)
(** * The messages of the gRPC interface ([api/*.pb.go])

    The messages as the handlers see them: the declared fields of the generated
    structs (the [XXX_] bookkeeping fields are never read), a pointer to a message
    as an [option], and the generated getters, which are defined on nil too. *)
From S2P Require Import Prelude.

(** ** Messages *)
Module Route.
Record t := mk { Guid : string; Host : string; Path : string; Internal : bool; Vip : string }.
End Route.
Module RouteMapping.
Record t := mk { CapiProcessGuid : string; RouteGuid : string; RouteWeight : Z }.
End RouteMapping.
Module Association.
Record t := mk { CapiProcessGuid : string; DiegoProcessGuids : gslice string }.
End Association.

Record UpsertRouteRequest := mkUpsertRouteRequest { urRoute : option Route.t }.
Record DeleteRouteRequest := mkDeleteRouteRequest { drGuid : string }.
Record MapRouteRequest := mkMapRouteRequest { mrRouteMapping : option RouteMapping.t }.
Record UnmapRouteRequest := mkUnmapRouteRequest { unRouteMapping : option RouteMapping.t }.
Record UpsertCapiDiegoProcessAssociationRequest := mkUpsertAssociationRequest {
  uaAssociation : option Association.t
}.
Record DeleteCapiDiegoProcessAssociationRequest := mkDeleteAssociationRequest {
  daCapiProcessGuid : string
}.
Record BulkSyncRequest := mkBulkSyncRequest {
  RouteMappings : gslice (option RouteMapping.t);
  Routes : gslice (option Route.t);
  CapiDiegoProcessAssociations : gslice (option Association.t);
}.
Record BulkSyncRequestChunk := mkBulkSyncRequestChunk { Chunk : gslice Byte.byte }.
Record BulkSyncResponse := mkBulkSyncResponse { TotalBytesReceived : Z (* int32 *) }.
Record HealthResponse := mkHealthResponse { Healthy : bool }.
Record ListCfRoutesResponse := mkListCfRoutesResponse { lrRoutes : gmap string string }.
Record ListCfRouteMappingsResponse := mkListCfRouteMappingsResponse {
  lmRouteMappings : gmap string RouteMapping.t
}.
Record DiegoProcessGuids := mkDiegoProcessGuids { dpGuids : gslice string }.
Record ListCapiDiegoProcessAssociationsResponse := mkListAssociationsResponse {
  laAssociations : gmap string DiegoProcessGuids
}.
Record GetVIPByNameRequest := mkGetVIPByNameRequest { Fqdn : string }.
Record GetVIPByNameResponse := mkGetVIPByNameResponse { Ip : string }.

(** Messages without fields. *)
Record ListCfRoutesRequest := mkListCfRoutesRequest {}.
Record ListCfRouteMappingsRequest := mkListCfRouteMappingsRequest {}.
Record ListCapiDiegoProcessAssociationsRequest := mkListAssociationsRequest {}.
Record UpsertRouteResponse := mkUpsertRouteResponse {}.
Record DeleteRouteResponse := mkDeleteRouteResponse {}.
Record MapRouteResponse := mkMapRouteResponse {}.
Record UnmapRouteResponse := mkUnmapRouteResponse {}.
Record UpsertCapiDiegoProcessAssociationResponse := mkUpsertAssociationResponse {}.
Record DeleteCapiDiegoProcessAssociationResponse := mkDeleteAssociationResponse {}.
Record HealthRequest := mkHealthRequest {}.

(** The zero value of a request. *)
Definition empty_bulk_sync : BulkSyncRequest := mkBulkSyncRequest Nil Nil Nil.

(** ** Getters *)
(** The generated getters: the field, or its zero value on a nil pointer. *)
Definition getter {M A} (field : M → A) (zero : A) (m : option M) : A :=
  match m with Some m => field m | None => zero end.

Definition Route_GetGuid : option Route.t → string := getter Route.Guid "".
Definition Route_GetHost : option Route.t → string := getter Route.Host "".
Definition Route_GetPath : option Route.t → string := getter Route.Path "".
Definition Route_GetInternal : option Route.t → bool := getter Route.Internal false.
Definition Route_GetVip : option Route.t → string := getter Route.Vip "".
Definition RouteMapping_GetCapiProcessGuid : option RouteMapping.t → string :=
  getter RouteMapping.CapiProcessGuid "".
Definition RouteMapping_GetRouteGuid : option RouteMapping.t → string :=
  getter RouteMapping.RouteGuid "".
Definition RouteMapping_GetRouteWeight : option RouteMapping.t → Z :=
  getter RouteMapping.RouteWeight 0%Z.
Definition Association_GetCapiProcessGuid : option Association.t → string :=
  getter Association.CapiProcessGuid "".
Definition Association_GetDiegoProcessGuids : option Association.t → gslice string :=
  getter Association.DiegoProcessGuids Nil.
Definition BulkSyncRequest_GetRouteMappings : option BulkSyncRequest → gslice (option RouteMapping.t) :=
  getter RouteMappings Nil.
Definition BulkSyncRequest_GetRoutes : option BulkSyncRequest → gslice (option Route.t) :=
  getter Routes Nil.
Definition BulkSyncRequest_GetCapiDiegoProcessAssociations :
    option BulkSyncRequest → gslice (option Association.t) :=
  getter CapiDiegoProcessAssociations Nil.
Definition BulkSyncResponse_GetTotalBytesReceived : option BulkSyncResponse → Z :=
  getter TotalBytesReceived 0%Z.
Definition HealthResponse_GetHealthy : option HealthResponse → bool := getter Healthy false.
Definition GetVIPByNameRequest_GetFqdn : option GetVIPByNameRequest → string := getter Fqdn "".
Definition GetVIPByNameResponse_GetIp : option GetVIPByNameResponse → string := getter Ip "".
Definition ListCfRoutesResponse_GetRoutes : option ListCfRoutesResponse → gmap string string :=
  getter lrRoutes ∅.
Definition ListCfRouteMappingsResponse_GetRouteMappings :
    option ListCfRouteMappingsResponse → gmap string RouteMapping.t :=
  getter lmRouteMappings ∅.
Definition DiegoProcessGuids_GetDiegoProcessGuids : option DiegoProcessGuids → gslice string :=
  getter dpGuids Nil.
Definition ListCapiDiegoProcessAssociationsResponse_GetCapiDiegoProcessAssociations :
    option ListCapiDiegoProcessAssociationsResponse → gmap string DiegoProcessGuids :=
  getter laAssociations ∅.
Definition UpsertRouteRequest_GetRoute : option UpsertRouteRequest → option Route.t :=
  getter urRoute None.
Definition DeleteRouteRequest_GetGuid : option DeleteRouteRequest → string := getter drGuid "".
Definition MapRouteRequest_GetRouteMapping : option MapRouteRequest → option RouteMapping.t :=
  getter mrRouteMapping None.
Definition UnmapRouteRequest_GetRouteMapping : option UnmapRouteRequest → option RouteMapping.t :=
  getter unRouteMapping None.
Definition UpsertRequest_GetCapiDiegoProcessAssociation :
    option UpsertCapiDiegoProcessAssociationRequest → option Association.t :=
  getter uaAssociation None.
Definition DeleteRequest_GetCapiProcessGuid :
    option DeleteCapiDiegoProcessAssociationRequest → string := getter daCapiProcessGuid "".
Definition BulkSyncRequestChunk_GetChunk : option BulkSyncRequestChunk → gslice Byte.byte :=
  getter Chunk Nil.

(** ** Message types *)
Inductive mtype :=
| TListCfRoutesRequest | TListCfRoutesResponse
| TListCfRouteMappingsRequest | TListCfRouteMappingsResponse
| TListAssociationsRequest | TListAssociationsResponse
| TUpsertRouteRequest | TUpsertRouteResponse
| TDeleteRouteRequest | TDeleteRouteResponse
| TMapRouteRequest | TMapRouteResponse
| TUnmapRouteRequest | TUnmapRouteResponse
| TUpsertAssociationRequest | TUpsertAssociationResponse
| TDeleteAssociationRequest | TDeleteAssociationResponse
| THealthRequest | THealthResponse
| TBulkSyncRequestChunk | TBulkSyncResponse
| TGetVIPByNameRequest | TGetVIPByNameResponse.

Definition msg (t : mtype) : Type :=
  match t with
  | TListCfRoutesRequest => ListCfRoutesRequest
  | TListCfRoutesResponse => ListCfRoutesResponse
  | TListCfRouteMappingsRequest => ListCfRouteMappingsRequest
  | TListCfRouteMappingsResponse => ListCfRouteMappingsResponse
  | TListAssociationsRequest => ListCapiDiegoProcessAssociationsRequest
  | TListAssociationsResponse => ListCapiDiegoProcessAssociationsResponse
  | TUpsertRouteRequest => UpsertRouteRequest
  | TUpsertRouteResponse => UpsertRouteResponse
  | TDeleteRouteRequest => DeleteRouteRequest
  | TDeleteRouteResponse => DeleteRouteResponse
  | TMapRouteRequest => MapRouteRequest
  | TMapRouteResponse => MapRouteResponse
  | TUnmapRouteRequest => UnmapRouteRequest
  | TUnmapRouteResponse => UnmapRouteResponse
  | TUpsertAssociationRequest => UpsertCapiDiegoProcessAssociationRequest
  | TUpsertAssociationResponse => UpsertCapiDiegoProcessAssociationResponse
  | TDeleteAssociationRequest => DeleteCapiDiegoProcessAssociationRequest
  | TDeleteAssociationResponse => DeleteCapiDiegoProcessAssociationResponse
  | THealthRequest => HealthRequest
  | THealthResponse => HealthResponse
  | TBulkSyncRequestChunk => BulkSyncRequestChunk
  | TBulkSyncResponse => BulkSyncResponse
  | TGetVIPByNameRequest => GetVIPByNameRequest
  | TGetVIPByNameResponse => GetVIPByNameResponse
  end.
