(* ===== verification/Handlers.v ===== *)
(** * The gRPC handlers ([handlers/capi.go], [handlers/vip_resolver.go])

    [CAPI] is the interface the Cloud Controller writes through, [VIPResolver] the
    one that DNS reads through.  A handler takes the repositories and a request to
    the repositories and a response or an error.  The handlers know the repositories
    by the interfaces that the source declares, so they are defined over any
    implementation of these, whose [List] may hold nil; the server's is the one of
    [Routes], [RouteMappings] and [Associations].  A unary call of the Cloud Controller's
    service is a value of [capi_call], and [perform] gives it to its handler.  Decoding a [BulkSyncRequest] and Go's [%#v] formatting are
    parameters. *)
From Stdlib Require Import Ascii.
From S2P Require Import Prelude GoStrings GoFloat Routes RouteMappings Associations Api.

(** ** The interfaces of the repositories *)
(** A method call may change the implementation, so every method returns it.  The
    handlers pass pointers to structs they have just built, never nil; the maps of
    pointers that they get may hold nil. *)
Class routesRepoInterface (R : Type) := {
  routes_Upsert : R → Route → R;
  routes_Delete : R → string → R;
  routes_Sync : R → list Route → R;
  routes_Get : R → string → R * option Route;
  routes_List : R → R * gmap string string;
}.
Class routeMappingsRepoInterface (M : Type) := {
  mappings_GetCalculatedWeight : M → RouteMapping → M * Z;
  mappings_Map : M → RouteMapping → M;
  mappings_Unmap : M → RouteMapping → M;
  mappings_Sync : M → list RouteMapping → M;
  mappings_List : M → M * gmap string (option RouteMapping);
}.
Class capiDiegoProcessAssociationsRepoInterface (A : Type) := {
  associations_Upsert : A → CAPIDiegoProcessAssociation → A;
  associations_Delete : A → string → A;
  associations_Sync : A → list CAPIDiegoProcessAssociation → A;
  associations_List : A → A * gmap string (option DiegoProcessGUIDs);
  associations_Get : A → string → A * option CAPIDiegoProcessAssociation;
}.
Class routesRepoVIPResolverInterface (R : Type) :=
  resolve_GetVIPByName : R → string → R * (string * bool).

(** The repositories of the server implement them. *)
#[export] Instance RoutesRepo_implements `{MapOrder} : routesRepoInterface RoutesRepo := {|
  routes_Upsert := Routes.Upsert;
  routes_Delete := Routes.Delete;
  routes_Sync := Routes.Sync;
  routes_Get r guid := (r, Routes.Get r guid);
  routes_List r := (r, Routes.List r);
|}.
#[export] Instance RouteMappingsRepo_implements `{MapOrder} `{FloatToInt}
    : routeMappingsRepoInterface RouteMappingsRepo := {|
  mappings_GetCalculatedWeight m rm := (m, GetCalculatedWeight m rm);
  mappings_Map := Map;
  mappings_Unmap := Unmap;
  mappings_Sync := RouteMappings.Sync;
  mappings_List m := (m, Some <$> RouteMappings.List m);
|}.
#[export] Instance AssociationsRepo_implements `{MapOrder}
    : capiDiegoProcessAssociationsRepoInterface CAPIDiegoProcessAssociationsRepo := {|
  associations_Upsert := Associations.Upsert;
  associations_Delete := Associations.Delete;
  associations_Sync := Associations.Sync;
  associations_List a := (a, Some <$> Associations.List a);
  associations_Get a guid := (a, Associations.Get a guid);
|}.
#[export] Instance RoutesRepo_resolves : routesRepoVIPResolverInterface RoutesRepo :=
  λ r hostname, (r, Routes.GetVIPByName r hostname).

(** ** Data *)
Record CAPI {R M A : Type} := mkCAPI {
  capi_routes : R;
  capi_mappings : M;
  capi_associations : A;
}.
Arguments CAPI : clear implicits.
Arguments mkCAPI {R M A} _ _ _.

(** The errors a handler returns. *)
Inductive error :=
| InvalidArgument (msg : string)   (* status.Errorf(codes.InvalidArgument, ...) *)
| PlainError (msg : string)        (* an error value without a code *)
| StatusError (code : Z) (msg : string).   (* status.Errorf with another code *)

Global Instance error_eq_dec : EqDecision error.
Proof. solve_decision. Defined.

Definition with_routes {R M A} (c : CAPI R M A) (r : R) : CAPI R M A :=
  mkCAPI r (capi_mappings c) (capi_associations c).
Definition with_mappings {R M A} (c : CAPI R M A) (m : M) : CAPI R M A :=
  mkCAPI (capi_routes c) m (capi_associations c).
Definition with_associations {R M A} (c : CAPI R M A) (a : A) : CAPI R M A :=
  mkCAPI (capi_routes c) (capi_mappings c) a.

(** The handlers' state on the server. *)
Notation server_capi := (CAPI RoutesRepo RouteMappingsRepo CAPIDiegoProcessAssociationsRepo).

(** [fmt]'s [%#v] of a request pointer. *)
Class GoSyntax := sharp_v : ∀ {A : Type}, A → string.

Definition newline : string := String (Ascii.ascii_of_nat 10) "".

(** ** Validation: [Some] message for an invalid request *)
Definition validateUpsertRouteRequest (r : UpsertRouteRequest) : option string :=
  match urRoute r with
  | None => Some "route is required"
  | Some route =>
      if decide (Api.Route.Guid route = "" ∨ Api.Route.Host route = "")
      then Some "route Guid and Host are required" else None
  end.

Definition validateDeleteRouteRequest (r : DeleteRouteRequest) : option string :=
  if decide (drGuid r = "") then Some "route Guid is required" else None.

Definition validateMapRouteRequest (r : MapRouteRequest) : option string :=
  match mrRouteMapping r with
  | None => Some "RouteMapping is required"
  | Some rm =>
      if decide (Api.RouteMapping.RouteGuid rm = "" ∨ Api.RouteMapping.CapiProcessGuid rm = "")
      then Some "RouteGUID and CapiProcessGUID are required"
      else if decide (Api.RouteMapping.RouteWeight rm = 0 ∨ 128 < Api.RouteMapping.RouteWeight rm)%Z
      then Some "RouteWeight must be between 1 and 128" else None
  end.

Definition validateUnmapRouteRequest (r : UnmapRouteRequest) : option string :=
  match unRouteMapping r with
  | None => Some "RouteMapping is required"
  | Some rm =>
      if decide (Api.RouteMapping.RouteGuid rm = "" ∨ Api.RouteMapping.CapiProcessGuid rm = "")
      then Some "RouteGuid and CapiProcessGuid are required"
      else if decide (Api.RouteMapping.RouteWeight rm = 0 ∨ 128 < Api.RouteMapping.RouteWeight rm)%Z
      then Some "RouteWeight must be between 1 and 128" else None
  end.

Definition validateUpsertCAPIDiegoProcessAssociationRequest
    (r : UpsertCapiDiegoProcessAssociationRequest) : option string :=
  match uaAssociation r with
  | None => Some "CapiDiegoProcessAssociation is required"
  | Some a =>
      if decide (Api.Association.CapiProcessGuid a = "" ∨
                 glen (Api.Association.DiegoProcessGuids a) = 0)
      then Some "CapiProcessGuid and DiegoProcessGuids are required" else None
  end.

Definition validateDeleteCAPIDiegoProcessAssociationRequest
    (r : DeleteCapiDiegoProcessAssociationRequest) : option string :=
  if decide (daCapiProcessGuid r = "") then Some "CapiProcessGuid is required" else None.

(** ** Unary handlers *)
Definition nil_deref : string := "invalid memory address or nil pointer dereference".

(** Reading a field through a message pointer. *)
Definition deref {A} (p : option A) : outcome A :=
  match p with Some a => Ret a | None => Panic nil_deref end.

Definition to_model_mapping (rm : Api.RouteMapping.t) : RouteMapping :=
  mkRouteMapping (Api.RouteMapping.RouteGuid rm) (Api.RouteMapping.CapiProcessGuid rm)
    (Api.RouteMapping.RouteWeight rm).
Definition to_model_route (r : Api.Route.t) : Route :=
  mkRoute (Api.Route.Guid r) (Api.Route.Host r) (Api.Route.Path r) (Api.Route.Internal r)
    (Api.Route.Vip r).

Definition Health : HealthResponse := mkHealthResponse true.

(** ** Bulk sync: its data *)
(** What [stream.Recv] returns, call after call. *)
Inductive stream :=
| SChunk (chunk : BulkSyncRequestChunk) (rest : stream)
| SEof
| SError (err : error).

(** [routes[i] = &models.Route{...}] through the nil-safe getters; the other two
    loops read the fields through the pointers. *)
Definition sync_route (route : option Api.Route.t) : Route :=
  mkRoute (Route_GetGuid route) (Route_GetHost route) (Route_GetPath route)
    (Route_GetInternal route) (Route_GetVip route).
Definition sync_mapping (rm : option Api.RouteMapping.t) : outcome RouteMapping :=
  rm ← deref rm; Ret (to_model_mapping rm).
Definition sync_association (a : option Api.Association.t)
    : outcome CAPIDiegoProcessAssociation :=
  a ← deref a;
  Ret (mkAssociation (Api.Association.CapiProcessGuid a)
         (Sl (elems (Api.Association.DiegoProcessGuids a)))).

Fixpoint map_outcome {A B} (f : A → outcome B) (l : list A) : outcome (list B) :=
  match l with
  | [] => Ret []
  | x :: l => y ← f x; ys ← map_outcome f l; Ret (y :: ys)
  end.

Section handlers.
Context {R M A : Type} `{!routesRepoInterface R} `{!routeMappingsRepoInterface M}.
Context `{!capiDiegoProcessAssociationsRepoInterface A}.

Section unary.
Context `{GoSyntax} (c : CAPI R M A).

Definition UpsertRoute (request : UpsertRouteRequest) : outcome (CAPI R M A * (error + UpsertRouteResponse)) :=
  match validateUpsertRouteRequest request with
  | Some err =>
      Ret (c, inl (InvalidArgument ("Route " +:+ sharp_v request +:+ " is invalid:" +:+
                                    newline +:+ " " +:+ err)))
  | None =>
      route ← deref (urRoute request);
      Ret (with_routes c (routes_Upsert (capi_routes c) (to_model_route route)), inr mkUpsertRouteResponse)
  end.

Definition DeleteRoute (request : DeleteRouteRequest) : outcome (CAPI R M A * (error + DeleteRouteResponse)) :=
  match validateDeleteRouteRequest request with
  | Some err => Ret (c, inl (InvalidArgument err))
  | None => Ret (with_routes c (routes_Delete (capi_routes c) (drGuid request)), inr mkDeleteRouteResponse)
  end.

Definition MapRoute (request : MapRouteRequest) : outcome (CAPI R M A * (error + MapRouteResponse)) :=
  match validateMapRouteRequest request with
  | Some err =>
      Ret (c, inl (InvalidArgument ("Route Mapping " +:+ sharp_v request +:+ " is invalid:" +:+
                                    newline +:+ " " +:+ err)))
  | None =>
      rm ← deref (mrRouteMapping request);
      Ret (with_mappings c (mappings_Map (capi_mappings c) (to_model_mapping rm)), inr mkMapRouteResponse)
  end.

Definition UnmapRoute (request : UnmapRouteRequest) : outcome (CAPI R M A * (error + UnmapRouteResponse)) :=
  match validateUnmapRouteRequest request with
  | Some err =>
      Ret (c, inl (InvalidArgument ("Route Mapping " +:+ sharp_v request +:+ " is invalid:" +:+
                                    newline +:+ " " +:+ err)))
  | None =>
      rm ← deref (unRouteMapping request);
      Ret (with_mappings c (mappings_Unmap (capi_mappings c) (to_model_mapping rm)), inr mkUnmapRouteResponse)
  end.

Definition UpsertCapiDiegoProcessAssociation
    (request : UpsertCapiDiegoProcessAssociationRequest) : outcome (CAPI R M A * (error + UpsertCapiDiegoProcessAssociationResponse)) :=
  match validateUpsertCAPIDiegoProcessAssociationRequest request with
  | Some err =>
      Ret (c, inl (InvalidArgument ("Capi/Diego Process Association " +:+ sharp_v request +:+
                                    " is invalid:" +:+ newline +:+ " " +:+ err)))
  | None =>
      a ← deref (uaAssociation request);
      let association :=
        mkAssociation (Api.Association.CapiProcessGuid a)
          (DiegoProcessGUIDsFromStringSlice (Api.Association.DiegoProcessGuids a)) in
      Ret (with_associations c (associations_Upsert (capi_associations c) association), inr mkUpsertAssociationResponse)
  end.

Definition DeleteCapiDiegoProcessAssociation
    (request : DeleteCapiDiegoProcessAssociationRequest) : outcome (CAPI R M A * (error + DeleteCapiDiegoProcessAssociationResponse)) :=
  match validateDeleteCAPIDiegoProcessAssociationRequest request with
  | Some err => Ret (c, inl (InvalidArgument err))
  | None =>
      Ret (with_associations c
             (associations_Delete (capi_associations c) (daCapiProcessGuid request)), inr mkDeleteAssociationResponse)
  end.
End unary.

(** ** Listing handlers *)
(** They read the fields of what the maps point to. *)
Section lists.
Context `{MapOrder} (c : CAPI R M A).

Definition ListCfRoutes : CAPI R M A * ListCfRoutesResponse :=
  let '(r, routes) := routes_List (capi_routes c) in
  (with_routes c r, mkListCfRoutesResponse routes).

Definition ListCfRouteMappings : outcome (CAPI R M A * ListCfRouteMappingsResponse) :=
  let '(m, routeMappings) := mappings_List (capi_mappings c) in
  apiRoutMappings ← map_outcome (λ kv, v ← deref kv.2;
      Ret (kv.1, Api.RouteMapping.mk (RouteMappings.CAPIProcessGUID v) (RouteGUID v) (RouteWeight v)))
    (map_order routeMappings);
  Ret (with_mappings c m, mkListCfRouteMappingsResponse (insert_all fst snd apiRoutMappings ∅)).

Definition ListCapiDiegoProcessAssociations
    : outcome (CAPI R M A * ListCapiDiegoProcessAssociationsResponse) :=
  let '(a, guids) := associations_List (capi_associations c) in
  response ← map_outcome (λ kv, diegoProcessGUIDs ← deref kv.2;
      Ret (kv.1, mkDiegoProcessGuids (ToStringSlice diegoProcessGUIDs)))
    (map_order guids);
  Ret (with_associations c a, mkListAssociationsResponse (insert_all fst snd response ∅)).
End lists.

(** ** Bulk sync *)
(** The three calls of [syncRequest], each atomic on its own. *)
Definition sync_steps (mappings : list RouteMapping) (routes : list Route)
    (cdpas : list CAPIDiegoProcessAssociation) : list (CAPI R M A → CAPI R M A) :=
  [ λ c, with_mappings c (mappings_Sync (capi_mappings c) mappings);
    λ c, with_routes c (routes_Sync (capi_routes c) routes);
    λ c, with_associations c (associations_Sync (capi_associations c) cdpas) ].

Definition syncRequest (c : CAPI R M A) (request : BulkSyncRequest) : outcome (CAPI R M A) :=
  mappings ← map_outcome sync_mapping (elems (Api.RouteMappings request));
  let routes := sync_route <$> elems (Api.Routes request) in
  cdpas ← map_outcome sync_association (elems (Api.CapiDiegoProcessAssociations request));
  Ret (foldl (λ c f, f c) c (sync_steps mappings routes cdpas)).

Section bulk_sync.
(** [request.XXX_Unmarshal] on an empty request, and [stream.SendAndClose]. *)
Context (unmarshal : list Byte.byte → error + BulkSyncRequest).
Context (send : BulkSyncResponse → option error).

(** The loop, with [allChunks]: the repositories and the returned error. *)
Fixpoint bulk_loop (c : CAPI R M A) (allChunks : list Byte.byte) (s : stream)
    : outcome (CAPI R M A * option error) :=
  match s with
  | SEof =>
      match (if (length allChunks =? 0)%nat then inr empty_bulk_sync else unmarshal allChunks)
      with
      | inl err => Ret (c, Some err)
      | inr request =>
          c ← syncRequest c request;
          Ret (c, send (mkBulkSyncResponse (i32 (Z.of_nat (length allChunks)))))
      end
  | SError err => Ret (c, Some err)
  | SChunk requestChunk rest => bulk_loop c (allChunks ++ elems (Chunk requestChunk)) rest
  end.
Definition BulkSync (c : CAPI R M A) (s : stream) : outcome (CAPI R M A * option error) :=
  bulk_loop c [] s.
End bulk_sync.
End handlers.

(** ** The VIP resolver *)
Record VIPResolver {R : Type} := mkVIPResolver { resolver_routes : R }.
Arguments VIPResolver : clear implicits.
Arguments mkVIPResolver {R} _.

Section resolver.
Context {R : Type} `{!routesRepoVIPResolverInterface R} (b : VIPResolver R).

Definition VIPResolver_Health : HealthResponse := mkHealthResponse true.

Definition GetVIPByName (request : GetVIPByNameRequest)
    : VIPResolver R * (error + GetVIPByNameResponse) :=
  let '(r, (ip, ok)) :=
    resolve_GetVIPByName (resolver_routes b) (TrimRight (Fqdn request) "."%char) in
  (mkVIPResolver r,
   if ok then inr (mkGetVIPByNameResponse ip)
   else inl (PlainError ("route doesn't exist: " +:+ Fqdn request))).
End resolver.

(** ** Specification *)
(** A unary call of the Cloud Controller's service, by the message that answers it, and
    its handler. *)
Inductive capi_call : mtype → Type :=
| CListCfRoutes (r : ListCfRoutesRequest) : capi_call TListCfRoutesResponse
| CListCfRouteMappings (r : ListCfRouteMappingsRequest) : capi_call TListCfRouteMappingsResponse
| CListAssociations (r : ListCapiDiegoProcessAssociationsRequest) : capi_call TListAssociationsResponse
| CUpsertRoute (r : UpsertRouteRequest) : capi_call TUpsertRouteResponse
| CDeleteRoute (r : DeleteRouteRequest) : capi_call TDeleteRouteResponse
| CMapRoute (r : MapRouteRequest) : capi_call TMapRouteResponse
| CUnmapRoute (r : UnmapRouteRequest) : capi_call TUnmapRouteResponse
| CUpsertAssociation (r : UpsertCapiDiegoProcessAssociationRequest) : capi_call TUpsertAssociationResponse
| CDeleteAssociation (r : DeleteCapiDiegoProcessAssociationRequest) : capi_call TDeleteAssociationResponse
| CHealth (r : HealthRequest) : capi_call THealthResponse.

(** The calls that write. *)
Inductive request :=
| RUpsertRoute (r : UpsertRouteRequest)
| RDeleteRoute (r : DeleteRouteRequest)
| RMapRoute (r : MapRouteRequest)
| RUnmapRoute (r : UnmapRouteRequest)
| RUpsertAssociation (r : UpsertCapiDiegoProcessAssociationRequest)
| RDeleteAssociation (r : DeleteCapiDiegoProcessAssociationRequest).

(** Such a call, with the empty message that acknowledges it. *)
Definition writing {t} (q : capi_call t) : option (request * msg t) :=
  match q with
  | CUpsertRoute r => Some (RUpsertRoute r, mkUpsertRouteResponse)
  | CDeleteRoute r => Some (RDeleteRoute r, mkDeleteRouteResponse)
  | CMapRoute r => Some (RMapRoute r, mkMapRouteResponse)
  | CUnmapRoute r => Some (RUnmapRoute r, mkUnmapRouteResponse)
  | CUpsertAssociation r => Some (RUpsertAssociation r, mkUpsertAssociationResponse)
  | CDeleteAssociation r => Some (RDeleteAssociation r, mkDeleteAssociationResponse)
  | _ => None
  end.

(** The outcome of a call whose message is empty. *)
Definition acknowledged {S B} (r : outcome (S * (error + B))) : outcome (S * (error + unit)) :=
  x ← r; let '(s, out) := x in Ret (s, match out with inl err => inl err | inr _ => inr () end).

Section handle.
Context {R M A : Type} `{!routesRepoInterface R} `{!routeMappingsRepoInterface M}.
Context `{!capiDiegoProcessAssociationsRepoInterface A}.

Definition perform `{GoSyntax} `{MapOrder} (c : CAPI R M A) {t} (q : capi_call t)
    : outcome (CAPI R M A * (error + msg t)) :=
  match q with
  | CListCfRoutes _ => let '(c, r) := ListCfRoutes c in Ret (c, inr r)
  | CListCfRouteMappings _ => x ← ListCfRouteMappings c; Ret (x.1, inr x.2)
  | CListAssociations _ => x ← ListCapiDiegoProcessAssociations c; Ret (x.1, inr x.2)
  | CUpsertRoute r => UpsertRoute c r
  | CDeleteRoute r => DeleteRoute c r
  | CMapRoute r => MapRoute c r
  | CUnmapRoute r => UnmapRoute c r
  | CUpsertAssociation r => UpsertCapiDiegoProcessAssociation c r
  | CDeleteAssociation r => DeleteCapiDiegoProcessAssociation c r
  | CHealth _ => Ret (c, inr Health)
  end.

Definition handle `{GoSyntax} (c : CAPI R M A) (r : request)
    : outcome (CAPI R M A * (error + unit)) :=
  match r with
  | RUpsertRoute r => acknowledged (UpsertRoute c r)
  | RDeleteRoute r => acknowledged (DeleteRoute c r)
  | RMapRoute r => acknowledged (MapRoute c r)
  | RUnmapRoute r => acknowledged (UnmapRoute c r)
  | RUpsertAssociation r => acknowledged (UpsertCapiDiegoProcessAssociation c r)
  | RDeleteAssociation r => acknowledged (DeleteCapiDiegoProcessAssociation c r)
  end.

End handle.

(** The repository operation a request asks for. *)
Inductive repo_op :=
| ORoutes (o : Routes.op)
| OMappings (o : RouteMappings.op)
| OAssociations (o : Associations.op).

(** The contract of the interface: what is valid, and what it does. *)
Definition valid_weight (w : Z) : Prop := (1 ≤ w ≤ 128)%Z.
Definition request_op (r : request) : option repo_op :=
  match r with
  | RUpsertRoute (mkUpsertRouteRequest (Some rt)) =>
      if decide (Api.Route.Guid rt ≠ "" ∧ Api.Route.Host rt ≠ "")
      then Some (ORoutes (Routes.OUpsert (to_model_route rt))) else None
  | RDeleteRoute (mkDeleteRouteRequest guid) =>
      if decide (guid ≠ "") then Some (ORoutes (Routes.ODelete guid)) else None
  | RMapRoute (mkMapRouteRequest (Some rm)) =>
      if decide (Api.RouteMapping.RouteGuid rm ≠ "" ∧ Api.RouteMapping.CapiProcessGuid rm ≠ "" ∧
                 1 ≤ Api.RouteMapping.RouteWeight rm ≤ 128)%Z
      then Some (OMappings (RouteMappings.OMap (to_model_mapping rm))) else None
  | RUnmapRoute (mkUnmapRouteRequest (Some rm)) =>
      if decide (Api.RouteMapping.RouteGuid rm ≠ "" ∧ Api.RouteMapping.CapiProcessGuid rm ≠ "" ∧
                 1 ≤ Api.RouteMapping.RouteWeight rm ≤ 128)%Z
      then Some (OMappings (RouteMappings.OUnmap (to_model_mapping rm))) else None
  | RUpsertAssociation (mkUpsertAssociationRequest (Some a)) =>
      if decide (Api.Association.CapiProcessGuid a ≠ "" ∧
                 elems (Api.Association.DiegoProcessGuids a) ≠ [])
      then Some (OAssociations (Associations.OUpsert
             (mkAssociation (Api.Association.CapiProcessGuid a)
                (Sl (elems (Api.Association.DiegoProcessGuids a))))))
      else None
  | RDeleteAssociation (mkDeleteAssociationRequest guid) =>
      if decide (guid ≠ "") then Some (OAssociations (Associations.ODelete guid)) else None
  | _ => None
  end.

(** The one method call that performs it. *)
Section calls.
Context {R M A : Type} `{!routesRepoInterface R} `{!routeMappingsRepoInterface M}.
Context `{!capiDiegoProcessAssociationsRepoInterface A}.

Definition routes_call (r : R) (o : Routes.op) : R :=
  match o with
  | Routes.OUpsert route => routes_Upsert r route
  | Routes.ODelete guid => routes_Delete r guid
  | Routes.OSync routes => routes_Sync r routes
  end.
Definition mappings_call (m : M) (o : RouteMappings.op) : M :=
  match o with
  | RouteMappings.OMap rm => mappings_Map m rm
  | RouteMappings.OUnmap rm => mappings_Unmap m rm
  | RouteMappings.OSync rms => mappings_Sync m rms
  end.
Definition associations_call (a : A) (o : Associations.op) : A :=
  match o with
  | Associations.OUpsert x => associations_Upsert a x
  | Associations.ODelete guid => associations_Delete a guid
  | Associations.OSync l => associations_Sync a l
  end.
Definition apply_repo_op (c : CAPI R M A) (o : repo_op) : CAPI R M A :=
  match o with
  | ORoutes o => with_routes c (routes_call (capi_routes c) o)
  | OMappings o => with_mappings c (mappings_call (capi_mappings c) o)
  | OAssociations o => with_associations c (associations_call (capi_associations c) o)
  end.
End calls.

(** Weights on the wire are unsigned. *)
Definition wf_request (r : request) : Prop :=
  match r with
  | RMapRoute (mkMapRouteRequest (Some rm)) | RUnmapRoute (mkUnmapRouteRequest (Some rm)) =>
      (0 ≤ Api.RouteMapping.RouteWeight rm < 2 ^ 32)%Z
  | _ => True
  end.

Definition wf_call {t} (q : capi_call t) : Prop :=
  match writing q with Some (r, _) => wf_request r | None => True end.

(** A map of pointers without nil, and how a mapping is listed. *)
Definition no_nil_values {V} (m : gmap string (option V)) : Prop := map_Forall (λ _ p, is_Some p) m.
Global Instance no_nil_values_dec {V} (m : gmap string (option V)) : Decision (no_nil_values m).
Proof. unfold no_nil_values. apply _. Defined.
Definition from_model_mapping (rm : RouteMapping) : Api.RouteMapping.t :=
  Api.RouteMapping.mk (RouteMappings.CAPIProcessGUID rm) (RouteGUID rm) (RouteWeight rm).

(** The bytes of a stream that ends, and how it ends. *)
Fixpoint stream_bytes (s : stream) : list Byte.byte :=
  match s with SChunk c rest => elems (Chunk c) ++ stream_bytes rest | _ => [] end.
Fixpoint stream_end (s : stream) : option error :=
  match s with SChunk _ rest => stream_end rest | SEof => None | SError err => Some err end.

(** What the validators let into the repositories. *)
Definition valid_capi (c : server_capi) : Prop :=
  (∀ guid r, Routes.Get (capi_routes c) guid = Some r → GUID r = guid ∧ guid ≠ "" ∧ Host r ≠ "") ∧
  (∀ k rm, RouteMappings.repo (capi_mappings c) !! k = Some rm →
     RouteGUID rm ≠ "" ∧ RouteMappings.CAPIProcessGUID rm ≠ "" ∧ valid_weight (RouteWeight rm)) ∧
  (∀ guid a, Associations.Get (capi_associations c) guid = Some a →
     guid ≠ "" ∧ elems (GUIDs a) ≠ []).
Definition empty_capi : server_capi :=
  mkCAPI NewRoutesRepo NewRouteMappingsRepo NewAssociationsRepo.

(** All handlers of a history of requests, oldest first. *)
Definition handle_all `{GoSyntax} `{MapOrder} `{FloatToInt} (c : server_capi) (rs : list request)
    : outcome server_capi :=
  foldM (λ c r, res ← handle c r; Ret res.1) c rs.

(** ** Lemmas *)
Section branches.
Context {R M A : Type} `{!routesRepoInterface R} `{!routeMappingsRepoInterface M}.
Context `{!capiDiegoProcessAssociationsRepoInterface A}.
Context `{GoSyntax}.

(** Every branch of every unary handler. *)
Lemma handle_branches (c : CAPI R M A) r :
  wf_request r →
  match request_op r with
  | Some o => handle c r = Ret (apply_repo_op c o, inr ())
  | None => ∃ msg, handle c r = Ret (c, inl (InvalidArgument msg))
  end.
Proof.
  intros Hwf. destruct r as [[[rt|]]|[guid]|[[rm|]]|[[rm|]]|[[a|]]|[guid]]; simpl in *; eauto;
    unfold UpsertRoute, DeleteRoute, MapRoute, UnmapRoute, UpsertCapiDiegoProcessAssociation,
      DeleteCapiDiegoProcessAssociation, validateUpsertRouteRequest, validateDeleteRouteRequest,
      validateMapRouteRequest, validateUnmapRouteRequest,
      validateUpsertCAPIDiegoProcessAssociationRequest,
      validateDeleteCAPIDiegoProcessAssociationRequest; simpl.
  - case_decide as E; case_decide; naive_solver.
  - case_decide as E; case_decide; naive_solver.
  - case_decide as E; repeat case_decide; try naive_solver lia.
  - case_decide as E; repeat case_decide; try naive_solver lia.
  - rewrite FromStringSlice_elems. unfold glen.
    destruct (elems (Api.Association.DiegoProcessGuids a)); simpl;
      case_decide as E; case_decide; naive_solver.
  - case_decide as E; case_decide; naive_solver.
Qed.

(** The same, with the messages that acknowledge. *)
Lemma perform_branches `{MapOrder} (c : CAPI R M A) {t} (q : capi_call t) r ack :
  writing q = Some (r, ack) → wf_request r →
  match request_op r with
  | Some o => perform c q = Ret (apply_repo_op c o, inr ack)
  | None => ∃ msg, perform c q = Ret (c, inl (InvalidArgument msg))
  end.
Proof.
  intros Hq Hwf. pose proof (handle_branches c r Hwf) as Hb.
  assert (∀ B (x : B) (res : outcome (CAPI R M A * (error + B))) o,
    (∀ c' b, res = Ret (c', inr b) → b = x) →
    match o with
    | Some o => acknowledged res = Ret (apply_repo_op c o, inr ())
    | None => ∃ msg, acknowledged res = Ret (c, inl (InvalidArgument msg))
    end →
    match o with
    | Some o => res = Ret (apply_repo_op c o, inr x)
    | None => ∃ msg, res = Ret (c, inl (InvalidArgument msg))
    end) as Hack.
  { intros B x [[c' [err|b]]|why] [o|] Hx; simpl; try (by intros [? [=]]); try done.
    - intros [msg [= -> ->]]. eauto.
    - intros [= ->]. by rewrite (Hx _ b eq_refl). }
  destruct q; simplify_eq/=; (apply Hack; [by intros c' []|exact Hb]).
Qed.
End branches.

(** ** Lemmas: listing *)
(** A loop over a map that reads through its values. *)
Lemma map_outcome_listed {V W} (g : V → W) (l : list (string * option V)) :
  match map_outcome (λ kv, v ← deref kv.2; Ret (kv.1, g v)) l with
  | Ret l' => Forall (λ kv, is_Some kv.2) l ∧
      ∀ k, snd <$> last_with fst k l' = (last_with fst k l ≫= λ kv, g <$> kv.2)
  | Panic why => why = nil_deref ∧ ¬ Forall (λ kv, is_Some kv.2) l
  end.
Proof.
  induction l as [|[k0 [v|]] l IH]; simpl; [split; [constructor|done]| |].
  - destruct (map_outcome _ l) as [l'|why]; simpl.
    + destruct IH as [Hl Hlast]. split; [by constructor|]. intros k. specialize (Hlast k).
      destruct (last_with fst k l) as [kv|] eqn:E.
      * apply last_with_Some in E as [_ Hin]. rewrite Forall_forall in Hl. destruct (Hl kv Hin) as [v' Hv].
        simpl in Hlast |- *. rewrite Hv in *. simpl in *. by destruct (last_with fst k l').
      * simpl in Hlast. destruct (last_with fst k l'); [done|]. by case_decide.
    + destruct IH as [-> Hn]. split; [done|]. rewrite Forall_cons. by intros [_ ?].
  - split; [done|]. rewrite Forall_cons. by intros [[? [=]] _].
Qed.

Lemma no_nil_values_order `{MapOrder} {V} (m : gmap string (option V)) :
  Forall (λ kv, is_Some kv.2) (map_order m) ↔ no_nil_values m.
Proof.
  rewrite Forall_forall. split.
  - intros Hl k p Hk. by apply (Hl (k, p)), elem_of_map_order.
  - intros Hm [k p] Hin%elem_of_map_order. by apply (Hm k).
Qed.

Lemma listing `{MapOrder} {V W} (g : V → W) (m : gmap string (option V)) :
  (l ← map_outcome (λ kv, v ← deref kv.2; Ret (kv.1, g v)) (map_order m); Ret (insert_all fst snd l ∅)) =
  if decide (no_nil_values m) then Ret (g <$> omap id m) else Panic nil_deref.
Proof.
  pose proof (map_outcome_listed g (map_order m)) as Hl.
  destruct (map_outcome _ _) as [l|why]; simpl; rewrite no_nil_values_order in Hl.
  - destruct Hl as [Hm Hl]. rewrite decide_True by done. f_equal. apply map_eq. intros k.
    rewrite lookup_insert_all, lookup_fmap, lookup_omap, lookup_empty.
    assert (last_with fst k (map_order m) = (λ p, (k, p)) <$> m !! k) as E.
    { destruct (m !! k) as [p|] eqn:Ek; simpl.
      - apply last_with_unique; [by apply elem_of_map_order|done|].
        intros [k' p'] Hin%elem_of_map_order ?. by simplify_eq/=.
      - apply last_with_None. intros [k' p'] Hin%elem_of_map_order ?. by simplify_eq/=. }
    specialize (Hl k). rewrite E in Hl. destruct (m !! k) as [p|]; simpl in *; destruct (last_with fst k l); by simplify_eq/=.
  - destruct Hl as [-> Hn]. by rewrite decide_False.
Qed.

(** What the listing calls answer. *)
Section lists.
Context {R M A : Type} `{!routesRepoInterface R} `{!routeMappingsRepoInterface M}.
Context `{!capiDiegoProcessAssociationsRepoInterface A} `{MapOrder} `{GoSyntax}.

Lemma perform_ListCfRouteMappings (c : CAPI R M A) r :
  perform c (CListCfRouteMappings r) =
  let '(m, l) := mappings_List (capi_mappings c) in
  if decide (no_nil_values l)
  then Ret (with_mappings c m, inr (mkListCfRouteMappingsResponse (from_model_mapping <$> omap id l)))
  else Panic nil_deref.
Proof.
  simpl. unfold ListCfRouteMappings. destruct (mappings_List _) as [m l].
  pose proof (listing from_model_mapping l) as Hl. unfold from_model_mapping at 1 in Hl.
  destruct (map_outcome _ _) as [l'|why]; simpl in Hl |- *; case_decide; congruence.
Qed.
Lemma perform_ListAssociations (c : CAPI R M A) r :
  perform c (CListAssociations r) =
  let '(a, l) := associations_List (capi_associations c) in
  if decide (no_nil_values l)
  then Ret (with_associations c a, inr (mkListAssociationsResponse
         ((λ guids, mkDiegoProcessGuids (ToStringSlice guids)) <$> omap id l)))
  else Panic nil_deref.
Proof.
  simpl. unfold ListCapiDiegoProcessAssociations. destruct (associations_List _) as [a l].
  pose proof (listing (λ guids, mkDiegoProcessGuids (ToStringSlice guids)) l) as Hl.
  destruct (map_outcome _ _) as [l'|why]; simpl in Hl |- *; case_decide; congruence.
Qed.
End lists.

(** The server's repositories hold no nil, so none of its handlers panics. *)
Lemma no_nil_Some {V} (m : gmap string V) : no_nil_values (Some <$> m).
Proof. intros k p. rewrite lookup_fmap. destruct (m !! k); [|done]. intros [= <-]. eauto. Qed.

Lemma perform_returns `{MapOrder} `{FloatToInt} `{GoSyntax} (c : server_capi) {t} (q : capi_call t) :
  wf_call q → ∃ c' out, perform c q = Ret (c', out).
Proof.
  intros Hwf. unfold wf_call in Hwf. destruct (writing q) as [[r ack]|] eqn:E.
  - pose proof (perform_branches c q r ack E Hwf) as Hb. destruct (request_op r); [eauto|destruct Hb; eauto].
  - destruct q; try discriminate E.
    + simpl. eauto.
    + rewrite perform_ListCfRouteMappings. simpl. rewrite decide_True by apply no_nil_Some. eauto.
    + rewrite perform_ListAssociations. simpl. rewrite decide_True by apply no_nil_Some. eauto.
    + simpl. eauto.
Qed.

Lemma apply_repo_op_valid `{MapOrder} `{FloatToInt} (c : server_capi) r o :
  wf_request r → request_op r = Some o → valid_capi c → valid_capi (apply_repo_op c o).
Proof.
  unfold valid_capi, Routes.Get, Associations.Get. intros Hwf Ho (Hr & Hm & Ha).
  destruct r as [[[rt|]]|[guid]|[[rm|]]|[[rm|]]|[[a|]]|[guid]]; simpl in *; try done;
    case_decide as E; simplify_eq; split_and!; try done; simpl.
  - intros guid r. rewrite lookup_insert. case_decide; [|eauto]. intros ?; simplify_eq/=. naive_solver.
  - intros g r. rewrite lookup_delete. case_decide; [done|eauto].
  - intros k rm'. rewrite lookup_insert. case_decide; [|eauto]. intros ?; simplify_eq/=.
    unfold valid_weight. naive_solver.
  - intros k rm'. rewrite lookup_delete. case_decide; [done|eauto].
  - intros g a'. rewrite lookup_insert. case_decide; [|eauto]. intros ?; simplify_eq/=. naive_solver.
  - intros g a'. rewrite lookup_delete. case_decide; [done|eauto].
Qed.

Lemma handle_all_refines `{GoSyntax} `{MapOrder} `{FloatToInt} c rs :
  Forall wf_request rs → valid_capi c →
  handle_all c rs = Ret (foldl apply_repo_op c (omap request_op rs)) ∧
  valid_capi (foldl apply_repo_op c (omap request_op rs)).
Proof.
  intros Hwf. revert c; induction Hwf as [|r rs Hr Hwf IH]; intros c Hc; [done|].
  unfold handle_all in *. simpl. pose proof (handle_branches c r Hr) as Hb.
  destruct (request_op r) as [o|] eqn:Eo; simpl.
  - rewrite Hb. simpl. apply IH. by apply (apply_repo_op_valid c r).
  - destruct Hb as [msg ->]. simpl. by apply IH.
Qed.

Lemma empty_capi_valid : valid_capi empty_capi.
Proof.
  split_and!; unfold Routes.Get, Associations.Get; simpl; intros ??; by rewrite lookup_empty.
Qed.

(** Messages without nil entries, as decoding produces them. *)
Definition no_nil (request : BulkSyncRequest) : Prop :=
  Forall is_Some (elems (Api.RouteMappings request)) ∧
  Forall is_Some (elems (Api.CapiDiegoProcessAssociations request)).

(** The three calls of a bulk sync. *)
Definition after_sync {R M A} `{!routesRepoInterface R} `{!routeMappingsRepoInterface M}
    `{!capiDiegoProcessAssociationsRepoInterface A} (c : CAPI R M A) (request : BulkSyncRequest)
    : CAPI R M A :=
  mkCAPI
    (routes_Sync (capi_routes c) (sync_route <$> elems (Api.Routes request)))
    (mappings_Sync (capi_mappings c)
       (to_model_mapping <$> omap id (elems (Api.RouteMappings request))))
    (associations_Sync (capi_associations c)
       ((λ a, mkAssociation (Api.Association.CapiProcessGuid a)
                (Sl (elems (Api.Association.DiegoProcessGuids a)))) <$>
        omap id (elems (Api.CapiDiegoProcessAssociations request)))).

(** The repositories a bulk sync leaves, whatever they were before. *)
Definition bulk_state `{MapOrder} `{FloatToInt} (request : BulkSyncRequest) : server_capi :=
  after_sync empty_capi request.

Lemma map_outcome_deref {A B} (f : A → B) (l : list (option A)) :
  Forall is_Some l →
  map_outcome (λ o, a ← deref o; Ret (f a)) l = Ret (f <$> omap id l).
Proof.
  induction 1 as [|o l [a ->] _ IH]; [done|].
  change (omap id (Some a :: l)) with (a :: omap id l). simpl in *. by rewrite IH.
Qed.

Section bulk_lemmas.
Context {R M A : Type} `{!routesRepoInterface R} `{!routeMappingsRepoInterface M}.
Context `{!capiDiegoProcessAssociationsRepoInterface A}.

Lemma syncRequest_spec (c : CAPI R M A) request :
  no_nil request → syncRequest c request = Ret (after_sync c request).
Proof.
  intros [H1 H2]. unfold syncRequest, sync_mapping, sync_association.
  rewrite (map_outcome_deref to_model_mapping) by done. simpl.
  rewrite (map_outcome_deref (λ a, mkAssociation _ _)) by done. done.
Qed.

Lemma bulk_loop_spec unmarshal send (c : CAPI R M A) acc s :
  (∀ bytes request, unmarshal bytes = inr request → no_nil request) →
  bulk_loop unmarshal send c acc s =
  match stream_end s with
  | Some err => Ret (c, Some err)
  | None =>
      let bytes := acc ++ stream_bytes s in
      match (if (length bytes =? 0)%nat then inr empty_bulk_sync else unmarshal bytes) with
      | inl err => Ret (c, Some err)
      | inr request =>
          Ret (after_sync c request, send (mkBulkSyncResponse (i32 (Z.of_nat (length bytes)))))
      end
  end.
Proof.
  intros Hu. revert acc; induction s as [chunk rest IH| |err]; intros acc; simpl.
  - rewrite IH. destruct (stream_end rest); [done|]. by rewrite <-app_assoc.
  - rewrite app_nil_r. destruct (length acc =? 0)%nat.
    + rewrite syncRequest_spec by (split; constructor). done.
    + destruct (unmarshal acc) as [|request] eqn:E; [done|].
      rewrite syncRequest_spec by eauto. done.
  - done.
Qed.
End bulk_lemmas.

(** ** Properties *)

(** C36. Every unary handler implements its contract over any repositories, on every
    branch.  A valid writing request makes exactly the one method call it asks for and is
    answered with its empty message; an invalid one calls nothing and answers
    [InvalidArgument].  A listing calls [List] and nothing else, and answers with what
    every entry points to, in whatever order the map is walked; it panics exactly on a
    nil among them.  The resolver asks for the name without its trailing dots, and
    answers with the address or with an error that quotes the name.  Both health checks
    answer healthy.  Over the server's repositories, which hold no nil, no handler
    panics. *)
Theorem handlers_implement_contract {R M A V} `{!routesRepoInterface R} `{!routeMappingsRepoInterface M}
    `{!capiDiegoProcessAssociationsRepoInterface A} `{!routesRepoVIPResolverInterface V} `{GoSyntax}
    `{MapOrder} `{FloatToInt} (c : CAPI R M A) (b : VIPResolver V) :
  (∀ t (q : capi_call t) r ack, writing q = Some (r, ack) → wf_request r →
     match request_op r with
     | Some o => perform c q = Ret (apply_repo_op c o, inr ack)
     | None => ∃ msg, perform c q = Ret (c, inl (InvalidArgument msg))
     end) ∧
  (∀ r, let '(rs, l) := routes_List (capi_routes c) in
     perform c (CListCfRoutes r) = Ret (with_routes c rs, inr (mkListCfRoutesResponse l))) ∧
  (∀ r, let '(ms, l) := mappings_List (capi_mappings c) in
     perform c (CListCfRouteMappings r) =
     if decide (no_nil_values l)
     then Ret (with_mappings c ms, inr (mkListCfRouteMappingsResponse (from_model_mapping <$> omap id l)))
     else Panic nil_deref) ∧
  (∀ r, let '(a, l) := associations_List (capi_associations c) in
     perform c (CListAssociations r) =
     if decide (no_nil_values l)
     then Ret (with_associations c a, inr (mkListAssociationsResponse
            ((λ guids, mkDiegoProcessGuids (ToStringSlice guids)) <$> omap id l)))
     else Panic nil_deref) ∧
  (∀ r, perform c (CHealth r) = Ret (c, inr (mkHealthResponse true))) ∧
  (∀ name n, let '(v, (ip, ok)) := resolve_GetVIPByName (resolver_routes b) (TrimRight name "."%char) in
     GetVIPByName b (mkGetVIPByNameRequest (name +:+ dots n)) =
     (mkVIPResolver v, if ok then inr (mkGetVIPByNameResponse ip)
                       else inl (PlainError ("route doesn't exist: " +:+ name +:+ dots n)))) ∧
  VIPResolver_Health = mkHealthResponse true ∧
  (∀ (c : server_capi) t (q : capi_call t), wf_call q → ∃ c' out, perform c q = Ret (c', out)).
Proof.
  split; [intros t q r ack Hq Hwf; by apply perform_branches|].
  split; [intros r; simpl; unfold ListCfRoutes; by destruct (routes_List _)|].
  split; [intros r; rewrite perform_ListCfRouteMappings; by destruct (mappings_List _)|].
  split; [intros r; rewrite perform_ListAssociations; by destruct (associations_List _)|].
  split; [done|]. split; [|split; [done|intros c0 t q; apply perform_returns]].
  intros name n. unfold GetVIPByName. simpl. rewrite TrimRight_app_dots.
  by destruct (resolve_GetVIPByName _ _) as [v [ip ok]].
Qed.

Definition w_syntax : GoSyntax := λ _ _, "&api.Request{}".
Definition w_map_request : request :=
  RMapRoute (mkMapRouteRequest (Some (Api.RouteMapping.mk "p1" "r1" 128))).

#[local] Existing Instances w_syntax asc_order amd64.

(** A mapping, and a listing of it. *)
Definition w_mapped : server_capi :=
  with_mappings empty_capi (Map NewRouteMappingsRepo (mkRouteMapping "r1" "p1" 128)).

Lemma handlers_implement_contract_witness :
  perform empty_capi (CMapRoute (mkMapRouteRequest (Some (Api.RouteMapping.mk "p1" "r1" 128)))) =
    Ret (w_mapped, inr mkMapRouteResponse) ∧
  perform w_mapped (CListCfRouteMappings mkListCfRouteMappingsRequest) =
    Ret (w_mapped, inr (mkListCfRouteMappingsResponse
      {["r1-p1" := Api.RouteMapping.mk "p1" "r1" 128]})).
Proof.
  split.
  - exact (proj1 (handlers_implement_contract empty_capi (mkVIPResolver NewRoutesRepo)) _
      (CMapRoute (mkMapRouteRequest (Some (Api.RouteMapping.mk "p1" "r1" 128)))) w_map_request
      mkMapRouteResponse eq_refl ltac:(simpl; lia)).
  - pose proof (proj1 (proj2 (proj2 (handlers_implement_contract w_mapped (mkVIPResolver NewRoutesRepo))))
      mkListCfRouteMappingsRequest) as Hl. vm_compute in Hl |- *. exact Hl.
Defined.

(** From empty repositories, every history of unary requests runs without a
    panic, has exactly the effect of the repository operations of its valid
    requests in order, and leaves only valid data behind: routes under their own
    non-empty GUIDs with a host, mappings between non-empty GUIDs with weights in
    [1..128], and associations with at least one Diego process. *)
Theorem unary_history_valid `{GoSyntax} `{MapOrder} `{FloatToInt} (rs : list request) (Hwf : Forall wf_request rs) :
  ∃ c, handle_all empty_capi rs = Ret c ∧
    c = foldl apply_repo_op empty_capi (omap request_op rs) ∧ valid_capi c.
Proof.
  destruct (handle_all_refines empty_capi rs Hwf empty_capi_valid) as [-> Hv]. eauto.
Qed.

Definition w_history : list request :=
  [w_map_request; RDeleteRoute (mkDeleteRouteRequest "");
   RUpsertRoute (mkUpsertRouteRequest (Some (Api.Route.mk "r1" "a.example.com" "" false "")))].

Lemma unary_history_valid_witness :
  ∃ c, handle_all empty_capi w_history = Ret c ∧
    c = foldl apply_repo_op empty_capi (omap request_op w_history) ∧ valid_capi c.
Proof. apply (unary_history_valid w_history). repeat constructor; discriminate. Defined.

(** [BulkSync] is atomic towards errors and blind to chunking: when the stream
    breaks off or its bytes do not decode, nothing changes and that error is
    returned; otherwise the repositories become those of the decoded request
    alone, whatever they were and however the bytes were cut, and the answer
    counts the bytes in an [int32].  A stream without bytes is the empty request
    and empties the repositories. *)
Theorem BulkSync_correct `{MapOrder} `{FloatToInt} (unmarshal : list Byte.byte → error + BulkSyncRequest)
    (send : BulkSyncResponse → option error) (c : server_capi) (s : stream)
    (Hdecode : ∀ bytes request, unmarshal bytes = inr request → no_nil request) :
  BulkSync unmarshal send c s =
  match stream_end s with
  | Some err => Ret (c, Some err)
  | None =>
      match (if (length (stream_bytes s) =? 0)%nat then inr empty_bulk_sync
             else unmarshal (stream_bytes s)) with
      | inl err => Ret (c, Some err)
      | inr request =>
          Ret (bulk_state request,
               send (mkBulkSyncResponse (i32 (Z.of_nat (length (stream_bytes s))))))
      end
  end.
Proof. unfold BulkSync. by rewrite bulk_loop_spec by done. Qed.

Definition w_bulk : BulkSyncRequest := mkBulkSyncRequest
  (Sl [Some (Api.RouteMapping.mk "p1" "" 0)]) (Sl [Some (Api.Route.mk "" "h" "" false "10.0.0.1")]) Nil.
Definition w_unmarshal (bytes : list Byte.byte) : error + BulkSyncRequest :=
  match bytes with
  | [Byte.x01; Byte.x02] => inr w_bulk
  | _ => inl (PlainError "unexpected EOF")
  end.
Definition w_stream : stream :=
  SChunk (mkBulkSyncRequestChunk (Sl [Byte.x01])) (SChunk (mkBulkSyncRequestChunk (Sl [Byte.x02])) SEof).

Lemma BulkSync_correct_witness :
  BulkSync w_unmarshal (λ _, None) empty_capi w_stream = Ret (bulk_state w_bulk, None).
Proof.
  apply (BulkSync_correct w_unmarshal (λ _, None) empty_capi w_stream).
  intros bytes request Hb. unfold w_unmarshal in Hb.
  repeat case_match_in Hb; simplify_eq. repeat constructor; eauto.
Defined.

(** [BulkSync] validates nothing: a decoded request with an empty route GUID
    and a zero weight is accepted, after which the repositories are invalid,
    every unknown host resolves to that route's VIP, and on amd64 the weight of
    the mapping, a zero over a zero, is reported as [-2^31]. *)
Theorem BulkSync_accepts_invalid :
  ∃ c, BulkSync w_unmarshal (λ _, None) empty_capi w_stream = Ret (c, None) ∧
    ¬ valid_capi c ∧
    Routes.GetVIPByName (capi_routes c) "no.such.host" = ("10.0.0.1", true) ∧
    @GetCalculatedWeight amd64 (capi_mappings c) (mkRouteMapping "" "p1" 0) = (- 2 ^ 31)%Z.
Proof.
  eexists. split; [vm_compute; reflexivity|]. split_and!; try (vm_compute; reflexivity).
  intros (Hr & _). by destruct (Hr "" (mkRoute "" "h" "" false "10.0.0.1") eq_refl) as (_ & [] & _).
Qed.

(** The resolver answers for a fully qualified name exactly what the routes
    repository answers for the name without its trailing dots, so a name and the
    name with any number of dots appended resolve alike, and a name that is not
    found is an error that quotes it; the repository is not changed. *)
Theorem resolver_correct (b : VIPResolver RoutesRepo) (name : string) (n : nat) :
  (∀ ip, (GetVIPByName b (mkGetVIPByNameRequest (name +:+ dots n))).2 = inr (mkGetVIPByNameResponse ip) ↔
         Routes.GetVIPByName (resolver_routes b) (TrimRight name "."%char) = (ip, true)) ∧
  ((GetVIPByName b (mkGetVIPByNameRequest name)).2 =
     inl (PlainError ("route doesn't exist: " +:+ name)) ↔
   (Routes.GetVIPByName (resolver_routes b) (TrimRight name "."%char)).2 = false) ∧
  (GetVIPByName b (mkGetVIPByNameRequest name)).1 = b.
Proof.
  unfold GetVIPByName, resolve_GetVIPByName, RoutesRepo_resolves. simpl. rewrite TrimRight_app_dots.
  destruct b as [r]. simpl. destruct (Routes.GetVIPByName r _) as [ip [|]]; simpl; naive_solver.
Qed.
