(* ===== verification/Wire.v ===== *)
(** * The generated service code ([api/*.pb.go])

    How a call of a client stub reaches a handler: the stub encodes its request and
    invokes a method by name, the server looks the method up in the service
    description, decodes the request into a fresh message and calls the handler,
    through an interceptor when the server has one.  Encoding messages is the
    protobuf library's, a parameter with its round-trip law. *)
From S2P Require Import Prelude GoStrings GoFloat Routes RouteMappings Associations Api Handlers.

(** The messages without fields. *)
Definition fieldless (t : mtype) : bool :=
  match t with
  | TListCfRoutesRequest | TListCfRouteMappingsRequest | TListAssociationsRequest
  | TUpsertRouteResponse | TDeleteRouteResponse | TMapRouteResponse | TUnmapRouteResponse
  | TUpsertAssociationResponse | TDeleteAssociationResponse | THealthRequest => true
  | _ => false
  end.

(** The protobuf library: a message in the form that decoding gives (strings in
    UTF-8, empty slices nil, no nil pointers in slices) encodes, and decodes to
    itself; a message without fields has that form. *)
Class Codec := {
  encode : ∀ t, msg t → error + list Byte.byte;
  decode : ∀ t, list Byte.byte → error + msg t;
  wire_form : ∀ t, msg t → Prop;
  encode_decode t m : wire_form t m → ∃ bs, encode t m = inr bs ∧ decode t bs = inr m;
  empty_wire t (m : msg t) : fieldless t = true →
    wire_form t m;
}.

(** ** The server side *)
(** The result of a handler on a state of type [S]. *)
Notation result S t := (outcome (S * (error + msg t))).

(** [grpc.UnaryServerInterceptor], for one method: it gets the method's name and
    the rest of the call. *)
Notation interceptor S ti to :=
  (option (string → (S → msg ti → result S to) → S → msg ti → result S to)).

(** A method of a service: its generated handler decodes, then calls. *)
Record MethodDesc (S : Type) := mkMethod {
  MethodName : string; t_in : mtype; t_out : mtype;
  serve : S → msg t_in → result S t_out;
}.
Arguments mkMethod {S}.
Arguments MethodName {S}.
Arguments t_in {S}.
Arguments t_out {S}.
Arguments serve {S}.

Section server.
Context `{Codec} {S : Type}.

Definition Handler (service : string) (d : MethodDesc S) (i : interceptor S (t_in d) (t_out d))
    (srv : S) (bytes : list Byte.byte) : result S (t_out d) :=
  match decode (t_in d) bytes with
  | inl err => Ret (srv, inl err)
  | inr input =>
      match i with
      | None => serve d srv input
      | Some i => i ("/" +:+ service +:+ "/" +:+ MethodName d) (serve d) srv input
      end
  end.

(** The look-up of a method by its full name; [None] is left to the library,
    which answers that the method is unknown. *)
Fixpoint find_method (service : string) (methods : list (MethodDesc S)) (fullMethod : string)
    : option (MethodDesc S) :=
  match methods with
  | [] => None
  | d :: methods =>
      if decide ("/" +:+ service +:+ "/" +:+ MethodName d = fullMethod) then Some d
      else find_method service methods fullMethod
  end.

(** A request on a server without interceptors, as the program starts them. *)
Definition dispatch (service : string) (methods : list (MethodDesc S)) (srv : S)
    (fullMethod : string) (bytes : list Byte.byte)
    : option (outcome (S * (error + list Byte.byte))) :=
  d ← find_method service methods fullMethod;
  Some (r ← Handler service d None srv bytes;
        let '(srv, out) := r in
        Ret (srv, match out with inl err => inl err | inr m => encode (t_out d) m end)).

(** ** The client side *)
(** [Invoke] of a stub over such a server. *)
Definition Invoke (service : string) (methods : list (MethodDesc S)) (srv : S)
    (fullMethod : string) (ti to : mtype) (input : msg ti) : option (result S to) :=
  match encode ti input with
  | inl err => Some (Ret (srv, inl err))
  | inr bytes =>
      reply ← dispatch service methods srv fullMethod bytes;
      Some (r ← reply;
            let '(srv, out) := r in
            Ret (srv, match out with inl err => inl err | inr bs => decode to bs end))
  end.
End server.

(** ** The two services *)
Section services.
Context `{MapOrder} `{GoSyntax}.
Context {R M A : Type} `{!routesRepoInterface R} `{!routeMappingsRepoInterface M}.
Context `{!capiDiegoProcessAssociationsRepoInterface A}.
Context {V : Type} `{!routesRepoVIPResolverInterface V}.

Definition ListCfRoutes_Method : MethodDesc (CAPI R M A) :=
  mkMethod "ListCfRoutes" TListCfRoutesRequest TListCfRoutesResponse
    (λ c _, let '(c, r) := ListCfRoutes c in Ret (c, inr r)).
Definition ListCfRouteMappings_Method : MethodDesc (CAPI R M A) :=
  mkMethod "ListCfRouteMappings" TListCfRouteMappingsRequest TListCfRouteMappingsResponse
    (λ c _, x ← ListCfRouteMappings c; Ret (x.1, inr x.2)).
Definition ListCapiDiegoProcessAssociations_Method : MethodDesc (CAPI R M A) :=
  mkMethod "ListCapiDiegoProcessAssociations" TListAssociationsRequest TListAssociationsResponse
    (λ c _, x ← ListCapiDiegoProcessAssociations c; Ret (x.1, inr x.2)).
Definition UpsertRoute_Method : MethodDesc (CAPI R M A) :=
  mkMethod "UpsertRoute" TUpsertRouteRequest TUpsertRouteResponse UpsertRoute.
Definition DeleteRoute_Method : MethodDesc (CAPI R M A) :=
  mkMethod "DeleteRoute" TDeleteRouteRequest TDeleteRouteResponse DeleteRoute.
Definition MapRoute_Method : MethodDesc (CAPI R M A) :=
  mkMethod "MapRoute" TMapRouteRequest TMapRouteResponse MapRoute.
Definition UnmapRoute_Method : MethodDesc (CAPI R M A) :=
  mkMethod "UnmapRoute" TUnmapRouteRequest TUnmapRouteResponse UnmapRoute.
Definition UpsertCapiDiegoProcessAssociation_Method : MethodDesc (CAPI R M A) :=
  mkMethod "UpsertCapiDiegoProcessAssociation" TUpsertAssociationRequest TUpsertAssociationResponse UpsertCapiDiegoProcessAssociation.
Definition DeleteCapiDiegoProcessAssociation_Method : MethodDesc (CAPI R M A) :=
  mkMethod "DeleteCapiDiegoProcessAssociation" TDeleteAssociationRequest TDeleteAssociationResponse DeleteCapiDiegoProcessAssociation.
Definition Health_Method {S : Type} : MethodDesc S :=
  mkMethod "Health" THealthRequest THealthResponse (λ c _, Ret (c, inr Health)).

Definition CloudControllerCopilot : string := "api.CloudControllerCopilot".
Definition CloudControllerCopilot_methods : list (MethodDesc (CAPI R M A)) := [
  ListCfRoutes_Method; ListCfRouteMappings_Method; ListCapiDiegoProcessAssociations_Method;
  UpsertRoute_Method; DeleteRoute_Method; MapRoute_Method; UnmapRoute_Method;
  UpsertCapiDiegoProcessAssociation_Method; DeleteCapiDiegoProcessAssociation_Method;
  Health_Method].

Definition GetVIPByName_Method : MethodDesc (VIPResolver V) :=
  mkMethod "GetVIPByName" TGetVIPByNameRequest TGetVIPByNameResponse
    (λ r input, Ret (Handlers.GetVIPByName r input)).
Definition VIPResolver_Health_Method : MethodDesc (VIPResolver V) :=
  mkMethod "Health" THealthRequest THealthResponse (λ b _, Ret (b, inr VIPResolver_Health)).
Definition VIPResolverCopilot : string := "api.VIPResolverCopilot".
Definition VIPResolverCopilot_methods : list (MethodDesc (VIPResolver V)) := [
  GetVIPByName_Method; VIPResolver_Health_Method].
End services.

(** ** The client stubs *)
(** A stub hands its request to its connection, whose [Invoke] takes the full name of
    the method and the types of both messages. *)
Section stubs.
Context {Reply : mtype → Type}.
Context (cc_Invoke : ∀ (method : string) (ti to : mtype), msg ti → Reply to).

Definition client_ListCfRoutes (input : ListCfRoutesRequest) :=
  cc_Invoke "/api.CloudControllerCopilot/ListCfRoutes" TListCfRoutesRequest TListCfRoutesResponse input.
Definition client_ListCfRouteMappings (input : ListCfRouteMappingsRequest) :=
  cc_Invoke "/api.CloudControllerCopilot/ListCfRouteMappings"
    TListCfRouteMappingsRequest TListCfRouteMappingsResponse input.
Definition client_ListCapiDiegoProcessAssociations
    (input : ListCapiDiegoProcessAssociationsRequest) :=
  cc_Invoke "/api.CloudControllerCopilot/ListCapiDiegoProcessAssociations"
    TListAssociationsRequest TListAssociationsResponse input.
Definition client_UpsertRoute (input : UpsertRouteRequest) :=
  cc_Invoke "/api.CloudControllerCopilot/UpsertRoute" TUpsertRouteRequest TUpsertRouteResponse input.
Definition client_DeleteRoute (input : DeleteRouteRequest) :=
  cc_Invoke "/api.CloudControllerCopilot/DeleteRoute" TDeleteRouteRequest TDeleteRouteResponse input.
Definition client_MapRoute (input : MapRouteRequest) :=
  cc_Invoke "/api.CloudControllerCopilot/MapRoute" TMapRouteRequest TMapRouteResponse input.
Definition client_UnmapRoute (input : UnmapRouteRequest) :=
  cc_Invoke "/api.CloudControllerCopilot/UnmapRoute" TUnmapRouteRequest TUnmapRouteResponse input.
Definition client_UpsertCapiDiegoProcessAssociation
    (input : UpsertCapiDiegoProcessAssociationRequest) :=
  cc_Invoke "/api.CloudControllerCopilot/UpsertCapiDiegoProcessAssociation"
    TUpsertAssociationRequest TUpsertAssociationResponse input.
Definition client_DeleteCapiDiegoProcessAssociation
    (input : DeleteCapiDiegoProcessAssociationRequest) :=
  cc_Invoke "/api.CloudControllerCopilot/DeleteCapiDiegoProcessAssociation"
    TDeleteAssociationRequest TDeleteAssociationResponse input.
Definition client_Health (input : HealthRequest) :=
  cc_Invoke "/api.CloudControllerCopilot/Health" THealthRequest THealthResponse input.
Definition client_GetVIPByName (input : GetVIPByNameRequest) :=
  cc_Invoke "/api.VIPResolverCopilot/GetVIPByName" TGetVIPByNameRequest TGetVIPByNameResponse input.
Definition client_VIPHealth (input : HealthRequest) :=
  cc_Invoke "/api.VIPResolverCopilot/Health" THealthRequest THealthResponse input.
End stubs.

(** ** Specification *)
(** Connections that carry the bytes to the server and back, and nothing else. *)
Section direct.
Context `{Codec} `{MapOrder} `{GoSyntax}.
Context {R M A : Type} `{!routesRepoInterface R} `{!routeMappingsRepoInterface M}.
Context `{!capiDiegoProcessAssociationsRepoInterface A}.
Context {V : Type} `{!routesRepoVIPResolverInterface V}.

Definition cc_call (c : CAPI R M A) (method : string) (ti to : mtype) (input : msg ti)
    : option (result (CAPI R M A) to) :=
  Invoke CloudControllerCopilot CloudControllerCopilot_methods c method ti to input.
Definition vip_call (r : VIPResolver V) (method : string) (ti to : mtype) (input : msg ti)
    : option (result (VIPResolver V) to) :=
  Invoke VIPResolverCopilot VIPResolverCopilot_methods r method ti to input.
End direct.

(** A unary call of the Cloud Controller's service: its request, its stub and its method. *)
Definition call_input {t} (q : capi_call t) : { ti & msg ti } :=
  match q with
  | CListCfRoutes r => existT TListCfRoutesRequest r
  | CListCfRouteMappings r => existT TListCfRouteMappingsRequest r
  | CListAssociations r => existT TListAssociationsRequest r
  | CUpsertRoute r => existT TUpsertRouteRequest r
  | CDeleteRoute r => existT TDeleteRouteRequest r
  | CMapRoute r => existT TMapRouteRequest r
  | CUnmapRoute r => existT TUnmapRouteRequest r
  | CUpsertAssociation r => existT TUpsertAssociationRequest r
  | CDeleteAssociation r => existT TDeleteAssociationRequest r
  | CHealth r => existT THealthRequest r
  end.

Definition stub_call {Reply : mtype → Type}
    (cc_Invoke : ∀ (method : string) (ti to : mtype), msg ti → Reply to) {t} (q : capi_call t) : Reply t :=
  match q with
  | CListCfRoutes r => client_ListCfRoutes cc_Invoke r
  | CListCfRouteMappings r => client_ListCfRouteMappings cc_Invoke r
  | CListAssociations r => client_ListCapiDiegoProcessAssociations cc_Invoke r
  | CUpsertRoute r => client_UpsertRoute cc_Invoke r
  | CDeleteRoute r => client_DeleteRoute cc_Invoke r
  | CMapRoute r => client_MapRoute cc_Invoke r
  | CUnmapRoute r => client_UnmapRoute cc_Invoke r
  | CUpsertAssociation r => client_UpsertCapiDiegoProcessAssociation cc_Invoke r
  | CDeleteAssociation r => client_DeleteCapiDiegoProcessAssociation cc_Invoke r
  | CHealth r => client_Health cc_Invoke r
  end.

Definition call_wire_form `{Codec} {t} (q : capi_call t) : Prop :=
  wire_form (projT1 (call_input q)) (projT2 (call_input q)).

(** ** Lemmas *)
(** The whole way of one call, when the method is found and its reply encodes. *)
Lemma Invoke_found `{Codec} {S} service methods (srv : S) (d : MethodDesc S) input :
  find_method service methods ("/" +:+ service +:+ "/" +:+ MethodName d) = Some d →
  wire_form (t_in d) input →
  (∀ srv' out, serve d srv input = Ret (srv', inr out) → wire_form (t_out d) out) →
  Invoke service methods srv ("/" +:+ service +:+ "/" +:+ MethodName d) (t_in d) (t_out d) input =
  Some (serve d srv input).
Proof.
  intros Hf Hin Hout. unfold Invoke, dispatch, Handler.
  destruct (encode_decode _ _ Hin) as (bs & -> & Hd). rewrite Hf. simpl. rewrite Hd. f_equal.
  destruct (serve d srv input) as [[srv' [err|out]]|why] eqn:E; simpl; [done| |done].
  destruct (encode_decode _ _ (Hout srv' out eq_refl)) as (bs' & -> & Hd'). by rewrite Hd'.
Qed.

(** Each stub names the method that performs its call: what holds of every method that
    is found holds of the stub. *)
Lemma stub_call_by_method {R M A} `{!routesRepoInterface R} `{!routeMappingsRepoInterface M}
    `{!capiDiegoProcessAssociationsRepoInterface A} `{MapOrder} `{GoSyntax} {Reply : mtype → Type}
    (cc_Invoke : ∀ (method : string) (ti to : mtype), msg ti → Reply to) (c : CAPI R M A)
    {t} (q : capi_call t) (Q : ∀ t, Reply t → outcome (CAPI R M A * (error + msg t)) → Prop) :
  (∀ d input, find_method CloudControllerCopilot CloudControllerCopilot_methods
       ("/" +:+ CloudControllerCopilot +:+ "/" +:+ MethodName d) = Some d →
     existT (t_in d) input = call_input q →
     existT (P := λ t, outcome (CAPI R M A * (error + msg t))) (t_out d) (serve d c input) =
       existT t (perform c q) →
     Q (t_out d) (cc_Invoke ("/" +:+ CloudControllerCopilot +:+ "/" +:+ MethodName d) (t_in d) (t_out d) input)
       (serve d c input)) →
  Q t (stub_call cc_Invoke q) (perform c q).
Proof.
  intros HQ. destruct q.
  - by apply (HQ ListCfRoutes_Method).
  - by apply (HQ ListCfRouteMappings_Method).
  - by apply (HQ ListCapiDiegoProcessAssociations_Method).
  - by apply (HQ UpsertRoute_Method).
  - by apply (HQ DeleteRoute_Method).
  - by apply (HQ MapRoute_Method).
  - by apply (HQ UnmapRoute_Method).
  - by apply (HQ UpsertCapiDiegoProcessAssociation_Method).
  - by apply (HQ DeleteCapiDiegoProcessAssociation_Method).
  - by apply (HQ Health_Method).
Qed.

(** ** Properties *)

(** Between a client and the handlers nothing is lost: a unary call that the wire can
    carry both ways, sent through its stub, is decoded, dispatched to its own handler and
    answered with that handler's message, outcome and effect on the repositories; so is a
    name looked up through the resolver's stub. *)
Theorem calls_reach_handlers {R M A V} `{!routesRepoInterface R} `{!routeMappingsRepoInterface M}
    `{!capiDiegoProcessAssociationsRepoInterface A} `{!routesRepoVIPResolverInterface V}
    `{Codec} `{MapOrder} `{GoSyntax} (c : CAPI R M A) {t} (q : capi_call t)
    (b : VIPResolver V) (vip : GetVIPByNameRequest)
    (Hq : call_wire_form q) (Hreply : ∀ c' out, perform c q = Ret (c', inr out) → wire_form t out)
    (Hvip : wire_form TGetVIPByNameRequest vip)
    (Hip : ∀ out, (Handlers.GetVIPByName b vip).2 = inr out → wire_form TGetVIPByNameResponse out) :
  stub_call (cc_call c) q = Some (perform c q) ∧
  client_GetVIPByName (vip_call b) vip = Some (Ret (Handlers.GetVIPByName b vip)).
Proof.
  split.
  - revert Hreply. apply (stub_call_by_method (cc_call c) c q (λ t reply out,
      (∀ c' m, out = Ret (c', inr m) → wire_form t m) → reply = Some out)).
    intros d input Hf Hi _ Hout. apply Invoke_found; [done| |done].
    unfold call_wire_form in Hq. by rewrite <-Hi in Hq.
  - apply (Invoke_found VIPResolverCopilot VIPResolverCopilot_methods b GetVIPByName_Method vip);
      [reflexivity|done|]. intros r' out [= E]. apply Hip. by rewrite E.
Qed.

(** A codec for the messages that hold one string or nothing. *)
Definition w_encode (t : mtype) : msg t → error + list Byte.byte :=
  match t with
  | TDeleteRouteRequest => λ m, inr (String.list_byte_of_string (drGuid m))
  | TGetVIPByNameRequest => λ m, inr (String.list_byte_of_string (Fqdn m))
  | TGetVIPByNameResponse => λ m, inr (String.list_byte_of_string (Ip m))
  | THealthResponse => λ m, inr (if Healthy m then [Byte.x01] else [])
  | t => λ _, if fieldless t then inr [] else inl (PlainError "unsupported")
  end.
Definition w_decode (t : mtype) (bs : list Byte.byte) : error + msg t :=
  match t return error + msg t with
  | TDeleteRouteRequest => inr (mkDeleteRouteRequest (String.string_of_list_byte bs))
  | TGetVIPByNameRequest => inr (mkGetVIPByNameRequest (String.string_of_list_byte bs))
  | TGetVIPByNameResponse => inr (mkGetVIPByNameResponse (String.string_of_list_byte bs))
  | THealthResponse => inr (mkHealthResponse (match bs with [] => false | _ => true end))
  | TListCfRoutesRequest => inr mkListCfRoutesRequest
  | TListCfRouteMappingsRequest => inr mkListCfRouteMappingsRequest
  | TListAssociationsRequest => inr mkListAssociationsRequest
  | TUpsertRouteResponse => inr mkUpsertRouteResponse
  | TDeleteRouteResponse => inr mkDeleteRouteResponse
  | TMapRouteResponse => inr mkMapRouteResponse
  | TUnmapRouteResponse => inr mkUnmapRouteResponse
  | TUpsertAssociationResponse => inr mkUpsertAssociationResponse
  | TDeleteAssociationResponse => inr mkDeleteAssociationResponse
  | THealthRequest => inr mkHealthRequest
  | _ => inl (PlainError "unsupported")
  end.
Definition w_wire_form (t : mtype) : bool :=
  match t with
  | TDeleteRouteRequest | TGetVIPByNameRequest | TGetVIPByNameResponse | THealthResponse => true
  | t => fieldless t
  end.

Definition w_codec : Codec.
Proof.
  refine {| encode := w_encode; decode := w_decode; wire_form t _ := w_wire_form t = true |}.
  - intros t m Ht. destruct t; simpl in *; try discriminate Ht; eexists; (split; [reflexivity|]);
      destruct m; simpl; rewrite ?String.string_of_list_byte_of_string; try reflexivity.
    match goal with |- context [ if ?b then _ else _ ] => by destruct b end.
  - intros t m. by destruct t.
Defined.

#[local] Existing Instances w_codec w_syntax asc_order amd64.

Lemma calls_reach_handlers_witness :
  stub_call (cc_call empty_capi) (CDeleteRoute (mkDeleteRouteRequest "g"))
  = Some (perform empty_capi (CDeleteRoute (mkDeleteRouteRequest "g"))).
Proof.
  apply (calls_reach_handlers empty_capi (CDeleteRoute (mkDeleteRouteRequest "g"))
    (mkVIPResolver NewRoutesRepo) (mkGetVIPByNameRequest "h"));
    [reflexivity|intros; reflexivity|reflexivity|intros; reflexivity].
Defined.
