(* ===== verification/BulkStream.v ===== *)
(** * The bulk sync over its stream ([handlers/capi.go], [api/cloud_controller.pb.go])

    [Handlers.BulkSync] takes what the stream answers as a list.  Here the handler runs
    over the interface of the stream itself, as the generated code gives it to it, so
    that a transport or a fake can implement it; on a stream that answers like a list
    it does what [Handlers.BulkSync] does. *)
From S2P Require Import Prelude Routes RouteMappings Associations Api Handlers.

(** What ends a stream of requests: [io.EOF], or another error. *)
Inductive recv_error := EOF | RecvErr (err : error).

(** The stream as the handler knows it ([CloudControllerCopilot_BulkSyncServer]). *)
Class BulkSyncServer (T : Type) := {
  Recv : T → T * (option BulkSyncRequestChunk * option recv_error);
  SendAndClose : T → BulkSyncResponse → T * option error;
}.

Section bulk.
Context {T : Type} `{!BulkSyncServer T}.
Context {R M A : Type} `{!routesRepoInterface R} `{!routeMappingsRepoInterface M}.
Context `{!capiDiegoProcessAssociationsRepoInterface A}.
Context (unmarshal : list Byte.byte → error + BulkSyncRequest).

(** The loop of [BulkSync]: the repositories, the stream and the returned error.  It
    goes on as long as chunks come, so it has fuel; [None] is the lack of it. *)
Fixpoint BulkSync_on (fuel : nat) (c : CAPI R M A) (st : T) (allChunks : list Byte.byte)
    : option (outcome (CAPI R M A * T * option error)) :=
  match fuel with
  | 0 => None
  | S fuel =>
      match Recv st with
      | (st, (_, Some EOF)) =>
          match (if (length allChunks =? 0)%nat then inr empty_bulk_sync else unmarshal allChunks)
          with
          | inl err => Some (Ret (c, st, Some err))
          | inr request =>
              Some (c ← syncRequest c request;
                    let '(st, err) :=
                      SendAndClose st (mkBulkSyncResponse (i32 (Z.of_nat (length allChunks)))) in
                    Ret (c, st, err))
          end
      | (st, (_, Some (RecvErr err))) => Some (Ret (c, st, Some err))
      | (st, (None, None)) => Some (Panic Handlers.nil_deref)
      | (st, (Some requestChunk, None)) =>
          BulkSync_on fuel c st (allChunks ++ elems (Chunk requestChunk))
      end
  end.

(** A stream that answers like a list of answers, and what is left of it. *)
Fixpoint playing (st : T) (s : stream) : Prop :=
  match s with
  | SChunk chunk rest => (Recv st).2 = (Some chunk, None) ∧ playing (Recv st).1 rest
  | SEof => (Recv st).2.2 = Some EOF
  | SError err => (Recv st).2.2 = Some (RecvErr err)
  end.
Fixpoint played (st : T) (s : stream) : T :=
  match s with
  | SChunk _ rest => played (Recv st).1 rest
  | _ => (Recv st).1
  end.
Fixpoint receives (s : stream) : nat :=
  match s with SChunk _ rest => S (receives rest) | _ => 1 end.

(** On such a stream the loop ends, and it does what [Handlers.BulkSync] does. *)
Context (Hdecode : ∀ bytes request, unmarshal bytes = inr request → no_nil request).

Lemma BulkSync_on_spec fuel c st acc s :
  playing st s → receives s ≤ fuel →
  BulkSync_on fuel c st acc = Some (
    match stream_end s with
    | Some err => Ret (c, played st s, Some err)
    | None =>
        let bytes := acc ++ stream_bytes s in
        match (if (length bytes =? 0)%nat then inr empty_bulk_sync else unmarshal bytes) with
        | inl err => Ret (c, played st s, Some err)
        | inr request =>
            let reply := SendAndClose (played st s)
                           (mkBulkSyncResponse (i32 (Z.of_nat (length bytes)))) in
            Ret (after_sync c request, reply.1, reply.2)
        end
    end).
Proof.
  revert fuel st acc; induction s as [chunk rest IH| |err]; intros [|fuel] st acc Hp Hf;
    simpl in Hp, Hf; try lia; simpl; destruct (Recv st) as [st' [chunk' end']]; simpl in *.
  - destruct Hp as [[= -> ->] Hp]. rewrite IH by (done || lia). simpl. by rewrite <-app_assoc.
  - subst end'. rewrite app_nil_r. destruct (length acc =? 0)%nat.
    { by destruct chunk'; simpl; destruct (SendAndClose _ _). }
    destruct (unmarshal acc) as [|request] eqn:E; [by destruct chunk'|].
    rewrite syncRequest_spec by eauto. by destruct chunk'; simpl; destruct (SendAndClose _ _).
  - subst end'. by destruct chunk'.
Qed.
End bulk.
