(* ===== verification/Certs.v ===== *)
(** * Certificates on disk ([certs/locator.go])

    The librarian writes each configured certificate chain and key below
    [<destination>/<first DNS name>] ([Stow]); the server names those files in the
    gateway it serves ([Locate]).  Decoding of PEM blocks and certificates and the
    file system are interfaces, the latter with its laws. *)
From S2P Require Import Prelude GoStrings.

(** ** Data *)
Record CertChainKeyPair := mkPair { CertChain : string; PrivateKey : string }.
Record PemInfo := mkPemInfo {
  Hosts : list string; CertPath : string; KeyPath : string; Dir : string;
}.
Record Locator := mkLocator { destinationDir : string; pairs : list CertChainKeyPair }.

(** [pem.Decode] and [x509.ParseCertificates], the latter as the DNS names of each
    certificate of the block. *)
Class X509 := {
  pem_Decode : string → option string;
  ParseCertificates : string → string + list (list string);
}.

(** The calls of [os] and [ioutil] that [Stow] makes, and what they promise: the
    written file has the written content, and no call touches other files.  Two different
    paths are taken to be two files: links, a file system that ignores case and spellings
    such as [a//b] and [a/./b] of one path are excluded. *)
Class FileSystem (F : Type) := {
  read : F → string → option string;
  not_exist : F → string → bool;
  MkdirAll : F → string → F * option string;
  WriteFile : F → string → string → F * option string;
  read_MkdirAll f d p : read (MkdirAll f d).1 p = read f p;
  read_WriteFile f p c : (WriteFile f p c).2 = None → read (WriteFile f p c).1 p = Some c;
  read_WriteFile_ne f p c q : p ≠ q → read (WriteFile f p c).1 q = read f q;
}.

(** ** Operations *)
Definition NewLocator (dir : string) (ps : list CertChainKeyPair) : Locator := mkLocator dir ps.

Section locator.
Context `{X509} (l : Locator).

Definition pem_info (hostnames : list string) (first : string) : PemInfo :=
  let dirPath := destinationDir l +:+ "/" +:+ first in
  mkPemInfo hostnames (dirPath +:+ "/tls.crt") (dirPath +:+ "/tls.key") dirPath.

Definition createPemInfo (certPem : string) : string + PemInfo :=
  match pem_Decode certPem with
  | None => inl "failed to decode cert pem"
  | Some block =>
      match ParseCertificates block with
      | inl err => inl err
      | inr certs =>
          let hostnames := mjoin certs in
          match hostnames with
          | [] => inl "no DNS names provided in certificates"
          | first :: _ => inr (pem_info hostnames first)
          end
      end
  end.

(** The paths found before the first error are returned with it. *)
Fixpoint locate (ps : list CertChainKeyPair) (paths : list PemInfo)
    : list PemInfo * option string :=
  match ps with
  | [] => (paths, None)
  | certPair :: ps =>
      match createPemInfo (CertChain certPair) with
      | inl err => (paths, Some err)
      | inr pairPaths => locate ps (paths ++ [pairPaths])
      end
  end.
Definition Locate : list PemInfo * option string := locate (pairs l) [].

Section stow.
Context `{FileSystem F}.

Definition stow_pair (f : F) (certPair : CertChainKeyPair) : F * option string :=
  match createPemInfo (CertChain certPair) with
  | inl err => (f, Some err)
  | inr paths =>
      let '(f, err) :=
        if not_exist f (Dir paths) then MkdirAll f (Dir paths) else (f, None) in
      match err with
      | Some err => (f, Some err)
      | None =>
          let '(f, err) := WriteFile f (CertPath paths) (CertChain certPair) in
          match err with
          | Some err => (f, Some err)
          | None => WriteFile f (KeyPath paths) (PrivateKey certPair)
          end
      end
  end.

Fixpoint stow (f : F) (ps : list CertChainKeyPair) : F * option string :=
  match ps with
  | [] => (f, None)
  | certPair :: ps =>
      let '(f, err) := stow_pair f certPair in
      match err with Some err => (f, Some err) | None => stow f ps end
  end.
Definition Stow (f : F) : F * option string := stow f (pairs l).
End stow.
End locator.

(** ** Specification *)
(** The host a certPair is filed under. *)
Definition first_host `{X509} (certPair : CertChainKeyPair) : option string :=
  block ← pem_Decode (CertChain certPair);
  match ParseCertificates block with inl _ => None | inr certs => head (mjoin certs) end.

(** ** Lemmas *)
Lemma string_app_inv_tail (a b s t : string) :
  String.length s = String.length t → a +:+ s = b +:+ t → a = b ∧ s = t.
Proof.
  intros Hl E. apply string_app_inj_length; [|done].
  pose proof (f_equal String.length E) as El. rewrite !string_app_length in El. lia.
Qed.

Section lemmas.
Context `{X509} (l : Locator).

Lemma createPemInfo_first certPair :
  match first_host certPair with
  | Some h => ∃ hosts, head hosts = Some h ∧ createPemInfo l (CertChain certPair) = inr (pem_info l hosts h)
  | None => ∃ err, createPemInfo l (CertChain certPair) = inl err
  end.
Proof.
  unfold first_host, createPemInfo. destruct (pem_Decode _); simpl; [|eauto].
  destruct (ParseCertificates _) as [|certs]; [eauto|].
  destruct (mjoin certs) as [|h hs]; simpl; [eauto|]. by exists (h :: hs).
Qed.

Lemma locate_app ps acc :
  locate l ps acc = (acc ++ (locate l ps []).1, (locate l ps []).2).
Proof.
  revert acc; induction ps as [|p ps IH]; intros acc; simpl; [by rewrite app_nil_r|].
  destruct (createPemInfo l (CertChain p)); simpl; [by rewrite app_nil_r|].
  rewrite IH, (IH [_]). simpl. by rewrite <-app_assoc.
Qed.

(** Paths below one destination tell hosts and the two files apart. *)
Lemma CertPath_inj hs hs' h h' :
  CertPath (pem_info l hs h) = CertPath (pem_info l hs' h') → h = h'.
Proof.
  simpl. intros [E _]%string_app_inv_tail; [|done].
  by apply (inj _) in E; apply (inj _) in E.
Qed.
Lemma KeyPath_inj hs hs' h h' :
  KeyPath (pem_info l hs h) = KeyPath (pem_info l hs' h') → h = h'.
Proof.
  simpl. intros [E _]%string_app_inv_tail; [|done].
  by apply (inj _) in E; apply (inj _) in E.
Qed.
Lemma CertPath_KeyPath hs hs' h h' :
  CertPath (pem_info l hs h) ≠ KeyPath (pem_info l hs' h').
Proof. simpl. by intros [_ E]%string_app_inv_tail. Qed.

Context `{FileSystem F}.

Lemma stow_pair_spec f f' certPair :
  stow_pair l f certPair = (f', None) →
  ∃ h hs, first_host certPair = Some h ∧ head hs = Some h ∧
    read f' (CertPath (pem_info l hs h)) = Some (CertChain certPair) ∧
    read f' (KeyPath (pem_info l hs h)) = Some (PrivateKey certPair) ∧
    ∀ q, q ≠ CertPath (pem_info l hs h) → q ≠ KeyPath (pem_info l hs h) → read f' q = read f q.
Proof.
  unfold stow_pair. pose proof (createPemInfo_first certPair) as Hc.
  destruct (first_host certPair) as [h|]; [|by destruct Hc as [err ->]].
  destruct Hc as (hs & Hhs & ->). intros Hs. exists h, hs. split; [done|]. split; [done|].
  set (f1 := if not_exist f _ then _ else _) in Hs.
  assert (∀ q, read f1.1 q = read f q) as H1.
  { intros q. unfold f1. destruct (not_exist f _); [apply read_MkdirAll|done]. }
  clearbody f1. destruct f1 as [f1 [|]]; [done|]. simpl in H1.
  destruct (WriteFile f1 (CertPath (pem_info l hs h)) (CertChain certPair)) as [f2 [|]] eqn:E2; [done|].
  assert (f' = (WriteFile f2 (KeyPath (pem_info l hs h)) (PrivateKey certPair)).1) as -> by by rewrite Hs.
  assert (f2 = (WriteFile f1 (CertPath (pem_info l hs h)) (CertChain certPair)).1) as -> by by rewrite E2.
  split_and!.
  - rewrite read_WriteFile_ne by (intros E; by apply eq_sym, CertPath_KeyPath in E).
    apply read_WriteFile. by rewrite E2.
  - apply read_WriteFile. by rewrite Hs.
  - intros q Hq1 Hq2. by rewrite !read_WriteFile_ne, H1.
Qed.
End lemmas.

Section stow_lemmas.
Context `{X509} (l : Locator) `{FileSystem F}.

Lemma stow_spec f f' ps :
  stow l f ps = (f', None) →
  Forall (λ p, is_Some (first_host p)) ps ∧
  ∀ h hs, let info := pem_info l hs h in
    match last_with first_host (Some h) ps with
    | Some p => read f' (CertPath info) = Some (CertChain p) ∧
                read f' (KeyPath info) = Some (PrivateKey p)
    | None => read f' (CertPath info) = read f (CertPath info) ∧
              read f' (KeyPath info) = read f (KeyPath info)
    end.
Proof.
  revert f; induction ps as [|p ps IH]; intros f Hs; cbn [stow] in Hs.
  { simplify_eq. split; [constructor|]. done. }
  destruct (stow_pair l f p) as [f1 [|]] eqn:E; [done|].
  destruct (IH f1 Hs) as [Hall Hps]. destruct (stow_pair_spec l f f1 p E)
    as (h0 & hs0 & Hh0 & _ & Hcert & Hkey & Hother).
  split; [constructor; eauto|]. intros h hs info. simpl last_with. specialize (Hps h hs).
  cbv zeta in Hps. fold info in Hps. destruct (last_with first_host (Some h) ps) as [p'|]; [done|].
  destruct Hps as [-> ->]. rewrite Hh0. case_decide; simplify_eq; [done|].
  split; apply Hother; intros E'.
  - by apply CertPath_inj in E' as ->.
  - by apply (CertPath_KeyPath l hs hs0 h h0).
  - by apply eq_sym, (CertPath_KeyPath l hs0 hs h0 h) in E'.
  - by apply KeyPath_inj in E' as ->.
Qed.

Lemma locate_spec ps :
  Forall (λ p, is_Some (first_host p)) ps →
  ∃ infos, locate l ps [] = (infos, None) ∧
    Forall2 (λ p info, ∃ h hs, first_host p = Some h ∧ head hs = Some h ∧
               info = pem_info l hs h) ps infos.
Proof.
  induction 1 as [|p ps [h Hh] _ IH]; [by exists []|].
  destruct IH as (infos & Hl & HF). pose proof (createPemInfo_first l p) as Hc.
  rewrite Hh in Hc. destruct Hc as (hs & Hhs & Hc). exists (pem_info l hs h :: infos).
  simpl. rewrite Hc. simpl. rewrite locate_app, Hl. split; [done|].
  constructor; [eauto|done].
Qed.
End stow_lemmas.

(** A file system that holds files in a map and never fails. *)
Definition mem_fs : Type := gmap string string.
Global Instance mem_FileSystem : FileSystem mem_fs := {|
  read := λ f p, (f : gmap string string) !! p;
  not_exist := λ _ _, true;
  MkdirAll := λ f _, (f, None);
  WriteFile := λ f p c, (<[p := c]> (f : gmap string string), None);
  read_MkdirAll := λ _ _ _, eq_refl;
  read_WriteFile := λ f p c _, lookup_insert_eq f p c;
  read_WriteFile_ne := λ f p c q Hne, lookup_insert_ne f p q c Hne;
|}.

(** ** Properties *)

(** C37. What the librarian stows is what the server locates: after a successful
    [Stow], [Locate] on the same configuration succeeds with one entry per pair,
    in order, each with at least one host, and the two files that an entry names
    hold the chain and the key of the last pair filed under its first host (the
    pair's own, unless a later pair has the same first host). *)
Theorem Stow_then_Locate `{X509} `{FileSystem F} (l : Locator) (f f' : F)
    (Hstow : Stow l f = (f', None)) :
  ∃ infos, Locate l = (infos, None) ∧
    Forall2 (λ certPair info, Hosts info ≠ [] ∧ first_host certPair = head (Hosts info) ∧
      ∃ p, last_with first_host (first_host certPair) (pairs l) = Some p ∧
        read f' (CertPath info) = Some (CertChain p) ∧
        read f' (KeyPath info) = Some (PrivateKey p)) (pairs l) infos.
Proof.
  destruct (stow_spec l f f' (pairs l) Hstow) as [Hall Hfiles].
  destruct (locate_spec l (pairs l) Hall) as (infos & Hl & HF).
  exists infos. split; [exact Hl|]. apply Forall2_lookup. intros i.
  destruct (pairs l !! i) as [p|] eqn:Hp.
  - destruct (Forall2_lookup_l _ _ _ _ _ HF Hp) as (info & Hi & h & hs & Hh & Hhs & ->).
    rewrite Hi. constructor. simpl. split; [by destruct hs|]. split; [congruence|].
    specialize (Hfiles h hs). rewrite Hh. cbv zeta in Hfiles.
    destruct (last_with first_host (Some h) (pairs l)) as [p'|] eqn:E; [eauto|].
    rewrite last_with_None in E. exfalso. apply (E p); [|done]. by eapply list_elem_of_lookup_2.
  - assert (infos !! i = None) as ->; [|constructor].
    apply lookup_ge_None. rewrite <-(Forall2_length _ _ _ HF). by apply lookup_ge_None.
Qed.

Definition w_x509 : X509 := {|
  pem_Decode := λ s, if decide (s = "") then None else Some s;
  ParseCertificates := λ s, inr [[s]];
|}.
Definition w_locator : Locator :=
  NewLocator "/etc/istio" [mkPair "a.example.com" "key-a"; mkPair "b.example.com" "key-b"].

Lemma Stow_then_Locate_witness :
  let f' := (@Stow w_x509 w_locator mem_fs _ ∅).1 in
  ∃ infos, @Locate w_x509 w_locator = (infos, None) ∧ length infos = 2.
Proof.
  cbv zeta. destruct (@Stow_then_Locate w_x509 mem_fs _ w_locator ∅
                        (@Stow w_x509 w_locator mem_fs _ ∅).1) as (infos & Hl & HF).
  { assert ((@Stow w_x509 w_locator mem_fs _ ∅).2 = None) as E by (vm_compute; reflexivity).
    rewrite <-E. apply surjective_pairing. }
  exists infos. split; [exact Hl|]. exact (eq_sym (Forall2_length _ _ _ HF)).
Defined.

(** Both operations stop at the first pair whose certificate does not decode
    or names no host: [Locate] returns the entries of the pairs before it
    together with the error, and [Stow] fails. *)
Theorem first_bad_certificate `{X509} `{FileSystem F} (l : Locator) (f : F)
    (good rest : list CertChainKeyPair) (bad : CertChainKeyPair)
    (Hpairs : pairs l = good ++ bad :: rest)
    (Hgood : Forall (λ p, is_Some (first_host p)) good) (Hbad : first_host bad = None) :
  (∃ infos err, Locate l = (infos, Some err) ∧ length infos = length good) ∧
  (∃ f' err, Stow l f = (f', Some err)).
Proof.
  unfold Locate, Stow. rewrite Hpairs. clear Hpairs.
  pose proof (createPemInfo_first l bad) as Hb. rewrite Hbad in Hb. destruct Hb as [err Hb].
  split.
  - induction Hgood as [|p good [h Hh] _ IH]; simpl; [rewrite Hb; eauto|].
    pose proof (createPemInfo_first l p) as Hc. rewrite Hh in Hc. destruct Hc as (hs & _ & ->).
    rewrite locate_app. destruct IH as (infos & e & -> & Hlen).
    eexists _, _. split; [done|]. simpl. by rewrite Hlen.
  - destruct (stow l f (good ++ bad :: rest)) as [f' [e|]] eqn:E; [eauto|].
    apply stow_spec in E as [E _]. rewrite Forall_app, Forall_cons, Hbad in E.
    by destruct E as (_ & [? ?] & _).
Qed.

Lemma first_bad_certificate_witness :
  ∃ infos err, @Locate w_x509 (NewLocator "/d" [mkPair "a" "k"; mkPair "" ""]) = (infos, Some err) ∧
    length infos = 1.
Proof.
  apply (@first_bad_certificate w_x509 mem_fs _ (NewLocator "/d" [mkPair "a" "k"; mkPair "" ""]) ∅
           [mkPair "a" "k"] [] (mkPair "" "")); [reflexivity| |reflexivity].
  repeat constructor. vm_compute. eauto.
Defined.
