(* ===== verification/Istio.v ===== *)
(** * The Istio and MCP messages the snapshot is made of

    The messages of [istio.io/api] with the fields that [snapshot/config.go] sets,
    and the MCP resource that wraps each of them.  [types.MarshalAny] is a
    parameter; when it fails the code logs the error and leaves the body nil. *)
From Stdlib Require Import Ascii.
From S2P Require Import Prelude FixWeights.

(** ** Messages *)
Record IstioEgressListener := mkEgress { egress_hosts : list string }.
Record Sidecar := mkSidecar {
  WorkloadSelector : option (gmap string string);  (* its labels *)
  Egress : list IstioEgressListener;
}.

Record GatewayPort := mkPort { Number : Z; Protocol : string; PortName : string }.
Record TLSOptions := mkTls { ServerCertificate : string; TlsPrivateKey : string }.  (* mode SIMPLE *)
Record Server := mkServer { ServerPort : GatewayPort; Tls : option TLSOptions; ServerHosts : list string }.
Record Gateway := mkGateway { Servers : list Server }.

Record Subset := mkSubset { SubsetName : string; Labels : gmap string string }.
Record DestinationRule := mkDestinationRule { DrHost : string; Subsets : list Subset }.

Record HTTPRouteDestination := mkRouteDestination {
  DestHost : string; DestSubset : string; DestPort : Z; Weight : Z;
}.
Record HTTPRetry := mkRetry { Attempts : Z; RetryOn : string }.
Record HTTPRoute := mkHTTPRoute {
  MatchPrefix : option string;  (* Match: one Uri prefix, or nil *)
  HRoute : list HTTPRouteDestination;
  Retries : option HTTPRetry;
  TimeoutSeconds : option Z;
}.
Record VirtualService := mkVirtualService {
  VsHosts : list string; VsGateways : gslice string; VsHttp : list HTTPRoute;
}.

Record Endpoint := mkEndpoint {
  EpAddress : string; EpPorts : gmap string Z; EpLabels : gmap string string;
}.
Record ServiceEntry := mkServiceEntry {
  SeHosts : list string; Addresses : gslice string; SePorts : gslice GatewayPort;
  (* Location MESH_INTERNAL, Resolution STATIC *)
  Endpoints : list Endpoint;
}.

Inductive proto :=
| PSidecar (m : Sidecar)
| PGateway (m : Gateway)
| PDestinationRule (m : DestinationRule)
| PVirtualService (m : VirtualService)
| PServiceEntry (m : ServiceEntry).

(** [types.MarshalAny]: an error, or the packed message. *)
Class Marshal := { any : Type; MarshalAny : proto → string + any }.

(** A resource: metadata and a body that is nil when marshalling failed. *)
Record Resource `{Marshal} := mkResource {
  Name : string; Version : string; Body : option any;
}.

Arguments mkResource {_} _ _ _.
Arguments Name {_} _.
Arguments Version {_} _.
Arguments Body {_} _.

(** The body the code stores: what [MarshalAny] returns, errors only logged. *)
Definition body_of `{Marshal} (m : proto) : option any :=
  match MarshalAny m with inl _ => None | inr a => Some a end.

(** Marshalling that keeps the message, to read resources back. *)
Definition transparent : Marshal := {| any := proto; MarshalAny := inr |}.

(** ** Names *)
(** [fmt.Sprintf("copilot-...-for-%s", host)], below [internal/] for internal routes. *)
Definition resource_name (prefix : string) (route : RouteWithBackends) : string :=
  if FixWeights.Internal route then "internal/" +:+ (prefix +:+ FixWeights.Hostname route)
  else prefix +:+ FixWeights.Hostname route.

Global Instance egress_eq_dec : EqDecision IstioEgressListener.
Proof. solve_decision. Defined.
Global Instance sidecar_eq_dec : EqDecision Sidecar.
Proof. solve_decision. Defined.
Global Instance port_eq_dec : EqDecision GatewayPort.
Proof. solve_decision. Defined.
Global Instance destination_eq_dec : EqDecision HTTPRouteDestination.
Proof. solve_decision. Defined.
Global Instance retry_eq_dec : EqDecision HTTPRetry.
Proof. solve_decision. Defined.
Global Instance http_eq_dec : EqDecision HTTPRoute.
Proof. solve_decision. Defined.
Global Instance vs_eq_dec : EqDecision VirtualService.
Proof. solve_decision. Defined.
Global Instance tls_eq_dec : EqDecision TLSOptions.
Proof. solve_decision. Defined.
Global Instance server_eq_dec : EqDecision Server.
Proof. solve_decision. Defined.
Global Instance gateway_eq_dec : EqDecision Gateway.
Proof. solve_decision. Defined.
Global Instance subset_eq_dec : EqDecision Subset.
Proof. solve_decision. Defined.
Global Instance rule_eq_dec : EqDecision DestinationRule.
Proof. solve_decision. Defined.
Global Instance endpoint_eq_dec : EqDecision Endpoint.
Proof. solve_decision. Defined.
Global Instance entry_eq_dec : EqDecision ServiceEntry.
Proof. solve_decision. Defined.
Global Instance proto_eq_dec : EqDecision proto.
Proof. solve_decision. Defined.
Global Instance resource_eq_dec `{Marshal} `{!EqDecision any} : EqDecision Resource.
Proof. solve_decision. Defined.

(** A prefix that does not start like [internal/] tells hosts and sides apart. *)
Lemma resource_name_inj c prefix r1 r2 :
  c ≠ "i"%char → resource_name (String c prefix) r1 = resource_name (String c prefix) r2 →
  FixWeights.Internal r1 = FixWeights.Internal r2 ∧ FixWeights.Hostname r1 = FixWeights.Hostname r2.
Proof.
  intros Hc. unfold resource_name.
  destruct (FixWeights.Internal r1), (FixWeights.Internal r2); intros E.
  - apply (inj _) in E. apply (inj _) in E. done.
  - injection E as E _. congruence.
  - injection E as E _. congruence.
  - by apply (inj _) in E.
Qed.
