(* ===== verification/GoSlices.v ===== *)
(** * Go slices with their backing arrays

    Where the program writes through slices that share an array, a slice is what
    it is in Go: an array, a length and a capacity (all slices here start at
    index 0).  [append] writes in place while the capacity lasts and allocates
    otherwise; how much it allocates is the runtime's choice, a parameter. *)
From S2P Require Import Prelude.

(** [grow old needed]: the capacity of a reallocated slice. *)
Class GrowSlice := {
  grow : nat → nat → nat;
  grow_enough old needed : needed ≤ grow old needed;
}.

Section def.
Context {A : Type} (zero : A) `{GrowSlice}.

(** Arrays are addressed by their number. *)
Local Notation heap := (list (list A)).

Record slice := mkSlice { arr : nat; len : nat; cap : nat }.

(** The elements of a slice. *)
Definition read (h : heap) (s : slice) : list A := take (len s) (default [] (h !! arr s)).

Definition alloc (h : heap) (xs : list A) (c : nat) : heap * slice :=
  (h ++ [xs ++ replicate (c - length xs) zero], mkSlice (length h) (length xs) c).

(** Writing a run of elements into an array. *)
Definition write_at (off : nat) (xs l : list A) : list A :=
  take off l ++ xs ++ drop (off + length xs) l.
Definition write (h : heap) (a off : nat) (xs : list A) : heap := alter (write_at off xs) a h.

(** [append(s, xs...)] on a non-nil slice. *)
Definition append (h : heap) (s : slice) (xs : list A) : heap * slice :=
  if (len s + length xs <=? cap s)%nat
  then (write h (arr s) (len s) xs, mkSlice (arr s) (len s + length xs) (cap s))
  else alloc h (read h s ++ xs) (grow (cap s) (len s + length xs)).

(** [for i := range s { s[i] = f(s[i]) }] *)
Definition map_in_place (f : A → A) (h : heap) (s : slice) : heap :=
  write h (arr s) 0 (f <$> read h s).

(** A slice that is backed by the heap. *)
Definition wf_slice (h : heap) (s : slice) : Prop :=
  ∃ l, h !! arr s = Some l ∧ length l = cap s ∧ len s ≤ cap s.
End def.

(** Go's growth for small slices of strings: double, or what is needed. *)
Definition go_grow : GrowSlice.
Proof.
refine {| grow := λ old needed, Nat.max needed (2 * old) |}. intros. lia.
Defined.

(** ** Lemmas *)
Section lemmas.
Context {A : Type} (zero : A) `{GrowSlice}.
Implicit Types (h : list (list A)) (s t : slice).

Lemma length_read h s : wf_slice h s → length (read h s) = len s.
Proof. intros (l & Hl & Hc & ?). unfold read. rewrite Hl. simpl. rewrite length_take. lia. Qed.

Lemma length_write_at off xs (l : list A) :
  off + length xs ≤ length l → length (write_at off xs l) = length l.
Proof. intros. unfold write_at. rewrite !length_app, length_take, length_drop. lia. Qed.

Lemma take_write_at n off xs (l : list A) :
  n ≤ off → off ≤ length l → take n (write_at off xs l) = take n l.
Proof.
  intros. unfold write_at. rewrite take_app_le by (rewrite length_take; lia).
  rewrite take_take. f_equal. lia.
Qed.

Lemma take_write_at_run off xs (l : list A) :
  off ≤ length l → take (off + length xs) (write_at off xs l) = take off l ++ xs.
Proof.
  intros. unfold write_at. rewrite app_assoc, take_app_length'; [done|].
  rewrite length_app, length_take. lia.
Qed.

Lemma write_lookup h a off xs b :
  write h a off xs !! b = if decide (a = b) then write_at off xs <$> h !! b else h !! b.
Proof.
  unfold write. case_decide as E.
  - subst. apply list_lookup_alter_eq.
  - by apply list_lookup_alter_ne.
Qed.

Lemma write_other h a off xs t : arr t ≠ a → read (write h a off xs) t = read h t.
Proof. intros. unfold read. rewrite write_lookup, decide_False by done. done. Qed.

(** A write beyond the length of a slice does not show in it. *)
Lemma write_beyond h a off xs t :
  wf_slice h t → (arr t = a → len t ≤ off ∧ off ≤ cap t) → read (write h a off xs) t = read h t.
Proof.
  intros (l & Hl & Hc & ?) Ha. destruct (decide (arr t = a)) as [<-|]; [|by apply write_other].
  destruct Ha as [??]; [done|].
  unfold read. rewrite write_lookup, decide_True, Hl by done. simpl. apply take_write_at; lia.
Qed.

Lemma wf_write h a off xs t :
  wf_slice h t → (arr t = a → off + length xs ≤ cap t) → wf_slice (write h a off xs) t.
Proof.
  intros (l & Hl & Hc & ?) Ha. unfold wf_slice. rewrite write_lookup, Hl. case_decide.
  - eexists. split; [done|]. rewrite length_write_at; [done|]. rewrite Hc. by apply Ha.
  - eauto.
Qed.

Lemma alloc_read h xs c t : arr t < length h → read (alloc zero h xs c).1 t = read h t.
Proof. intros. unfold read. simpl. by rewrite lookup_app_l. Qed.

Lemma wf_arr h s : wf_slice h s → arr s < length h.
Proof. intros (l & Hl & _). by eapply lookup_lt_Some. Qed.

Lemma wf_alloc h xs c t : wf_slice h t → wf_slice (alloc zero h xs c).1 t.
Proof.
  intros Ht. pose proof (wf_arr _ _ Ht). destruct Ht as (l & Hl & ?). exists l. simpl.
  by rewrite lookup_app_l.
Qed.

Lemma alloc_fresh h xs c :
  length xs ≤ c →
  wf_slice (alloc zero h xs c).1 (alloc zero h xs c).2 ∧
  read (alloc zero h xs c).1 (alloc zero h xs c).2 = xs.
Proof.
  intros Hc. split.
  - eexists. simpl. rewrite lookup_app_r, Nat.sub_diag by lia. split; [done|].
    rewrite length_app, length_replicate. lia.
  - unfold read. simpl. rewrite lookup_app_r, Nat.sub_diag by lia. simpl. apply take_app_length.
Qed.

(** [append] gives the elements, and shows only in slices that share the array
    beyond the length of [s]. *)
Lemma append_spec h s xs :
  wf_slice h s →
  let '(h', s') := append zero h s xs in
  wf_slice h' s' ∧ read h' s' = read h s ++ xs ∧
  (arr s' = arr s ∧ len s ≤ len s' ∧ cap s' = cap s ∨ length h ≤ arr s') ∧
  length h ≤ length h' ∧
  ∀ t, wf_slice h t → (arr t = arr s → len t ≤ len s ∧ cap t = cap s) →
    wf_slice h' t ∧ read h' t = read h t.
Proof.
  intros Hs. pose proof Hs as (l & Hl & Hc & Hle). unfold append.
  destruct (Nat.leb_spec (len s + length xs) (cap s)) as [Hfit|Hfit].
  - split_and!.
    + exists (write_at (len s) xs l). simpl. rewrite write_lookup, decide_True, Hl by done.
      split; [done|]. rewrite length_write_at; lia.
    + unfold read. simpl. rewrite write_lookup, decide_True, Hl by done. simpl.
      apply take_write_at_run. lia.
    + left. simpl. lia.
    + unfold write. rewrite length_alter. done.
    + intros t Ht Ha. split.
      * apply wf_write; [done|]. intros E. destruct (Ha E). lia.
      * apply write_beyond; [done|]. intros E. destruct (Ha E). lia.
  - pose proof (grow_enough (cap s) (len s + length xs)) as Hg.
    assert (length (read h s ++ xs) ≤ grow (cap s) (len s + length xs)) as Hlen
      by (rewrite length_app, length_read by done; lia).
    destruct (alloc_fresh h (read h s ++ xs) _ Hlen) as [Hwf Hread].
    destruct (alloc zero h (read h s ++ xs) _) as [h' s'] eqn:E. simpl in Hwf, Hread.
    assert (h' = (alloc zero h (read h s ++ xs) (grow (cap s) (len s + length xs))).1) as -> by by rewrite E.
    assert (s' = (alloc zero h (read h s ++ xs) (grow (cap s) (len s + length xs))).2) as -> by by rewrite E.
    split_and!; [done|done|by right|simpl; rewrite length_app; lia|].
    intros t Ht _. split; [by apply wf_alloc|]. apply alloc_read. by apply wf_arr.
Qed.

Lemma map_in_place_spec f h s :
  wf_slice h s →
  wf_slice (map_in_place f h s) s ∧ read (map_in_place f h s) s = f <$> read h s ∧
  ∀ t, wf_slice h t → arr t ≠ arr s →
    wf_slice (map_in_place f h s) t ∧ read (map_in_place f h s) t = read h t.
Proof.
  intros Hs. pose proof (length_read _ _ Hs) as Hl. unfold map_in_place. split_and!.
  - apply wf_write; [done|]. intros _. rewrite length_fmap, Hl. by destruct Hs as (?&?&?&?).
  - pose proof Hs as (l & Hll & Hc & Hle). unfold read at 1.
    rewrite write_lookup, decide_True, Hll by done. simpl.
    pose proof (take_write_at_run 0 (f <$> read h s) l ltac:(lia)) as Hr.
    rewrite length_fmap, Hl in Hr. exact Hr.
  - intros t Ht Hne. split; [apply wf_write; [done|]; by intros|by apply write_other].
Qed.
End lemmas.

Global Arguments alloc : simpl never.
Global Arguments append : simpl never.
Global Arguments map_in_place : simpl never.
Global Arguments read : simpl never.
Global Arguments write : simpl never.
