(* ===== verification/Sidecars.v ===== *)
(** * Sidecar resources ([CreateSidecarResources] of [snapshot/config.go])

    A sidecar lists, per source application, the internal hosts its network
    policies allow.  The code keeps the hosts per destination and per source in
    slices that share backing arrays, appends to them and finally rewrites them in
    place, so the model runs on the heap of [GoSlices].  Policies are the decoded
    answers of the policy server, whose entries are not nil. *)
From S2P Require Import Prelude GoStrings BackendSets FixWeights Istio GoSlices.

(** ** Data *)
(** [policy_client.Policy] with its source, destination and ports. *)
Record Ports := mkPorts { PortStart : Z; PortEnd : Z }.
Record PolicySource := mkSource { SrcID : string; SrcTag : string }.
Record PolicyDestination := mkDestination {
  DstID : string; DstTag : string; DstProtocol : string; DstPorts : Ports;
}.
Record Policy := mkFullPolicy { Source : PolicySource; Destination : PolicyDestination }.

Definition SourceID (p : Policy) : string := SrcID (Source p).
Definition DestinationID (p : Policy) : string := DstID (Destination p).

(** A policy with nothing but its two IDs. *)
Definition mkPolicy (source destination : string) : Policy :=
  mkFullPolicy (mkSource source "") (mkDestination destination "" "" (mkPorts 0 0)).

Global Instance ports_eq_dec : EqDecision Ports.
Proof. solve_decision. Defined.
Global Instance source_eq_dec : EqDecision PolicySource.
Proof. solve_decision. Defined.
Global Instance policy_destination_eq_dec : EqDecision PolicyDestination.
Proof. solve_decision. Defined.
Global Instance policy_eq_dec : EqDecision Policy.
Proof. solve_decision. Defined.

Definition DefaultSidecarName : string := "cloudfoundry-default-sidecar".

Notation sheap := (list (list string)).

(** ** Operations *)
Section sidecars.
Context `{GrowSlice} `{MapOrder} `{Marshal}.

(** [append(s, xs...)] and [[]string{x}] on the heap of strings. *)
Definition sappend (h : sheap) (s : slice) (xs : list string) : sheap * slice :=
  append "" h s xs.
Definition literal1 (h : sheap) (x : string) : sheap * slice := alloc "" h [x] 1.

(** First loop: the hosts of each internal destination. *)
Definition add_route (st : sheap * gmap string slice) (route : RouteWithBackends)
    : sheap * gmap string slice :=
  let '(h, routeMap) := st in
  let processGuid := CapiProcessGUID route in
  if negb (FixWeights.Internal route) then st
  else match routeMap !! processGuid with
  | Some s =>
      let '(h, s) := sappend h s [FixWeights.Hostname route] in
      (h, <[processGuid := s]> routeMap)
  | None =>
      let '(h, s) := literal1 h (FixWeights.Hostname route) in
      (h, <[processGuid := s]> routeMap)
  end.
Definition route_map (routes : list RouteWithBackends) : sheap * gmap string slice :=
  foldl add_route ([], ∅) routes.

(** Second loop: the hosts of each source. *)
Definition add_policy (routeMap : gmap string slice) (st : sheap * gmap string slice)
    (policy : Policy) : sheap * gmap string slice :=
  let '(h, policyMap) := st in
  let source := SourceID policy in
  let destination := DestinationID policy in
  match routeMap !! destination with
  | None => st
  | Some d =>
      match policyMap !! source with
      | Some s =>
          let '(h, s) := sappend h s (read h d) in (h, <[source := s]> policyMap)
      | None => (h, <[source := d]> policyMap)
      end
  end.
Definition policy_map (routeMap : gmap string slice) (h : sheap) (policies : list Policy)
    : sheap * gmap string slice :=
  foldl (add_policy routeMap) (h, ∅) policies.

(** Last loop: prefix the hosts in place and marshal the sidecar. *)
Definition source_sidecar (source : string) (hosts : list string) : Sidecar :=
  mkSidecar (Some {[ "cfapp" := source ]}) [mkEgress hosts].
Fixpoint emit (version : string) (h : sheap) (entries : list (string * slice)) : list Resource :=
  match entries with
  | [] => []
  | (source, destinations) :: entries =>
      let h := map_in_place (λ host, "internal/" +:+ host) h destinations in
      mkResource source version (body_of (PSidecar (source_sidecar source (read h destinations))))
        :: emit version h entries
  end.

Definition default_sidecar : Sidecar := mkSidecar None [mkEgress ["~/*"]].

Definition CreateSidecarResources (routes : gslice RouteWithBackends) (policies : gslice Policy)
    (version : string) : list Resource :=
  let '(h, routeMap) := route_map (elems routes) in
  let '(h, policyMap) := policy_map routeMap h (elems policies) in
  mkResource DefaultSidecarName version (body_of (PSidecar default_sidecar))
    :: emit version h (map_order policyMap).
End sidecars.

(** ** Specification *)
(** The internal hosts of a destination, and those a source may reach, in the
    order of the routes and of the policies. *)
Definition internal_hosts (routes : list RouteWithBackends) (destination : string) : list string :=
  FixWeights.Hostname <$>
    filter (λ r, FixWeights.Internal r = true ∧ CapiProcessGUID r = destination) routes.
Definition allowed_hosts (routes : list RouteWithBackends) (policies : list Policy) (source : string)
    : list string :=
  filter (λ p, SourceID p = source) policies ≫= λ p, internal_hosts routes (DestinationID p).

(** The first destination of a source that has internal hosts. *)
Definition first_destination (routes : list RouteWithBackends) (policies : list Policy)
    (source : string) : option string :=
  DestinationID <$> head (filter (λ p, SourceID p = source ∧
                                       internal_hosts routes (DestinationID p) ≠ []) policies).

(** No two sources start with the hosts of one destination. *)
Definition unshared (routes : list RouteWithBackends) (policies : list Policy) : Prop :=
  ∀ s1 s2 d, first_destination routes policies s1 = Some d →
             first_destination routes policies s2 = Some d → s1 = s2.

(** The sidecars the policies ask for. *)
Definition wanted_sidecar `{Marshal} (version source : string) (hosts : list string) : Resource :=
  mkResource source version
    (body_of (PSidecar (source_sidecar source ((λ host, "internal/" +:+ host) <$> hosts)))).

(** ** Lemmas *)
Section lemmas.
Context `{GrowSlice}.

Lemma internal_hosts_snoc routes r d :
  internal_hosts (routes ++ [r]) d =
  internal_hosts routes d ++
    (if decide (FixWeights.Internal r = true ∧ CapiProcessGUID r = d)
     then [FixWeights.Hostname r] else []).
Proof.
  unfold internal_hosts. rewrite filter_app, fmap_app, filter_cons. by case_decide.
Qed.

(** The destinations' slices hold their hosts in arrays of their own. *)
Definition route_map_inv (routes : list RouteWithBackends) (st : sheap * gmap string slice) : Prop :=
  (∀ d, match st.2 !! d with
        | Some s => wf_slice st.1 s ∧ read st.1 s = internal_hosts routes d ∧
                    internal_hosts routes d ≠ []
        | None => internal_hosts routes d = []
        end) ∧
  (∀ d1 d2 s1 s2, st.2 !! d1 = Some s1 → st.2 !! d2 = Some s2 → arr s1 = arr s2 → d1 = d2).

(** One entry of the map gets a slice of its own, the others keep theirs. *)
Lemma route_map_insert routes r h m h' s' :
  route_map_inv routes (h, m) → FixWeights.Internal r = true → wf_slice h' s' →
  read h' s' = internal_hosts routes (CapiProcessGUID r) ++ [FixWeights.Hostname r] →
  (∀ d t, m !! d = Some t → d ≠ CapiProcessGUID r →
     wf_slice h' t ∧ read h' t = read h t ∧ arr t ≠ arr s') →
  route_map_inv (routes ++ [r]) (h', <[CapiProcessGUID r := s']> m).
Proof.
  intros [Hm Hd] Ei Hwf Hread Hrest. simpl in Hm, Hd. split; simpl.
  - intros d. rewrite lookup_insert, internal_hosts_snoc. case_decide as E.
    + subst d. rewrite decide_True by done. split_and!; [done|done|by destruct (internal_hosts _ _)].
    + rewrite decide_False, app_nil_r by naive_solver. specialize (Hm d).
      destruct (m !! d) as [t|] eqn:Et; [|done]. destruct Hm as (? & ? & ?).
      destruct (Hrest d t Et) as (? & -> & _); [done|]. by split_and!.
  - intros d1 d2 s1 s2. rewrite !lookup_insert. repeat case_decide; intros; simplify_eq; try done.
    + exfalso. by destruct (Hrest d2 s2) as (_ & _ & []).
    + exfalso. by destruct (Hrest d1 s1) as (_ & _ & []).
    + by eapply Hd.
Qed.

Lemma route_map_step routes r st :
  route_map_inv routes st → route_map_inv (routes ++ [r]) (add_route st r).
Proof.
  destruct st as [h m]. intros Hinv. pose proof Hinv as [Hm Hd]. unfold add_route. simpl in Hm, Hd.
  destruct (FixWeights.Internal r) eqn:Ei; cbn [negb]; last first.
  { split; [|exact Hd]. intros d. specialize (Hm d).
    rewrite internal_hosts_snoc, Ei, decide_False by (by intros [??]). by rewrite app_nil_r. }
  pose proof (Hm (CapiProcessGUID r)) as Hs. destruct (m !! CapiProcessGUID r) as [s|] eqn:Es.
  - destruct Hs as (Hwf & Hread & Hne).
    pose proof (append_spec "" h s [FixWeights.Hostname r] Hwf) as Ha. unfold sappend.
    destruct (append "" h s [FixWeights.Hostname r]) as [h' s'].
    destruct Ha as (Hwf' & Hread' & Harr & Hlen & Hother).
    apply (route_map_insert routes r h); [done|done|done|by rewrite Hread', Hread|].
    intros d t Ht Hdne. pose proof (Hm d) as Hdm. rewrite Ht in Hdm. destruct Hdm as (Hwt & _).
    assert (arr t ≠ arr s) as Hne' by (intros E; by apply Hdne, (Hd _ _ t s)).
    destruct (Hother t Hwt) as [??]; [done|]. split_and!; [done..|].
    pose proof (wf_arr _ _ Hwt). destruct Harr as [[-> _]|]; [done|lia].
  - unfold literal1. destruct (alloc_fresh "" h [FixWeights.Hostname r] 1) as [Hwf Hread]; [done|].
    destruct (alloc "" h [FixWeights.Hostname r] 1) as [h' s'] eqn:Ea. simpl in Hwf, Hread.
    apply (route_map_insert routes r h); [done|done|done|by rewrite Hs|].
    intros d t Ht _. specialize (Hm d). rewrite Ht in Hm. destruct Hm as (Hwt & _).
    pose proof (wf_alloc "" h [FixWeights.Hostname r] 1 t Hwt) as Hw.
    pose proof (wf_arr _ _ Hwt) as Hlt.
    pose proof (alloc_read "" h [FixWeights.Hostname r] 1 t Hlt) as Hr. rewrite Ea in Hw, Hr.
    split_and!; [done..|]. unfold alloc in Ea. simplify_eq. simpl. lia.
Qed.

Lemma route_map_spec routes : route_map_inv routes (route_map routes).
Proof.
  unfold route_map. induction routes as [|r routes IH] using rev_ind.
  - split; simpl; intros; rewrite ?lookup_empty in *; done.
  - rewrite foldl_app. by apply route_map_step.
Qed.

Lemma allowed_hosts_snoc routes pol p s :
  allowed_hosts routes (pol ++ [p]) s =
  allowed_hosts routes pol s ++
    (if decide (SourceID p = s) then internal_hosts routes (DestinationID p) else []).
Proof.
  unfold allowed_hosts. rewrite filter_app, bind_app, filter_cons. f_equal.
  case_decide; simpl; by rewrite ?app_nil_r.
Qed.

Lemma first_destination_snoc routes pol p s :
  first_destination routes (pol ++ [p]) s =
  match first_destination routes pol s with
  | Some d => Some d
  | None => if decide (SourceID p = s ∧ internal_hosts routes (DestinationID p) ≠ [])
            then Some (DestinationID p) else None
  end.
Proof.
  unfold first_destination. rewrite filter_app, filter_cons.
  destruct (filter _ pol) as [|q l]; simpl; [|done]. by case_decide.
Qed.

Lemma first_destination_allowed routes pol s :
  first_destination routes pol s = None ↔ allowed_hosts routes pol s = [].
Proof.
  induction pol as [|p pol IH] using rev_ind; [done|].
  rewrite first_destination_snoc, allowed_hosts_snoc, app_nil, <-IH.
  destruct (first_destination routes pol s); [by split; [|intros [??]]|].
  destruct (decide (SourceID p = s)) as [E|E].
  - case_decide as E'; [split; [done|]; intros [_ ?]; by destruct E'|].
    split; [|done]. intros _. split; [done|].
    destruct (internal_hosts routes (DestinationID p)); [done|]. by destruct E'.
  - rewrite decide_False by naive_solver. done.
Qed.

Lemma unshared_prefix routes pol pol' : unshared routes (pol ++ pol') → unshared routes pol.
Proof.
  revert pol; induction pol' as [|p pol' IH]; intros pol; [by rewrite app_nil_r|].
  rewrite cons_middle, app_assoc. intros Hu%IH s1 s2 d H1 H2.
  apply (Hu s1 s2 d); by rewrite first_destination_snoc, ?H1, ?H2.
Qed.

(** The sources' slices: their hosts, in an array of their own or in the array of
    the destination they started with, past its hosts. *)
Definition policy_inv (routes : list RouteWithBackends) (rm : gmap string slice)
    (pol : list Policy) (st : sheap * gmap string slice) : Prop :=
  (∀ d t, rm !! d = Some t → wf_slice st.1 t ∧ read st.1 t = internal_hosts routes d) ∧
  (∀ σ, match st.2 !! σ with
        | Some s => wf_slice st.1 s ∧ read st.1 s = allowed_hosts routes pol σ ∧
                    allowed_hosts routes pol σ ≠ []
        | None => allowed_hosts routes pol σ = []
        end) ∧
  (∀ σ d s t, st.2 !! σ = Some s → rm !! d = Some t → arr t = arr s →
     first_destination routes pol σ = Some d ∧ len t ≤ len s ∧ cap t = cap s) ∧
  (∀ σ1 σ2 s1 s2, st.2 !! σ1 = Some s1 → st.2 !! σ2 = Some s2 → arr s1 = arr s2 → σ1 = σ2).

Section policy_phase.
Context (routes : list RouteWithBackends) (rm : gmap string slice).
Context (Hnone : ∀ d, rm !! d = None → internal_hosts routes d = []).
Context (Hsome : ∀ d t, rm !! d = Some t → internal_hosts routes d ≠ []).
Context (Hdistinct : ∀ d1 d2 t1 t2, rm !! d1 = Some t1 → rm !! d2 = Some t2 → arr t1 = arr t2 → d1 = d2).

(** A policy without internal hosts changes nothing. *)
Lemma policy_step_skip pol p st :
  rm !! DestinationID p = None → policy_inv routes rm pol st → policy_inv routes rm (pol ++ [p]) st.
Proof.
  intros Hd (P1 & P2 & P3 & P4). apply Hnone in Hd.
  assert (∀ σ, allowed_hosts routes (pol ++ [p]) σ = allowed_hosts routes pol σ) as Ea.
  { intros σ. rewrite allowed_hosts_snoc, Hd. case_decide; by rewrite app_nil_r. }
  split_and!; [done| |intros|done].
  - intros σ. rewrite Ea. apply P2.
  - destruct (P3 σ d s t) as (E & ?); [done..|]. split; [|done].
    by rewrite first_destination_snoc, E.
Qed.

(** A source's first destination: the slice is shared. *)
Lemma policy_step_share pol p h pm t :
  unshared routes (pol ++ [p]) → rm !! DestinationID p = Some t → pm !! SourceID p = None →
  policy_inv routes rm pol (h, pm) →
  policy_inv routes rm (pol ++ [p]) (h, <[SourceID p := t]> pm).
Proof.
  intros Hu Ht Hpm (P1 & P2 & P3 & P4). simpl in *.
  assert (allowed_hosts routes pol (SourceID p) = []) as Ha by (specialize (P2 (SourceID p)); by rewrite Hpm in P2).
  assert (first_destination routes (pol ++ [p]) (SourceID p) = Some (DestinationID p)) as Hf.
  { rewrite first_destination_snoc. apply first_destination_allowed in Ha. rewrite Ha.
    rewrite decide_True; [done|]. split; [done|]. by eapply Hsome. }
  assert (∀ σ d s t', pm !! σ = Some s → rm !! d = Some t' → arr t' = arr s →
    first_destination routes (pol ++ [p]) σ = Some d ∧ len t' ≤ len s ∧ cap t' = cap s) as P3'.
  { intros σ d s t' Hs Ht' E. destruct (P3 σ d s t' Hs Ht' E) as [Hfd ?].
    by rewrite first_destination_snoc, Hfd. }
  destruct (P1 _ _ Ht) as [Hwt Hrt]. split_and!; simpl; [done|..].
  - intros σ. rewrite lookup_insert, allowed_hosts_snoc. case_decide as E.
    + subst σ. rewrite Ha. split_and!; [done..|]. by eapply Hsome.
    + rewrite app_nil_r. apply P2.
  - intros σ d s t'. rewrite lookup_insert. case_decide as E; [|by apply P3'].
    intros [= <-] Ht' Earr. subst σ. assert (d = DestinationID p) as -> by by eapply Hdistinct.
    by simplify_eq.
  - intros σ1 σ2 s1 s2. rewrite !lookup_insert. repeat case_decide; intros; simplify_eq; try done.
    + destruct (P3' σ2 (DestinationID p) s2 s1) as [Hf2 _]; [done..|]. by eapply Hu.
    + destruct (P3' σ1 (DestinationID p) s1 s2) as [Hf1 _]; [done..|]. by eapply Hu.
    + by eapply P4.
Qed.

(** A later destination: its hosts are appended. *)
Lemma policy_step_append pol p h pm t s :
  rm !! DestinationID p = Some t → pm !! SourceID p = Some s →
  policy_inv routes rm pol (h, pm) →
  policy_inv routes rm (pol ++ [p])
    ((sappend h s (read h t)).1, <[SourceID p := (sappend h s (read h t)).2]> pm).
Proof.
  intros Ht Hs (P1 & P2 & P3 & P4). simpl in *.
  pose proof (P2 (SourceID p)) as Hs2. rewrite Hs in Hs2. destruct Hs2 as (Hws & Hrs & Hne).
  destruct (P1 _ _ Ht) as [Hwt Hrt]. pose proof (append_spec "" h s (read h t) Hws) as Ha.
  unfold sappend. destruct (append "" h s (read h t)) as [h' s'].
  destruct Ha as (Hwf' & Hread' & Harr & Hlen & Hother). simpl.
  assert (∀ σ u, pm !! σ = Some u → σ ≠ SourceID p →
            wf_slice h' u ∧ read h' u = read h u ∧ arr u ≠ arr s') as Hpm.
  { intros σ u Hu Hσ. assert (arr u ≠ arr s) as Hne' by (intros E; by apply Hσ, (P4 _ _ u s)).
    pose proof (P2 σ) as Hσ2. rewrite Hu in Hσ2. destruct Hσ2 as (Hwu & _).
    destruct (Hother u Hwu) as [??]; [done|]. split_and!; [done..|].
    pose proof (wf_arr _ _ Hwu). destruct Harr as [(-> & _)|]; [done|lia]. }
  assert (∀ d u, rm !! d = Some u →
            wf_slice h' u ∧ read h' u = read h u ∧ (arr u = arr s' → arr u = arr s ∧ arr s' = arr s ∧
               len s ≤ len s' ∧ cap s' = cap s)) as Hrm.
  { intros d u Hu. destruct (P1 d u Hu) as [Hwu _].
    destruct (Hother u Hwu) as [??].
    { intros E. destruct (P3 (SourceID p) d s u) as (_ & ? & ?); done. }
    split_and!; [done..|]. intros E. pose proof (wf_arr _ _ Hwu). destruct Harr; naive_solver lia. }
  assert (∀ σ d, first_destination routes pol σ = Some d →
            first_destination routes (pol ++ [p]) σ = Some d) as Hfd
    by (intros σ d E; by rewrite first_destination_snoc, E).
  split_and!; simpl.
  - intros d u Hu. destruct (Hrm d u Hu) as (? & -> & _). split; [done|]. by apply P1.
  - intros σ. rewrite lookup_insert, allowed_hosts_snoc. case_decide as E.
    + subst σ. rewrite Hread', Hrs, Hrt.
      split_and!; [done..|]. by destruct (allowed_hosts routes pol (SourceID p)).
    + rewrite app_nil_r. specialize (P2 σ).
      destruct (pm !! σ) as [u|] eqn:Eu; [|done]. destruct P2 as (? & ? & ?).
      destruct (Hpm σ u Eu) as (? & -> & _); [done|]. by split_and!.
  - intros σ d u t'. rewrite lookup_insert. case_decide as E.
    + intros [= <-] Ht' Earr. subst σ. destruct (Hrm d t' Ht') as (_ & _ & Hx).
      destruct (Hx Earr) as (E1 & _ & ? & ?).
      destruct (P3 (SourceID p) d s t' Hs Ht' E1) as (? & ? & ?). split_and!; [by apply Hfd|lia|congruence].
    + intros Hu Ht' Earr. destruct (P3 σ d u t' Hu Ht' Earr) as (? & ?). eauto.
  - intros σ1 σ2 s1 s2. rewrite !lookup_insert. repeat case_decide; intros; simplify_eq; try done.
    + exfalso. by destruct (Hpm σ2 s2) as (_ & _ & []).
    + exfalso. by destruct (Hpm σ1 s1) as (_ & _ & []).
    + by eapply P4.
Qed.

Lemma policy_map_spec h pol :
  (∀ d t, rm !! d = Some t → wf_slice h t ∧ read h t = internal_hosts routes d) →
  unshared routes pol → policy_inv routes rm pol (policy_map rm h pol).
Proof.
  intros Hh. unfold policy_map. induction pol as [|p pol IH] using rev_ind; intros Hu.
  - split_and!; simpl; [done|intros σ; by rewrite lookup_empty|..]; intros; by rewrite lookup_empty in *.
  - rewrite foldl_app. specialize (IH (unshared_prefix _ _ _ Hu)).
    destruct (foldl (add_policy rm) (h, ∅) pol) as [h1 pm]. simpl. unfold add_policy.
    destruct (rm !! DestinationID p) as [t|] eqn:Et; [|by apply policy_step_skip].
    destruct (pm !! SourceID p) as [s|] eqn:Es; [|by apply policy_step_share].
    pose proof (policy_step_append pol p h1 pm t s Et Es IH) as Hp.
    by destruct (sappend h1 s (read h1 t)).
Qed.
End policy_phase.

(** The last loop, over slices with arrays of their own. *)
Lemma emit_spec `{Marshal} version h entries (hosts : string → list string) :
  NoDup entries.*1 →
  (∀ σ s, (σ, s) ∈ entries → wf_slice h s ∧ read h s = hosts σ) →
  (∀ σ1 σ2 s1 s2, (σ1, s1) ∈ entries → (σ2, s2) ∈ entries → arr s1 = arr s2 → σ1 = σ2) →
  emit version h entries = (λ σ, wanted_sidecar version σ (hosts σ)) <$> entries.*1.
Proof.
  revert h; induction entries as [|[σ s] entries IH]; intros h Hnd Hr Hd; [done|].
  apply NoDup_cons in Hnd as [Hσ Hnd]. simpl.
  destruct (Hr σ s) as [Hws Hrs]; [by left|].
  destruct (map_in_place_spec (λ host, "internal/" +:+ host) h s Hws) as (Hwf & Hread & Hother).
  rewrite Hread, Hrs. f_equal. apply IH; [done|..].
  - intros σ' s' Hin. destruct (Hr σ' s') as [Hws' Hrs']; [by right|].
    destruct (Hother s' Hws') as [? ->]; [|done]. intros E.
    assert (σ' = σ) as -> by (eapply Hd; [by right|by left|done]).
    apply Hσ. apply list_elem_of_fmap. by exists (σ, s').
  - intros σ1 σ2 s1 s2 H1 H2. apply Hd; by right.
Qed.
End lemmas.

(** ** Properties *)

(** C28. As long as no two sources start with the hosts of one destination, the
    slices that share arrays do not get in each other's way: the resources are
    the default sidecar and, for exactly the sources that may reach some internal
    host, one sidecar that selects the source and lists those hosts in order,
    each prefixed once, whatever order Go ranges in and however it grows slices. *)
Theorem unshared_sidecars_correct `{GrowSlice} `{MapOrder} `{Marshal}
    (routes : gslice RouteWithBackends) (policies : gslice Policy) (version : string)
    (Hunshared : unshared (elems routes) (elems policies)) :
  ∃ sources, NoDup sources ∧
    (∀ s, s ∈ sources ↔ allowed_hosts (elems routes) (elems policies) s ≠ []) ∧
    CreateSidecarResources routes policies version =
      mkResource DefaultSidecarName version (body_of (PSidecar default_sidecar)) ::
      ((λ s, wanted_sidecar version s (allowed_hosts (elems routes) (elems policies) s)) <$> sources).
Proof.
  unfold CreateSidecarResources. destruct (route_map_spec (elems routes)) as [Hrm Hd].
  destruct (route_map (elems routes)) as [h rm]. simpl in Hrm, Hd.
  destruct (policy_map_spec (elems routes) rm) with (h := h) (pol := elems policies)
    as (P1 & P2 & P3 & P4).
  - intros d E. specialize (Hrm d). by rewrite E in Hrm.
  - intros d t E. specialize (Hrm d). rewrite E in Hrm. by destruct Hrm as (_ & _ & ?).
  - exact Hd.
  - intros d t E. specialize (Hrm d). rewrite E in Hrm. by destruct Hrm as (? & ? & _).
  - exact Hunshared.
  - destruct (policy_map rm h (elems policies)) as [h' pm]. simpl in *.
    exists (map_order pm).*1. split; [apply NoDup_map_order_fst|]. split.
    + intros s. rewrite list_elem_of_fmap. specialize (P2 s). split.
      * intros ([k v] & -> & Hin%elem_of_map_order). simpl in *. rewrite Hin in P2. by destruct P2 as (_&_&?).
      * intros Hne. destruct (pm !! s) as [v|] eqn:E; [|done]. exists (s, v).
        by rewrite elem_of_map_order.
    + f_equal. apply emit_spec; [apply NoDup_map_order_fst|..].
      * intros s v Hin%elem_of_map_order. specialize (P2 s). rewrite Hin in P2.
        by destruct P2 as (?&?&_).
      * intros s1 s2 v1 v2 H2%elem_of_map_order H3%elem_of_map_order. by apply P4.
Qed.

Definition w_internal (host process : string) : RouteWithBackends :=
  mkRouteWithBackends host "" (mkBackendSet Nil) process 100 true "127.1.0.1".

Lemma unshared_sidecars_correct_witness :
  let routes := Sl [w_internal "a.internal" "p1"; w_internal "b.internal" "p2"] in
  let policies := Sl [mkPolicy "s1" "p1"; mkPolicy "s2" "p2"; mkPolicy "s1" "p2"] in
  ∃ sources, @CreateSidecarResources go_grow asc_order transparent routes policies "1" =
    @mkResource transparent DefaultSidecarName "1" (Some (PSidecar default_sidecar)) ::
    ((λ s, @wanted_sidecar transparent "1" s (allowed_hosts (elems routes) (elems policies) s)) <$> sources).
Proof.
  cbv zeta.
  edestruct (@unshared_sidecars_correct go_grow asc_order transparent
    (Sl [w_internal "a.internal" "p1"; w_internal "b.internal" "p2"])
    (Sl [mkPolicy "s1" "p1"; mkPolicy "s2" "p2"; mkPolicy "s1" "p2"]) "1")
    as (sources & _ & _ & E).
  - assert (∀ s, first_destination [w_internal "a.internal" "p1"; w_internal "b.internal" "p2"]
        [mkPolicy "s1" "p1"; mkPolicy "s2" "p2"; mkPolicy "s1" "p2"] s =
        if decide (s = "s1") then Some "p1" else if decide (s = "s2") then Some "p2" else None) as Hf.
    { intros s. destruct (decide (s = "s1")) as [->|H1]; [reflexivity|].
      destruct (decide (s = "s2")) as [->|H2]; [reflexivity|].
      unfold first_destination. rewrite !filter_cons, !decide_False by (cbv [SourceID mkPolicy Source SrcID]; intuition congruence).
      reflexivity. }
    intros s1 s2 d. simpl elems. rewrite !Hf. repeat case_decide; congruence.
  - exists sources. exact E.
Defined.

(** Two sources that may reach the same destination break it: they share the
    destination's slice, so in every map order one of the two sidecars lists the
    hosts prefixed twice. *)
Theorem shared_destination_prefixed_twice `{GrowSlice} `{MapOrder}
    (host process s1 s2 version : string) (Hne : s1 ≠ s2) :
  let sidecar s hosts := @mkResource transparent s version (Some (PSidecar (source_sidecar s hosts))) in
  ∃ first second, [first; second] ≡ₚ [s1; s2] ∧
    @CreateSidecarResources _ _ transparent (Sl [w_internal host process])
      (Sl [mkPolicy s1 process; mkPolicy s2 process]) version =
    [ @mkResource transparent DefaultSidecarName version (Some (PSidecar default_sidecar));
      sidecar first ["internal/" +:+ host];
      sidecar second ["internal/" +:+ ("internal/" +:+ host)] ].
Proof.
  cbv zeta. unfold CreateSidecarResources, route_map, policy_map. cbn [elems foldl].
  unfold add_route, add_policy. cbn -[lookup insert emit literal1].
  rewrite lookup_empty. change (literal1 [] host) with ([[host]], mkSlice 0 1 1).
  cbv beta iota. rewrite !lookup_insert_eq. cbv beta iota. rewrite lookup_empty. cbv beta iota.
  rewrite lookup_insert_ne by done. rewrite lookup_empty. cbv beta iota.
  set (d := mkSlice 0 1 1).
  assert (map_order (<[s2 := d]> (<[s1 := d]> (∅ : gmap string slice))) ≡ₚ [(s1, d); (s2, d)]) as Hp.
  { rewrite map_order_perm, map_to_list_insert by (by rewrite lookup_insert_ne, lookup_empty).
    rewrite map_to_list_insert by apply lookup_empty. rewrite map_to_list_empty. apply Permutation_swap. }
  assert (∃ a b, map_order (<[s2 := d]> (<[s1 := d]> (∅ : gmap string slice))) = [(a, d); (b, d)] ∧
            [a; b] ≡ₚ [s1; s2]) as (a & b & -> & Hab).
  { destruct (Permutation_length_2_inv (symmetry Hp)) as [->| ->]; eexists _, _; (split; [done|]);
      [done|apply Permutation_swap]. }
  exists a, b. split; [exact Hab|]. reflexivity.
Qed.

Lemma shared_destination_prefixed_twice_witness :
  ∃ r1 r2 r3, @CreateSidecarResources go_grow asc_order transparent (Sl [w_internal "a.internal" "p"])
     (Sl [mkPolicy "s1" "p"; mkPolicy "s2" "p"]) "1" = [r1; r2; r3] ∧
   @Body transparent r3 =
     Some (PSidecar (source_sidecar (@Name transparent r3) ["internal/internal/a.internal"])).
Proof.
  destruct (@shared_destination_prefixed_twice go_grow asc_order "a.internal" "p" "s1" "s2" "1")
    as (a & b & _ & E); [discriminate|].
  eexists _, _, _. split; [exact E|]. reflexivity.
Defined.

(** Sources that share a destination's array also overwrite each other's
    further hosts: with the growth of Go's runtime, a destination with three hosts
    and two sources that each reach one more destination, the first source's last
    host is replaced by the second source's, which it may not reach. *)
Theorem shared_destination_overwrites `{MapOrder} :
  let routes := Sl [w_internal "a" "p"; w_internal "b" "p"; w_internal "c" "p";
                    w_internal "x" "q1"; w_internal "y" "q2"] in
  let policies := Sl [mkPolicy "s1" "p"; mkPolicy "s2" "p"; mkPolicy "s1" "q1"; mkPolicy "s2" "q2"] in
  let '(h, routeMap) := @route_map go_grow (elems routes) in
  let '(h, policyMap) := @policy_map go_grow routeMap h (elems policies) in
  allowed_hosts (elems routes) (elems policies) "s1" = ["a"; "b"; "c"; "x"] ∧
  read h <$> policyMap !! "s1" = Some ["a"; "b"; "c"; "y"].
Proof. vm_compute. split; reflexivity. Qed.
