(* ===== verification/Gateways.v ===== *)
(** * The gateway resource ([CreateGatewayResources] of [snapshot/config.go])

    One gateway with a plain HTTP server and one TLS server per certificate the
    librarian locates.  The librarian is an interface, implemented by [Certs]. *)
From S2P Require Import Prelude Certs Istio.

(** ** The interface *)
(** [Locate] of [certs.Librarian]: the entries found, and the error if any. *)
Class Librarian := librarian_Locate : list PemInfo * option string.

(** ** Operations *)
Definition DefaultGatewayName : string := "cloudfoundry-ingress".
Definition gatewayPort : Z := 80.

Definition http_server : Server := mkServer (mkPort gatewayPort "http" "http") None ["*"].

(** [certPair.Hosts[0]] panics when there is no host. *)
Definition tls_server (certPair : PemInfo) : outcome Server :=
  match Hosts certPair with
  | [] => Panic "index out of range"
  | host :: _ =>
      Ret (mkServer (mkPort 443 "https" host)
             (Some (mkTls (CertPath certPair) (KeyPath certPair))) (Hosts certPair))
  end.

Definition add_tls (servers : list Server) (certPair : PemInfo) : outcome (list Server) :=
  s ← tls_server certPair; Ret (servers ++ [s]).

(** The error of [Locate] is logged; the entries found before it are served. *)
Definition CreateGatewayResources `{Librarian} `{Marshal} : outcome (list Resource) :=
  let '(certPairs, _) := librarian_Locate in
  servers ← foldM add_tls [http_server] certPairs;
  Ret [mkResource DefaultGatewayName "1" (body_of (PGateway (mkGateway servers)))].

(** The locator as the librarian. *)
Definition locator_librarian `{X509} (l : Locator) : Librarian := Locate l.

(** ** Lemmas *)
Definition server_of (info : PemInfo) : Server :=
  mkServer (mkPort 443 "https" (default "" (head (Hosts info))))
    (Some (mkTls (CertPath info) (KeyPath info))) (Hosts info).

Lemma add_tls_one servers info :
  Hosts info ≠ [] → add_tls servers info = Ret (servers ++ [server_of info]).
Proof. unfold add_tls, tls_server, server_of. by destruct (Hosts info). Qed.

Lemma add_tls_all infos servers :
  Forall (λ info, Hosts info ≠ []) infos →
  foldM add_tls servers infos = Ret (servers ++ (server_of <$> infos)).
Proof.
  intros Hall. revert servers; induction Hall as [|info infos Hi _ IH]; intros servers; simpl.
  { by rewrite app_nil_r. }
  rewrite add_tls_one by done. simpl. by rewrite IH, <-app_assoc.
Qed.

Lemma located_have_hosts `{X509} l ps :
  Forall (λ info, Hosts info ≠ []) (locate l ps []).1.
Proof.
  induction ps as [|p ps IH]; simpl; [constructor|].
  pose proof (createPemInfo_first l p) as Hc. destruct (first_host p) as [h|].
  - destruct Hc as (hs & Hhs & ->). rewrite locate_app. simpl. constructor; [|done].
    simpl. by destruct hs.
  - destruct Hc as [err ->]. constructor.
Qed.

(** ** Properties *)

(** With the locator as its librarian the gateway is built without a panic:
    it has the HTTP server followed by one TLS server per located certificate, in
    order, named after its first host and pointing at the two stowed files; and
    when a certificate does not decode the gateway silently serves only the ones
    before it. *)
Theorem gateway_serves_located `{X509} `{Marshal} (l : Locator) :
  let _ := locator_librarian l in
  CreateGatewayResources = Ret [mkResource DefaultGatewayName "1" (body_of
    (PGateway (mkGateway (http_server :: (server_of <$> (Locate l).1)))))].
Proof.
  cbv zeta. unfold CreateGatewayResources, librarian_Locate, locator_librarian.
  pose proof (located_have_hosts l (pairs l)) as Hh. unfold Locate in *.
  destruct (locate l (pairs l) []) as [infos err]. simpl in Hh.
  by rewrite (add_tls_all infos) by done.
Qed.
