(* ===== verification/DestinationRules.v ===== *)
(** * Destination rules ([CreateDestinationRuleResources] of [snapshot/config.go])

    One rule per host (and side), with a subset per built route. *)
From S2P Require Import Prelude GoStrings BackendSets FixWeights Istio.

(** ** Operations *)
Definition destinationRuleName : RouteWithBackends → string := resource_name "copilot-rule-for-".

Definition subset_of (route : RouteWithBackends) : Subset :=
  mkSubset (CapiProcessGUID route) {[ "cfapp" := CapiProcessGUID route ]}.

(** One round of the loop; [model.Config] only wraps the rule. *)
Definition add_subset (rules : gmap string DestinationRule) (route : RouteWithBackends)
    : gmap string DestinationRule :=
  let name := destinationRuleName route in
  let rule := match rules !! name with
              | Some rule => rule
              | None => mkDestinationRule (FixWeights.Hostname route) []
              end in
  <[name := mkDestinationRule (DrHost rule) (Subsets rule ++ [subset_of route])]> rules.

Definition CreateDestinationRuleResources `{MapOrder} `{Marshal}
    (routes : gslice RouteWithBackends) (version : string) : list Resource :=
  let rules := foldl add_subset ∅ (elems routes) in
  (λ e, mkResource e.1 version (body_of (PDestinationRule e.2))) <$> map_order rules.

(** ** Specification *)
(** The built routes of a rule. *)
Definition rule_routes (routes : list RouteWithBackends) (name : string) : list RouteWithBackends :=
  filter (λ r, destinationRuleName r = name) routes.
Definition wanted_rule (routes : list RouteWithBackends) (name : string) : option DestinationRule :=
  match rule_routes routes name with
  | [] => None
  | r :: rs => Some (mkDestinationRule (FixWeights.Hostname r) (subset_of <$> r :: rs))
  end.

(** ** Lemmas *)
Lemma destinationRuleName_inj r1 r2 :
  destinationRuleName r1 = destinationRuleName r2 →
  FixWeights.Internal r1 = FixWeights.Internal r2 ∧ FixWeights.Hostname r1 = FixWeights.Hostname r2.
Proof. by apply resource_name_inj. Qed.

Lemma rules_lookup routes name :
  foldl add_subset ∅ routes !! name = wanted_rule routes name.
Proof.
  induction routes as [|r routes IH] using rev_ind; [done|].
  rewrite foldl_app. simpl. unfold add_subset, wanted_rule, rule_routes in *.
  rewrite filter_app, filter_cons, lookup_insert. case_decide as E.
  - subst name. rewrite IH.
    destruct (filter _ routes) as [|r0 rs]; simpl; [done|].
    do 2 f_equal. by rewrite fmap_app.
  - by rewrite app_nil_r.
Qed.

(** ** Properties *)

(** C30. There is one destination rule for each name that some built route has, a
    name tells hosts and sides apart, and the rule carries the host and one subset
    per built route of that name, in the order of the routes (two paths of one
    process give the same subset twice). *)
Theorem destination_rules_correct `{MapOrder} `{Marshal} (routes : gslice RouteWithBackends)
    (version : string) :
  (∃ names, NoDup names ∧
    (∀ name, name ∈ names ↔ ∃ r, r ∈ elems routes ∧ destinationRuleName r = name) ∧
    CreateDestinationRuleResources routes version =
      (λ name, mkResource name version
         (wanted_rule (elems routes) name ≫= λ rule, body_of (PDestinationRule rule))) <$> names) ∧
  (∀ r1 r2, destinationRuleName r1 = destinationRuleName r2 ↔
     FixWeights.Internal r1 = FixWeights.Internal r2 ∧
     FixWeights.Hostname r1 = FixWeights.Hostname r2).
Proof.
  split.
  - unfold CreateDestinationRuleResources. set (rules := foldl add_subset ∅ (elems routes)).
    exists (map_order rules).*1. split; [apply NoDup_map_order_fst|]. split.
    + intros name. rewrite elem_of_map_order_fst. unfold rules. rewrite rules_lookup.
      unfold wanted_rule, rule_routes.
      pose proof (filter_not_nil (λ r, destinationRuleName r = name) (elems routes)) as Hf.
      destruct (filter _ _) as [|r rs]; split.
      * by intros [].
      * intros Hr. by apply Hf in Hr.
      * intros _. by apply Hf.
      * eauto.
    + rewrite <-list_fmap_compose. apply list_fmap_ext. intros i [name rule] Hi. simpl. f_equal.
      apply list_elem_of_lookup_2, elem_of_map_order in Hi. unfold rules in Hi.
      rewrite rules_lookup in Hi. by rewrite Hi.
  - intros r1 r2. split; [apply destinationRuleName_inj|].
    unfold destinationRuleName, resource_name. by intros [-> ->].
Qed.
