(* ===== verification/ServiceEntries.v ===== *)
(** * Service entries ([CreateServiceEntryResources], [createServiceEntry] and
    [createEndpoint] of [snapshot/config.go])

    One entry per host (and side), created from the first built route of the name
    and extended with the endpoints of every one. *)
From S2P Require Import Prelude GoStrings BackendSets FixWeights Istio.

(** ** Operations *)
Definition serviceEntryName : RouteWithBackends → string :=
  resource_name "copilot-service-entry-for-".

Definition route_backends (route : RouteWithBackends) : gslice Backend := Backends (rBackends route).

Definition createEndpoint (route : RouteWithBackends) : list Endpoint :=
  (λ b, mkEndpoint (Address b) {[ "http" := Port b ]} {[ "cfapp" := CapiProcessGUID route ]})
    <$> elems (route_backends route).

(** The keys of [uniqueContainerPorts], in the order Go ranges over them. *)
Definition unique_ports `{MapOrder} (route : RouteWithBackends) : list Z :=
  (map_order (insert_all ContainerPort (λ _, ()) (elems (route_backends route)) (∅ : gmap Z ()))).*1.

Definition http_port (containerPort : Z) : GatewayPort := mkPort containerPort "http" "http".

Definition createServiceEntry `{MapOrder} (route : RouteWithBackends) : ServiceEntry :=
  mkServiceEntry [FixWeights.Hostname route]
    (if FixWeights.Internal route then Sl [FixWeights.VIP route] else Nil)
    (foldl (λ ports p, gappend ports [http_port p]) Nil (unique_ports route)) [].

(** One round of the loop.  The condition [Backends != nil || len(...) != 0] is
    that the slice is not nil. *)
Definition add_entry `{MapOrder} (entries : gmap string ServiceEntry) (route : RouteWithBackends)
    : gmap string ServiceEntry :=
  let name := serviceEntryName route in
  if decide (route_backends route ≠ Nil ∨ glen (route_backends route) ≠ 0) then
    let se := match entries !! name with Some se => se | None => createServiceEntry route end in
    <[name := mkServiceEntry (SeHosts se) (Addresses se) (SePorts se)
                (Endpoints se ++ createEndpoint route)]> entries
  else entries.

Definition CreateServiceEntryResources `{MapOrder} `{Marshal} (routes : gslice RouteWithBackends)
    (version : string) : list Resource :=
  (λ e, mkResource e.1 version (body_of (PServiceEntry e.2)))
    <$> map_order (foldl add_entry ∅ (elems routes)).

(** ** Specification *)
Definition entry_routes (routes : list RouteWithBackends) (name : string) : list RouteWithBackends :=
  filter (λ r, serviceEntryName r = name ∧ route_backends r ≠ Nil) routes.
Definition wanted_entry `{MapOrder} (routes : list RouteWithBackends) (name : string)
    : option ServiceEntry :=
  match entry_routes routes name with
  | [] => None
  | r :: rs =>
      let se := createServiceEntry r in
      Some (mkServiceEntry (SeHosts se) (Addresses se) (SePorts se) ((r :: rs) ≫= createEndpoint))
  end.

(** ** Lemmas *)
Section lemmas.
Context `{O : MapOrder}.

Lemma not_nil_cond (s : gslice Backend) : s ≠ Nil ∨ glen s ≠ 0 ↔ s ≠ Nil.
Proof. destruct s; unfold glen; simpl; naive_solver. Qed.

Lemma entries_lookup routes name :
  foldl add_entry ∅ routes !! name = wanted_entry routes name.
Proof.
  induction routes as [|r routes IH] using rev_ind; [done|].
  rewrite foldl_app. cbn [foldl]. unfold add_entry at 1. unfold wanted_entry, entry_routes in *.
  rewrite filter_app, filter_cons.
  destruct (decide (route_backends r ≠ Nil)) as [Hne|Hne].
  - rewrite decide_True by (by apply not_nil_cond). rewrite lookup_insert.
    destruct (decide (serviceEntryName r = name)) as [E|E].
    + rewrite decide_True by done. subst name. rewrite IH.
      destruct (filter _ routes) as [|r0 rs]; [simpl; by rewrite app_nil_r|].
      cbn [app]. do 2 f_equal. cbn [Endpoints]. rewrite !bind_cons, bind_app, <-app_assoc.
      do 2 f_equal. simpl. by rewrite app_nil_r.
    + rewrite decide_False, app_nil_r by naive_solver. apply IH.
  - rewrite decide_False by (by rewrite not_nil_cond).
    rewrite decide_False, app_nil_r by naive_solver. apply IH.
Qed.

Lemma service_ports r :
  elems (SePorts (createServiceEntry r)) = http_port <$> unique_ports r.
Proof.
  simpl. assert (∀ s : gslice GatewayPort, elems (foldl (λ ports p, gappend ports [http_port p]) s (unique_ports r))
    = elems s ++ (http_port <$> unique_ports r)) as Hf; [|by rewrite Hf].
  induction (unique_ports r) as [|p l IH]; intros s; simpl; [by rewrite app_nil_r|].
  by rewrite IH, elems_gappend, <-app_assoc.
Qed.

Lemma elem_of_unique_ports r p :
  p ∈ unique_ports r ↔ ∃ b, b ∈ elems (route_backends r) ∧ ContainerPort b = p.
Proof.
  unfold unique_ports. rewrite elem_of_map_order_fst, lookup_insert_all, lookup_empty.
  destruct (last_with ContainerPort p _) as [b|] eqn:E.
  - apply last_with_Some in E as [??]. split; eauto.
  - rewrite last_with_None in E. split; [by intros []|]. intros (b & Hb & Hp). by destruct (E b).
Qed.
End lemmas.

(** ** Properties *)

(** C29. There is one service entry for each name that some built route with
    backends has; it lists the endpoints of all those routes in order, each under
    the label of its own process, while its host, its addresses (the VIP of an
    internal route) and its ports come from the first of them: one port per
    distinct container port of that route's backends. *)
Theorem service_entries_correct `{MapOrder} `{Marshal} (routes : gslice RouteWithBackends)
    (version : string) :
  ∃ names, NoDup names ∧
    (∀ name, name ∈ names ↔
       ∃ r, r ∈ elems routes ∧ serviceEntryName r = name ∧ route_backends r ≠ Nil) ∧
    CreateServiceEntryResources routes version =
      (λ name, mkResource name version
         (wanted_entry (elems routes) name ≫= λ se, body_of (PServiceEntry se))) <$> names ∧
    ∀ name r rs, entry_routes (elems routes) name = r :: rs →
      ∃ se, wanted_entry (elems routes) name = Some se ∧
        Endpoints se = (r :: rs) ≫= createEndpoint ∧
        NoDup (unique_ports r) ∧ elems (SePorts se) = http_port <$> unique_ports r ∧
        ∀ p, p ∈ unique_ports r ↔ ∃ b, b ∈ elems (route_backends r) ∧ ContainerPort b = p.
Proof.
  unfold CreateServiceEntryResources. set (entries := foldl add_entry ∅ (elems routes)).
  exists (map_order entries).*1. split_and!; [apply NoDup_map_order_fst|..].
  - intros name. rewrite elem_of_map_order_fst. unfold entries. rewrite entries_lookup.
    unfold wanted_entry, entry_routes.
    pose proof (filter_not_nil (λ r, serviceEntryName r = name ∧ route_backends r ≠ Nil) (elems routes)) as Hf.
    destruct (filter _ _) as [|r rs]; split.
    + by intros [].
    + intros Hr. by apply Hf in Hr.
    + intros _. by apply Hf.
    + eauto.
  - rewrite <-list_fmap_compose. apply list_fmap_ext. intros i [name rule] Hi. simpl. f_equal.
    apply list_elem_of_lookup_2, elem_of_map_order in Hi. unfold entries in Hi.
    rewrite entries_lookup in Hi. by rewrite Hi.
  - intros name r rs Hr. unfold wanted_entry. rewrite Hr. eexists. split; [done|].
    split; [done|]. split; [apply NoDup_map_order_fst|]. split; [apply service_ports|].
    apply elem_of_unique_ports.
Qed.

(** The ports of later routes of the name are missing: of two external routes
    of one host whose processes listen on different ports, the service entry has
    only the first one's port, although it lists the second one's endpoints. *)
Theorem later_ports_missing `{MapOrder} (host : string) (r1 r2 : RouteWithBackends) (b1 b2 : Backend)
    (Hr1 : r1 = mkRouteWithBackends host "/a" (mkBackendSet (Sl [b1])) "p1" 100 false "")
    (Hr2 : r2 = mkRouteWithBackends host "" (mkBackendSet (Sl [b2])) "p2" 100 false "")
    (Hports : ContainerPort b1 ≠ ContainerPort b2) :
  ∃ se, wanted_entry [r1; r2] (serviceEntryName r1) = Some se ∧
    elems (SePorts se) = [http_port (ContainerPort b1)] ∧
    Address <$> [b1; b2] = EpAddress <$> Endpoints se.
Proof.
  assert (entry_routes [r1; r2] (serviceEntryName r1) = [r1; r2]) as E.
  { unfold entry_routes. rewrite !filter_cons, !decide_True by (subst; done). done. }
  unfold wanted_entry. rewrite E. eexists. split; [done|]. cbn [SePorts Endpoints].
  rewrite service_ports. split; [|by subst].
  assert (unique_ports r1 = [ContainerPort b1]) as ->; [|done].
  apply Permutation_singleton_r. unfold unique_ports. rewrite map_order_perm. subst. simpl.
  rewrite insert_empty, map_to_list_singleton. done.
Qed.

Lemma later_ports_missing_witness :
  ∃ se, @wanted_entry asc_order
    [mkRouteWithBackends "h" "/a" (mkBackendSet (Sl [mkBackend "10.0.0.1" 61000 8080])) "p1" 100 false "";
     mkRouteWithBackends "h" "" (mkBackendSet (Sl [mkBackend "10.0.0.2" 61001 9090])) "p2" 100 false ""]
    "copilot-service-entry-for-h" = Some se ∧
    elems (SePorts se) = [http_port 8080] ∧ ["10.0.0.1"; "10.0.0.2"] = EpAddress <$> Endpoints se.
Proof.
  apply (@later_ports_missing asc_order "h" _ _ (mkBackend "10.0.0.1" 61000 8080)
           (mkBackend "10.0.0.2" 61001 9090) eq_refl eq_refl). discriminate.
Defined.
