(* ===== verification/VirtualServices.v ===== *)
(** * Virtual services ([CreateVirtualServiceResources], [createHTTPRoute] and
    [createDestinationWeight] of [snapshot/config.go])

    One virtual service per host (and side).  Its HTTP routes are pointers that the
    code also keeps in a second map, by host and path, to add destinations later;
    the model keeps them in a heap and dereferences them when it marshals. *)
From S2P Require Import Prelude GoStrings GoSort BackendSets FixWeights Collector Istio.

(** ** Operations *)
Definition DefaultGatewayName : string := "cloudfoundry-ingress".

Definition virtualServiceName : RouteWithBackends → string := resource_name "copilot-service-for-".
Definition fullRoute (route : RouteWithBackends) : string :=
  FixWeights.Hostname route +:+ FixWeights.Path route.

(** [route.Backends.Backends[0]] panics when there is none. *)
Definition createDestinationWeight (route : RouteWithBackends) : outcome HTTPRouteDestination :=
  match elems (Backends (rBackends route)) with
  | [] => Panic index_out_of_range
  | b :: _ =>
      Ret (mkRouteDestination (FixWeights.Hostname route) (CapiProcessGUID route)
             (ContainerPort b) (FixWeights.RouteWeight route))
  end.

Definition createHTTPRoute (route : RouteWithBackends) : outcome HTTPRoute :=
  d ← createDestinationWeight route;
  Ret (if FixWeights.Internal route
       then mkHTTPRoute None [d] (Some (mkRetry 3 "5xx")) (Some 15%Z)
       else mkHTTPRoute None [d] None None).

(** A virtual service under construction: its routes are pointers. *)
Record vservice := mkVservice {
  vs_hosts : list string; vs_gateways : gslice string; vs_http : list nat;
}.
Record vstate := mkVstate {
  virtualServices : gmap string vservice;
  httpRoutes : gmap string nat;
  http_heap : list HTTPRoute;
}.

Definition add_destination (d : HTTPRouteDestination) (r : HTTPRoute) : HTTPRoute :=
  mkHTTPRoute (MatchPrefix r) (HRoute r ++ [d]) (Retries r) (TimeoutSeconds r).
Definition with_match (prefix : string) (r : HTTPRoute) : HTTPRoute :=
  mkHTTPRoute (Some prefix) (HRoute r) (Retries r) (TimeoutSeconds r).

(** The virtual service a route starts when its name is new. *)
Definition new_vservice (route : RouteWithBackends) : vservice :=
  mkVservice [FixWeights.Hostname route]
    (if FixWeights.Internal route then Nil else Sl [DefaultGatewayName]) [].

(** One round of the loop. *)
Definition add_virtual (st : vstate) (route : RouteWithBackends) : outcome vstate :=
  let '(mkVstate services routes h) := st in
  let name := virtualServiceName route in
  let vs := match services !! name with Some vs => vs | None => new_vservice route end in
  match routes !! fullRoute route with
  | Some r =>
      d ← createDestinationWeight route;
      Ret (mkVstate (<[name := vs]> services) routes (alter (add_destination d) r h))
  | None =>
      hr ← createHTTPRoute route;
      let r := length h in
      if decide (FixWeights.Path route ≠ "") then
        let hr := if FixWeights.Internal route then hr else with_match (FixWeights.Path route) hr in
        Ret (mkVstate (<[name := mkVservice (vs_hosts vs) (vs_gateways vs) (r :: vs_http vs)]> services)
               (<[fullRoute route := r]> routes) (h ++ [hr]))
      else
        Ret (mkVstate (<[name := mkVservice (vs_hosts vs) (vs_gateways vs) (vs_http vs ++ [r])]> services)
               (<[fullRoute route := r]> routes) (h ++ [hr]))
  end.

(** What marshalling sees of a virtual service. *)
Definition deref_service (h : list HTTPRoute) (vs : vservice) : VirtualService :=
  mkVirtualService (vs_hosts vs) (vs_gateways vs) (omap (λ r, h !! r) (vs_http vs)).

Definition build_services (routes : list RouteWithBackends) : outcome vstate :=
  foldM add_virtual (mkVstate ∅ ∅ []) routes.

Definition CreateVirtualServiceResources `{MapOrder} `{Marshal} (routes : gslice RouteWithBackends)
    (version : string) : outcome (list Resource) :=
  st ← build_services (elems routes);
  Ret ((λ e, mkResource e.1 version (body_of (PVirtualService (deref_service (http_heap st) e.2))))
         <$> map_order (virtualServices st)).

(** ** Specification *)
(** What the collector guarantees: every route has a backend. *)
Definition has_backend (r : RouteWithBackends) : Prop := elems (Backends (rBackends r)) ≠ [].

Definition dest_of (r : RouteWithBackends) : HTTPRouteDestination :=
  mkRouteDestination (FixWeights.Hostname r) (CapiProcessGUID r)
    (match elems (Backends (rBackends r)) with b :: _ => ContainerPort b | [] => 0%Z end)
    (FixWeights.RouteWeight r).

(** The built routes of one host and path, and the HTTP route made of them: the
    first one decides its match and its retries. *)
Definition full_group (full : string) (routes : list RouteWithBackends) : list RouteWithBackends :=
  filter (λ r, fullRoute r = full) routes.
Definition http_of (r : RouteWithBackends) (routes : list RouteWithBackends) : HTTPRoute :=
  mkHTTPRoute
    (if decide (FixWeights.Path r ≠ "" ∧ FixWeights.Internal r = false)
     then Some (FixWeights.Path r) else None)
    (dest_of <$> full_group (fullRoute r) routes)
    (if FixWeights.Internal r then Some (mkRetry 3 "5xx") else None)
    (if FixWeights.Internal r then Some 15%Z else None).

(** The routes that come first with their host and path. *)
Fixpoint firsts_from (seen : list string) (routes : list RouteWithBackends)
    : list RouteWithBackends :=
  match routes with
  | [] => []
  | r :: routes =>
      if decide (fullRoute r ∈ seen) then firsts_from seen routes
      else r :: firsts_from (fullRoute r :: seen) routes
  end.
Definition firsts : list RouteWithBackends → list RouteWithBackends := firsts_from [].

(** The routes of one service in the order of its HTTP routes: those with a path
    latest first, then those without. *)
Definition service_order (l : list RouteWithBackends) : list RouteWithBackends :=
  reverse (filter (λ r, FixWeights.Path r ≠ "") l) ++ filter (λ r, ¬ FixWeights.Path r ≠ "") l.
Definition service_firsts (name : string) (routes : list RouteWithBackends) : list RouteWithBackends :=
  service_order (filter (λ r, virtualServiceName r = name) (firsts routes)).

Definition wanted_service (routes : list RouteWithBackends) (name : string) : option VirtualService :=
  match filter (λ r, virtualServiceName r = name) routes with
  | [] => None
  | r :: _ =>
      Some (mkVirtualService [FixWeights.Hostname r]
              (if FixWeights.Internal r then Nil else Sl [DefaultGatewayName])
              ((λ r, http_of r routes) <$> service_firsts name routes))
  end.

(** Host and path determine the side, and no two hosts and paths run together. *)
Definition no_collisions (routes : list RouteWithBackends) : Prop :=
  ∀ r1 r2, r1 ∈ routes → r2 ∈ routes →
    fullRoute r1 = fullRoute r2 ∨ routeKey r1 = routeKey r2 →
    FixWeights.Internal r1 = FixWeights.Internal r2 ∧
    FixWeights.Hostname r1 = FixWeights.Hostname r2 ∧ FixWeights.Path r1 = FixWeights.Path r2.

(** ** Lemmas *)
Lemma createDestinationWeight_spec r :
  has_backend r → createDestinationWeight r = Ret (dest_of r).
Proof. unfold has_backend, createDestinationWeight, dest_of. by destruct (elems _). Qed.

Lemma firsts_snoc_from seen l r :
  firsts_from seen (l ++ [r]) =
  firsts_from seen l ++ (if decide (fullRoute r ∈ seen ++ (fullRoute <$> l)) then [] else [r]).
Proof.
  revert seen; induction l as [|x l IH]; intros seen; cbn [firsts_from app].
  - rewrite fmap_nil, app_nil_r. by case_decide.
  - rewrite fmap_cons. destruct (decide (fullRoute x ∈ seen)) as [Hx|Hx]; rewrite IH.
    + f_equal. apply decide_ext. rewrite !elem_of_app, elem_of_cons.
      split; [tauto|intros [?|[->|?]]; tauto].
    + cbn [app]. f_equal. f_equal. apply decide_ext.
      rewrite !elem_of_app, !elem_of_cons, ?elem_of_app. tauto.
Qed.

Lemma firsts_snoc l r :
  firsts (l ++ [r]) = firsts l ++ (if decide (fullRoute r ∈ fullRoute <$> l) then [] else [r]).
Proof. apply firsts_snoc_from. Qed.

Lemma elem_of_firsts_sub l r : r ∈ firsts l → r ∈ l.
Proof.
  induction l as [|x l IH] using rev_ind; [done|]. rewrite firsts_snoc.
  case_decide; set_solver.
Qed.

Lemma NoDup_firsts l : NoDup (fullRoute <$> firsts l).
Proof.
  induction l as [|x l IH] using rev_ind; [constructor|]. rewrite firsts_snoc.
  case_decide as E; [by rewrite app_nil_r|]. rewrite fmap_app. apply NoDup_app.
  split_and!; [done| |apply NoDup_singleton].
  intros f Hf ->%list_elem_of_singleton. apply E.
  apply list_elem_of_fmap in Hf as (y & -> & Hy%elem_of_firsts_sub). by apply list_elem_of_fmap_2.
Qed.

(** Every host and path has its first route. *)
Lemma firsts_cover l full :
  full ∈ fullRoute <$> l → ∃ r, r ∈ firsts l ∧ fullRoute r = full.
Proof.
  induction l as [|x l IH] using rev_ind; [by intros ?%not_elem_of_nil|].
  rewrite fmap_app, elem_of_app, firsts_snoc. intros [Hl|Hx].
  - destruct (IH Hl) as (r & ? & ?). exists r. split; [set_solver|done].
  - apply list_elem_of_singleton in Hx as ->. case_decide as E.
    + destruct (IH E) as (r & ? & ?). exists r. split; [set_solver|done].
    + exists x. split; [set_solver|done].
Qed.

Lemma full_group_snoc full l r :
  full_group full (l ++ [r]) = full_group full l ++ (if decide (fullRoute r = full) then [r] else []).
Proof. unfold full_group. rewrite filter_app, filter_cons. by case_decide. Qed.

Lemma http_of_snoc r l x :
  http_of r (l ++ [x]) =
  (if decide (fullRoute x = fullRoute r) then add_destination (dest_of x) else id) (http_of r l).
Proof.
  unfold http_of, add_destination. rewrite full_group_snoc, fmap_app.
  destruct (decide (fullRoute x = fullRoute r)); simpl; by rewrite ?app_nil_r.
Qed.

Lemma service_firsts_snoc name l x :
  fullRoute x ∉ fullRoute <$> l →
  service_firsts name (l ++ [x]) =
  if decide (virtualServiceName x = name)
  then if decide (FixWeights.Path x ≠ "") then x :: service_firsts name l
       else service_firsts name l ++ [x]
  else service_firsts name l.
Proof.
  intros Hx. unfold service_firsts, service_order. rewrite firsts_snoc, decide_False by done.
  rewrite filter_app, filter_cons. destruct (decide (virtualServiceName x = name)) as [E|E].
  - rewrite !filter_app, !filter_cons, !filter_nil.
    destruct (decide (FixWeights.Path x ≠ "")) as [Hp|Hp].
    + rewrite (decide_False (P := ¬ _)) by tauto. rewrite app_nil_r.
      rewrite reverse_app. by rewrite <-app_assoc.
    + rewrite (decide_True (P := ¬ _)) by tauto. by rewrite app_nil_r, app_assoc.
  - by rewrite filter_nil, app_nil_r.
Qed.

Lemma service_firsts_old name l x :
  fullRoute x ∈ fullRoute <$> l → service_firsts name (l ++ [x]) = service_firsts name l.
Proof. intros Hx. unfold service_firsts. by rewrite firsts_snoc, decide_True, app_nil_r by done. Qed.

Lemma elem_of_service_firsts name l r :
  r ∈ service_firsts name l ↔ r ∈ firsts l ∧ virtualServiceName r = name.
Proof.
  unfold service_firsts, service_order.
  rewrite elem_of_app, elem_of_reverse, !list_elem_of_filter.
  destruct (decide (FixWeights.Path r ≠ "")); tauto.
Qed.

Lemma service_firsts_nil name l :
  filter (λ r, virtualServiceName r = name) l = [] → service_firsts name l = [].
Proof.
  intros Hl. destruct (service_firsts name l) as [|r rs] eqn:E; [done|]. exfalso.
  assert (r ∈ service_firsts name l) as [Hr ?]%elem_of_service_firsts by (rewrite E; by left).
  apply elem_of_firsts_sub in Hr.
  assert (r ∈ filter (λ r, virtualServiceName r = name) l) as Hin by by apply list_elem_of_filter.
  rewrite Hl in Hin. by apply not_elem_of_nil in Hin.
Qed.

Lemma not_full_snoc full l x :
  full ∉ fullRoute <$> l ++ [x] ↔ full ∉ fullRoute <$> l ∧ full ≠ fullRoute x.
Proof. rewrite fmap_app, not_elem_of_app, fmap_cons, fmap_nil, list_elem_of_singleton. done. Qed.

(** The state after a list of routes: the heap holds the HTTP routes of the first
    routes, the second map their addresses, the services list them in order. *)
Definition vs_inv (routes : list RouteWithBackends) (st : vstate) : Prop :=
  (∀ full, match httpRoutes st !! full with
           | Some i => ∃ r, r ∈ firsts routes ∧ fullRoute r = full ∧
                            http_heap st !! i = Some (http_of r routes)
           | None => full ∉ fullRoute <$> routes
           end) ∧
  (∀ f1 f2 i, httpRoutes st !! f1 = Some i → httpRoutes st !! f2 = Some i → f1 = f2) ∧
  (∀ name, match filter (λ r, virtualServiceName r = name) routes with
           | [] => virtualServices st !! name = None
           | r :: _ => ∃ ps, virtualServices st !! name =
                Some (mkVservice [FixWeights.Hostname r]
                        (if FixWeights.Internal r then Nil else Sl [DefaultGatewayName]) ps) ∧
                Forall2 (λ i r, httpRoutes st !! fullRoute r = Some i) ps (service_firsts name routes)
           end).

(** The service of a route before its round, and what the round makes of it. *)
Lemma service_step routes st x (f : list nat → list nat) hr' h' :
  vs_inv routes st →
  let name := virtualServiceName x in
  let vs := match virtualServices st !! name with Some vs => vs | None => new_vservice x end in
  (∀ ps n, Forall2 (λ i r, httpRoutes st !! fullRoute r = Some i) ps (service_firsts n routes) →
     Forall2 (λ i r, hr' !! fullRoute r = Some i) (if decide (n = name) then f ps else ps)
       (service_firsts n (routes ++ [x]))) →
  let st' := mkVstate (<[name := mkVservice (vs_hosts vs) (vs_gateways vs) (f (vs_http vs))]>
                         (virtualServices st)) hr' h' in
  ∀ n, match filter (λ r, virtualServiceName r = n) (routes ++ [x]) with
       | [] => virtualServices st' !! n = None
       | r :: _ => ∃ ps, virtualServices st' !! n =
            Some (mkVservice [FixWeights.Hostname r]
                    (if FixWeights.Internal r then Nil else Sl [DefaultGatewayName]) ps) ∧
            Forall2 (λ i r, httpRoutes st' !! fullRoute r = Some i) ps (service_firsts n (routes ++ [x]))
       end.
Proof.
  intros (_ & _ & I3) name vs Hf st' n. rewrite filter_app, filter_cons. simpl.
  rewrite lookup_insert. specialize (I3 n). destruct (decide (name = n)) as [E|E].
  - assert (n = name) as En by done. subst n. rewrite decide_True by done. unfold vs.
    destruct (filter _ routes) as [|r rs] eqn:Er; simpl.
    + rewrite I3. eexists. split; [done|].
      pose proof (service_firsts_nil name routes Er) as Hnil.
      specialize (Hf [] name). rewrite decide_True, Hnil in Hf by done. apply Hf. constructor.
    + destruct I3 as (ps & -> & His). eexists. split; [done|]. specialize (Hf ps name His).
      by rewrite decide_True in Hf.
  - rewrite decide_False by done. rewrite filter_nil, app_nil_r.
    destruct (filter _ routes) as [|r rs]; [done|]. destruct I3 as (ps & ? & His).
    exists ps. split; [done|]. specialize (Hf ps n His). by rewrite decide_False in Hf.
Qed.

Lemma firsts_unique l r1 r2 :
  r1 ∈ firsts l → r2 ∈ firsts l → fullRoute r1 = fullRoute r2 → r1 = r2.
Proof.
  intros H1 H2 E. apply list_elem_of_lookup in H1 as [i Hi]. apply list_elem_of_lookup in H2 as [j Hj].
  assert (i = j) as ->; [|congruence].
  apply (NoDup_lookup _ i j (fullRoute r1) (NoDup_firsts l)); rewrite list_lookup_fmap;
    [by rewrite Hi|]. rewrite Hj, E. done.
Qed.

(** A round that meets a known host and path. *)
Lemma add_virtual_known routes st x i :
  has_backend x → httpRoutes st !! fullRoute x = Some i → vs_inv routes st →
  ∃ st', add_virtual st x = Ret st' ∧ vs_inv (routes ++ [x]) st'.
Proof.
  intros Hx Hi Hinv. destruct st as [services hrs h]. simpl in Hi. unfold add_virtual.
  rewrite Hi, createDestinationWeight_spec by done. simpl. eexists. split; [done|].
  pose proof Hinv as (I1 & I2 & _). simpl in I1, I2.
  assert (fullRoute x ∈ fullRoute <$> routes) as Hold.
  { specialize (I1 (fullRoute x)). rewrite Hi in I1. destruct I1 as (r & Hr & <- & _).
    apply list_elem_of_fmap_2. by apply elem_of_firsts_sub. }
  split_and!.
  - intros full. simpl. specialize (I1 full). rewrite firsts_snoc, decide_True, app_nil_r by done.
    destruct (hrs !! full) as [j|] eqn:Ej.
    + destruct I1 as (r & Hr & <- & Hj). exists r. split_and!; [done..|]. rewrite http_of_snoc.
      destruct (decide (fullRoute x = fullRoute r)) as [E|E].
      * rewrite E, Ej in Hi. simplify_eq. by rewrite list_lookup_alter_eq, Hj.
      * rewrite list_lookup_alter_ne; [done|]. intros ->. by apply E, (I2 _ _ j).
    + apply not_full_snoc. split; [done|]. congruence.
  - exact I2.
  - pose proof (service_step routes _ x id hrs (alter (add_destination (dest_of x)) i h) Hinv) as Hs.
    cbv zeta in Hs. simpl in Hs.
    assert (∀ vs, mkVservice (vs_hosts vs) (vs_gateways vs) (vs_http vs) = vs) as Eta by by intros [].
    unfold id in Hs. rewrite Eta in Hs. apply Hs.
    intros ps n His. rewrite service_firsts_old by done. by case_decide.
Qed.

(** A round that meets a new host and path. *)
(** What the first route of an HTTP route adds. *)
Lemma add_virtual_fresh routes services hrs h x :
  has_backend x → hrs !! fullRoute x = None → full_group (fullRoute x) routes = [] →
  let f (ps : list nat) := if decide (FixWeights.Path x ≠ "") then length h :: ps else ps ++ [length h] in
  let vs := match services !! virtualServiceName x with Some vs => vs | None => new_vservice x end in
  add_virtual (mkVstate services hrs h) x =
    Ret (mkVstate (<[virtualServiceName x := mkVservice (vs_hosts vs) (vs_gateways vs) (f (vs_http vs))]> services)
      (<[fullRoute x := length h]> hrs) (h ++ [http_of x (routes ++ [x])])).
Proof.
  intros Hx Hi Hgrp. unfold add_virtual, createHTTPRoute. simpl.
  rewrite Hi, createDestinationWeight_spec by done.
  assert (full_group (fullRoute x) (routes ++ [x]) = [x]) as Hgrp'
    by (by rewrite full_group_snoc, Hgrp, decide_True).
  unfold http_of. rewrite Hgrp'. destruct (decide (FixWeights.Path x ≠ "")) as [Hp|Hp];
    destruct (FixWeights.Internal x) eqn:Ei; simpl;
    [by rewrite decide_False by (by intros [??])|by rewrite decide_True
    |by rewrite decide_False by (by intros [??])|by rewrite decide_False by (by intros [??])].
Qed.

Lemma add_virtual_new routes st x :
  has_backend x → httpRoutes st !! fullRoute x = None → vs_inv routes st →
  ∃ st', add_virtual st x = Ret st' ∧ vs_inv (routes ++ [x]) st'.
Proof.
  intros Hx Hi Hinv. destruct st as [services hrs h]. simpl in Hi.
  pose proof Hinv as (I1 & I2 & _). simpl in I1, I2.
  assert (fullRoute x ∉ fullRoute <$> routes) as Hnew
    by (specialize (I1 (fullRoute x)); by rewrite Hi in I1).
  set (f := λ ps : list nat, if decide (FixWeights.Path x ≠ "") then length h :: ps else ps ++ [length h]).
  set (vs := match services !! virtualServiceName x with Some vs => vs | None => new_vservice x end).
  set (st' := mkVstate (<[virtualServiceName x := mkVservice (vs_hosts vs) (vs_gateways vs) (f (vs_http vs))]>
                         services)
                (<[fullRoute x := length h]> hrs) (h ++ [http_of x (routes ++ [x])])).
  assert (full_group (fullRoute x) routes = []) as Hgrp.
  { apply filter_empty_iff. intros r Hr E. apply Hnew. rewrite <-E. by apply list_elem_of_fmap_2. }
  exists st'. split.
  { apply (add_virtual_fresh routes); [done|done|exact Hgrp]. }
  assert (∀ full j, hrs !! full = Some j → fullRoute x ≠ full ∧ j < length h) as Hlt.
  { intros full j Hj. pose proof (I1 full) as Hf. rewrite Hj in Hf. destruct Hf as (r & Hr & <- & Hh).
    split; [congruence|]. by eapply lookup_lt_Some. }
  split_and!.
  - intros full. simpl. rewrite firsts_snoc, decide_False, lookup_insert by done. case_decide as E.
    + exists x. split_and!; [set_solver|done|]. by rewrite lookup_app_r, Nat.sub_diag.
    + specialize (I1 full). destruct (hrs !! full) as [j|] eqn:Ej.
      * destruct I1 as (r & Hr & <- & Hh). exists r. split_and!; [set_solver|done|].
        rewrite lookup_app_l by (by eapply lookup_lt_Some).
        by rewrite http_of_snoc, decide_False.
      * apply not_full_snoc. split; [done|]. congruence.
  - intros f1 f2 j. simpl. rewrite !lookup_insert. repeat case_decide; intros; simplify_eq; try done.
    + destruct (Hlt f2 (length h)); [done|]. lia.
    + destruct (Hlt f1 (length h)); [done|]. lia.
    + by eapply I2.
  - apply (service_step routes _ x f (<[fullRoute x := length h]> hrs) _ Hinv).
    intros ps n His. rewrite service_firsts_snoc by done. simpl in His.
    assert (Forall2 (λ i r, <[fullRoute x:=length h]> hrs !! fullRoute r = Some i) ps
              (service_firsts n routes)) as His'.
    { eapply Forall2_impl; [exact His|]. intros i r Hir. cbv beta in *.
      rewrite lookup_insert_ne; [done|]. by destruct (Hlt _ _ Hir). }
    unfold f. destruct (decide (virtualServiceName x = n)) as [E|E].
    + rewrite decide_True by done. case_decide.
      * constructor; [by rewrite lookup_insert_eq|done].
      * apply Forall2_app; [done|]. constructor; [by rewrite lookup_insert_eq|constructor].
    + by rewrite decide_False by done.
Qed.

Lemma build_services_spec routes :
  Forall has_backend routes → ∃ st, build_services routes = Ret st ∧ vs_inv routes st.
Proof.
  unfold build_services. induction routes as [|x routes IH] using rev_ind.
  - intros _. eexists. split; [done|]. split_and!; simpl; [|intros ???; by rewrite lookup_empty|].
    + intros full. rewrite lookup_empty. apply not_elem_of_nil.
    + intros name. by rewrite lookup_empty.
  - intros [Hr Hx]%Forall_app. rewrite Forall_singleton in Hx.
    destruct (IH Hr) as (st & Hst & Hinv). rewrite foldM_app, Hst. simpl.
    destruct (httpRoutes st !! fullRoute x) as [i|] eqn:E.
    + destruct (add_virtual_known routes st x i Hx E Hinv) as (st' & -> & ?). simpl. eauto.
    + destruct (add_virtual_new routes st x Hx E Hinv) as (st' & -> & ?). simpl. eauto.
Qed.

Lemma firsts_from_sublist seen l : firsts_from seen l `sublist_of` l.
Proof.
  revert seen; induction l as [|x l IH]; intros seen; simpl; [done|]. case_decide.
  - by apply sublist_cons.
  - by apply sublist_skip.
Qed.

(** Dereferencing gives the HTTP routes of the first routes. *)
Lemma deref_spec routes st ps name :
  vs_inv routes st →
  Forall2 (λ i r, httpRoutes st !! fullRoute r = Some i) ps (service_firsts name routes) →
  omap (λ i, http_heap st !! i) ps = (λ r, http_of r routes) <$> service_firsts name routes.
Proof.
  intros (I1 & _ & _) HF.
  assert (Forall (λ r, r ∈ firsts routes) (service_firsts name routes)) as Hin.
  { apply Forall_forall. by intros r [? _]%elem_of_service_firsts. }
  revert Hin. induction HF as [|i r ps rs Hi _ IH]; [done|]. intros [Hr Hin]%Forall_cons.
  change (omap (λ i, http_heap st !! i) (i :: ps)) with
    (match http_heap st !! i with Some x => x :: omap (λ i, http_heap st !! i) ps
     | None => omap (λ i, http_heap st !! i) ps end).
  specialize (I1 (fullRoute r)). rewrite Hi in I1. destruct I1 as (r' & Hr' & E & ->).
  rewrite (firsts_unique routes r' r) by done. by rewrite IH.
Qed.

Lemma services_lookup routes st name :
  vs_inv routes st →
  deref_service (http_heap st) <$> virtualServices st !! name = wanted_service routes name.
Proof.
  intros Hinv. pose proof Hinv as (_ & _ & I3). specialize (I3 name). unfold wanted_service.
  destruct (filter _ routes) as [|r rs].
  - by rewrite I3.
  - destruct I3 as (ps & -> & HF). simpl. unfold deref_service. simpl.
    by rewrite (deref_spec routes st ps name).
Qed.

(** ** Lemmas: the order of the matches *)
Definition match_length (r : HTTPRoute) : nat :=
  match MatchPrefix r with Some p => String.length p | None => 0 end.

Definition external_length (r : RouteWithBackends) : nat :=
  if FixWeights.Internal r then 0 else String.length (FixWeights.Path r).

Lemma http_of_match_length r routes : match_length (http_of r routes) = external_length r.
Proof.
  unfold match_length, external_length, http_of. simpl. case_decide as E.
  - by destruct E as [_ ->].
  - destruct (FixWeights.Internal r); [done|].
    destruct (decide (FixWeights.Path r = "")) as [->|]; [done|naive_solver].
Qed.

Lemma virtualServiceName_inj r1 r2 :
  virtualServiceName r1 = virtualServiceName r2 →
  FixWeights.Internal r1 = FixWeights.Internal r2 ∧ FixWeights.Hostname r1 = FixWeights.Hostname r2.
Proof. by apply resource_name_inj. Qed.

Lemma sorted_if_all {A} (R : A → A → Prop) l : (∀ x y, x ∈ l → y ∈ l → R x y) → StronglySorted R l.
Proof.
  induction l as [|x l IH]; intros HR; constructor.
  - apply IH. intros. apply HR; by right.
  - apply Forall_forall. intros y Hy. apply HR; [by left|by right].
Qed.

(** The first routes of a service, of a list in which the routes with a path come
    first by length of path: longest path first. *)
Lemma service_firsts_sorted name l1 l2 :
  Forall (λ r, FixWeights.Path r ≠ "") l1 →
  StronglySorted (λ a b, String.length (FixWeights.Path a) ≤ String.length (FixWeights.Path b)) l1 →
  Forall (λ r, FixWeights.Path r = "") l2 →
  StronglySorted (λ a b, external_length b ≤ external_length a) (service_firsts name (l1 ++ l2)).
Proof.
  intros H1 Hs H2.
  destruct (decide (Exists (λ r, FixWeights.Internal r = true) (service_firsts name (l1 ++ l2))))
    as [(r0 & Hr0 & Hi)%Exists_exists|Hext].
  { apply sorted_if_all. intros x y Hx Hy. apply elem_of_service_firsts in Hr0 as [_ Hn0].
    apply elem_of_service_firsts in Hy as [_ Hny]. rewrite <-Hn0 in Hny.
    apply virtualServiceName_inj in Hny as [E _]. unfold external_length at 1. rewrite E, Hi. lia. }
  unfold service_firsts, service_order in *.
  set (l := filter (λ r, virtualServiceName r = name) (firsts (l1 ++ l2))) in *.
  assert (l `sublist_of` l1 ++ l2) as Hsub
    by (etransitivity; [apply sublist_filter_self|apply firsts_from_sublist]).
  assert (filter (λ r, FixWeights.Path r ≠ "") l `sublist_of` l1) as Hp.
  { etransitivity; [by apply sublist_filter|]. rewrite filter_app.
    assert (filter (λ r, FixWeights.Path r ≠ "") l2 = []) as ->.
    { apply filter_empty_iff. intros r Hr Hne. rewrite Forall_forall in H2. by apply Hne, H2. }
    rewrite app_nil_r. apply sublist_filter_self. }
  apply StronglySorted_app_2.
  - intros x y Hx Hy. apply list_elem_of_filter in Hy as [Hy _]. apply dec_stable in Hy.
    unfold external_length at 1. rewrite Hy. destruct (FixWeights.Internal y); simpl; lia.
  - assert (StronglySorted (λ a b, String.length (FixWeights.Path b) ≤ String.length (FixWeights.Path a))
      (reverse (filter (λ r, FixWeights.Path r ≠ "") l))) as Hrev
      by (apply (StronglySorted_reverse (λ a b, String.length (FixWeights.Path a) ≤ String.length (FixWeights.Path b)));
          by eapply StronglySorted_sublist).
    assert (Forall (λ r, FixWeights.Internal r = false) (reverse (filter (λ r, FixWeights.Path r ≠ "") l))) as Hall.
    { apply Forall_forall. intros r Hr. destruct (FixWeights.Internal r) eqn:E; [|done].
      destruct Hext. apply Exists_exists. exists r. split; [|done]. apply elem_of_app. by left. }
    revert Hrev Hall. generalize (reverse (filter (λ r, FixWeights.Path r ≠ "") l)) as k.
    intros k Hrev. induction Hrev as [|x k Hk IH Hx]; intros Hall; [constructor|].
    apply Forall_cons in Hall as [Hx' Hall].
    constructor; [by apply IH|]. rewrite Forall_forall in Hall, Hx |- *. intros y Hy.
    unfold external_length. rewrite Hx', (Hall y Hy). by apply Hx.
  - apply sorted_if_all. intros x y _ Hy. apply list_elem_of_filter in Hy as [Hy _].
    apply dec_stable in Hy. unfold external_length at 1. rewrite Hy.
    destruct (FixWeights.Internal y); simpl; lia.
Qed.

(** ** Lemmas: the destinations *)
Lemma full_group_group routes r :
  no_collisions routes → r ∈ routes → full_group (fullRoute r) routes = group (routeKey r) routes.
Proof.
  intros Hno Hr. unfold full_group, group. apply list_filter_iff'. intros x Hx.
  split; intros E.
  - destruct (Hno x r Hx Hr (or_introl E)) as (_ & Eh & Ep). unfold routeKey. by rewrite Eh, Ep.
  - destruct (Hno x r Hx Hr (or_intror E)) as (_ & Eh & Ep). unfold fullRoute. by rewrite Eh, Ep.
Qed.

Lemma wanted_service_http routes name vs hr :
  wanted_service routes name = Some vs → hr ∈ VsHttp vs →
  ∃ r, r ∈ firsts routes ∧ virtualServiceName r = name ∧ hr = http_of r routes.
Proof.
  unfold wanted_service. destruct (filter _ routes) as [|r0 rs]; [done|].
  intros [= <-]. simpl. intros (r & -> & [? ?]%elem_of_service_firsts)%list_elem_of_fmap. eauto.
Qed.

(** Every built route is a destination of its service, which is there. *)
Lemma route_is_served routes name vs r :
  no_collisions routes → wanted_service routes name = Some vs → r ∈ routes →
  virtualServiceName r = name →
  VsHosts vs = [FixWeights.Hostname r] ∧
  ∃ hr, hr ∈ VsHttp vs ∧ dest_of r ∈ HRoute hr ∧ MatchPrefix hr = MatchPrefix (http_of r routes).
Proof.
  intros Hno Hvs Hr Hn. destruct (firsts_cover routes (fullRoute r)) as (r' & Hr' & E);
    [by apply list_elem_of_fmap_2|].
  destruct (Hno r' r (elem_of_firsts_sub _ _ Hr') Hr (or_introl E)) as (Ei & Eh & Ep).
  assert (virtualServiceName r' = name) as Hn'.
  { rewrite <-Hn. unfold virtualServiceName, resource_name. by rewrite Ei, Eh. }
  unfold wanted_service in Hvs. destruct (filter _ routes) as [|r0 rs] eqn:Ef; [done|].
  assert (r0 ∈ filter (λ r, virtualServiceName r = name) routes) as [H0 _]%list_elem_of_filter
    by (rewrite Ef; by left).
  injection Hvs as <-. simpl. split.
  { rewrite <-Hn in H0. by apply virtualServiceName_inj in H0 as [_ ->]. }
  exists (http_of r' routes). split_and!.
  - apply (list_elem_of_fmap_2 (λ r, http_of r routes)). by apply elem_of_service_firsts.
  - simpl. apply list_elem_of_fmap_2. unfold full_group. by apply list_elem_of_filter.
  - simpl. by rewrite Ei, Ep.
Qed.

Lemma service_is_created `{MapOrder} `{Marshal} (routes : gslice RouteWithBackends) version rs r :
  CreateVirtualServiceResources routes version = Ret rs → Forall has_backend (elems routes) →
  r ∈ elems routes →
  ∃ vs, wanted_service (elems routes) (virtualServiceName r) = Some vs ∧
    mkResource (virtualServiceName r) version (body_of (PVirtualService vs)) ∈ rs.
Proof.
  unfold CreateVirtualServiceResources. intros Hrs Hb Hr.
  destruct (build_services_spec (elems routes) Hb) as (st & Est & Hinv). rewrite Est in Hrs.
  simpl in Hrs. injection Hrs as <-.
  pose proof (services_lookup (elems routes) st (virtualServiceName r) Hinv) as Hl.
  destruct (wanted_service (elems routes) (virtualServiceName r)) as [vs|] eqn:Hvs.
  - destruct (virtualServices st !! virtualServiceName r) as [v|] eqn:Ev; [|done].
    exists vs. split; [done|]. apply list_elem_of_fmap. exists (virtualServiceName r, v).
    rewrite elem_of_map_order. split; [|done]. simpl in Hl |- *. congruence.
  - exfalso. unfold wanted_service in Hvs.
    pose proof (filter_not_nil (λ x, virtualServiceName x = virtualServiceName r) (elems routes)) as Hf.
    destruct (filter _ _); [|done]. by destruct (proj2 Hf (ex_intro _ r (conj Hr eq_refl))).
Qed.

(** ** Properties *)

(** C16. [CreateVirtualServiceResources] does not panic on routes that have
    backends, as the collector's do, and there is one virtual service for each
    name that some route has: it carries the host, the ingress gateway when it is
    external, and for each host and path whose first route has that name one HTTP
    route with the destinations of all routes of that host and path; the later a
    path first came up the earlier it is matched, and a route without a path is
    matched last. *)
Theorem virtual_services_correct `{MapOrder} `{Marshal} (routes : gslice RouteWithBackends)
    (version : string) (Hb : Forall has_backend (elems routes)) :
  ∃ names, NoDup names ∧
    (∀ name, name ∈ names ↔ ∃ r, r ∈ elems routes ∧ virtualServiceName r = name) ∧
    CreateVirtualServiceResources routes version =
      Ret ((λ name, mkResource name version
         (wanted_service (elems routes) name ≫= λ vs, body_of (PVirtualService vs))) <$> names).
Proof.
  unfold CreateVirtualServiceResources.
  destruct (build_services_spec (elems routes) Hb) as (st & -> & Hinv). simpl.
  exists (map_order (virtualServices st)).*1. split; [apply NoDup_map_order_fst|]. split.
  - intros name. rewrite elem_of_map_order_fst.
    pose proof (services_lookup (elems routes) st name Hinv) as Hl. unfold wanted_service in Hl.
    pose proof (filter_not_nil (λ r, virtualServiceName r = name) (elems routes)) as Hf.
    destruct (filter _ _) as [|r rs]; split.
    + intros [vs Hvs]. by rewrite Hvs in Hl.
    + intros Hr. by apply Hf in Hr.
    + intros _. by apply Hf.
    + intros _. by destruct (virtualServices st !! name).
  - f_equal. rewrite <-list_fmap_compose. apply list_fmap_ext. intros i [name vs] Hi. simpl. f_equal.
    apply list_elem_of_lookup_2, elem_of_map_order in Hi.
    rewrite <-(services_lookup (elems routes) st name Hinv), Hi. done.
Qed.

Definition w_external (host path process : string) (weight : Z) : RouteWithBackends :=
  mkRouteWithBackends host path (mkBackendSet (Sl [mkBackend "10.0.0.1" 61000 8080])) process weight
    false "".

Lemma virtual_services_correct_witness :
  ∃ r, @CreateVirtualServiceResources asc_order transparent
    (Sl [w_external "h" "/a" "p1" 100; w_external "h" "" "p2" 50; w_external "h" "" "p3" 50]) "1" = Ret [r] ∧
   @Name transparent r = "copilot-service-for-h".
Proof.
  destruct (@virtual_services_correct asc_order transparent
    (Sl [w_external "h" "/a" "p1" 100; w_external "h" "" "p2" 50; w_external "h" "" "p3" 50]) "1")
    as (names & Hnd & Hin & E); [repeat constructor; discriminate|].
  assert (names = ["copilot-service-for-h"]) as ->.
  { apply (NoDup_singleton_inv names "copilot-service-for-h"); [exact Hnd|].
    intros name. rewrite Hin. split.
    - intros (r & Hr & <-). simpl in Hr. rewrite !elem_of_cons, elem_of_nil in Hr.
      destruct Hr as [->|[->|[->|[]]]]; reflexivity.
    - intros ->. exists (w_external "h" "/a" "p1" 100). split; [by left|reflexivity]. }
  eexists. split; [exact E|reflexivity].
Defined.

(** Fed with what the collector promises, every virtual service tries longer
    prefixes first and routes without a prefix last, so that the first match is
    the longest one. *)
Theorem longest_prefix_first (routes : list RouteWithBackends) (name : string) (vs : VirtualService)
    (Hwf : wf_collected routes) (Hvs : wanted_service routes name = Some vs) :
  StronglySorted (λ a b, match_length b ≤ match_length a) (VsHttp vs).
Proof.
  destruct Hwf as [_ (l1 & l2 & -> & H1 & Hs & H2 & _)]. unfold wanted_service in Hvs.
  destruct (filter _ _) as [|r0 rs]; [done|]. injection Hvs as <-. simpl.
  apply (StronglySorted_fmap (λ r, http_of r (l1 ++ l2)) (λ a b, external_length b ≤ external_length a)).
  - intros a b Hab. by rewrite !http_of_match_length.
  - apply service_firsts_sorted; [done| |done]. revert Hs. apply StronglySorted_impl'.
    unfold nless, path_less. intros a b ?%Nat.ltb_ge. done.
Qed.

Definition w_collected : list RouteWithBackends :=
  [w_external "h" "/a" "p1" 100; w_external "h" "/bc" "p1" 100; w_external "h" "" "p3" 50].

Lemma longest_prefix_first_witness :
  ∃ vs, wanted_service w_collected "copilot-service-for-h" = Some vs ∧
    match_length <$> VsHttp vs = [3; 2; 0] ∧
    StronglySorted (λ a b, match_length b ≤ match_length a) (VsHttp vs).
Proof.
  eexists. split; [vm_compute; reflexivity|]. split; [reflexivity|].
  apply (longest_prefix_first w_collected "copilot-service-for-h"); [|vm_compute; reflexivity].
  split; [repeat constructor; discriminate|].
  exists [w_external "h" "/a" "p1" 100; w_external "h" "/bc" "p1" 100], [w_external "h" "" "p3" 50].
  split; [reflexivity|]. repeat constructor; discriminate.
Defined.

(** Without collisions of hosts and paths the destinations are right: an HTTP
    route of a service has exactly the built routes of one host and path as its
    destinations, all of the service's own host and side, so its weights are the
    corrected percentages of that group, and every built route is a destination of
    its service. *)
Theorem destinations_are_the_group (routes : list RouteWithBackends) (name : string)
    (vs : VirtualService) (Hno : no_collisions routes) (Hvs : wanted_service routes name = Some vs) :
  (∀ hr, hr ∈ VsHttp vs → ∃ r, r ∈ routes ∧ virtualServiceName r = name ∧
     HRoute hr = dest_of <$> group (routeKey r) routes ∧
     sumZ (Weight <$> HRoute hr) = group_sum (routeKey r) routes ∧
     Forall (λ r', virtualServiceName r' = name) (group (routeKey r) routes)) ∧
  (∀ r, r ∈ routes → virtualServiceName r = name →
     ∃ hr, hr ∈ VsHttp vs ∧ dest_of r ∈ HRoute hr).
Proof.
  split.
  - intros hr Hhr. destruct (wanted_service_http _ _ _ _ Hvs Hhr) as (r & Hr & Hn & ->).
    apply elem_of_firsts_sub in Hr. exists r. split; [done|]. split; [done|].
    simpl. rewrite full_group_group by done. split; [done|]. split.
    + unfold group_sum. by rewrite <-list_fmap_compose.
    + apply Forall_forall. intros r' [Hk Hr']%list_elem_of_filter.
      destruct (Hno r' r Hr' Hr (or_intror Hk)) as (Ei & Eh & _).
      rewrite <-Hn. unfold virtualServiceName, resource_name. by rewrite Ei, Eh.
  - intros r Hr Hn. destruct (route_is_served routes name vs r) as (_ & hr & ? & ? & _); eauto.
Qed.

Lemma destinations_are_the_group_witness :
  let routes := [w_external "h" "/a" "p1" 100; w_external "h" "" "p2" 50; w_external "h" "" "p3" 50] in
  ∃ vs, wanted_service routes "copilot-service-for-h" = Some vs ∧
    ∀ hr, hr ∈ VsHttp vs → ∃ r, r ∈ routes ∧ sumZ (Weight <$> HRoute hr) = group_sum (routeKey r) routes.
Proof.
  cbv zeta. eexists. split; [reflexivity|]. intros hr Hhr.
  edestruct (destinations_are_the_group
    [w_external "h" "/a" "p1" 100; w_external "h" "" "p2" 50; w_external "h" "" "p3" 50]
    "copilot-service-for-h") as [Hall _]; [|reflexivity|].
  - intros r1 r2 H1 H2. rewrite !elem_of_cons, elem_of_nil in H1, H2.
    destruct H1 as [->|[->|[->|[]]]], H2 as [->|[->|[->|[]]]]; intros [E|E];
      (discriminate E) || (split_and!; reflexivity).
  - destruct (Hall hr Hhr) as (r & Hr & _ & _ & Hs & _). by exists r.
Defined.

(** A host that has an internal and an external route without a path collides:
    whichever comes first owns the HTTP route, which then carries both processes,
    and the other side's virtual service has no HTTP route at all. *)
Theorem internal_external_collision (first second : RouteWithBackends)
    (Hhost : FixWeights.Hostname second = FixWeights.Hostname first)
    (Hp1 : FixWeights.Path first = "") (Hp2 : FixWeights.Path second = "")
    (Hside : FixWeights.Internal second ≠ FixWeights.Internal first) :
  ∃ vs1 vs2, wanted_service [first; second] (virtualServiceName first) = Some vs1 ∧
    wanted_service [first; second] (virtualServiceName second) = Some vs2 ∧
    HRoute <$> VsHttp vs1 = [[dest_of first; dest_of second]] ∧ VsHttp vs2 = [].
Proof.
  assert (virtualServiceName second ≠ virtualServiceName first) as Hne
    by (intros [? _]%virtualServiceName_inj; done).
  assert (fullRoute second = fullRoute first) as Hfull by (unfold fullRoute; congruence).
  assert (firsts [first; second] = [first]) as Hfirsts.
  { unfold firsts. simpl. rewrite decide_True; [done|]. rewrite Hfull. by left. }
  unfold wanted_service, service_firsts, service_order. rewrite Hfirsts, !filter_cons, !filter_nil.
  rewrite !(decide_True (P := virtualServiceName first = virtualServiceName first)),
    !(decide_True (P := virtualServiceName second = virtualServiceName second)),
    ?(decide_False (P := virtualServiceName second = virtualServiceName first)),
    ?(decide_False (P := virtualServiceName first = virtualServiceName second)) by congruence.
  eexists _, _. split; [reflexivity|]. split; [reflexivity|]. simpl.
  rewrite !filter_cons, !filter_nil, Hp1.
  rewrite (decide_False (P := "" ≠ "")) by (by intros []).
  rewrite (decide_True (P := ¬ "" ≠ "")) by (by intros []). simpl. split; [|done].
  unfold full_group. rewrite !filter_cons, !decide_True by done. done.
Qed.

Lemma internal_external_collision_witness :
  let first := w_external "h" "" "p1" 100 in
  let second := mkRouteWithBackends "h" "" (mkBackendSet (Sl [mkBackend "10.0.0.2" 1 1])) "p2" 100 true "127.1.0.1" in
  ∃ vs1 vs2, wanted_service [first; second] "copilot-service-for-h" = Some vs1 ∧
    wanted_service [first; second] "internal/copilot-service-for-h" = Some vs2 ∧
    HRoute <$> VsHttp vs1 = [[dest_of first; dest_of second]] ∧ VsHttp vs2 = [].
Proof.
  cbv zeta. apply (internal_external_collision (w_external "h" "" "p1" 100)
    (mkRouteWithBackends "h" "" (mkBackendSet (Sl [mkBackend "10.0.0.2" 1 1])) "p2" 100 true "127.1.0.1"));
    try reflexivity. discriminate.
Defined.
