(* ===== verification/McpCache.v ===== *)
(** * The MCP snapshot and its cache ([istio.io/istio/pkg/mcp/snapshot])

    The vendored package that serves what the snapshot loop builds: the in-memory
    snapshot with its builder ([inmemory.go]) and the cache of one snapshot per
    group with the open watches of the clients ([snapshot.go]).  A response goes to
    the [pushResponse] function of its request, which the model names by a number;
    what is pushed is the output of an operation.  A request's node, which the group
    index of the program ignores, is left out.  [watchCount] is an [int64] in the source;
    here it does not wrap, so a cache is taken to open fewer than [2^63] watches. *)
From S2P Require Import Prelude.

Section mcp.
Context {R : Type}.

(** ** The in-memory snapshot *)
Record InMemory := mkInMemory {
  resources : gmap string (gslice R);
  versions : gmap string string;
}.

(** A builder holds a snapshot until [Build] takes it away. *)
Definition InMemoryBuilder : Type := option InMemory.

Definition NewInMemoryBuilder : InMemoryBuilder := Some (mkInMemory ∅ ∅).

Definition builder_Set (b : InMemoryBuilder) (collection version : string) (rs : gslice R)
    : outcome InMemoryBuilder :=
  match b with
  | None => Panic "invalid memory address or nil pointer dereference"
  | Some s => Ret (Some (mkInMemory (<[collection := rs]> (resources s))
                                    (<[collection := version]> (versions s))))
  end.

(** The snapshot (nil from a builder that was built before) and the builder. *)
Definition Build (b : InMemoryBuilder) : option InMemory * InMemoryBuilder := (b, None).

Definition Resources (s : InMemory) (collection : string) : gslice R :=
  lookup0 Nil (resources s) collection.
Definition VersionOf (s : InMemory) (collection : string) : string :=
  lookup0 "" (versions s) collection.

(** Deep copies of resources are the resources; the copied slices are not nil. *)
Definition Clone (s : InMemory) : InMemory :=
  mkInMemory ((λ v, Sl (elems v)) <$> resources s) (versions s).
Definition Builder (s : InMemory) : InMemoryBuilder := Some (Clone s).

(** ** The cache *)
Record Request := mkRequest { Collection : string; VersionInfo : string; incremental : bool }.
Record WatchResponse := mkWatchResponse {
  RespCollection : string; RespVersion : string; RespResources : gslice R; RespRequest : Request;
}.
Record responseWatch := mkResponseWatch { request : Request; pushResponse : nat }.
Record StatusInfo := mkStatusInfo {
  watches : gmap Z responseWatch;
  synced : gmap string (gmap string bool);
}.
Record Cache := mkCache {
  snapshots : gmap string InMemory;
  status : gmap string StatusInfo;
  watchCount : Z;
}.

(** A call of a client's [pushResponse]; nil is the end of the watch. *)
Record push := mkPush { to : nat; response : option WatchResponse }.

Definition New : Cache := mkCache ∅ ∅ 0.

Definition response_to (s : InMemory) (r : Request) : WatchResponse :=
  mkWatchResponse (Collection r) (VersionOf s (Collection r)) (Resources s (Collection r)) r.

Section cache.
Context (groupIndex : string → string).

(** The group's status entry, made or extended for the request's peer. *)
Definition fillStatus (st : option StatusInfo) (r : Request) (peerAddr : string) : StatusInfo :=
  match st with
  | None => mkStatusInfo ∅ {[ Collection r := {[ peerAddr := false ]} ]}
  | Some info =>
      match synced info !! Collection r with
      | None => mkStatusInfo (watches info) (<[Collection r := {[ peerAddr := false ]}]> (synced info))
      | Some peers =>
          match peers !! peerAddr with
          | Some _ => info
          | None => mkStatusInfo (watches info)
                      (<[Collection r := <[peerAddr := false]> peers]> (synced info))
          end
      end
  end.

Definition mark_synced (info : StatusInfo) (collection peerAddr : string) : StatusInfo :=
  mkStatusInfo (watches info)
    (<[collection := <[peerAddr := true]> (lookup0 ∅ (synced info) collection)]> (synced info)).

Definition open_watch (c : Cache) (group : string) (info : StatusInfo) (w : responseWatch) : Cache :=
  let id := (watchCount c + 1)%Z in
  mkCache (snapshots c)
    (<[group := mkStatusInfo (<[id := w]> (watches info)) (synced info)]> (status c)) id.

(** The new cache, what is pushed, and the watch to cancel, if one was opened. *)
Definition Watch (c : Cache) (r : Request) (who : nat) (peerAddr : string)
    : Cache * list push * option Z :=
  let group := groupIndex (Collection r) in
  let info := fillStatus (status c !! group) r peerAddr in
  match snapshots c !! group with
  | Some s =>
      if decide (VersionOf s (Collection r) ≠ VersionInfo r)
      then (mkCache (snapshots c) (<[group := info]> (status c)) (watchCount c),
            [mkPush who (Some (response_to s r))], None)
      else (open_watch c group (mark_synced info (Collection r) peerAddr) (mkResponseWatch r who),
            [], Some (watchCount c + 1)%Z)
  | None =>
      (open_watch c group info (mkResponseWatch r who), [], Some (watchCount c + 1)%Z)
  end.

(** The cancel function of a watch. *)
Definition cancel (c : Cache) (group : string) (watchID : Z) : Cache :=
  match status c !! group with
  | None => c
  | Some info =>
      mkCache (snapshots c)
        (<[group := mkStatusInfo (delete watchID (watches info)) (synced info)]> (status c))
        (watchCount c)
  end.

(** One round of the loop over the watches of the group. *)
Definition notify (s : InMemory) (acc : gmap Z responseWatch * list push) (e : Z * responseWatch)
    : gmap Z responseWatch * list push :=
  let '(ws, out) := acc in
  let '(id, w) := e in
  if decide (VersionOf s (Collection (request w)) ≠ VersionInfo (request w))
  then (delete id ws, out ++ [mkPush (pushResponse w) (Some (response_to s (request w)))])
  else (ws, out).

Definition SetSnapshot `{MapOrder} (c : Cache) (group : string) (s : InMemory) : Cache * list push :=
  let snaps := <[group := s]> (snapshots c) in
  match status c !! group with
  | None => (mkCache snaps (status c) (watchCount c), [])
  | Some info =>
      let '(ws, out) := foldl (notify s) (watches info, []) (map_order (watches info)) in
      (mkCache snaps (<[group := mkStatusInfo ws (synced info)]> (status c)) (watchCount c), out)
  end.

Definition ClearSnapshot (c : Cache) (group : string) : Cache :=
  mkCache (delete group (snapshots c)) (status c) (watchCount c).

Definition ClearStatus `{MapOrder} (c : Cache) (group : string) : Cache * list push :=
  (mkCache (snapshots c) (delete group (status c)) (watchCount c),
   match status c !! group with
   | None => []
   | Some info => (λ e, mkPush (pushResponse e.2) None) <$> map_order (watches info)
   end).
End cache.
End mcp.

Arguments InMemory : clear implicits.
Arguments InMemoryBuilder : clear implicits.
Arguments Cache : clear implicits.
Arguments push : clear implicits.
Arguments WatchResponse : clear implicits.

(** The group index of Galley, which the server uses. *)
Definition SyntheticServiceEntryCollection : string :=
  "istio/networking/v1alpha3/synthetic/serviceentries".
Definition IndexFunction (collection : string) : string :=
  if decide (collection = SyntheticServiceEntryCollection) then "syntheticServiceEntry" else "default".

(** ** Specification *)
Inductive op (R : Type) :=
| OWatch (r : Request) (who : nat) (peerAddr : string)
| OCancel (group : string) (watchID : Z)
| OSetSnapshot (group : string) (s : InMemory R)
| OClearSnapshot (group : string)
| OClearStatus (group : string).
Arguments OWatch {R} r who peerAddr.
Arguments OCancel {R} group watchID.
Arguments OSetSnapshot {R} group s.
Arguments OClearSnapshot {R} group.
Arguments OClearStatus {R} group.

Definition apply_op {R} `{MapOrder} (groupIndex : string → string) (c : Cache R) (o : op R)
    : Cache R * list (push R) :=
  match o with
  | OWatch r who peerAddr => (Watch groupIndex c r who peerAddr).1
  | OCancel group watchID => (cancel c group watchID, [])
  | OSetSnapshot group s => SetSnapshot c group s
  | OClearSnapshot group => (ClearSnapshot c group, [])
  | OClearStatus group => ClearStatus c group
  end.

Definition run {R} `{MapOrder} (groupIndex : string → string) (os : list (op R)) : Cache R :=
  foldl (λ c o, (apply_op groupIndex c o).1) New os.

(** The open watches of a group, and whether one is behind a snapshot. *)
Definition open_watches {R} (c : Cache R) (group : string) : gmap Z responseWatch :=
  match status c !! group with Some info => watches info | None => ∅ end.
Definition stale {R} (s : InMemory R) (w : responseWatch) : Prop :=
  VersionOf s (Collection (request w)) ≠ VersionInfo (request w).
Global Instance stale_dec {R} (s : InMemory R) w : Decision (stale s w).
Proof. unfold stale. apply _. Defined.

(** No watch waits for a version that is already there. *)
Definition no_stale_watch {R} (c : Cache R) : Prop :=
  ∀ group s id w, snapshots c !! group = Some s → open_watches c group !! id = Some w → ¬ stale s w.

(** The answer that a watch gets from a snapshot. *)
Definition push_of {R} (s : InMemory R) (w : responseWatch) : push R :=
  mkPush (pushResponse w) (Some (response_to s (request w))).

(** The operations that close a watch: its cancel function; a snapshot of another version,
    which is pushed to it; a clearing of its group, which pushes it the end. *)
Definition closes {R} `{MapOrder} (groupIndex : string → string) (c : Cache R) (group : string) (id : Z)
    (w : responseWatch) (o : op R) : Prop :=
  match o with
  | OCancel g i => g = group ∧ i = id
  | OSetSnapshot g s => g = group ∧ stale s w ∧ push_of s w ∈ (apply_op groupIndex c o).2
  | OClearStatus g => g = group ∧ mkPush (pushResponse w) None ∈ (apply_op groupIndex c o).2
  | _ => False
  end.

(** ** Lemmas *)
Section lemmas.
Context {R : Type} `{O : MapOrder}.
Implicit Types (c : Cache R) (s : InMemory R).

Lemma notify_fold s es ws out :
  let '(ws', out') := foldl (notify s) (ws, out) es in
  out' = out ++ ((λ e, push_of s e.2) <$> filter (λ e, stale s e.2) es) ∧
  ∀ id, ws' !! id = if decide (Exists (λ e, e.1 = id ∧ stale s e.2) es) then None else ws !! id.
Proof.
  revert ws out; induction es as [|[id w] es IH]; intros ws out; cbn [foldl].
  { split; [by rewrite app_nil_r|]. intros id. rewrite decide_False by (by intros ?%Exists_nil). done. }
  rewrite filter_cons. unfold notify at 2. cbn [fst snd]. unfold stale in *.
  destruct (decide (VersionOf s (Collection (request w)) ≠ VersionInfo (request w))) as [Hs|Hs].
  - specialize (IH (delete id ws) (out ++ [mkPush (pushResponse w) (Some (response_to s (request w)))])).
    destruct (foldl _ _ _) as [ws' out']. destruct IH as [-> IH]. split; [by rewrite <-app_assoc|].
    intros id'. rewrite IH. rewrite lookup_delete.
    destruct (decide (id = id')) as [E|E]; repeat case_decide; try done;
      rewrite ?Exists_cons in *; naive_solver.
  - specialize (IH ws out). destruct (foldl _ _ _) as [ws' out']. destruct IH as [-> IH].
    split; [done|]. intros id'. rewrite IH. apply decide_ext. rewrite Exists_cons. naive_solver.
Qed.

(** What [SetSnapshot] leaves of the watches of its group, and what it pushes. *)
Lemma SetSnapshot_spec c group s :
  let '(c', out) := SetSnapshot c group s in
  snapshots c' = <[group := s]> (snapshots c) ∧
  open_watches c' group = filter (λ e, ¬ stale s e.2) (open_watches c group) ∧
  (∀ g, g ≠ group → open_watches c' g = open_watches c g) ∧
  out ≡ₚ push_of s <$> filter (stale s) (map_to_list (open_watches c group)).*2.
Proof.
  unfold SetSnapshot, open_watches. destruct (status c !! group) as [info|] eqn:E; last first.
  { simpl. rewrite E. split_and!; [done| |done|by rewrite map_to_list_empty].
    by rewrite map_filter_empty. }
  pose proof (notify_fold s (map_order (watches info)) (watches info) []) as Hn.
  destruct (foldl _ _ _) as [ws out]. destruct Hn as [-> Hws]. simpl. split; [done|]. split; [|split].
  - rewrite lookup_insert_eq. simpl. apply map_eq. intros id. rewrite Hws, map_lookup_filter.
    case_decide as Hex.
    + apply Exists_exists in Hex as ([id' w] & Hin%elem_of_map_order & Hid & Hst). simpl in *. subst id'.
      rewrite Hin. simpl. by case_guard.
    + destruct (watches info !! id) as [w|] eqn:Ew; [|done]. simpl.
      case_guard as Hst; [done|]. destruct Hex. apply Exists_exists.
      exists (id, w). rewrite elem_of_map_order. destruct (decide (stale s w)); naive_solver.
  - intros g Hg. by rewrite lookup_insert_ne.
  - rewrite map_order_perm. clear Hws E.
    induction (map_to_list (watches info)) as [|[id w] l IH]; [done|].
    rewrite !fmap_cons, !filter_cons. simpl. case_decide; simpl; [by rewrite IH|done].
Qed.

Lemma open_watches_cancel c group id g :
  open_watches (cancel c group id) g =
  if decide (g = group) then delete id (open_watches c g) else open_watches c g.
Proof.
  unfold cancel, open_watches. destruct (status c !! group) as [info|] eqn:E; simpl.
  - rewrite lookup_insert. repeat case_decide; simplify_eq; try done. by rewrite E.
  - case_decide; [|done]. subst. by rewrite E, delete_empty.
Qed.

Lemma watches_fillStatus st r p :
  watches (fillStatus st r p) = match st with Some info => watches info | None => ∅ end.
Proof. unfold fillStatus. repeat case_match; done. Qed.

(** [Watch] answers at once when it can, and opens a watch otherwise. *)
Lemma Watch_spec groupIndex c r who p :
  let group := groupIndex (Collection r) in
  let '(c', out, id) := Watch groupIndex c r who p in
  snapshots c' = snapshots c ∧
  (∀ g, g ≠ group → open_watches c' g = open_watches c g) ∧
  match snapshots c !! group with
  | Some s =>
      if decide (stale s (mkResponseWatch r who))
      then out = [mkPush who (Some (response_to s r))] ∧ id = None ∧
           open_watches c' group = open_watches c group
      else out = [] ∧ ∃ i, id = Some i ∧
           open_watches c' group = <[i := mkResponseWatch r who]> (open_watches c group)
  | None => out = [] ∧ ∃ i, id = Some i ∧
      open_watches c' group = <[i := mkResponseWatch r who]> (open_watches c group)
  end.
Proof.
  cbv zeta. unfold Watch, open_watch, open_watches, stale. simpl.
  destruct (snapshots c !! groupIndex (Collection r)) as [s|]; [case_decide|]; simpl;
    (split; [done|]; split; [intros g Hg; by rewrite lookup_insert_ne|]);
    rewrite lookup_insert_eq; simpl; rewrite watches_fillStatus; try case_decide; try done;
    (split; [done|]); eexists; (split; [done|]); done.
Qed.

(** A new watch gets the next number; the others stay. *)
Lemma Watch_id groupIndex c r who p :
  let '(c', _, id) := Watch groupIndex c r who p in
  watchCount c' = (watchCount c + match id with Some _ => 1 | None => 0 end)%Z ∧
  (∀ i, id = Some i → i = (watchCount c + 1)%Z) ∧
  ∀ g, open_watches c' g =
    match id with
    | Some i => if decide (g = groupIndex (Collection r))
                then <[i := mkResponseWatch r who]> (open_watches c g) else open_watches c g
    | None => open_watches c g
    end.
Proof.
  pose proof (Watch_spec groupIndex c r who p) as Hs. cbv zeta in Hs. revert Hs. unfold Watch.
  destruct (snapshots c !! groupIndex (Collection r)) as [s|]; [case_decide as E|].
  - unfold stale. simpl. rewrite decide_True by done. intros (_ & Ho & _ & _ & Hg).
    split_and!; [lia|done|]. intros g. destruct (decide (g = groupIndex (Collection r))) as [->|Hne]; [exact Hg|by apply Ho].
  - unfold stale. simpl. rewrite decide_False by (intros Hn; by apply Hn). intros (_ & Ho & _ & i & [= <-] & Hg).
    split_and!; [simpl; lia|by intros ? [= <-]|]. intros g. case_decide as Eg; [rewrite Eg; exact Hg|by apply Ho].
  - simpl. intros (_ & Ho & _ & i & [= <-] & Hg).
    split_and!; [simpl; lia|by intros ? [= <-]|]. intros g. case_decide as Eg; [rewrite Eg; exact Hg|by apply Ho].
Qed.
Lemma watchCount_cancel c group id : watchCount (cancel c group id) = watchCount c.
Proof. unfold cancel. by destruct (status c !! group). Qed.
Lemma watchCount_SetSnapshot c group s : watchCount (SetSnapshot c group s).1 = watchCount c.
Proof.
  unfold SetSnapshot. destruct (status c !! group) as [info|]; [|done].
  by destruct (foldl _ _ _).
Qed.

Lemma no_stale_op groupIndex c o : no_stale_watch c → no_stale_watch (apply_op groupIndex c o).1.
Proof.
  intros Hc group s id w Hs Hw. destruct o as [r who p|g i|g t|g|g]; simpl in Hs, Hw.
  - pose proof (Watch_spec groupIndex c r who p) as HW. cbv zeta in HW.
    destruct (Watch groupIndex c r who p) as [[c' out] oid]. destruct HW as (Esn & Hother & HW).
    simpl in Hs, Hw. rewrite Esn in Hs.
    destruct (decide (group = groupIndex (Collection r))) as [->|Hg];
      [|rewrite Hother in Hw by done; by eapply Hc].
    rewrite Hs in HW. case_decide as Hst.
    + destruct HW as (_ & _ & Ew). rewrite Ew in Hw. by eapply Hc.
    + destruct HW as (_ & i & _ & Ew). rewrite Ew, lookup_insert in Hw.
      case_decide; simplify_eq; [done|]. by eapply Hc.
  - rewrite open_watches_cancel in Hw. unfold cancel in Hs.
    assert (snapshots c !! group = Some s) as Hs' by (by destruct (status c !! g)).
    case_decide; [apply lookup_delete_Some in Hw as [_ Hw]|]; by eapply Hc.
  - pose proof (SetSnapshot_spec c g t) as HS. destruct (SetSnapshot c g t) as [c' out].
    destruct HS as (Esn & Ew & Hother & _). simpl in Hs, Hw. rewrite Esn, lookup_insert in Hs.
    case_decide as E.
    + simplify_eq. rewrite Ew in Hw. apply map_lookup_filter_Some in Hw as [_ Hw]. done.
    + rewrite Hother in Hw by done. by eapply Hc.
  - apply lookup_delete_Some in Hs as [_ Hs]. by eapply Hc.
  - unfold open_watches in Hw. simpl in Hw. rewrite lookup_delete in Hw. case_decide.
    + by rewrite lookup_empty in Hw.
    + by eapply Hc.
Qed.

Lemma no_stale_run groupIndex (os : list (op R)) : no_stale_watch (run groupIndex os).
Proof.
  unfold run. assert (no_stale_watch (@New R)) as H0.
  { intros g s id w Hs. simpl in Hs. by rewrite lookup_empty in Hs. }
  revert H0. generalize (@New R) as c. induction os as [|o os IH]; intros c Hc; [done|].
  apply IH. by apply no_stale_op.
Qed.

(** Watches are numbered by a count that only grows, so no number is given twice. *)
Definition numbered c : Prop := ∀ g i, is_Some (open_watches c g !! i) → (i ≤ watchCount c)%Z.

Lemma numbered_op groupIndex c o :
  numbered c → numbered (apply_op groupIndex c o).1 ∧
  (watchCount c ≤ watchCount (apply_op groupIndex c o).1)%Z.
Proof.
  intros Hc. destruct o as [r who p|g i|g t|g|g]; simpl.
  - pose proof (Watch_id groupIndex c r who p) as HW. destruct (Watch groupIndex c r who p) as [[c' out] id].
    destruct HW as (Hn & Hi & Ho). simpl. split; [|rewrite Hn; destruct id; lia].
    intros g j [w Hw]. rewrite Ho in Hw. destruct id as [k|]; [|rewrite Hn; specialize (Hc g j ltac:(eauto)); lia].
    specialize (Hi k eq_refl). rewrite Hn. case_decide; [|specialize (Hc g j ltac:(eauto)); lia].
    apply lookup_insert_Some in Hw as [[<- _]|[_ Hw]]; [lia|]. specialize (Hc g j ltac:(eauto)); lia.
  - rewrite watchCount_cancel. split; [|done]. intros g' j [w Hw]. rewrite watchCount_cancel.
    rewrite open_watches_cancel in Hw. case_decide; [apply lookup_delete_Some in Hw as [_ Hw]|]; eauto.
  - pose proof (SetSnapshot_spec c g t) as HS. pose proof (watchCount_SetSnapshot c g t) as Hn.
    destruct (SetSnapshot c g t) as [c' out]. destruct HS as (_ & Ew & Ho & _). simpl in *. split; [|lia].
    intros g' j [w Hw]. rewrite Hn. destruct (decide (g' = g)) as [->|Hg].
    + rewrite Ew in Hw. apply map_lookup_filter_Some in Hw as [Hw _]. eauto.
    + rewrite Ho in Hw by done. eauto.
  - done.
  - split; [|done]. intros g' j [w Hw]. unfold open_watches in Hw. simpl in Hw. rewrite lookup_delete in Hw.
    case_decide; [by rewrite lookup_empty in Hw|]. simpl. eapply (Hc g'). eauto.
Qed.
Lemma numbered_run groupIndex (os : list (op R)) : numbered (run groupIndex os).
Proof.
  unfold run. assert (numbered (@New R)) as H0.
  { intros g i [w Hw]. unfold open_watches in Hw. simpl in Hw. by rewrite !lookup_empty in Hw. }
  revert H0. generalize (@New R) as c. induction os as [|o os IH]; intros c Hc; [done|].
  apply IH. by apply numbered_op.
Qed.

(** An open watch stays open until an operation closes it. *)
Lemma open_until_closed groupIndex c group id w o :
  numbered c → open_watches c group !! id = Some w →
  open_watches (apply_op groupIndex c o).1 group !! id = Some w ∨ closes groupIndex c group id w o.
Proof.
  intros Hc Hw. destruct o as [r who p|g i|g t|g|g]; simpl.
  - left. pose proof (Watch_id groupIndex c r who p) as HW.
    destruct (Watch groupIndex c r who p) as [[c' out] j]. destruct HW as (_ & Hi & ->). simpl.
    destruct j as [k|]; [|done]. case_decide; [|done]. rewrite lookup_insert_ne; [done|].
    intros ->. specialize (Hi id eq_refl). specialize (Hc group id ltac:(eauto)). lia.
  - rewrite open_watches_cancel. destruct (decide (group = g)) as [->|]; [|by left].
    destruct (decide (i = id)) as [->|]; [by right|left]. by rewrite lookup_delete_ne.
  - pose proof (SetSnapshot_spec c g t) as HS. destruct (SetSnapshot c g t) as [c' out].
    destruct HS as (_ & Ew & Ho & Hout). simpl. destruct (decide (group = g)) as [->|]; [|left; by rewrite Ho].
    rewrite Ew, map_lookup_filter, Hw. simpl. destruct (decide (stale t w)) as [Hs|Hs]; [right|left].
    + split; [done|]. split; [done|]. rewrite Hout. apply list_elem_of_fmap_2. apply list_elem_of_filter.
      split; [done|]. apply list_elem_of_fmap. exists (id, w). by rewrite elem_of_map_to_list.
    + by rewrite option_guard_True.
  - by left.
  - unfold open_watches in *. simpl. destruct (decide (group = g)) as [->|].
    + right. split; [done|]. destruct (status c !! g) as [info|]; [|done].
      apply list_elem_of_fmap. exists (id, w). by rewrite elem_of_map_order.
    + left. by rewrite lookup_delete_ne.
Qed.

(** So it is open at the end, or was closed on the way. *)
Lemma watch_fate groupIndex (before after : list (op R)) group id w :
  open_watches (run groupIndex before) group !! id = Some w →
  open_watches (run groupIndex (before ++ after)) group !! id = Some w ∨
  ∃ a1 o a2, after = a1 ++ o :: a2 ∧ open_watches (run groupIndex (before ++ a1)) group !! id = Some w ∧
    closes groupIndex (run groupIndex (before ++ a1)) group id w o.
Proof.
  revert before; induction after as [|o after IH]; intros before Hw; [left; by rewrite app_nil_r|].
  destruct (open_until_closed groupIndex _ group id w o (numbered_run groupIndex before) Hw) as [Ho|Hc].
  - destruct (IH (before ++ [o])) as [Hend|(a1 & o' & a2 & -> & Hopen & Hcl)].
    + unfold run in *. by rewrite foldl_app.
    + left. by rewrite <-app_assoc in Hend.
    + right. exists (o :: a1), o', a2. rewrite <-app_assoc in Hopen, Hcl. by split_and!.
  - right. exists [], o, after. rewrite app_nil_r. by split_and!.
Qed.
End lemmas.

(** ** Properties *)

(** C19. Clients never hang behind an update.  Over any history of watches, cancellations,
    snapshots and clearings, a client that asks is answered at once, with the snapshot of
    its group, if that has another version than the client's; or else its watch gets a
    number of its own and stays open until it is cancelled, or its group is cleared and it
    is pushed the end, or a snapshot with another version is set and that version with its
    resources is pushed to it.  A snapshot is pushed to exactly the watches that are
    behind it, once each.  So no watch that is open waits with a version other than that
    of its group's snapshot. *)
Theorem watches_never_stale {R} `{MapOrder} (groupIndex : string → string) (os : list (op R)) :
  (∀ before r who peer after, os = before ++ OWatch r who peer :: after →
     let c := run groupIndex before in
     let group := groupIndex (Collection r) in
     let w := mkResponseWatch r who in
     (∃ s, snapshots c !! group = Some s ∧ stale s w ∧
        (apply_op groupIndex c (OWatch r who peer)).2 = [push_of s w]) ∨
     ∃ id, (∀ g, open_watches c g !! id = None) ∧
       (open_watches (run groupIndex os) group !! id = Some w ∨
        ∃ a1 o a2, after = a1 ++ o :: a2 ∧
          let c1 := run groupIndex (before ++ OWatch r who peer :: a1) in
          open_watches c1 group !! id = Some w ∧ closes groupIndex c1 group id w o)) ∧
  (∀ before group s after, os = before ++ OSetSnapshot group s :: after →
     let c := run groupIndex before in
     (apply_op groupIndex c (OSetSnapshot group s)).2 ≡ₚ
       push_of s <$> filter (stale s) (map_to_list (open_watches c group)).*2) ∧
  no_stale_watch (run groupIndex os).
Proof.
  split; [|split; [|apply no_stale_run]].
  - intros before r who peer after -> c group w.
    pose proof (Watch_spec groupIndex c r who peer) as HW. pose proof (Watch_id groupIndex c r who peer) as HI.
    cbv zeta in HW. fold group w in HW. simpl apply_op.
    assert (∀ i, (Watch groupIndex c r who peer).2 = Some i → ∀ g, open_watches c g !! i = None) as Hnew.
    { intros i Hi g. destruct (Watch groupIndex c r who peer) as [[c' out] id]. simpl in Hi. subst id.
      destruct HI as (_ & Hi & _). specialize (Hi i eq_refl). apply eq_None_not_Some. intros Hs.
      apply (numbered_run groupIndex before) in Hs. fold c in Hs. lia. }
    assert (∀ i, open_watches (Watch groupIndex c r who peer).1.1 group !! i = Some w →
      (∀ g, open_watches c g !! i = None) → ∃ id, (∀ g, open_watches c g !! id = None) ∧
      (open_watches (run groupIndex (before ++ OWatch r who peer :: after)) group !! id = Some w ∨
       ∃ a1 o a2, after = a1 ++ o :: a2 ∧
         let c1 := run groupIndex (before ++ OWatch r who peer :: a1) in
         open_watches c1 group !! id = Some w ∧ closes groupIndex c1 group id w o)) as Hopen.
    { intros i Hi Hn. exists i. split; [done|].
      destruct (watch_fate groupIndex (before ++ [OWatch r who peer]) after group i w) as [He|(a1 & o & a2 & E & Ho & Hc)].
      - unfold run. by rewrite foldl_app.
      - left. by rewrite <-app_assoc in He.
      - right. exists a1, o, a2. rewrite <-app_assoc in Ho, Hc. by split_and!. }
    destruct (Watch groupIndex c r who peer) as [[c' out] id]. destruct HW as (_ & _ & HW). simpl in *.
    destruct (snapshots c !! group) as [s|]; [case_decide|].
    + left. exists s. destruct HW as (-> & _ & _). by split_and!.
    + right. destruct HW as (_ & i & -> & E). apply (Hopen i); [by rewrite E, lookup_insert_eq|by apply Hnew].
    + right. destruct HW as (_ & i & -> & E). apply (Hopen i); [by rewrite E, lookup_insert_eq|by apply Hnew].
  - intros before group s after _ c. simpl. pose proof (SetSnapshot_spec c group s) as HS.
    destruct (SetSnapshot c group s) as [c' out]. by destruct HS as (_ & _ & _ & ?).
Qed.

(** A client waits for the first snapshot and then for the second. *)
Definition w_version (v : string) : InMemory string := mkInMemory {["c" := Sl ["a"]]} {["c" := v]}.
Definition w_waiting : list (op string) :=
  [OWatch (mkRequest "c" "" false) 7 "peer"; OSetSnapshot "default" (w_version "1");
   OWatch (mkRequest "c" "1" false) 8 "peer"; OSetSnapshot "default" (w_version "2")].

#[local] Existing Instance asc_order.
Lemma watches_never_stale_witness :
  let c := run IndexFunction (take 3 w_waiting) in
  (apply_op IndexFunction c (OSetSnapshot "default" (w_version "2"))).2 ≡ₚ
    [push_of (w_version "2") (mkResponseWatch (mkRequest "c" "1" false) 8)].
Proof.
  intros c. destruct (watches_never_stale IndexFunction w_waiting) as (_ & Hset & _).
  exact (Hset (take 3 w_waiting) "default" (w_version "2") [] eq_refl).
Defined.

(** [SetSnapshot] stores the snapshot and answers exactly the open watches of
    the group that are behind it, each once, with the new version and resources
    of its collection; it closes those and leaves the others and all other groups
    alone, in any map order. *)
Theorem SetSnapshot_answers_stale {R} `{MapOrder} (c : Cache R) (group : string) (s : InMemory R) :
  let '(c', out) := SetSnapshot c group s in
  snapshots c' = <[group := s]> (snapshots c) ∧
  open_watches c' group = filter (λ e, ¬ stale s e.2) (open_watches c group) ∧
  (∀ g, g ≠ group → open_watches c' g = open_watches c g) ∧
  out ≡ₚ push_of s <$> filter (stale s) (map_to_list (open_watches c group)).*2.
Proof. exact (SetSnapshot_spec c group s). Qed.
