(* ===== verification/UniqueQueue.v ===== *)
(** * The queue of responses ([istio.io/istio/pkg/mcp/internal/queue.go])

    Each MCP stream of the server has a queue of the responses it has yet to send: a
    ring buffer with a map from the queued keys to their slots, in which a key that is
    queued already has its value replaced in place, and a channel that holds one token
    per queued entry.  Every operation runs under the queue's mutex and is one
    function here; a pointer to a slot is the slot's index. *)
From S2P Require Import Prelude.

Section queue.
Context {V : Type} (zero : V).

Record entry := mkEntry { key : string; val : V }.

Record UniqueQueue := mkQueue {
  doneChanClosed : bool;
  head : nat;
  tail : nat;
  queue : list entry;
  queuedSet : gmap string nat;
  maxDepth : nat;
  readyChan : nat;  (* tokens in the channel *)
}.

Definition NewUniqueScheduledQueue (maxDepth : nat) : UniqueQueue :=
  mkQueue false 0 0 (replicate (maxDepth + 1) (mkEntry "" zero)) ∅ maxDepth 0.

Definition inc (q : UniqueQueue) (idx : nat) : nat := (idx + 1) mod (maxDepth q + 1).

Definition Empty (q : UniqueQueue) : bool := bool_decide (head q = tail q).
Definition full (q : UniqueQueue) : bool := bool_decide (head q = inc q (tail q)).

(** A send that does not block: without room the token is dropped. *)
Definition trySchedule (q : UniqueQueue) : UniqueQueue :=
  if decide (readyChan q < maxDepth q)
  then mkQueue (doneChanClosed q) (head q) (tail q) (queue q) (queuedSet q) (maxDepth q)
         (readyChan q + 1)
  else q.

Definition Enqueue (q : UniqueQueue) (k : string) (v : V) : UniqueQueue * bool :=
  if doneChanClosed q then (q, false)
  else match queuedSet q !! k with
  | Some i =>
      (mkQueue (doneChanClosed q) (head q) (tail q)
         (alter (λ e, mkEntry (key e) v) i (queue q)) (queuedSet q) (maxDepth q) (readyChan q), true)
  | None =>
      if full q then (q, false)
      else (trySchedule (mkQueue (doneChanClosed q) (head q) (inc q (tail q))
              (<[tail q := mkEntry k v]> (queue q)) (<[k := tail q]> (queuedSet q))
              (maxDepth q) (readyChan q)), true)
  end.

Definition Dequeue (q : UniqueQueue) : UniqueQueue * option (string * V) :=
  if Empty q then (q, None)
  else
    let e := nth (head q) (queue q) (mkEntry "" zero) in
    (mkQueue (doneChanClosed q) (inc q (head q)) (tail q) (queue q) (delete (key e) (queuedSet q))
       (maxDepth q) (readyChan q), Some (key e, val e)).

(** A receive from the channel; [None] blocks. *)
Definition Ready (q : UniqueQueue) : option UniqueQueue :=
  match readyChan q with
  | 0 => None
  | S n => Some (mkQueue (doneChanClosed q) (head q) (tail q) (queue q) (queuedSet q) (maxDepth q) n)
  end.

(** Whether a receive from the done channel succeeds. *)
Definition Done (q : UniqueQueue) : bool := doneChanClosed q.

Definition Close (q : UniqueQueue) : UniqueQueue :=
  mkQueue true (head q) (tail q) (queue q) (queuedSet q) (maxDepth q) (readyChan q).

(** What the stream does with a token: it takes one entry. *)
Definition take_entry (q : UniqueQueue) : option (UniqueQueue * option (string * V)) :=
  Dequeue <$> Ready q.

(** ** Specification: a bounded list of entries with distinct keys *)
Record bounded := mkBounded { closed : bool; items : list (string * V) }.

Definition put (k : string) (v : V) (l : list (string * V)) : list (string * V) :=
  (λ e, if decide (e.1 = k) then (k, v) else e) <$> l.

Definition spec_Enqueue (depth : nat) (b : bounded) (k : string) (v : V) : bounded * bool :=
  if closed b then (b, false)
  else if decide (k ∈ (items b).*1) then (mkBounded (closed b) (put k v (items b)), true)
  else if decide (length (items b) < depth)
  then (mkBounded (closed b) (items b ++ [(k, v)]), true)
  else (b, false).

Definition spec_take (b : bounded) : option (bounded * option (string * V)) :=
  match items b with
  | [] => None
  | e :: l => Some (mkBounded (closed b) l, Some e)
  end.

Definition spec_Close (b : bounded) : bounded := mkBounded true (items b).

(** The slot of the [j]-th entry. *)
Definition slot (q : UniqueQueue) (j : nat) : nat := (head q + j) mod (maxDepth q + 1).

(** The buffer holds the list from [head] on, the map knows exactly its slots, and
    the channel holds a token for each. *)
Record represents (q : UniqueQueue) (b : bounded) : Prop := mkRepresents {
  rep_closed : doneChanClosed q = closed b;
  rep_slots : length (queue q) = maxDepth q + 1;
  rep_head : head q ≤ maxDepth q;
  rep_bound : length (items b) ≤ maxDepth q;
  rep_tail : tail q = slot q (length (items b));
  rep_items : ∀ j k v, items b !! j = Some (k, v) → queue q !! slot q j = Some (mkEntry k v);
  rep_keys : NoDup (items b).*1;
  rep_set : ∀ k i, queuedSet q !! k = Some i ↔
              ∃ j, (items b).*1 !! j = Some k ∧ i = slot q j;
  rep_tokens : readyChan q = length (items b);
}.

Definition items_of (q : UniqueQueue) : list (string * V) :=
  omap (λ j, (λ e, (key e, val e)) <$> queue q !! slot q j) (seq 0 (readyChan q)).
End queue.

Arguments entry : clear implicits.
Arguments UniqueQueue : clear implicits.
Arguments bounded : clear implicits.

(** ** Lemmas *)
Lemma mod_wrap x n : x < 2 * n → x mod n = if decide (x < n) then x else x - n.
Proof.
  intros Hx. case_decide; [by apply Nat.mod_small|].
  replace x with ((x - n) + 1 * n) at 1 by lia. rewrite Nat.Div0.mod_add. apply Nat.mod_small. lia.
Qed.

Section lemmas.
Context {V : Type} (zero : V).
Implicit Types (q : UniqueQueue V) (b : bounded V).

Lemma slot_wrap q j :
  head q ≤ maxDepth q → j ≤ maxDepth q →
  slot q j = if decide (head q + j < maxDepth q + 1) then head q + j else head q + j - (maxDepth q + 1).
Proof. intros. unfold slot. apply mod_wrap. lia. Qed.

Lemma slot_lt q j : slot q j < maxDepth q + 1.
Proof. apply Nat.mod_upper_bound. lia. Qed.

Lemma slot_inj q i j :
  head q ≤ maxDepth q → i ≤ maxDepth q → j ≤ maxDepth q → slot q i = slot q j → i = j.
Proof. intros ???. rewrite !slot_wrap by done. repeat case_decide; lia. Qed.

Lemma slot_inc q j : inc q (slot q j) = slot q (j + 1).
Proof. unfold inc, slot. rewrite Nat.Div0.add_mod_idemp_l. f_equal. lia. Qed.

Lemma slot_next q h j : h = inc q (head q) → (h + j) mod (maxDepth q + 1) = slot q (j + 1).
Proof. intros ->. unfold inc, slot. rewrite Nat.Div0.add_mod_idemp_l. f_equal. lia. Qed.

(** The window is empty when head meets tail, and full when one slot is left. *)
Lemma rep_empty q b : represents q b → Empty q = bool_decide (items b = []).
Proof.
  intros []. unfold Empty. apply bool_decide_ext. rewrite rep_tail0, slot_wrap by lia.
  destruct (items b) as [|e l]; simpl in *; case_decide; split; intros; try done; lia.
Qed.

Lemma rep_full q b : represents q b → full q = bool_decide (length (items b) = maxDepth q).
Proof.
  intros []. unfold full. apply bool_decide_ext. rewrite rep_tail0, slot_inc.
  destruct (decide (length (items b) = maxDepth q)) as [E|E].
  - rewrite E. unfold slot. replace (head q + (maxDepth q + 1)) with (head q + 1 * (maxDepth q + 1)) by lia.
    rewrite Nat.Div0.mod_add, Nat.mod_small by lia. done.
  - rewrite slot_wrap by lia. case_decide; split; intros; lia.
Qed.

Lemma represents_New depth : represents (NewUniqueScheduledQueue zero depth) (mkBounded false []).
Proof.
  split; simpl; try done; try lia.
  - by rewrite length_replicate.
  - unfold slot. simpl. by rewrite Nat.Div0.mod_0_l.
  - constructor.
  - intros k i. rewrite lookup_empty. split; [done|]. intros (? & ? & _). done.
Qed.

Lemma fst_put k v (l : list (string * V)) : (put k v l).*1 = l.*1.
Proof.
  unfold put. rewrite <-list_fmap_compose. apply list_fmap_ext. intros i e _. simpl.
  by case_decide.
Qed.

(** Replacing the value of a queued key. *)
Lemma represents_put q b k v i :
  represents q b → closed b = false → queuedSet q !! k = Some i →
  represents (mkQueue false (head q) (tail q) (alter (λ e, mkEntry (key e) v) i (queue q))
                (queuedSet q) (maxDepth q) (readyChan q))
             (mkBounded false (put k v (items b))).
Proof.
  intros [] Hcl Hi. apply rep_set0 in Hi as (j & Hj & ->).
  split; simpl; unfold slot in *; simpl; fold (slot q); try done.
  - by rewrite length_alter.
  - unfold put. by rewrite length_fmap.
  - unfold put. by rewrite length_fmap.
  - intros j' k' v' Hj'. unfold put in Hj'. rewrite list_lookup_fmap in Hj'.
    destruct (items b !! j') as [[k0 v0]|] eqn:E; simplify_eq/=.
    pose proof (lookup_lt_Some _ _ _ E). rewrite list_lookup_fmap in Hj.
    destruct (items b !! j) as [[k1 v1]|] eqn:E1; simplify_eq/=.
    pose proof (lookup_lt_Some _ _ _ E1). case_decide as Hk; simplify_eq.
    + assert (j = j') as <-.
      { eapply (NoDup_lookup _ _ _ k'); [exact rep_keys0|..]; by rewrite list_lookup_fmap, ?E, ?E1. }
      rewrite list_lookup_alter_eq. unfold slot in rep_items0. rewrite (rep_items0 _ _ _ E). done.
    + rewrite list_lookup_alter_ne; [by apply rep_items0|]. fold (slot q j) (slot q j').
      intros Es. apply slot_inj in Es; [|lia..]. subst j'. congruence.
  - by rewrite fst_put.
  - intros k' i. rewrite fst_put. apply rep_set0.
  - unfold put. by rewrite length_fmap.
Qed.

(** Adding a key behind the others. *)
Lemma represents_append q b k v :
  represents q b → closed b = false → queuedSet q !! k = None → length (items b) < maxDepth q →
  represents (trySchedule (mkQueue false (head q) (inc q (tail q)) (<[tail q := mkEntry k v]> (queue q))
                (<[k := tail q]> (queuedSet q)) (maxDepth q) (readyChan q)))
             (mkBounded false (items b ++ [(k, v)])).
Proof.
  intros [] Hcl Hk Hlt. unfold trySchedule. simpl. rewrite decide_True by lia.
  split; simpl; unfold slot; simpl; fold (slot q).
  - done.
  - by rewrite length_insert.
  - done.
  - rewrite length_app. simpl. lia.
  - rewrite rep_tail0, slot_inc, length_app. done.
  - intros j k' v' Hj. fold (slot q j). apply lookup_app_Some in Hj as [Hj|[Hge Hj]].
    + pose proof (lookup_lt_Some _ _ _ Hj). rewrite list_lookup_insert_ne; [by apply rep_items0|].
      rewrite rep_tail0. intros Es%slot_inj; lia.
    + apply list_lookup_singleton_Some in Hj as [Hz [= <- <-]].
      replace j with (length (items b)) by lia. rewrite <-rep_tail0.
      apply list_lookup_insert_eq. rewrite rep_slots0, rep_tail0. apply slot_lt.
  - rewrite fmap_app, NoDup_app. split; [done|]. split; [|apply NoDup_singleton].
    intros k' Hin ->%list_elem_of_singleton. simpl in *. apply list_elem_of_lookup in Hin as [j Hj].
    assert (queuedSet q !! k = Some (slot q j)) by (apply rep_set0; eauto). congruence.
  - intros k' i. rewrite fmap_app. rewrite lookup_insert. fold (slot q).
    assert ((items b).*1 ++ [k] = (items b ++ [(k, v)]).*1) as Eapp by (by rewrite fmap_app). simpl.
    split.
    + case_decide as Ek; intros Hi.
      * simplify_eq. exists (length (items b)). split; [|done].
        rewrite lookup_app_r by (by rewrite length_fmap). by rewrite length_fmap, Nat.sub_diag.
      * apply rep_set0 in Hi as (j & Hj & ->). exists j. split; [|done].
        by apply lookup_app_l_Some.
    + intros (j & Hj & ->). apply lookup_app_Some in Hj as [Hj|[Hge Hj]].
      * rewrite decide_False; [apply rep_set0; eauto|]. intros ->.
        assert (queuedSet q !! k' = Some (slot q j)) by (apply rep_set0; eauto). congruence.
      * apply list_lookup_singleton_Some in Hj as [Hz <-]. rewrite length_fmap in *.
        rewrite decide_True by done. rewrite rep_tail0. unfold slot.
        by replace j with (length (items b)) by lia.
  - rewrite length_app. simpl. lia.
Qed.

Lemma Enqueue_refines q b k v :
  represents q b →
  let '(q', ok) := Enqueue q k v in
  let '(b', ok') := spec_Enqueue (maxDepth q) b k v in
  ok = ok' ∧ represents q' b' ∧ maxDepth q' = maxDepth q.
Proof.
  intros Hr. unfold Enqueue, spec_Enqueue. pose proof (rep_closed _ _ Hr) as ->.
  destruct (closed b) eqn:Hcl; [done|]. destruct (queuedSet q !! k) as [i|] eqn:Hk.
  - rewrite decide_True.
    { split; [done|]. split; [|done]. by apply represents_put. }
    apply (rep_set _ _ Hr) in Hk as (j & Hj & _). by eapply list_elem_of_lookup_2.
  - rewrite decide_False.
    { rewrite (rep_full _ _ Hr). pose proof (rep_bound _ _ Hr). case_bool_decide.
      - rewrite decide_False by lia. done.
      - rewrite decide_True by lia. split; [done|].
        split; [apply represents_append; try done; lia|].
        unfold trySchedule. by case_decide. }
    intros Hin. apply list_elem_of_lookup in Hin as [j Hj].
    assert (queuedSet q !! k = Some (slot q j)) by (apply (rep_set _ _ Hr); eauto). congruence.
Qed.

Lemma take_refines q b :
  represents q b →
  match take_entry zero q, spec_take b with
  | Some (q', e), Some (b', e') => e = e' ∧ represents q' b' ∧ maxDepth q' = maxDepth q
  | None, None => True
  | _, _ => False
  end.
Proof.
  intros Hr. unfold take_entry, Ready, spec_take. pose proof (rep_empty _ _ Hr) as He.
  destruct Hr. rewrite rep_tokens0. destruct (items b) as [|[k v] l] eqn:Eb; [done|]. simpl.
  unfold Dequeue, Empty in *. simpl. rewrite He. simpl.
  assert (slot q 0 = head q) as E0.
  { rewrite slot_wrap by lia. rewrite decide_True by lia. lia. }
  pose proof (rep_items0 0 k v eq_refl) as Hh. rewrite E0 in Hh.
  rewrite (nth_lookup_Some _ _ _ _ Hh). simpl. split; [done|]. split; [|done].
  assert (∀ j, (inc q (head q) + j) mod (maxDepth q + 1) = slot q (j + 1)) as Hs
    by (intros; by apply slot_next).
  simpl in *. apply NoDup_cons in rep_keys0 as [Hk Hnd].
  split; simpl; unfold slot; simpl; try done.
  - unfold inc. simpl. pose proof (slot_lt q 1). unfold slot in *. lia.
  - lia.
  - unfold inc at 1. simpl. fold (inc q (head q)). rewrite Hs, rep_tail0. f_equal. lia.
  - intros j k' v' Hj. unfold inc. simpl. fold (inc q (head q)). rewrite Hs. 
    replace (j + 1) with (S j) by lia. by apply rep_items0.
  - intros k' i. rewrite lookup_delete. unfold inc. simpl. fold (inc q (head q)). split.
    + destruct (decide (k = k')); [done|]. intros (j & Hj & ->)%rep_set0. destruct j as [|j]; [by simplify_eq/=|].
      exists j. split; [done|]. rewrite Hs. f_equal. lia.
    + intros (j & Hj & ->). rewrite decide_False.
      * apply rep_set0. exists (S j). split; [done|]. rewrite Hs. f_equal. lia.
      * intros <-. apply Hk. by eapply list_elem_of_lookup_2.
Qed.

Lemma Close_refines q b : represents q b → represents (Close q) (spec_Close b).
Proof. intros []. by split. Qed.

(** The entries read off the buffer are the list. *)
Lemma items_of_represents q b : represents q b → items_of q = items b.
Proof.
  intros []. unfold items_of. rewrite rep_tokens0.
  assert (∀ n, n ≤ length (items b) →
    omap (λ j, (λ e, (key e, val e)) <$> queue q !! slot q j) (seq 0 n) = take n (items b)) as H.
  { induction n as [|n IH]; intros Hn; [by rewrite take_0|].
    rewrite seq_S, omap_app, IH by lia. simpl.
    destruct (lookup_lt_is_Some_2 (items b) n) as [[k v] Hkv]; [lia|].
    rewrite (rep_items0 _ _ _ Hkv). simpl. by rewrite (take_S_r _ _ _ Hkv). }
  rewrite H by done. by rewrite take_ge.
Qed.
End lemmas.

(** ** Histories *)
(** What the server does with a queue; a take waits for its token. *)
Inductive op (V : Type) := OEnqueue (k : string) (v : V) | OTake | OClose.
Arguments OEnqueue {V} k v.
Arguments OTake {V}.
Arguments OClose {V}.

(** What the caller gets: a flag, an entry, nothing, or a wait. *)
Inductive answer (V : Type) := Queued (ok : bool) | Took (e : option (string * V)) | Waits | Closed.
Arguments Queued {V} ok.
Arguments Took {V} e.
Arguments Waits {V}.
Arguments Closed {V}.

Section history.
Context {V : Type} (zero : V).

Definition apply_op (q : UniqueQueue V) (o : op V) : UniqueQueue V * answer V :=
  match o with
  | OEnqueue k v => let '(q, ok) := Enqueue q k v in (q, Queued ok)
  | OTake => match take_entry zero q with Some (q, e) => (q, Took e) | None => (q, Waits) end
  | OClose => (Close q, Closed)
  end.

Definition spec_op (depth : nat) (b : bounded V) (o : op V) : bounded V * answer V :=
  match o with
  | OEnqueue k v => let '(b, ok) := spec_Enqueue depth b k v in (b, Queued ok)
  | OTake => match spec_take b with Some (b, e) => (b, Took e) | None => (b, Waits) end
  | OClose => (spec_Close b, Closed)
  end.

Fixpoint answers {S : Type} (step : S → op V → S * answer V) (s : S) (os : list (op V))
    : S * list (answer V) :=
  match os with
  | [] => (s, [])
  | o :: os => let '(s, a) := step s o in let '(s, l) := answers step s os in (s, a :: l)
  end.

Lemma op_refines q b o :
  represents q b →
  let '(q', a) := apply_op q o in
  let '(b', a') := spec_op (maxDepth q) b o in
  a = a' ∧ represents q' b' ∧ maxDepth q' = maxDepth q.
Proof.
  intros Hr. destruct o as [k v| |]; simpl.
  - pose proof (Enqueue_refines q b k v Hr) as H. destruct (Enqueue q k v), (spec_Enqueue _ _ _ _).
    naive_solver.
  - pose proof (take_refines zero q b Hr) as H.
    destruct (take_entry zero q) as [[q' e]|], (spec_take b) as [[b' e']|]; naive_solver.
  - split; [done|]. split; [by apply Close_refines|done].
Qed.

Lemma answers_refine os q b :
  represents q b →
  let '(q', l) := answers apply_op q os in
  let '(b', l') := answers (spec_op (maxDepth q)) b os in
  l = l' ∧ represents q' b' ∧ maxDepth q' = maxDepth q.
Proof.
  revert q b; induction os as [|o os IH]; intros q b Hr; simpl; [done|].
  pose proof (op_refines q b o Hr) as H.
  destruct (apply_op q o) as [q1 a], (spec_op (maxDepth q) b o) as [b1 a1].
  destruct H as (-> & Hr1 & Hd). specialize (IH q1 b1 Hr1). rewrite Hd in IH.
  destruct (answers apply_op q1 os), (answers (spec_op (maxDepth q)) b1 os). naive_solver.
Qed.
End history.

(** ** Properties *)

(** C27. The ring buffer is the queue its comment promises: after any history of
    enqueues, takes and closing, every caller got exactly what a bounded list with
    distinct keys would have given it (a queued key keeps its place and takes the new
    value, a full or closed queue refuses, a take yields the oldest entry and waits
    exactly when there is none), and the buffer holds that list. *)
Theorem queue_refines_bounded_list {V} (zero : V) (depth : nat) (os : list (op V)) :
  let '(q, l) := answers (apply_op zero) (NewUniqueScheduledQueue zero depth) os in
  let '(b, l') := answers (spec_op depth) (mkBounded false []) os in
  l = l' ∧ items_of q = items b ∧ NoDup (items b).*1 ∧ length (items b) ≤ depth.
Proof.
  pose proof (answers_refine zero os _ _ (represents_New zero depth)) as H. simpl in H.
  destruct (answers (apply_op zero) _ os) as [q l], (answers (spec_op depth) _ os) as [b l'].
  destruct H as (-> & Hr & Hd). rewrite (items_of_represents q b Hr).
  split_and!; [done|done|by apply (rep_keys _ _ Hr)|]. rewrite <-Hd. apply (rep_bound _ _ Hr).
Qed.
