(* ===== verification/McpStream.v ===== *)
(** * The MCP stream ([istio.io/istio/pkg/mcp/source], [.../sink])

    The two ends of the stream over which clients get the collections: the server's
    end ([source.go]) turns requests into watches on the cache and queued responses
    into messages, and matches acknowledgements to what it sent by their nonce; the
    client's end ([sink.go]) asks for its collections, hands what arrives to its
    updater and acknowledges or rejects it.  One iteration of each select or receive
    loop is one function here; what the transport does (a message arrives, a send
    fails, the stream ends) is the event that drives it.  [streamNonce] is an [int64] in
    the source; here it does not wrap, so a stream is taken to send fewer than [2^63]
    responses.  Logging, metrics and the
    rate limiter, which the server sets so high that it never waits, are left out. *)
From stdpp Require Import pretty.
From S2P Require Import Prelude UniqueQueue Istio McpCache.

(** ** Messages *)
(** A [google.rpc.Status]. *)
Record rpc_status := mkRpcStatus { Code : Z; Message : string }.
Definition Unknown : Z := 2.
Definition InvalidArgument : Z := 3.
Definition Unimplemented : Z := 12.
Definition Unavailable : Z := 14.

Definition triggerCollection : string := "$triggers".

(** [strconv.FormatInt(z, 10)]. *)
Definition FormatInt (z : Z) : string := pretty z.

Record RequestResources := mkRequestResources {
  ReqCollection : string;
  InitialResourceVersions : gmap string string;
  ReqIncremental : bool;
  ResponseNonce : string;
  ErrorDetail : option rpc_status;
}.

Section stream.
Context `{Marshal}.

Record ResourcesMsg := mkResourcesMsg {
  SystemVersionInfo : string;
  MsgCollection : string;
  MsgResources : list Resource;
  RemovedResources : list string;
  MsgIncremental : bool;
  Nonce : string;
}.

(** [internal.UpdateResourceVersionTracking]. *)
Definition UpdateResourceVersionTracking (versions : gmap string string) (msg : ResourcesMsg)
    : gmap string string :=
  if MsgIncremental msg
  then foldl (λ m name, delete name m) (insert_all Name Version (MsgResources msg) versions)
         (RemovedResources msg)
  else insert_all Name Version (MsgResources msg) ∅.

(** ** The server's end *)
Record CollectionOptions := mkCollectionOptions { OptName : string; OptIncremental : bool }.
Definition CollectionOptionsFromSlice (names : list string) : list CollectionOptions :=
  (λ name, mkCollectionOptions name false) <$> names.

Record watch := mkWatch {
  cancelWatch : option Z;  (* the watch that the cancel function closes *)
  ackedVersionMap : gmap string string;
  pending : option ResourcesMsg;
  watchIncremental : bool;
}.

(** A queued response; the queue's zero value is a nil pointer. *)
Notation queued := (option (WatchResponse Resource)).

Record connection := mkConnection {
  peerAddr : string;
  id : nat;
  streamNonce : Z;
  conWatches : gmap string watch;
  conQueue : UniqueQueue queued;
}.

Definition newConnection (collections : list CollectionOptions) (peerAddr : string) (id : nat)
    : connection :=
  mkConnection peerAddr id 0
    (insert_all OptName (λ o, mkWatch None ∅ None (OptIncremental o)) collections ∅)
    (NewUniqueScheduledQueue None (length collections)).

Definition with_queue (con : connection) (q : UniqueQueue queued) : connection :=
  mkConnection (peerAddr con) (id con) (streamNonce con) (conWatches con) q.
Definition with_watch (con : connection) (collection : string) (w : watch) : connection :=
  mkConnection (peerAddr con) (id con) (streamNonce con) (<[collection := w]> (conWatches con))
    (conQueue con).

(** The [pushResponse] function of the connection; nil closes the stream. *)
Definition queueResponse (con : connection) (resp : option (WatchResponse Resource)) : connection :=
  match resp with
  | None => with_queue con (Close (conQueue con))
  | Some r => with_queue con (Enqueue (conQueue con) (RespCollection r) (Some r)).1
  end.

(** The calls of this connection's function among what the cache pushes. *)
Definition deliver (con : connection) (out : list (push Resource)) : connection :=
  foldl (λ con p, if decide (to p = id con) then queueResponse con (response p) else con) con out.

(** What is new or has another version than the acknowledged one, and what went. *)
Definition calculateDelta `{MapOrder} (current : list Resource) (acked : gmap string string)
    : list Resource * list string :=
  (filter (λ e, acked !! Name e ≠ Some (Version e)) current,
   filter (λ name, name ∉ Name <$> current) (map_order acked).*1).

Inductive stream_error :=
| Unsupported (collection : string)
| SendFailed (err : string)
| RecvFailed (err : string)
| Canceled.

(** The gRPC codes of the errors that the source makes itself. *)
Definition code_of (e : stream_error) : Z :=
  match e with
  | Unsupported _ => InvalidArgument
  | Canceled => Unavailable
  | SendFailed _ | RecvFailed _ => Unknown
  end.

Definition pushServerResponse `{MapOrder} (con : connection) (collection : string) (w : watch)
    (resp : WatchResponse Resource) (sendErr : option string)
    : connection * (stream_error + ResourcesMsg) :=
  let inc := watchIncremental w && incremental (RespRequest resp) in
  let '(added, removed) :=
    if inc then calculateDelta (elems (RespResources resp)) (ackedVersionMap w)
    else (elems (RespResources resp), []) in
  let nonce := (streamNonce con + 1)%Z in
  let msg := mkResourcesMsg (RespVersion resp) (RespCollection resp) added removed inc
               (FormatInt nonce) in
  let con := mkConnection (peerAddr con) (id con) nonce (conWatches con) (conQueue con) in
  match sendErr with
  | Some err => (con, inl (SendFailed err))
  | None => (with_watch con collection
               (mkWatch (cancelWatch w) (ackedVersionMap w) (Some msg) (watchIncremental w)), inr msg)
  end.

Definition isTriggerResponse (req : RequestResources) : bool :=
  bool_decide (ReqCollection req = triggerCollection) &&
  match ErrorDetail req with
  | Some st => bool_decide (Code st = Unimplemented)
  | None => false
  end.

(** [GetNonce] of a message that may be nil. *)
Definition pendingNonce (w : watch) : string :=
  match pending w with None => "" | Some msg => Nonce msg end.

(** The watch after the pending message is acknowledged or rejected, and the version
    the next response must differ from. *)
Definition settle (w : watch) (req : RequestResources) : watch * string :=
  match pending w with
  | None => (w, "")
  | Some msg =>
      (mkWatch (cancelWatch w)
         (match ErrorDetail req with
          | Some _ => ackedVersionMap w
          | None => UpdateResourceVersionTracking (ackedVersionMap w) msg
          end) None (watchIncremental w), SystemVersionInfo msg)
  end.

Definition processClientRequest (groupIndex : string → string) (con : connection)
    (c : Cache Resource) (req : RequestResources)
    : connection * Cache Resource * option stream_error :=
  if isTriggerResponse req then (con, c, None)
  else
    let collection := ReqCollection req in
    match conWatches con !! collection with
    | None => (con, c, Some (Unsupported collection))
    | Some w =>
        if decide (ResponseNonce req = "" ∨ pendingNonce w = ResponseNonce req) then
          let '(w, versionInfo) := settle w req in
          let c := match cancelWatch w with
                   | Some i => cancel c (groupIndex collection) i
                   | None => c
                   end in
          let '(c, out, i) := Watch groupIndex c
            (mkRequest collection versionInfo (ReqIncremental req)) (id con) (peerAddr con) in
          (with_watch (deliver con out) collection
             (mkWatch i (ackedVersionMap w) (pending w) (watchIncremental w)), c, None)
        else (con, c, None)
    end.

(** [close]: the cancel functions of all watches. *)
Definition close `{MapOrder} (groupIndex : string → string) (con : connection) (c : Cache Resource)
    : Cache Resource :=
  foldl (λ c e, match cancelWatch e.2 with
                | Some i => cancel c (groupIndex e.1) i
                | None => c
                end) c (map_order (conWatches con)).

(** One round of the loop of [ProcessStream]. *)
Inductive event :=
| EvReady (sendErr : option string)
| EvRequest (req : RequestResources)
| EvHangup (err : option string)
| EvDone.

(** How a round ends: the loop goes on, or the stream returns. *)
Inductive verdict := Continue | Return (err : option stream_error).

(** [None] when the event cannot happen: nothing is queued, the queue is open. *)
Definition ProcessStream `{MapOrder} (groupIndex : string → string) (con : connection)
    (c : Cache Resource) (ev : event)
    : option (connection * Cache Resource * list ResourcesMsg * verdict) :=
  match ev with
  | EvReady sendErr =>
      match take_entry None (conQueue con) with
      | None => None
      | Some (q, None) => Some (with_queue con q, c, [], Continue)
      | Some (q, Some (collection, item)) =>
          let con := with_queue con q in
          match conWatches con !! collection, item with
          | Some w, Some resp =>
              match pushServerResponse con collection w resp sendErr with
              | (con, inl err) => Some (con, c, [], Return (Some err))
              | (con, inr msg) => Some (con, c, [msg], Continue)
              end
          | _, _ => Some (con, c, [], Continue)
          end
      end
  | EvRequest req =>
      let '(con, c, err) := processClientRequest groupIndex con c req in
      Some (con, c, [], match err with Some e => Return (Some e) | None => Continue end)
  | EvHangup err => Some (con, c, [], Return (RecvFailed <$> err))
  | EvDone => if Done (conQueue con) then Some (con, c, [], Return (Some Canceled)) else None
  end.

(** ** The client's end *)
(** [types.UnmarshalAny] into a message of whatever type the packed one has. *)
Class Unmarshal := {
  TypeUrl : any → string;
  UnmarshalAny : any → string + proto;
}.

Record Object := mkObject {
  TypeURL : string; ObjName : string; ObjVersion : string; ObjBody : proto;
}.
Record Change := mkChange {
  ChCollection : string;
  Objects : list Object;
  Removed : list string;
  ChIncremental : bool;
  ChVersion : string;
}.

(** The interface of what applies the changes: the new state, or an error. *)
Class Updater (U : Type) := { Apply : U → Change → U * option string }.

Record perCollectionState := mkPerCollection {
  ackedVersions : gmap string string;
  requestIncremental : bool;
}.

Section sink.
Context `{!Unmarshal} {U : Type} `{!Updater U}.

Record Sink := mkSink { sinkState : gmap string perCollectionState; updater : U }.

Definition NewSink (options : list CollectionOptions) (u : U) : Sink :=
  mkSink (insert_all OptName (λ o, mkPerCollection ∅ (OptIncremental o)) options ∅) u.

Definition sendNACKRequest (msg : ResourcesMsg) (err : rpc_status) : RequestResources :=
  mkRequestResources (MsgCollection msg) ∅ false (Nonce msg) (Some err).

(** The loop that unpacks the bodies; the error of a nil body is the library's. *)
Definition unpack (r : Resource) : string + Object :=
  match Body r with
  | None => inl "message is nil"
  | Some a =>
      match UnmarshalAny a with
      | inl err => inl err
      | inr m => inr (mkObject (TypeUrl a) (Name r) (Version r) m)
      end
  end.
Fixpoint unpack_all (rs : list Resource) : string + list Object :=
  match rs with
  | [] => inr []
  | r :: rs =>
      match unpack r with
      | inl err => inl err
      | inr o => match unpack_all rs with inl err => inl err | inr os => inr (o :: os) end
      end
  end.

Definition handleResponse (sink : Sink) (msg : ResourcesMsg) : Sink * RequestResources :=
  match sinkState sink !! MsgCollection msg with
  | None => (sink, sendNACKRequest msg
               (mkRpcStatus Unimplemented ("unsupported collection " +:+ MsgCollection msg)))
  | Some st =>
      match unpack_all (MsgResources msg) with
      | inl err => (sink, sendNACKRequest msg (mkRpcStatus Unknown err))
      | inr objects =>
          match Apply (updater sink) (mkChange (MsgCollection msg) objects (RemovedResources msg)
                                       (MsgIncremental msg) (SystemVersionInfo msg)) with
          | (u, Some err) => (mkSink (sinkState sink) u,
                              sendNACKRequest msg (mkRpcStatus InvalidArgument err))
          | (u, None) =>
              (mkSink (<[MsgCollection msg := mkPerCollection
                           (UpdateResourceVersionTracking (ackedVersions st) msg)
                           (requestIncremental st)]> (sinkState sink)) u,
               mkRequestResources (MsgCollection msg) ∅ (requestIncremental st) (Nonce msg) None)
          end
      end
  end.

Definition createInitialRequests `{MapOrder} (sink : Sink) : list RequestResources :=
  (λ e, mkRequestResources e.1
          (if requestIncremental e.2 then ackedVersions e.2 else ∅)
          (requestIncremental e.2) "" None) <$> map_order (sinkState sink).

(** One round of the client's loop: an initial request while there is one, otherwise
    a received message ([None] waits for one); what it leaves and what it sends. *)
Definition sink_round (sink : Sink) (initialRequests : list RequestResources)
    (received : option ResourcesMsg) : option (Sink * list RequestResources * RequestResources) :=
  match initialRequests with
  | req :: initialRequests => Some (sink, initialRequests, req)
  | [] => match received with
          | None => None
          | Some msg => let '(sink, req) := handleResponse sink msg in Some (sink, [], req)
          end
  end.
End sink.
End stream.

Arguments ResourcesMsg {_}.
Arguments watch {_}.
Arguments connection {_}.
Arguments Sink _ : clear implicits.
Arguments mkResourcesMsg {_} _ _ _ _ _ _.

(** ** Lemmas *)
Section lemmas.
Context `{Marshal}.

Lemma lookup_delete_all {V} names (m : gmap string V) k :
  foldl (λ m name, delete name m) m names !! k = if decide (k ∈ names) then None else m !! k.
Proof.
  revert m; induction names as [|n names IH]; intros m; simpl; [done|]. rewrite IH, lookup_delete.
  destruct (decide (k ∈ names)) as [Hk|Hk].
  - rewrite decide_True; [done|by right].
  - destruct (decide (n = k)) as [->|Hn].
    + rewrite decide_True; [done|by left].
    + rewrite decide_False; [done|]. rewrite elem_of_cons. naive_solver.
Qed.

(** Among resources with distinct names, the one of a name. *)
Lemma last_with_name (l : list Resource) e :
  NoDup (Name <$> l) → e ∈ l → last_with Name (Name e) l = Some e.
Proof.
  intros Hnd He. apply last_with_unique; [done|done|]. intros e' He' E.
  apply list_elem_of_lookup in He as [i Hi]. apply list_elem_of_lookup in He' as [j Hj].
  assert (i = j) as <-; [|congruence].
  apply (NoDup_lookup _ _ _ (Name e) Hnd); rewrite list_lookup_fmap; [by rewrite Hi|by rewrite Hj; simpl; rewrite E].
Qed.
End lemmas.

(** ** Properties *)

(** An incremental update is equivalent to a full one: for a collection whose
    resources have distinct names, the sink that applies the delta against the versions
    it acknowledged tracks exactly the versions it would after the full update. *)
Theorem delta_applies `{Marshal} `{MapOrder} (current : list Resource) (acked : gmap string string)
    (version collection nonce : string) (Hnd : NoDup (Name <$> current)) :
  let '(added, removed) := calculateDelta current acked in
  UpdateResourceVersionTracking acked (mkResourcesMsg version collection added removed true nonce) =
  UpdateResourceVersionTracking acked (mkResourcesMsg version collection current [] false nonce).
Proof.
  simpl. unfold UpdateResourceVersionTracking. simpl. apply map_eq. intros k.
  rewrite lookup_delete_all, !lookup_insert_all, lookup_empty.
  destruct (last_with Name k current) as [e|] eqn:E.
  - apply last_with_Some in E as [<- He]. rewrite decide_False.
    2:{ intros [Hno _]%list_elem_of_filter. by destruct Hno; apply list_elem_of_fmap_2. }
    destruct (decide (acked !! Name e = Some (Version e))) as [Ea|Ea].
    + assert (last_with Name (Name e) (filter (λ e, acked !! Name e ≠ Some (Version e)) current) = None) as ->;
        [|done].
      apply last_with_None. intros e' [Hne He']%list_elem_of_filter E'.
      pose proof (last_with_name current e Hnd He) as H1.
      pose proof (last_with_name current e' Hnd He') as H2. rewrite E' in H2. congruence.
    + rewrite last_with_unique with (x := e); [done|by apply list_elem_of_filter|done|].
      intros e' [_ He']%list_elem_of_filter E'.
      pose proof (last_with_name current e Hnd He) as H1.
      pose proof (last_with_name current e' Hnd He') as H2. rewrite E' in H2. congruence.
  - rewrite last_with_None in E. case_decide as Hk; [done|].
    assert (last_with Name k (filter (λ e, acked !! Name e ≠ Some (Version e)) current) = None) as ->.
    { apply last_with_None. intros e [_ He]%list_elem_of_filter. by apply E. }
    destruct (acked !! k) as [v|] eqn:Ek; [|done]. destruct Hk. apply list_elem_of_filter. split.
    + intros (e & -> & He)%list_elem_of_fmap. by apply (E e).
    + apply elem_of_map_order_fst. by eexists.
Qed.

(** A rejection of the trigger collection by a client that does not support it. *)
Definition rejects_trigger (req : RequestResources) : Prop :=
  ReqCollection req = triggerCollection ∧ Code <$> ErrorDetail req = Some Unimplemented.

Lemma isTriggerResponse_spec req : isTriggerResponse req = true ↔ rejects_trigger req.
Proof.
  unfold isTriggerResponse, rejects_trigger. rewrite andb_true_iff, bool_decide_eq_true.
  destruct (ErrorDetail req) as [st|]; simpl; rewrite ?bool_decide_eq_true;
    split; intros [? Hst]; split; try done; [by f_equal|by injection Hst].
Qed.

(** C25. The error behaviour of both ends.  The server answers a request about a
    collection it does not offer by ending the stream with [InvalidArgument], and ignores
    a rejection of a trigger and a request with another nonce than the pending one, all
    without touching the stream's or the cache's state.  The client rejects, under the
    message's nonce and keeping what it had, a collection it did not ask for
    ([Unimplemented]) and resources that cannot be unpacked ([Unknown]); what its updater
    refuses it rejects with [InvalidArgument], without tracking its versions; and it
    acknowledges exactly the rest. *)
Theorem stream_errors `{Marshal} `{!Unmarshal} {U} `{!Updater U} (groupIndex : string → string)
    (con : connection) (c : Cache Resource) (req : RequestResources) (sink : Sink U)
    (msg : ResourcesMsg) :
  (match conWatches con !! ReqCollection req with
   | None => ¬ rejects_trigger req →
       processClientRequest groupIndex con c req = (con, c, Some (Unsupported (ReqCollection req))) ∧
       code_of (Unsupported (ReqCollection req)) = InvalidArgument
   | Some w => ResponseNonce req ≠ "" → ResponseNonce req ≠ pendingNonce w →
       processClientRequest groupIndex con c req = (con, c, None)
   end) ∧
  (rejects_trigger req → processClientRequest groupIndex con c req = (con, c, None)) ∧
  let '(sink', answer) := handleResponse sink msg in
  ReqCollection answer = MsgCollection msg ∧ ResponseNonce answer = Nonce msg ∧
  match sinkState sink !! MsgCollection msg, unpack_all (MsgResources msg) with
  | None, _ => sink' = sink ∧ Code <$> ErrorDetail answer = Some Unimplemented
  | Some _, inl err => sink' = sink ∧ ErrorDetail answer = Some (mkRpcStatus Unknown err)
  | Some st, inr os =>
      let '(u, err) := Apply (updater sink) (mkChange (MsgCollection msg) os (RemovedResources msg)
                                (MsgIncremental msg) (SystemVersionInfo msg)) in
      updater sink' = u ∧ ErrorDetail answer = mkRpcStatus InvalidArgument <$> err ∧
      sinkState sink' = match err with
                        | Some _ => sinkState sink
                        | None => <[MsgCollection msg := mkPerCollection
                            (UpdateResourceVersionTracking (ackedVersions st) msg)
                            (requestIncremental st)]> (sinkState sink)
                        end
  end.
Proof.
  split; [|split].
  - unfold processClientRequest. destruct (conWatches con !! ReqCollection req) as [w|].
    + intros H1 H2. destruct (isTriggerResponse req); [done|]. rewrite decide_False; [done|]. naive_solver.
    + intros Ht. destruct (isTriggerResponse req) eqn:E; [|done].
      by destruct Ht; apply isTriggerResponse_spec.
  - unfold processClientRequest. by intros ->%isTriggerResponse_spec.
  - unfold handleResponse. destruct (sinkState sink !! MsgCollection msg) as [st|] eqn:Es; [|done].
    destruct (unpack_all (MsgResources msg)) as [err|os]; [done|].
    by destruct (Apply (updater sink) _) as [u [err|]].
Qed.

(** ** Witnesses *)
Lemma delta_applies_witness :
  let '(added, removed) := @calculateDelta transparent asc_order
    [@mkResource transparent "a" "2" None; @mkResource transparent "b" "1" None]
    {[ "b" := "1"; "c" := "1" ]} in
  @Name transparent <$> added = ["a"] ∧ removed = ["c"] ∧
  @UpdateResourceVersionTracking transparent {[ "b" := "1"; "c" := "1" ]}
    (@mkResourcesMsg transparent "v" "k" added removed true "1") = {[ "a" := "2"; "b" := "1" ]}.
Proof.
  split; [vm_compute; reflexivity|]. split; [vm_compute; reflexivity|].
  rewrite (@delta_applies transparent asc_order
    [@mkResource transparent "a" "2" None; @mkResource transparent "b" "1" None]
    {[ "b" := "1"; "c" := "1" ]} "v" "k" "1"); [vm_compute; reflexivity|].
  by apply (bool_decide_unpack _).
Defined.

Lemma stream_errors_witness :
  let con := @newConnection transparent (CollectionOptionsFromSlice ["c"]) "peer" 1 in
  let req := mkRequestResources "d" ∅ false "" None in
  @processClientRequest transparent IndexFunction con McpCache.New req =
    (con, McpCache.New, Some (Unsupported "d")) ∧ code_of (Unsupported "d") = InvalidArgument.
Proof.
  cbv zeta.
  exact (proj1 (@stream_errors transparent (@Build_Unmarshal transparent (λ _, "type") inr) unit
    {| Apply u _ := (u, None) |} IndexFunction
    (@newConnection transparent (CollectionOptionsFromSlice ["c"]) "peer" 1) McpCache.New
    (mkRequestResources "d" ∅ false "" None) (NewSink [] ())
    (@mkResourcesMsg transparent "1" "c" [] [] false "1"))
    ltac:(intros [E _]; discriminate E)).
Defined.
