(* ===== verification/SnapshotLoop.v ===== *)
(** * The snapshot loop ([snapshot/snapshot.go])

    On every tick the loop collects the routes, asks the policy server for its
    policies and, when either differs from the last published ones, builds a new
    MCP snapshot under the next version and hands it to the cache.  What the
    surroundings answer on a tick (routes, policies, located certificates) is the
    tick's input; the cache is the one of [McpCache]. *)
From S2P Require Import Prelude GoStrings FixWeights Certs Collector Istio GoSlices Sidecars Gateways.
From S2P Require Import DestinationRules ServiceEntries VirtualServices McpCache.

(** ** The collections *)
(** [model.IstioConfigTypes] of Istio: types and their collections, in its order. *)
Definition IstioConfigTypes : list (string * string) := [
  ("virtual-service", "istio/networking/v1alpha3/virtualservices");
  ("gateway", "istio/networking/v1alpha3/gateways");
  ("service-entry", "istio/networking/v1alpha3/serviceentries");
  ("destination-rule", "istio/networking/v1alpha3/destinationrules");
  ("envoy-filter", "istio/networking/v1alpha3/envoyfilters");
  ("sidecar", "istio/networking/v1alpha3/sidecars");
  ("http-api-spec", "istio/config/v1alpha2/httpapispecs");
  ("http-api-spec-binding", "istio/config/v1alpha2/httpapispecbindings");
  ("quota-spec", "istio/mixer/v1/config/client/quotaspecs");
  ("quota-spec-binding", "istio/mixer/v1/config/client/quotaspecbindings");
  ("policy", "istio/authentication/v1alpha1/policies");
  ("mesh-policy", "istio/authentication/v1alpha1/meshpolicies");
  ("service-role", "istio/rbac/v1alpha1/serviceroles");
  ("service-role-binding", "istio/rbac/v1alpha1/servicerolebindings");
  ("authorization-policy", "istio/rbac/v1alpha1/authorizationpolicies");
  ("rbac-config", "istio/rbac/v1alpha1/rbacconfigs");
  ("cluster-rbac-config", "istio/rbac/v1alpha1/clusterrbacconfigs")].

(** The loop of [GetByType]. *)
Fixpoint GetByType (descriptor : list (string * string)) (name : string) : option string :=
  match descriptor with
  | [] => None
  | (type, collection) :: descriptor =>
      if decide (type = name) then Some collection else GetByType descriptor name
  end.

(** An unknown type ends the process before [main] starts. *)
Definition getTypeURLByType (name : string) : outcome string :=
  match GetByType IstioConfigTypes name with
  | Some collection => Ret collection
  | None => Panic "exit status 1"
  end.

(** The package variables; [init] sets them, or the process is gone. *)
Definition type_url (name : string) : string :=
  match getTypeURLByType name with Ret u => u | Panic _ => "" end.

Definition AuthenticationPolicyTypeURL : string := type_url "policy".
Definition AuthenticationMeshPolicyTypeURL : string := type_url "mesh-policy".
Definition AuthorizationPolicyTypeURL : string := type_url "authorization-policy".
Definition DestinationRuleTypeURL : string := type_url "destination-rule".
Definition VirtualServiceTypeURL : string := type_url "virtual-service".
Definition GatewayTypeURL : string := type_url "gateway".
Definition ServiceEntryTypeURL : string := type_url "service-entry".
Definition EnvoyFilterTypeURL : string := type_url "envoy-filter".
Definition SidecarTypeURL : string := type_url "sidecar".
Definition HTTPAPISpecTypeURL : string := type_url "http-api-spec".
Definition HTTPAPISpecBindingTypeURL : string := type_url "http-api-spec-binding".
Definition QuotaSpecTypeURL : string := type_url "quota-spec".
Definition QuotaSpecBindingTypeURL : string := type_url "quota-spec-binding".
Definition PolicyTypeURL : string := type_url "policy".
Definition MeshPolicyTypeURL : string := type_url "mesh-policy".
Definition ServiceRoleTypeURL : string := type_url "service-role".
Definition ServiceRoleBindingTypeURL : string := type_url "service-role-binding".
Definition RbacConfigTypeURL : string := type_url "rbac-config".
Definition ClusterRbacConfigTypeURL : string := type_url "cluster-rbac-config".

(** [init] runs the look-ups in this order. *)
Definition init : outcome (list string) :=
  foldM (λ us name, u ← getTypeURLByType name; Ret (us ++ [u])) []
    ["policy"; "mesh-policy"; "authorization-policy"; "destination-rule"; "virtual-service";
     "gateway"; "service-entry"; "envoy-filter"; "sidecar"; "http-api-spec";
     "http-api-spec-binding"; "quota-spec"; "quota-spec-binding"; "policy"; "mesh-policy";
     "service-role"; "service-role-binding"; "rbac-config"; "cluster-rbac-config"].

(** The collections the server offers its MCP clients ([mainWithError]). *)
Definition typeURLs : list string := [
  AuthenticationPolicyTypeURL; AuthenticationMeshPolicyTypeURL; AuthorizationPolicyTypeURL;
  GatewayTypeURL; VirtualServiceTypeURL; DestinationRuleTypeURL; ServiceEntryTypeURL;
  EnvoyFilterTypeURL; SidecarTypeURL; HTTPAPISpecTypeURL; HTTPAPISpecBindingTypeURL;
  QuotaSpecTypeURL; QuotaSpecBindingTypeURL; PolicyTypeURL; MeshPolicyTypeURL;
  ServiceRoleTypeURL; ServiceRoleBindingTypeURL; RbacConfigTypeURL; ClusterRbacConfigTypeURL].

(** ** State *)
Definition node : string := "default".

Section state.
Context `{Marshal}.

Record Snapshot := mkSnapshot {
  builder : InMemoryBuilder Resource;
  cachedRoutes : gslice RouteWithBackends;
  cachedPolicies : gslice Policy;
  ver : Z;  (* an int *)
  initialized : bool;
}.

Definition New (builder : InMemoryBuilder Resource) : Snapshot := mkSnapshot builder Nil Nil 0 false.
End state.

(** The interface value the loop is given: nil, a nil [*InternalClient], or a
    client that can be called. *)
Inductive policyClient := NilInterface | NilPointer | Client.

(** What [mainWithError] passes: a variable of type [*InternalClient]. *)
Definition policyServerClient (policyServerDisabled : bool) : policyClient :=
  if policyServerDisabled then NilPointer else Client.

(** The answer of the policy server, or an error. *)
Notation policy_answer := (string + gslice Policy)%type.

Definition GetPolicies (c : policyClient) (answer : policy_answer) : outcome policy_answer :=
  match c with
  | NilInterface => Ret (inr Nil)
  | NilPointer => Panic "invalid memory address or nil pointer dereference"
  | Client => Ret answer
  end.

(** What the surroundings answer on a tick. *)
Record inputs := mkInputs {
  collected : gslice RouteWithBackends;
  answer : policy_answer;
  located : list PemInfo * option string;
}.

(** ** Operations *)
(** What one call of [builder.Set] sets. *)
Record update `{Marshal} := mkUpdate {
  collection : string; version : string; entries : gslice Resource;
}.
Arguments mkUpdate {_} _ _ _.
Arguments collection {_} _.
Arguments version {_} _.
Arguments entries {_} _.

Section loop.
Context `{GrowSlice} `{MapOrder} `{Marshal}.

Definition EmptyResponse : gslice Resource := Sl [].

(** Resources appended to a nil slice. *)
Definition appended (rs : list Resource) : gslice Resource := gappend Nil rs.

Definition increment (s : Snapshot) : Snapshot * string :=
  let v := i64 (ver s + 1) in
  (mkSnapshot (builder s) (cachedRoutes s) (cachedPolicies s) v (initialized s), Itoa v).

(** The calls of [builder.Set], in order. *)
Definition updates (newVersion : string)
    (gateways sidecars virtualServices destinationRules serviceEntries : gslice Resource)
    : list update := [
  mkUpdate GatewayTypeURL "1" gateways;
  mkUpdate SidecarTypeURL newVersion sidecars;
  mkUpdate VirtualServiceTypeURL newVersion virtualServices;
  mkUpdate DestinationRuleTypeURL newVersion destinationRules;
  mkUpdate ServiceEntryTypeURL newVersion serviceEntries;
  mkUpdate AuthenticationPolicyTypeURL "1" EmptyResponse;
  mkUpdate AuthorizationPolicyTypeURL "1" EmptyResponse;
  mkUpdate ClusterRbacConfigTypeURL "1" EmptyResponse;
  mkUpdate EnvoyFilterTypeURL "1" EmptyResponse;
  mkUpdate HTTPAPISpecBindingTypeURL "1" EmptyResponse;
  mkUpdate HTTPAPISpecTypeURL "1" EmptyResponse;
  mkUpdate MeshPolicyTypeURL "1" EmptyResponse;
  mkUpdate QuotaSpecBindingTypeURL "1" EmptyResponse;
  mkUpdate QuotaSpecTypeURL "1" EmptyResponse;
  mkUpdate ServiceRoleBindingTypeURL "1" EmptyResponse;
  mkUpdate ServiceRoleTypeURL "1" EmptyResponse;
  mkUpdate RbacConfigTypeURL "1" EmptyResponse].

(** The five calls of the configuration. *)
Definition create (routes : gslice RouteWithBackends) (policies : gslice Policy)
    (certificates : list PemInfo * option string) (newVersion : string) : outcome (list update) :=
  gateways ← @CreateGatewayResources certificates _;
  let sidecars := CreateSidecarResources routes policies newVersion in
  virtualServices ← CreateVirtualServiceResources routes newVersion;
  let destinationRules := CreateDestinationRuleResources routes newVersion in
  let serviceEntries := CreateServiceEntryResources routes newVersion in
  Ret (updates newVersion (appended gateways) (appended sidecars) (appended virtualServices)
         (appended destinationRules) (appended serviceEntries)).

Definition set_entry (b : InMemoryBuilder Resource) (u : update) : outcome (InMemoryBuilder Resource) :=
  builder_Set b (collection u) (version u) (entries u).

(** One tick: the new state and the snapshot for the setter, if one was built. *)
Definition tick (client : policyClient) (s : Snapshot) (i : inputs)
    : outcome (Snapshot * option (InMemory Resource)) :=
  let routes := collected i in
  policies ← GetPolicies client (answer i);
  match policies with
  | inl policyError => Ret (s, None)
  | inr policies =>
      if initialized s && bool_decide (routes = cachedRoutes s)
                       && bool_decide (policies = cachedPolicies s)
      then Ret (s, None)
      else
        let '(s, newVersion) := increment s in
        us ← create routes policies (located i) newVersion;
        b ← foldM set_entry (builder s) us;
        match Build b with
        | (None, _) => Panic "invalid memory address or nil pointer dereference"
        | (Some shot, _) =>
            Ret (mkSnapshot (Builder shot) routes policies (ver s) true, Some shot)
        end
  end.

(** The loop of [Run] over its ticks: the final state and what the setter got. *)
Definition Run (client : policyClient) (s : Snapshot) (ticks : list inputs)
    : outcome (Snapshot * list (InMemory Resource)) :=
  foldM (λ '(s, shots) i,
           r ← tick client s i;
           let '(s, shot) := r in Ret (s, shots ++ option_list shot)) (s, []) ticks.

(** A tick against the cache: the setter is [Cache.SetSnapshot] for [node]. *)
Definition tick_cache (client : policyClient) (s : Snapshot) (c : Cache Resource) (i : inputs)
    : outcome (Snapshot * Cache Resource * list (push Resource)) :=
  r ← tick client s i;
  match r with
  | (s, None) => Ret (s, c, [])
  | (s, Some shot) => let '(c, out) := SetSnapshot c node shot in Ret (s, c, out)
  end.
End loop.

(** ** Specification *)
(** What a tick observes: routes and policies, unless the policies failed. *)
Definition observed (i : inputs) : option (gslice RouteWithBackends * gslice Policy) :=
  match answer i with inl _ => None | inr policies => Some (collected i, policies) end.

(** The ticks whose observation differs from the last one. *)
Fixpoint changes (last : option (gslice RouteWithBackends * gslice Policy)) (ticks : list inputs)
    : list inputs :=
  match ticks with
  | [] => []
  | i :: ticks =>
      match observed i with
      | None => changes last ticks
      | Some o => if decide (last = Some o) then changes last ticks
                  else i :: changes (Some o) ticks
      end
  end.

(** The snapshot of an observation alone, whatever was published before. *)
Definition fill `{Marshal} (us : list update) : InMemory Resource :=
  mkInMemory (insert_all collection entries us ∅) (insert_all collection version us ∅).
Definition snapshot_of `{GrowSlice} `{MapOrder} `{Marshal} (newVersion : string) (i : inputs)
    : outcome (InMemory Resource) :=
  match answer i with
  | inl _ => Panic "no policies"
  | inr policies => us ← create (collected i) policies (located i) newVersion; Ret (fill us)
  end.

(** What the collector and the librarian guarantee. *)
Definition wf_inputs (i : inputs) : Prop :=
  Forall has_backend (elems (collected i)) ∧ Forall (λ info, Hosts info ≠ []) (located i).1.

(** ** Lemmas *)
(** The collections that are set on every publication. *)
Definition published_collections : list string := [
  GatewayTypeURL; SidecarTypeURL; VirtualServiceTypeURL; DestinationRuleTypeURL;
  ServiceEntryTypeURL; AuthenticationPolicyTypeURL; AuthorizationPolicyTypeURL;
  ClusterRbacConfigTypeURL; EnvoyFilterTypeURL; HTTPAPISpecBindingTypeURL; HTTPAPISpecTypeURL;
  MeshPolicyTypeURL; QuotaSpecBindingTypeURL; QuotaSpecTypeURL; ServiceRoleBindingTypeURL;
  ServiceRoleTypeURL; RbacConfigTypeURL].

Section lemmas.
Context `{GrowSlice} `{MapOrder} `{Marshal}.

Lemma set_all us m :
  foldM set_entry (Some m) us =
  Ret (Some (mkInMemory (insert_all collection entries us (resources m))
                        (insert_all collection version us (versions m)))).
Proof. revert m; induction us as [|u us IH]; intros [rs vs]; [done|]. simpl. by rewrite IH. Qed.

Lemma create_collections routes policies certificates v us :
  create routes policies certificates v = Ret us → collection <$> us = published_collections.
Proof.
  unfold create. intros (g & _ & E)%bind_Ret. apply bind_Ret in E as (vs & _ & E).
  by injection E as <-.
Qed.

Lemma virtual_total routes v :
  Forall has_backend (elems routes) → ∃ rs, CreateVirtualServiceResources routes v = Ret rs.
Proof.
  intros Hb. unfold CreateVirtualServiceResources.
  destruct (build_services_spec (elems routes) Hb) as (st & -> & _). simpl. eauto.
Qed.

Lemma gateway_total (certificates : list PemInfo * option string) :
  Forall (λ info, Hosts info ≠ []) certificates.1 →
  @CreateGatewayResources certificates _ =
  Ret [mkResource DefaultGatewayName "1" (body_of
    (PGateway (mkGateway (http_server :: (server_of <$> certificates.1)))))].
Proof.
  destruct certificates as [ps e]. simpl. intros Hh. unfold CreateGatewayResources, librarian_Locate.
  by rewrite (add_tls_all ps).
Qed.

Lemma create_total i policies v :
  wf_inputs i → ∃ us, create (collected i) policies (located i) v = Ret us.
Proof.
  intros [Hb Hh]. unfold create. rewrite gateway_total by done. simpl.
  destruct (virtual_total (collected i) v Hb) as [vs ->]. simpl. eauto.
Qed.

(** The builder is there and holds nothing that is not overwritten. *)
Definition builder_ok (s : Snapshot) : Prop :=
  ∃ m, builder s = Some m ∧
    (∀ k, is_Some (resources m !! k) → k ∈ published_collections) ∧
    (∀ k, is_Some (versions m !! k) → k ∈ published_collections).

Lemma builder_ok_New : builder_ok (New NewInMemoryBuilder).
Proof. eexists. split; [done|]. by split; simpl; intros k; rewrite lookup_empty; intros [??]. Qed.

Lemma builder_ok_fill us rs ps v :
  collection <$> us = published_collections →
  builder_ok (mkSnapshot (Builder (fill us)) rs ps v true).
Proof.
  intros E. eexists. split; [done|]. simpl. split; intros k Hk; rewrite <-E.
  - rewrite lookup_fmap, fmap_is_Some in Hk. by eapply insert_all_keys.
  - by eapply insert_all_keys.
Qed.

(** The last published observation. *)
Definition last_seen (s : Snapshot) : option (gslice RouteWithBackends * gslice Policy) :=
  if initialized s then Some (cachedRoutes s, cachedPolicies s) else None.

Lemma unchanged_iff s routes policies :
  initialized s && bool_decide (routes = cachedRoutes s) && bool_decide (policies = cachedPolicies s)
  = bool_decide (last_seen s = Some (routes, policies)).
Proof.
  unfold last_seen. destruct (initialized s); cbn [andb]; [|by rewrite bool_decide_eq_false_2].
  repeat case_bool_decide; cbn [andb]; naive_solver.
Qed.

(** One tick with a client, on all branches. *)
Lemma tick_spec s i :
  builder_ok s → wf_inputs i →
  match observed i with
  | None => tick Client s i = Ret (s, None)
  | Some o =>
      if decide (last_seen s = Some o) then tick Client s i = Ret (s, None)
      else ∃ shot s', tick Client s i = Ret (s', Some shot) ∧
        snapshot_of (Itoa (i64 (ver s + 1))) i = Ret shot ∧
        builder_ok s' ∧ last_seen s' = Some o ∧ ver s' = i64 (ver s + 1)
  end.
Proof.
  intros (m & Hm & Hr & Hv) Hwf. unfold tick, observed, snapshot_of, GetPolicies.
  destruct (answer i) as [e|ps]; simpl; [done|]. rewrite unchanged_iff.
  case_decide as E; [by rewrite bool_decide_eq_true_2|]. rewrite bool_decide_eq_false_2 by done.
  destruct (create_total i ps (Itoa (i64 (ver s + 1))) Hwf) as [us Hus].
  rewrite Hus. simpl. rewrite Hm, set_all. simpl.
  pose proof (create_collections _ _ _ _ _ Hus) as Hk.
  rewrite (insert_all_override collection entries us (resources m)) by (rewrite Hk; done).
  rewrite (insert_all_override collection version us (versions m)) by (rewrite Hk; done).
  eexists _, _. split; [done|]. split; [done|]. split; [by apply builder_ok_fill|]. done.
Qed.

Lemma changes_length last ticks : length (changes last ticks) ≤ length ticks.
Proof.
  revert last; induction ticks as [|i ticks IH]; intros last; simpl; [done|].
  destruct (observed i) as [o|]; [case_decide|]; simpl; [| |]; 
    pose proof (IH last); try pose proof (IH (Some o)); lia.
Qed.

Lemma Run_spec ticks s shots :
  builder_ok s → Forall wf_inputs ticks → (0 ≤ ver s)%Z → (ver s + Z.of_nat (length ticks) < 2 ^ 63)%Z →
  ∃ s' shots',
    foldM (λ '(s, shots) i,
             r ← tick Client s i;
             let '(s, shot) := r in Ret (s, shots ++ option_list shot)) (s, shots) ticks
      = Ret (s', shots ++ shots') ∧
    Ret <$> shots' = imap (λ k i, snapshot_of (Itoa (ver s + 1 + Z.of_nat k)) i) (changes (last_seen s) ticks) ∧
    builder_ok s' ∧ ver s' = (ver s + Z.of_nat (length shots'))%Z.
Proof.
  revert s shots; induction ticks as [|i ticks IH]; intros s shots Hs Hwf Hv Hlen.
  { exists s, []. simpl. rewrite app_nil_r. split_and!; [done..|lia]. }
  apply Forall_cons in Hwf as [Hi Hwf]. simpl in Hlen. pose proof (tick_spec s i Hs Hi) as Ht. simpl.
  destruct (observed i) as [o|].
  - case_decide as E.
    + rewrite Ht. simpl. destruct (IH s (shots ++ []) Hs Hwf) as (s' & shots' & -> & ?); [lia..|].
      exists s', shots'. by rewrite app_nil_r.
    + destruct Ht as (shot & s1 & -> & Hshot & Hs1 & Hl & Hv1). simpl.
      rewrite i64_small in Hv1, Hshot by lia.
      destruct (IH s1 (shots ++ [shot]) Hs1 Hwf) as (s' & shots' & -> & Es & Hs' & Hv'); [lia..|].
      exists s', (shot :: shots'). rewrite <-app_assoc. split; [done|]. split_and!; [|done|].
      * rewrite fmap_cons, Es, Hl. cbn [Z.of_nat]. rewrite Z.add_0_r, Hshot. f_equal.
        apply imap_ext. intros k j _. simpl. f_equal. f_equal. lia.
      * rewrite Hv', Hv1. simpl. lia.
  - rewrite Ht. simpl. destruct (IH s (shots ++ []) Hs Hwf) as (s' & shots' & -> & ?); [lia..|].
    exists s', shots'. by rewrite app_nil_r.
Qed.
End lemmas.

(** Reading a filled snapshot. *)
Section read.
Context `{Marshal}.

Lemma Resources_fill us k :
  Resources (fill us) k =
  match last_with collection k us with Some u => entries u | None => Nil end.
Proof. unfold Resources, fill, lookup0. simpl. rewrite lookup_insert_all. by destruct last_with. Qed.
Lemma VersionOf_fill us k :
  VersionOf (fill us) k =
  match last_with collection k us with Some u => version u | None => "" end.
Proof. unfold VersionOf, fill, lookup0. simpl. rewrite lookup_insert_all. by destruct last_with. Qed.

Lemma VersionOf_updates v g sc vs dr se k :
  k ∈ typeURLs →
  VersionOf (fill (updates v g sc vs dr se)) k =
  if decide (k ∈ [SidecarTypeURL; VirtualServiceTypeURL; DestinationRuleTypeURL; ServiceEntryTypeURL])
  then v else "1".
Proof.
  rewrite VersionOf_fill. unfold typeURLs. rewrite !elem_of_cons, elem_of_nil.
  intros Hk. repeat destruct Hk as [->|Hk]; [reflexivity..|done].
Qed.
End read.

(** The collections whose version follows the loop's. *)
Definition versioned_collections : list string :=
  [SidecarTypeURL; VirtualServiceTypeURL; DestinationRuleTypeURL; ServiceEntryTypeURL].

Section contents.
Context `{GrowSlice} `{MapOrder} `{Marshal}.

Lemma snapshot_of_updates v i shot :
  snapshot_of v i = Ret shot →
  ∃ policies gateways virtuals,
    answer i = inr policies ∧ @CreateGatewayResources (located i) _ = Ret gateways ∧
    CreateVirtualServiceResources (collected i) v = Ret virtuals ∧
    shot = fill (updates v (appended gateways)
      (appended (CreateSidecarResources (collected i) policies v)) (appended virtuals)
      (appended (CreateDestinationRuleResources (collected i) v))
      (appended (CreateServiceEntryResources (collected i) v))).
Proof.
  unfold snapshot_of. destruct (answer i) as [e|ps]; [done|]. unfold create.
  intros (us & (g & Hg & (vs & Hvs & E)%bind_Ret)%bind_Ret & E')%bind_Ret.
  injection E as <-. injection E' as <-. eexists _, _, _. done.
Qed.

Lemma snapshot_of_version v i shot k :
  snapshot_of v i = Ret shot → k ∈ typeURLs →
  VersionOf shot k = if decide (k ∈ versioned_collections) then v else "1".
Proof. intros (? & ? & ? & _ & _ & _ & ->)%snapshot_of_updates. apply VersionOf_updates. Qed.

Lemma typeURLs_default k : k ∈ typeURLs → IndexFunction k = node.
Proof.
  unfold typeURLs. rewrite !elem_of_cons, elem_of_nil.
  intros Hk. repeat destruct Hk as [->|Hk]; [reflexivity..|done].
Qed.

(** A tick against the cache, with a client. *)
Lemma tick_cache_spec s c i :
  builder_ok s → wf_inputs i →
  (tick Client s i = Ret (s, None) ∧ tick_cache Client s c i = Ret (s, c, []) ∧
   (observed i = None ∨ observed i = last_seen s)) ∨
  ∃ shot s', snapshot_of (Itoa (i64 (ver s + 1))) i = Ret shot ∧ last_seen s' = observed i ∧
    builder_ok s' ∧ ver s' = i64 (ver s + 1) ∧ observed i ≠ last_seen s ∧
    tick_cache Client s c i =
      Ret (s', (SetSnapshot c node shot).1, (SetSnapshot c node shot).2).
Proof.
  intros Hs Hwf. pose proof (tick_spec s i Hs Hwf) as Ht. unfold tick_cache.
  destruct (observed i) as [o|]; [case_decide as E|].
  - left. rewrite Ht. simpl. auto.
  - right. destruct Ht as (shot & s' & -> & ? & ? & ? & ?). simpl. exists shot, s'.
    split_and!; try done. by destruct (SetSnapshot c node shot).
  - left. rewrite Ht. simpl. auto.
Qed.
End contents.

(** ** Properties *)

(** C14. The loop publishes exactly the changes: started on an empty builder with a
    client, it survives any sequence of ticks with what the collector and the
    librarian guarantee; it skips the ticks on which the policies cannot be fetched
    or nothing differs from the last published observation, and for the k-th of the
    other ticks the setter gets the snapshot of that tick's observation alone, under
    version k, with nothing left over from earlier ones. *)
Theorem loop_publishes_changes `{GrowSlice} `{MapOrder} `{Marshal} (ticks : list inputs)
    (Hwf : Forall wf_inputs ticks) (Hlen : (Z.of_nat (length ticks) < 2 ^ 63)%Z) :
  ∃ s' shots, Run Client (New NewInMemoryBuilder) ticks = Ret (s', shots) ∧
    Ret <$> shots = imap (λ k i, snapshot_of (Itoa (1 + Z.of_nat k)) i) (changes None ticks).
Proof.
  destruct (Run_spec ticks (New NewInMemoryBuilder) [] builder_ok_New Hwf) as (s' & shots & E & Es & _);
    [simpl; lia..|].
  exists s', shots. split; [exact E|exact Es].
Qed.

(** Every collection the server offers its clients is served from the snapshot
    of the loop's group, under a version that is never empty, so a client's first
    request is answered; the collections of the routes carry the new version and
    what [snapshot/config.go] creates, all others are empty. *)
Theorem every_collection_served `{GrowSlice} `{MapOrder} `{Marshal} (v : Z) (i : inputs)
    (shot : InMemory Resource) (Hs : snapshot_of (Itoa v) i = Ret shot) :
  (∀ c, c ∈ typeURLs → IndexFunction c = node ∧ VersionOf shot c ≠ "" ∧
     VersionOf shot c = (if decide (c ∈ versioned_collections) then Itoa v else "1") ∧
     (c ∉ GatewayTypeURL :: versioned_collections → Resources shot c = Sl [])) ∧
  ∃ policies virtuals gateways, answer i = inr policies ∧
    Resources shot SidecarTypeURL = appended (CreateSidecarResources (collected i) policies (Itoa v)) ∧
    Resources shot DestinationRuleTypeURL =
      appended (CreateDestinationRuleResources (collected i) (Itoa v)) ∧
    Resources shot ServiceEntryTypeURL = appended (CreateServiceEntryResources (collected i) (Itoa v)) ∧
    CreateVirtualServiceResources (collected i) (Itoa v) = Ret virtuals ∧
    Resources shot VirtualServiceTypeURL = appended virtuals ∧
    @CreateGatewayResources (located i) _ = Ret gateways ∧
    Resources shot GatewayTypeURL = appended gateways.
Proof.
  pose proof (λ c, snapshot_of_version (Itoa v) i shot c Hs) as Hv.
  destruct (snapshot_of_updates _ _ _ Hs) as (ps & g & vs & Ha & Hg & Hvs & ->). split.
  - intros c Hc. split; [by apply typeURLs_default|]. rewrite (Hv c Hc). split; [|split; [done|]].
    + case_decide; [apply Itoa_ne_empty|done].
    + intros Hn. rewrite Resources_fill. revert Hn Hc. unfold typeURLs, versioned_collections.
      rewrite !elem_of_cons, !elem_of_nil. intros Hn Hc.
      repeat destruct Hc as [->|Hc]; first [reflexivity|done|exfalso; tauto].
  - exists ps, vs, g. split_and!; try done; by rewrite Resources_fill.
Qed.

(** Every change reaches the clients: on a tick with a new observation, every
    client that waits for sidecars, virtual services, destination rules or service
    entries, with no version yet or with one the loop has published before, gets
    the new version's resources at once and its watch is closed. *)
Theorem changes_reach_clients `{GrowSlice} `{MapOrder} `{Marshal} (s : Snapshot)
    (c : Cache Resource) (i : inputs) (Hs : builder_ok s) (Hwf : wf_inputs i)
    (Hv : (0 ≤ ver s < 2 ^ 63 - 1)%Z) (Hnew : observed i ≠ None) (Hdiff : observed i ≠ last_seen s) :
  ∃ s' c' out shot, tick_cache Client s c i = Ret (s', c', out) ∧
    snapshot_of (Itoa (ver s + 1)) i = Ret shot ∧ snapshots c' !! node = Some shot ∧
    ∀ id w, open_watches c node !! id = Some w → Collection (request w) ∈ versioned_collections →
      VersionInfo (request w) = "" ∨ (∃ k, (k ≤ ver s)%Z ∧ VersionInfo (request w) = Itoa k) →
      push_of shot w ∈ out ∧ RespVersion (response_to shot (request w)) = Itoa (ver s + 1) ∧
      open_watches c' node !! id = None.
Proof.
  destruct (tick_cache_spec s c i Hs Hwf)
    as [(_ & _ & [|])|(shot & s' & Hshot & _ & _ & _ & _ & Ht)]; [done..|].
  rewrite i64_small in Hshot by lia.
  pose proof (SetSnapshot_spec c node shot) as Hc. rewrite Ht.
  destruct (SetSnapshot c node shot) as [c' out]. destruct Hc as (Hsn & Hw & _ & Hout). simpl.
  exists s', c', out, shot. split; [done|]. split; [done|]. split; [by rewrite Hsn, lookup_insert_eq|].
  intros id w Hid Hk Hver.
  assert (VersionOf shot (Collection (request w)) = Itoa (ver s + 1)) as Ev.
  { rewrite (snapshot_of_version _ _ _ _ Hshot); [by rewrite decide_True|].
    revert Hk. unfold versioned_collections, typeURLs. rewrite !elem_of_cons, !elem_of_nil. tauto. }
  assert (stale shot w) as Hst.
  { unfold stale. rewrite Ev. destruct Hver as [->|(k & Hk' & ->)]; [apply Itoa_ne_empty|].
    intros ?%Itoa_inj. lia. }
  split; [|split; [done|]].
  - rewrite Hout. apply list_elem_of_fmap_2, list_elem_of_filter. split; [done|].
    apply list_elem_of_fmap. exists (id, w). by rewrite elem_of_map_to_list.
  - rewrite Hw. apply map_lookup_filter_None. right. intros w' Hw' Hn. by simplify_eq.
Qed.

(** Certificates never reach a client that already has a gateway: the gateway's
    version is the constant 1, so whatever the librarian locates and whatever the
    tick does, the watch of a client that acknowledged version 1 stays open and
    unanswered; and a change of the certificates alone is not published at all. *)
Theorem certificates_never_pushed `{GrowSlice} `{MapOrder} `{Marshal} (s : Snapshot)
    (c : Cache Resource) (i : inputs) (Hs : builder_ok s) (Hwf : wf_inputs i) :
  (observed i = last_seen s → tick_cache Client s c i = Ret (s, c, [])) ∧
  ∃ s' c' out, tick_cache Client s c i = Ret (s', c', out) ∧
    ∀ id w, open_watches c node !! id = Some w → Collection (request w) = GatewayTypeURL →
      VersionInfo (request w) = "1" →
      open_watches c' node !! id = Some w ∧
      ∀ p r, p ∈ out → response p = Some r → RespRequest r ≠ request w.
Proof.
  destruct (tick_cache_spec s c i Hs Hwf)
    as [(_ & Ht & _)|(shot & s' & Hshot & _ & _ & _ & Hne & Ht)]; rewrite Ht.
  { split; [done|]. exists s, c, []. split; [done|]. intros id w Hid _ _. split; [done|].
    by intros p r ?%not_elem_of_nil. }
  split; [done|]. pose proof (SetSnapshot_spec c node shot) as Hc.
  destruct (SetSnapshot c node shot) as [c' out]. destruct Hc as (_ & Hw & _ & Hout). simpl.
  exists s', c', out. split; [done|]. intros id w Hid Hk Hver.
  assert (VersionOf shot GatewayTypeURL = "1") as Ev.
  { rewrite (snapshot_of_version _ _ _ _ Hshot); [done|].
    unfold typeURLs. rewrite !elem_of_cons. tauto. }
  split.
  - rewrite Hw. apply map_lookup_filter_Some. split; [done|]. unfold stale. simpl.
    rewrite Hk, Ev, Hver. tauto.
  - intros p r Hp Hr E. rewrite Hout in Hp.
    apply list_elem_of_fmap in Hp as (w' & -> & [Hst _]%list_elem_of_filter).
    simpl in Hr. injection Hr as <-. simpl in E. unfold stale in Hst.
    by rewrite E, Hk, Ev, Hver in Hst.
Qed.

(** ** Witnesses *)
Definition w_tick (weight : Z) : inputs :=
  mkInputs (Sl [w_external "h" "/a" "p1" weight]) (inr (Sl [mkPolicy "s" "p1"]))
    ([mkPemInfo ["h"] "/etc/istio/h/tls.crt" "/etc/istio/h/tls.key" "/etc/istio/h"], None).

Lemma w_tick_wf weight : wf_inputs (w_tick weight).
Proof. split; repeat constructor; discriminate. Qed.

Lemma loop_publishes_changes_witness :
  ∃ s' shots, @Run go_grow asc_order transparent Client (@New transparent NewInMemoryBuilder)
    [w_tick 100; w_tick 100; mkInputs Nil (inl "timeout") ([], None); w_tick 50; w_tick 100]
      = Ret (s', shots) ∧ length shots = 3.
Proof.
  destruct (@loop_publishes_changes go_grow asc_order transparent
    [w_tick 100; w_tick 100; mkInputs Nil (inl "timeout") ([], None); w_tick 50; w_tick 100])
    as (s' & shots & E & Es).
  - repeat (constructor; [first [apply w_tick_wf|by repeat constructor]|]). constructor.
  - reflexivity.
  - exists s', shots. split; [exact E|].
    rewrite <-(length_fmap Ret shots), Es, length_imap. reflexivity.
Defined.

Lemma every_collection_served_witness :
  ∃ shot, @snapshot_of go_grow asc_order transparent (Itoa 7) (w_tick 100) = Ret shot ∧
    VersionOf shot SidecarTypeURL = "7" ∧ Resources shot PolicyTypeURL = Sl [].
Proof.
  assert (∃ shot, @snapshot_of go_grow asc_order transparent (Itoa 7) (w_tick 100) = Ret shot)
    as [shot E].
  { destruct (@create_total go_grow asc_order transparent (w_tick 100) (Sl [mkPolicy "s" "p1"])
      (Itoa 7) (w_tick_wf 100)) as [us Hus].
    exists (fill us). unfold snapshot_of. simpl answer. cbv iota. by rewrite Hus. }
  exists shot. split; [exact E|].
  destruct (@every_collection_served go_grow asc_order transparent 7 (w_tick 100) shot E) as [Hc _].
  split.
  - destruct (Hc SidecarTypeURL) as (_ & _ & Ev & _); [by apply (bool_decide_unpack _)|].
    rewrite Ev. reflexivity.
  - apply (Hc PolicyTypeURL); by apply (bool_decide_unpack _).
Defined.

(** A client waits for a collection before the first tick. *)
Definition w_waiting (collection version : string) : Cache (@Resource transparent) :=
  (Watch IndexFunction McpCache.New (mkRequest collection version false) 1 "peer").1.1.

Lemma changes_reach_clients_witness :
  ∃ s' c' out p, @tick_cache go_grow asc_order transparent Client
      (@New transparent NewInMemoryBuilder) (w_waiting VirtualServiceTypeURL "") (w_tick 100)
      = Ret (s', c', out) ∧ p ∈ out ∧ to p = 1.
Proof.
  destruct (@changes_reach_clients go_grow asc_order transparent (@New transparent NewInMemoryBuilder)
    (w_waiting VirtualServiceTypeURL "") (w_tick 100) builder_ok_New (w_tick_wf 100))
    as (s' & c' & out & shot & E & _ & _ & Hw); [split; reflexivity || discriminate|discriminate..|].
  exists s', c', out, (push_of shot (mkResponseWatch (mkRequest VirtualServiceTypeURL "" false) 1)).
  split; [exact E|]. split; [|reflexivity].
  apply (Hw 1%Z); [reflexivity|by apply (bool_decide_unpack _)|left; reflexivity].
Defined.

Lemma certificates_never_pushed_witness :
  ∃ s' c' out, @tick_cache go_grow asc_order transparent Client
      (@New transparent NewInMemoryBuilder) (w_waiting GatewayTypeURL "1") (w_tick 100)
      = Ret (s', c', out) ∧
    open_watches c' node !! 1%Z = Some (mkResponseWatch (mkRequest GatewayTypeURL "1" false) 1).
Proof.
  destruct (@certificates_never_pushed go_grow asc_order transparent (@New transparent NewInMemoryBuilder)
    (w_waiting GatewayTypeURL "1") (w_tick 100) builder_ok_New (w_tick_wf 100))
    as (_ & s' & c' & out & E & Hw).
  exists s', c', out. split; [exact E|]. apply Hw; reflexivity.
Defined.
