(* ===== verification/LoopInterfaces.v ===== *)
(** * The snapshot loop over its interfaces ([snapshot/snapshot.go], [snapshot/config.go])

    [SnapshotLoop] takes what the surroundings answer on a tick as the tick's input.
    Here the same round of [Run] is written against the interfaces that the source
    declares for them (the collector, the policy client, the configuration and the
    setter), every method call with its effect and in its place, and for the
    implementations the server uses it is shown to be [SnapshotLoop]'s tick. *)
From S2P Require Import Prelude GoStrings GoSort GoFloat FixWeights Certs Collector Istio GoSlices Sidecars Gateways.
From S2P Require Import DestinationRules ServiceEntries VirtualServices McpCache SnapshotLoop.

(** ** The interfaces *)
(** A method returns the changed implementation; it may panic. *)
Class collector (C : Type) := Collect : C → outcome (C * gslice RouteWithBackends).
Class InternalPolicyClient (P : Type) := GetPolicies : P → outcome (P * (string + gslice Policy)).
Class config `{Marshal} (K : Type) := {
  EmptyResponse : K → outcome (K * gslice Resource);
  CreateGatewayResources : K → outcome (K * gslice Resource);
  CreateSidecarResources : K → gslice RouteWithBackends → gslice Policy → string →
    outcome (K * gslice Resource);
  CreateVirtualServiceResources : K → gslice RouteWithBackends → string → outcome (K * gslice Resource);
  CreateDestinationRuleResources : K → gslice RouteWithBackends → string → outcome (K * gslice Resource);
  CreateServiceEntryResources : K → gslice RouteWithBackends → string → outcome (K * gslice Resource);
}.
Class setter `{Marshal} (S : Type) := SetSnapshot : S → string → InMemory Resource → outcome S.

(** ** The loop *)
Section loop.
Context `{Marshal} {C P K S : Type}.
Context `{!collector C} `{!InternalPolicyClient P} `{!config K} `{!setter S}.

(** The fields of the loop: those of [SnapshotLoop.Snapshot], and the interfaces; the
    policy client may be the nil interface. *)
Record Loop := mkLoop {
  fields : Snapshot;
  loop_collector : C;
  loop_policies : option P;
  loop_config : K;
  loop_setter : S;
}.

Definition NewLoop (c : C) (s : S) (b : InMemoryBuilder Resource) (p : option P) (k : K) : Loop :=
  mkLoop (SnapshotLoop.New b) c p k s.

(** The policies, when there is a client to ask. *)
Definition get_policies (p : option P) : outcome (option P * (string + gslice Policy)) :=
  match p with
  | None => Ret (None, inr Nil)
  | Some p => r ← GetPolicies p; Ret (Some r.1, r.2)
  end.

(** The empty responses, in order. *)
Definition unsupported : list string := [
  AuthenticationPolicyTypeURL; AuthorizationPolicyTypeURL; ClusterRbacConfigTypeURL;
  EnvoyFilterTypeURL; HTTPAPISpecBindingTypeURL; HTTPAPISpecTypeURL; MeshPolicyTypeURL;
  QuotaSpecBindingTypeURL; QuotaSpecTypeURL; ServiceRoleBindingTypeURL; ServiceRoleTypeURL;
  RbacConfigTypeURL].

Definition set_empty (kb : K * InMemoryBuilder Resource) (url : string)
    : outcome (K * InMemoryBuilder Resource) :=
  '(k, empty) ← EmptyResponse kb.1;
  b ← builder_Set kb.2 url "1" empty;
  Ret (k, b).

(** The calls of the configuration and of the builder in a round that publishes. *)
Definition fill_builder (k : K) (b : InMemoryBuilder Resource) (routes : gslice RouteWithBackends)
    (policies : gslice Policy) (newVersion : string) : outcome (K * InMemoryBuilder Resource) :=
  '(k, gateways) ← CreateGatewayResources k;
  '(k, sidecars) ← CreateSidecarResources k routes policies newVersion;
  '(k, virtualServices) ← CreateVirtualServiceResources k routes newVersion;
  '(k, destinationRules) ← CreateDestinationRuleResources k routes newVersion;
  '(k, serviceEntries) ← CreateServiceEntryResources k routes newVersion;
  b ← builder_Set b GatewayTypeURL "1" gateways;
  b ← builder_Set b SidecarTypeURL newVersion sidecars;
  b ← builder_Set b VirtualServiceTypeURL newVersion virtualServices;
  b ← builder_Set b DestinationRuleTypeURL newVersion destinationRules;
  b ← builder_Set b ServiceEntryTypeURL newVersion serviceEntries;
  foldM set_empty (k, b) unsupported.

(** One round of the select loop of [Run] when the ticker fires. *)
Definition round (l : Loop) : outcome Loop :=
  '(c, routes) ← Collect (loop_collector l);
  '(p, policies) ← get_policies (loop_policies l);
  let s := fields l in
  match policies with
  | inl policyError => Ret (mkLoop s c p (loop_config l) (loop_setter l))
  | inr policies =>
      if initialized s && bool_decide (routes = cachedRoutes s)
                       && bool_decide (policies = cachedPolicies s)
      then Ret (mkLoop s c p (loop_config l) (loop_setter l))
      else
        let '(s, newVersion) := increment s in
        '(k, b) ← fill_builder (loop_config l) (builder s) routes policies newVersion;
        match Build b with
        | (None, _) => Panic "invalid memory address or nil pointer dereference"
        | (Some shot, _) =>
            set ← SetSnapshot (loop_setter l) node shot;
            Ret (mkLoop (mkSnapshot (Builder shot) routes policies (ver s) true) c p k set)
        end
  end.
End loop.
Arguments Loop {_} _ _ _ _.

(** ** The implementations of the server *)
(** [Config] of [snapshot/config.go]: it only holds the librarian. *)
Record Config := mkConfig { librarian : list PemInfo * option string }.
Definition NewConfig (librarian : list PemInfo * option string) : Config := mkConfig librarian.

Section server.
Context `{GrowSlice} `{MapOrder} `{Marshal}.

(** Resources are appended to a nil slice. *)
Definition resources_of (k : Config) (rs : list Resource) : outcome (Config * gslice Resource) :=
  Ret (k, appended rs).

#[export] Instance Config_implements : config Config := {|
  EmptyResponse k := Ret (k, SnapshotLoop.EmptyResponse);
  CreateGatewayResources k :=
    rs ← @Gateways.CreateGatewayResources (librarian k) _; resources_of k rs;
  CreateSidecarResources k routes policies version :=
    resources_of k (Sidecars.CreateSidecarResources routes policies version);
  CreateVirtualServiceResources k routes version :=
    rs ← VirtualServices.CreateVirtualServiceResources routes version; resources_of k rs;
  CreateDestinationRuleResources k routes version :=
    resources_of k (DestinationRules.CreateDestinationRuleResources routes version);
  CreateServiceEntryResources k routes version :=
    resources_of k (ServiceEntries.CreateServiceEntryResources routes version);
|}.

(** The cache, with what it has pushed to clients. *)
#[export] Instance Cache_implements : setter (Cache Resource * list (push Resource)) :=
  λ s node shot, let '(c, out) := McpCache.SetSnapshot s.1 node shot in Ret (c, s.2 ++ out).
End server.

(** The collector reads the repositories by a schedule, as in [Collector]. *)
#[export] Instance schedule_implements `{MapOrder} `{UnicodeLower} `{FloatToInt}
    : collector (nat → world) :=
  λ env, routes ← Collector.Collect env; Ret (env, routes).

(** A policy client that is a pointer, by whether it is nil and what it answers. *)
#[export] Instance client_implements : InternalPolicyClient (policyClient * policy_answer) :=
  λ p, a ← SnapshotLoop.GetPolicies p.1 p.2; Ret (p, a).

(** ** Lemmas *)
Section lemmas.
Context `{GrowSlice} `{MapOrder} `{Marshal}.

(** The empty responses of the server's configuration. *)
Lemma set_empty_all (k : Config) b urls :
  foldM set_empty (k, Some b) urls =
  (b ← foldM set_entry (Some b) ((λ url, mkUpdate url "1" SnapshotLoop.EmptyResponse) <$> urls);
   Ret (k, b)).
Proof. revert b; induction urls as [|url urls IH]; intros b; [done|]. simpl. apply IH. Qed.

(** The configuration's part of a round is [create] and the calls of [Set]. *)
Lemma fill_builder_create (k : Config) b routes policies v :
  fill_builder k b routes policies v =
  (us ← create routes policies (librarian k) v; b ← foldM set_entry b us; Ret (k, b)).
Proof.
  unfold fill_builder, create. simpl.
  destruct (@Gateways.CreateGatewayResources _ _) as [gs|w]; simpl; [|done].
  destruct (VirtualServices.CreateVirtualServiceResources _ _) as [vs|w]; simpl; [|done].
  destruct b as [b|]; [|done]. reflexivity.
Qed.
End lemmas.

(** What the policy part of a loop amounts to. *)
Definition client_of (p : option (policyClient * policy_answer)) : policyClient :=
  match p with Some p => p.1 | None => NilInterface end.
Definition answer_of (p : option (policyClient * policy_answer)) : policy_answer :=
  match p with Some p => p.2 | None => inr Nil end.

(** ** Properties *)

(** A round of the loop over its interfaces, with the server's configuration and
    cache, any collector and any policy client, is a tick of [SnapshotLoop] for what
    the collector returned, the client answered and the librarian located: the same
    new state, snapshot in the cache and pushes to clients, and the same panics. *)
Theorem round_is_tick `{GrowSlice} `{MapOrder} `{Marshal} {C} `{!collector C}
    (l : Loop C (policyClient * policy_answer) Config (Cache Resource * list (push Resource)))
    (c : C) (routes : gslice RouteWithBackends)
    (Hc : Collect (loop_collector l) = Ret (c, routes)) :
  let p := loop_policies l in
  round l =
  (r ← tick_cache (client_of p) (fields l) (loop_setter l).1
         (mkInputs routes (answer_of p) (librarian (loop_config l)));
   let '(s, cache, out) := r in
   Ret (mkLoop s c p (loop_config l) (cache, (loop_setter l).2 ++ out))).
Proof.
  destruct l as [s c0 p k [cache pushed]]. simpl in *.
  unfold round, tick_cache, tick. simpl. rewrite Hc. simpl.
  assert (get_policies p = (a ← SnapshotLoop.GetPolicies (client_of p) (answer_of p); Ret (p, a))) as ->.
  { destruct p as [[cl a]|]; [|done]. by destruct cl. }
  destruct (SnapshotLoop.GetPolicies _ _) as [[err|policies]|w]; simpl; [by rewrite app_nil_r| |done].
  destruct (_ && _); simpl; [by rewrite app_nil_r|].
  rewrite fill_builder_create. destruct (create _ _ _ _) as [us|w]; simpl; [|done].
  destruct (foldM set_entry (builder s) us) as [[b|]|w]; simpl; [|done..].
  unfold SetSnapshot, Cache_implements. simpl. by destruct (McpCache.SetSnapshot cache node b).
Qed.

#[local] Existing Instances go_grow asc_order transparent ascii_only amd64.

Definition w_world : world :=
  mkWorld Routes.NewRoutesRepo RouteMappings.NewRouteMappingsRepo Associations.NewAssociationsRepo
    BackendSets.NoopBackendSetRepo.
Definition w_loop : Loop (nat → world) (policyClient * policy_answer) Config
    (Cache Resource * list (push Resource)) :=
  NewLoop (λ _, w_world) (McpCache.New, []) NewInMemoryBuilder (Some (Client, inr Nil))
    (NewConfig ([], None)).

Lemma round_is_tick_witness :
  round w_loop =
  (r ← tick_cache Client (fields w_loop) McpCache.New (mkInputs Nil (inr Nil) ([], None));
   let '(s, cache, out) := r in
   Ret (mkLoop s (λ _, w_world) (Some (Client, inr Nil)) (NewConfig ([], None)) (cache, out))).
Proof. apply (round_is_tick w_loop (λ _, w_world) Nil). reflexivity. Defined.
