(* ===== verification/McpClient.v ===== *)
(** * The MCP client of the tests ([testhelpers/mock_mcp_client.go])

    The client that stands for Pilot in the integration tests: the sink of [McpStream]
    with an updater that keeps the last objects of every collection, and the functions
    that read them back by type. *)
From S2P Require Import Prelude UniqueQueue Istio McpCache McpStream SnapshotLoop.

Section client.
Context `{Marshal} `{!Unmarshal}.

(** ** The updater *)
Record MockMCPUpdater := mkUpdater { objects : gmap string (list Object) }.

(** [Apply]: the last change of a collection is all there is of it. *)
Global Instance MockMCPUpdater_Apply : Updater MockMCPUpdater := {|
  Apply m c := (mkUpdater (<[ChCollection c := Objects c]> (objects m)), None) |}.

(** The nested loop over the map and its slices; [append] makes the entry. *)
Definition GetAllObjectNames `{MapOrder} (m : MockMCPUpdater) : gmap string (list string) :=
  foldl (λ names '(obType, os),
      foldl (λ names o, <[obType := lookup0 [] names obType ++ [ObjName o]]> names) names os)
    ∅ (map_order (objects m)).

(** The loops with a type assertion, which panics on a message of another type. *)
Definition bodies_of {A} (assert : proto → option A) (m : MockMCPUpdater) (collection : string)
    : outcome (list A) :=
  foldM (λ all o, match assert (ObjBody o) with
                  | Some r => Ret (all ++ [r])
                  | None => Panic "interface conversion"
                  end) [] (lookup0 [] (objects m) collection).

Definition as_VirtualService (p : proto) : option VirtualService :=
  match p with PVirtualService m => Some m | _ => None end.
Definition as_DestinationRule (p : proto) : option DestinationRule :=
  match p with PDestinationRule m => Some m | _ => None end.
Definition as_Gateway (p : proto) : option Gateway :=
  match p with PGateway m => Some m | _ => None end.
Definition as_Sidecar (p : proto) : option Sidecar :=
  match p with PSidecar m => Some m | _ => None end.
Definition as_ServiceEntry (p : proto) : option ServiceEntry :=
  match p with PServiceEntry m => Some m | _ => None end.

Definition GetAllVirtualServices (m : MockMCPUpdater) : outcome (list VirtualService) :=
  bodies_of as_VirtualService m VirtualServiceTypeURL.
Definition GetAllDestinationRules (m : MockMCPUpdater) : outcome (list DestinationRule) :=
  bodies_of as_DestinationRule m DestinationRuleTypeURL.
Definition GetAllGateways (m : MockMCPUpdater) : outcome (list Gateway) :=
  bodies_of as_Gateway m GatewayTypeURL.
Definition GetAllSidecars (m : MockMCPUpdater) : outcome (list Sidecar) :=
  bodies_of as_Sidecar m SidecarTypeURL.
Definition GetAllServiceEntries (m : MockMCPUpdater) : outcome (list ServiceEntry) :=
  bodies_of as_ServiceEntry m ServiceEntryTypeURL.

Definition GetAllMessageNames `{MapOrder} (m : MockMCPUpdater) : list string :=
  (map_order (objects m)).*1.

(** ** The client *)
Record MockPilotMCPClient := mkPilotClient {
  ctxDone : bool;
  sinkClient : Sink MockMCPUpdater;
  connOpen : bool;
}.

(** The collections it asks for: all the server offers but the cluster RBAC
    configuration. *)
Definition client_typeURLs : list string := [
  AuthenticationPolicyTypeURL; AuthenticationMeshPolicyTypeURL; AuthorizationPolicyTypeURL;
  GatewayTypeURL; VirtualServiceTypeURL; DestinationRuleTypeURL; ServiceEntryTypeURL;
  SidecarTypeURL; EnvoyFilterTypeURL; HTTPAPISpecTypeURL; HTTPAPISpecBindingTypeURL;
  QuotaSpecTypeURL; QuotaSpecBindingTypeURL; PolicyTypeURL; MeshPolicyTypeURL;
  ServiceRoleTypeURL; ServiceRoleBindingTypeURL; RbacConfigTypeURL].

(** [dialErr] is how [grpc.DialContext] answers. *)
Definition NewMockPilotMCPClient (dialErr : option string) : string + MockPilotMCPClient :=
  match dialErr with
  | Some err => inl err
  | None =>
      inr (mkPilotClient false
             (NewSink (CollectionOptionsFromSlice client_typeURLs) (mkUpdater ∅)) true)
  end.

(** [Close] cancels the context, closes the connection and passes its error on. *)
Definition Close (c : MockPilotMCPClient) (closeErr : option string)
    : MockPilotMCPClient * option string :=
  (mkPilotClient true (sinkClient c) false, closeErr).
End client.

(** ** Lemmas *)
Section lemmas.
Context `{Marshal} `{!Unmarshal}.

Lemma bodies_of_spec {A} (assert : proto → option A) m collection :
  bodies_of assert m collection =
  match mapM (λ o, assert (ObjBody o)) (lookup0 [] (objects m) collection) with
  | Some l => Ret l
  | None => Panic "interface conversion"
  end.
Proof.
  unfold bodies_of. generalize (lookup0 [] (objects m) collection) as os. intros os.
  assert (∀ acc, foldM (λ all o, match assert (ObjBody o) with
                                 | Some r => Ret (all ++ [r])
                                 | None => Panic "interface conversion"
                                 end) acc os =
    match mapM (λ o, assert (ObjBody o)) os with
    | Some l => Ret (acc ++ l)
    | None => Panic "interface conversion"
    end) as Hl; [|apply (Hl [])].
  induction os as [|o os IH]; intros acc; simpl; [by rewrite app_nil_r|].
  destruct (assert (ObjBody o)) as [r|]; simpl; [|done]. rewrite IH.
  destruct (mapM _ os); simpl; [by rewrite <-app_assoc|done].
Qed.

Lemma fold_names (ty : string) os (names : gmap string (list string)) k :
  foldl (λ names o, <[ty := lookup0 [] names ty ++ [ObjName o]]> names) names os !! k =
  if decide (k = ty ∧ os ≠ []) then Some (lookup0 [] names ty ++ (ObjName <$> os))
  else names !! k.
Proof.
  revert names; induction os as [|o os IH]; intros names; simpl.
  - by rewrite decide_False by tauto.
  - rewrite IH. unfold lookup0. rewrite lookup_insert_eq. simpl.
    destruct (decide (k = ty)) as [->|Hk].
    + rewrite (decide_True (P := ty = ty ∧ o :: os ≠ [])) by done. case_decide as E.
      * by rewrite <-app_assoc.
      * rewrite lookup_insert_eq. destruct os; [done|]. by destruct E.
    + rewrite !decide_False by tauto. by rewrite lookup_insert_ne.
Qed.

Lemma fold_collections (l : list (string * list Object)) (names : gmap string (list string)) collection :
  NoDup l.*1 → (∀ k, k ∈ l.*1 → names !! k = None) →
  foldl (λ names '(ty, os),
    foldl (λ names o, <[ty := lookup0 [] names ty ++ [ObjName o]]> names) names os) names l
    !! collection =
  match last_with fst collection l with
  | Some (_, []) | None => names !! collection
  | Some (_, os) => Some (ObjName <$> os)
  end.
Proof.
  revert names; induction l as [|[ty os] l IH]; intros names Hnd Hno; [done|]. simpl.
  apply NoDup_cons in Hnd as [Hty Hnd]. rewrite IH; [|done|].
  - destruct (last_with fst collection l) as [[k os']|] eqn:E.
    + apply last_with_Some in E as [Hk Hl]. simpl in Hk. subst k.
      rewrite fold_names, decide_False; [by destruct os'|]. intros [<- _]. destruct Hty.
      by apply (list_elem_of_fmap_2 fst) in Hl.
    + rewrite fold_names. simpl. destruct (decide (ty = collection)) as [->|Hne].
      * unfold lookup0. rewrite (Hno collection) by left. destruct os.
        { by rewrite decide_False by tauto. }
        by rewrite decide_True.
      * rewrite decide_False; [done|]. by intros [? _].
  - intros k Hk. rewrite fold_names, decide_False; [apply Hno; by right|]. by intros [-> _].
Qed.

Lemma lookup_object_names `{MapOrder} (m : MockMCPUpdater) collection :
  GetAllObjectNames m !! collection =
  match objects m !! collection with
  | None | Some [] => None
  | Some os => Some (ObjName <$> os)
  end.
Proof.
  unfold GetAllObjectNames. rewrite fold_collections; [|apply NoDup_map_order_fst|intros; apply lookup_empty].
  rewrite lookup_empty.
  destruct (objects m !! collection) as [os|] eqn:E.
  - assert (last_with fst collection (map_order (objects m)) = Some (collection, os)) as ->.
    { apply last_with_unique; [by apply elem_of_map_order|done|].
      intros [k v] Hkv%elem_of_map_order ?. by simplify_eq/=. }
    by destruct os.
  - destruct (last_with _ _ _) as [[k v]|] eqn:El; [|done].
    apply last_with_Some in El as [? Hkv%elem_of_map_order]. by simplify_eq/=.
Qed.
End lemmas.
