(* ===== verification/Delivery.v ===== *)
(** * Delivery of the snapshots to a client

    The cache, the server's end of one stream, the two directions of the transport and
    the client, put together: what the server publishes and what other clients do may
    happen at any time, the stream's own moves carry requests and responses to and fro, and
    when the stream breaks the client opens a new one.  The state of the art in the source
    is a comment on the nonce check (this error path should not happen); here it is a
    theorem, next to those that the exchange comes to rest and that a client at rest has
    what is published. *)
From S2P Require Import Prelude UniqueQueue Istio McpCache McpStream SnapshotLoop McpClient.

Section delivery.
Context `{Marshal} `{!Unmarshal} `{MapOrder} (groupIndex : string → string).

(** ** State *)
Record link := mkLink {
  con : connection;
  c2s : list RequestResources;  (* on the way to the server *)
  s2c : list ResourcesMsg;      (* on the way to the client *)
  client : Sink MockMCPUpdater;
  initialRequests : list RequestResources;
  ended : option (option stream_error);
}.

(** [published] remembers every snapshot the cache was ever given, with its group. *)
Record world := mkWorld {
  wcache : Cache Resource;
  wlink : link;
  published : list (string * InMemory Resource);
}.

(** A stream that was just opened. *)
Definition connect (collections : list CollectionOptions) (peer : string) (who : nat)
    (sink : Sink MockMCPUpdater) : link :=
  mkLink (newConnection collections peer who) [] [] sink (createInitialRequests sink) None.

(** ** Moves of the stream *)
Inductive move := Flush | Serve | Ask.

Definition ended_of (v : verdict) : option (option stream_error) :=
  match v with Continue => None | Return err => Some err end.

(** The server sends a queued response, the server takes a request, the client sends
    an initial request or answers a response; [None] when there is nothing to do. *)
Definition move_link (c : Cache Resource) (l : link) (m : move) : option (Cache Resource * link) :=
  match ended l with
  | Some _ => None
  | None =>
      match m with
      | Flush =>
          match ProcessStream groupIndex (con l) c (EvReady None) with
          | None => None
          | Some (con, c, msgs, v) =>
              Some (c, mkLink con (c2s l) (s2c l ++ msgs) (client l) (initialRequests l) (ended_of v))
          end
      | Serve =>
          match c2s l with
          | [] => None
          | req :: rest =>
              match ProcessStream groupIndex (con l) c (EvRequest req) with
              | None => None
              | Some (con, c, msgs, v) =>
                  Some (c, mkLink con rest (s2c l ++ msgs) (client l) (initialRequests l) (ended_of v))
              end
          end
      | Ask =>
          match sink_round (client l) (initialRequests l) (hd_error (s2c l)) with
          | None => None
          | Some (sink, initial, req) =>
              Some (c, mkLink (con l) (c2s l ++ [req])
                         (match initialRequests l with [] => tl (s2c l) | _ => s2c l end)
                         sink initial (ended l))
          end
      end
  end.

Definition move_world (w : world) (m : move) : option world :=
  '(c, l) ← move_link (wcache w) (wlink w) m; Some (mkWorld c l (published w)).

(** ** What happens around the stream *)
Definition with_con (l : link) (con : connection) : link :=
  mkLink con (c2s l) (s2c l) (client l) (initialRequests l) (ended l).

(** The server sets a snapshot. *)
Definition publish (w : world) (group : string) (s : InMemory Resource) : world :=
  let '(c, out) := SetSnapshot (wcache w) group s in
  mkWorld c (with_con (wlink w) (deliver (con (wlink w)) out)) (published w ++ [(group, s)]).

(** Another stream watches or cancels a watch of its own. *)
Definition foreign (w : world) (o : McpCache.op Resource) : Prop :=
  match o with
  | OWatch _ who _ => who ≠ id (con (wlink w))
  | OCancel group i => ∀ rw, open_watches (wcache w) group !! i = Some rw →
                         pushResponse rw ≠ id (con (wlink w))
  | _ => False
  end.
Definition other (w : world) (o : McpCache.op Resource) : world :=
  let '(c, out) := McpCache.apply_op groupIndex (wcache w) o in
  mkWorld c (with_con (wlink w) (deliver (con (wlink w)) out)) (published w).

(** [Client.Run] opens a new stream after the old one broke, wherever that left it: what
    was under way is lost, the client keeps its state.  The server's end of the old
    stream is then one of the others, until it has cancelled its watches; stream numbers
    are never used again. *)
Definition reconnect (w : world) (collections : list CollectionOptions) (peer : string) (who : nat) : world :=
  mkWorld (wcache w) (connect collections peer who (client (wlink w))) (published w).
Definition unused (c : Cache Resource) (who : nat) : Prop :=
  ∀ g i rw, open_watches c g !! i = Some rw → pushResponse rw ≠ who.

Inductive step (w : world) : world → Prop :=
| step_move m w' : move_world w m = Some w' → step w w'
| step_publish group s : step w (publish w group s)
| step_other o : foreign w o → step w (other w o)
| step_reconnect names peer who :
    unused (wcache w) who → (∀ k, is_Some (sinkState (client (wlink w)) !! k) → k ∈ names) →
    step w (reconnect w (CollectionOptionsFromSlice names) peer who).

Inductive reaches (w : world) : world → Prop :=
| reaches_refl : reaches w w
| reaches_step w1 w2 : reaches w w1 → step w1 w2 → reaches w w2.

(** Moves in sequence, and a scheduler that makes the first move it can. *)
Fixpoint run_moves (w : world) (ms : list move) : option world :=
  match ms with
  | [] => Some w
  | m :: ms => w ← move_world w m; run_moves w ms
  end.

Definition next_move (w : world) : option world :=
  match move_world w Serve with
  | Some w => Some w
  | None => match move_world w Flush with Some w => Some w | None => move_world w Ask end
  end.
Fixpoint drain (fuel : nat) (w : world) : world :=
  match fuel with
  | 0 => w
  | S n => match next_move w with Some w => drain n w | None => w end
  end.

Definition at_rest (w : world) : Prop := ∀ m, move_world w m = None.

(** A stream opened against a cache in which nobody else uses its number. *)
Definition starts (w : world) : Prop :=
  (∃ names peer who sinkNames, (∀ n, n ∈ sinkNames → n ∈ names) ∧
     wlink w = connect (CollectionOptionsFromSlice names) peer who
                 (NewSink (CollectionOptionsFromSlice sinkNames) (mkUpdater ∅))) ∧
  no_stale_watch (wcache w) ∧
  (∀ g i rw, open_watches (wcache w) g !! i = Some rw →
     (i ≤ watchCount (wcache w))%Z ∧ pushResponse rw ≠ id (con (wlink w))) ∧
  published w = map_to_list (snapshots (wcache w)).

(** ** Specification *)
(** The client has nothing of a collection, or all objects of a published snapshot. *)
Definition origin (pub : list (string * InMemory Resource)) (collection : string)
    (got : option (list Object)) : Prop :=
  got = None ∨
  ∃ s os, (groupIndex collection, s) ∈ pub ∧
    unpack_all (elems (Resources s collection)) = inr os ∧ got = Some os.

(** What it has once version [v] is settled: if it got one on this stream, the objects of
    a snapshot of that version unless they cannot be unpacked. *)
Definition held (pub : list (string * InMemory Resource)) (collection v : string)
    (got : option (list Object)) : Prop :=
  origin pub collection got ∧
  (v = "" ∨
   ∃ s, (groupIndex collection, s) ∈ pub ∧ VersionOf s collection = v ∧
     ∀ os, unpack_all (elems (Resources s collection)) = inr os → got = Some os).

(** The version that is being served. *)
Definition served (c : Cache Resource) (collection : string) (v : string) : Prop :=
  match snapshots c !! groupIndex collection with
  | Some s => VersionOf s collection = v
  | None => True
  end.
Global Instance served_dec c collection v : Decision (served c collection v).
Proof. unfold served. destruct (snapshots c !! groupIndex collection); apply _. Defined.

(** A collection's part of the world: requests that wait, requests under way, queued
    responses, responses under way, open watches, the server's and the client's record. *)
Record view := mkView {
  vInitial : list RequestResources;
  vRequests : list RequestResources;
  vQueued : list (string * option (WatchResponse Resource));
  vSent : list ResourcesMsg;
  vOpen : gmap Z responseWatch;
  vWatch : option watch;
  vObjects : option (list Object);
}.

Definition mine (who : nat) (collection : string) (rw : responseWatch) : Prop :=
  pushResponse rw = who ∧ Collection (request rw) = collection.
Global Instance mine_dec who collection rw : Decision (mine who collection rw).
Proof. unfold mine. apply _. Defined.
Global Typeclasses Opaque mine.

Definition about {A} (key : A → string) (collection : string) : list A → list A :=
  filter (λ x, key x = collection).

Definition view_of (w : world) (collection : string) : view :=
  let l := wlink w in
  mkView (about ReqCollection collection (initialRequests l))
    (about ReqCollection collection (c2s l))
    (about fst collection (items_of (conQueue (con l))))
    (about MsgCollection collection (s2c l))
    (filter (λ e, mine (id (con l)) collection e.2) (open_watches (wcache w) (groupIndex collection)))
    (conWatches (con l) !! collection)
    (objects (updater (client l)) !! collection).

(** The request settles the version [v] of a watch. *)
Definition settles (wa : watch) (req : RequestResources) (v : string) : Prop :=
  isTriggerResponse req = false ∧ ReqIncremental req = false ∧
  match pending wa with
  | None => ResponseNonce req = "" ∧ v = ""
  | Some msg => ResponseNonce req = Nonce msg ∧ v = SystemVersionInfo msg
  end.

(** A message that carries a collection of a snapshot in full. *)
Definition carries (s : InMemory Resource) (collection : string) (msg : ResourcesMsg) : Prop :=
  MsgCollection msg = collection ∧ SystemVersionInfo msg = VersionOf s collection ∧
  MsgResources msg = elems (Resources s collection) ∧ MsgIncremental msg = false.

(** The token of a collection is in exactly one place. *)
Inductive phase (pub : list (string * InMemory Resource)) (who : nat) (collection : string)
  : view → Prop :=
| in_initial req wa got :
    settles wa req "" → held pub collection "" got →
    phase pub who collection (mkView [req] [] [] [] ∅ (Some wa) got)
| in_request req wa v got :
    settles wa req v → held pub collection v got →
    phase pub who collection (mkView [] [req] [] [] ∅ (Some wa) got)
| in_cache i wa v got :
    cancelWatch wa = Some i → pending wa = None → held pub collection v got →
    phase pub who collection
      (mkView [] [] [] [] {[ i := mkResponseWatch (mkRequest collection v false) who ]} (Some wa) got)
| in_queue s v wa got :
    (groupIndex collection, s) ∈ pub → pending wa = None → origin pub collection got →
    phase pub who collection
      (mkView [] [] [(collection, Some (response_to s (mkRequest collection v false)))] []
         ∅ (Some wa) got)
| in_response s msg wa got :
    (groupIndex collection, s) ∈ pub → carries s collection msg → pending wa = Some msg →
    origin pub collection got →
    phase pub who collection (mkView [] [] [] [msg] ∅ (Some wa) got).

(** How many moves a token still makes: fewer once it carries the served version. *)
Definition settled_version (wa : option watch) : string :=
  match wa with
  | Some wa => match pending wa with Some msg => SystemVersionInfo msg | None => "" end
  | None => ""
  end.
Definition distance (c : Cache Resource) (collection : string) (v : view) : nat :=
  length (vInitial v) * 5
  + length (vRequests v) * (if decide (served c collection (settled_version (vWatch v))) then 1 else 4)
  + sum_list_with (λ e, match e.2 with
                        | Some r => if decide (served c collection (RespVersion r)) then 3 else 6
                        | None => 0
                        end) (vQueued v)
  + sum_list_with (λ msg, if decide (served c collection (SystemVersionInfo msg)) then 2 else 5)
      (vSent v).

(** The collections the client asks for, and the moves left until it rests. *)
Definition supported (w : world) (collection : string) : Prop :=
  is_Some (sinkState (client (wlink w)) !! collection).
Definition asked (w : world) : list string := elements (dom (sinkState (client (wlink w)))).
Definition moves_left (w : world) : nat :=
  sum_list_with (λ k, distance (wcache w) k (view_of w k)) (asked w).

Definition idle (v : view) : Prop :=
  vInitial v = [] ∧ vRequests v = [] ∧ vQueued v = [] ∧ vSent v = [] ∧ vOpen v = ∅.

(** Where the tokens are, and what else holds of every world that is reached. *)
Definition located (w : world) (k : string) : Prop :=
  (supported w k ∧ phase (published w) (id (con (wlink w))) k (view_of w k)) ∨
  (¬ supported w k ∧ idle (view_of w k)).

Definition queue_ok (con : connection) : Prop :=
  ∃ b, represents (conQueue con) b ∧ closed b = false ∧
    (∀ k, k ∈ (items b).*1 → is_Some (conWatches con !! k)) ∧
    size (conWatches con) ≤ maxDepth (conQueue con).

Record wf (w : world) : Prop := mkWf {
  wf_up : ended (wlink w) = None;
  wf_queue : queue_ok (con (wlink w));
  wf_full : ∀ k wa, conWatches (con (wlink w)) !! k = Some wa → watchIncremental wa = false;
  wf_ids : ∀ g i rw, open_watches (wcache w) g !! i = Some rw → (i ≤ watchCount (wcache w))%Z;
  wf_mine : ∀ g i rw, open_watches (wcache w) g !! i = Some rw →
    pushResponse rw = id (con (wlink w)) → g = groupIndex (Collection (request rw));
  wf_cancel : ∀ k wa i, conWatches (con (wlink w)) !! k = Some wa → cancelWatch wa = Some i →
    (i ≤ watchCount (wcache w))%Z ∧
    ∀ rw, open_watches (wcache w) (groupIndex k) !! i = Some rw → mine (id (con (wlink w))) k rw;
  wf_stale : no_stale_watch (wcache w);
  wf_pub : ∀ g s, snapshots (wcache w) !! g = Some s → (g, s) ∈ published w;
  wf_sub : ∀ k, supported w k → is_Some (conWatches (con (wlink w)) !! k);
  wf_sink : ∀ k st, sinkState (client (wlink w)) !! k = Some st → requestIncremental st = false;
}.
Definition inv (w : world) : Prop := wf w ∧ ∀ k, located w k.

(** ** Lemmas: lists *)
Lemma about_cons_eq {A} (key : A → string) x l :
  about key (key x) (x :: l) = x :: about key (key x) l.
Proof. unfold about. by rewrite filter_cons_True. Qed.
Lemma about_cons_ne {A} (key : A → string) k x l : key x ≠ k → about key k (x :: l) = about key k l.
Proof. intros. unfold about. by rewrite filter_cons_False. Qed.
Lemma about_snoc_eq {A} (key : A → string) k x l :
  key x = k → about key k (l ++ [x]) = about key k l ++ [x].
Proof. intros <-. unfold about. by rewrite filter_app, filter_cons_True. Qed.
Lemma about_snoc_ne {A} (key : A → string) k x l :
  key x ≠ k → about key k (l ++ [x]) = about key k l.
Proof. intros. unfold about. by rewrite filter_app, filter_cons_False, app_nil_r. Qed.
Lemma about_nil_iff {A} (key : A → string) k (l : list A) : about key k l = [] ↔ k ∉ key <$> l.
Proof.
  unfold about. rewrite filter_empty_iff. rewrite list_elem_of_fmap. naive_solver.
Qed.

(** ** Lemmas: the queue of responses *)
Notation item := (string * option (WatchResponse Resource))%type.

Definition enqueued (l : list item) (e : item) : list item :=
  match l with [] => [e] | _ => (λ _, e) <$> l end.

(** What the cache pushes to a stream about a collection. *)
Definition own (who : nat) (k : string) (out : list (push Resource)) : list item :=
  omap (λ p, match response p with
             | Some r => if decide (to p = who ∧ RespCollection r = k) then Some (k, Some r) else None
             | None => None
             end) out.

Local Arguments own : simpl never.

Lemma own_cons who k p out :
  own who k (p :: out) =
  match response p with
  | Some r => if decide (to p = who ∧ RespCollection r = k) then (k, Some r) :: own who k out
              else own who k out
  | None => own who k out
  end.
Proof. unfold own. simpl. destruct (response p); [|done]. by case_decide. Qed.

Lemma about_put k k' v (l : list item) :
  about fst k (put k' v l) = if decide (k' = k) then (λ _, (k, v)) <$> about fst k l else about fst k l.
Proof.
  unfold about, put. destruct (decide (k' = k)) as [->|Hne]; induction l as [|[k0 v0] l IH]; try done;
    rewrite fmap_cons, !filter_cons; cbn [fst].
  - destruct (decide (k0 = k)) as [->|Hk]; cbn [fst].
    + rewrite decide_True by done. rewrite fmap_cons. f_equal. exact IH.
    + rewrite decide_False by done. exact IH.
  - destruct (decide (k0 = k')) as [->|Hk]; cbn [fst].
    + rewrite !decide_False by done. exact IH.
    + case_decide; [f_equal|]; exact IH.
Qed.

Lemma queueResponse_spec con r :
  queue_ok con → is_Some (conWatches con !! RespCollection r) →
  queue_ok (queueResponse con (Some r)) ∧
  ∀ k, about fst k (items_of (conQueue (queueResponse con (Some r)))) =
    let l := about fst k (items_of (conQueue con)) in
    if decide (RespCollection r = k) then enqueued l (k, Some r) else l.
Proof.
  intros (b & Hr & Hcl & Hk & Hd) Hs. simpl.
  pose proof (Enqueue_refines (conQueue con) b (RespCollection r) (Some r) Hr) as He.
  destruct (Enqueue (conQueue con) (RespCollection r) (Some r)) as [q ok] eqn:Eq.
  unfold spec_Enqueue in He. rewrite Hcl in He. simpl. rewrite (items_of_represents _ _ Hr).
  destruct (decide (RespCollection r ∈ (items b).*1)) as [Hin|Hout].
  - destruct He as (_ & Hr' & Hd'). split.
    + eexists. split; [exact Hr'|]. simpl. rewrite fst_put, Hd'. done.
    + intros k. rewrite (items_of_represents _ _ Hr'). simpl. rewrite about_put.
      case_decide as E; [|done]. subst k. unfold enqueued.
      destruct (about fst (RespCollection r) (items b)) eqn:El; [|done].
      by rewrite about_nil_iff in El.
  - rewrite decide_True in He.
    { destruct He as (_ & Hr' & Hd'). split.
      - eexists. split; [exact Hr'|]. simpl. rewrite Hd'. split; [done|]. split; [|done].
        intros k. rewrite fmap_app, elem_of_app. intros [?|Hin]; [by apply Hk|].
        apply list_elem_of_singleton in Hin. simpl in Hin. by subst k.
      - intros k. rewrite (items_of_represents _ _ Hr'). simpl. case_decide as E.
        + subst k. rewrite about_snoc_eq by done. simpl. apply about_nil_iff in Hout. by rewrite Hout.
        + by rewrite about_snoc_ne. }
    (* the keys that are queued and the new one are collections of the stream *)
    assert (NoDup (RespCollection r :: (items b).*1)) as Hnd
      by (apply NoDup_cons; split; [done|apply (rep_keys _ _ Hr)]).
    assert (length (RespCollection r :: (items b).*1) ≤ size (conWatches con)) as Hl; [|simpl in Hl; rewrite length_fmap in Hl; lia].
    rewrite <-size_dom, <-(size_list_to_set (C := gset string)) by done. apply subseteq_size.
    intros k. rewrite elem_of_list_to_set, elem_of_cons, elem_of_dom. intros [->|?]; [done|by apply Hk].
Qed.

Lemma deliver_spec out con :
  queue_ok con →
  (∀ p, p ∈ out → to p = id con → ∃ r, response p = Some r ∧ is_Some (conWatches con !! RespCollection r)) →
  queue_ok (deliver con out) ∧ (∃ q, deliver con out = with_queue con q) ∧
  ∀ k, about fst k (items_of (conQueue (deliver con out))) =
    foldl enqueued (about fst k (items_of (conQueue con))) (own (id con) k out).
Proof.
  revert con; induction out as [|p out IH]; intros con Hq Hp; simpl.
  { split; [done|]. split; [by exists (conQueue con); destruct con|done]. }
  assert (∀ p', p' ∈ out → p' ∈ p :: out) as Hcons by (intros; by right).
  case_decide as Eto.
  - destruct (Hp p ltac:(by left) Eto) as (r & Er & Hs). rewrite Er.
    destruct (queueResponse_spec con r Hq Hs) as [Hq' Hk].
    destruct (IH (queueResponse con (Some r)) Hq') as (Hq'' & (q & Eq) & Hk'); [intros; by apply Hp; auto|].
    split; [done|]. split; [exists q; by rewrite Eq|]. intros k. rewrite Hk', Hk, own_cons, Er. simpl.
    destruct (decide (RespCollection r = k)) as [E|E].
    + by rewrite decide_True.
    + rewrite decide_False by tauto. done.
  - destruct (IH con Hq) as (Hq' & Heq & Hk); [intros; apply Hp; auto|].
    split; [done|]. split; [done|]. intros k. rewrite Hk, own_cons.
    destruct (response p); [|done]. by rewrite decide_False by tauto.
Qed.

(** ** Lemmas: what a publication pushes to the stream *)
Lemma own_push_of who k (s : InMemory Resource) l :
  own who k (push_of s <$> l) =
  (λ rw, (k, Some (response_to s (request rw)))) <$>
    filter (λ rw, pushResponse rw = who ∧ Collection (request rw) = k) l.
Proof.
  induction l as [|rw l IH]; [done|]. rewrite fmap_cons, filter_cons, own_cons. cbn.
  rewrite IH. by case_decide.
Qed.

Lemma filter_map_values (P : responseWatch → Prop) `{∀ rw, Decision (P rw)} (m : gmap Z responseWatch) :
  filter P (map_to_list m).*2 ≡ₚ (map_to_list (filter (λ e, P e.2) m)).*2.
Proof.
  induction m as [|i rw m Hi IH] using map_ind.
  { rewrite map_filter_empty, map_to_list_empty. done. }
  rewrite map_to_list_insert, fmap_cons, filter_cons by done. simpl. case_decide as HP.
  - rewrite map_filter_insert_True by done. rewrite map_to_list_insert.
    + by rewrite fmap_cons, IH.
    + rewrite map_lookup_filter, Hi. done.
  - rewrite map_filter_insert_False by done. by rewrite delete_id by done.
Qed.

(** ** Lemmas: one request *)
Lemma cancel_gone (c : Cache Resource) g (i : Z) :
  open_watches c g !! i = None → ∀ g', open_watches (cancel c g i) g' = open_watches c g'.
Proof.
  intros Hi g'. rewrite open_watches_cancel. case_decide as E; [|done]. subst. by rewrite delete_id.
Qed.

(** Closing the last watch of a collection whose token is elsewhere. *)
Lemma cancel_last w k wa :
  wf w → conWatches (con (wlink w)) !! k = Some wa → vOpen (view_of w k) = ∅ →
  let c := match cancelWatch wa with
           | Some i => cancel (wcache w) (groupIndex k) i
           | None => wcache w
           end in
  (∀ g, open_watches c g = open_watches (wcache w) g) ∧ snapshots c = snapshots (wcache w) ∧
  watchCount c = watchCount (wcache w) ∧ no_stale_watch c.
Proof.
  intros Hwf Hwa Ho. cbv zeta. destruct (cancelWatch wa) as [i|] eqn:Ei; [|split_and!; try done; apply Hwf].
  split; [|split_and!].
  - apply cancel_gone. destruct (open_watches _ _ !! i) as [rw|] eqn:Er; [|done].
    destruct (wf_cancel w Hwf k wa i Hwa Ei) as [_ Hm]. specialize (Hm rw Er).
    assert (vOpen (view_of w k) !! i = Some rw) as Hv; [|by rewrite Ho, lookup_empty in Hv].
    by apply map_lookup_filter_Some.
  - unfold cancel. by destruct (status _ !! _).
  - apply watchCount_cancel.
  - apply (no_stale_op groupIndex (wcache w) (OCancel (groupIndex k) i)), Hwf.
Qed.

Lemma settle_spec wa req v :
  settles wa req v →
  (ResponseNonce req = "" ∨ pendingNonce wa = ResponseNonce req) ∧
  ∃ acked, settle wa req = (mkWatch (cancelWatch wa) acked None (watchIncremental wa), v).
Proof.
  intros (_ & _ & Hs). unfold settle, pendingNonce. destruct wa as [ca ac pe wi]; simpl in *.
  destruct pe as [msg|]; destruct Hs as [E ->]; [|by eauto]. split; [by right|]. by eexists.
Qed.

Lemma request_spec w req wa v :
  let k := ReqCollection req in
  wf w → conWatches (con (wlink w)) !! k = Some wa → settles wa req v →
  vOpen (view_of w k) = ∅ → vQueued (view_of w k) = [] →
  ∃ con' c' acked i,
    processClientRequest groupIndex (con (wlink w)) (wcache w) req = (con', c', None) ∧
    conWatches con' = <[k := mkWatch i acked None (watchIncremental wa)]> (conWatches (con (wlink w))) ∧
    id con' = id (con (wlink w)) ∧ queue_ok con' ∧
    snapshots c' = snapshots (wcache w) ∧ no_stale_watch c' ∧
    ((i = None ∧ watchCount c' = watchCount (wcache w) ∧
      (∀ g, open_watches c' g = open_watches (wcache w) g) ∧
      ∃ s, snapshots (wcache w) !! groupIndex k = Some s ∧ VersionOf s k ≠ v ∧
        ∀ k', about fst k' (items_of (conQueue con')) =
          if decide (k = k') then [(k, Some (response_to s (mkRequest k v false)))]
          else about fst k' (items_of (conQueue (con (wlink w))))) ∨
     (i = Some (watchCount (wcache w) + 1)%Z ∧ watchCount c' = (watchCount (wcache w) + 1)%Z ∧
      conQueue con' = conQueue (con (wlink w)) ∧ served (wcache w) k v ∧
      ∀ g, open_watches c' g =
        if decide (g = groupIndex k)
        then <[(watchCount (wcache w) + 1)%Z := mkResponseWatch (mkRequest k v false) (id (con (wlink w)))]>
               (open_watches (wcache w) g)
        else open_watches (wcache w) g)).
Proof.
  intros k Hwf Hwa Hset Ho Hq. unfold processClientRequest.
  destruct (settle_spec wa req v Hset) as (Hn & acked & Hse). destruct Hset as (-> & Hinc & _).
  fold k. rewrite Hwa, decide_True, Hse by done. simpl.
  destruct (cancel_last w k wa Hwf Hwa Ho) as (Hoc & Hsc & Hwc & Hnc).
  set (c1 := match cancelWatch wa with Some i => _ | None => _ end) in *. clearbody c1.
  rewrite Hinc. set (r := mkRequest k v false).
  pose proof (Watch_spec groupIndex c1 r (id (con (wlink w))) (peerAddr (con (wlink w)))) as Hs.
  pose proof (Watch_id groupIndex c1 r (id (con (wlink w))) (peerAddr (con (wlink w)))) as Hi.
  pose proof (no_stale_op groupIndex c1 (OWatch r (id (con (wlink w))) (peerAddr (con (wlink w)))) Hnc) as Hst.
  cbv zeta in Hs. simpl in Hst.
  destruct (Watch groupIndex c1 r (id (con (wlink w))) (peerAddr (con (wlink w)))) as [[c' out] i].
  destruct Hs as (Hs1 & _ & Hs2), Hi as (Hi1 & Hi2 & Hi3). simpl in *.
  rewrite Hsc in *. rewrite Hwc in *.
  assert ((out = [] ∧ i = Some (watchCount (wcache w) + 1)%Z ∧ served (wcache w) k v) ∨
          (i = None ∧ ∃ s, snapshots (wcache w) !! groupIndex k = Some s ∧ VersionOf s k ≠ v ∧
             out = [mkPush (id (con (wlink w))) (Some (response_to s r))])) as Hcase.
  { unfold served. destruct (snapshots (wcache w) !! groupIndex k) as [s|].
    - unfold stale in Hs2. simpl in Hs2. case_decide as Ev.
      + destruct Hs2 as (-> & -> & _). right. eauto.
      + destruct Hs2 as (-> & i' & Ei & _). left. split; [done|]. split; [|exact Ev].
        rewrite Ei. f_equal. by apply Hi2.
    - destruct Hs2 as (-> & i' & Ei & _). left. split; [done|]. split; [|done]. rewrite Ei. f_equal. by apply Hi2. }
  clear Hs2. exists (with_watch (deliver (con (wlink w)) out) k (mkWatch i acked None (watchIncremental wa))), c', acked, i.
  split; [done|].
  destruct (deliver_spec out (con (wlink w)) (wf_queue w Hwf)) as (Hqo & (q & Eq) & Hk).
  { intros p Hp Hto. destruct Hcase as [(-> & _)|(_ & s & _ & _ & ->)]; [by apply not_elem_of_nil in Hp|].
    apply list_elem_of_singleton in Hp as ->. simpl. eexists. split; [done|]. simpl. by rewrite Hwa. }
  rewrite Eq in Hqo, Hk. rewrite Eq. simpl. split; [done|]. split; [done|]. split.
  { destruct Hqo as (b & ? & ? & Hkeys & Hd). exists b. simpl in *. split_and!; try done.
    - intros k' Hk'. rewrite lookup_insert. case_decide; [done|by apply Hkeys].
    - rewrite map_size_insert_Some; [done|by rewrite Hwa]. }
  split; [done|]. split; [done|]. destruct Hcase as [(-> & -> & Hserved)|(-> & s & Hsn & Hv & ->)].
  - right. apply (f_equal conQueue) in Eq. simpl in Eq. split_and!; try done.
    intros g. rewrite Hi3. by case_decide; rewrite Hoc.
  - left. split; [done|]. split; [lia|]. split; [intros g; by rewrite Hi3, Hoc|].
    exists s. split; [done|]. split; [done|]. intros k'. rewrite Hk, own_cons. simpl.
    case_decide as E.
    + destruct E as [_ E]. rewrite decide_True by done. simpl in Hq. subst k'. fold k. rewrite Hq. done.
    + rewrite decide_False by tauto. done.
Qed.

(** ** Lemmas: the moves *)
Lemma origin_mono pub pub' k got : pub ⊆ pub' → origin pub k got → origin pub' k got.
Proof. intros Hsub [?|(s & os & ? & ? & ?)]; [by left|right; exists s, os; auto]. Qed.
Lemma held_mono pub pub' k v got : pub ⊆ pub' → held pub k v got → held pub' k v got.
Proof.
  intros Hsub [Ho [?|(s & ? & ? & ?)]]; (split; [by eapply origin_mono|]); [by left|right; exists s; auto].
Qed.
Lemma phase_origin pub who k v : phase pub who k v → origin pub k (vObjects v).
Proof. intros []; simpl; try done; match goal with H : held _ _ _ _ |- _ => apply H end. Qed.
Lemma phase_mono pub pub' who k v : pub ⊆ pub' → phase pub who k v → phase pub' who k v.
Proof. intros Hsub []; econstructor; eauto using held_mono, origin_mono. Qed.

(** What a move does: it takes one collection's token further and nothing else. *)
Record advances (w w' : world) (k : string) : Prop := mkAdvances {
  adv_wf : wf w';
  adv_pub : published w' = published w;
  adv_snaps : snapshots (wcache w') = snapshots (wcache w);
  adv_id : id (con (wlink w')) = id (con (wlink w));
  adv_asked : dom (sinkState (client (wlink w'))) = dom (sinkState (client (wlink w)));
  adv_other : ∀ k', k' ≠ k → view_of w' k' = view_of w k';
  adv_supported : supported w k;
  adv_phase : phase (published w) (id (con (wlink w))) k (view_of w' k);
  adv_less : distance (wcache w') k (view_of w' k) < distance (wcache w) k (view_of w k);
}.

Lemma distance_snapshots c c' k v :
  snapshots c' = snapshots c → distance c' k v = distance c k v.
Proof.
  intros E. unfold distance. assert (∀ x, served c' k x ↔ served c k x) as Hs by (unfold served; by rewrite E).
  f_equal; [f_equal; [f_equal|]|].
  - f_equal. by apply decide_ext.
  - induction (vQueued v) as [|[? [r|]] l IH]; simpl; rewrite ?IH; try done. f_equal. by apply decide_ext.
  - induction (vSent v) as [|r l IH]; simpl; rewrite ?IH; try done. f_equal. by apply decide_ext.
Qed.

Lemma sum_less {A} (f g : A → nat) (l : list A) x :
  x ∈ l → g x < f x → (∀ y, y ∈ l → g y ≤ f y) → sum_list_with g l < sum_list_with f l.
Proof.
  induction l as [|y l IH]; intros Hx Hlt Hle; [by apply not_elem_of_nil in Hx|]. simpl.
  assert (sum_list_with g l ≤ sum_list_with f l) as Hl.
  { clear IH Hx. induction l as [|z l IH]; [done|]. simpl. pose proof (Hle z ltac:(right; left)).
    assert (sum_list_with g l ≤ sum_list_with f l); [|lia]. apply IH. intros y' Hy'. apply Hle.
    apply elem_of_cons in Hy' as [->|]; [left|right; by right]. }
  apply elem_of_cons in Hx as [->|Hx]; [lia|]. pose proof (Hle y ltac:(left)).
  assert (sum_list_with g l < sum_list_with f l); [|lia]. apply IH; [done..|]. intros. apply Hle. by right.
Qed.

Lemma supported_asked w k : supported w k ↔ k ∈ asked w.
Proof. unfold supported, asked. by rewrite elem_of_elements, elem_of_dom. Qed.

Lemma advances_inv w w' k :
  inv w → advances w w' k → inv w' ∧ moves_left w' < moves_left w.
Proof.
  intros [Hwf Hloc] []. assert (asked w' = asked w) as Ea by (unfold asked; by rewrite adv_asked0).
  assert (∀ k', supported w' k' ↔ supported w k') as Hsup by (intros; by rewrite !supported_asked, Ea).
  split; [split; [done|]|].
  - intros k'. destruct (decide (k' = k)) as [->|Hk].
    + left. rewrite Hsup, adv_pub0, adv_id0. done.
    + unfold located. rewrite Hsup, adv_pub0, adv_id0, adv_other0 by done. apply Hloc.
  - unfold moves_left. rewrite Ea. apply (sum_less _ _ _ k); [by apply supported_asked|done|].
    intros k' _. destruct (decide (k' = k)) as [->|Hk]; [lia|].
    by rewrite adv_other0, (distance_snapshots _ _ _ _ adv_snaps0).
Qed.

Lemma phase_requests pub who k v :
  phase pub who k v → vRequests v ≠ [] →
  ∃ req wa ver got, v = mkView [] [req] [] [] ∅ (Some wa) got ∧ settles wa req ver ∧ held pub k ver got.
Proof. intros []; simpl; try done. eauto 10. Qed.
Lemma phase_initial pub who k v :
  phase pub who k v → vInitial v ≠ [] →
  ∃ req wa got, v = mkView [req] [] [] [] ∅ (Some wa) got ∧ settles wa req "" ∧ held pub k "" got.
Proof. intros []; simpl; try done. eauto 10. Qed.
Lemma phase_queued pub who k v :
  phase pub who k v → vQueued v ≠ [] →
  ∃ s ver wa got, v = mkView [] [] [(k, Some (response_to s (mkRequest k ver false)))] [] ∅ (Some wa) got ∧
    (groupIndex k, s) ∈ pub ∧ pending wa = None.
Proof. intros []; simpl; try done. eauto 10. Qed.
Lemma phase_sent pub who k v :
  phase pub who k v → vSent v ≠ [] →
  ∃ s msg wa got, v = mkView [] [] [] [msg] ∅ (Some wa) got ∧
    (groupIndex k, s) ∈ pub ∧ carries s k msg ∧ pending wa = Some msg.
Proof. intros []; simpl; try done. eauto 10. Qed.

(** A collection with a token is one the client asked for. *)
Lemma token_supported w k : inv w → ¬ idle (view_of w k) →
  supported w k ∧ phase (published w) (id (con (wlink w))) k (view_of w k).
Proof. intros [_ Hl] Hi. destruct (Hl k) as [?|[_ ?]]; [done|by destruct Hi]. Qed.

Lemma filter_mine_other who k k' (i : Z) rw (m : gmap Z responseWatch) :
  m !! i = None → Collection (request rw) = k → k' ≠ k →
  filter (λ e, mine who k' e.2) (<[i := rw]> m) = filter (λ e, mine who k' e.2) m.
Proof.
  intros Hm Hk Hne. rewrite map_filter_insert_False.
  - by rewrite delete_id.
  - unfold mine. simpl. intros [_ E]. congruence.
Qed.
Lemma filter_mine_new who k (i : Z) rw (m : gmap Z responseWatch) :
  filter (λ e, mine who k e.2) m = ∅ → mine who k rw →
  filter (λ e, mine who k e.2) (<[i := rw]> m) = {[ i := rw ]}.
Proof.
  intros Hm Hk. rewrite map_filter_insert_True by done. by rewrite Hm, insert_empty.
Qed.

Lemma new_id_free w g : wf w → open_watches (wcache w) g !! (watchCount (wcache w) + 1)%Z = None.
Proof.
  intros Hwf. destruct (open_watches _ _ !! _) as [rw|] eqn:E; [|done].
  apply (wf_ids w Hwf) in E. lia.
Qed.

(** The part of [wf] that serving a request has to re-establish for the watches. *)
Lemma request_cancels w req wa acked i con' (c' : Cache Resource) :
  let k := ReqCollection req in
  wf w → conWatches con' = <[k := mkWatch i acked None (watchIncremental wa)]> (conWatches (con (wlink w))) →
  id con' = id (con (wlink w)) →
  (i = None ∧ watchCount c' = watchCount (wcache w) ∧
     (∀ g, open_watches c' g = open_watches (wcache w) g) ∨
   ∃ v, i = Some (watchCount (wcache w) + 1)%Z ∧ watchCount c' = (watchCount (wcache w) + 1)%Z ∧
     ∀ g, open_watches c' g =
       if decide (g = groupIndex k)
       then <[(watchCount (wcache w) + 1)%Z := mkResponseWatch (mkRequest k v false) (id (con (wlink w)))]>
              (open_watches (wcache w) g)
       else open_watches (wcache w) g) →
  (∀ g j rw, open_watches c' g !! j = Some rw →
     (j ≤ watchCount c')%Z ∧ (pushResponse rw = id con' → g = groupIndex (Collection (request rw)))) ∧
  (∀ k' wa' j, conWatches con' !! k' = Some wa' → cancelWatch wa' = Some j →
     (j ≤ watchCount c')%Z ∧
     ∀ rw, open_watches c' (groupIndex k') !! j = Some rw → mine (id con') k' rw).
Proof.
  intros k Hwf Hw Hid Hc. rewrite Hw, Hid. destruct Hc as [(-> & Hn & Ho)|(v & -> & Hn & Ho)]; rewrite Hn.
  - split.
    + intros g j rw. rewrite Ho. intros Hj. split; [by eapply (wf_ids w)|by apply (wf_mine w Hwf _ j)].
    + intros k' wa' j Hk'. apply lookup_insert_Some in Hk' as [[_ <-]|[_ Hk']]; [done|].
      rewrite Ho. by apply (wf_cancel w Hwf k' wa' j).
  - split.
    + intros g j rw. rewrite Ho. case_decide as Eg.
      * intros [[<- <-]|[_ Hj]]%lookup_insert_Some; [by split; [lia|]|].
        split; [apply (wf_ids w Hwf) in Hj; lia|by apply (wf_mine w Hwf _ j)].
      * intros Hj. split; [apply (wf_ids w Hwf) in Hj; lia|by apply (wf_mine w Hwf _ j)].
    + intros k' wa' j Hk' Hj. apply lookup_insert_Some in Hk' as [[<- <-]|[Hne Hk']]; simpl in *.
      * simplify_eq. split; [lia|]. intros rw. rewrite Ho, decide_True by done. rewrite lookup_insert_eq.
        intros [= <-]. done.
      * destruct (wf_cancel w Hwf k' wa' j Hk' Hj) as [Hle Hm]. split; [lia|].
        intros rw. rewrite Ho. case_decide; [|apply Hm]. rewrite lookup_insert_ne by lia. apply Hm.
Qed.

Lemma settles_version wa req v : settles wa req v → settled_version (Some wa) = v.
Proof. intros (_ & _ & Hset). simpl. destruct (pending wa); by destruct Hset as [_ ->]. Qed.

Lemma serve_advances w w' : inv w → move_world w Serve = Some w' → ∃ k, advances w w' k.
Proof.
  intros Hinv. pose proof Hinv as [Hwf Hloc]. unfold move_world, move_link. rewrite (wf_up w Hwf).
  destruct (c2s (wlink w)) as [|req rest] eqn:Ec; [done|]. set (k := ReqCollection req).
  assert (vRequests (view_of w k) ≠ []) as Hne by (simpl; rewrite Ec; unfold k; by rewrite about_cons_eq).
  destruct (token_supported w k Hinv) as [Hsup Hph]; [by intros (_ & ? & _)|].
  destruct (phase_requests _ _ _ _ Hph Hne) as (req' & wa & v & got & Ev & Hset & Hheld).
  assert (vRequests (view_of w k) = [req']) as Er by (by rewrite Ev). simpl in Er. rewrite Ec in Er.
  unfold k in Er. rewrite about_cons_eq in Er. injection Er as <- Erest. fold k in Erest.
  assert (conWatches (con (wlink w)) !! k = Some wa) as Hwa by (change (vWatch (view_of w k) = Some wa); by rewrite Ev).
  assert (vOpen (view_of w k) = ∅ ∧ vQueued (view_of w k) = [] ∧ vInitial (view_of w k) = [] ∧
          vSent (view_of w k) = [] ∧ vObjects (view_of w k) = got) as (Eo & Eq & Ei & Es & Eg) by (by rewrite Ev).
  destruct (request_spec w req wa v Hwf Hwa Hset Eo Eq)
    as (con' & c' & acked & i & Hp & Hw' & Hid & Hqo & Hsn & Hst & Hcase).
  simpl. rewrite Hp. simpl. intros [= <-]. exists k. rewrite app_nil_r.
  destruct (request_cancels w req wa acked i con' c' Hwf Hw' Hid) as [Hids Hcan].
  { destruct Hcase as [(-> & ? & ? & _)|(-> & ? & _ & _ & ?)]; [by left|right; by exists v]. }
  split; simpl; try done.
  - split; simpl; try done; try apply Hwf.
    + intros k' wa'. rewrite Hw'. intros [[_ <-]|[_ ?]]%lookup_insert_Some; [|by eapply (wf_full w)].
      by apply (wf_full w Hwf k wa).
    + intros g j rw Hj. apply (Hids g j rw Hj).
    + intros g j rw Hj. apply (Hids g j rw Hj).
    + intros g s. rewrite Hsn. apply (wf_pub w Hwf).
    + intros k' Hk'. rewrite Hw', lookup_insert. destruct (decide _); [done|by apply (wf_sub w Hwf)].
  - intros k' Hk'. unfold view_of. simpl. rewrite Hid, Hw', lookup_insert_ne by done. rewrite Ec.
    rewrite about_cons_ne by done.
    destruct Hcase as [(_ & _ & Ho & s & _ & _ & Hq)|(_ & _ & Hq & _ & Ho)].
    + rewrite Ho, Hq, decide_False by done. done.
    + rewrite Ho, Hq. f_equal. case_decide as E; [|done]. rewrite E.
      apply (filter_mine_other _ k); [by apply new_id_free|done|done].
  - unfold view_of. simpl. rewrite Hid, Hw', lookup_insert_eq.
    unfold view_of in Ei, Es, Eg. simpl in Ei, Es, Eg. rewrite Ei, Es, Eg, Erest.
    destruct Hcase as [(_ & _ & Ho & s & Hs & _ & Hq)|(-> & _ & Hq & _ & Ho)].
    + rewrite Ho, Hq, decide_True by done. unfold view_of in Eo. simpl in Eo. rewrite Eo.
      apply in_queue; [by apply (wf_pub w Hwf)|done|apply Hheld].
    + rewrite Ho, Hq, decide_True by done. unfold view_of in Eq. simpl in Eq. rewrite Eq.
      rewrite filter_mine_new; [|exact Eo|done]. by eapply in_cache.
  - unfold distance at 2. rewrite Ev. simpl.
    pose proof (settles_version _ _ _ Hset) as Hsv. simpl in Hsv. rewrite Hsv. clear Hsv.
    rewrite (distance_snapshots _ _ _ _ Hsn). unfold distance. simpl in *.
    rewrite Ei, Es, Erest. simpl.
    destruct Hcase as [(_ & _ & Ho & s & Hs & Hv & Hq)|(-> & _ & Hq & Hserved & Ho)].
    + rewrite Hq, decide_True by done. simpl.
      rewrite decide_True by (unfold served, k; by rewrite Hs).
      rewrite decide_False by (unfold served, k; by rewrite Hs). lia.
    + rewrite Hq, Eq. simpl. rewrite decide_True by done. lia.
Qed.

(** Taking an entry leaves a queue in order. *)
Lemma take_queue_ok con q' e :
  queue_ok con → take_entry None (conQueue con) = Some (q', e) →
  ∃ k v, e = Some (k, v) ∧ items_of (conQueue con) = (k, v) :: items_of q' ∧
    queue_ok (with_queue con q') ∧ maxDepth q' = maxDepth (conQueue con).
Proof.
  intros (b & Hr & Hcl & Hk & Hd) Ht. pose proof (take_refines None _ b Hr) as Hs. rewrite Ht in Hs.
  unfold spec_take in Hs. destruct (items b) as [|[k v] l] eqn:Eb; [done|].
  destruct Hs as (-> & Hr' & Hd'). exists k, v. split; [done|].
  rewrite (items_of_represents _ _ Hr), (items_of_represents _ _ Hr'), Eb. split; [done|].
  split; [|done]. eexists. split; [exact Hr'|]. simpl. rewrite Hd'. split; [done|]. split; [|done].
  intros k' Hk'. apply Hk. simpl. by right.
Qed.

Lemma push_spec con k wa s v :
  watchIncremental wa = false →
  ∃ msg, pushServerResponse con k wa (response_to s (mkRequest k v false)) None =
    (with_watch (mkConnection (peerAddr con) (id con) (streamNonce con + 1)%Z (conWatches con)
                   (conQueue con)) k
       (mkWatch (cancelWatch wa) (ackedVersionMap wa) (Some msg) (watchIncremental wa)), inr msg) ∧
    carries s k msg.
Proof. intros E. unfold pushServerResponse. rewrite E. simpl. by eexists. Qed.

Lemma flush_advances w w' : inv w → move_world w Flush = Some w' → ∃ k, advances w w' k.
Proof.
  intros Hinv. pose proof Hinv as [Hwf _]. unfold move_world, move_link. rewrite (wf_up w Hwf). simpl.
  destruct (take_entry None (conQueue (con (wlink w)))) as [[q e]|] eqn:Et; [|done].
  destruct (take_queue_ok _ _ _ (wf_queue w Hwf) Et) as (k & item & -> & Eitems & Hqo & _).
  assert (vQueued (view_of w k) = (k, item) :: about fst k (items_of q)) as Evq.
  { simpl. rewrite Eitems. apply (about_cons_eq fst). }
  destruct (token_supported w k Hinv) as [Hsup Hph]; [intros (_ & _ & E & _); by rewrite Evq in E|].
  destruct (phase_queued _ _ _ _ Hph) as (s & v & wa & got & Ev & Hs & Hpe); [by rewrite Evq|].
  pose proof Evq as Eq. rewrite Ev in Eq. simpl in Eq. injection Eq as Eit Erest.
  assert (conWatches (con (wlink w)) !! k = Some wa) as Hwa by (change (vWatch (view_of w k) = Some wa); by rewrite Ev).
  rewrite <-Eit, Hwa.
  destruct (push_spec (with_queue (con (wlink w)) q) k wa s v (wf_full w Hwf k wa Hwa)) as (msg & -> & Hc).
  simpl. intros [= <-]. exists k. pose proof Hc as (Emk & Emv & _).
  assert (∀ k' wa', <[k:=mkWatch (cancelWatch wa) (ackedVersionMap wa) (Some msg) (watchIncremental wa)]>
            (conWatches (con (wlink w))) !! k' = Some wa' →
          ∃ wa0, conWatches (con (wlink w)) !! k' = Some wa0 ∧ cancelWatch wa0 = cancelWatch wa' ∧
            watchIncremental wa0 = watchIncremental wa') as Hold.
  { intros k' wa'. intros [[<- <-]|[_ ?]]%lookup_insert_Some; eauto. }
  split; simpl; try done.
  - split; simpl; try apply Hwf; try done.
    + destruct Hqo as (b & ? & ? & Hk & Hd). exists b. simpl in *. split_and!; try done.
      * intros k' Hk'. rewrite lookup_insert. destruct (decide _); [done|by apply Hk].
      * by rewrite map_size_insert_Some by (by rewrite Hwa).
    + intros k' wa' Hk'. destruct (Hold _ _ Hk') as (wa0 & ? & _ & <-). by eapply (wf_full w).
    + intros k' wa' i Hk' Hi. destruct (Hold _ _ Hk') as (wa0 & ? & Ei & _). eapply (wf_cancel w); [done..|].
      by rewrite Ei.
    + intros k' Hk'. rewrite lookup_insert. destruct (decide _); [done|by apply (wf_sub w Hwf)].
  - intros k' Hk'. unfold view_of. simpl. rewrite lookup_insert_ne by done.
    rewrite Eitems, (about_cons_ne fst) by done. by rewrite about_snoc_ne by congruence.
  - unfold view_of in *. simpl in *. injection Ev as Ei Er _ Es Eo _ Eg. rewrite Ei, Er, Eo, Eg, <-Erest.
    rewrite (about_snoc_eq _ k) by done. rewrite Es, lookup_insert_eq. eapply in_response; [done..|].
    rewrite <-Eg. exact (phase_origin _ _ _ _ Hph).
  - unfold distance, view_of in *. simpl in *. injection Ev as Ei Er Eq Es Eo _ Eg.
    rewrite Eq, Ei, Er, Es, <-Erest. rewrite (about_snoc_eq _ k) by done. rewrite Es. simpl.
    rewrite Emv. case_decide; lia.
Qed.

(** The client's answer to a message of a collection it asked for: it takes the
    objects or keeps what it had, and names the message's nonce either way. *)
Lemma handle_spec (sink : Sink MockMCPUpdater) msg st :
  sinkState sink !! MsgCollection msg = Some st → requestIncremental st = false →
  ∃ sink' req st', handleResponse sink msg = (sink', req) ∧
    sinkState sink' = <[MsgCollection msg := st']> (sinkState sink) ∧ requestIncremental st' = false ∧
    ReqCollection req = MsgCollection msg ∧ ResponseNonce req = Nonce msg ∧
    isTriggerResponse req = false ∧ ReqIncremental req = false ∧
    match unpack_all (MsgResources msg) with
    | inr os => objects (updater sink') = <[MsgCollection msg := os]> (objects (updater sink)) ∧
                ErrorDetail req = None
    | inl err => sink' = sink ∧ ErrorDetail req = Some (mkRpcStatus Unknown err)
    end.
Proof.
  intros Hst Hinc. unfold handleResponse. rewrite Hst.
  destruct (unpack_all (MsgResources msg)) as [err|os]; simpl.
  - eexists sink, _, st. split; [done|]. rewrite insert_id by done. split_and!; try done.
    unfold isTriggerResponse. simpl. by rewrite andb_false_r.
  - eexists _, _, _. split; [done|]. split; [done|]. split_and!; try done.
    unfold isTriggerResponse. simpl. by rewrite andb_false_r.
Qed.

Lemma ask_initial_advances w w' req rest :
  inv w → initialRequests (wlink w) = req :: rest → move_world w Ask = Some w' → ∃ k, advances w w' k.
Proof.
  intros Hinv Ei. pose proof Hinv as [Hwf _]. unfold move_world, move_link. rewrite (wf_up w Hwf), Ei.
  simpl. intros [= <-]. set (k := ReqCollection req). exists k.
  assert (vInitial (view_of w k) = req :: about ReqCollection k rest) as Evi
    by (simpl; rewrite Ei; unfold k; apply about_cons_eq).
  destruct (token_supported w k Hinv) as [Hsup Hph]; [intros (E & _); by rewrite Evi in E|].
  destruct (phase_initial _ _ _ _ Hph) as (req' & wa & got & Ev & Hset & Hheld); [by rewrite Evi|].
  pose proof Evi as Er. rewrite Ev in Er. simpl in Er. injection Er as -> Erest.
  split; simpl; try done.
  - split; simpl; by try apply Hwf.
  - intros k' Hk'. unfold view_of. simpl. rewrite Ei, about_cons_ne by done. by rewrite about_snoc_ne.
  - unfold view_of in *. simpl in *. injection Ev as _ Er Eq Es Eo Ew Eg.
    rewrite <-Erest, (about_snoc_eq _ k), Er, Eq, Es, Eo, Ew, Eg by done. by eapply in_request.
  - unfold distance, view_of in *. simpl in *. injection Ev as Ei' Er Eq Es Eo Ew Eg.
    rewrite Ei', <-Erest, (about_snoc_eq _ k), Er, Eq, Es by done. simpl. case_decide; lia.
Qed.

Lemma ask_response_advances w w' :
  inv w → initialRequests (wlink w) = [] → move_world w Ask = Some w' → ∃ k, advances w w' k.
Proof.
  intros Hinv Ei. pose proof Hinv as [Hwf _]. unfold move_world, move_link. rewrite (wf_up w Hwf), Ei.
  destruct (s2c (wlink w)) as [|msg rest] eqn:Ec; simpl; [done|]. set (k := MsgCollection msg).
  assert (vSent (view_of w k) = msg :: about MsgCollection k rest) as Evs
    by (simpl; rewrite Ec; unfold k; apply about_cons_eq).
  destruct (token_supported w k Hinv) as [Hsup Hph]; [intros (_ & _ & _ & E & _); by rewrite Evs in E|].
  destruct (phase_sent _ _ _ _ Hph) as (s & msg' & wa & got & Ev & Hs & Hc & Hpe); [by rewrite Evs|].
  pose proof Evs as Er. rewrite Ev in Er. simpl in Er. injection Er as -> Erest.
  destruct Hsup as [st Hst]. pose proof (wf_sink w Hwf k st Hst) as Hinc.
  destruct (handle_spec (client (wlink w)) msg st Hst Hinc)
    as (sink' & req & st' & Hh & Hst' & Hinc' & Erk & Ern & Etr & Eri & Hob).
  rewrite Hh. simpl. intros [= <-]. exists k. fold k in Hst', Erk, Hob.
  assert (∀ k', k' ≠ k → objects (updater sink') !! k' = objects (updater (client (wlink w))) !! k') as Hoth.
  { intros k' Hk'. destruct (unpack_all _) as [err|os]; destruct Hob as [Eo _]; rewrite Eo; [done|].
    by rewrite lookup_insert_ne. }
  assert (held (published w) k (SystemVersionInfo msg) (objects (updater sink') !! k)) as Hheld.
  { destruct Hc as (_ & Hv & Hr & _). rewrite Hr in Hob. split.
    - destruct (unpack_all _) as [err|os] eqn:Eos; destruct Hob as [Eo _]; rewrite Eo.
      + by apply phase_origin in Hph.
      + right. exists s, os. split; [done|]. split; [done|]. apply lookup_insert_eq.
    - right. exists s. split; [done|]. split; [done|]. intros os Hos.
      rewrite Hos in Hob. destruct Hob as [-> _]. apply lookup_insert_eq. }
  split; simpl; try done.
  - split; simpl; try by apply Hwf.
    + done.
    + intros k' [x Hx]. apply (wf_sub w Hwf). simpl in Hx. rewrite Hst' in Hx.
      apply lookup_insert_Some in Hx as [[<- _]|[_ Hx]]; by eexists.
    + intros k' x. rewrite Hst'. intros [[_ <-]|[_ ?]]%lookup_insert_Some; [done|by eapply (wf_sink w)].
  - rewrite Hst'. by apply dom_insert_lookup_L.
  - intros k' Hk'. unfold view_of. simpl. rewrite Ec, Hoth by done. rewrite about_cons_ne by done.
    by rewrite Ei, about_snoc_ne by congruence.
  - by eexists.
  - unfold view_of in *. simpl in *. injection Ev as _ Er Eq _ Eo Ew Eg.
    rewrite <-Erest, (about_snoc_eq _ k), Er, Eq, Eo, Ew by done. eapply in_request; [|exact Hheld].
    unfold settles. by rewrite Hpe.
  - unfold distance, view_of in *. simpl in *. injection Ev as _ Er Eq Es Eo Ew Eg.
    rewrite Ei, Es, <-Erest, (about_snoc_eq _ k), Er, Eq, Ew by done. simpl. rewrite Hpe.
    case_decide; lia.
Qed.

Lemma move_advances w m w' : inv w → move_world w m = Some w' → ∃ k, advances w w' k.
Proof.
  intros Hinv. destruct m; [by apply flush_advances|by apply serve_advances|].
  destruct (initialRequests (wlink w)) as [|req rest] eqn:Ei;
    [by apply ask_response_advances|by eapply ask_initial_advances].
Qed.

Lemma move_inv w m w' :
  inv w → move_world w m = Some w' → inv w' ∧ moves_left w' < moves_left w.
Proof. intros Hinv Hm. destruct (move_advances w m w' Hinv Hm) as [k Ha]. by eapply advances_inv. Qed.

(** ** Lemmas: what happens around the stream *)
Lemma own_nil who k out : (∀ p, p ∈ out → to p ≠ who) → own who k out = [].
Proof.
  induction out as [|p out IH]; intros Hp; [done|]. rewrite own_cons.
  rewrite IH by (intros; apply Hp; by right). destruct (response p); [|done].
  rewrite decide_False; [done|]. intros [E _]. by apply (Hp p ltac:(left)).
Qed.
Lemma deliver_nobody con out : (∀ p, p ∈ out → to p ≠ id con) → deliver con out = con.
Proof.
  induction out as [|p out IH]; intros Hp; [done|]. simpl.
  rewrite decide_False by (apply Hp; left). apply IH. intros; apply Hp; by right.
Qed.

Lemma located_frame w w' k :
  client (wlink w') = client (wlink w) → id (con (wlink w')) = id (con (wlink w)) →
  published w ⊆ published w' → view_of w' k = view_of w k → located w k → located w' k.
Proof.
  intros Hc Hid Hsub Hv. unfold located, supported. rewrite Hc, Hid, Hv.
  intros [[? ?]|?]; [left|by right]. split; [done|by eapply phase_mono].
Qed.

(** The stream's share of what a publication pushes. *)
Lemma own_publish (c : Cache Resource) group s who k :
  own who k (SetSnapshot c group s).2 ≡ₚ
  (λ rw, (k, Some (response_to s (request rw)))) <$>
    filter (stale s) (map_to_list (filter (λ e, mine who k e.2) (open_watches c group))).*2.
Proof.
  pose proof (SetSnapshot_spec c group s) as Hs. destruct (SetSnapshot c group s) as [c' out].
  destruct Hs as (_ & _ & _ & Hout). simpl. unfold own at 1. rewrite Hout. fold (own who k).
  change (own who k (push_of s <$> filter (stale s) (map_to_list (open_watches c group)).*2) ≡ₚ
    (λ rw, (k, Some (response_to s (request rw)))) <$>
      filter (stale s) (map_to_list (filter (λ e, mine who k e.2) (open_watches c group))).*2).
  rewrite own_push_of. apply fmap_Permutation. rewrite <-filter_map_values.
  rewrite !list_filter_filter. apply Permutation_refl'. apply list_filter_iff. unfold mine. tauto.
Qed.

Lemma filter_open_none w g k :
  wf w → g ≠ groupIndex k →
  filter (λ e, mine (id (con (wlink w))) k e.2) (open_watches (wcache w) g) = ∅.
Proof.
  intros Hwf Hg. apply map_empty. intros i. rewrite map_lookup_filter.
  destruct (open_watches (wcache w) g !! i) as [rw|] eqn:E; [|done]. simpl.
  case_guard as Hm; [|done]. destruct Hm as [Hp Hk]. destruct Hg.
  rewrite <-Hk. by apply (wf_mine w Hwf g i).
Qed.

Lemma publish_watches w group s g :
  open_watches (wcache (publish w group s)) g =
  if decide (g = group) then filter (λ e, ¬ stale s e.2) (open_watches (wcache w) g)
  else open_watches (wcache w) g.
Proof.
  unfold publish. pose proof (SetSnapshot_spec (wcache w) group s) as Hs.
  destruct (SetSnapshot (wcache w) group s) as [c' out]. simpl. destruct Hs as (_ & Hf & Ho & _).
  case_decide as E; [by subst g|by apply Ho].
Qed.
Lemma publish_watches_sub w group s g i rw :
  open_watches (wcache (publish w group s)) g !! i = Some rw →
  open_watches (wcache w) g !! i = Some rw.
Proof. rewrite publish_watches. case_decide; [|done]. by intros [? _]%map_lookup_filter_Some. Qed.

Lemma open_supported w g i rw :
  inv w → open_watches (wcache w) g !! i = Some rw → pushResponse rw = id (con (wlink w)) →
  supported w (Collection (request rw)).
Proof.
  intros Hinv Hi Hp. apply token_supported; [done|]. intros (_ & _ & _ & _ & Ho).
  pose proof Hinv as [Hwf _]. pose proof (wf_mine w Hwf g i rw Hi Hp) as ->.
  assert (vOpen (view_of w (Collection (request rw))) !! i = Some rw) as Hv;
    [|by rewrite Ho, lookup_empty in Hv].
  by apply map_lookup_filter_Some.
Qed.

(** What the publication leaves of a stream, and what it queues there. *)
Lemma publish_link w group s :
  inv w →
  let l := wlink (publish w group s) in
  (∃ q, l = with_con (wlink w) (with_queue (con (wlink w)) q)) ∧ queue_ok (con l) ∧
  ∀ k, about fst k (items_of (conQueue (con l))) =
    foldl enqueued (about fst k (items_of (conQueue (con (wlink w)))))
      (own (id (con (wlink w))) k (SetSnapshot (wcache w) group s).2).
Proof.
  intros Hinv. pose proof Hinv as [Hwf _]. cbv zeta. unfold publish.
  pose proof (SetSnapshot_spec (wcache w) group s) as Hs.
  destruct (SetSnapshot (wcache w) group s) as [c' out]. destruct Hs as (_ & _ & _ & Hout). simpl.
  destruct (deliver_spec out (con (wlink w)) (wf_queue w Hwf)) as (Hq & (q & Eq) & Hk).
  { intros p Hp Hto. rewrite Hout in Hp. apply list_elem_of_fmap in Hp as (rw & -> & Hrw).
    apply list_elem_of_filter in Hrw as [_ Hrw]. apply list_elem_of_fmap in Hrw as ([i rw'] & -> & Hin).
    apply elem_of_map_to_list in Hin. simpl in *. eexists. split; [done|]. simpl.
    apply (wf_sub w Hwf). by eapply open_supported. }
  rewrite Eq in *. split; [by exists q|]. done.
Qed.

Lemma publish_wf w group s : inv w → wf (publish w group s).
Proof.
  intros Hinv. pose proof Hinv as [Hwf _]. destruct (publish_link w group s Hinv) as ((q & El) & Hqo & _).
  pose proof (publish_watches_sub w group s) as Hsub.
  assert (watchCount (wcache (publish w group s)) = watchCount (wcache w)) as Hn.
  { unfold publish. pose proof (watchCount_SetSnapshot (wcache w) group s) as Hn.
    by destruct (SetSnapshot (wcache w) group s). }
  assert (snapshots (wcache (publish w group s)) = <[group := s]> (snapshots (wcache w)) ∧
          published (publish w group s) = published w ++ [(group, s)]) as [Hsn Hp].
  { unfold publish. pose proof (SetSnapshot_spec (wcache w) group s) as Hs.
    destruct (SetSnapshot (wcache w) group s). simpl. by destruct Hs as (-> & _). }
  split; rewrite ?El, ?Hn; simpl; try by apply Hwf.
  - by rewrite El in Hqo.
  - intros g i rw Hi%Hsub. by apply (wf_ids w Hwf g i rw).
  - intros g i rw Hi%Hsub. by apply (wf_mine w Hwf g i rw).
  - intros k wa i Hk Hi. destruct (wf_cancel w Hwf k wa i Hk Hi) as [? Hm]. split; [done|].
    intros rw Hrw%Hsub. by apply Hm.
  - pose proof (no_stale_op groupIndex (wcache w) (OSetSnapshot group s) (wf_stale w Hwf)) as Hst.
    simpl in Hst. unfold publish. by destruct (SetSnapshot (wcache w) group s).
  - intros g s'. rewrite Hsn, Hp. intros [[<- <-]|[_ ?%(wf_pub w Hwf)]]%lookup_insert_Some;
      apply elem_of_app; [right; by left|by left].
  - intros k Hk. apply (wf_sub w Hwf). unfold supported in *. by rewrite El in Hk.
Qed.

(** A collection's part of the world after a publication: an open watch that is behind
    becomes a queued response, everything else stays. *)
Lemma publish_view w group s k :
  inv w →
  view_of (publish w group s) k = view_of w k ∨
  ∃ i rw, vOpen (view_of w k) = {[ i := rw ]} ∧ group = groupIndex k ∧
    view_of (publish w group s) k =
    let v := view_of w k in
    mkView (vInitial v) (vRequests v)
      (foldl enqueued (vQueued v) [(k, Some (response_to s (request rw)))]) (vSent v) ∅
      (vWatch v) (vObjects v).
Proof.
  intros Hinv. pose proof Hinv as [Hwf Hloc].
  destruct (publish_link w group s Hinv) as ((q & El) & _ & Hq). specialize (Hq k).
  pose proof (own_publish (wcache w) group s (id (con (wlink w))) k) as Ho.
  assert (vOpen (view_of w k) = ∅ ∨ ∃ i rw, vOpen (view_of w k) = {[ i := rw ]}) as HW.
  { destruct (Hloc k) as [[_ Hp]|[_ (_ & _ & _ & _ & Hi)]]; [destruct Hp; simpl; eauto|by left]. }
  assert (view_of (publish w group s) k =
    let v := view_of w k in
    mkView (vInitial v) (vRequests v)
      (foldl enqueued (vQueued v) (own (id (con (wlink w))) k (SetSnapshot (wcache w) group s).2))
      (vSent v)
      (filter (λ e, mine (id (con (wlink w))) k e.2)
         (if decide (groupIndex k = group)
          then filter (λ e, ¬ stale s e.2) (open_watches (wcache w) (groupIndex k))
          else open_watches (wcache w) (groupIndex k))) (vWatch v) (vObjects v)) as ->.
  { unfold view_of. rewrite El in *. simpl in *. by rewrite Hq, publish_watches. }
  clear Hq El. unfold view_of in *. simpl in *. destruct (decide (groupIndex k = group)) as [<-|Eg]; last first.
  { rewrite filter_open_none, map_to_list_empty in Ho by done.
    apply Permutation_nil_r in Ho. rewrite Ho. by left. }
  rewrite map_filter_comm. destruct HW as [HW|(i & rw & HW)]; rewrite HW in Ho |- *.
  - rewrite map_to_list_empty in Ho. apply Permutation_nil_r in Ho.
    rewrite Ho, map_filter_empty. by left.
  - rewrite map_to_list_singleton in Ho. simpl in Ho. rewrite filter_cons in Ho.
    destruct (decide (stale s rw)) as [Hst|Hst].
    + right. exists i, rw. split; [done|]. split; [done|].
      apply Permutation_singleton_r in Ho. rewrite Ho.
      by rewrite map_filter_singleton_False by (simpl; tauto).
    + left. apply Permutation_nil_r in Ho. rewrite Ho. simpl.
      by rewrite map_filter_singleton_True.
Qed.

Lemma publish_inv w group s : inv w → inv (publish w group s).
Proof.
  intros Hinv. pose proof Hinv as [Hwf Hloc]. split; [by apply publish_wf|]. intros k.
  destruct (publish_link w group s Hinv) as ((q & El) & _ & _).
  assert (published (publish w group s) = published w ++ [(group, s)]) as Hp
    by (unfold publish; by destruct (SetSnapshot _ _ _)).
  assert (published w ⊆ published (publish w group s)) as Hsub
    by (rewrite Hp; intros x Hx; apply elem_of_app; by left).
  destruct (publish_view w group s k Hinv) as [Hv|(i & rw & Hrw & Eg & Hv)].
  { apply (located_frame w); rewrite ?El; try done. }
  left. assert (supported w k ∧ phase (published w) (id (con (wlink w))) k (view_of w k)) as [Hsup Hph].
  { apply token_supported; [done|]. intros (_ & _ & _ & _ & E). rewrite Hrw in E.
    by apply map_non_empty_singleton in E. }
  split; [unfold supported; by rewrite El|]. cbv zeta in Hv. rewrite El.
  change (id _) with (id (con (wlink w))).
  destruct Hph; simpl in Hrw, Hv |- *; try (by symmetry in Hrw; apply map_non_empty_singleton in Hrw).
  apply (f_equal (.!! i0)) in Hrw. rewrite lookup_singleton_eq in Hrw. symmetry in Hrw.
  apply lookup_singleton_Some in Hrw as [_ ->]. rewrite Hv. simpl. apply in_queue; [|done|].
  - rewrite Hp, Eg. apply elem_of_app. right. by left.
  - eapply origin_mono; [done|]. match goal with H : held _ _ _ _ |- _ => apply H end.
Qed.

(** What others do leaves the stream alone, and all it looks at in the cache. *)
Lemma other_spec w o :
  wf w → foreign w o →
  wlink (other w o) = wlink w ∧ published (other w o) = published w ∧
  snapshots (wcache (other w o)) = snapshots (wcache w) ∧
  (watchCount (wcache w) ≤ watchCount (wcache (other w o)))%Z ∧
  no_stale_watch (wcache (other w o)) ∧
  ∀ g i rw, open_watches (wcache (other w o)) g !! i = Some rw →
    open_watches (wcache w) g !! i = Some rw ∨
    (pushResponse rw ≠ id (con (wlink w)) ∧ i = watchCount (wcache (other w o)) ∧
     (watchCount (wcache w) < i)%Z).
Proof.
  intros Hwf Hf. pose proof (no_stale_op groupIndex (wcache w) o (wf_stale w Hwf)) as Hst.
  unfold other. destruct o as [r who p|g i| | |]; simpl in Hf; try done; simpl in *.
  - pose proof (Watch_spec groupIndex (wcache w) r who p) as Hs.
    pose proof (Watch_id groupIndex (wcache w) r who p) as Hi. cbv zeta in Hs.
    destruct (Watch groupIndex (wcache w) r who p) as [[c' out] oi].
    destruct Hs as (Hsn & _ & Hs), Hi as (Hn & Hi1 & Hi2). simpl in *.
    assert (∀ q, q ∈ out → to q ≠ id (con (wlink w))) as Hout.
    { intros q Hq. assert (out = [] ∨ ∃ r, out = [mkPush who r]) as [->|[x ->]].
      - destruct (snapshots (wcache w) !! _); [case_decide|]; destruct Hs as [-> _]; eauto.
      - by apply not_elem_of_nil in Hq.
      - apply list_elem_of_singleton in Hq as ->. done. }
    rewrite deliver_nobody by done. split; [by destruct (wlink w)|]. split; [done|]. split; [done|].
    split; [destruct oi; lia|]. split; [done|]. intros g i rw. rewrite Hi2.
    destruct oi as [j|]; [|by left]. specialize (Hi1 j eq_refl). subst j. case_decide; [|by left].
    intros [[<- <-]|[_ ?]]%lookup_insert_Some; [right|by left]. simpl. split; [done|]. lia.
  - rewrite watchCount_cancel. split; [by destruct (wlink w)|]. split; [done|].
    split; [unfold cancel; by destruct (status _ !! _)|]. split; [done|]. split; [done|].
    intros g' j rw. rewrite open_watches_cancel. case_decide; [|by left].
    intros [_ ?]%lookup_delete_Some. by left.
Qed.

Lemma other_open w o k :
  wf w → foreign w o →
  filter (λ e, mine (id (con (wlink w))) k e.2) (open_watches (wcache (other w o)) (groupIndex k)) =
  filter (λ e, mine (id (con (wlink w))) k e.2) (open_watches (wcache w) (groupIndex k)).
Proof.
  intros Hwf Hf. destruct (other_spec w o Hwf Hf) as (_ & _ & _ & _ & _ & Hsub).
  apply map_eq. intros i. rewrite !map_lookup_filter.
  destruct (open_watches (wcache (other w o)) (groupIndex k) !! i) as [rw|] eqn:E; simpl.
  - destruct (Hsub _ _ _ E) as [->|(Hne & _ & Hlt)]; [done|]. rewrite (option_guard_False (mine _ _ _)) by (by intros [? _]).
    destruct (open_watches (wcache w) (groupIndex k) !! i) as [rw'|] eqn:E'; simpl; [|done].
    apply (wf_ids w Hwf) in E'. lia.
  - destruct (open_watches (wcache w) (groupIndex k) !! i) as [rw'|] eqn:E'; simpl; [|done].
    rewrite option_guard_False; [done|]. intros [Hp _]. revert E. unfold other.
    destruct o as [r who p|g j| | |]; simpl in Hf; try done; simpl.
    + pose proof (Watch_id groupIndex (wcache w) r who p) as Hi.
      destruct (Watch groupIndex (wcache w) r who p) as [[c' out] oi]. destruct Hi as (_ & Hi1 & Hi2). simpl.
      rewrite Hi2. destruct oi as [j|]; [|congruence]. case_decide; [|congruence].
      rewrite lookup_insert. case_decide; [done|congruence].
    + rewrite open_watches_cancel. case_decide as Eg; [|congruence]. rewrite lookup_delete.
      case_decide as Ei; [|congruence]. subst. by destruct (Hf rw' E').
Qed.

Lemma other_inv w o : inv w → foreign w o → inv (other w o).
Proof.
  intros [Hwf Hloc] Hf. destruct (other_spec w o Hwf Hf) as (El & Ep & Es & Hn & Hst & Hsub).
  split; [|intros k; apply (located_frame w); rewrite ?El, ?Ep; try done].
  - split; rewrite ?El; try by apply Hwf.
    + intros g i rw Hi. destruct (Hsub _ _ _ Hi) as [H'|(_ & -> & _)]; [|done].
      apply (wf_ids w Hwf) in H'. lia.
    + intros g i rw Hi Hp. destruct (Hsub _ _ _ Hi) as [H'|(? & _)]; [by eapply (wf_mine w)|done].
    + intros k wa i Hk Hi. destruct (wf_cancel w Hwf k wa i Hk Hi) as [Hle Hm]. split; [lia|].
      intros rw Hrw. destruct (Hsub _ _ _ Hrw) as [H'|(_ & _ & ?)]; [by apply Hm|lia].
    + exact Hst.
    + intros g s. rewrite Es, Ep. apply (wf_pub w Hwf).
    + intros k Hk. apply (wf_sub w Hwf). unfold supported in *. by rewrite El in Hk.
  - unfold view_of. rewrite El. by rewrite other_open.
Qed.

(** ** Lemmas: the start *)
Lemma size_insert_all {A V} (f : A → string) (g : A → V) (l : list A) (m : gmap string V) :
  size (insert_all f g l m) ≤ size m + length l.
Proof.
  revert m; induction l as [|x l IH]; intros m; simpl; [lia|].
  change (insert_all f g (x :: l) m) with (insert_all f g l (<[f x := g x]> m)).
  pose proof (IH (<[f x := g x]> m)). pose proof (map_size_insert (f x) (g x) m) as Hs.
  destruct (m !! f x); simpl in Hs; lia.
Qed.

Lemma lookup_options {V} (v : CollectionOptions → V) names k :
  insert_all OptName v (CollectionOptionsFromSlice names) ∅ !! k =
  if decide (k ∈ names) then Some (v (mkCollectionOptions k false)) else None.
Proof.
  rewrite lookup_insert_all. unfold CollectionOptionsFromSlice. destruct (last_with _ _ _) as [o|] eqn:E.
  - apply last_with_Some in E as [<- Ho]. apply list_elem_of_fmap in Ho as (n & -> & Hn). simpl.
    by rewrite decide_True.
  - rewrite last_with_None in E. rewrite lookup_empty, decide_False; [done|]. intros Hk.
    apply (E (mkCollectionOptions k false)); [|done]. by apply (list_elem_of_fmap_2 (λ n, mkCollectionOptions n false)).
Qed.

Lemma about_fmap {V} (f : string * V → RequestResources) (l : list (string * V)) k :
  (∀ e, ReqCollection (f e) = e.1) → NoDup l.*1 →
  about ReqCollection k (f <$> l) = match last_with fst k l with Some e => [f e] | None => [] end.
Proof.
  intros Hf. induction l as [|e l IH]; intros Hnd; [done|]. apply NoDup_cons in Hnd as [He Hnd].
  rewrite fmap_cons. cbn [last_with]. destruct (decide (e.1 = k)) as [<-|Hk].
  - unfold about in *. rewrite filter_cons_True by done. rewrite IH by done.
    destruct (last_with fst e.1 l) as [e'|] eqn:E; [|done].
    apply last_with_Some in E as [E Hin]. destruct He. rewrite <-E. by apply list_elem_of_fmap_2.
  - rewrite about_cons_ne by (by rewrite Hf). rewrite IH by done. by destruct (last_with fst k l).
Qed.

(** A stream that is opened puts the tokens of all collections into its requests,
    whatever the client has from before. *)
Lemma connect_inv c (sink : Sink MockMCPUpdater) pub names peer who :
  unused c who → no_stale_watch c →
  (∀ g i rw, open_watches c g !! i = Some rw → (i ≤ watchCount c)%Z) →
  (∀ g s, snapshots c !! g = Some s → (g, s) ∈ pub) →
  (∀ k, is_Some (sinkState sink !! k) → k ∈ names) →
  (∀ k st, sinkState sink !! k = Some st → requestIncremental st = false) →
  (∀ k, is_Some (sinkState sink !! k) → origin pub k (objects (updater sink) !! k)) →
  inv (mkWorld c (connect (CollectionOptionsFromSlice names) peer who sink) pub).
Proof.
  intros Hun Hst Hids Hpub Hsub Hfull Horig.
  assert (∀ k, filter (λ e, mine who k e.2) (open_watches c (groupIndex k)) = ∅) as Hmine.
  { intros k. apply map_empty. intros i. rewrite map_lookup_filter.
    destruct (open_watches c (groupIndex k) !! i) as [rw|] eqn:E; [|done]. simpl.
    rewrite option_guard_False; [done|]. intros [Hp _]. by eapply Hun. }
  split; [split; simpl; try done|].
  - exists (mkBounded false []). split; [apply represents_New|]. split; [done|].
    split; [intros k Hk; by apply not_elem_of_nil in Hk|].
    etrans; [apply size_insert_all|]. by rewrite map_size_empty.
  - intros k wa. rewrite (lookup_options (λ o, mkWatch None ∅ None (OptIncremental o))).
    case_decide; [by intros [= <-]|done].
  - intros g i rw Hi Hp. by destruct (Hun g i rw Hi).
  - intros k wa i. rewrite (lookup_options (λ o, mkWatch None ∅ None (OptIncremental o))).
    case_decide; [by intros [= <-]|done].
  - intros k Hk. rewrite (lookup_options (λ o, mkWatch None ∅ None (OptIncremental o))).
    rewrite decide_True by by apply Hsub. by eexists.
  - intros k. unfold located, supported, view_of. simpl. rewrite Hmine.
    unfold createInitialRequests. rewrite about_fmap; [|done|apply NoDup_map_order_fst].
    assert (items_of (NewUniqueScheduledQueue None (length (CollectionOptionsFromSlice names)))
            = ([] : list (string * option (WatchResponse Resource)))) as -> by done.
    rewrite (lookup_options (λ o, mkWatch None ∅ None (OptIncremental o))).
    destruct (last_with _ _ _) as [[k' st]|] eqn:E.
    + apply last_with_Some in E as [Ek Hin%elem_of_map_order]. simpl in Ek. subst k'. left.
      assert (is_Some (sinkState sink !! k)) as Hk by (by eexists). split; [done|].
      rewrite decide_True by by apply Hsub. simpl. rewrite (Hfull k st Hin).
      apply in_initial; [|split; [by apply Horig|by left]].
      split; [unfold isTriggerResponse; simpl; apply andb_false_r|done].
    + right. assert (¬ is_Some (sinkState sink !! k)) as Hno.
      { intros [st Hk]. rewrite last_with_None in E. apply (E (k, st)); [|done]. by apply elem_of_map_order. }
      split; [done|]. by repeat split.
Qed.

Lemma start_inv w : starts w → inv w.
Proof.
  intros ((names & peer & who & sinkNames & Hsub & El) & Hst & Hids & Hpub).
  destruct w as [c l pub]. simpl in *. subst l pub. simpl in *.
  assert (∀ k st, insert_all OptName (λ o, mkPerCollection ∅ (OptIncremental o))
    (CollectionOptionsFromSlice sinkNames) ∅ !! k = Some st → k ∈ sinkNames ∧ requestIncremental st = false) as Hsink.
  { intros k st. rewrite (lookup_options (λ o, mkPerCollection ∅ (OptIncremental o))).
    case_decide; [by intros [= <-]|done]. }
  apply connect_inv; simpl; try done.
  - intros g i rw Hi. by apply (Hids g i rw).
  - intros g i rw Hi. by apply (Hids g i rw).
  - intros g s Hs. by apply elem_of_map_to_list.
  - intros k [st Hk]. by apply Hsub, (Hsink k st).
  - intros k st Hk. by apply (Hsink k st).
  - intros k _. left. apply lookup_empty.
Qed.

Lemma located_origin w k :
  inv w → supported w k → origin (published w) k (objects (updater (client (wlink w))) !! k).
Proof.
  intros [_ Hl] Hk. destruct (Hl k) as [[_ Hp]|[? _]]; [|done]. exact (phase_origin _ _ _ _ Hp).
Qed.

(** What a sink may have been through meanwhile: it asks for the same collections, in
    full, and has objects of published snapshots. *)
Definition sink_ok (pub : list (string * InMemory Resource)) (asks : gset string)
    (s : Sink MockMCPUpdater) : Prop :=
  dom (sinkState s) = asks ∧ (∀ k st, sinkState s !! k = Some st → requestIncremental st = false) ∧
  ∀ k, k ∈ asks → origin pub k (objects (updater s) !! k).

Lemma inv_sink_ok w : inv w → sink_ok (published w) (dom (sinkState (client (wlink w)))) (client (wlink w)).
Proof.
  intros Hinv. pose proof Hinv as [Hwf _]. split; [done|]. split; [by apply Hwf|].
  intros k Hk%elem_of_dom. by apply located_origin.
Qed.

Lemma relink_inv w s names peer who :
  inv w → unused (wcache w) who → sink_ok (published w) (dom (sinkState s)) s →
  (∀ k, is_Some (sinkState s !! k) → k ∈ names) →
  inv (mkWorld (wcache w) (connect (CollectionOptionsFromSlice names) peer who s) (published w)).
Proof.
  intros Hinv Hun (_ & Hfull & Horig) Hsub. pose proof Hinv as [Hwf _].
  apply connect_inv; [done|by apply Hwf|by apply Hwf|by apply Hwf|done|done|].
  intros k Hk. by apply Horig, elem_of_dom.
Qed.
Lemma reconnect_inv w names peer who :
  inv w → unused (wcache w) who → (∀ k, supported w k → k ∈ names) →
  inv (reconnect w (CollectionOptionsFromSlice names) peer who).
Proof. intros Hinv Hun Hsub. by apply (relink_inv w); [| |by apply inv_sink_ok|]. Qed.

(** Every response under way carries a published snapshot. *)
Definition carries_published (pub : list (string * InMemory Resource)) (msg : ResourcesMsg) : Prop :=
  ∃ s, (groupIndex (MsgCollection msg), s) ∈ pub ∧ carries s (MsgCollection msg) msg.

Lemma sent_published w msg : inv w → msg ∈ s2c (wlink w) → carries_published (published w) msg.
Proof.
  intros Hinv Hin. set (k := MsgCollection msg).
  assert (msg ∈ vSent (view_of w k)) as Hv by (simpl; unfold about; by apply list_elem_of_filter).
  destruct (token_supported w k Hinv) as [_ Hph].
  { intros (_ & _ & _ & E & _). rewrite E in Hv. by apply not_elem_of_nil in Hv. }
  destruct (phase_sent _ _ _ _ Hph) as (s & msg' & wa & got & Ev & Hs & Hc & _).
  { intros E. rewrite E in Hv. by apply not_elem_of_nil in Hv. }
  rewrite Ev in Hv. simpl in Hv. apply list_elem_of_singleton in Hv as <-. by exists s.
Qed.

Lemma sink_ok_mono pub pub' asks s : pub ⊆ pub' → sink_ok pub asks s → sink_ok pub' asks s.
Proof. intros Hp (? & ? & Ho). split; [done|]. split; [done|]. intros k Hk. by apply (origin_mono pub), Ho. Qed.

Lemma handle_sink_ok pub asks s msg :
  sink_ok pub asks s → carries_published pub msg → sink_ok pub asks (handleResponse s msg).1.
Proof.
  intros (Hd & Hfull & Ho) (shot & Hs & _ & _ & Hr & _).
  destruct (sinkState s !! MsgCollection msg) as [st|] eqn:Est; last first.
  { unfold handleResponse. rewrite Est. done. }
  destruct (handle_spec s msg st Est (Hfull _ _ Est)) as (s' & req & st' & -> & Hst & Hinc & _ & _ & _ & _ & Hob).
  simpl. split; [rewrite Hst; by rewrite dom_insert_lookup_L|]. split.
  { intros k st2. rewrite Hst. intros [[_ <-]|[_ ?]]%lookup_insert_Some; [done|by eapply Hfull]. }
  intros k Hk. destruct (unpack_all (MsgResources msg)) as [err|os] eqn:Eos; destruct Hob as [E _].
  { rewrite E. by apply Ho. }
  rewrite E. destruct (decide (k = MsgCollection msg)) as [->|Hne].
  - right. exists shot, os. rewrite lookup_insert_eq. by rewrite <-Hr.
  - rewrite lookup_insert_ne by done. by apply Ho.
Qed.

(** There are always unused numbers. *)
Lemma fresh_unused (c : Cache Resource) (used : list nat) : ∃ who, unused c who ∧ who ∉ used.
Proof.
  set (ids := map_to_list (status c) ≫= λ e, pushResponse ∘ snd <$> map_to_list (watches e.2)).
  exists (fresh (ids ++ used)). pose proof (infinite_is_fresh (ids ++ used)) as Hf. split.
  - intros g i rw Hi E'. apply Hf. rewrite <-E'. apply elem_of_app. left. unfold open_watches in Hi.
    destruct (status c !! g) as [info|] eqn:E; [|by rewrite lookup_empty in Hi].
    apply list_elem_of_bind. exists (g, info). split; [|by apply elem_of_map_to_list].
    apply list_elem_of_fmap. exists (i, rw). split; [done|]. by apply elem_of_map_to_list.
  - intros Hu. apply Hf, elem_of_app. by right.
Qed.

Lemma world_step_inv w w' : inv w → step w w' → inv w'.
Proof.
  intros Hinv [m w'' Hm|group s|o Hf|names peer who Hun Hsub];
    [by eapply move_inv|by apply publish_inv|by apply other_inv|by apply reconnect_inv].
Qed.
Lemma reaches_inv w w' : starts w → reaches w w' → inv w'.
Proof. intros Hs%start_inv. induction 1; [done|eauto using world_step_inv]. Qed.

(** ** Lemmas: rest *)
Lemma run_moves_inv w ms w' :
  inv w → run_moves w ms = Some w' → inv w' ∧ length ms + moves_left w' ≤ moves_left w.
Proof.
  revert w; induction ms as [|m ms IH]; intros w Hinv; simpl; [intros [= <-]; by split|].
  destruct (move_world w m) as [w1|] eqn:E; simpl; [|done]. intros Hr.
  destruct (move_inv w m w1 Hinv E) as [Hinv1 Hlt]. destruct (IH w1 Hinv1 Hr) as [? ?]. split; [done|lia].
Qed.

Lemma moves_left_bound w : inv w → moves_left w ≤ 6 * size (sinkState (client (wlink w))).
Proof.
  intros Hinv. unfold moves_left.
  assert (size (sinkState (client (wlink w))) = length (asked w)) as ->
    by (unfold asked; by rewrite <-size_dom).
  assert (∀ k, k ∈ asked w → distance (wcache w) k (view_of w k) ≤ 6) as Hd.
  { intros k Hk%supported_asked. destruct Hinv as [_ Hl]. destruct (Hl k) as [[_ Hp]|[? _]]; [|done].
    destruct Hp; unfold distance; simpl; repeat case_decide; lia. }
  revert Hd. induction (asked w) as [|k l IH]; intros Hd; simpl; [lia|].
  pose proof (Hd k ltac:(left)).
  assert (sum_list_with (λ k, distance (wcache w) k (view_of w k)) l ≤ 6 * length l); [|lia].
  apply IH. intros. apply Hd. by right.
Qed.

(** Nothing moves only when every token is an open watch. *)
Lemma rest_phase w k :
  inv w → at_rest w → supported w k →
  ∃ i wa v got, view_of w k =
      mkView [] [] [] [] {[ i := mkResponseWatch (mkRequest k v false) (id (con (wlink w))) ]} (Some wa) got ∧
    held (published w) k v got.
Proof.
  intros Hinv Hrest Hk. pose proof Hinv as [Hwf Hl]. destruct (Hl k) as [[_ Hp]|[? _]]; [|done].
  assert (initialRequests (wlink w) = []) as Ei.
  { specialize (Hrest Ask). unfold move_world, move_link in Hrest. rewrite (wf_up w Hwf) in Hrest.
    by destruct (initialRequests (wlink w)). }
  assert (s2c (wlink w) = []) as Es.
  { specialize (Hrest Ask). unfold move_world, move_link in Hrest. rewrite (wf_up w Hwf), Ei in Hrest.
    destruct (s2c (wlink w)) as [|msg rest]; [done|]. simpl in Hrest. by destruct (handleResponse _ _). }
  assert (c2s (wlink w) = []) as Ec.
  { specialize (Hrest Serve). unfold move_world, move_link in Hrest. rewrite (wf_up w Hwf) in Hrest.
    destruct (c2s (wlink w)) as [|req rest]; [done|]. simpl in Hrest.
    by destruct (processClientRequest _ _ _ _) as [[??]?]. }
  assert (items_of (conQueue (con (wlink w))) = []) as Eq.
  { specialize (Hrest Flush). unfold move_world, move_link in Hrest. rewrite (wf_up w Hwf) in Hrest.
    simpl in Hrest. destruct (wf_queue w Hwf) as (b & Hr & _). rewrite (items_of_represents _ _ Hr).
    pose proof (take_refines None _ b Hr) as Ht.
    destruct (take_entry None (conQueue (con (wlink w)))) as [[q e]|] eqn:Et.
    - destruct (take_queue_ok _ _ _ (wf_queue w Hwf) Et) as (k' & v' & -> & _).
      simpl in Hrest. destruct (conWatches _ !! k') as [wa|]; [|done]. destruct v'; [|done].
      by destruct (pushServerResponse _ _ _ _ _) as [? [|]].
    - unfold spec_take in Ht. by destruct (items b). }
  unfold view_of in *. rewrite Ei, Es, Ec, Eq in *. inversion Hp; subst; eauto 10.
Qed.

Lemma move_reaches w w1 m w2 : reaches w w1 → move_world w1 m = Some w2 → reaches w w2.
Proof. intros Hr Hm. eapply reaches_step; [exact Hr|]. by eapply step_move. Qed.

Lemma run_moves_reaches w w1 ms w2 : reaches w w1 → run_moves w1 ms = Some w2 → reaches w w2.
Proof.
  revert w1; induction ms as [|m ms IH]; intros w1 Hr; simpl; [by intros [= <-]|].
  destruct (move_world w1 m) as [w3|] eqn:E; simpl; [|done]. apply IH. by eapply move_reaches.
Qed.

Lemma next_move_spec w :
  match next_move w with
  | Some w' => ∃ m, move_world w m = Some w'
  | None => at_rest w
  end.
Proof.
  unfold next_move, at_rest.
  destruct (move_world w Serve) as [w1|] eqn:E1; [by exists Serve|].
  destruct (move_world w Flush) as [w1|] eqn:E2; [by exists Flush|].
  destruct (move_world w Ask) as [w1|] eqn:E3; [by exists Ask|]. by intros [].
Qed.

Lemma drain_rests fuel w :
  inv w → moves_left w ≤ fuel →
  at_rest (drain fuel w) ∧ inv (drain fuel w) ∧ ∃ ms, run_moves w ms = Some (drain fuel w).
Proof.
  revert w; induction fuel as [|fuel IH]; intros w Hinv Hle; simpl.
  - split; [|split; [done|by exists []]]. intros m. destruct (move_world w m) as [w'|] eqn:E; [|done].
    destruct (move_inv w m w' Hinv E) as [_ ?]. lia.
  - pose proof (next_move_spec w) as Hn. destruct (next_move w) as [w'|]; [|split; [done|split; [done|by exists []]]].
    destruct Hn as [m Hm]. destruct (move_inv w m w' Hinv Hm) as [Hinv' Hlt].
    destruct (IH w' Hinv') as (? & ? & ms & Hms); [lia|]. split; [done|]. split; [done|].
    exists (m :: ms). simpl. by rewrite Hm.
Qed.

Lemma rest_current w k s :
  inv w → at_rest w → supported w k → snapshots (wcache w) !! groupIndex k = Some s →
  held (published w) k (VersionOf s k) (objects (updater (client (wlink w))) !! k).
Proof.
  intros Hinv Hrest Hk Hs. destruct (rest_phase w k Hinv Hrest Hk) as (i & wa & v & got & Ev & Hheld).
  assert (objects (updater (client (wlink w))) !! k = got) as ->
    by (change (vObjects (view_of w k) = got); by rewrite Ev).
  assert (open_watches (wcache w) (groupIndex k) !! i =
          Some (mkResponseWatch (mkRequest k v false) (id (con (wlink w))))) as Hi.
  { apply (f_equal vOpen) in Ev. simpl in Ev. apply (f_equal (.!! i)) in Ev.
    rewrite lookup_singleton_eq in Ev. by apply map_lookup_filter_Some in Ev as [? _]. }
  destruct Hinv as [Hwf _]. pose proof (wf_stale w Hwf _ _ _ _ Hs Hi) as Hv. unfold stale in Hv. simpl in Hv.
  apply dec_stable in Hv. by rewrite Hv.
Qed.
End delivery.

(** ** Properties *)

(** C20. The exchange is sound: whatever the server publishes and other clients do, in
    whatever order requests and responses travel, and however often the stream breaks and
    the client opens a new one, the stream it has never ends with an error of its own; every request that reaches the server is about a collection of the stream
    and passes the nonce check, so the error path of which the code says that it should
    not happen does not; and of every collection the client asked for there is at any
    time exactly one request, queued response, response under way or open watch. *)
Theorem exchange_sound `{Marshal} `{!Unmarshal} `{MapOrder} (groupIndex : string → string)
    (w w' : world) (Hs : starts w) (Hr : reaches groupIndex w w') :
  ended (wlink w') = None ∧
  (∀ req rest, c2s (wlink w') = req :: rest →
     ∃ wa, conWatches (con (wlink w')) !! ReqCollection req = Some wa ∧
       (ResponseNonce req = "" ∨ pendingNonce wa = ResponseNonce req)) ∧
  ∀ k, is_Some (sinkState (client (wlink w')) !! k) →
    let v := view_of groupIndex w' k in
    length (vInitial v) + length (vRequests v) + length (vQueued v) + length (vSent v)
      + size (vOpen v) = 1.
Proof.
  pose proof (reaches_inv groupIndex w w' Hs Hr) as Hinv. pose proof Hinv as [Hwf Hloc].
  split; [by eapply wf_up|]. split.
  - intros req rest Ec. set (k := ReqCollection req).
    assert (vRequests (view_of groupIndex w' k) ≠ []) as Hne
      by (simpl; rewrite Ec; unfold k; by rewrite about_cons_eq).
    destruct (token_supported groupIndex w' k Hinv) as [_ Hp]; [by intros (_ & ? & _)|].
    destruct (phase_requests groupIndex _ _ _ _ Hp Hne) as (req' & wa & v & got & Ev & Hset & _).
    pose proof (f_equal vRequests Ev) as Er. simpl in Er. rewrite Ec in Er. unfold k in Er.
    rewrite about_cons_eq in Er. injection Er as <- _. exists wa. split; [by apply (f_equal vWatch) in Ev|].
    by apply (settle_spec wa req v).
  - intros k Hk. destruct (Hloc k) as [[_ Hp]|[? _]]; [|done]. destruct Hp; simpl;
      rewrite ?map_size_empty, ?map_size_singleton; done.
Qed.

(** C21. The exchange comes to rest: once the server publishes nothing new and the
    stream stays up, at most six moves per collection are left from any reachable state, in whatever order they are
    made, and the scheduler that makes any move it can reaches a state in which nothing
    moves within that many steps. *)
Theorem exchange_terminates `{Marshal} `{!Unmarshal} `{MapOrder} (groupIndex : string → string)
    (w w' : world) (Hs : starts w) (Hr : reaches groupIndex w w') :
  let bound := 6 * size (sinkState (client (wlink w'))) in
  (∀ ms w'', run_moves groupIndex w' ms = Some w'' → length ms ≤ bound) ∧
  at_rest groupIndex (drain groupIndex bound w').
Proof.
  cbv zeta. pose proof (reaches_inv groupIndex w w' Hs Hr) as Hinv.
  pose proof (moves_left_bound groupIndex w' Hinv) as Hb. split.
  - intros ms w'' Hm. destruct (run_moves_inv groupIndex w' ms w'' Hinv Hm) as [_ ?]. lia.
  - by apply drain_rests.
Qed.

(** C22. A client at rest is up to date: it holds, of every collection it asked for and
    that is being served, the objects of a published snapshot of the served version (or,
    when that is the empty version, nothing or what it got before), unless they cannot be
    unpacked; and whatever it holds of them are the objects of one published snapshot, also
    after the stream broke and was opened anew. *)
Theorem client_catches_up `{Marshal} `{!Unmarshal} `{MapOrder} (groupIndex : string → string)
    (w w' : world) (k : string) (s : InMemory Resource)
    (Hs : starts w) (Hr : reaches groupIndex w w') (Hrest : at_rest groupIndex w')
    (Hk : is_Some (sinkState (client (wlink w')) !! k))
    (Hsn : snapshots (wcache w') !! groupIndex k = Some s) :
  held groupIndex (published w') k (VersionOf s k) (objects (updater (client (wlink w'))) !! k).
Proof. apply rest_current; [by eapply reaches_inv|done..]. Qed.

(** ** Witnesses *)
Definition transparent_unmarshal : @Unmarshal transparent :=
  @Build_Unmarshal transparent (λ _, "type") inr.

Section witness.
#[local] Existing Instances transparent transparent_unmarshal asc_order.

Definition w_shot : InMemory Resource :=
  mkInMemory {[ "c" := Sl [mkResource "r" "1" (Some (PGateway (mkGateway [])))] ]} {[ "c" := "1" ]}.
Definition w_world : world :=
  mkWorld McpCache.New
    (connect (CollectionOptionsFromSlice ["b"; "c"]) "peer" 1
       (NewSink (CollectionOptionsFromSlice ["c"]) (mkUpdater ∅))) [].
Definition w_published : world := publish w_world "default" w_shot.
Definition w_moves : list move := [Ask; Serve; Flush; Ask; Serve].
Definition w_rest : world := drain IndexFunction 6 w_published.

Lemma w_starts : starts w_world.
Proof.
  split; [exists ["b"; "c"], "peer", 1, ["c"]; split; [|done]|].
  - intros n Hn%list_elem_of_singleton. subst n. by apply (bool_decide_unpack _).
  - split; [intros g s i w; simpl; by rewrite lookup_empty|]. split; [|done].
    intros g i rw. unfold open_watches. simpl. rewrite lookup_empty. done.
Qed.
Lemma w_reaches : reaches IndexFunction w_world w_published.
Proof. eapply reaches_step; [apply reaches_refl|apply step_publish]. Qed.
Lemma w_run : run_moves IndexFunction w_published w_moves = Some w_rest.
Proof. vm_compute. reflexivity. Qed.

(** The stream breaks after that, and the client opens another. *)
Definition w_again : world := reconnect w_rest (CollectionOptionsFromSlice ["b"; "c"]) "peer" 2.

Lemma w_unused : unused (wcache w_rest) 2.
Proof.
  assert (map_Forall (λ _ info, map_Forall (λ _ rw, pushResponse rw ≠ 2) (watches info))
    (status (wcache w_rest))) as Hall by (apply (bool_decide_unpack _); vm_compute; exact I).
  intros g i rw. unfold open_watches. destruct (status (wcache w_rest) !! g) as [info|] eqn:E.
  - apply (Hall g info E).
  - by rewrite lookup_empty.
Qed.
Lemma w_reopened : reaches IndexFunction w_world w_again.
Proof.
  eapply reaches_step; [exact (run_moves_reaches IndexFunction _ _ _ _ w_reaches w_run)|].
  apply step_reconnect; [exact w_unused|]. intros k [st Hk].
  assert (map_Forall (λ k _, k ∈ ["b"; "c"]) (sinkState (client (wlink w_rest)))) as Hall
    by (apply (bool_decide_unpack _); vm_compute; exact I).
  exact (Hall k st Hk).
Qed.

Lemma exchange_sound_witness :
  ended (wlink w_again) = None ∧
  (length (vInitial (view_of IndexFunction w_again "c")) = 1 ∧
   objects (updater (client (wlink w_again))) !! "c" =
     Some [mkObject "type" "r" "1" (PGateway (mkGateway []))]) ∧
  size (vOpen (view_of IndexFunction w_rest "c")) = 1.
Proof.
  destruct (exchange_sound IndexFunction w_world w_again w_starts w_reopened) as (Hu & _ & _).
  split; [exact Hu|]. vm_compute. repeat split.
Defined.

Lemma exchange_terminates_witness : length w_moves ≤ 6 ∧ at_rest IndexFunction w_rest.
Proof.
  destruct (exchange_terminates IndexFunction w_world w_published w_starts w_reaches) as [Hb Hr].
  split; [exact (Hb _ _ w_run)|exact Hr].
Defined.

Lemma client_catches_up_witness :
  objects (updater (client (wlink w_rest))) !! "c" =
    Some [mkObject "type" "r" "1" (PGateway (mkGateway []))] ∧
  held IndexFunction (published w_rest) "c" "1" (objects (updater (client (wlink w_rest))) !! "c").
Proof.
  split; [vm_compute; reflexivity|].
  apply (client_catches_up IndexFunction w_world w_rest "c" w_shot w_starts
    (run_moves_reaches IndexFunction _ _ _ _ w_reaches w_run)).
  - intros []; vm_compute; reflexivity.
  - vm_compute. by eexists.
  - vm_compute. reflexivity.
Defined.
End witness.
