(* ===== verification/ServerConfig.v ===== *)
(** * Configuration ([config/config.go], [librarianconfig/config.go])

    Loading and saving the configurations of the two programs.  JSON, the CIDR
    parser, certificates and the file system are parameters; the validator's rules
    are the tags of the structs, written out. *)
From S2P Require Import Prelude Certs.

(** ** Data *)
Definition second : Z := 1000000000.  (* a [time.Duration] counts nanoseconds *)

Record BBSConfig := mkBBS {
  ServerCACertPath : string; ClientCertPath : string; ClientKeyPath : string;
  Address : string; ClientSessionCacheSize : Z; MaxIdleConnsPerHost : Z;
  Disable : bool; SyncInterval : Z;
}.

Definition DefaultBBSSyncInterval : Z := 60 * second.
Definition DefaultMCPConvergeInterval : Z := 30 * second.

Record Config := mkConfig {
  ListenAddressForCloudController : string;
  ListenAddressForVIPResolver : string;
  ListenAddressForMCP : string;
  PilotClientCAPath : string;
  CloudControllerClientCAPath : string;
  ServerCertPath : string;
  ServerKeyPath : string;
  PolicyServerDisabled : bool;
  PolicyServerAddress : string;
  PolicyServerClientCertPath : string;
  PolicyServerClientKeyPath : string;
  PolicyServerCAPath : string;
  VIPCIDR : string;
  MCPConvergeInterval : Z;
  LogLevel : string;
  BBS : option BBSConfig;
  TLSPems : gslice CertChainKeyPair;
}.

Definition ValidLogLevels : list string := ["debug"; "info"; "error"; "fatal"].

(** Files and JSON; a configuration whose strings are valid UTF-8 reads back as it
    was written. *)
Class ConfigFiles (C F : Type) := {
  ReadFile : F → string → string + string;
  WriteConfig : F → string → string → F * option string;
  json_Marshal : C → string + string;
  json_Unmarshal : string → string + C;
  read_written f p s : (WriteConfig f p s).2 = None → ReadFile (WriteConfig f p s).1 p = inr s;
  utf8 : C → Prop;
  json_roundtrip c s : utf8 c → json_Marshal c = inr s → json_Unmarshal s = inr c;
}.

(** [net.ParseCIDR]: the error, or the network. *)
Class CIDR (Net : Type) := ParseCIDR : string → string + Net.

(** [crypto/tls] and [crypto/x509]: the key pair of two PEM texts, the content of a
    file, and a pool of the certificates of a PEM text. *)
Class TLS (F K P : Type) := {
  X509KeyPair : string → string → string + K;
  ReadBytes : F → string → string + string;
  AppendCertsFromPEM : string → option P;
}.

(** The fields of a [tls.Config] that the program sets; a pool that is not set is nil. *)
Record TLSConfig (K P : Type) := mkTLSConfig {
  MinVersion : Z; PreferServerCipherSuites : bool; CipherSuites : list Z; ClientAuth : Z;
  Certificates : list K; ClientCAs : option P; RootCAs : option P;
}.
Arguments mkTLSConfig {K P}.
Arguments MinVersion {K P}.
Arguments PreferServerCipherSuites {K P}.
Arguments CipherSuites {K P}.
Arguments ClientAuth {K P}.
Arguments Certificates {K P}.
Arguments ClientCAs {K P}.
Arguments RootCAs {K P}.

(** The constants of [crypto/tls]. *)
Definition VersionTLS12 : Z := 0x0303.
Definition TLS_ECDHE_RSA_WITH_AES_256_GCM_SHA384 : Z := 0xc030.
Definition TLS_ECDHE_RSA_WITH_AES_128_GCM_SHA256 : Z := 0xc02f.
Definition NoClientCert : Z := 0.
Definition RequireAndVerifyClientCert : Z := 4.

(** What [Load] returns on failure. *)
Inductive load_error :=
| ReadError (err : string)
| ParseError (err : string)                     (* "parsing config: %s" *)
| LogLevelError (logLevel : string)             (* "invalid log level provided: %s" *)
| MissingBBS                                    (* "invalid config: missing required 'BBS' field" *)
| Invalid (errors : gmap string string).        (* "invalid config: %s" *)

(** ** Operations *)
Section config.
Context {F Net : Type} `{!ConfigFiles Config F} `{!CIDR Net}.

Definition Save (f : F) (c : Config) (path : string) : F * option string :=
  match json_Marshal c with
  | inl err => (f, Some err)
  | inr configBytes => WriteConfig f path configBytes
  end.

Definition GetVIPCIDR (c : Config) : string + Net := ParseCIDR (VIPCIDR c).

Definition validateLogLevel (logLevel : string) : option load_error :=
  if existsb (λ level, bool_decide (logLevel = level)) ValidLogLevels
  then None else Some (LogLevelError logLevel).

(** The registered [cidr] function, and the built-in [nonzero] on strings. *)
Definition validateCIDR (v : string) : option string :=
  match ParseCIDR v with inl err => Some err | inr _ => None end.
Definition nonzero (v : string) : option string :=
  if decide (v = "") then Some "zero value" else None.

(** The tags of the structs in field order: a field and what its tag reports. *)
Definition config_checks (c : Config) : list (string * option string) := [
  ("ListenAddressForCloudController", nonzero (ListenAddressForCloudController c));
  ("ListenAddressForVIPResolver", nonzero (ListenAddressForVIPResolver c));
  ("ListenAddressForMCP", nonzero (ListenAddressForMCP c));
  ("PilotClientCAPath", nonzero (PilotClientCAPath c));
  ("CloudControllerClientCAPath", nonzero (CloudControllerClientCAPath c));
  ("ServerCertPath", nonzero (ServerCertPath c));
  ("ServerKeyPath", nonzero (ServerKeyPath c));
  ("PolicyServerAddress", nonzero (PolicyServerAddress c));
  ("PolicyServerClientCertPath", nonzero (PolicyServerClientCertPath c));
  ("PolicyServerClientKeyPath", nonzero (PolicyServerClientKeyPath c));
  ("PolicyServerCAPath", nonzero (PolicyServerCAPath c));
  ("VIPCIDR", validateCIDR (VIPCIDR c))].
Definition bbs_checks (b : BBSConfig) : list (string * option string) := [
  ("BBS.ServerCACertPath", nonzero (ServerCACertPath b));
  ("BBS.ClientCertPath", nonzero (ClientCertPath b));
  ("BBS.ClientKeyPath", nonzero (ClientKeyPath b));
  ("BBS.Address", nonzero (Address b))].

(** [validator.Validate]: the errors by field name; a nil [BBS] is not visited. *)
Definition checks (c : Config) : list (string * option string) :=
  config_checks c ++ match BBS c with Some b => bbs_checks b | None => [] end.
Definition Validate (c : Config) : gmap string string :=
  list_to_map (omap (λ e, (λ err, (e.1, err)) <$> e.2) (checks c)).

Definition set_sync_interval (b : BBSConfig) (d : Z) : BBSConfig :=
  mkBBS (ServerCACertPath b) (ClientCertPath b) (ClientKeyPath b) (Address b)
    (ClientSessionCacheSize b) (MaxIdleConnsPerHost b) (Disable b) d.
Definition set_bbs_interval (c : Config) (b : option BBSConfig) (d : Z) : Config :=
  mkConfig (ListenAddressForCloudController c) (ListenAddressForVIPResolver c)
    (ListenAddressForMCP c) (PilotClientCAPath c) (CloudControllerClientCAPath c)
    (ServerCertPath c) (ServerKeyPath c) (PolicyServerDisabled c) (PolicyServerAddress c)
    (PolicyServerClientCertPath c) (PolicyServerClientKeyPath c) (PolicyServerCAPath c)
    (VIPCIDR c) d (LogLevel c) b (TLSPems c).

Definition Load (f : F) (path : string) : load_error + Config :=
  match ReadFile f path with
  | inl err => inl (ReadError err)
  | inr configBytes =>
      match json_Unmarshal configBytes with
      | inl err => inl (ParseError err)
      | inr c =>
          match validateLogLevel (LogLevel c) with
          | Some err => inl err
          | None =>
              match BBS c with
              | None => inl MissingBBS
              | Some b =>
                  let b := if decide (SyncInterval b = 0%Z)
                           then set_sync_interval b DefaultBBSSyncInterval else b in
                  let bbs := if Disable b then None else Some b in
                  let interval := if decide (MCPConvergeInterval c = 0%Z)
                                  then DefaultMCPConvergeInterval else MCPConvergeInterval c in
                  let c := set_bbs_interval c bbs interval in
                  let errors := Validate c in
                  if decide (errors = ∅) then inr c else inl (Invalid errors)
              end
          end
      end
  end.
End config.

(** The TLS configurations of the two servers, and of the policy server's client. *)
Section tls.
Context {F K P : Type} `{!TLS F K P}.

(** [tls.LoadX509KeyPair]. *)
Definition LoadX509KeyPair (f : F) (certFile keyFile : string) : string + K :=
  match ReadBytes f certFile with
  | inl err => inl err
  | inr certPEMBlock =>
      match ReadBytes f keyFile with
      | inl err => inl err
      | inr keyPEMBlock => X509KeyPair (F := F) (P := P) certPEMBlock keyPEMBlock
      end
  end.

Definition serverTLSConfigForClient (f : F) (c : Config) (clientName clientCAPath : string)
    : string + TLSConfig K P :=
  match LoadX509KeyPair f (ServerCertPath c) (ServerKeyPath c) with
  | inl err => inl ("parsing " +:+ clientName +:+ "-facing server cert/key: " +:+ err)
  | inr serverCert =>
      match ReadBytes f clientCAPath with
      | inl err => inl ("loading client CAs for " +:+ clientName +:+ "-facing server: " +:+ err)
      | inr clientCABytes =>
          match AppendCertsFromPEM (F := F) (K := K) clientCABytes with
          | None => inl ("parsing client CAs for " +:+ clientName +:+
                         "-facing server: invalid pem block")
          | Some clientCAs =>
              inr (mkTLSConfig VersionTLS12 true
                     [TLS_ECDHE_RSA_WITH_AES_256_GCM_SHA384; TLS_ECDHE_RSA_WITH_AES_128_GCM_SHA256]
                     RequireAndVerifyClientCert [serverCert] (Some clientCAs) None)
          end
      end
  end.
Definition ServerTLSConfigForPilot (f : F) (c : Config) : string + TLSConfig K P :=
  serverTLSConfigForClient f c "pilot" (PilotClientCAPath c).
Definition ServerTLSConfigForCloudController (f : F) (c : Config) : string + TLSConfig K P :=
  serverTLSConfigForClient f c "cloud controller" (CloudControllerClientCAPath c).

(** The vendored [mutualtls]. *)
Definition newTLSConfig (f : F) (certFile keyFile : string) : string + TLSConfig K P :=
  match LoadX509KeyPair f certFile keyFile with
  | inl err => inl ("unable to load cert or key: " +:+ err)
  | inr keyPair => inr (mkTLSConfig VersionTLS12 false [] NoClientCert [keyPair] None None)
  end.
Definition newCACertPool (f : F) (caCertFile : string) : string + P :=
  match ReadBytes f caCertFile with
  | inl err => inl ("failed read ca cert file: " +:+ err)
  | inr certBytes =>
      match AppendCertsFromPEM (F := F) (K := K) certBytes with
      | None => inl "Unable to load caCert"
      | Some caCertPool => inr caCertPool
      end
  end.
Definition with_roots (c : TLSConfig K P) (p : P) : TLSConfig K P :=
  mkTLSConfig (MinVersion c) (PreferServerCipherSuites c) (CipherSuites c) (ClientAuth c)
    (Certificates c) (ClientCAs c) (Some p).
Definition NewClientTLSConfig (f : F) (certFile keyFile caCertFile : string)
    : string + TLSConfig K P :=
  match newTLSConfig f certFile keyFile with
  | inl err => inl err
  | inr c =>
      match newCACertPool f caCertFile with
      | inl err => inl err
      | inr pool => inr (with_roots c pool)
      end
  end.
Definition ServerTLSConfigForPolicyServer (f : F) (c : Config) : string + TLSConfig K P :=
  NewClientTLSConfig f (PolicyServerClientCertPath c) (PolicyServerClientKeyPath c)
    (PolicyServerCAPath c).
End tls.

(** The librarian's configuration: its only fields have no tags. *)
Module Librarian.
Record Config := mkConfig { IstioCertRootPath : string; TLSPems : gslice CertChainKeyPair }.

Definition DefaultIstioCertRootPath : string := "/etc/istio".

Section config.
Context {F : Type} `{!ConfigFiles Config F}.

Definition Save (f : F) (c : Config) (path : string) : F * option string :=
  match json_Marshal c with
  | inl err => (f, Some err)
  | inr configBytes => WriteConfig f path configBytes
  end.

Definition Load (f : F) (path : string) : load_error + Config :=
  match ReadFile f path with
  | inl err => inl (ReadError err)
  | inr configBytes =>
      match json_Unmarshal configBytes with
      | inl err => inl (ParseError err)
      | inr c =>
          inr (if decide (IstioCertRootPath c = "")
               then mkConfig DefaultIstioCertRootPath (TLSPems c) else c)
      end
  end.

(** The librarian's [mainWithError]: load, then stow; the files and the error. *)
Definition mainWithError `{!X509} `{!FileSystem F} (f : F) (configFilePath : string)
    : F * option (load_error + string) :=
  match Load f configFilePath with
  | inl err => (f, Some (inl err))
  | inr cfg =>
      let librarian := NewLocator (IstioCertRootPath cfg) (elems (TLSPems cfg)) in
      let '(f, err) := Stow librarian f in
      (f, inr <$> err)
  end.
End config.
End Librarian.

(** ** Specification *)
(** The defaults [Load] fills in, and what it requires. *)
Definition with_defaults (c : Config) : Config :=
  set_bbs_interval c
    (b ← BBS c;
     if Disable b then None
     else Some (if decide (SyncInterval b = 0%Z) then set_sync_interval b DefaultBBSSyncInterval else b))
    (if decide (MCPConvergeInterval c = 0%Z) then DefaultMCPConvergeInterval else MCPConvergeInterval c).

Definition complete {Net} `{!CIDR Net} (c : Config) : Prop :=
  LogLevel c ∈ ValidLogLevels ∧ (∃ n, ParseCIDR (VIPCIDR c) = inr n) ∧
  Forall (λ s, s ≠ "") [ListenAddressForCloudController c; ListenAddressForVIPResolver c;
    ListenAddressForMCP c; PilotClientCAPath c; CloudControllerClientCAPath c; ServerCertPath c;
    ServerKeyPath c; PolicyServerAddress c; PolicyServerClientCertPath c;
    PolicyServerClientKeyPath c; PolicyServerCAPath c] ∧
  match BBS c with
  | None => False
  | Some b => Disable b = true ∨
      Forall (λ s, s ≠ "") [ServerCACertPath b; ClientCertPath b; ClientKeyPath b; Address b]
  end.

(** ** Lemmas *)
Section lemmas.
Context {F Net : Type} `{!ConfigFiles Config F} `{!CIDR Net}.

Lemma omap_nil {A B} (f : A → option B) (l : list A) : omap f l = [] ↔ Forall (λ x, f x = None) l.
Proof.
  induction l as [|x l IH]; simpl; [split; constructor|]. rewrite Forall_cons, <-IH.
  destruct (f x); naive_solver.
Qed.
Lemma nonzero_None s : nonzero s = None ↔ s ≠ "".
Proof. unfold nonzero. case_decide; naive_solver. Qed.
Lemma validateCIDR_None s : validateCIDR s = None ↔ ∃ n, ParseCIDR s = inr n.
Proof. unfold validateCIDR. destruct (ParseCIDR s); naive_solver. Qed.
Lemma validateLogLevel_None s : validateLogLevel s = None ↔ s ∈ ValidLogLevels.
Proof.
  unfold validateLogLevel. destruct (existsb _ _) eqn:E.
  - apply existsb_exists in E as (l & Hl & ->%bool_decide_eq_true). by rewrite list_elem_of_In.
  - split; [done|]. intros Hs. exfalso. apply not_true_iff_false in E. apply E, existsb_exists.
    exists s. rewrite <-list_elem_of_In. split; [done|]. by apply bool_decide_eq_true.
Qed.

Lemma Validate_empty c : Validate c = ∅ ↔ Forall (λ e, e.2 = None) (checks c).
Proof.
  unfold Validate. rewrite <-(omap_nil (λ e : string * option string, e.2)).
  transitivity (omap (λ e : string * option string, (λ err, (e.1, err)) <$> e.2) (checks c) = []).
  - split; [|by intros ->]. destruct (omap _ _) as [|[k v] l]; [done|]. intros E.
    apply (f_equal (.!! k)) in E. by rewrite list_to_map_cons, lookup_insert_eq, lookup_empty in E.
  - rewrite !omap_nil. apply Forall_iff. intros [k [e|]]; naive_solver.
Qed.

Lemma checks_complete c b :
  BBS c = Some b →
  (LogLevel c ∈ ValidLogLevels ∧ Validate (with_defaults c) = ∅) ↔ complete c.
Proof.
  intros Hb. unfold complete. rewrite Validate_empty. unfold checks. rewrite Forall_app.
  unfold with_defaults. rewrite Hb. simpl. unfold config_checks. rewrite !Forall_cons, Forall_nil. simpl.
  rewrite !nonzero_None, validateCIDR_None.
  destruct (Disable b) eqn:Hd; simpl.
  - rewrite Forall_nil. naive_solver.
  - unfold bbs_checks. rewrite !Forall_cons, !Forall_nil. case_decide; simpl; rewrite !nonzero_None; naive_solver.
Qed.

(** The defaults are filled in once, and spoil nothing. *)
Lemma defaults_shape c b :
  BBS c = Some b → Disable b = false →
  ∃ d i, d ≠ 0%Z ∧ i ≠ 0%Z ∧ with_defaults c = set_bbs_interval c (Some (set_sync_interval b d)) i.
Proof.
  intros Hb Hd. unfold with_defaults. rewrite Hb. simpl. rewrite Hd.
  eexists (if decide (SyncInterval b = 0%Z) then DefaultBBSSyncInterval else SyncInterval b), _.
  split; [by case_decide|]. split; [|f_equal; f_equal; case_decide; [done|by destruct b]].
  by case_decide.
Qed.
Lemma defaults_some c : BBS (with_defaults c) ≠ None → ∃ b, BBS c = Some b ∧ Disable b = false.
Proof.
  unfold with_defaults. simpl. destruct (BBS c) as [b|]; simpl; [|done].
  destruct (Disable b) eqn:Hd; [done|eauto].
Qed.
Lemma defaults_complete c : complete c → BBS (with_defaults c) ≠ None → complete (with_defaults c).
Proof.
  intros Hc (b & Hb & Hd)%defaults_some. destruct (defaults_shape c b Hb Hd) as (d & i & _ & _ & ->).
  unfold complete in *. rewrite Hb in Hc. exact Hc.
Qed.
Lemma defaults_idem c :
  BBS (with_defaults c) ≠ None → with_defaults (with_defaults c) = with_defaults c.
Proof.
  intros (b & Hb & Hd)%defaults_some. destruct (defaults_shape c b Hb Hd) as (d & i & Hnd & Hni & ->).
  unfold with_defaults. simpl. rewrite Hd. by rewrite !decide_False.
Qed.

(** [Load] after the file was read and parsed. *)
Lemma Load_parsed f path bytes c :
  ReadFile f path = inr bytes → json_Unmarshal bytes = inr c →
  (∀ c', Load f path = inr c' ↔ complete c ∧ c' = with_defaults c).
Proof.
  intros Hr Hu c'. unfold Load. rewrite Hr, Hu.
  pose proof (validateLogLevel_None (LogLevel c)) as Hl.
  destruct (validateLogLevel (LogLevel c)) as [err|].
  { split; [done|]. intros [[Hlv _] _]. by apply Hl in Hlv. }
  destruct (BBS c) as [b|] eqn:Hb; last first.
  { split; [done|]. unfold complete. rewrite Hb. tauto. }
  rewrite <-(checks_complete c b Hb).
  assert (with_defaults c = set_bbs_interval c
    (if Disable (if decide (SyncInterval b = 0%Z) then set_sync_interval b DefaultBBSSyncInterval else b)
     then None
     else Some (if decide (SyncInterval b = 0%Z) then set_sync_interval b DefaultBBSSyncInterval else b))
    (if decide (MCPConvergeInterval c = 0%Z) then DefaultMCPConvergeInterval
     else MCPConvergeInterval c)) as <-.
  { unfold with_defaults. rewrite Hb. simpl. by case_decide. }
  cbv zeta. case_decide as E; naive_solver.
Qed.
(** The whole of [Load], and the intervals of what it returns. *)
Lemma Load_iff f path c' :
  Load f path = inr c' ↔
  ∃ bytes c, ReadFile f path = inr bytes ∧ json_Unmarshal bytes = inr c ∧
    complete c ∧ c' = with_defaults c.
Proof.
  destruct (ReadFile f path) as [e|bytes] eqn:Hr.
  { unfold Load. rewrite Hr. split; [done|]. by intros (? & ? & ? & _). }
  destruct (json_Unmarshal bytes) as [e|c] eqn:Hu.
  { unfold Load. rewrite Hr, Hu. split; [done|]. intros (? & ? & [= <-] & E & _). congruence. }
  rewrite (Load_parsed f path bytes c Hr Hu c'). split.
  - intros [Hc ->]. by exists bytes, c.
  - intros (b' & c0 & [= <-] & E & Hc & ->). rewrite Hu in E. by injection E as <-.
Qed.
Lemma loaded_intervals f path c' :
  Load f path = inr c' →
  MCPConvergeInterval c' ≠ 0%Z ∧
  match BBS c' with Some b => SyncInterval b ≠ 0%Z ∧ Disable b = false | None => True end.
Proof.
  intros (bytes & c & _ & _ & _ & ->)%Load_iff.
  unfold with_defaults. simpl. split; [by case_decide|].
  destruct (BBS c) as [b|]; simpl; [|done]. destruct (Disable b) eqn:Hd; simpl; [done|].
  by case_decide.
Qed.
End lemmas.

(** ** Properties *)

(** C39. [Load] succeeds exactly on a readable, parsable and complete configuration
    (a known log level, a CIDR that parses, every tagged field set, and BBS present
    and either disabled or complete), and returns it with the defaults filled in,
    without the BBS part if that is disabled; both intervals are then non-zero. *)
Theorem Load_correct {F Net : Type} `{!ConfigFiles Config F} `{!CIDR Net} (f : F) (path : string)
    (c' : Config) :
  (Load f path = inr c' ↔
   ∃ bytes c, ReadFile f path = inr bytes ∧ json_Unmarshal bytes = inr c ∧
     complete c ∧ c' = with_defaults c) ∧
  (Load f path = inr c' →
   MCPConvergeInterval c' ≠ 0%Z ∧
   match BBS c' with Some b => SyncInterval b ≠ 0%Z ∧ Disable b = false | None => True end).
Proof.
  split; [apply Load_iff|apply loaded_intervals].
Qed.

(** A complete configuration survives saving and loading: what [Load] returns
    is the saved configuration with the defaults filled in, and loading what was
    loaded and saved again returns the same as long as BBS is not disabled. *)
Theorem Save_then_Load {F Net : Type} `{!ConfigFiles Config F} `{!CIDR Net} (f f' : F)
    (path : string) (c : Config) (Hc : complete c) (Hu : utf8 c)
    (Hs : Save f c path = (f', None)) :
  Load f' path = inr (with_defaults c) ∧
  (BBS (with_defaults c) ≠ None → complete (with_defaults c) ∧
     with_defaults (with_defaults c) = with_defaults c).
Proof.
  unfold Save in Hs. destruct (json_Marshal c) as [e|bytes] eqn:Hm; [done|]. split.
  - assert (f' = (WriteConfig f path bytes).1) as -> by by rewrite Hs.
    apply (Load_parsed _ path bytes c); [|by apply json_roundtrip|done].
    apply read_written. by rewrite Hs.
  - intros Hb. split; [by apply defaults_complete|by apply defaults_idem].
Qed.

(** Files as a map, and JSON for one configuration. *)
Definition w_config : Config :=
  mkConfig "127.0.0.1:9000" "127.0.0.1:9002" "127.0.0.1:9001" "pilot-ca" "cc-ca" "crt" "key" false
    "policy:4003" "pcrt" "pkey" "pca" "127.128.0.0/9" 0 "info"
    (Some (mkBBS "ca" "crt" "key" "bbs:8889" 0 0 false 0)) Nil.

Global Instance pair_eq_dec : EqDecision CertChainKeyPair.
Proof. solve_decision. Defined.
Global Instance bbs_eq_dec : EqDecision BBSConfig.
Proof. solve_decision. Defined.
Global Instance config_eq_dec : EqDecision Config.
Proof. solve_decision. Defined.

Definition w_files : ConfigFiles Config (gmap string string).
Proof.
  refine {|
    ReadFile f p := match f !! p with Some s => inr s | None => inl "no such file" end;
    WriteConfig f p s := (<[p := s]> f, None);
    json_Marshal c := if decide (c = w_config) then inr "{}" else inl "unsupported";
    json_Unmarshal s := if decide (s = "{}") then inr w_config else inl "unexpected";
    utf8 c := True |}.
  - intros f p s _. simpl. by rewrite lookup_insert_eq.
  - intros c s _ E. by case_decide; simplify_eq.
Defined.
Definition w_cidr : CIDR string := inr.

Lemma Load_correct_witness :
  match @Load _ _ w_files w_cidr {["p" := "{}"]} "p" with
  | inr c => MCPConvergeInterval c ≠ 0%Z | inl _ => False end.
Proof.
  destruct (@Load _ _ w_files w_cidr {["p" := "{}"]} "p") as [e|c] eqn:E.
  - vm_compute in E. discriminate.
  - apply (@Load_correct _ _ w_files w_cidr {["p" := "{}"]} "p" c). exact E.
Defined.

Lemma Save_then_Load_witness :
  @Load _ _ w_files w_cidr (@Save _ w_files ∅ w_config "p").1 "p" = inr (with_defaults w_config).
Proof.
  apply (@Save_then_Load _ _ w_files w_cidr ∅ _ "p" w_config).
  - unfold complete. split; [by apply (bool_decide_unpack _)|]. split; [by eexists|].
    split; [|right]; repeat constructor; discriminate.
  - exact I.
  - reflexivity.
Defined.
