(* ===== verification/Tls.v ===== *)
(** * TLS handshakes ([crypto/tls], as [config/config.go] configures it)

    Which client gets through to which server: the handshake of two configurations as
    far as it depends on the fields that the program sets.  Checking a certificate
    against a pool is [crypto/x509]'s, a parameter. *)
From S2P Require Import Prelude GoStrings ServerConfig.

(** [x509.Certificate.Verify] of the leaf of a key pair: for a client, and for a server
    of some name; the system's pool, and the suites used when none are given. *)
Class X509Verify (K P : Type) := {
  verifies_client : K → P → bool;
  verifies_server : K → P → string → bool;
  SystemRoots : P;
  defaultCipherSuites : list Z;
}.

(** The highest version of [crypto/tls]. *)
Definition maxVersion : Z := 0x0304.

Section handshake.
Context {K P : Type} `{!X509Verify K P}.

Definition cipherSuites (c : TLSConfig K P) : list Z :=
  match CipherSuites c with [] => defaultCipherSuites | suites => suites end.

Definition supports_versions (c : TLSConfig K P) : bool := bool_decide (MinVersion c ≤ maxVersion)%Z.

Definition mutual_suite (client server : TLSConfig K P) : bool :=
  existsb (λ suite, bool_decide (suite ∈ cipherSuites client)) (cipherSuites server).

(** The client checks the server's certificate. *)
Definition server_verified (client server : TLSConfig K P) (ServerName : string) : bool :=
  match Certificates server with
  | [] => false
  | cert :: _ => verifies_server cert (default SystemRoots (RootCAs client)) ServerName
  end.

(** The server checks the client's, as its [ClientAuth] says. *)
Definition client_verified (client server : TLSConfig K P) : bool :=
  let verifies cert := verifies_client cert (default SystemRoots (ClientCAs server)) in
  match ClientAuth server, Certificates client with
  | 0%Z, _ | 1%Z, _ => true                         (* NoClientCert, RequestClientCert *)
  | 2%Z, certs => negb (length certs =? 0)%nat      (* RequireAnyClientCert *)
  | 3%Z, [] => true                                 (* VerifyClientCertIfGiven *)
  | _, [] => false
  | _, cert :: _ => verifies cert
  end.

Definition handshake (client server : TLSConfig K P) (ServerName : string) : bool :=
  supports_versions client && supports_versions server && mutual_suite client server &&
  server_verified client server ServerName && client_verified client server.

(** ** Lemmas *)
(** The two suites of the servers. *)
Definition offered : list Z :=
  [TLS_ECDHE_RSA_WITH_AES_256_GCM_SHA384; TLS_ECDHE_RSA_WITH_AES_128_GCM_SHA256].

Lemma client_verified_required (client server : TLSConfig K P) pool :
  ClientAuth server = RequireAndVerifyClientCert → ClientCAs server = Some pool →
  client_verified client server = true ↔
  ∃ cert certs, Certificates client = cert :: certs ∧ verifies_client cert pool = true.
Proof.
  intros Ha Hc. unfold client_verified. rewrite Ha, Hc. simpl.
  destruct (Certificates client); naive_solver.
Qed.

Lemma handshake_server (client server : TLSConfig K P) pool cert name :
  MinVersion server = VersionTLS12 → ClientAuth server = RequireAndVerifyClientCert →
  ClientCAs server = Some pool → Certificates server = [cert] →
  handshake client server name = true ↔
  (MinVersion client ≤ maxVersion)%Z ∧ mutual_suite client server = true ∧
  verifies_server cert (default SystemRoots (RootCAs client)) name = true ∧
  ∃ c cs, Certificates client = c :: cs ∧ verifies_client c pool = true.
Proof.
  intros Hv Ha Hc Hs. unfold handshake. rewrite !andb_true_iff, (client_verified_required _ _ pool Ha Hc).
  unfold server_verified, supports_versions. rewrite Hs, !bool_decide_eq_true, Hv.
  split; [tauto|]. intros (?&?&?&?). split_and!; done.
Qed.
End handshake.

(** What a server's configuration is made of. *)
Lemma serverTLSConfigForClient_spec {F K P} `{!TLS F K P} (f : F) c name path (cfg : TLSConfig K P) :
  serverTLSConfigForClient f c name path = inr cfg ↔
  ∃ cert bytes pool, LoadX509KeyPair (P := P) f (ServerCertPath c) (ServerKeyPath c) = inr cert ∧
    ReadBytes (K := K) (P := P) f path = inr bytes ∧
    AppendCertsFromPEM (F := F) (K := K) bytes = Some pool ∧
    cfg = mkTLSConfig VersionTLS12 true offered RequireAndVerifyClientCert [cert] (Some pool) None.
Proof.
  unfold serverTLSConfigForClient.
  destruct (LoadX509KeyPair f _ _) as [|cert]; [naive_solver|].
  destruct (ReadBytes f path) as [|bytes]; [naive_solver|].
  destruct (AppendCertsFromPEM bytes) as [pool|] eqn:Ha.
  - split; [intros [= <-]; eauto 10|]. intros (? & ? & ? & [= <-] & [= <-] & Hp & ->). rewrite Ha in Hp. by simplify_eq.
  - split; [done|]. intros (? & ? & ? & _ & [= <-] & Hp & _). congruence.
Qed.

Section admission.
Context {F K P : Type} `{!TLS F K P} `{!X509Verify K P}.

(** A client with a certificate that the pool of a file vouches for. *)
Definition certified (f : F) (path : string) (client : TLSConfig K P) : Prop :=
  ∃ bytes pool cert certs, ReadBytes (K := K) (P := P) f path = inr bytes ∧
    AppendCertsFromPEM (F := F) (K := K) bytes = Some pool ∧
    Certificates client = cert :: certs ∧ verifies_client cert pool = true.

(** Who is admitted by the servers of the program: exactly the certified clients that
    share a suite and trust the server's certificate. *)
Lemma admission f c name path cfg client host :
  serverTLSConfigForClient f c name path = inr cfg →
  ∃ cert, LoadX509KeyPair (P := P) f (ServerCertPath c) (ServerKeyPath c) = inr cert ∧
    (handshake client cfg host = true ↔
     (MinVersion client ≤ maxVersion)%Z ∧ mutual_suite client cfg = true ∧
     verifies_server cert (default SystemRoots (RootCAs client)) host = true ∧
     certified f path client).
Proof.
  intros (cert & bytes & pool & Hk & Hr & Ha & ->)%serverTLSConfigForClient_spec.
  exists cert. split; [done|]. rewrite (handshake_server _ _ pool cert) by done.
  unfold certified. rewrite Hr. naive_solver.
Qed.
End admission.
