(* ===== verification/Grpc.v ===== *)
(** * The gRPC transport ([vendor/google.golang.org/grpc])

    What a call goes through between a client's stub and the server's dispatch: dialling
    with its options, the connection and its end, the frames that messages travel in with
    their flag and length, compression, the limits on the size of messages, the errors
    with their codes, and the client stream of the bulk sync.  What
    is below, finding and reaching the server, is a parameter, as are the compressors;
    interceptors, deadlines, keep-alive and retries are not used by the program.  The
    server reads a client stream when the client has closed it, so a [Send] never
    learns that the server gave up before. *)
From Stdlib Require Import Ascii.
From S2P Require Import Prelude GoStrings Routes RouteMappings Associations Api Handlers Wire.
From S2P Require Import BulkStream ServerConfig Tls.

(** ** Codes and errors ([codes], [status]) *)
Definition Canceled : Z := 1.
Definition Unknown : Z := 2.
Definition InvalidArgumentCode : Z := 3.
Definition ResourceExhausted : Z := 8.
Definition Unimplemented : Z := 12.
Definition Internal : Z := 13.
Definition Unavailable : Z := 14.

Definition code_names : list string := ["OK"; "Canceled"; "Unknown"; "InvalidArgument";
  "DeadlineExceeded"; "NotFound"; "AlreadyExists"; "PermissionDenied"; "ResourceExhausted";
  "FailedPrecondition"; "Aborted"; "OutOfRange"; "Unimplemented"; "Internal"; "Unavailable";
  "DataLoss"; "Unauthenticated"].
Definition code_string (code : Z) : string :=
  match code_names !! Z.to_nat code with
  | Some name => name
  | None => "Code(" +:+ Itoa code +:+ ")"
  end.

(** What a handler's error is for the client: other errors become [Unknown]. *)
Definition status_error (err : error) : error :=
  match err with
  | InvalidArgument msg => StatusError InvalidArgumentCode msg
  | PlainError msg => StatusError Unknown msg
  | StatusError code msg => StatusError code msg
  end.

(** [err.Error()]. *)
Definition error_string (err : error) : string :=
  match err with
  | PlainError msg => msg
  | InvalidArgument msg => "rpc error: code = InvalidArgument desc = " +:+ msg
  | StatusError code msg => "rpc error: code = " +:+ code_string code +:+ " desc = " +:+ msg
  end.

Definition ErrClientConnClosing : error :=
  StatusError Canceled "grpc: the client connection is closing".

(** [status.FromError]: whether an error has a status. *)
Definition has_status (err : error) : bool := match err with PlainError _ => false | _ => true end.

(** What reading ends with is [io.EOF], or another error; when it ends within a message,
    it is [io.ErrUnexpectedEOF]. *)
Definition ErrUnexpectedEOF : error := PlainError "unexpected EOF".
Definition toRPCErr (err : recv_error) : recv_error :=
  match err with
  | EOF => EOF
  | RecvErr err => RecvErr (if decide (err = ErrUnexpectedEOF) then StatusError Internal "unexpected EOF"
                            else status_error err)
  end.

(** ** Messages on the wire *)
(** [encoding.Compressor] by name: [Decompress] gives the bytes that its reader yields,
    and the error, if any, that comes after them. *)
Class Compressors := {
  Compress : string → list Byte.byte → string + list Byte.byte;
  Decompress : string → list Byte.byte → list Byte.byte * option string;
  compress_roundtrip name bs z : Compress name bs = inr z → Decompress name z = (bs, None);
}.

Definition defaultMaxReceiveMessageSize : Z := 1024 * 1024 * 4.
Definition defaultMaxSendMessageSize : Z := 2 ^ 31 - 1.
Definition MaxUint32 : Z := 2 ^ 32 - 1.

Definition sizes (size max : Z) : string := " (" +:+ Itoa size +:+ " vs. " +:+ Itoa max +:+ ")".
Definition bytes_len (bs : list Byte.byte) : Z := Z.of_nat (length bs).

(** Whether an encoding is one: [""] and [encoding.Identity] are not. *)
Definition compresses (enc : string) : bool := negb (bool_decide (enc = "" ∨ enc = "identity")).

(** [binary.BigEndian]. *)
Definition byte_of (z : Z) : Byte.byte := default Byte.x00 (Byte.of_N (Z.to_N (Z.land z 255))).
Definition byte_val (b : Byte.byte) : Z := Z.of_N (Byte.to_N b).
Definition PutUint32 (v : Z) : list Byte.byte :=
  [byte_of (Z.shiftr v 24); byte_of (Z.shiftr v 16); byte_of (Z.shiftr v 8); byte_of v].
Definition Uint32 (b : list Byte.byte) : Z :=
  foldl (λ v x, Z.lor (Z.shiftl v 8) (byte_val x)) 0%Z b.

(** A frame: a flag, the length of the payload in four bytes, the payload. *)
Definition compressionNone : Z := 0.
Definition compressionMade : Z := 1.
Definition headerLen : nat := 5.
Definition maxInt : Z := 2 ^ 63 - 1.

(** [msgHeader]: the header and the payload. *)
Definition msgHeader (data : list Byte.byte) (compData : option (list Byte.byte))
    : list Byte.byte * list Byte.byte :=
  match compData with
  | Some data => (byte_of compressionMade :: PutUint32 (bytes_len data), data)
  | None => (byte_of compressionNone :: PutUint32 (bytes_len data), data)
  end.

(** [io.ReadFull] over the bytes of a stream that are still to come and what comes after
    them; like all reading below it leaves what it has not read. *)
Definition ReadFull (n : nat) (ending : recv_error) (bs : list Byte.byte)
    : list Byte.byte * (recv_error + list Byte.byte) :=
  if decide (n ≤ length bs) then (drop n bs, inr (take n bs))
  else ([], inl (match bs, ending with _ :: _, EOF => RecvErr ErrUnexpectedEOF | _, _ => ending end)).

Definition too_large (size max : Z) : error :=
  StatusError ResourceExhausted ("grpc: received message larger than max" +:+ sizes size max).

(** [parser.recvMsg]: the payload's format and the payload. *)
Definition recvMsg (ending : recv_error) (max : Z) (bs : list Byte.byte)
    : list Byte.byte * (recv_error + Z * list Byte.byte) :=
  match ReadFull headerLen ending bs with
  | (bs, inr (flag :: size)) =>
      let pf := byte_val flag in
      let length := Uint32 size in
      if decide (length = 0)%Z then (bs, inr (pf, []))
      else if decide (maxInt < length)%Z
      then (bs, inl (RecvErr (StatusError ResourceExhausted
              ("grpc: received message larger than max length allowed on current machine" +:+
               sizes length maxInt))))
      else if decide (max < length)%Z then (bs, inl (RecvErr (too_large length max)))
      else match ReadFull (Z.to_nat length) ending bs with
           | (bs, inl EOF) => (bs, inl (RecvErr ErrUnexpectedEOF))
           | (bs, inl err) => (bs, inl err)
           | (bs, inr msg) => (bs, inr (pf, msg))
           end
  | (bs, inr []) => (bs, inl ending)  (* the header has its five bytes *)
  | (bs, inl err) => (bs, inl err)
  end.

Section bytes.
Context `{Compressors} `{GoQuote}.

(** [encode], on what the codec gave. *)
Definition marshal (encoded : error + list Byte.byte) : error + list Byte.byte :=
  match encoded with
  | inl err => inl (StatusError Internal ("grpc: error while marshaling: " +:+ error_string err))
  | inr b =>
      if decide (MaxUint32 < bytes_len b)%Z
      then inl (StatusError ResourceExhausted
                  ("grpc: message too large (" +:+ Itoa (bytes_len b) +:+ " bytes)"))
      else inr b
  end.

(** [compress]: without a compressor, and for an empty buffer, whose bytes are nil, there
    is no compressed payload. *)
Definition compress (enc : string) (data : list Byte.byte) : error + option (list Byte.byte) :=
  if compresses enc then
    match Compress enc data with
    | inl err => inl (StatusError Internal ("grpc: error while compressing: " +:+ err))
    | inr [] => inr None
    | inr z => inr (Some z)
    end
  else inr None.

(** [prepareMsg] after the encoding, and the check of the payload's size: the frame that
    is written; [who] begins the message of a server's unary response. *)
Definition send_payload (who enc : string) (max : Z) (data : list Byte.byte)
    : error + list Byte.byte :=
  match compress enc data with
  | inl err => inl err
  | inr compData =>
      let '(hdr, payload) := msgHeader data compData in
      if decide (max < bytes_len payload)%Z
      then inl (StatusError ResourceExhausted
                  (who +:+ "trying to send message larger than max" +:+ sizes (bytes_len payload) max))
      else inr (hdr ++ payload)
  end.
Definition send_encoded (who enc : string) (max : Z) (encoded : error + list Byte.byte)
    : error + list Byte.byte :=
  match marshal encoded with inl err => inl err | inr data => send_payload who enc max data end.

(** [checkRecvPayload]. *)
Definition not_installed (enc : string) : error :=
  StatusError Unimplemented ("grpc: Decompressor is not installed for grpc-encoding " +:+ Quote enc).
Definition checkRecvPayload (pf : Z) (recvCompress : string) (haveCompressor : bool) : option error :=
  if decide (pf = compressionNone) then None
  else if decide (pf = compressionMade) then
    if negb (compresses recvCompress)
    then Some (StatusError Internal "grpc: compressed flag set with identity or empty encoding")
    else if negb haveCompressor then Some (not_installed recvCompress) else None
  else Some (StatusError Internal ("grpc: received unexpected payload format " +:+ Itoa pf)).

(** Reading what a decompressor yields, through a limit of one byte more than allowed. *)
Definition decompress (enc : string) (max : Z) (d : list Byte.byte) : error + list Byte.byte :=
  let '(out, err) := Decompress enc d in
  if decide (max < bytes_len out)%Z then inr (take (Z.to_nat (max + 1)) out)
  else match err with
       | Some err =>
           inl (StatusError Internal ("grpc: failed to decompress the received message " +:+ err))
       | None => inr out
       end.

(** [recvAndDecompress], with the compressors [installed] in the receiving program: the
    next message of a stream. *)
Definition recvAndDecompress (installed : list string) (enc : string) (max : Z)
    (ending : recv_error) (bs : list Byte.byte) : list Byte.byte * (recv_error + list Byte.byte) :=
  match recvMsg ending max bs with
  | (bs, inl err) => (bs, inl err)
  | (bs, inr (pf, d)) =>
      (bs, match checkRecvPayload pf enc (bool_decide (enc ∈ installed)) with
           | Some err => inl (RecvErr err)
           | None =>
               match (if decide (pf = compressionMade) then decompress enc max d else inr d) with
               | inl err => inl (RecvErr err)
               | inr d =>
                   if decide (max < bytes_len d)%Z then inl (RecvErr (too_large (bytes_len d) max))
                   else inr d
               end
           end)
  end.

(** [recv], with the codec's decoder. *)
Definition recv_decoded {A} (installed : list string) (enc : string) (max : Z)
    (decoder : list Byte.byte → error + A) (ending : recv_error) (bs : list Byte.byte)
    : list Byte.byte * (recv_error + A) :=
  let '(bs, d) := recvAndDecompress installed enc max ending bs in
  (bs, match d with
       | inl err => inl err
       | inr d =>
           match decoder d with
           | inl err => inl (RecvErr
               (StatusError Internal ("grpc: failed to unmarshal the received message " +:+ error_string err)))
           | inr m => inr m
           end
       end).

(** [csAttempt.recvMsg] of a client whose server sends one message: it reads the message,
    and that there is no other.  Its server ends the stream with the status [OK]. *)
Definition recv_reply {A} (installed : list string) (enc : string) (max : Z)
    (decoder : list Byte.byte → error + A) (bs : list Byte.byte) : error + A :=
  let failed (err : recv_error) :=
    match toRPCErr err with EOF => PlainError "EOF" | RecvErr err => err end in
  match recv_decoded installed enc max decoder EOF bs with
  | (_, inl err) => inl (failed err)
  | (bs, inr m) =>
      match recv_decoded installed enc max decoder EOF bs with
      | (_, inl EOF) => inr m
      | (_, inl err) => inl (failed err)
      | (_, inr _) =>
          inl (StatusError Unknown "grpc: client streaming protocol violation: get <nil>, want <EOF>")
      end
  end.
End bytes.

(** The messages of the program's own services. *)
Section wire.
Context `{Codec} `{Compressors} `{GoQuote}.

Definition send_msg (who enc : string) (max : Z) (t : mtype) (m : msg t) : error + list Byte.byte :=
  send_encoded who enc max (encode t m).
Definition recv_msg (installed : list string) (enc : string) (max : Z) (t : mtype)
    (ending : recv_error) (bs : list Byte.byte) : list Byte.byte * (recv_error + msg t) :=
  recv_decoded installed enc max (decode t) ending bs.
End wire.

(** ** Dialling ([clientconn.go]) *)
(** What a call is made with ([callInfo]). *)
Record callInfo := mkCallInfo {
  compressorType : string; maxReceiveMessageSize : Z; maxSendMessageSize : Z;
}.
Definition defaultCallInfo : callInfo :=
  mkCallInfo "" defaultMaxReceiveMessageSize defaultMaxSendMessageSize.
Definition CallOption : Type := callInfo → callInfo.
Definition UseCompressor (name : string) : CallOption :=
  λ c, mkCallInfo name (maxReceiveMessageSize c) (maxSendMessageSize c).

Section dial.
Context {K P : Type}.

(** [PerRPCCredentials] says of each whether it requires transport security. *)
Record dialOptions := mkDialOptions {
  insecure : bool;
  TransportCredentials : option (TLSConfig K P);
  CredsBundle : bool;
  PerRPCCredentials : list bool;
  callOptions : list CallOption;
  block : bool;
  timeout : Z;
}.
Definition defaultDialOptions : dialOptions := mkDialOptions false None false [] [] false 0.
Definition DialOption : Type := dialOptions → dialOptions.
Definition WithTransportCredentials (creds : TLSConfig K P) : DialOption := λ o,
  mkDialOptions (insecure o) (Some creds) (CredsBundle o) (PerRPCCredentials o) (callOptions o)
    (block o) (timeout o).
Definition WithInsecure : DialOption := λ o,
  mkDialOptions true (TransportCredentials o) (CredsBundle o) (PerRPCCredentials o) (callOptions o)
    (block o) (timeout o).
Definition WithDefaultCallOptions (cos : list CallOption) : DialOption := λ o,
  mkDialOptions (insecure o) (TransportCredentials o) (CredsBundle o) (PerRPCCredentials o)
    (callOptions o ++ cos) (block o) (timeout o).
Definition WithBlock : DialOption := λ o,
  mkDialOptions (insecure o) (TransportCredentials o) (CredsBundle o) (PerRPCCredentials o)
    (callOptions o) true (timeout o).
Definition WithTimeout (d : Z) : DialOption := λ o,
  mkDialOptions (insecure o) (TransportCredentials o) (CredsBundle o) (PerRPCCredentials o)
    (callOptions o) (block o) d.

Record ClientConn := mkClientConn { target : string; dopts : dialOptions; is_open : bool }.

Definition errNoTransportSecurity : string :=
  "grpc: no transport security set (use grpc.WithInsecure() explicitly or set credentials)".
Definition errTransportCredsAndBundle : string :=
  "grpc: credentials.Bundle may not be used with individual TransportCredentials".
Definition errTransportCredentialsMissing : string :=
  "grpc: the credentials require transport level security (use grpc.WithTransportCredentials() to set)".
Definition errCredentialsConflict : string :=
  "grpc: transport credentials are set for an insecure connection (grpc.WithTransportCredentials() and grpc.WithInsecure() are both called)".

(** The checks of [DialContext]. *)
Definition check_credentials (o : dialOptions) : option string :=
  if negb (insecure o) then
    match TransportCredentials o, CredsBundle o with
    | None, false => Some errNoTransportSecurity
    | Some _, true => Some errTransportCredsAndBundle
    | _, _ => None
    end
  else
    match TransportCredentials o, CredsBundle o with
    | None, false =>
        if existsb id (PerRPCCredentials o) then Some errTransportCredentialsMissing else None
    | _, _ => Some errCredentialsConflict
    end.

(** What resolves a target to an endpoint, or fails to be built; and why an endpoint
    cannot be reached, if it cannot. *)
Class Network := { resolve : string → string + string; unreachable : string → option string }.

(** [Dial], for options that do not make it wait for the connection. *)
Definition Dial `{Network} (target : string) (opts : list DialOption) : string + ClientConn :=
  let o := foldl (λ o opt, opt o) defaultDialOptions opts in
  match check_credentials o with
  | Some err => inl err
  | None =>
      match resolve target with
      | inl err => inl err
      | inr _ => inr (mkClientConn target o true)
      end
  end.

Definition Close (cc : ClientConn) : ClientConn * option error :=
  if is_open cc then (mkClientConn (target cc) (dopts cc) false, None)
  else (cc, Some ErrClientConnClosing).

Definition call_info (cc : ClientConn) : callInfo :=
  foldl (λ c o, o c) defaultCallInfo (callOptions (dopts cc)).
End dial.
Arguments dialOptions : clear implicits.
Arguments ClientConn : clear implicits.
Arguments DialOption : clear implicits.

(** ** A server, and the way to it *)
(** [installed] are the compressors that the server's program registers. *)
Record server (K P S : Type) := mkServer {
  listenAddr : string; creds : option (TLSConfig K P); installed : list string;
  service : string; methods : list (MethodDesc S); state : S;
}.
Arguments mkServer {K P S}.
Arguments listenAddr {K P S}.
Arguments creds {K P S}.
Arguments installed {K P S}.
Arguments service {K P S}.
Arguments methods {K P S}.
Arguments state {K P S}.

Section calls.
Context {K P S : Type} `{!X509Verify K P} `{Codec} `{Compressors} `{GoQuote} `{Network}.

Definition with_state (s : server K P S) (st : S) : server K P S :=
  mkServer (listenAddr s) (creds s) (installed s) (service s) (methods s) st.

(** The name a TLS client asks for ([tlsCreds.ClientHandshake]). *)
Definition server_name (authority : string) : string :=
  match rsplit ":"%char authority with Some (host, _) => host | None => authority end.

(** Whether both ends agree on how the connection is secured. *)
Definition secured (cc : ClientConn K P) (s : server K P S) (endpoint : string) : bool :=
  match TransportCredentials (dopts cc), creds s with
  | Some client, Some server => handshake client server (server_name endpoint)
  | None, None => true
  | _, _ => false
  end.

(** Whether a connection gets to a server at all. *)
Definition ready (cc : ClientConn K P) (s : server K P S) : bool :=
  match resolve (target cc) with
  | inl _ => false
  | inr endpoint =>
      match unreachable endpoint with
      | Some _ => false
      | None => bool_decide (endpoint = listenAddr s) && secured cc s endpoint
      end
  end.

(** [DialContext] on a background context: with [WithBlock] it waits for the connection,
    as long as the timeout allows, or for ever ([None]). *)
Definition DeadlineExceeded : string := "context deadline exceeded".
Definition DialContext (s : server K P S) (target : string) (opts : list (DialOption K P))
    : option (string + ClientConn K P) :=
  match Dial target opts with
  | inl err => Some (inl err)
  | inr cc =>
      if negb (block (dopts cc)) || ready cc s then Some (inr cc)
      else if decide (0 < timeout (dopts cc))%Z then Some (inl DeadlineExceeded) else None
  end.

(** [newClientStream]: why a call does not get to the server, if it does not. *)
Definition no_transport (why : string) : error :=
  StatusError Unavailable ("all SubConns are in TransientFailure, latest connection error: " +:+ why).
Definition newClientStream (registered : list string) (cc : ClientConn K P) (s : server K P S)
    : option error :=
  let enc := compressorType (call_info cc) in
  if negb (is_open cc) then Some ErrClientConnClosing
  else if compresses enc && bool_decide (enc ∉ registered)
  then Some (StatusError Internal
               ("grpc: Compressor is not installed for requested grpc-encoding " +:+ Quote enc))
  else match resolve (target cc) with
       | inl err => Some (no_transport err)
       | inr endpoint =>
           match unreachable endpoint with
           | Some why => Some (no_transport why)
           | None =>
               if decide (endpoint = listenAddr s) then
                 if secured cc s endpoint then None
                 else Some (no_transport "authentication handshake failed")
               else Some (no_transport "connection refused")
           end
       end.

(** ** Unary calls *)
(** [handleStream]: the slash before a service's name may be missing; and what it answers
    on a method that the server does not have. *)
Definition trim_slash (fullMethod : string) : string :=
  match fullMethod with String "/"%char sm => sm | sm => sm end.
Definition unknown_method (s : server K P S) (fullMethod : string) : error :=
  match rsplit "/"%char (trim_slash fullMethod) with
  | None => StatusError ResourceExhausted ("malformed method name: " +:+ Quote fullMethod)
  | Some (srv, m) =>
      if decide (srv = service s)
      then StatusError Unimplemented ("unknown method " +:+ m +:+ " for service " +:+ srv)
      else StatusError Unimplemented ("unknown service " +:+ srv)
  end.

(** [processUnaryRPC]: it reads one message of the stream, and the reply is compressed
    like it.  A stream that ends before, or within, its message is not answered. *)
Definition processUnaryRPC (s : server K P S) (fullMethod enc : string) (ending : recv_error)
    (bs : list Byte.byte) : outcome (server K P S * option (error + list Byte.byte)) :=
  match find_method (service s) (methods s) ("/" +:+ trim_slash fullMethod) with
  | None => Ret (s, Some (inl (unknown_method s fullMethod)))
  | Some d =>
      if compresses enc && bool_decide (enc ∉ installed s) then Ret (s, Some (inl (not_installed enc)))
      else
        match (recvAndDecompress (installed s) enc defaultMaxReceiveMessageSize ending bs).2 with
        | inl EOF => Ret (s, None)
        | inl (RecvErr err) => Ret (s, if has_status err then Some (inl (status_error err)) else None)
        | inr bytes =>
            match decode (t_in d) bytes with
            | inl err =>
                Ret (s, Some (inl (StatusError Internal
                               ("grpc: error unmarshalling request: " +:+ error_string err))))
            | inr _ =>
                r ← Handler (service s) d None (state s) bytes;
                let '(st, out) := r in
                Ret (with_state s st, Some
                     match out with
                     | inl err => inl (status_error err)
                     | inr reply => send_msg "grpc: " enc defaultMaxSendMessageSize (t_out d) reply
                     end)
            end
        end
  end.

(** [ClientConn.Invoke]: the client sends its message and ends its stream.  Its message is
    whole, so it is answered ([Clients.sent_is_answered]), and the error of a call that is
    not, which would not return, is never given. *)
Definition unanswered : error := PlainError "no answer".
Definition conn_Invoke (registered : list string) (cc : ClientConn K P) (s : server K P S)
    (fullMethod : string) (ti to : mtype) (input : msg ti)
    : outcome (server K P S * (error + msg to)) :=
  let c := call_info cc in
  match newClientStream registered cc s with
  | Some err => Ret (s, inl err)
  | None =>
      match send_msg "" (compressorType c) (maxSendMessageSize c) ti input with
      | inl err => Ret (s, inl err)
      | inr sent =>
          r ← processUnaryRPC s fullMethod (compressorType c) EOF sent;
          let '(s, reply) := r in
          Ret (s, match reply with
                  | None => inl unanswered
                  | Some (inl err) => inl err
                  | Some (inr bs) =>
                      recv_reply registered (compressorType c) (maxReceiveMessageSize c) (decode to) bs
                  end)
      end
  end.
End calls.

(** ** The client stream of the bulk sync *)
(** A [grpc.ClientStream] on its connection: the frames sent so far, whether the
    client closed it, and the error of its own that ended it. *)
Record ClientStream := mkClientStream {
  payloads : list (list Byte.byte); sentLast : bool; finished : option error;
}.

(** The server's end: the bytes it has not read yet, what comes then, what it sent. *)
Record ServerStream := mkServerStream {
  pending : list Byte.byte; at_end : recv_error; encoding : string;
  registry : list string; reply : list Byte.byte;
}.

Section stream.
Context `{Codec} `{Compressors} `{GoQuote}.

(** [Send] of the generated client, by [clientStream.SendMsg]. *)
Definition Send (c : callInfo) (x : ClientStream) (m : BulkSyncRequestChunk)
    : ClientStream * option error :=
  if sentLast x
  then let err := StatusError Internal "SendMsg called after CloseSend" in
       (mkClientStream (payloads x) true (Some err), Some err)
  else match send_msg "" (compressorType c) (maxSendMessageSize c) TBulkSyncRequestChunk m with
       | inl err => (mkClientStream (payloads x) (sentLast x) (Some err), Some err)
       | inr frame => (mkClientStream (payloads x ++ [frame]) (sentLast x) (finished x), None)
       end.

(** [Recv] and [SendAndClose] of the generated server, by [serverStream.RecvMsg] and
    [SendMsg]. *)
#[export] Instance ServerStream_bulk : BulkSyncServer ServerStream := {|
  Recv ss :=
    let '(rest, out) := recv_msg (registry ss) (encoding ss) defaultMaxReceiveMessageSize
                          TBulkSyncRequestChunk (at_end ss) (pending ss) in
    (mkServerStream rest (at_end ss) (encoding ss) (registry ss) (reply ss),
     match out with
     | inl err => (None, Some (toRPCErr err))
     | inr m => (Some m, None)
     end);
  SendAndClose ss response :=
    match send_msg "" (encoding ss) defaultMaxSendMessageSize TBulkSyncResponse response with
    | inl err => (ss, Some err)
    | inr frame =>
        (mkServerStream (pending ss) (at_end ss) (encoding ss) (registry ss) (reply ss ++ frame), None)
    end;
|}.
End stream.

Section bulk_call.
Context {K P R M A : Type} `{!X509Verify K P} `{Codec} `{Compressors} `{GoQuote} `{Network}.
Context `{!routesRepoInterface R} `{!routeMappingsRepoInterface M}.
Context `{!capiDiegoProcessAssociationsRepoInterface A}.
(** [request.XXX_Unmarshal]. *)
Context (unmarshal : list Byte.byte → error + BulkSyncRequest).

(** [NewStream]. *)
Definition NewStream {S} (registered : list string) (cc : ClientConn K P) (s : server K P S)
    : error + ClientStream :=
  match newClientStream registered cc s with
  | Some err => inl err
  | None => inr (mkClientStream [] false None)
  end.

(** [processStreamingRPC] of the bulk sync; [None] would be a lack of fuel: every message
    takes its header's bytes. *)
Definition processStreamingRPC (s : server K P (CAPI R M A)) (ss : ServerStream)
    : option (outcome (server K P (CAPI R M A) * (error + list Byte.byte))) :=
  if compresses (encoding ss) && bool_decide (encoding ss ∉ registry ss)
  then Some (Ret (s, inl (not_installed (encoding ss))))
  else
    out ← BulkSync_on unmarshal (Datatypes.S (length (pending ss))) (state s) ss [];
    Some (r ← out;
          let '(c, ss, err) := r in
          Ret (with_state s c,
               match err with Some err => inl (status_error err) | None => inr (reply ss) end)).

(** [CloseAndRecv] of the generated client. *)
Definition CloseAndRecv (registered : list string) (cc : ClientConn K P)
    (s : server K P (CAPI R M A)) (x : ClientStream)
    : option (outcome (server K P (CAPI R M A) * (error + BulkSyncResponse))) :=
  let c := call_info cc in
  let ending := match finished x with
                | Some _ => RecvErr (StatusError Canceled "context canceled")
                | None => EOF
                end in
  out ← processStreamingRPC s
          (mkServerStream (concat (payloads x)) ending (compressorType c) (installed s) []);
  Some (r ← out;
        let '(s, out) := r in
        Ret (s, match finished x, out with
                | Some err, _ | None, inl err => inl err
                | None, inr bs =>
                    recv_reply registered (compressorType c) (maxReceiveMessageSize c)
                      (decode TBulkSyncResponse) bs
                end)).
End bulk_call.

(** ** Lemmas: frames *)
Definition frame (flag : Z) (body : list Byte.byte) : list Byte.byte :=
  byte_of flag :: PutUint32 (bytes_len body) ++ body.

Lemma byte_val_of z : byte_val (byte_of z) = (z mod 256)%Z.
Proof.
  unfold byte_val, byte_of. change 255%Z with (Z.ones 8). rewrite Z.land_ones by done.
  pose proof (Z.mod_pos_bound z (2 ^ 8) ltac:(done)).
  destruct (Byte.of_N _) as [b|] eqn:E.
  - apply Byte.to_of_N in E. simpl. rewrite E, Z2N.id by lia. done.
  - apply Byte.of_N_None_iff in E. lia.
Qed.

Lemma lor_shift_add a b : (0 ≤ b < 256)%Z → Z.lor (Z.shiftl a 8) b = (a * 256 + b)%Z.
Proof.
  intros Hb. rewrite Z.shiftl_mul_pow2 by lia. change (2 ^ 8)%Z with 256%Z.
  assert (Z.land (a * 256) b = 0)%Z as Hl.
  { apply Z.bits_inj'. intros i Hi. rewrite Z.land_spec, Z.bits_0.
    change 256%Z with (2 ^ 8)%Z. destruct (decide (i < 8)%Z).
    - by rewrite Z.mul_pow2_bits_low.
    - rewrite <-(Z.mod_small b (2 ^ 8)) by done. by rewrite Z.mod_pow2_bits_high, andb_false_r by lia. }
  rewrite <-Z.lxor_lor by done. symmetry. by apply Z.add_nocarry_lxor.
Qed.

Lemma Uint32_PutUint32 v : (0 ≤ v < 2 ^ 32)%Z → Uint32 (PutUint32 v) = v.
Proof.
  intros Hv. unfold Uint32, PutUint32. simpl. rewrite !byte_val_of, !Z.shiftr_div_pow2 by lia.
  rewrite !lor_shift_add by (by apply Z.mod_pos_bound).
  change (2 ^ 24)%Z with 16777216%Z. change (2 ^ 16)%Z with 65536%Z. change (2 ^ 8)%Z with 256%Z.
  Z.to_euclidean_division_equations. lia.
Qed.

Lemma ReadFull_app n ending l rest : length l = n → ReadFull n ending (l ++ rest) = (rest, inr l).
Proof.
  intros <-. unfold ReadFull. rewrite length_app, decide_True by lia. by rewrite drop_app_length, take_app_length.
Qed.

Lemma frame_length flag body : bytes_len (frame flag body) = (bytes_len body + 5)%Z.
Proof. unfold bytes_len, frame. simpl. lia. Qed.

(** A frame is read as it was written, and nothing behind it is. *)
Lemma recvMsg_frame flag body rest ending max :
  (0 ≤ max)%Z → (bytes_len body ≤ MaxUint32)%Z →
  recvMsg ending max (frame flag body ++ rest) =
  if decide (max < bytes_len body)%Z then (body ++ rest, inl (RecvErr (too_large (bytes_len body) max)))
  else (rest, inr ((flag mod 256)%Z, body)).
Proof.
  intros Hm Hb. unfold recvMsg, frame. unfold MaxUint32 in Hb. assert (0 ≤ bytes_len body)%Z by (unfold bytes_len; lia).
  change (_ :: _ ++ _) with ((byte_of flag :: PutUint32 (bytes_len body)) ++ body).
  rewrite <-app_assoc, ReadFull_app by done. rewrite Uint32_PutUint32, byte_val_of by lia.
  destruct (decide (bytes_len body = 0)%Z) as [E|E].
  { rewrite decide_False by lia. unfold bytes_len in E. by destruct body. }
  rewrite decide_False by (unfold maxInt; lia). case_decide; [done|].
  by rewrite ReadFull_app by (unfold bytes_len; lia).
Qed.

Section frames.
Context `{Compressors} `{GoQuote}.

(** What is sent is a frame: of the encoded bytes, or of the compressed ones. *)
Lemma sent_frame who enc max encoded p :
  send_encoded who enc max encoded = inr p →
  ∃ data flag body, encoded = inr data ∧ p = frame flag body ∧ (bytes_len body ≤ max)%Z ∧
    (flag = compressionNone ∧ body = data ∧ (compresses enc = true → Compress enc data = inr []) ∨
     flag = compressionMade ∧ compresses enc = true ∧ body ≠ [] ∧ Compress enc data = inr body).
Proof.
  unfold send_encoded, marshal. destruct encoded as [|data]; [done|]. case_decide; [done|].
  unfold send_payload, compress. destruct (compresses enc) eqn:Ec.
  - destruct (Compress enc data) as [|[|b z]] eqn:Ez; simpl; [done| |];
      (case_decide; [done|]); intros [= <-].
    + exists data, compressionNone, data. split; [done|]. split; [done|]. split; [lia|]. by left.
    + exists data, compressionMade, (b :: z). split; [done|]. split; [done|]. split; [lia|]. by right.
  - simpl. case_decide; [done|]. intros [= <-].
    exists data, compressionNone, data. split; [done|]. split; [done|]. split; [lia|]. by left.
Qed.

(** And conversely. *)
Lemma send_data who enc max data :
  (bytes_len data ≤ MaxUint32)%Z → (compresses enc = true → Compress enc data = inr []) →
  (bytes_len data ≤ max)%Z →
  send_encoded who enc max (inr data) = inr (frame compressionNone data).
Proof.
  intros Hu Hc Hm. unfold send_encoded, marshal. rewrite decide_False by lia. unfold send_payload, compress.
  destruct (compresses enc); [rewrite Hc by done|]; simpl; by rewrite decide_False by lia.
Qed.
Lemma send_compressed who enc max data z :
  (bytes_len data ≤ MaxUint32)%Z → compresses enc = true → Compress enc data = inr z → z ≠ [] →
  (bytes_len z ≤ max)%Z →
  send_encoded who enc max (inr data) = inr (frame compressionMade z).
Proof.
  intros Hu Hc Hz Hne Hm. unfold send_encoded, marshal. rewrite decide_False by lia. unfold send_payload, compress.
  rewrite Hc, Hz. destruct z; [done|]. simpl. by rewrite decide_False by lia.
Qed.

(** What the receiver of a frame gets, by its flag. *)
Lemma recv_data installed enc max ending data rest :
  (0 ≤ max)%Z → (bytes_len data ≤ max)%Z → (bytes_len data ≤ MaxUint32)%Z →
  recvAndDecompress installed enc max ending (frame compressionNone data ++ rest) = (rest, inr data).
Proof.
  intros Hm Hd Hu. unfold recvAndDecompress. rewrite recvMsg_frame, decide_False by lia.
  simpl. rewrite decide_False by lia. done.
Qed.
Lemma recv_compressed installed enc max ending data z rest :
  (0 ≤ max)%Z → (bytes_len z ≤ max)%Z → (bytes_len z ≤ MaxUint32)%Z → compresses enc = true →
  enc ∈ installed → Compress enc data = inr z →
  recvAndDecompress installed enc max ending (frame compressionMade z ++ rest) =
  (rest, if decide (max < bytes_len data)%Z then inl (RecvErr (too_large (max + 1) max)) else inr data).
Proof.
  intros Hm Hl Hu Hc Hin Hz. unfold recvAndDecompress. rewrite recvMsg_frame, decide_False by lia.
  change (compressionMade mod 256)%Z with 1%Z. unfold checkRecvPayload, compressionMade.
  rewrite (decide_False (P := 1%Z = compressionNone)), decide_True by done.
  rewrite Hc, bool_decide_true by done. simpl. unfold decompress. rewrite (compress_roundtrip _ _ _ Hz).
  destruct (decide (max < bytes_len data)%Z) as [Hd|Hd].
  - assert (bytes_len (take (Z.to_nat (max + 1)) data) = max + 1)%Z as E.
    { unfold bytes_len in *. rewrite length_take. lia. }
    rewrite E, decide_True by lia. done.
  - by rewrite decide_False by lia.
Qed.

(** A frame longer than the receiver takes, whatever its flag. *)
Lemma recv_oversized installed enc max ending flag body rest :
  (0 ≤ max < bytes_len body)%Z → (bytes_len body ≤ MaxUint32)%Z →
  recvAndDecompress installed enc max ending (frame flag body ++ rest) =
  (body ++ rest, inl (RecvErr (too_large (bytes_len body) max))).
Proof. intros Hm Hu. unfold recvAndDecompress. by rewrite recvMsg_frame, decide_True by lia. Qed.

(** What is received of what was sent, if anything is, is what was encoded. *)
Lemma received_is_sent {A} (encoder : A → error + list Byte.byte) decoder who enc max installed max' ending m p rest bs m' :
  (∀ m bs, encoder m = inr bs → decoder bs = inr m) →
  (0 ≤ max')%Z → (max ≤ MaxUint32)%Z →
  send_encoded who enc max (encoder m) = inr p →
  recv_decoded installed enc max' decoder ending (p ++ rest) = (bs, inr m') → m' = m ∧ bs = rest.
Proof.
  intros Hrt Hm Hmax Hs. destruct (sent_frame _ _ _ _ _ Hs) as (data & flag & body & He & -> & Hb & Hcase).
  apply Hrt in He. unfold recv_decoded. destruct (decide (max' < bytes_len body)%Z).
  { rewrite recv_oversized by lia. done. }
  destruct Hcase as [(-> & -> & _)|(-> & Hc & _ & Hz)].
  - rewrite recv_data by lia. rewrite He. by intros [= <- <-].
  - destruct (decide (enc ∈ installed)) as [Hin|Hin].
    + rewrite (recv_compressed _ _ _ _ data) by (done || lia). case_decide; [done|]. rewrite He. by intros [= <- <-].
    + unfold recvAndDecompress. rewrite recvMsg_frame, decide_False by lia.
      change (compressionMade mod 256)%Z with 1%Z. unfold checkRecvPayload, compressionMade.
      rewrite (decide_False (P := 1%Z = compressionNone)), decide_True by done.
      by rewrite Hc, bool_decide_false by done.
Qed.

(** A whole frame never ends a stream: its reader gets the message or a status. *)
Lemma frame_read installed enc max ending flag body rest :
  (0 ≤ max)%Z → (bytes_len body ≤ MaxUint32)%Z →
  match (recvAndDecompress installed enc max ending (frame flag body ++ rest)).2 with
  | inl EOF => False
  | inl (RecvErr err) => has_status err = true ∧ err ≠ ErrUnexpectedEOF
  | inr _ => True
  end.
Proof.
  intros Hm Hb. unfold recvAndDecompress. rewrite recvMsg_frame by done.
  case_decide; simpl; [done|]. unfold checkRecvPayload, decompress.
  repeat case_decide; simpl; repeat case_match; simplify_eq/=; done.
Qed.
End frames.
