(* ===== verification/Clients.v ===== *)
(** * The clients of the server ([client.go])

    The Cloud Controller's client and the VIP resolver's: a connection with the options
    each is dialled with, the generated stubs on it, and [Close].  Both embed the
    connection their stub uses, so one connection stands for both fields.  The servers
    at the other end are those of [cmd/copilot-server/main.go]. *)
From S2P Require Import Prelude GoStrings GoFloat Routes RouteMappings Associations Api Handlers.
From S2P Require Import Wire BulkStream ServerConfig Tls Grpc.

(** [encoding/gzip]: importing it registers the compressor. *)
Definition gzip_Name : string := "gzip".
Definition registered : list string := [gzip_Name].

(** ** The clients *)
Section clients.
Context {K P : Type} `{!X509Verify K P} `{Codec} `{Compressors} `{GoQuote} `{Network}.

Record cloudControllerClient := mkCloudControllerClient { cc_conn : ClientConn K P }.
Record vipResolverCopilotClient := mkVIPResolverCopilotClient { vip_conn : ClientConn K P }.

Definition dial_error (err : string) : string := "grpc dial: " +:+ err.

Definition NewCloudControllerClient (serverAddress : string) (tlsConfig : TLSConfig K P)
    : string + cloudControllerClient :=
  match Dial serverAddress [WithTransportCredentials tlsConfig;
                            WithDefaultCallOptions [UseCompressor gzip_Name]] with
  | inl err => inl (dial_error err)
  | inr conn => inr (mkCloudControllerClient conn)
  end.

Definition NewVIPResolverCopilotClient (serverAddress : string) (dialOpts : list (DialOption K P))
    : string + vipResolverCopilotClient :=
  match Dial serverAddress dialOpts with
  | inl err => inl (dial_error err)
  | inr conn => inr (mkVIPResolverCopilotClient conn)
  end.

(** The methods of the embedded connection and of the embedded stubs. *)
Definition cc_Close (client : cloudControllerClient) : cloudControllerClient * option error :=
  let '(conn, err) := Close (cc_conn client) in (mkCloudControllerClient conn, err).
Definition vip_Close (client : vipResolverCopilotClient)
    : vipResolverCopilotClient * option error :=
  let '(conn, err) := Close (vip_conn client) in (mkVIPResolverCopilotClient conn, err).

Notation reply S t := (outcome (server K P S * (error + msg t))).
Definition cc_stub {S} (client : cloudControllerClient) (s : server K P S)
    : ∀ (method : string) (ti to : mtype), msg ti → reply S to :=
  λ method ti to input, conn_Invoke registered (cc_conn client) s method ti to input.
Definition vip_stub {S} (client : vipResolverCopilotClient) (s : server K P S)
    : ∀ (method : string) (ti to : mtype), msg ti → reply S to :=
  λ method ti to input, conn_Invoke registered (vip_conn client) s method ti to input.
End clients.
Arguments cloudControllerClient : clear implicits.
Arguments vipResolverCopilotClient : clear implicits.

(** ** The servers *)
Section servers.
Context `{MapOrder} `{GoSyntax} {K P : Type}.
Context {R M A : Type} `{!routesRepoInterface R} `{!routeMappingsRepoInterface M}.
Context `{!capiDiegoProcessAssociationsRepoInterface A}.
Context {V : Type} `{!routesRepoVIPResolverInterface V}.

Definition grpcServerForCloudController (cfg : Config) (cloudControllerFacingTLSConfig : TLSConfig K P)
    (capiHandler : CAPI R M A) : server K P (CAPI R M A) :=
  mkServer (ListenAddressForCloudController cfg) (Some cloudControllerFacingTLSConfig) registered
    CloudControllerCopilot CloudControllerCopilot_methods capiHandler.
Definition grpcServerForVIPResolver (cfg : Config) (vipResolverHandler : VIPResolver V)
    : server K P (VIPResolver V) :=
  mkServer (ListenAddressForVIPResolver cfg) None registered VIPResolverCopilot
    VIPResolverCopilot_methods vipResolverHandler.
End servers.

(** ** Specification *)
Section specification.
Context {K P : Type} `{!X509Verify K P} `{Codec} `{Compressors} `{GoQuote} `{Network}.

(** A message that the wire carries: its form survives, and neither its bytes nor the
    compressed ones exceed what a receiver accepts. *)
Definition carried (enc : string) (t : mtype) (m : msg t) : Prop :=
  wire_form t m ∧
  ∀ bs, encode t m = inr bs → (bytes_len bs ≤ defaultMaxReceiveMessageSize)%Z ∧
    (if compresses enc then
       ∃ z, Compress enc bs = inr z ∧ (bytes_len z ≤ defaultMaxReceiveMessageSize)%Z
     else True).

(** What a unary call sends, and the messages without fields. *)
Definition call_carried {t} (q : capi_call t) : Prop :=
  carried gzip_Name (projT1 (call_input q)) (projT2 (call_input q)).
Definition request_carried (r : request) : Prop :=
  match r with
  | RUpsertRoute r => carried gzip_Name TUpsertRouteRequest r
  | RDeleteRoute r => carried gzip_Name TDeleteRouteRequest r
  | RMapRoute r => carried gzip_Name TMapRouteRequest r
  | RUnmapRoute r => carried gzip_Name TUnmapRouteRequest r
  | RUpsertAssociation r => carried gzip_Name TUpsertAssociationRequest r
  | RDeleteAssociation r => carried gzip_Name TDeleteAssociationRequest r
  end.
Definition empty_carried : Prop := ∀ t (m : msg t), fieldless t = true → carried gzip_Name t m.

(** A unary call of the Cloud Controller's client, with the message it gets; and a
    writing one, of whose message, which has no fields, only the arrival is kept. *)
Definition cc_invoke {S} (client : cloudControllerClient K P) (s : server K P S) {t} (q : capi_call t)
    : outcome (server K P S * (error + msg t)) :=
  stub_call (cc_stub client s) q.
Definition cc_request {S} (client : cloudControllerClient K P) (s : server K P S) (r : request)
    : outcome (server K P S * (error + unit)) :=
  match r with
  | RUpsertRoute r => acknowledged (cc_invoke client s (CUpsertRoute r))
  | RDeleteRoute r => acknowledged (cc_invoke client s (CDeleteRoute r))
  | RMapRoute r => acknowledged (cc_invoke client s (CMapRoute r))
  | RUnmapRoute r => acknowledged (cc_invoke client s (CUnmapRoute r))
  | RUpsertAssociation r => acknowledged (cc_invoke client s (CUpsertAssociation r))
  | RDeleteAssociation r => acknowledged (cc_invoke client s (CDeleteAssociation r))
  end.

(** A connection can get to a server. *)
Definition reaches {S} (conn : ClientConn K P) (s : server K P S) : Prop :=
  resolve (target conn) = inr (listenAddr s) ∧ unreachable (listenAddr s) = None ∧
  secured conn s (listenAddr s) = true.
End specification.

(** ** Lemmas *)
(** The compressor of an encoding, if it has one, is there. *)
Definition usable (enc : string) (installed : list string) : Prop :=
  compresses enc = true → enc ∈ installed.

Lemma usable_check enc installed :
  usable enc installed → compresses enc && bool_decide (enc ∉ installed) = false.
Proof.
  unfold usable. destruct (compresses enc); [|done]. intros Hin. simpl.
  apply bool_decide_eq_false_2. intros Hn. by apply Hn, Hin.
Qed.

Section lemmas.
Context {K P : Type} `{!X509Verify K P} `{Codec} `{Compressors} `{GoQuote} `{Network}.

(** A carried message is sent as bytes from which it is received, whatever comes behind. *)
Lemma recv_sent who enc installed t (m : msg t) :
  carried enc t m → usable enc installed →
  ∃ p bs, send_msg who enc defaultMaxSendMessageSize t m = inr p ∧ decode t bs = inr m ∧
    ∀ ending rest, recvAndDecompress installed enc defaultMaxReceiveMessageSize ending (p ++ rest) = (rest, inr bs).
Proof.
  intros [Hw Hc] Hin. destruct (encode_decode t m Hw) as (bs & He & Hd).
  destruct (Hc bs He) as [Hb Hz]. unfold send_msg. rewrite He.
  assert (defaultMaxReceiveMessageSize < defaultMaxSendMessageSize)%Z by done.
  assert (defaultMaxSendMessageSize < MaxUint32)%Z by done.
  assert (0 ≤ defaultMaxReceiveMessageSize)%Z by done. unfold usable in Hin.
  destruct (compresses enc) eqn:Ec.
  - destruct Hz as (z & Hz & Hlen). destruct (decide (z = [])) as [->|Hne].
    + eexists _, bs. rewrite send_data by (done || lia). split; [done|]. split; [done|]. intros. apply recv_data; lia.
    + eexists _, bs. rewrite (send_compressed _ _ _ _ z) by (done || lia). split; [done|]. split; [done|]. intros.
      rewrite (recv_compressed _ _ _ _ bs) by (auto || lia). by rewrite decide_False by lia.
  - eexists _, bs. rewrite send_data by (congruence || lia). split; [done|]. split; [done|]. intros. apply recv_data; lia.
Qed.

Lemma recv_msg_sent installed enc max t (m : msg t) ending bs rest data :
  recvAndDecompress installed enc max ending bs = (rest, inr data) → decode t data = inr m →
  recv_msg installed enc max t ending bs = (rest, inr m).
Proof. intros Hr Hd. unfold recv_msg, recv_decoded. by rewrite Hr, Hd. Qed.

(** The client of a server's one reply gets it. *)
Lemma recv_reply_sent who enc installed t (m : msg t) :
  carried enc t m → usable enc installed →
  ∃ p, send_msg who enc defaultMaxSendMessageSize t m = inr p ∧
    recv_reply installed enc defaultMaxReceiveMessageSize (decode t) p = inr m.
Proof.
  intros Hc Hin. destruct (recv_sent who enc installed t m Hc Hin) as (p & bs & Hs & Hd & Hr).
  exists p. split; [done|]. unfold recv_reply. specialize (Hr EOF []). rewrite app_nil_r in Hr.
  pose proof (recv_msg_sent _ _ _ _ _ _ _ _ _ Hr Hd) as E. unfold recv_msg in E. by rewrite E.
Qed.

(** A call that was sent whole is answered, whatever the server makes of it. *)
Lemma sent_is_answered {S} (s s' : server K P S) fullMethod enc encoded p reply :
  send_encoded "" enc defaultMaxSendMessageSize encoded = inr p →
  processUnaryRPC s fullMethod enc EOF p = Ret (s', reply) → reply ≠ None.
Proof.
  intros Hs. destruct (sent_frame _ _ _ _ _ Hs) as (data & flag & body & _ & -> & Hb & _).
  pose proof (frame_read (installed s) enc defaultMaxReceiveMessageSize EOF flag body [] ltac:(done)) as Hf.
  rewrite app_nil_r in Hf. unfold processUnaryRPC. destruct (find_method _ _ _) as [d|]; [|by intros [= _ <-]].
  destruct (_ && _); [by intros [= _ <-]|].
  assert (defaultMaxSendMessageSize < MaxUint32)%Z by done. specialize (Hf ltac:(lia)).
  destruct (recvAndDecompress _ _ _ _ _).2 as [[|err]|bytes]; [done| |].
  - destruct Hf as [-> _]. by intros [= _ <-].
  - destruct (decode (t_in d) bytes); [by intros [= _ <-]|].
    destruct (Handler _ _ _ _ _) as [[st out]|why]; simpl; [by intros [= _ <-]|done].
Qed.

Lemma newClientStream_reaches {S} (conn : ClientConn K P) (s : server K P S) :
  is_open conn = true → reaches conn s → usable (compressorType (call_info conn)) registered →
  newClientStream registered conn s = None.
Proof.
  intros Ho (Hr & Hu & Hsec) Henc. unfold newClientStream.
  rewrite Ho, Hr, Hu, decide_True, Hsec by done. simpl.
  by rewrite usable_check.
Qed.

(** A call on a connection that reaches its server. *)
Lemma Invoke_reaches {S} (conn : ClientConn K P) (s : server K P S) (d : MethodDesc S) input enc :
  is_open conn = true → reaches conn s → call_info conn = mkCallInfo enc
    defaultMaxReceiveMessageSize defaultMaxSendMessageSize →
  usable enc registered → usable enc (installed s) →
  find_method (service s) (methods s) ("/" +:+ service s +:+ "/" +:+ MethodName d) = Some d →
  carried enc (t_in d) input →
  (∀ st out, serve d (state s) input = Ret (st, inr out) → carried enc (t_out d) out) →
  conn_Invoke registered conn s ("/" +:+ service s +:+ "/" +:+ MethodName d) (t_in d) (t_out d) input =
  (r ← serve d (state s) input;
   let '(st, out) := r in
   Ret (with_state s st, match out with inl err => inl (status_error err) | inr m => inr m end)).
Proof.
  intros Ho Hreach Hci Hreg Hinst Hf Hin Hout. unfold conn_Invoke.
  rewrite newClientStream_reaches, Hci by (done || by rewrite Hci). simpl.
  destruct (recv_sent "" enc (installed s) _ _ Hin Hinst) as (p & bs & -> & Hd & Hrecv).
  specialize (Hrecv EOF []). rewrite app_nil_r in Hrecv.
  unfold processUnaryRPC, Handler. change (trim_slash _) with (service s +:+ "/" +:+ MethodName d).
  rewrite Hf, Hrecv, usable_check by done. simpl. rewrite Hd.
  destruct (serve d (state s) input) as [[st [err|out]]|why] eqn:E; simpl; [done| |done].
  destruct (recv_reply_sent "grpc: " enc registered _ _ (Hout st out eq_refl) Hreg) as (p' & -> & Hp).
  by rewrite Hp.
Qed.
End lemmas.

Section dialled.
Context {K P : Type} `{!X509Verify K P} `{Codec} `{Compressors} `{GoQuote} `{Network}.

(** The connection of the Cloud Controller's client. *)
Lemma NewCloudControllerClient_spec addr (tls : TLSConfig K P) :
  NewCloudControllerClient addr tls =
  match resolve addr with
  | inl err => inl (dial_error err)
  | inr _ => inr (mkCloudControllerClient (mkClientConn addr
      (mkDialOptions false (Some tls) false [] [UseCompressor gzip_Name] false 0) true))
  end.
Proof. unfold NewCloudControllerClient, Dial. simpl. by destruct (resolve addr). Qed.

(** A closed connection. *)
Lemma Invoke_closed {S} reg (conn : ClientConn K P) (s : server K P S) method ti to input :
  is_open conn = false →
  conn_Invoke reg conn s method ti to input = Ret (s, inl ErrClientConnClosing).
Proof. intros Hc. unfold conn_Invoke, newClientStream. by rewrite Hc. Qed.

Lemma cc_invoke_closed {S} (client : cloudControllerClient K P) (s : server K P S) {t} (q : capi_call t) :
  is_open (cc_conn client) = false → cc_invoke client s q = Ret (s, inl ErrClientConnClosing).
Proof.
  intros Hc. destruct q; by apply (Invoke_closed registered (cc_conn client)).
Qed.

(** A call changes nothing and fails, unless the connection is secured. *)
Lemma Invoke_unsecured {S} reg (conn : ClientConn K P) (s : server K P S) method ti to input :
  (∃ err, conn_Invoke reg conn s method ti to input = Ret (s, inl err)) ∨
  secured conn s (listenAddr s) = true.
Proof.
  unfold conn_Invoke. destruct (newClientStream reg conn s) as [err|] eqn:E; [left; eauto|].
  right. unfold newClientStream in E.
  destruct (is_open conn); simpl in E; [|done].
  destruct (_ && _); [done|]. destruct (resolve (target conn)) as [|endpoint]; [done|].
  destruct (unreachable endpoint); [done|]. case_decide as He; [|done]. subst endpoint.
  by destruct (secured conn s (listenAddr s)).
Qed.
Lemma NewStream_secured {S} reg (conn : ClientConn K P) (s : server K P S) x :
  NewStream reg conn s = inr x → secured conn s (listenAddr s) = true.
Proof.
  unfold NewStream, newClientStream. destruct (is_open conn); simpl; [|done].
  destruct (_ && _); [done|]. destruct (resolve (target conn)) as [|endpoint]; [done|].
  destruct (unreachable endpoint); [done|]. case_decide as He; [|done]. subst endpoint.
  by destruct (secured conn s (listenAddr s)).
Qed.
End dialled.

(** ** Lemmas: the bulk sync's stream *)
Section stream.
Context `{Codec} `{Compressors} `{GoQuote}.

(** What the server's end of a stream answers to [Recv], message after message: each
    takes bytes, so there are no more of them than bytes. *)
Fixpoint received_upto (n : nat) (installed : list string) (enc : string) (ending : recv_error)
    (bs : list Byte.byte) : stream :=
  match n with
  | 0 => SEof
  | S n =>
      match recv_msg installed enc defaultMaxReceiveMessageSize TBulkSyncRequestChunk ending bs with
      | (_, inl err) => match toRPCErr err with EOF => SEof | RecvErr err => SError err end
      | (rest, inr m) => SChunk m (received_upto n installed enc ending rest)
      end
  end.
Definition received (installed : list string) (enc : string) (ending : recv_error)
    (bs : list Byte.byte) : stream :=
  received_upto (S (length bs)) installed enc ending bs.

Lemma ReadFull_shorter n ending bs rest l :
  ReadFull n ending bs = (rest, inr l) → length rest = length bs - n ∧ n ≤ length bs.
Proof. unfold ReadFull. case_decide; [|done]. intros [= <- _]. by rewrite length_drop. Qed.
Lemma recv_msg_shorter installed enc max t ending bs rest (m : msg t) :
  recv_msg installed enc max t ending bs = (rest, inr m) → length rest < length bs.
Proof.
  unfold recv_msg, recv_decoded, recvAndDecompress.
  destruct (recvMsg ending max bs) as [rest' [err|[pf d]]] eqn:E; [done|].
  assert (length rest' < length bs) as Hlt.
  { unfold recvMsg in E. destruct (ReadFull headerLen ending bs) as [bs1 [err|[|flag size]]] eqn:E1; [done..|].
    apply ReadFull_shorter in E1 as [E1 ?]. unfold headerLen in *.
    repeat case_decide; simplify_eq/=; try lia.
    destruct (ReadFull _ ending bs1) as [bs2 [[]|l]] eqn:E2; [done..|].
    apply ReadFull_shorter in E2 as [E2 ?]. simplify_eq. lia. }
  intros Hr. repeat case_match; simplify_eq/=; done.
Qed.

Lemma received_enough n installed enc ending bs :
  length bs < n → received_upto n installed enc ending bs = received installed enc ending bs.
Proof.
  unfold received. revert n bs.
  assert (∀ n m bs, length bs < n → length bs < m →
    received_upto n installed enc ending bs = received_upto m installed enc ending bs) as Hnm.
  { induction n as [|n IH]; intros [|m] bs Hn Hm; [lia..|]. simpl.
    destruct (recv_msg _ _ _ _ _ bs) as [rest [err|x]] eqn:E; [done|].
    apply recv_msg_shorter in E. f_equal. apply IH; lia. }
  intros n bs Hn. apply Hnm; lia.
Qed.

Lemma received_playing ss :
  let rs := received (registry ss) (encoding ss) (at_end ss) (pending ss) in
  playing ss rs ∧ receives rs ≤ S (length (pending ss)) ∧
  ∃ left, played ss rs = mkServerStream left (at_end ss) (encoding ss) (registry ss) (reply ss).
Proof.
  destruct ss as [bs e enc reg rep]. simpl. remember (length bs) as n eqn:En. revert bs En.
  induction (lt_wf n) as [n _ IH]. intros bs ->. unfold received. cbn [received_upto].
  destruct (recv_msg reg enc _ _ e bs) as [rest [err|m]] eqn:E.
  - destruct (toRPCErr err) as [|err'] eqn:Ee; simpl; rewrite E; simpl; rewrite Ee;
      (split; [done|]; split; [lia|]); by eexists.
  - pose proof (recv_msg_shorter _ _ _ _ _ _ _ _ E) as Hlt. rewrite received_enough by done.
    destruct (IH (length rest) Hlt rest eq_refl) as (Hp & Hr & left & Hl). simpl. rewrite E. simpl.
    split; [done|]. split; [lia|]. by exists left.
Qed.

(** The client's side: sending chunks one after the other. *)
Definition sends (c : callInfo) (x : ClientStream) (ms : list BulkSyncRequestChunk) : ClientStream :=
  foldl (λ x m, (Send c x m).1) x ms.

Definition sent_as (c : callInfo) (m : BulkSyncRequestChunk) (payload : list Byte.byte) : Prop :=
  send_msg "" (compressorType c) (maxSendMessageSize c) TBulkSyncRequestChunk m = inr payload.

Lemma sends_ok c x ms ps :
  sentLast x = false → finished x = None → Forall2 (sent_as c) ms ps →
  sends c x ms = mkClientStream (payloads x ++ ps) false None.
Proof.
  intros Hl Hf Hps. revert x Hl Hf. induction Hps as [|m p ms ps Hm Hps IH]; intros x Hl Hf.
  - simpl. rewrite app_nil_r. destruct x. by simplify_eq/=.
  - simpl. rewrite IH; unfold Send; rewrite Hl, Hm; simpl; rewrite ?Hl, <-?app_assoc; done.
Qed.

(** Chunks arrive in order, up to the first that the server does not take. *)
Notation chunk_read installed enc m p := (∀ rest,
  recv_msg installed enc defaultMaxReceiveMessageSize TBulkSyncRequestChunk EOF (p ++ rest) = (rest, inr m)).
Lemma received_chunks installed enc ms ps rest :
  Forall2 (λ m p, chunk_read installed enc m p) ms ps →
  received installed enc EOF (concat ps ++ rest) = foldr SChunk (received installed enc EOF rest) ms.
Proof.
  induction 1 as [|m p ms ps Hm _ IH]; simpl; [done|]. rewrite <-app_assoc. unfold received. cbn [received_upto].
  rewrite Hm. pose proof (recv_msg_shorter _ _ _ _ _ _ _ _ (Hm (concat ps ++ rest))).
  by rewrite received_enough, IH by done.
Qed.

Lemma carried_chunks installed enc ms :
  Forall (carried enc TBulkSyncRequestChunk) ms → usable enc installed →
  ∃ ps,
    Forall2 (sent_as (mkCallInfo enc defaultMaxReceiveMessageSize defaultMaxSendMessageSize)) ms ps ∧
    Forall2 (λ m p, chunk_read installed enc m p) ms ps.
Proof.
  intros Hms Hin. induction Hms as [|m ms Hm _ IH]; [by exists []|].
  destruct IH as (ps & Hps & Hr). destruct (recv_sent "" enc installed _ m Hm Hin) as (p & bs & Hs & Hd & Hp).
  exists (p :: ps). split; constructor; try done. intros rest. by eapply recv_msg_sent.
Qed.

(** A message whose bytes are more than the receiver takes. *)
Definition oversized (enc : string) (t : mtype) (m : msg t) : Prop :=
  ∃ bs z, encode t m = inr bs ∧ compresses enc = true ∧ Compress enc bs = inr z ∧
    (defaultMaxReceiveMessageSize < bytes_len bs ≤ MaxUint32)%Z ∧
    (0 < bytes_len z ≤ defaultMaxSendMessageSize)%Z.

Lemma oversized_refused installed enc t (m : msg t) :
  oversized enc t m → usable enc installed →
  ∃ p size, send_msg "" enc defaultMaxSendMessageSize t m = inr p ∧
    ∀ ending rest, ∃ left, recv_msg installed enc defaultMaxReceiveMessageSize t ending (p ++ rest) =
      (left, inl (RecvErr (too_large size defaultMaxReceiveMessageSize))).
Proof.
  intros (bs & z & He & Hc & Hz & Hb & Hlen) Hin. unfold send_msg, recv_msg, recv_decoded. rewrite He.
  assert (defaultMaxSendMessageSize < MaxUint32)%Z by done. assert (0 ≤ defaultMaxReceiveMessageSize)%Z by done.
  assert (z ≠ []) by (intros ->; unfold bytes_len in Hlen; simpl in Hlen; lia).
  destruct (decide (defaultMaxReceiveMessageSize < bytes_len z)%Z) as [Hd|Hd].
  - eexists _, _. rewrite (send_compressed _ _ _ _ z) by (done || lia). split; [done|]. intros ending rest.
    rewrite recv_oversized by lia. eauto.
  - eexists _, _. rewrite (send_compressed _ _ _ _ z) by (done || lia). split; [done|]. intros ending rest.
    rewrite (recv_compressed _ _ _ _ bs) by (auto || lia). rewrite decide_True by lia. eauto.
Qed.
End stream.

Lemma stream_of_chunks ms rest :
  stream_end (foldr SChunk rest ms) = stream_end rest ∧
  stream_bytes (foldr SChunk rest ms) = (ms ≫= λ m, elems (Chunk m)) ++ stream_bytes rest.
Proof. induction ms as [|m ms [He Hb]]; simpl; [done|]. by rewrite Hb, <-app_assoc. Qed.

(** ** Lemmas: the calls of the clients *)
Section client_lemmas.
Context {K P : Type} `{!X509Verify K P} `{Codec} `{Compressors} `{GoQuote} `{Network}.
Context `{MapOrder} `{GoSyntax}.
Context {R M A : Type} `{!routesRepoInterface R} `{!routeMappingsRepoInterface M}.
Context `{!capiDiegoProcessAssociationsRepoInterface A}.

(** What the client is told of a handler's outcome. *)
Definition answered {St B} (with_st : St → server K P St) (r : outcome (St * (error + B)))
    : outcome (server K P St * (error + B)) :=
  x ← r;
  Ret (with_st x.1, match x.2 with inl err => inl (status_error err) | inr b => inr b end).

(** The Cloud Controller's client on the Cloud Controller's server. *)
Lemma cc_invoke_handled cfg stls (capi : CAPI R M A) (conn : ClientConn K P) {t} (q : capi_call t) :
  let s := grpcServerForCloudController cfg stls capi in
  is_open conn = true → reaches conn s → call_info conn = mkCallInfo gzip_Name
    defaultMaxReceiveMessageSize defaultMaxSendMessageSize →
  call_carried q → (∀ c' out, perform capi q = Ret (c', inr out) → carried gzip_Name t out) →
  cc_invoke (mkCloudControllerClient conn) s q = answered (with_state s) (perform capi q).
Proof.
  intros s Ho Hreach Hci Hq. unfold cc_invoke.
  apply (stub_call_by_method (cc_stub (mkCloudControllerClient conn) s) capi q (λ t reply out,
    (∀ c' m, out = Ret (c', inr m) → carried gzip_Name t m) → reply = answered (with_state s) out)).
  intros d input Hf Hi _ Hout. unfold cc_stub. simpl cc_conn.
  etrans; [apply (Invoke_reaches conn s d input gzip_Name Ho Hreach Hci); try done; try (intros _; by left)|].
  - unfold call_carried in Hq. by rewrite <-Hi in Hq.
  - unfold answered. simpl. by destruct (serve d capi input) as [[c' out]|why].
Qed.

(** Its writing calls. *)
Lemma cc_request_handled cfg stls (capi : CAPI R M A) (conn : ClientConn K P) r :
  let s := grpcServerForCloudController cfg stls capi in
  is_open conn = true → reaches conn s → call_info conn = mkCallInfo gzip_Name
    defaultMaxReceiveMessageSize defaultMaxSendMessageSize →
  request_carried r → empty_carried →
  cc_request (mkCloudControllerClient conn) s r = answered (with_state s) (handle capi r).
Proof.
  intros s Ho Hreach Hci Hr Hempty.
  assert (∀ t (q : capi_call t), fieldless t = true → call_carried q →
    acknowledged (cc_invoke (mkCloudControllerClient conn) s q) =
    answered (with_state s) (acknowledged (perform capi q))) as Hq.
  { intros t q Ht Hc. subst s. rewrite cc_invoke_handled; [|done..|intros; by apply Hempty].
    by destruct (perform capi q) as [[c' [err|out]]|why]. }
  destruct r as [r|r|r|r|r|r]; simpl in Hr |- *.
  - by apply (Hq _ (CUpsertRoute r)).
  - by apply (Hq _ (CDeleteRoute r)).
  - by apply (Hq _ (CMapRoute r)).
  - by apply (Hq _ (CUnmapRoute r)).
  - by apply (Hq _ (CUpsertAssociation r)).
  - by apply (Hq _ (CDeleteAssociation r)).
Qed.

(** The bulk sync over the wire, whatever was sent. *)
Lemma CloseAndRecv_spec unmarshal (conn : ClientConn K P) (s : server K P (CAPI R M A)) x enc :
  (∀ bytes request, unmarshal bytes = inr request → no_nil request) →
  call_info conn = mkCallInfo enc defaultMaxReceiveMessageSize defaultMaxSendMessageSize →
  usable enc (installed s) → finished x = None →
  let rs := received (installed s) enc EOF (concat (payloads x)) in
  CloseAndRecv unmarshal registered conn s x = Some (
    match stream_end rs with
    | Some err => Ret (with_state s (state s), inl (status_error err))
    | None =>
        match (if (length (stream_bytes rs) =? 0)%nat then inr empty_bulk_sync
               else unmarshal (stream_bytes rs)) with
        | inl err => Ret (with_state s (state s), inl (status_error err))
        | inr request =>
            Ret (with_state s (after_sync (state s) request),
                 match send_msg "" enc defaultMaxSendMessageSize TBulkSyncResponse
                         (mkBulkSyncResponse (i32 (Z.of_nat (length (stream_bytes rs))))) with
                 | inl err => inl (status_error err)
                 | inr p =>
                     recv_reply registered enc defaultMaxReceiveMessageSize (decode TBulkSyncResponse) p
                 end)
        end
    end).
Proof.
  intros Hd Hci Hin Hf rs. unfold CloseAndRecv, processStreamingRPC. rewrite Hf, Hci.
  cbv zeta. cbn [compressorType maxReceiveMessageSize encoding registry pending].
  rewrite usable_check by done.
  set (ss := mkServerStream _ _ _ _ _).
  destruct (received_playing ss) as (Hp & Hr & left & Hl).
  change (received _ _ _ _) with rs in Hp, Hr, Hl.
  assert (∀ fuel, receives rs ≤ fuel → BulkSync_on unmarshal fuel (state s) ss [] = _) as Hspec
    by (intros fuel Hfuel; by apply BulkSync_on_spec).
  rewrite (Hspec (S (length (concat (payloads x)))) Hr). rewrite Hl. simpl. clear Hspec.
  destruct (stream_end rs) as [err|]; [done|].
  destruct (if (length (stream_bytes rs) =? 0)%nat then _ else _) as [err|request]; [done|].
  simpl. unfold SendAndClose, ServerStream_bulk. simpl.
  destruct (send_msg _ _ _ _ _) as [err|payload]; done.
Qed.
End client_lemmas.

(** ** Properties *)
Section properties.
Context {K P : Type} `{!X509Verify K P} `{Codec} `{Compressors} `{GoQuote} `{Network}.
Context `{MapOrder} `{GoSyntax}.
Context {R M A : Type} `{!routesRepoInterface R} `{!routeMappingsRepoInterface M}.
Context `{!capiDiegoProcessAssociationsRepoInterface A}.
Context (cfg : Config) (serverTLS clientTLS : TLSConfig K P) (serverAddress : string).

(** The address leads to the running server, and both TLS configurations agree. *)
Definition connectable : Prop :=
  resolve serverAddress = inr (ListenAddressForCloudController cfg) ∧
  unreachable (ListenAddressForCloudController cfg) = None ∧
  handshake clientTLS serverTLS (server_name (ListenAddressForCloudController cfg)) = true.

Lemma dialled (capi : CAPI R M A) :
  connectable →
  ∃ conn, NewCloudControllerClient serverAddress clientTLS = inr (mkCloudControllerClient conn) ∧
    is_open conn = true ∧ reaches conn (grpcServerForCloudController cfg serverTLS capi) ∧
    call_info conn = mkCallInfo gzip_Name defaultMaxReceiveMessageSize defaultMaxSendMessageSize.
Proof.
  intros (Hr & Hu & Hh). rewrite NewCloudControllerClient_spec, Hr. eexists. split; [done|].
  split; [done|]. split; [|done]. by split_and!.
Qed.

(** C10. The Cloud Controller's client works: when its address leads to the running server
    and the TLS configurations agree, dialling succeeds, and each of the ten unary calls
    of the service, if the wire carries its request and the handler's reply, is handled by
    its own handler, with exactly that handler's effect; the client gets the handler's
    message, or its error under the error's code.  Once the client is closed its calls
    fail and change nothing, and closing it again is an error. *)
Theorem client_calls_reach_handlers (capi : CAPI R M A) {t} (q : capi_call t)
    (Hconn : connectable) (Hq : call_carried q)
    (Hreply : ∀ c' out, perform capi q = Ret (c', inr out) → carried gzip_Name t out) :
  let s := grpcServerForCloudController cfg serverTLS capi in
  ∃ client, NewCloudControllerClient serverAddress clientTLS = inr client ∧
    cc_invoke client s q = answered (with_state s) (perform capi q) ∧
    (cc_Close client).2 = None ∧
    cc_invoke (cc_Close client).1 s q = Ret (s, inl ErrClientConnClosing) ∧
    cc_Close (cc_Close client).1 = ((cc_Close client).1, Some ErrClientConnClosing).
Proof.
  intros s. destruct (dialled capi Hconn) as (conn & Hd & Ho & Hreach & Hci).
  exists (mkCloudControllerClient conn). split; [done|].
  split; [by apply cc_invoke_handled|]. unfold cc_Close, Close. simpl. rewrite Ho.
  split; [done|]. split; [|done]. by apply cc_invoke_closed.
Qed.

(** C15. A bulk sync over the wire: however a request is cut into chunks that the wire
    carries, the client sends them, closes, and gets the number of their bytes, and the
    repositories are those of the request; but one chunk of more than 4 MB among them,
    and the client gets [ResourceExhausted] and nothing changes, which is why requests
    are cut at all. *)
Theorem bulk_sync_over_wire unmarshal (capi : CAPI R M A) (ms : list BulkSyncRequestChunk)
    (Hdecode : ∀ bytes request, unmarshal bytes = inr request → no_nil request)
    (Hconn : connectable) (Hms : Forall (carried gzip_Name TBulkSyncRequestChunk) ms) :
  let s := grpcServerForCloudController cfg serverTLS capi in
  let bytes := ms ≫= λ m, elems (Chunk m) in
  let response := mkBulkSyncResponse (i32 (Z.of_nat (length bytes))) in
  ∃ client x, NewCloudControllerClient serverAddress clientTLS = inr client ∧
    NewStream registered (cc_conn client) s = inr x ∧
    let c := call_info (cc_conn client) in
    (∀ request, bytes ≠ [] → unmarshal bytes = inr request →
      carried gzip_Name TBulkSyncResponse response →
      CloseAndRecv unmarshal registered (cc_conn client) s (sends c x ms) =
      Some (Ret (with_state s (after_sync capi request), inr response))) ∧
    (∀ m ms', oversized gzip_Name TBulkSyncRequestChunk m →
      Forall (carried gzip_Name TBulkSyncRequestChunk) ms' →
      ∃ why, CloseAndRecv unmarshal registered (cc_conn client) s (sends c x (ms ++ m :: ms')) =
        Some (Ret (s, inl (StatusError ResourceExhausted why)))).
Proof.
  intros s bytes response. destruct (dialled capi Hconn) as (conn & Hd & Ho & Hreach & Hci).
  exists (mkCloudControllerClient conn), (mkClientStream [] false None). split; [done|]. split.
  { unfold NewStream. simpl cc_conn. rewrite newClientStream_reaches; [done..|].
    rewrite Hci. intros _. by left. }
  simpl. rewrite Hci. assert (usable gzip_Name (installed s)) as Hin by (intros _; by left).
  destruct (carried_chunks (installed s) gzip_Name ms Hms Hin) as (ps & Hsend & Hrecv). split.
  - intros request Hne Hun Hresp. rewrite (sends_ok _ (mkClientStream [] false None) ms ps) by done. cbn [payloads app].
    rewrite (CloseAndRecv_spec unmarshal conn s (mkClientStream ps false None) gzip_Name
      Hdecode Hci Hin eq_refl). simpl payloads.
    rewrite <-(app_nil_r (concat ps)), (received_chunks (installed s) gzip_Name ms ps []) by done.
    destruct (stream_of_chunks ms SEof) as [He Hb].
    change (received (installed s) gzip_Name EOF []) with SEof. rewrite He, Hb. simpl. rewrite app_nil_r.
    fold bytes. fold response. destruct (length bytes =? 0)%nat eqn:E; [by apply Nat.eqb_eq, nil_length_inv in E|].
    rewrite Hun. destruct (recv_reply_sent "" gzip_Name registered _ _ Hresp (λ _, ltac:(by left))) as (p & -> & Hp). do 3 f_equal. exact Hp.
  - intros m ms' Hm Hms'.
    destruct (carried_chunks (installed s) gzip_Name ms' Hms' Hin) as (ps' & Hsend' & _).
    destruct (oversized_refused (installed s) gzip_Name TBulkSyncRequestChunk m Hm Hin) as (p & size & Hp & Hrp).
    rewrite (sends_ok _ (mkClientStream [] false None) (ms ++ m :: ms') (ps ++ p :: ps'))
      by (done || (apply Forall2_app; [done|by constructor])). cbn [payloads app].
    rewrite (CloseAndRecv_spec unmarshal conn s (mkClientStream (ps ++ p :: ps') false None) gzip_Name
      Hdecode Hci Hin eq_refl). simpl payloads.
    rewrite concat_app, (received_chunks (installed s) gzip_Name ms ps (concat (p :: ps'))) by done.
    assert (received (installed s) gzip_Name EOF (concat (p :: ps')) =
      SError (too_large size defaultMaxReceiveMessageSize)) as ->.
    { unfold received. cbn [received_upto concat]. destruct (Hrp EOF (concat ps')) as [left ->]. done. }
    destruct (stream_of_chunks ms (SError (too_large size defaultMaxReceiveMessageSize))) as [-> _].
    simpl. eexists. done.
Qed.
End properties.

(** The connection of the VIP resolver's client, and what it is answered. *)
Definition resolver_conn {K P} (addr : string) : ClientConn K P :=
  mkClientConn addr (mkDialOptions true None false [] [] false 0) true.
Lemma resolver_dialled {K P} `{Network} addr endpoint :
  resolve addr = inr endpoint →
  NewVIPResolverCopilotClient (K := K) (P := P) addr [WithInsecure] =
    inr (mkVIPResolverCopilotClient (resolver_conn addr)).
Proof. intros Hr. unfold NewVIPResolverCopilotClient, Dial. simpl. by rewrite Hr. Qed.

Lemma resolver_needs_insecure {K P} `{Network} addr :
  NewVIPResolverCopilotClient (K := K) (P := P) addr [] = inl (dial_error errNoTransportSecurity).
Proof. done. Qed.

Lemma vip_client_resolves {K P V} `{!X509Verify K P} `{Codec} `{Compressors} `{GoQuote} `{Network}
    `{!routesRepoVIPResolverInterface V} (cfg : Config) (b : VIPResolver V) addr (req : GetVIPByNameRequest) :
  resolve addr = inr (ListenAddressForVIPResolver cfg) →
  unreachable (ListenAddressForVIPResolver cfg) = None →
  carried "" TGetVIPByNameRequest req →
  (∀ out, (Handlers.GetVIPByName b req).2 = inr out → carried "" TGetVIPByNameResponse out) →
  let s := grpcServerForVIPResolver (K := K) (P := P) cfg b in
  client_GetVIPByName (vip_stub (mkVIPResolverCopilotClient (resolver_conn addr)) s) req =
  (let '(b, out) := Handlers.GetVIPByName b req in
   Ret (with_state s b, match out with inl err => inl (status_error err) | inr m => inr m end)).
Proof.
  intros Hr Hu Hreq Hout s.
  assert (reaches (resolver_conn addr) s) as Hreach by by split_and!.
  etrans; [apply (Invoke_reaches (resolver_conn addr) s GetVIPByName_Method req "" eq_refl Hreach eq_refl);
    [done|done|done|done|]|].
  - intros st out [= E]. apply Hout. by rewrite E.
  - simpl. destruct (Handlers.GetVIPByName b req) as [b' [err|m]]; simpl; reflexivity.
Qed.

(** C11. Only the Cloud Controller writes: on the server that [mainWithError] makes from a
    configuration, whatever connection, method and message, a call fails without a trace,
    unless its client has shown a certificate that the CA file of the configuration
    vouches for; and without one no bulk sync is started. *)
Theorem only_certified_clients {F K P R M A} `{!TLS F K P} `{!X509Verify K P} `{Codec} `{Compressors}
    `{GoQuote} `{Network} `{MapOrder} `{GoSyntax} `{!routesRepoInterface R} `{!routeMappingsRepoInterface M}
    `{!capiDiegoProcessAssociationsRepoInterface A} (f : F) (cfg : Config) (stls : TLSConfig K P)
    (capi : CAPI R M A) (conn : ClientConn K P)
    (Htls : ServerTLSConfigForCloudController f cfg = inr stls) :
  let s := grpcServerForCloudController cfg stls capi in
  let admitted := ∃ tls, TransportCredentials (dopts conn) = Some tls ∧
                         certified f (CloudControllerClientCAPath cfg) tls in
  (∀ reg method ti to input,
    (∃ err, conn_Invoke reg conn s method ti to input = Ret (s, inl err)) ∨ admitted) ∧
  (∀ reg x, NewStream reg conn s = inr x → admitted).
Proof.
  intros s admitted.
  assert (secured conn s (listenAddr s) = true → admitted) as Hadm.
  { unfold secured. simpl. destruct (TransportCredentials (dopts conn)) as [tls|] eqn:Ht; [|done].
    destruct (admission f cfg _ _ stls tls (server_name (ListenAddressForCloudController cfg)) Htls)
      as (cert & _ & Hiff). intros Hh. apply Hiff in Hh as (_ & _ & _ & Hc). by exists tls. }
  split.
  - intros reg method ti to input.
    destruct (Invoke_unsecured reg conn s method ti to input); [by left|right; auto].
  - intros reg x Hx. by eapply Hadm, NewStream_secured.
Qed.

(** ** Witnesses *)
(** Certificates are vouched for by the CAs whose names they begin with; messages travel
    uncompressed under the compressor's name. *)
Definition w_verify : X509Verify string string := {|
  verifies_client cert pool := String.prefix pool cert;
  verifies_server cert pool _ := String.prefix pool cert;
  SystemRoots := "none"; defaultCipherSuites := offered;
|}.
Definition w_tls_files : TLS (gmap string string) string string := {|
  X509KeyPair crt key := inr (crt +:+ key);
  ReadBytes f p := match f !! p with Some s => inr s | None => inl "no such file" end;
  AppendCertsFromPEM s := Some s;
|}.
Definition w_store : Compressors.
Proof.
  refine {| Compress _ bs := inr bs; Decompress _ bs := (bs, None) |}. by intros name bs z [= <-].
Defined.
Definition w_network : Network := {| resolve addr := inr addr; unreachable _ := None |}.

(** Chunks as they are, and small numbers as one byte. *)
Definition w_wire_encode (t : mtype) : msg t → error + list Byte.byte :=
  match t with
  | TBulkSyncRequestChunk => λ m, inr (elems (Chunk m))
  | TBulkSyncResponse => λ m,
      match Byte.of_N (Z.to_N (TotalBytesReceived m)) with
      | Some b => inr [b]
      | None => inl (PlainError "unsupported")
      end
  | t => w_encode t
  end.
Definition w_wire_decode (t : mtype) (bs : list Byte.byte) : error + msg t :=
  match t return error + msg t with
  | TBulkSyncRequestChunk => inr (mkBulkSyncRequestChunk (Sl bs))
  | TBulkSyncResponse =>
      match bs with
      | [b] => inr (mkBulkSyncResponse (Z.of_N (Byte.to_N b)))
      | _ => inl (PlainError "unsupported")
      end
  | t => w_decode t bs
  end.
Definition w_wire_ok (t : mtype) : msg t → Prop :=
  match t with
  | TBulkSyncRequestChunk => λ m, Chunk m ≠ Nil
  | TBulkSyncResponse => λ m, (0 ≤ TotalBytesReceived m < 256)%Z
  | t => λ _, w_wire_form t = true
  end.

Definition w_wire : Codec.
Proof.
  refine {| encode := w_wire_encode; decode := w_wire_decode; wire_form := w_wire_ok |}.
  - intros t m Ht. pose proof (encode_decode (Codec := w_codec) t m) as Hother.
    destruct t; simpl in *; try discriminate Ht; try exact (Hother eq_refl).
    + exists (elems (Chunk m)). split; [done|]. by destruct m as [[|l]].
    + destruct m as [n]. simpl in *. destruct (Byte.of_N (Z.to_N n)) as [b|] eqn:E.
      * exists [b]. split; [done|]. apply Byte.to_of_N in E. rewrite E. do 2 f_equal. lia.
      * apply Byte.of_N_None_iff in E. lia.
  - intros t m Ht. destruct t; try discriminate Ht; reflexivity.
Defined.

#[local] Existing Instances w_verify w_store w_network w_wire w_syntax asc_order amd64.
#[local] Instance w_quote : GoQuote := id.

(** A server certificate by the CA "s", a client's by the CA "c". *)
Definition w_server_tls : TLSConfig string string :=
  mkTLSConfig VersionTLS12 true offered RequireAndVerifyClientCert ["server"] (Some "c") None.
Definition w_client_tls : TLSConfig string string :=
  mkTLSConfig VersionTLS12 true offered NoClientCert ["client"] None (Some "s").

Lemma w_connectable : connectable w_config w_server_tls w_client_tls "127.0.0.1:9000".
Proof. split_and!; reflexivity. Qed.
Lemma w_empty_carried : empty_carried.
Proof.
  intros t m Ht. split; [destruct t; try discriminate Ht; reflexivity|].
  intros bs He. assert (bs = []) as -> by (destruct t; try discriminate Ht; by injection He as <-).
  split; [done|]. exists []. done.
Qed.

Lemma w_chunk_carried b : carried gzip_Name TBulkSyncRequestChunk (mkBulkSyncRequestChunk (Sl [b])).
Proof. split; [discriminate|]. intros bs [= <-]. split; [done|by eexists]. Qed.

Lemma client_calls_reach_handlers_witness :
  let s := grpcServerForCloudController w_config w_server_tls empty_capi in
  ∃ client, NewCloudControllerClient "127.0.0.1:9000" w_client_tls = inr client ∧
    cc_invoke client s (CDeleteRoute (mkDeleteRouteRequest "g")) = Ret (s, inr mkDeleteRouteResponse) ∧
    cc_invoke client s (CHealth mkHealthRequest) = Ret (s, inr (mkHealthResponse true)).
Proof.
  intros s.
  destruct (client_calls_reach_handlers w_config w_server_tls w_client_tls "127.0.0.1:9000" empty_capi
    (CDeleteRoute (mkDeleteRouteRequest "g"))) as (client & Hc & Hr & _).
  - exact w_connectable.
  - split; [reflexivity|]. intros bs [= <-]. split; [done|]. by eexists.
  - intros c' [] _. by apply w_empty_carried.
  - destruct (client_calls_reach_handlers w_config w_server_tls w_client_tls "127.0.0.1:9000" empty_capi
      (CHealth mkHealthRequest)) as (client' & Hc' & Hr' & _).
    + exact w_connectable.
    + by apply w_empty_carried.
    + intros c' out [= _ <-]. split; [reflexivity|]. intros bs [= <-]. split; [done|]. by eexists.
    + rewrite Hc in Hc'. injection Hc' as <-. exists client. split; [exact Hc|]. split; [exact Hr|exact Hr'].
Defined.

Lemma bulk_sync_over_wire_witness :
  let chunks := [mkBulkSyncRequestChunk (Sl [Byte.x01]); mkBulkSyncRequestChunk (Sl [Byte.x02])] in
  let s := grpcServerForCloudController w_config w_server_tls empty_capi in
  ∃ client x, NewCloudControllerClient "127.0.0.1:9000" w_client_tls = inr client ∧
    CloseAndRecv w_unmarshal registered (cc_conn client) s (sends (call_info (cc_conn client)) x chunks) =
    Some (Ret (with_state s (after_sync empty_capi w_bulk), inr (mkBulkSyncResponse 2))).
Proof.
  intros chunks s.
  destruct (bulk_sync_over_wire w_config w_server_tls w_client_tls "127.0.0.1:9000" w_unmarshal
    empty_capi chunks) as (client & x & Hc & _ & Hok & _).
  - intros bytes request Hb. unfold w_unmarshal in Hb.
    repeat case_match_in Hb; simplify_eq. repeat constructor; eauto.
  - exact w_connectable.
  - constructor; [apply w_chunk_carried|]. constructor; [apply w_chunk_carried|constructor].
  - exists client, x. split; [exact Hc|]. apply (Hok w_bulk); [discriminate|reflexivity|].
    split; [split; vm_compute; first [reflexivity|discriminate]|]. intros bs [= <-]. split; [done|by eexists].
Defined.

(** A client without a certificate. *)
Definition w_anonymous : ClientConn string string :=
  mkClientConn "127.0.0.1:9000"
    (mkDialOptions false (Some (mkTLSConfig VersionTLS12 true offered NoClientCert [] None (Some "s")))
       false [] [] false 0) true.
Definition w_cert_files : gmap string string := {["cc-ca" := "c"; "crt" := "ser"; "key" := "ver"]}.

Lemma only_certified_clients_witness :
  ∃ err, conn_Invoke registered w_anonymous
    (grpcServerForCloudController w_config w_server_tls empty_capi)
    "/api.CloudControllerCopilot/DeleteRoute" TDeleteRouteRequest TDeleteRouteResponse
    (mkDeleteRouteRequest "g") =
  Ret (grpcServerForCloudController w_config w_server_tls empty_capi, inl err).
Proof.
  destruct (only_certified_clients (TLS0 := w_tls_files) w_cert_files w_config w_server_tls empty_capi
    w_anonymous eq_refl) as [Hcall _].
  destruct (Hcall registered "/api.CloudControllerCopilot/DeleteRoute" TDeleteRouteRequest
    TDeleteRouteResponse (mkDeleteRouteRequest "g")) as [He|(tls & [= <-] & Hcert)]; [exact He|].
  destruct Hcert as (bytes & pool & cert & certs & _ & _ & Hc & _). discriminate Hc.
Defined.
