(* ===== verification/McpPort.v ===== *)
(** * The MCP port ([vendor/istio.io/istio/pkg/mcp/source/server_source.go])

    The stream of [McpStream] as it really travels: Pilot's client ([NewMockPilotMCPClient]
    of [testhelpers/mock_mcp_client.go]) dials the server of [cmd/copilot-server/main.go]
    and waits for the connection, opens the stream of the generated stub
    ([vendor/istio.io/api/mcp/v1alpha1/mcp.pb.go]), and from then on each end sends and
    receives bytes, within the limits of [Grpc].  Either end can return while the other
    goes on for a while.  The protobuf encoding of the two messages is a parameter with
    its round trip; as long as what travels fits, the stream is the link of [Delivery]. *)
From S2P Require Import Prelude UniqueQueue GoStrings Istio McpCache McpStream SnapshotLoop McpClient.
From S2P Require Import Delivery Routes RouteMappings Associations Api Handlers Wire BulkStream.
From S2P Require Import ServerConfig Tls Grpc Clients.

(** ** Messages *)
Class McpCodec `{Marshal} := {
  encode_request : RequestResources → error + list Byte.byte;
  decode_request : list Byte.byte → error + RequestResources;
  encode_resources : ResourcesMsg → error + list Byte.byte;
  decode_resources : list Byte.byte → error + ResourcesMsg;
  request_roundtrip m bs : encode_request m = inr bs → decode_request bs = inr m;
  resources_roundtrip m bs : encode_resources m = inr bs → decode_resources bs = inr m;
}.

(** ** Dialling and opening *)
Section port.
Context {K P : Type} `{!X509Verify K P} `{Compressors} `{GoQuote} `{Network}.

Definition ResourceSource : string := "istio.mcp.v1alpha1.ResourceSource".

(** What the handler serves is the cache, which is the program's. *)
Definition grpcServerForMcp (cfg : Config) (pilotFacingTLSConfig : TLSConfig K P) : server K P unit :=
  mkServer (ListenAddressForMCP cfg) (Some pilotFacingTLSConfig) registered ResourceSource [] ().

Definition Second : Z := 1000000000.

Record PilotClient := mkPilot { pilot : MockPilotMCPClient; conn : ClientConn K P }.

(** [None] would be a dial that never returns. *)
Definition NewPilotClient {S} (s : server K P S) (tlsConfig : TLSConfig K P)
    (serverAddr : string) : option (string + PilotClient) :=
  match DialContext s serverAddr [WithBlock; WithTransportCredentials tlsConfig; WithTimeout (5 * Second)] with
  | None => None
  | Some (inl err) => Some (inl err)
  | Some (inr conn) =>
      match NewMockPilotMCPClient None with
      | inl err => Some (inl err)
      | inr cl => Some (inr (mkPilot cl conn))
      end
  end.

(** [EstablishResourceStream] of the client's stub: why no stream is opened, if none is. *)
Definition opens {S} (conn : ClientConn K P) (s : server K P S) : option error :=
  newClientStream registered conn s.
End port.
Arguments PilotClient : clear implicits.

(** ** The handler *)
(** [status.Code] of an error of the transport or of the source. *)
Definition Unauthenticated : Z := 16.
Definition status_Code (err : error) : Z :=
  match err with
  | StatusError code _ => code
  | Handlers.InvalidArgument _ => InvalidArgumentCode
  | PlainError _ => Unknown
  end.

Definition AllowAllChecker_Check {A} (authInfo : option A) : option string := None.

(** [Server.EstablishResourceStream], given what [ProcessStream] returned: the limiter,
    with its bucket of a billion, does not wait. *)
Definition EstablishResourceStream {A} (Check : option A → option string) (authInfo : option A)
    (processed : option error) : option error :=
  match Check authInfo with
  | Some err => Some (StatusError Unauthenticated ("Authentication failure: " +:+ err))
  | None =>
      match processed with
      | None => None
      | Some err => if decide (status_Code err = 0 ∨ status_Code err = Canceled)%Z then None else Some err
      end
  end.

(** ** The stream *)
Section stream.
Context `{Marshal} `{!Unmarshal} `{MapOrder} `{!McpCodec} `{Compressors} `{GoQuote}.
Context (groupIndex : string → string).

(** [RecvMsg] of either end on a frame under way.  The ends write whole frames, so the
    [io.EOF] of an empty one is not heard. *)
Definition recv_whole {A} (r : list Byte.byte * (recv_error + A)) : error + A :=
  match r.2 with
  | inr m => inr m
  | inl err => inl match toRPCErr err with RecvErr err => err | EOF => PlainError "EOF" end
  end.

(** The client's calls are made with the defaults; the server answers likewise. *)
Definition send_request (r : RequestResources) : error + list Byte.byte :=
  send_encoded "" (compressorType defaultCallInfo) (maxSendMessageSize defaultCallInfo) (encode_request r).
Definition recv_request (payload : list Byte.byte) : error + RequestResources :=
  recv_whole (recv_decoded registered (compressorType defaultCallInfo) defaultMaxReceiveMessageSize
    decode_request EOF payload).
Definition send_resources (m : ResourcesMsg) : error + list Byte.byte :=
  send_encoded "" (compressorType defaultCallInfo) defaultMaxSendMessageSize (encode_resources m).
Definition recv_resources (payload : list Byte.byte) : error + ResourcesMsg :=
  recv_whole (recv_decoded registered (compressorType defaultCallInfo)
    (maxReceiveMessageSize defaultCallInfo) decode_resources EOF payload).

(** The source's connection, the frames under way to it and to the sink, the sink with
    the initial requests it has not sent; and what either end's [ProcessStream] returned,
    if it has: nil, or for the sink [io.EOF], is [None]. *)
Record pilot_stream := mkPilotStream {
  source : connection;
  up : list (list Byte.byte);
  down : list (list Byte.byte);
  sink : Sink MockMCPUpdater;
  unsent : list RequestResources;
  source_end : option (option error);
  sink_end : option (option error);
}.
Definition alive (ps : pilot_stream) : Prop := source_end ps = None ∧ sink_end ps = None.
Global Instance alive_dec ps : Decision (alive ps).
Proof. unfold alive. destruct (source_end ps), (sink_end ps); (left; done) || (right; by intros []). Defined.

Definition open_stream (collections : list CollectionOptions) (peer : string) (who : nat)
    (sink : Sink MockMCPUpdater) : pilot_stream :=
  mkPilotStream (newConnection collections peer who) [] [] sink (createInitialRequests sink) None None.

Definition with_source (ps : pilot_stream) (con : connection) : pilot_stream :=
  mkPilotStream con (up ps) (down ps) (sink ps) (unsent ps) (source_end ps) (sink_end ps).
Definition end_source (ps : pilot_stream) (con : connection) (r : option error) : pilot_stream :=
  mkPilotStream con (up ps) (down ps) (sink ps) (unsent ps) (Some r) (sink_end ps).
Definition end_sink (ps : pilot_stream) (r : option error) : pilot_stream :=
  mkPilotStream (source ps) (up ps) (down ps) (sink ps) (unsent ps) (source_end ps) (Some r).

(** What a round of the source's loop returns; an error of the transport is passed on. *)
Definition returned (transport : string → error) (v : verdict) : option (option error) :=
  match v with
  | Continue => None
  | Return None => Some None
  | Return (Some e) => Some (Some
      match e with
      | Unsupported collection =>
          StatusError InvalidArgumentCode ("unsupported collection " +:+ Quote collection)
      | McpStream.Canceled => StatusError Unavailable "server canceled watch"
      | SendFailed err | RecvFailed err => transport err
      end)
  end.

(** The source's loop when a response is queued, with what [Send] makes of its message. *)
Definition flush (c : Cache Resource) (ps : pilot_stream) : option (Cache Resource * pilot_stream) :=
  '(con, c1, msgs, v) ← ProcessStream groupIndex (source ps) c (EvReady None);
  match msgs with
  | [] => Some (c1, mkPilotStream con (up ps) (down ps) (sink ps) (unsent ps)
                      (returned PlainError v) (sink_end ps))
  | msg :: _ =>
      match send_resources msg with
      | inr payload => Some (c1, mkPilotStream con (up ps) (down ps ++ [payload]) (sink ps) (unsent ps)
                                   (returned PlainError v) (sink_end ps))
      | inl err =>
          '(con, c1, _, v) ← ProcessStream groupIndex (source ps) c (EvReady (Some (error_string err)));
          Some (c1, mkPilotStream con (up ps) (down ps) (sink ps) (unsent ps)
                      (returned (λ _, err) v) (sink_end ps))
      end
  end.

(** The source's loop when a payload has come, with what [Recv] makes of it. *)
Definition serve (c : Cache Resource) (ps : pilot_stream) : option (Cache Resource * pilot_stream) :=
  match up ps with
  | [] => None
  | payload :: rest =>
      let '(ev, transport) := match recv_request payload with
                              | inl err => (EvHangup (Some (error_string err)), λ _, err)
                              | inr req => (EvRequest req, PlainError)
                              end in
      '(con, c, _, v) ← ProcessStream groupIndex (source ps) c ev;
      Some (c, mkPilotStream con rest (down ps) (sink ps) (unsent ps) (returned transport v) (sink_end ps))
  end.

(** What the sink hears when there is nothing more to receive. *)
Definition trailer (ps : pilot_stream) : option (option error) :=
  (λ r, status_error <$> EstablishResourceStream (A := unit) AllowAllChecker_Check None r) <$> source_end ps.

(** A round of the sink's loop; a request that cannot be sent ends it. *)
Definition ask_with (ps : pilot_stream) (rest : list (list Byte.byte)) (sink : Sink MockMCPUpdater)
    (unsent : list RequestResources) (req : RequestResources) : pilot_stream :=
  match send_request req with
  | inr payload => mkPilotStream (source ps) (up ps ++ [payload]) rest sink unsent (source_end ps) None
  | inl err => mkPilotStream (source ps) (up ps) rest sink unsent (source_end ps) (Some (Some err))
  end.
Definition ask (ps : pilot_stream) : option pilot_stream :=
  match unsent ps with
  | req :: unsent => Some (ask_with ps (down ps) (sink ps) unsent req)
  | [] =>
      match down ps with
      | [] => end_sink ps <$> trailer ps
      | payload :: rest =>
          match recv_resources payload with
          | inl err => Some (mkPilotStream (source ps) (up ps) rest (sink ps) [] (source_end ps) (Some (Some err)))
          | inr msg => let '(sink, req) := handleResponse (sink ps) msg in Some (ask_with ps rest sink [] req)
          end
      end
  end.

(** A move of the stream; an end that has returned makes none. *)
Definition move_pilot (c : Cache Resource) (ps : pilot_stream) (m : move)
    : option (Cache Resource * pilot_stream) :=
  match m with
  | Flush => match source_end ps with None => flush c ps | Some _ => None end
  | Serve => match source_end ps with None => serve c ps | Some _ => None end
  | Ask => match sink_end ps with None => ps ← ask ps; Some (c, ps) | Some _ => None end
  end.

(** ** Specification *)
(** The bytes under way are those of the link's messages. *)
Record represents (ps : pilot_stream) (l : link) : Prop := mkRepresents {
  rep_con : source ps = con l;
  rep_up : Forall2 (λ p r, send_request r = inr p) (up ps) (c2s l);
  rep_down : Forall2 (λ p m, send_resources m = inr p) (down ps) (s2c l);
  rep_sink : sink ps = client l;
  rep_unsent : unsent ps = initialRequests l;
  rep_ended : ended l = None;
}.

(** A message that the sender can send and the receiver takes. *)
Definition fits_up (r : RequestResources) : Prop :=
  ∃ p, send_request r = inr p ∧ recv_request p = inr r.
Definition fits_down (m : ResourcesMsg) : Prop :=
  ∃ p, send_resources m = inr p ∧ recv_resources p = inr m.
Definition fits (l : link) : Prop := Forall fits_up (c2s l) ∧ Forall fits_down (s2c l).
End stream.

(** ** Lemmas: what arrives is what was sent *)
Section carried.
Context `{Compressors} `{GoQuote}.

Lemma whole_received {A} (encoder : A → error + list Byte.byte) decoder who enc max installed max' m p m' :
  (∀ m bs, encoder m = inr bs → decoder bs = inr m) → (0 ≤ max')%Z → (max ≤ MaxUint32)%Z →
  send_encoded who enc max (encoder m) = inr p →
  recv_whole (recv_decoded installed enc max' decoder EOF p) = inr m' → m' = m.
Proof.
  intros Hrt Hm Hmax Hs. unfold recv_whole. rewrite <-(app_nil_r p).
  destruct (recv_decoded _ _ _ _ _ _) as [bs [err|m'']] eqn:E; simpl; [done|]. intros [= ->].
  by eapply (received_is_sent encoder) in E as [-> _].
Qed.

(** A frame longer than the receiver takes. *)
Lemma whole_oversized {A} (decoder : list Byte.byte → error + A) installed enc max flag body :
  (0 ≤ max < bytes_len body)%Z → (bytes_len body ≤ MaxUint32)%Z →
  recv_whole (recv_decoded installed enc max decoder EOF (frame flag body)) =
  inl (too_large (bytes_len body) max).
Proof.
  intros Hm Hb. unfold recv_whole, recv_decoded. rewrite <-(app_nil_r (frame flag body)).
  by rewrite recv_oversized.
Qed.
End carried.

Section lemmas.
Context `{Marshal} `{!Unmarshal} `{MapOrder} `{!McpCodec} `{Compressors} `{GoQuote}.
Context (groupIndex : string → string).

Lemma request_received r p r' : send_request r = inr p → recv_request p = inr r' → r' = r.
Proof. by apply whole_received; [apply request_roundtrip|..]. Qed.
Lemma resources_received m p m' : send_resources m = inr p → recv_resources p = inr m' → m' = m.
Proof. by apply whole_received; [apply resources_roundtrip|..]. Qed.

Lemma fits_up_sent r p : fits_up r → send_request r = inr p → recv_request p = inr r.
Proof. intros (p' & Hs & Hr) Hs'. congruence. Qed.
Lemma fits_down_sent m p : fits_down m → send_resources m = inr p → recv_resources p = inr m.
Proof. intros (p' & Hs & Hr) Hs'. congruence. Qed.

(** ** Lemmas: the moves *)
Lemma push_cases con k (wa : watch) resp :
  ∃ con1 msg, pushServerResponse con k wa resp None = (con1, inr msg) ∧
    ∀ err, ∃ con2, pushServerResponse con k wa resp (Some err) = (con2, inl (SendFailed err)).
Proof.
  unfold pushServerResponse.
  destruct (watchIncremental wa && incremental (RespRequest resp)); simpl; eauto 10.
Qed.

(** A queued response is sent or its failure ends the source; the cache is not touched. *)
Lemma ready_spec (con : connection) (c : Cache Resource) :
  match ProcessStream groupIndex con c (EvReady None) with
  | None => True
  | Some (con1, c1, msgs, v) =>
      c1 = c ∧ v = Continue ∧
      (msgs = [] ∨ ∃ msg, msgs = [msg] ∧ ∀ err, ∃ con2,
         ProcessStream groupIndex con c (EvReady (Some err)) = Some (con2, c, [], Return (Some (SendFailed err))))
  end.
Proof.
  simpl. destruct (take_entry None (conQueue con)) as [[q [[k item]|]]|]; [|by eauto|done].
  destruct (conWatches con !! k) as [wa|], item as [resp|]; try by eauto.
  destruct (push_cases (with_queue con q) k wa resp) as (con1 & msg & -> & Hf).
  split; [done|]. split; [done|]. right. exists msg. split; [done|]. intros err.
  destruct (Hf err) as (con2 & ->). by exists con2.
Qed.

(** What the source's moves leave alone, and what the sink's do. *)
Lemma flush_keeps c ps c1 ps1 :
  flush groupIndex c ps = Some (c1, ps1) →
  c1 = c ∧ sink ps1 = sink ps ∧ sink_end ps1 = sink_end ps ∧
  (source_end ps1 = None ∨ down ps1 = down ps).
Proof.
  unfold flush. pose proof (ready_spec (source ps) c) as Hr.
  destruct (ProcessStream groupIndex (source ps) c (EvReady None)) as [[[[con1 c2] msgs] v]|];
    cbn [mbind option_bind]; [|done].
  destruct Hr as (-> & -> & [->|(msg & -> & Hf)]); [intros [= <- <-]; simpl; auto|].
  destruct (send_resources msg) as [err|p]; [|intros [= <- <-]; simpl; auto].
  destruct (Hf (error_string err)) as (con2 & ->). cbn [mbind option_bind]. intros [= <- <-]. simpl. auto.
Qed.
Lemma serve_keeps c ps c1 ps1 :
  serve groupIndex c ps = Some (c1, ps1) →
  sink ps1 = sink ps ∧ sink_end ps1 = sink_end ps ∧ down ps1 = down ps ∧ unsent ps1 = unsent ps.
Proof.
  unfold serve. destruct (up ps) as [|p rest]; [done|].
  destruct (match recv_request p with inl _ => _ | inr _ => _ end) as [ev transport].
  destruct (ProcessStream _ _ _ _) as [[[[con1 c2] msgs] v]|]; cbn [mbind option_bind]; [|done].
  by intros [= <- <-].
Qed.
Lemma ask_keeps ps ps1 : ask ps = Some ps1 → source ps1 = source ps ∧ source_end ps1 = source_end ps.
Proof.
  unfold ask, ask_with. destruct (unsent ps) as [|req rest].
  - destruct (down ps) as [|p rest].
    + destruct (trailer ps); [|done]. by intros [= <-].
    + destruct (recv_resources p); [by intros [= <-]|]. destruct (handleResponse _ _) as [sink1 req].
      destruct (send_request req); by intros [= <-].
  - destruct (send_request req); by intros [= <-].
Qed.

(** A round of the sink: what it read, and what is left to read. *)
Lemma ask_reads ps ps1 :
  ask ps = Some ps1 →
  (sink ps1 = sink ps ∨ ∃ p rest m, down ps = p :: rest ∧ recv_resources p = inr m ∧
     sink ps1 = (handleResponse (sink ps) m).1) ∧ down ps1 `suffix_of` down ps.
Proof.
  unfold ask, ask_with. destruct (unsent ps) as [|req rest].
  - destruct (down ps) as [|p rest] eqn:Ed.
    + destruct (trailer ps); [|done]. intros [= <-]. simpl. rewrite Ed. by split; [left|].
    + assert (rest `suffix_of` p :: rest) by by exists [p].
      destruct (recv_resources p) as [err|m] eqn:Er; [intros [= <-]; by split; [left|]|].
      destruct (handleResponse (sink ps) m) as [sink1 req] eqn:Eh.
      destruct (send_request req); intros [= <-]; simpl; (split; [right|done]); exists p, rest, m; by rewrite Eh.
  - destruct (send_request req); intros [= <-]; simpl; by split; [left|].
Qed.

Lemma flush_represents c ps l :
  represents ps l →
  match flush groupIndex c ps with
  | None => move_link groupIndex c l Flush = None
  | Some (c1, ps1) => c1 = c ∧ ∃ l1, move_link groupIndex c l Flush = Some (c, l1) ∧
      sink ps1 = client l ∧ client l1 = client l ∧ sink_end ps1 = sink_end ps ∧ down ps `prefix_of` down ps1 ∧
      (source_end ps1 = None → represents ps1 l1) ∧ (fits l1 → source_end ps1 = None)
  end.
Proof.
  intros [Hc Hu Hd Hs Hi He]. unfold flush, move_link. rewrite He, <-Hc.
  pose proof (ready_spec (source ps) c) as Hr.
  destruct (ProcessStream groupIndex (source ps) c (EvReady None)) as [[[[con1 c1] msgs] v]|];
    cbn [mbind option_bind]; [|done].
  destruct Hr as (-> & -> & [->|(msg & -> & Hf)]).
  - split; [done|]. eexists. split; [done|]. split; [done|]. split; [done|]. split; [done|].
    split; [done|]. split; [|done]. intros _. split; simpl; rewrite ?app_nil_r; done.
  - destruct (send_resources msg) as [err|p] eqn:Ep.
    + destruct (Hf (error_string err)) as (con2 & ->). cbn [mbind option_bind]. split; [done|]. eexists. split; [done|].
      split; [done|]. split; [done|]. split; [done|]. split; [done|]. split; [done|].
      intros [_ Hfit]. simpl in Hfit. apply Forall_app in Hfit as [_ Hfit]. apply Forall_cons in Hfit as [(p & Hp & _) _].
      congruence.
    + simpl. split; [done|]. eexists. split; [done|]. split; [done|]. split; [done|]. split; [done|].
      split; [by eexists|]. split; [|done]. intros _. split; simpl; try done. apply Forall2_app; [done|]. by repeat constructor.
Qed.

Lemma serve_represents c ps l :
  represents ps l →
  match serve groupIndex c ps with
  | None => move_link groupIndex c l Serve = None
  | Some (c1, ps1) => sink ps1 = client l ∧ sink_end ps1 = sink_end ps ∧ down ps1 = down ps ∧
      ∃ c2 l1, move_link groupIndex c l Serve = Some (c2, l1) ∧ client l1 = client l ∧
        (c1 = c ∨ c1 = c2) ∧
        (source_end ps1 = None → c1 = c2 ∧ represents ps1 l1) ∧
        (fits l → ended l1 = None → source_end ps1 = None)
  end.
Proof.
  intros [Hc Hu Hd Hs Hi He]. unfold serve, move_link. rewrite He, <-Hc.
  inversion Hu as [E1 E2|p r us cs Hp Hus E1 E2]; [done|].
  destruct (recv_request p) as [err|r'] eqn:Er; simpl.
  - destruct (processClientRequest _ _ _ _) as [[con1 c2] e]. split; [done|]. split; [done|]. split; [done|].
    do 2 eexists. split; [done|]. split; [done|]. split; [by left|]. split; [done|].
    intros [Hfit _]. rewrite <-E2 in Hfit. apply Forall_cons in Hfit as [Hfit _].
    by rewrite (fits_up_sent _ _ Hfit Hp) in Er.
  - rewrite (request_received _ _ _ Hp Er). destruct (processClientRequest _ _ _ _) as [[con1 c2] e]. simpl.
    split; [done|]. split; [done|]. split; [done|]. do 2 eexists. split; [done|]. split; [done|].
    split; [by right|]. split; [|by destruct e].
    destruct e; simpl; [done|]. intros _. split; [done|]. split; simpl; rewrite ?app_nil_r; done.
Qed.

(** What is left of a round of the sink's loop once its request is known. *)
Lemma ask_with_represents ps l rest cs sink1 unsent1 req :
  represents ps l → source_end ps = None → Forall2 (λ p m, send_resources m = inr p) rest cs →
  let l1 := mkLink (con l) (c2s l ++ [req]) cs sink1 unsent1 None in
  let ps1 := ask_with ps rest sink1 unsent1 req in
  source_end ps1 = None ∧ sink ps1 = sink1 ∧ (sink_end ps1 = None → represents ps1 l1) ∧
  (fits l1 → sink_end ps1 = None).
Proof.
  intros [Hc Hu Hd Hs Hi He] Hse Hrest l1 ps1. subst ps1. unfold ask_with. rewrite Hse.
  destruct (send_request req) as [err|p] eqn:Ep.
  - split; [done|]. split; [done|]. split; [done|]. intros [Hfit _]. simpl in Hfit.
    apply Forall_app in Hfit as [_ Hfit]. apply Forall_cons in Hfit as [(p & Hp & _) _]. congruence.
  - split; [done|]. split; [done|]. split; [|done]. intros _. split; simpl; try done.
    apply Forall2_app; [done|]. by repeat constructor.
Qed.

Lemma ask_represents c ps l :
  represents ps l → source_end ps = None →
  match ask ps with
  | None => move_link groupIndex c l Ask = None
  | Some ps1 => source_end ps1 = None ∧ ∃ l1, move_link groupIndex c l Ask = Some (c, l1) ∧
      (sink ps1 = client l ∨ sink ps1 = client l1) ∧ (sink_end ps1 = None → represents ps1 l1) ∧
      (fits l → fits l1 → sink_end ps1 = None)
  end.
Proof.
  intros Hrep Hse. pose proof Hrep as [Hc Hu Hd Hs Hi He]. unfold ask, move_link. rewrite He, <-Hi.
  destruct (unsent ps) as [|req unsent'] eqn:Eun; simpl.
  - inversion Hd as [E1 E2|p msg rest cs Hp Hrest E1 E2]; simpl.
    { unfold trailer. by rewrite Hse. }
    destruct (recv_resources p) as [err|msg'] eqn:Er.
    + split; [done|]. destruct (handleResponse (client l) msg) as [sink1 req].
      eexists. split; [done|]. split; [by left|]. split; [done|]. intros [_ Hfit] _.
      rewrite <-E2 in Hfit. apply Forall_cons in Hfit as [Hfit _]. by rewrite (fits_down_sent _ _ Hfit Hp) in Er.
    + rewrite (resources_received _ _ _ Hp Er), Hs. destruct (handleResponse (client l) msg) as [sink1 req].
      destruct (ask_with_represents ps l rest cs sink1 [] req) as (? & Hsink & ? & ?); [done..|].
      split; [done|]. eexists. split; [done|]. rewrite Hsink. auto.
  - destruct (ask_with_represents ps l (down ps) (s2c l) (sink ps) unsent' req) as (? & Hsink & ? & ?); [done..|].
    split; [done|]. rewrite Hs in *. eexists. split; [done|]. rewrite Hsink. auto.
Qed.
End lemmas.

(** ** Lemmas: who gets a stream *)
Section dialled.
Context {K P : Type} `{!X509Verify K P} `{Compressors} `{GoQuote} `{Network}.

Lemma ready_reaches {S} (cc : ClientConn K P) (s : server K P S) : ready cc s = true ↔ reaches cc s.
Proof.
  unfold ready, reaches. destruct (resolve (target cc)) as [err|endpoint].
  { split; [done|]. by intros [? _]. }
  destruct (unreachable endpoint) as [why|] eqn:Eu.
  { split; [done|]. intros ([= ->] & ? & _). congruence. }
  rewrite andb_true_iff, bool_decide_eq_true. split; [intros [-> ?]; by rewrite Eu|]. by intros ([= ->] & _ & ?).
Qed.

Lemma opens_reaches {S} (cc : ClientConn K P) (s : server K P S) :
  is_open cc = true → compresses (compressorType (call_info cc)) = false →
  opens cc s = None ↔ reaches cc s.
Proof.
  intros Ho Hc. unfold opens, newClientStream. rewrite Ho, Hc, <-ready_reaches. unfold ready. simpl.
  destruct (resolve (target cc)) as [err|endpoint]; [done|]. destruct (unreachable endpoint); [done|].
  case_decide as E; [rewrite bool_decide_true by done|rewrite bool_decide_false by done]; simpl; [|done].
  by destruct (secured cc s endpoint).
Qed.

(** The connection of Pilot's client. *)
Definition pilot_conn (tls : TLSConfig K P) (addr : string) : ClientConn K P :=
  mkClientConn addr (mkDialOptions false (Some tls) false [] [] true (5 * Second)) true.

Lemma NewPilotClient_spec {S} (s : server K P S) tls addr :
  NewPilotClient s tls addr =
  match resolve addr with
  | inl err => Some (inl err)
  | inr _ =>
      if ready (pilot_conn tls addr) s
      then Some (inr (mkPilot (mkPilotClient false
             (NewSink (CollectionOptionsFromSlice client_typeURLs) (mkUpdater ∅)) true) (pilot_conn tls addr)))
      else Some (inl DeadlineExceeded)
  end.
Proof.
  unfold NewPilotClient, DialContext, Dial. simpl. destruct (resolve addr); [done|].
  change (mkClientConn addr _ true) with (pilot_conn tls addr). simpl. by destruct (ready _ s).
Qed.
End dialled.

(** ** Runs of the stream *)
Section runs.
Context `{Marshal} `{!Unmarshal} `{MapOrder} `{!McpCodec} `{Compressors} `{GoQuote}.
Context (groupIndex : string → string).

Fixpoint moves_pilot (c : Cache Resource) (ps : pilot_stream) (ms : list move)
    : option (Cache Resource * pilot_stream) :=
  match ms with
  | [] => Some (c, ps)
  | m :: ms => '(c, ps) ← move_pilot groupIndex c ps m; moves_pilot c ps ms
  end.

(** The moves of a link along which everything fits. *)
Inductive fitting_moves : Cache Resource → link → list move → Cache Resource → link → Prop :=
| fitting_nil c l : fits l → fitting_moves c l [] c l
| fitting_cons c l m c1 l1 ms c2 l2 :
    fits l → move_link groupIndex c l m = Some (c1, l1) → fitting_moves c1 l1 ms c2 l2 →
    fitting_moves c l (m :: ms) c2 l2.

Lemma fitting_start c l ms c1 l1 : fitting_moves c l ms c1 l1 → fits l.
Proof. by destruct 1. Qed.

(** One move of the stream is the link's, unless it ends the stream. *)
Lemma move_represents c ps l m :
  represents ps l → alive ps →
  match move_pilot groupIndex c ps m with
  | None => move_link groupIndex c l m = None
  | Some (c1, ps1) => ∃ c2 l1, move_link groupIndex c l m = Some (c2, l1) ∧
      (c1 = c ∨ c1 = c2) ∧ (sink ps1 = client l ∧ c1 = c ∨ sink ps1 = client l1 ∧ c1 = c2) ∧
      (alive ps1 → c1 = c2 ∧ represents ps1 l1) ∧
      (fits l → fits l1 → ended l1 = None → alive ps1)
  end.
Proof.
  intros Hrep [Hse Hke]. unfold alive. destruct m; simpl; rewrite ?Hse, ?Hke; simpl.
  - pose proof (flush_represents groupIndex c ps l Hrep) as Hf.
    destruct (flush groupIndex c ps) as [[c1 ps1]|]; [|done].
    destruct Hf as (-> & l1 & Hm & Hs & Hcl & Hend & _ & Hal & Hfit). rewrite Hend, Hke.
    exists c, l1. split; [done|]. split; [by left|]. split; [by left|]. split; [naive_solver|auto].
  - pose proof (serve_represents groupIndex c ps l Hrep) as Hf.
    destruct (serve groupIndex c ps) as [[c1 ps1]|]; [|done].
    destruct Hf as (Hs & Hend & _ & c2 & l1 & Hm & Hcl & Hc & Hal & Hfit). rewrite Hend, Hke.
    exists c2, l1. split; [done|]. split; [done|]. split; [rewrite Hs, Hcl; naive_solver|].
    split; [naive_solver|auto].
  - pose proof (ask_represents groupIndex c ps l Hrep Hse) as Hf.
    destruct (ask ps) as [ps1|]; simpl; [|done].
    destruct Hf as (Hend & l1 & Hm & Hs & Hal & Hfit). rewrite Hend.
    exists c, l1. split; [done|]. split; [by left|]. split; [naive_solver|]. split; [naive_solver|auto].
Qed.

(** A stream that is up has no more to read after a move than the link has. *)
Lemma move_down c ps m c1 ps1 :
  move_pilot groupIndex c ps m = Some (c1, ps1) → alive ps → sink_end ps1 = None →
  alive ps1 ∨ down ps1 = down ps.
Proof.
  intros Hm [Hse _] Hk. unfold alive. destruct m; simpl in Hm; rewrite ?Hse in Hm.
  - destruct (flush_keeps groupIndex c ps c1 ps1 Hm) as (_ & _ & _ & [?|?]); auto.
  - destruct (serve_keeps groupIndex c ps c1 ps1 Hm) as (_ & _ & ? & _). auto.
  - destruct (sink_end ps); [done|]. destruct (ask ps) as [ps2|] eqn:E; simpl in Hm; [|done].
    injection Hm as <- <-. destruct (ask_keeps ps ps2 E) as [_ E']. left. split; [congruence|done].
Qed.

(** An end that has returned stays so. *)
Lemma move_alive c ps m c1 ps1 : move_pilot groupIndex c ps m = Some (c1, ps1) → alive ps1 → alive ps.
Proof.
  intros Hm [Hse1 Hke1]. unfold alive. destruct m; simpl in Hm.
  - destruct (source_end ps); [done|]. destruct (flush_keeps groupIndex c ps c1 ps1 Hm) as (_ & _ & E & _).
    split; [done|congruence].
  - destruct (source_end ps); [done|]. destruct (serve_keeps groupIndex c ps c1 ps1 Hm) as (_ & E & _).
    split; [done|congruence].
  - destruct (sink_end ps); [done|]. destruct (ask ps) as [ps2|] eqn:E; simpl in Hm; [|done].
    injection Hm as <- <-. destruct (ask_keeps ps ps2 E) as [_ E']. split; [congruence|done].
Qed.
Lemma moves_alive c ps ms c1 ps1 : moves_pilot c ps ms = Some (c1, ps1) → alive ps1 → alive ps.
Proof.
  revert c ps; induction ms as [|m ms IH]; intros c ps; simpl; [by intros [= _ <-]|].
  destruct (move_pilot groupIndex c ps m) as [[c2 ps2]|] eqn:E; simpl; [|done].
  intros Hm Ha. eapply move_alive; [exact E|]. by eapply IH.
Qed.
End runs.

(** ** Properties *)

(** C4. The stream over the wire is the stream of the model: a newly opened one stands for
    a new link; whatever a stream that is still up has done, over bytes, within the size
    limits and with errors of the transport, the link has done, message by message and
    with the same cache; and whatever the link can do, as long as the messages under way
    fit the limits, the stream can do, and stays up. *)
Theorem pilot_stream_is_link `{Marshal} `{!Unmarshal} `{MapOrder} `{!McpCodec} `{Compressors} `{GoQuote}
    (groupIndex : string → string) (collections : list CollectionOptions) (peer : string) (who : nat)
    (s : Sink MockMCPUpdater) (c c1 : Cache Resource) (ps : pilot_stream) (l : link) (ms : list move)
    (Hr : represents ps l) (Ha : alive ps) :
  represents (open_stream collections peer who s) (connect collections peer who s) ∧
  (∀ ps1, moves_pilot groupIndex c ps ms = Some (c1, ps1) → alive ps1 →
     ∃ l1, represents ps1 l1 ∧ run_moves groupIndex (mkWorld c l []) ms = Some (mkWorld c1 l1 [])) ∧
  (∀ l1, fitting_moves groupIndex c l ms c1 l1 → ended l1 = None →
     ∃ ps1, moves_pilot groupIndex c ps ms = Some (c1, ps1) ∧ alive ps1 ∧ represents ps1 l1).
Proof.
  split; [by split|]. split.
  - intros ps1. revert c ps l Hr Ha. induction ms as [|m ms IH]; intros c ps l Hr Ha; simpl.
    { intros [= <- <-] _. by exists l. }
    pose proof (move_represents groupIndex c ps l m Hr Ha) as Hm.
    destruct (move_pilot groupIndex c ps m) as [[c2 ps2]|]; simpl; [|done]. intros Hms Ha1.
    destruct Hm as (c3 & l2 & Hl & _ & _ & Hal & _).
    pose proof (moves_alive groupIndex _ _ _ _ _ Hms Ha1) as Ha2. destruct (Hal Ha2) as [-> Hr2].
    destruct (IH c3 ps2 l2 Hr2 Ha2 Hms Ha1) as (l1 & Hr1 & Hrun). exists l1. split; [done|].
    unfold move_world. simpl. by rewrite Hl.
  - intros l1 Hf. revert ps Hr Ha. induction Hf as [c l Hfl|c l m c2 l2 ms c3 l3 Hfl Hm Hf IH]; intros ps Hr Ha He.
    { by exists ps. }
    pose proof (move_represents groupIndex c ps l m Hr Ha) as Hp. simpl.
    destruct (move_pilot groupIndex c ps m) as [[c4 ps2]|]; [|congruence].
    destruct Hp as (c5 & l4 & Hl & _ & _ & Hal & Hfit). rewrite Hm in Hl. injection Hl as <- <-.
    assert (ended l2 = None) as He2.
    { destruct Hf as [|c6 l6 m6 c7 l7 ms6 c8 l8 _ Hm6 _]; [done|]. unfold move_link in Hm6. by destruct (ended l6). }
    assert (alive ps2) as Ha2 by (apply Hfit; [done|by eapply fitting_start|done]).
    destruct (Hal Ha2) as [-> Hr2]. simpl. by apply IH.
Qed.

(** C8. What does not fit.  A response that cannot be encoded or sent ends the source, and
    a request, an initial one or the answer to a response, ends the sink, with that error;
    what is under way, the other end and the cache are untouched.  A frame whose payload
    is larger than 4 MB, whatever its flag, ends the receiver with [ResourceExhausted]
    before it looks at the message: the sink keeps all it had, and the source its cache;
    since the source may send up to 2 GB, a collection of more than 4 MB leaves the server
    and never arrives.  When the source has returned and nothing is left to read, the sink
    hears why, except that a clean end and a cancelled stream are [EOF]. *)
Theorem transport_errors `{Marshal} `{!Unmarshal} `{MapOrder} `{!McpCodec} `{Compressors} `{GoQuote}
    (groupIndex : string → string) (c : Cache Resource) (ps : pilot_stream) :
  (∀ msg err con1 c1 v, source_end ps = None → send_resources msg = inl err →
     ProcessStream groupIndex (source ps) c (EvReady None) = Some (con1, c1, [msg], v) →
     ∃ con2, move_pilot groupIndex c ps Flush = Some (c, end_source ps con2 (Some err))) ∧
  (∀ req err, sink_end ps = None → send_request req = inl err →
     (∀ rest, unsent ps = req :: rest → move_pilot groupIndex c ps Ask =
        Some (c, mkPilotStream (source ps) (up ps) (down ps) (sink ps) rest (source_end ps) (Some (Some err)))) ∧
     (∀ p rest msg sink1, unsent ps = [] → down ps = p :: rest → recv_resources p = inr msg →
        handleResponse (sink ps) msg = (sink1, req) → move_pilot groupIndex c ps Ask =
        Some (c, mkPilotStream (source ps) (up ps) rest sink1 [] (source_end ps) (Some (Some err))))) ∧
  (∀ flag body rest, source_end ps = None → up ps = frame flag body :: rest →
     (defaultMaxReceiveMessageSize < bytes_len body ≤ MaxUint32)%Z →
     ∃ ps1, move_pilot groupIndex c ps Serve = Some (c, ps1) ∧ sink ps1 = sink ps ∧
       source_end ps1 = Some (Some (too_large (bytes_len body) defaultMaxReceiveMessageSize))) ∧
  (∀ flag body rest, sink_end ps = None → unsent ps = [] → down ps = frame flag body :: rest →
     (defaultMaxReceiveMessageSize < bytes_len body ≤ MaxUint32)%Z →
     ∃ ps1, move_pilot groupIndex c ps Ask = Some (c, ps1) ∧ sink ps1 = sink ps ∧
       sink_end ps1 = Some (Some (too_large (bytes_len body) defaultMaxReceiveMessageSize))) ∧
  (∀ msg bs, encode_resources msg = inr bs → (bytes_len bs ≤ defaultMaxSendMessageSize)%Z →
     send_resources msg = inr (frame compressionNone bs)) ∧
  (∀ r, sink_end ps = None → unsent ps = [] → down ps = [] → source_end ps = Some r →
     move_pilot groupIndex c ps Ask = Some (c, end_sink ps
       match r with
       | Some err => if decide (status_Code err = 0 ∨ status_Code err = Canceled)%Z then None
                     else Some (status_error err)
       | None => None
       end)).
Proof.
  split; [|split; [|split; [|split; [|split]]]].
  - intros msg err con1 c1 v Hse Hs Hp. simpl. rewrite Hse. unfold flush.
    pose proof (ready_spec groupIndex (source ps) c) as Hr. rewrite Hp in *. cbn [mbind option_bind].
    destruct Hr as (-> & -> & [[=]|(msg' & [= <-] & Hf)]). rewrite Hs.
    destruct (Hf (error_string err)) as (con2 & ->). by exists con2.
  - intros req err Hke Hs. split.
    + intros rest Hun. simpl. rewrite Hke. unfold ask, ask_with. by rewrite Hun, Hs.
    + intros p rest msg sink1 Hun Hd Hr Hh. simpl. rewrite Hke. unfold ask, ask_with. by rewrite Hun, Hd, Hr, Hh, Hs.
  - intros flag body rest Hse Hup Hlen. simpl. rewrite Hse. unfold serve, recv_request.
    rewrite Hup, whole_oversized by (split; [done|lia] || lia). by eexists.
  - intros flag body rest Hke Hun Hd Hlen. simpl. rewrite Hke. unfold ask, recv_resources.
    rewrite Hun, Hd, whole_oversized by (split; [done|simpl; lia] || lia). by eexists.
  - intros msg bs He Hlen. unfold send_resources. rewrite He.
    assert (defaultMaxSendMessageSize < MaxUint32)%Z by done. apply send_data; [lia|done|lia].
  - intros r Hke Hun Hd Hse. simpl. rewrite Hke. unfold ask, trailer. rewrite Hun, Hd, Hse. simpl.
    unfold EstablishResourceStream, AllowAllChecker_Check. destruct r as [err|]; [|done]. by case_decide.
Qed.

(** C9. Only Pilot gets a stream: on the server that [mainWithError] makes from a
    configuration, Pilot's client always returns from dialling; it has a client exactly
    when the address leads to the server and the handshake succeeds, and then it opens
    streams; and no connection of whatever client opens one without a certificate that
    the configured CA file for Pilot vouches for. *)
Theorem pilot_needs_certificate {F K P : Type} `{!TLS F K P} `{!X509Verify K P} `{Compressors} `{GoQuote}
    `{Network} (f : F) (cfg : Config) (stls : TLSConfig K P) (Htls : ServerTLSConfigForPilot f cfg = inr stls) :
  let s := grpcServerForMcp cfg stls in
  let host := server_name (ListenAddressForMCP cfg) in
  (∀ tls addr, match NewPilotClient s tls addr with
     | None => False
     | Some (inr client) => opens (conn client) s = None ∧ resolve addr = inr (ListenAddressForMCP cfg) ∧
         handshake tls stls host = true ∧ certified f (PilotClientCAPath cfg) tls
     | Some (inl _) => resolve addr ≠ inr (ListenAddressForMCP cfg) ∨
         unreachable (ListenAddressForMCP cfg) ≠ None ∨ handshake tls stls host = false
     end) ∧
  (∀ cc, opens cc s = None → ∃ tls, TransportCredentials (dopts cc) = Some tls ∧
     certified f (PilotClientCAPath cfg) tls).
Proof.
  intros s host.
  assert (∀ tls, handshake tls stls host = true → certified f (PilotClientCAPath cfg) tls) as Hadm.
  { intros tls Hh. destruct (admission f cfg _ _ stls tls host Htls) as (cert & _ & Hiff).
    by destruct (proj1 Hiff Hh) as (_ & _ & _ & Hc). }
  split.
  - intros tls addr. rewrite NewPilotClient_spec. pose proof (ready_reaches (pilot_conn tls addr) s) as Hr.
    pose proof (opens_reaches (pilot_conn tls addr) s eq_refl eq_refl) as Ho.
    destruct (resolve addr) as [err|endpoint] eqn:Er; [by left|].
    destruct (ready (pilot_conn tls addr) s); simpl.
    + destruct Hr as [Hr _]. specialize (Hr eq_refl). split; [by apply Ho|].
      destruct Hr as (Ha & _ & Hsec). simpl in Ha. rewrite Er in Ha. split; [done|]. split; [exact Hsec|]. by apply Hadm.
    + destruct (decide (endpoint = ListenAddressForMCP cfg)) as [->|Hne]; [|left; congruence].
      destruct (unreachable (ListenAddressForMCP cfg)) as [why|] eqn:Eu; [by right; left|].
      right; right. apply not_true_is_false. intros Hh.
        assert (false = true) as [=]. apply Hr. by split_and!.
  - intros cc Ho. assert (secured cc s (listenAddr s) = true) as Hsec.
    { apply (NewStream_secured registered cc s (mkClientStream [] false None)).
      unfold NewStream. unfold opens in Ho. by rewrite Ho. }
    unfold secured in Hsec. simpl in Hsec.
    destruct (TransportCredentials (dopts cc)) as [tls|] eqn:Ht; [|done]. exists tls. split; [done|]. by apply Hadm.
Qed.

(** ** Witnesses *)
(** A codec for finitely many messages, whatever their nonces: the number of the message
    in a table, and its nonce. *)
Section table.
Context {A : Type} `{!EqDecision A} (nonce : A → string) (with_nonce : A → string → A) (table : list A).

Definition table_encode (m : A) : error + list Byte.byte :=
  match list_find (λ t, with_nonce t (nonce m) = m) table with
  | Some (i, _) =>
      match Byte.of_nat i with
      | Some b => inr (b :: String.list_byte_of_string (nonce m))
      | None => inl (PlainError "unsupported")
      end
  | None => inl (PlainError "unsupported")
  end.
Definition table_decode (bs : list Byte.byte) : error + A :=
  match bs with
  | b :: n =>
      match table !! Byte.to_nat b with
      | Some t => inr (with_nonce t (String.string_of_list_byte n))
      | None => inl (PlainError "unsupported")
      end
  | [] => inl (PlainError "unsupported")
  end.

Lemma table_roundtrip m bs : table_encode m = inr bs → table_decode bs = inr m.
Proof.
  unfold table_encode. destruct (list_find _ table) as [[i t]|] eqn:E; [|done].
  apply list_find_Some in E as (Ht & Em & _). destruct (Byte.of_nat i) as [b|] eqn:Eb; [|done].
  intros [= <-]. simpl. apply Byte.to_of_nat in Eb. rewrite Eb, Ht.
  by rewrite String.string_of_list_byte_of_string, Em.
Qed.
End table.

Definition request_eq_dec : EqDecision RequestResources.
Proof.
  assert (EqDecision rpc_status) by solve_decision. solve_decision.
Defined.
Definition resources_eq_dec `{Marshal} `{!EqDecision any} : EqDecision ResourcesMsg.
Proof. solve_decision. Defined.

Definition request_nonce (r : RequestResources) (n : string) : RequestResources :=
  mkRequestResources (ReqCollection r) (InitialResourceVersions r) (ReqIncremental r) n (ErrorDetail r).
Definition resources_nonce `{Marshal} (m : ResourcesMsg) (n : string) : ResourcesMsg :=
  mkResourcesMsg (SystemVersionInfo m) (MsgCollection m) (MsgResources m) (RemovedResources m)
    (MsgIncremental m) n.

(** A codec for the exchange about some collections of some snapshots. *)
#[local] Existing Instances request_eq_dec resources_eq_dec.
Definition table_codec `{Marshal} `{!EqDecision any} (ks : list string) (shots : list (InMemory Resource))
    : McpCodec := {|
  encode_request := table_encode ResponseNonce request_nonce
    ((λ k, mkRequestResources k ∅ false "" None) <$> ks);
  decode_request := table_decode request_nonce ((λ k, mkRequestResources k ∅ false "" None) <$> ks);
  encode_resources := table_encode Nonce resources_nonce
    (shots ≫= λ s, (λ k, mkResourcesMsg (VersionOf s k) k (elems (Resources s k)) [] false "") <$> ks);
  decode_resources := table_decode resources_nonce
    (shots ≫= λ s, (λ k, mkResourcesMsg (VersionOf s k) k (elems (Resources s k)) [] false "") <$> ks);
  request_roundtrip := table_roundtrip _ _ _;
  resources_roundtrip := table_roundtrip _ _ _;
|}.

Section witness.
#[local] Existing Instances transparent transparent_unmarshal asc_order w_store w_verify w_network w_quote.
#[local] Instance any_eq_dec : EqDecision (@any transparent) := proto_eq_dec.
#[local] Instance w_mcp : McpCodec := table_codec ["c"] [w_shot].

(** The world of [Delivery]'s witnesses, its stream over the wire. *)
Definition w_stream : pilot_stream :=
  open_stream (CollectionOptionsFromSlice ["b"; "c"]) "peer" 1
    (NewSink (CollectionOptionsFromSlice ["c"]) (mkUpdater ∅)).
Definition w_served : Cache Resource := wcache w_published.
Definition w_arrived : Cache Resource * pilot_stream :=
  default (w_served, w_stream) (moves_pilot IndexFunction w_served w_stream w_moves).

Lemma pilot_stream_is_link_witness :
  moves_pilot IndexFunction w_served w_stream w_moves = Some w_arrived ∧ alive w_arrived.2 ∧
  ∃ l1, represents w_arrived.2 l1 ∧
    run_moves IndexFunction (mkWorld w_served (wlink w_world) []) w_moves = Some (mkWorld w_arrived.1 l1 []).
Proof.
  assert (moves_pilot IndexFunction w_served w_stream w_moves = Some w_arrived) as Hm
    by (vm_compute; reflexivity).
  assert (alive w_arrived.2) as Ha by (vm_compute; split; reflexivity).
  split; [exact Hm|]. split; [exact Ha|].
  assert (w_arrived = (w_arrived.1, w_arrived.2)) as Ew by (by destruct w_arrived).
  destruct (pilot_stream_is_link IndexFunction [] "peer" 1 (NewSink [] (mkUpdater ∅)) w_served w_arrived.1
    w_stream (wlink w_world) w_moves) as (_ & Hsound & _).
  - split; try done; constructor.
  - by split.
  - apply (Hsound w_arrived.2); [by rewrite Hm, Ew|exact Ha].
Defined.

(** A sink that wants a collection whose request does not encode. *)
Definition w_mute : pilot_stream :=
  open_stream (CollectionOptionsFromSlice ["c"]) "peer" 1
    (NewSink (CollectionOptionsFromSlice ["d"]) (mkUpdater ∅)).

Lemma transport_errors_witness :
  move_pilot IndexFunction w_served w_mute Ask =
    Some (w_served, mkPilotStream (source w_mute) [] [] (sink w_mute) [] None
      (Some (Some (StatusError Internal "grpc: error while marshaling: unsupported")))).
Proof.
  destruct (transport_errors IndexFunction w_served w_mute) as (_ & Hask & _).
  destruct (Hask (mkRequestResources "d" ∅ false "" None)
    (StatusError Internal "grpc: error while marshaling: unsupported")) as [Hfirst _].
  - reflexivity.
  - vm_compute. reflexivity.
  - exact (Hfirst [] eq_refl).
Defined.

Definition w_pilot_files : gmap string string := {["pilot-ca" := "c"; "crt" := "ser"; "key" := "ver"]}.

Lemma pilot_needs_certificate_witness :
  let s := grpcServerForMcp w_config w_server_tls in
  (∃ client, NewPilotClient s w_client_tls "127.0.0.1:9001" = Some (inr client) ∧ opens (conn client) s = None) ∧
  (∃ err, opens w_anonymous s = Some err).
Proof.
  intros s.
  destruct (pilot_needs_certificate (TLS0 := w_tls_files) w_pilot_files w_config w_server_tls eq_refl)
    as [Hdial Hopen].
  split.
  - pose proof (Hdial w_client_tls "127.0.0.1:9001") as Hd.
    destruct (NewPilotClient _ w_client_tls "127.0.0.1:9001") as [[err|client]|] eqn:E;
      [|exists client; split; [reflexivity|apply Hd]|destruct Hd].
    vm_compute in E. discriminate E.
  - pose proof (Hopen w_anonymous) as Ho. destruct (opens w_anonymous s) as [err|] eqn:Eo; [by exists err|].
    destruct (Ho Eo) as (tls & [= <-] & bytes & pool & cert & certs & _ & _ & Hc & _). discriminate Hc.
Defined.
End witness.
