(* ===== verification/TestHelpers.v ===== *)
(** * The helpers of the tests ([testhelpers/])

    The certificates of the integration tests, with their files and TLS configurations;
    the choice of ports for parallel test processes; temporary files; and the stand-ins
    for the BBS and the policy server.  Making keys and certificates ([certstrap/pkix]),
    temporary names and HTTP below handlers are parameters; a failed assertion panics. *)
From Stdlib Require Import Ascii.
From S2P Require Import Prelude GoStrings BackendSets Certs Istio Sidecars ServerConfig Tls.

(** ** [common.go] *)
Definition assertNoError {A} (r : string + A) : outcome A :=
  match r with inl err => Panic err | inr a => Ret a end.
Definition assert_done (err : option string) : outcome unit :=
  match err with Some err => Panic err | None => Ret () end.

(** ** Ports ([pick_a_port.go]) *)
Record port_state := mkPorts { lastPortUsed : Z; once_done : bool }.
Definition no_ports : port_state := mkPorts 0 false.
Definition portRangeStart : Z := 61000.

(** [node] and [total] are Ginkgo's [ParallelNode] and [ParallelTotal]. *)
Definition PickAPort (node total : Z) (st : port_state) : port_state * Z :=
  let st := if decide (lastPortUsed st = 0%Z)
            then if once_done st then st else mkPorts (i64 (portRangeStart + node)) true
            else st in
  let port := i64 (lastPortUsed st + total) in
  (mkPorts port (once_done st), port).

(** The ports that a test process gets, call after call. *)
Fixpoint pick_ports (node total : Z) (st : port_state) (n : nat) : list Z :=
  match n with
  | 0 => []
  | S n => let '(st, port) := PickAPort node total st in port :: pick_ports node total st n
  end.

(** ** Certificates ([credentials.go]) *)
(** [certstrap/pkix] and the clock, on a state [W] of the system. *)
Class PKIX (W Key Crt Csr : Type) := {
  Now : W → Z;
  CreateRSAKey : W → Z → W * (string + Key);
  CreateCertificateAuthority : W → Key → string → Z → string → string → string → string → string →
    W * (string + Crt);
  CreateCertificateSigningRequest : W → Key → string → list string → list string → string → string →
    string → string → string → W * (string + Csr);
  CreateCertificateHost : W → Crt → Key → Csr → Z → W * (string + Crt);
  Export : Crt → string + string;
  ExportPrivate : Key → string + string;
}.

(** [ioutil.TempFile], [ioutil.TempDir] and removals. *)
Class TempFiles (W : Type) := {
  ioutil_TempFile : W → string → W * (string + string);
  ioutil_TempDir : W → string → W * (string + string);
  os_Remove : W → string → W * option string;
  os_RemoveAll : W → string → W * option string;
}.

Record Credentials := mkCredentials { CA : string; Key : string; Cert : string }.
Record MTLSCredentials := mkMTLS {
  Server : Credentials; Client : Credentials; OtherClient : Credentials; temp_dir : string;
}.
Record ServerTLSFilePaths := mkServerPaths {
  ClientCA : string; OtherClientCA : string; ServerCert : string; ServerKey : string;
}.
Record ClientTLSFilePaths := mkClientPaths {
  ServerCA : string; ClientCert : string; ClientKey : string;
}.

(** [temp_file_name.go]. *)
Section temp.
Context {W : Type} `{!TempFiles W}.

Definition TempFileName (w : W) : outcome (W * string) :=
  let '(w, f) := ioutil_TempFile w "test-config" in
  path ← assertNoError f;
  let '(w, err) := os_Remove w path in
  _ ← assert_done err; Ret (w, path).

Definition TempDir (w : W) : outcome (W * string) :=
  let '(w, dir) := ioutil_TempDir w "test-dir" in
  dir ← assertNoError dir; Ret (w, dir).

Definition CleanupTempFiles (w : W) (m : MTLSCredentials) : outcome W :=
  if decide (temp_dir m = "") then Ret w
  else let '(w, err) := os_RemoveAll w (temp_dir m) in _ ← assert_done err; Ret w.
End temp.

Definition hour : Z := 3600 * second.
Definition localhost : string := "127.0.0.1".

Section generate.
Context {W PKey Crt Csr : Type} `{!PKIX W PKey Crt Csr} `{!TempFiles W}.

Definition generateCredentials (w : W) (caCommonName commonName : string)
    : outcome (W * Credentials) :=
  let '(w, rootKey) := CreateRSAKey w 1024 in
  rootKey ← assertNoError rootKey;
  let '(w, certAuthority) := CreateCertificateAuthority w rootKey "some-ou" (Now w + hour)
    "some-org" "some-country" "" "" caCommonName in
  certAuthority ← assertNoError certAuthority;
  let '(w, key) := CreateRSAKey w 1024 in
  key ← assertNoError key;
  let '(w, csr) := CreateCertificateSigningRequest w key "some-ou" [localhost] [] "some-org"
    "some-country" "" "" commonName in
  csr ← assertNoError csr;
  let '(w, cert) := CreateCertificateHost w certAuthority rootKey csr (Now w + hour) in
  cert ← assertNoError cert;
  caBytes ← assertNoError (Export certAuthority);
  keyBytes ← assertNoError (ExportPrivate key);
  certBytes ← assertNoError (Export cert);
  Ret (w, mkCredentials caBytes keyBytes certBytes).

Definition GenerateMTLS (w : W) : outcome (W * MTLSCredentials) :=
  '(w, server) ← generateCredentials w "serverCA" "CopilotServer";
  '(w, client) ← generateCredentials w "clientCA" "CopilotClient";
  '(w, other) ← generateCredentials w "otherClientCA" "OtherCopilotClient";
  '(w, dir) ← TempDir w;
  Ret (w, mkMTLS server client other dir).
End generate.

(** The TLS configurations made of them. *)
Section tls.
Context {F K P : Type} `{!TLS F K P}.
Notation pool_of := (AppendCertsFromPEM (F := F) (K := K) (P := P)).
Notation pair_of := (X509KeyPair (F := F) (K := K) (P := P)).

Definition server_tls (clientCA : string) (server : Credentials) : outcome (TLSConfig K P) :=
  match pool_of clientCA with
  | None => Panic "failed appending certs"
  | Some clientCAs =>
      serverCert ← assertNoError (pair_of (Cert server) (Key server));
      Ret (mkTLSConfig VersionTLS12 true
             [TLS_ECDHE_RSA_WITH_AES_256_GCM_SHA384; TLS_ECDHE_RSA_WITH_AES_128_GCM_SHA256]
             RequireAndVerifyClientCert [serverCert] (Some clientCAs) None)
  end.
Definition client_tls (serverCA : string) (client : Credentials) : outcome (TLSConfig K P) :=
  match pool_of serverCA with
  | None => Panic "failed appending certs"
  | Some rootCAs =>
      clientCert ← assertNoError (pair_of (Cert client) (Key client));
      Ret (mkTLSConfig VersionTLS12 true
             [TLS_ECDHE_RSA_WITH_AES_256_GCM_SHA384; TLS_ECDHE_RSA_WITH_AES_128_GCM_SHA256]
             NoClientCert [clientCert] None (Some rootCAs))
  end.

Definition ServerTLSConfig (m : MTLSCredentials) : outcome (TLSConfig K P) :=
  server_tls (CA (Client m)) (Server m).
Definition ServerTLSConfigForOtherClient (m : MTLSCredentials) : outcome (TLSConfig K P) :=
  server_tls (CA (OtherClient m)) (Server m).
Definition ClientTLSConfig (m : MTLSCredentials) : outcome (TLSConfig K P) :=
  client_tls (CA (Server m)) (Client m).
Definition OtherClientTLSConfig (m : MTLSCredentials) : outcome (TLSConfig K P) :=
  client_tls (CA (Server m)) (OtherClient m).
End tls.

(** And their files. *)
Section files.
Context {W : Type} `{!FileSystem W}.

Definition saveTemp (w : W) (m : MTLSCredentials) (shortName data : string) : outcome (W * string) :=
  let pathOut := temp_dir m +:+ "/" +:+ shortName in
  let '(w, err) := MkdirAll w (temp_dir m) in
  _ ← assert_done err;
  let '(w, err) := WriteFile w pathOut data in
  _ ← assert_done err; Ret (w, pathOut).

Definition CreateServerTLSFiles (w : W) (m : MTLSCredentials) : outcome (W * ServerTLSFilePaths) :=
  '(w, clientCA) ← saveTemp w m "client.ca" (CA (Client m));
  '(w, otherClientCA) ← saveTemp w m "other-client.ca" (CA (OtherClient m));
  '(w, serverCert) ← saveTemp w m "server.crt" (Cert (Server m));
  '(w, serverKey) ← saveTemp w m "server.key" (Key (Server m));
  Ret (w, mkServerPaths clientCA otherClientCA serverCert serverKey).

Definition CreateClientTLSFiles (w : W) (m : MTLSCredentials) : outcome (W * ClientTLSFilePaths) :=
  '(w, serverCA) ← saveTemp w m "server.ca" (CA (Server m));
  '(w, clientCert) ← saveTemp w m "client.crt" (Cert (Client m));
  '(w, clientKey) ← saveTemp w m "client.key" (Key (Client m));
  Ret (w, mkClientPaths serverCA clientCert clientKey).
End files.

(** ** The stand-ins for other servers *)
(** A [ghttp.Server]: its routed handlers, in the order they were added.  A handler
    answers every request alike. *)
Record http_response := mkResponse {
  StatusCode : Z; Header : gmap string string; Body : string;
}.
Record routed_handler := mkRouted { rh_method : string; rh_path : string; rh_handler : http_response }.
Definition StatusOK : Z := 200.

(** [Server.RouteToHandler] and [Server.handlerForRoute] of the vendored [ghttp]. *)
Fixpoint RouteToHandler (s : list routed_handler) (method path : string) (h : http_response)
    : list routed_handler :=
  match s with
  | [] => [mkRouted method path h]
  | rh :: s =>
      if decide (rh_method rh = method ∧ rh_path rh = path) then mkRouted method path h :: s
      else rh :: RouteToHandler s method path h
  end.
Fixpoint handlerForRoute (s : list routed_handler) (method path : string) : option http_response :=
  match s with
  | [] => None
  | rh :: s =>
      if decide (rh_method rh = method ∧ rh_path rh = path) then Some (rh_handler rh)
      else handlerForRoute s method path
  end.

(** A handler that answers with bytes and their length. *)
Definition write_data (contentType data : string) : http_response :=
  mkResponse StatusOK
    (<["Content-Type" := contentType]> {["Content-Length" := Itoa (Z.of_nat (String.length data))]}) data.
(** [data, _ := Marshal(...)]. *)
Definition ignore_error (r : string + string) : string :=
  match r with inl _ => "" | inr data => data end.

(** JSON of the policies in an answer of the policy server: what is written is read. *)
Class PoliciesJSON := {
  policies_Marshal : gslice Policy → string + string;
  policies_Unmarshal : string → string + gslice Policy;
  policies_roundtrip ps s : policies_Marshal ps = inr s → policies_Unmarshal s = inr ps;
  error_Unmarshal : string → string + string;
}.

(** [mock_policy_server.go]. *)
Definition MockPolicyServer : Type := list routed_handler.
Definition NewMockPolicyServer : MockPolicyServer := [].
Definition internal_policies : string := "/networking/v1/internal/policies".

Section policies.
Context `{PoliciesJSON}.

Definition SetGetPoliciesResponse (m : MockPolicyServer) (c2cPolicies : gslice Policy) : MockPolicyServer :=
  RouteToHandler m "GET" internal_policies
    (write_data "application/json" (ignore_error (policies_Marshal c2cPolicies))).

(** [InternalClient.GetPolicies] of the vendored [policy_client], with [Do] of its JSON
    client: what it makes of the answer to its request. *)
Definition InternalClient_GetPolicies (do : string → string → string + http_response)
    : string + gslice Policy :=
  match do "GET" internal_policies with
  | inl err => inl ("http client do: " +:+ err)
  | inr resp =>
      if decide (299 < StatusCode resp)%Z then
        inl ("http status " +:+ Itoa (StatusCode resp) +:+ ": " +:+
             match error_Unmarshal (Body resp) with inl _ => Body resp | inr description => description end)
      else match policies_Unmarshal (Body resp) with
           | inl err => inl ("json unmarshal: " +:+ err)
           | inr policies => inr policies
           end
  end.
End policies.

(** [mock_bbs_server.go], with the vendored encodings of [bbs/events] and [go-sse]. *)
Class BBSEncoding := {
  CellsResponse_Marshal : string + string;
  ActualLRPsResponse_Marshal : list ActualLRP → string + string;
  CreatedEvent_Marshal : ActualLRP → string + string;
  base64_EncodeToString : string → string;
}.

Definition newline : string := String (ascii_of_nat 10) EmptyString.
Fixpoint split_lines (s : string) : list string :=
  match s with
  | EmptyString => [EmptyString]
  | String c s =>
      match split_lines s with
      | line :: lines =>
          if decide (c = ascii_of_nat 10) then EmptyString :: line :: lines else String c line :: lines
      | [] => []
      end
  end.

Record sse_event := mkSSE { ID : string; Name : string; Data : string }.
Definition sse_Write (e : sse_event) : string :=
  "id: " +:+ ID e +:+ newline +:+ "event: " +:+ Name e +:+ newline +:+
  foldr (λ line rest, (if decide (line = "") then "data" else "data: " +:+ line) +:+ newline +:+ rest)
    newline (split_lines (Data e)).

Section bbs.
Context `{BBSEncoding}.

Definition MockBBSServer : Type := list routed_handler.
Definition NewMockBBSServer : MockBBSServer :=
  RouteToHandler [] "POST" "/v1/cells/list.r1"
    (write_data "application/x-protobuf" (ignore_error CellsResponse_Marshal)).

Definition NewEventFromModelEvent (eventID : Z) (lrp : ActualLRP) : sse_event :=
  match CreatedEvent_Marshal lrp with
  | inl _ => mkSSE "" "" ""
  | inr payload =>
      mkSSE (Itoa eventID) "actual_lrp_instance_created" (base64_EncodeToString payload)
  end.
Definition event_headers : gmap string string :=
  <["Transfer-Encoding" := "identity"]> (<["Connection" := "keep-alive"]>
  (<["Cache-Control" := "no-cache, no-store, must-revalidate"]>
  {["Content-Type" := "text/event-stream; charset=utf-8"]})).
Definition SetPostV1EventsResponse (m : MockBBSServer) (actualLRP : ActualLRP) : MockBBSServer :=
  RouteToHandler m "POST" "/v1/events/lrp_instances.r1"
    (mkResponse StatusOK event_headers (sse_Write (NewEventFromModelEvent 0 actualLRP))).
Definition SetPostV1ActualLRPsList (m : MockBBSServer) (actualLRPs : list ActualLRP) : MockBBSServer :=
  RouteToHandler m "POST" "/v1/actual_lrps/list"
    (write_data "application/x-protobuf" (ignore_error (ActualLRPsResponse_Marshal actualLRPs))).
End bbs.

(** ** Specification: what keys and certificates are *)
(** The key that signed a certificate, its own key and its names; what a pool and a key
    pair were read from; a certificate is good for a pool that has its signer. *)
Class PKI (W F PKey Crt Csr K P : Type) `{!PKIX W PKey Crt Csr} `{!TLS F K P} `{!X509Verify K P} := {
  signer : Crt → PKey;
  subject : Crt → PKey;
  ip_names : Crt → list string;
  csr_key : Csr → PKey;
  csr_ips : Csr → list string;
  used : W → PKey → Prop;
  leaf : K → Crt;
  roots : P → Crt;
  fresh_key w n w' k : CreateRSAKey w n = (w', inr k) → ¬ used w k ∧ used w' k ∧ ∀ k', used w k' → used w' k';
  authority w k ou t o c pr l n w' ca : CreateCertificateAuthority w k ou t o c pr l n = (w', inr ca) →
    signer ca = k ∧ subject ca = k ∧ ∀ k', used w k' → used w' k';
  signing_request w k ou ips ds o c pr l n w' csr :
    CreateCertificateSigningRequest w k ou ips ds o c pr l n = (w', inr csr) →
    csr_key csr = k ∧ csr_ips csr = ips ∧ ∀ k', used w k' → used w' k';
  signed w ca k csr t w' crt : CreateCertificateHost w ca k csr t = (w', inr crt) →
    signer crt = k ∧ subject crt = csr_key csr ∧ ip_names crt = csr_ips csr ∧ ∀ k', used w k' → used w' k';
  pool_read crt pem : Export crt = inr pem →
    ∃ pool, AppendCertsFromPEM (F := F) (K := K) pem = Some pool ∧ roots pool = crt;
  pair_read crt k pem kpem : Export crt = inr pem → ExportPrivate k = inr kpem → subject crt = k →
    ∃ pair, X509KeyPair (F := F) (P := P) pem kpem = inr pair ∧ leaf pair = crt;
  client_good pair pool :
    verifies_client pair pool = true ↔ signer (leaf pair) = subject (roots pool);
  server_good pair pool name :
    verifies_server pair pool name = true ↔
    signer (leaf pair) = subject (roots pool) ∧ name ∈ ip_names (leaf pair);
}.

(** ** Lemmas: ports *)
Section ports.
Local Open Scope Z_scope.
Context (node total : Z).

Lemma pick_after (last : Z) n i port :
  0 < last → 0 ≤ total → last + Z.of_nat n * total < 2 ^ 63 →
  pick_ports node total (mkPorts last true) n !! i = Some port →
  port = last + (Z.of_nat i + 1) * total.
Proof.
  revert last i. induction n as [|n IH]; intros last i Hl Ht Hb Hp; [done|].
  rewrite Nat2Z.inj_succ, Z.mul_succ_l in Hb. pose proof (Z.mul_nonneg_nonneg (Z.of_nat n) total).
  simpl in Hp. unfold PickAPort in Hp. simpl in Hp. rewrite decide_False in Hp by lia.
  simpl in Hp. rewrite i64_small in Hp by lia. destruct i as [|i]; simpl in Hp.
  - injection Hp as <-. lia.
  - apply IH in Hp; [|lia..]. rewrite Hp, Nat2Z.inj_succ. lia.
Qed.

Lemma pick_ports_lookup n i port :
  1 ≤ node ≤ total → portRangeStart + node + Z.of_nat n * total < 2 ^ 63 →
  pick_ports node total no_ports n !! i = Some port →
  port = portRangeStart + node + (Z.of_nat i + 1) * total.
Proof.
  intros Hn Hb Hp. destruct n as [|n]; [done|]. unfold portRangeStart in *.
  rewrite Nat2Z.inj_succ, Z.mul_succ_l in Hb. pose proof (Z.mul_nonneg_nonneg (Z.of_nat n) total).
  simpl in Hp. unfold PickAPort, portRangeStart in Hp. simpl in Hp. rewrite (i64_small (61000 + node)), i64_small in Hp by lia.
  destruct i as [|i]; simpl in Hp; [injection Hp as <-; lia|].
  apply pick_after in Hp; [|lia..]. rewrite Hp, Nat2Z.inj_succ. lia.
Qed.
End ports.

(** ** Lemmas: routes *)
Lemma handlerForRoute_set s m p h : handlerForRoute (RouteToHandler s m p h) m p = Some h.
Proof.
  induction s as [|rh s IH]; simpl; [by rewrite decide_True|].
  case_decide as Hd; simpl; [by rewrite decide_True|]. by rewrite decide_False.
Qed.
Lemma handlerForRoute_other s m p h m' p' :
  (m', p') ≠ (m, p) → handlerForRoute (RouteToHandler s m p h) m' p' = handlerForRoute s m' p'.
Proof.
  intros Hne. induction s as [|rh s IH]; simpl.
  - rewrite decide_False; [done|]. intros [-> ->]. done.
  - case_decide as Hd; simpl.
    + destruct Hd as [-> ->]. by repeat case_decide; naive_solver.
    + by rewrite IH.
Qed.

(** ** Lemmas: credentials *)
Lemma assertNoError_Ret {A} (r : string + A) a : assertNoError r = Ret a ↔ r = inr a.
Proof. destruct r; simpl; naive_solver. Qed.

Section credentials.
Context {W PKey Crt Csr K P : Type} `{!PKIX W PKey Crt Csr} `{!TLS W K P} `{!X509Verify K P}.
Context `{!PKI W W PKey Crt Csr K P}.

(** What [generateCredentials] makes: a pair signed by a new authority. *)
Record made (w w' : W) (c : Credentials) (authority : PKey) (pair : K) (pool : P) : Prop := mkMade {
  made_fresh : ¬ used w authority;
  made_used : used w' authority;
  made_keeps : ∀ k, used w k → used w' k;
  made_pool : AppendCertsFromPEM (F := W) (K := K) (CA c) = Some pool;
  made_pair : X509KeyPair (F := W) (P := P) (Cert c) (Key c) = inr pair;
  made_root : subject (roots pool) = authority;
  made_signer : signer (leaf pair) = authority;
  made_names : ip_names (leaf pair) = [localhost];
}.

Lemma generateCredentials_made w ca cn w' c :
  generateCredentials w ca cn = Ret (w', c) → ∃ authority pair pool, made w w' c authority pair pool.
Proof.
  unfold generateCredentials.
  destruct (CreateRSAKey w 1024) as [w1 r1] eqn:E1.
  intros (rootKey & ->%assertNoError_Ret & H)%bind_Ret.
  destruct (CreateCertificateAuthority _ _ _ _ _ _ _ _ _) as [w2 r2] eqn:E2.
  apply bind_Ret in H as (auth & ->%assertNoError_Ret & H).
  destruct (CreateRSAKey w2 1024) as [w3 r3] eqn:E3.
  apply bind_Ret in H as (key & ->%assertNoError_Ret & H).
  destruct (CreateCertificateSigningRequest _ _ _ _ _ _ _ _ _ _) as [w4 r4] eqn:E4.
  apply bind_Ret in H as (csr & ->%assertNoError_Ret & H).
  destruct (CreateCertificateHost _ _ _ _ _) as [w5 r5] eqn:E5.
  apply bind_Ret in H as (cert & ->%assertNoError_Ret & H).
  apply bind_Ret in H as (caBytes & Hca%assertNoError_Ret & H).
  apply bind_Ret in H as (keyBytes & Hk%assertNoError_Ret & H).
  apply bind_Ret in H as (certBytes & Hc%assertNoError_Ret & H). simplify_eq/=.
  destruct (fresh_key _ _ _ _ E1) as (Hf & Hu1 & Hk1).
  destruct (authority _ _ _ _ _ _ _ _ _ _ _ E2) as (_ & Hsub & Hk2).
  destruct (fresh_key _ _ _ _ E3) as (_ & _ & Hk3).
  destruct (signing_request _ _ _ _ _ _ _ _ _ _ _ _ E4) as (Hck & Hci & Hk4).
  destruct (signed _ _ _ _ _ _ _ E5) as (Hs & Hsk & Hn & Hk5).
  destruct (pool_read _ _ Hca) as (pool & Hpool & Hroots).
  destruct (pair_read cert key _ _ Hc Hk) as (pair & Hpair & Hleaf); [congruence|].
  exists rootKey, pair, pool. split; simpl; try done; [eauto 10|eauto 10|congruence..].
Qed.

(** Who is admitted where. *)
Lemma made_handshake {w0 w1 w2 w3 w4 w5 srv cl oc a1 a2 a3 k1 k2 k3 p1 p2 p3}
    (M1 : made w0 w1 srv a1 k1 p1) (M2 : made w2 w3 cl a2 k2 p2) (M3 : made w4 w5 oc a3 k3 p3) :
  handshake (mkTLSConfig VersionTLS12 true offered NoClientCert [k2] None (Some p1))
    (mkTLSConfig VersionTLS12 true offered RequireAndVerifyClientCert [k1] (Some p3) None) localhost = true
  ↔ a2 = a3.
Proof.
  rewrite (handshake_server _ _ p3 k1) by done.
  rewrite server_good. simpl. rewrite (made_signer _ _ _ _ _ _ M1), (made_root _ _ _ _ _ _ M1).
  rewrite (made_names _ _ _ _ _ _ M1). split.
  - intros (_ & _ & _ & c & cs & [= <- <-] & Hc%client_good).
    rewrite <-(made_signer _ _ _ _ _ _ M2), Hc. by apply (made_root _ _ _ _ _ _ M3).
  - intros Heq. split; [done|]. split; [done|]. split; [split; [done|by left]|].
    exists k2, []. split; [done|]. apply client_good.
    rewrite (made_signer _ _ _ _ _ _ M2), Heq. symmetry. by apply (made_root _ _ _ _ _ _ M3).
Qed.
End credentials.

(** ** Lemmas: files *)
Section saved.
Context {W : Type} `{!FileSystem W}.

Lemma saveTemp_spec (w : W) m n d w' p :
  saveTemp w m n d = Ret (w', p) →
  p = temp_dir m +:+ "/" +:+ n ∧ read w' p = Some d ∧ ∀ q, q ≠ p → read w' q = read w q.
Proof.
  unfold saveTemp. destruct (MkdirAll w (temp_dir m)) as [w1 e1] eqn:E1.
  intros ([] & _ & H)%bind_Ret. destruct (WriteFile w1 _ d) as [w2 e2] eqn:E2.
  apply bind_Ret in H as ([] & He & [= <- <-]). destruct e2; [done|].
  split; [done|]. pose proof (read_WriteFile w1 (temp_dir m +:+ "/" +:+ n) d) as Hr.
  rewrite E2 in Hr. split; [by apply Hr|]. intros q Hq.
  pose proof (read_WriteFile_ne w1 _ d q (not_eq_sym Hq)) as Hne. rewrite E2 in Hne. simpl in Hne.
  rewrite Hne. pose proof (read_MkdirAll w (temp_dir m) q) as Hm. by rewrite E1 in Hm.
Qed.

Lemma CreateServerTLSFiles_spec (w : W) m w' paths :
  CreateServerTLSFiles w m = Ret (w', paths) →
  read w' (ClientCA paths) = Some (CA (Client m)) ∧
  read w' (OtherClientCA paths) = Some (CA (OtherClient m)) ∧
  read w' (ServerCert paths) = Some (Cert (Server m)) ∧
  read w' (ServerKey paths) = Some (Key (Server m)).
Proof.
  unfold CreateServerTLSFiles.
  intros ([w1 p1] & H1 & H)%bind_Ret. apply bind_Ret in H as ([w2 p2] & H2 & H).
  apply bind_Ret in H as ([w3 p3] & H3 & H). apply bind_Ret in H as ([w4 p4] & H4 & [= <- <-]).
  apply saveTemp_spec in H1 as (-> & R1 & _), H2 as (-> & R2 & N2), H3 as (-> & R3 & N3),
    H4 as (-> & R4 & N4). simpl.
  assert (∀ a b, a ≠ b → temp_dir m +:+ "/" +:+ a ≠ temp_dir m +:+ "/" +:+ b) as Hne.
  { intros a b Hab E. by do 2 apply (inj _) in E. }
  split_and!.
  - rewrite N4, N3, N2 by by apply Hne. done.
  - rewrite N4, N3 by by apply Hne. done.
  - rewrite N4 by by apply Hne. done.
  - done.
Qed.
End saved.

(** ** Properties *)
(** The certificates of the integration tests do what the tests need: when they and
    their files are made, the server started on those files as the tests configure it
    gets the very TLS configurations that the helpers build in memory, the MCP port lets
    in the Pilot client and not the Cloud Controller's, and the other port the other way
    round. *)
Theorem test_servers_admit {W PKey Crt Csr K P : Type} `{!PKIX W PKey Crt Csr} `{!TLS W K P}
    `{!X509Verify K P} `{!PKI W W PKey Crt Csr K P} `{!TempFiles W} `{!FileSystem W}
    (w w1 w2 : W) (m : MTLSCredentials) (paths : ServerTLSFilePaths) (cfg : Config)
    (Hread : ∀ (f : W) p s, read f p = Some s → ReadBytes (K := K) (P := P) f p = inr s)
    (Hgen : GenerateMTLS w = Ret (w1, m)) (Hfiles : CreateServerTLSFiles w1 m = Ret (w2, paths))
    (Hpilot : PilotClientCAPath cfg = ClientCA paths)
    (Hcc : CloudControllerClientCAPath cfg = OtherClientCA paths)
    (Hcert : ServerCertPath cfg = ServerCert paths) (Hkey : ServerKeyPath cfg = ServerKey paths) :
  ∃ pilot cc client other : TLSConfig K P,
    ServerTLSConfigForPilot w2 cfg = inr pilot ∧ ServerTLSConfig (F := W) m = Ret pilot ∧
    ServerTLSConfigForCloudController w2 cfg = inr cc ∧
    ServerTLSConfigForOtherClient (F := W) m = Ret cc ∧
    ClientTLSConfig (F := W) m = Ret client ∧ OtherClientTLSConfig (F := W) m = Ret other ∧
    handshake client pilot localhost = true ∧ handshake other pilot localhost = false ∧
    handshake other cc localhost = true ∧ handshake client cc localhost = false.
Proof.
  unfold GenerateMTLS in Hgen.
  apply bind_Ret in Hgen as ([wa srv] & Hs & H). apply bind_Ret in H as ([wb cl] & Hc & H).
  apply bind_Ret in H as ([wc oc] & Ho & H). apply bind_Ret in H as ([wd dir] & _ & [= <- <-]).
  apply generateCredentials_made in Hs as (a1 & k1 & p1 & M1).
  apply generateCredentials_made in Hc as (a2 & k2 & p2 & M2).
  apply generateCredentials_made in Ho as (a3 & k3 & p3 & M3).
  assert (a2 ≠ a3) as Hne.
  { intros ->. by apply (made_fresh _ _ _ _ _ _ M3), (made_used _ _ _ _ _ _ M2). }
  destruct (CreateServerTLSFiles_spec _ _ _ _ Hfiles) as (R1 & R2 & R3 & R4). simpl in *.
  apply Hread in R1, R2, R3, R4.
  assert (LoadX509KeyPair (P := P) w2 (ServerCertPath cfg) (ServerKeyPath cfg) = inr k1) as Hload.
  { unfold LoadX509KeyPair. rewrite Hcert, Hkey, R3, R4. apply (made_pair _ _ _ _ _ _ M1). }
  eexists _, _, _, _. split_and!.
  - apply serverTLSConfigForClient_spec. exists k1, (CA cl), p2.
    rewrite Hpilot. split_and!; [done|done|apply (made_pool _ _ _ _ _ _ M2)|reflexivity].
  - unfold ServerTLSConfig, server_tls. simpl.
    by rewrite (made_pool _ _ _ _ _ _ M2), (made_pair _ _ _ _ _ _ M1).
  - apply serverTLSConfigForClient_spec. exists k1, (CA oc), p3.
    rewrite Hcc. split_and!; [done|done|apply (made_pool _ _ _ _ _ _ M3)|reflexivity].
  - unfold ServerTLSConfigForOtherClient, server_tls. simpl.
    by rewrite (made_pool _ _ _ _ _ _ M3), (made_pair _ _ _ _ _ _ M1).
  - unfold ClientTLSConfig, client_tls. simpl.
    rewrite (made_pool _ _ _ _ _ _ M1), (made_pair _ _ _ _ _ _ M2). reflexivity.
  - unfold OtherClientTLSConfig, client_tls. simpl.
    rewrite (made_pool _ _ _ _ _ _ M1), (made_pair _ _ _ _ _ _ M3). reflexivity.
  - by apply (made_handshake M1 M2 M2).
  - apply not_true_is_false. intros Hh. by apply (made_handshake M1 M3 M2) in Hh.
  - by apply (made_handshake M1 M3 M3).
  - apply not_true_is_false. intros Hh. by apply (made_handshake M1 M2 M3) in Hh.
Qed.

(** Parallel test processes get ports of their own: the ports of process [node] of
    [total] start above 61000 and are [total] apart, so no two processes, and no two calls
    of one, get the same, as long as the numbers fit an [int]. *)
Theorem ports_never_clash (node node' total : Z) (n n' i i' : nat) (port port' : Z)
    (Hnode : (1 ≤ node ≤ total)%Z) (Hnode' : (1 ≤ node' ≤ total)%Z)
    (Hfit : (portRangeStart + node + Z.of_nat n * total < 2 ^ 63)%Z)
    (Hfit' : (portRangeStart + node' + Z.of_nat n' * total < 2 ^ 63)%Z)
    (Hp : pick_ports node total no_ports n !! i = Some port)
    (Hp' : pick_ports node' total no_ports n' !! i' = Some port') :
  port = (portRangeStart + node + (Z.of_nat i + 1) * total)%Z ∧
  (port = port' ↔ node = node' ∧ i = i').
Proof.
  apply pick_ports_lookup in Hp; [|done..]. apply pick_ports_lookup in Hp'; [|done..].
  split; [done|]. subst. split; [|by intros [-> ->]]. intros E.
  assert ((node - node') = (Z.of_nat i' - Z.of_nat i) * total)%Z as E' by lia.
  assert (Z.of_nat i' - Z.of_nat i = 0)%Z as E0 by nia. rewrite E0 in E'. lia.
Qed.

(** The stand-in for the policy server answers the client of the snapshot loop with the
    policies that were set last, whatever was set before. *)
Theorem policies_served `{PoliciesJSON} (s : MockPolicyServer) (ps : gslice Policy) data
    (Hm : policies_Marshal ps = inr data) :
  InternalClient_GetPolicies (λ method path,
    match handlerForRoute (SetGetPoliciesResponse s ps) method path with
    | Some resp => inr resp
    | None => inl "unhandled request"
    end) = inr ps.
Proof.
  unfold InternalClient_GetPolicies, SetGetPoliciesResponse. rewrite handlerForRoute_set. simpl.
  rewrite Hm. simpl. by rewrite (policies_roundtrip _ _ Hm).
Qed.

(** The stand-in for the BBS answers each of its three requests with what was set for it,
    and setting one leaves the others alone. *)
Theorem bbs_answers `{BBSEncoding} (s : MockBBSServer) lrp lrps :
  handlerForRoute NewMockBBSServer "POST" "/v1/cells/list.r1" =
    Some (write_data "application/x-protobuf" (ignore_error CellsResponse_Marshal)) ∧
  handlerForRoute (SetPostV1ActualLRPsList s lrps) "POST" "/v1/actual_lrps/list" =
    Some (write_data "application/x-protobuf" (ignore_error (ActualLRPsResponse_Marshal lrps))) ∧
  (∀ method path, path ≠ "/v1/events/lrp_instances.r1" →
    handlerForRoute (SetPostV1EventsResponse s lrp) method path = handlerForRoute s method path) ∧
  (∀ method path, path ≠ "/v1/actual_lrps/list" →
    handlerForRoute (SetPostV1ActualLRPsList s lrps) method path = handlerForRoute s method path).
Proof.
  split; [done|]. split; [apply handlerForRoute_set|].
  split; intros method path Hne; apply handlerForRoute_other; congruence.
Qed.

(** ** Witnesses *)
(** A certificate authority of numbered keys: a certificate is its signer and its own
    key, and its text a row of dots. *)
Definition desk : Type := nat * gmap string string.
Definition dotted {A} `{Countable A} (a : A) : string := dots (Pos.to_nat (encode a)).
Definition undotted {A} `{Countable A} (s : string) : option A := decode (Pos.of_nat (String.length s)).

Lemma undotted_dotted {A} `{Countable A} (a : A) : undotted (dotted a) = Some a.
Proof.
  unfold undotted, dotted.
  assert (∀ n, String.length (dots n) = n) as -> by (induction n; simpl; congruence).
  by rewrite Pos2Nat.id, decode_encode.
Qed.

#[local] Arguments dotted : simpl never.
#[local] Arguments undotted : simpl never.

#[local] Instance w_fs : FileSystem desk := {|
  read := λ w p, w.2 !! p;
  not_exist := λ _ _, true;
  MkdirAll := λ w _, (w, None);
  WriteFile := λ w p c, ((w.1, <[p := c]> w.2), None);
  read_MkdirAll := λ _ _ _, eq_refl;
  read_WriteFile := λ w p c _, lookup_insert_eq w.2 p c;
  read_WriteFile_ne := λ w p c q Hne, lookup_insert_ne w.2 p q c Hne;
|}.
#[local] Instance w_temp : TempFiles desk := {|
  ioutil_TempFile := λ w n, (w, inr ("/tmp/" +:+ n));
  ioutil_TempDir := λ w n, (w, inr ("/tmp/" +:+ n));
  os_Remove := λ w p, ((w.1, delete p w.2), None);
  os_RemoveAll := λ w _, ((w.1, ∅), None);
|}.
#[local] Instance w_pkix : PKIX desk nat (nat * nat) nat := {|
  Now := λ _, 0%Z;
  CreateRSAKey := λ w _, ((S w.1, w.2), inr w.1);
  CreateCertificateAuthority := λ w k _ _ _ _ _ _ _, (w, inr (k, k));
  CreateCertificateSigningRequest := λ w k _ ips _ _ _ _ _ _,
    (w, if decide (ips = [localhost]) then inr k else inl "one address only");
  CreateCertificateHost := λ w _ k csr _, (w, inr (k, csr));
  Export := λ crt, inr (dotted crt);
  ExportPrivate := λ k, inr (dotted k);
|}.
#[local] Instance w_tls : TLS desk (nat * nat) (nat * nat) := {|
  X509KeyPair := λ pem kpem,
    match undotted pem, undotted kpem with
    | Some crt, Some k => if decide (crt.2 = k) then inr crt else inl "private key does not match"
    | _, _ => inl "no PEM data"
    end;
  ReadBytes := λ w p, match w.2 !! p with Some s => inr s | None => inl "no such file" end;
  AppendCertsFromPEM := undotted;
|}.
#[local] Instance w_x509 : X509Verify (nat * nat) (nat * nat) := {|
  verifies_client := λ pair pool, bool_decide (pair.1 = pool.2);
  verifies_server := λ pair pool name, bool_decide (pair.1 = pool.2 ∧ name ∈ [localhost]);
  SystemRoots := (0, 0);
  defaultCipherSuites := offered;
|}.
#[local] Instance w_pki : PKI desk desk nat (nat * nat) nat (nat * nat) (nat * nat).
Proof.
  refine {| signer := fst; subject := snd; ip_names := λ _, [localhost]; csr_key := λ k, k;
            csr_ips := λ _, [localhost]; used := λ w k, k < w.1; leaf := λ p, p; roots := λ p, p |}; simpl.
  - intros. simplify_eq/=. split_and!; intros; lia.
  - intros. by simplify_eq.
  - intros. case_decide; by simplify_eq.
  - intros. by simplify_eq.
  - intros crt pem [= <-]. rewrite undotted_dotted. eauto.
  - intros crt k pem kpem [= <-] [= <-] Hk. rewrite !undotted_dotted, decide_True by done. eauto.
  - intros. by rewrite bool_decide_eq_true.
  - intros. by rewrite bool_decide_eq_true.
Defined.

Definition w_made : outcome (desk * MTLSCredentials) := GenerateMTLS (0, ∅).
Definition w_written : outcome (desk * ServerTLSFilePaths) :=
  '(w, m) ← w_made; CreateServerTLSFiles w m.
Definition w_config (paths : ServerTLSFilePaths) : Config :=
  mkConfig "127.0.0.1:61001" "127.0.0.1:61002" "127.0.0.1:61003" (ClientCA paths)
    (OtherClientCA paths) (ServerCert paths) (ServerKey paths) true "" "" "" "" "127.128.0.0/9"
    0 "debug" None Nil.

Lemma w_made_files : ∃ w1 m w2 paths, GenerateMTLS (0, ∅) = Ret (w1, m) ∧
  CreateServerTLSFiles w1 m = Ret (w2, paths).
Proof.
  destruct w_written as [[w2 paths]|] eqn:E; [|vm_compute in E; discriminate].
  unfold w_written in E. apply bind_Ret in E as ([w1 m] & Hm & Hf).
  exists w1, m, w2, paths. by split.
Defined.

Lemma test_servers_admit_witness : ∃ (w2 : desk) m paths pilot cc client other,
  ServerTLSConfigForPilot w2 (w_config paths) = inr pilot ∧ ServerTLSConfig (F := desk) m = Ret pilot ∧
  ServerTLSConfigForCloudController w2 (w_config paths) = inr cc ∧
  ServerTLSConfigForOtherClient (F := desk) m = Ret cc ∧
  ClientTLSConfig (F := desk) m = Ret client ∧ OtherClientTLSConfig (F := desk) m = Ret other ∧
  handshake client pilot localhost = true ∧ handshake other pilot localhost = false ∧
  handshake other cc localhost = true ∧ handshake client cc localhost = false.
Proof.
  destruct w_made_files as (w1 & m & w2 & paths & Hm & Hf). exists w2, m, paths.
  apply (test_servers_admit (W := desk) (0, ∅) w1 w2 m paths (w_config paths)); [|done..].
  intros f p s Hr. simpl in *. by rewrite Hr.
Defined.

Lemma ports_never_clash_witness :
  pick_ports 1 2 no_ports 3 = [61003; 61005; 61007]%Z ∧
  pick_ports 2 2 no_ports 3 = [61004; 61006; 61008]%Z ∧
  (61005%Z = 61000 + 1 + (1 + 1) * 2)%Z ∧ (61005%Z = 61006%Z ↔ 1%Z = 2%Z ∧ 1 = 1).
Proof.
  split; [reflexivity|]. split; [reflexivity|].
  apply (ports_never_clash 1 2 2 3 3 1 1 61005 61006); first [done|reflexivity].
Defined.
