(* ===== verification/System.v ===== *)
(** * The server as a whole ([cmd/copilot-server/main.go])

    [mainWithError] reads the configuration, builds the components and runs them
    as concurrent processes: the gRPC handlers, the two goroutines of the backend
    sets, the MCP server on the cache and the snapshot loop.  The components'
    atomic operations become the steps of one transition system; a tick of the
    loop reads the repositories call by call, so any of the other steps may fall
    between two of its reads. *)
From S2P Require Import Prelude GoStrings GoSort GoFloat Routes RouteMappings Associations BackendSets.
From S2P Require Import FixWeights Collector Api Handlers Certs Istio GoSlices Sidecars Gateways.
From S2P Require Import DestinationRules ServiceEntries VirtualServices McpCache SnapshotLoop.
From S2P Require Import ServerConfig.

(** ** State *)
(** The repositories; [diego] is absent when the BBS is disabled. *)
Record repositories := mkRepositories { capi : server_capi; diego : option BackendSets.state }.

Section system.
Context `{GrowSlice} `{MapOrder} `{Marshal} `{UnicodeLower} `{FloatToInt} `{GoSyntax} `{X509}.

Record system := mkSystem {
  repos : repositories;
  loop : Snapshot;
  cache : Cache Resource;
  client : policyClient;
  librarian : Locator;
}.

Definition backend_repo (r : repositories) : BackendSetRepo :=
  match diego r with None => NoopBackendSetRepo | Some st => DiegoBackendSetRepo (content st) end.
Definition world_of (r : repositories) : world :=
  mkWorld (capi_routes (capi r)) (capi_mappings (capi r)) (capi_associations (capi r))
    (backend_repo r).

(** ** Start *)
(** What the start asks of its surroundings besides files: [bbs.NewClient] and the
    call of [Cells]. *)
Class Surroundings (F : Type) := {
  bbs_NewClient : BBSConfig → option string;
  bbs_Cells : BBSConfig → option string;
}.

Inductive start_error := LoadFailed (err : load_error) | Failed (msg : string).

(** [time.NewTicker] panics on a duration that is not positive. *)
Definition bad_interval : string := "non-positive interval for NewTicker".
Definition NewTicker (d : Z) : outcome unit :=
  if decide (0 < d)%Z then Ret () else Panic bad_interval.

(** The BBS part: with a configuration, connect, ask for the cells, start a ticker. *)
Definition start_bbs `{GoQuote} {F} `{!Surroundings F} (bbs : option BBSConfig) : outcome (option start_error) :=
  match bbs with
  | None => Ret None
  | Some b =>
      match bbs_NewClient b with
      | Some err => Ret (Some (Failed err))
      | None =>
          match bbs_Cells b with
          | Some err =>
              Ret (Some (Failed ("unable to reach BBS at address " +:+ Quote (ServerConfig.Address b) +:+ ": " +:+ err)))
          | None => _ ← NewTicker (SyncInterval b); Ret None
          end
      end
  end.

Definition istioCertRootPath : string := "/etc/istio".

(** The components as [mainWithError] wires them. *)
Definition new_system (c : Config) : system :=
  mkSystem
    (mkRepositories (mkCAPI NewRoutesRepo NewRouteMappingsRepo NewAssociationsRepo)
       (match NewBackendSetRepo (BBS c) with
        | NoopBackendSetRepo => None
        | DiegoBackendSetRepo s => Some (mkState s ENext RWait)
        end))
    (SnapshotLoop.New NewInMemoryBuilder) McpCache.New (policyServerClient (PolicyServerDisabled c))
    (NewLocator istioCertRootPath (elems (TLSPems c))).

Definition mainWithError `{GoQuote} {F Net K P} `{!ConfigFiles Config F} `{!CIDR Net} `{!TLS F K P}
    `{!Surroundings F} (f : F) (configFilePath : string) : outcome (start_error + system) :=
  match ServerConfig.Load f configFilePath with
  | inl err => Ret (inl (LoadFailed err))
  | inr cfg =>
      match ServerTLSConfigForPilot f cfg with
      | inl err => Ret (inl (Failed err))
      | inr _ =>
          match ServerTLSConfigForCloudController f cfg with
          | inl err => Ret (inl (Failed err))
          | inr _ =>
              bbs ← start_bbs (F := F) (BBS cfg);
              match bbs with
              | Some err => Ret (inl err)
              | None =>
                  _ ← NewTicker (MCPConvergeInterval cfg);
                  if PolicyServerDisabled cfg then Ret (inr (new_system cfg))
                  else match ServerTLSConfigForPolicyServer f cfg with
                       | inl err => Ret (inl (Failed err))
                       | inr _ => Ret (inr (new_system cfg))
                       end
              end
          end
      end
  end.

(** ** Steps *)
(** The atomic writes to the repositories: a unary request, each of the three
    calls of a bulk sync, and the steps of the two goroutines. *)
Inductive write :=
| WRequest (r : Handlers.request)
| WSyncMappings (rms : list RouteMapping)
| WSyncRoutes (rs : list Route)
| WSyncAssociations (cdpas : list CAPIDiegoProcessAssociation)
| WDiego (l : BackendSets.label).

Definition on_capi (r : repositories) (c : server_capi) : repositories := mkRepositories c (diego r).

(** [None] when the step is not enabled. *)
Definition apply_write (r : repositories) (x : write) : option (outcome repositories) :=
  match x with
  | WRequest req => Some (res ← handle (capi r) req; Ret (on_capi r res.1))
  | WSyncMappings rms =>
      Some (Ret (on_capi r (with_mappings (capi r) (RouteMappings.Sync (capi_mappings (capi r)) rms))))
  | WSyncRoutes rs =>
      Some (Ret (on_capi r (with_routes (capi r) (Routes.Sync (capi_routes (capi r)) rs))))
  | WSyncAssociations cdpas =>
      Some (Ret (on_capi r
        (with_associations (capi r) (Associations.Sync (capi_associations (capi r)) cdpas))))
  | WDiego l =>
      match diego r with
      | None => None
      | Some st =>
          match BackendSets.step st l with
          | None => None
          | Some out => Some (st' ← out; Ret (mkRepositories (capi r) (Some st')))
          end
      end
  end.

(** Writes in sequence, none of which panics. *)
Inductive writes (ok : repositories → write → Prop)
  : repositories → list write → repositories → Prop :=
| writes_nil r : writes ok r [] r
| writes_step r x xs r1 r2 :
    ok r x → apply_write r x = Some (Ret r1) → writes ok r1 xs r2 → writes ok r (x :: xs) r2.

(** The repositories at each call of a tick, with the writes between the calls. *)
Inductive schedule (ok : repositories → write → Prop)
  : repositories → list (list write) → list repositories → repositories → Prop :=
| schedule_nil r : schedule ok r [] [] r
| schedule_group r xs r1 rest l r2 :
    writes ok r xs r1 → schedule ok r1 rest l r2 → schedule ok r (xs :: rest) (r :: l) r2.

Fixpoint env_of (l : list repositories) (last : repositories) : nat → world :=
  match l with
  | [] => λ _, world_of last
  | r :: l => λ n, match n with 0 => world_of r | S n => env_of l last n end
  end.

Inductive action :=
| AWrite (x : write)
| AWatch (r : McpCache.Request) (who : nat) (peerAddr : string)
| ACancel (group : string) (watchID : Z)
| ATick (during : list (list write)) (policies : policy_answer).

Definition with_repos (s : system) (r : repositories) : system :=
  mkSystem r (loop s) (cache s) (client s) (librarian s).
Definition with_cache (s : system) (c : Cache Resource) : system :=
  mkSystem (repos s) (loop s) c (client s) (librarian s).

(** A tick that reads the repositories by [env] and leaves them as [r]. *)
Definition tick_system (s : system) (env : nat → world) (r : repositories)
    (policies : policy_answer) : outcome (system * list (push Resource)) :=
  routes ← Collect env;
  res ← tick_cache (client s) (loop s) (cache s) (mkInputs routes policies (Locate (librarian s)));
  let '(l, c, out) := res in Ret (mkSystem r l c (client s) (librarian s), out).

(** One step and what it pushes to MCP clients; [ok] restricts the writes. *)
Inductive sys_step (ok : repositories → write → Prop) (s : system)
  : action → outcome (system * list (push Resource)) → Prop :=
| step_write x out :
    ok (repos s) x → apply_write (repos s) x = Some out →
    sys_step ok s (AWrite x) (r ← out; Ret (with_repos s r, []))
| step_watch r who peerAddr c out id :
    Watch IndexFunction (cache s) r who peerAddr = (c, out, id) →
    sys_step ok s (AWatch r who peerAddr) (Ret (with_cache s c, out))
| step_cancel group watchID :
    sys_step ok s (ACancel group watchID) (Ret (with_cache s (cancel (cache s) group watchID), []))
| step_tick during l r policies :
    schedule ok (repos s) during l r →
    sys_step ok s (ATick during policies) (tick_system s (env_of l r) r policies).

(** What a started server can become. *)
Inductive reachable (ok : repositories → write → Prop) (s0 : system) : system → Prop :=
| reach_start : reachable ok s0 s0
| reach_step s a s' out :
    reachable ok s0 s → sys_step ok s a (Ret (s', out)) → reachable ok s0 s'.

(** ** Specification *)
(** Writes as they come off the wire, the swap of the backend sets not between the
    two critical sections of an insertion. *)
Definition ok_write (r : repositories) (x : write) : Prop :=
  match x with
  | WRequest req => wf_request req
  | WDiego l => match diego r with Some st => calm st l | None => True end
  | _ => True
  end.

(** The loop and the cache agree: what was published last is what is served. *)
Definition synced_with (s : system) : Prop :=
  match last_seen (loop s) with
  | None => snapshots (cache s) !! node = None
  | Some (routes, policies) =>
      ∃ shot, snapshots (cache s) !! node = Some shot ∧
        snapshot_of (Itoa (ver (loop s)))
          (mkInputs routes (inr policies) (Locate (librarian s))) = Ret shot
  end.

(** A tick that publishes: it has collected the routes under its schedule, and made of
    them, of the policies it was answered and of the certificates, and of nothing else,
    a snapshot under the next version, which the cache serves now. *)
Definition publishes (s : system) (during : list (list write)) (policies : policy_answer)
    (s' : system) (shot : InMemory Resource) : Prop :=
  ∃ l r routes out, schedule ok_write (repos s) during l r ∧ Collect (env_of l r) = Ret routes ∧
    tick_system s (env_of l r) r policies = Ret (s', out) ∧
    ver (loop s') = i64 (ver (loop s) + 1) ∧
    snapshot_of (Itoa (ver (loop s'))) (mkInputs routes policies (Locate (librarian s))) = Ret shot ∧
    snapshots (cache s') !! node = Some shot.

Definition sys_inv (s : system) : Prop :=
  match diego (repos s) with Some st => BackendSets.inv st | None => True end ∧
  builder_ok (loop s) ∧ synced_with s ∧ no_stale_watch (cache s).

(** ** Lemmas *)
Definition diego_inv (r : repositories) : Prop :=
  match diego r with Some st => BackendSets.inv st | None => True end.

Lemma apply_write_inv r x out :
  ok_write r x → diego_inv r → apply_write r x = Some out → ∃ r', out = Ret r' ∧ diego_inv r'.
Proof.
  intros Hok Hinv Hx. destruct x as [req|rms|rs|cs|l]; simpl in Hx; simplify_eq; eauto.
  - simpl in Hok. pose proof (handle_branches (capi r) req Hok) as Hb.
    destruct (request_op req) as [o|]; [rewrite Hb|destruct Hb as [msg ->]]; simpl; eauto.
  - unfold diego_inv, ok_write in *. destruct (diego r) as [st|]; [|done].
    destruct (BackendSets.step st l) as [o|] eqn:Hs; [|done].
    destruct (step_inv st l o Hinv Hok Hs) as (st' & -> & Hinv'). simplify_eq/=. eauto.
Qed.

Lemma writes_inv r xs r' : writes ok_write r xs r' → diego_inv r → diego_inv r'.
Proof.
  induction 1 as [r|r x xs r1 r2 Hok Hx _ IH]; [done|]. intros Hr.
  destruct (apply_write_inv r x _ Hok Hr Hx) as (r1' & [= <-] & Hr1). auto.
Qed.
Lemma schedule_inv r during l r' : schedule ok_write r during l r' → diego_inv r → diego_inv r'.
Proof. induction 1; [done|]. intros Hr. eauto using writes_inv. Qed.

Lemma collected_wf routes policies (l : Locator) :
  wf_collected (elems routes) → wf_inputs (mkInputs routes policies (Locate l)).
Proof.
  intros [Hwf _]. split; [|apply located_have_hosts].
  simpl. eapply Forall_impl; [exact Hwf|]. by intros r [? _].
Qed.

Lemma Watch_stale (c : Cache Resource) r who peer :
  no_stale_watch c → no_stale_watch (Watch IndexFunction c r who peer).1.1.
Proof. intros Hc. by apply (no_stale_op IndexFunction c (OWatch r who peer)). Qed.
Lemma cancel_stale (c : Cache Resource) g i : no_stale_watch c → no_stale_watch (cancel c g i).
Proof. intros Hc. by apply (no_stale_op IndexFunction c (OCancel g i)). Qed.
Lemma SetSnapshot_stale (c : Cache Resource) g shot :
  no_stale_watch c → no_stale_watch (SetSnapshot c g shot).1.
Proof. intros Hc. by apply (no_stale_op IndexFunction c (OSetSnapshot g shot)). Qed.

Lemma snapshots_Watch (c : Cache Resource) r who peer :
  snapshots (Watch IndexFunction c r who peer).1.1 = snapshots c.
Proof.
  pose proof (Watch_spec IndexFunction c r who peer) as Hw. cbv zeta in Hw.
  destruct (Watch _ _ _ _ _) as [[c' out] id]. apply Hw.
Qed.
Lemma snapshots_cancel (c : Cache Resource) g i : snapshots (cancel c g i) = snapshots c.
Proof. unfold cancel. by destruct (status c !! g). Qed.
Lemma snapshots_Set (c : Cache Resource) g shot :
  snapshots (SetSnapshot c g shot).1 = <[g := shot]> (snapshots c).
Proof.
  pose proof (SetSnapshot_spec c g shot) as Hs. destruct (SetSnapshot c g shot) as [c' out]. apply Hs.
Qed.

(** A tick keeps the loop and the cache in step. *)
Lemma tick_inv s env r policies :
  client s = Client → diego_inv r → builder_ok (loop s) → synced_with s → no_stale_watch (cache s) →
  ∃ routes s' out, Collect env = Ret routes ∧ wf_collected (elems routes) ∧
    tick_system s env r policies = Ret (s', out) ∧ sys_inv s' ∧
    client s' = Client ∧ librarian s' = librarian s ∧
    match policies with
    | inl _ => True
    | inr ps => last_seen (loop s') = Some (routes, ps)
    end.
Proof.
  intros Hcl Hr Hb Hsync Hst. destruct (Collect_wf env) as (routes & Hc & Hwf).
  exists routes. unfold tick_system. rewrite Hc, Hcl. simpl.
  pose proof (collected_wf routes policies (librarian s) Hwf) as Hin.
  destruct (tick_cache_spec (loop s) (cache s) _ Hb Hin)
    as [(_ & Ht & Hobs)|(shot & l' & Hshot & Hl & Hb' & Hv & _ & Ht)]; rewrite Ht; simpl.
  - eexists _, _. split; [done|]. split; [done|]. split; [done|]. split; [done|].
    split; [done|]. split; [done|].
    destruct policies as [e|ps]; [done|]. destruct Hobs as [Hobs|Hobs]; [done|]. simpl. by rewrite <-Hobs.
  - eexists _, _. split; [done|]. split; [done|]. split; [done|]. split; [|split; [done|]].
    + split; [done|]. split; [done|]. split; [|by apply SetSnapshot_stale].
      unfold synced_with. simpl. rewrite Hl.
      destruct policies as [e|ps]; [done|].
      simpl. exists shot. split; [by rewrite snapshots_Set, lookup_insert_eq|]. by rewrite Hv.
    + split; [done|]. destruct policies as [e|ps]; [done|]. simpl. by rewrite Hl.
Qed.

Lemma sys_step_inv s a out :
  client s = Client → sys_inv s → sys_step ok_write s a out →
  ∃ s' o, out = Ret (s', o) ∧ sys_inv s' ∧ client s' = Client ∧ librarian s' = librarian s.
Proof.
  intros Hcl (Hr & Hb & Hsync & Hst) Hstep.
  destruct Hstep as [x out Hok Hx|r who peer c out id Hw|g i|during l r ps Hsch].
  - destruct (apply_write_inv _ _ _ Hok Hr Hx) as (r' & -> & Hr'). simpl.
    eexists _, _. split; [done|]. done.
  - eexists _, _. split; [done|]. split; [|done]. split; [done|]. split; [done|].
    pose proof (Watch_stale (cache s) r who peer Hst) as Hst'.
    pose proof (snapshots_Watch (cache s) r who peer) as Hsn. rewrite Hw in Hst', Hsn. simpl in Hst', Hsn.
    split; [|done]. unfold synced_with. simpl. by rewrite Hsn.
  - eexists _, _. split; [done|]. split; [|done]. split; [done|]. split; [done|].
    split; [|by apply cancel_stale]. unfold synced_with. simpl. by rewrite snapshots_cancel.
  - destruct (tick_inv s (env_of l r) r ps Hcl (schedule_inv _ _ _ _ Hsch Hr) Hb Hsync Hst)
      as (routes & s' & o & _ & _ & -> & ? & ? & ? & _). eauto 10.
Qed.

Lemma reachable_inv s0 s :
  client s0 = Client → sys_inv s0 → reachable ok_write s0 s →
  sys_inv s ∧ client s = Client ∧ librarian s = librarian s0.
Proof.
  intros Hcl Hinv Hr. induction Hr as [|s a s' out _ IH Hstep]; [done|].
  destruct IH as (Hs & Hc & Hl).
  destruct (sys_step_inv s a _ Hc Hs Hstep) as (s'' & o & [= <- <-] & ? & ? & ?).
  split_and!; [done..|congruence].
Qed.

(** A system goes wherever its writes lead. *)
Lemma reach_writes ok s0 (s : system) xs r :
  reachable ok s0 s → writes ok (repos s) xs r → reachable ok s0 (with_repos s r).
Proof.
  intros Hs Hw. remember (repos s) as r0 eqn:E. revert s E Hs.
  induction Hw as [r|r x xs r1 r2 Hx Ha _ IH]; intros s -> Hs; [by destruct s|].
  assert (reachable ok s0 (with_repos s r1)) as Hs1
    by (apply (reach_step _ _ s (AWrite x) _ [] Hs); by apply (step_write _ s x (Ret r1))).
  exact (IH (with_repos s r1) eq_refl Hs1).
Qed.

Lemma new_system_inv c : sys_inv (new_system c).
Proof.
  split; [|split; [apply builder_ok_New|split; [done|]]].
  - simpl. destruct (BBS c); simpl; [apply inv_initial|done].
  - intros g s id w Hs. simpl in Hs. by rewrite lookup_empty in Hs.
Qed.
End system.

(** ** Lemmas: from a mapping to its virtual service *)
Section served.
Context `{GrowSlice} `{MapOrder} `{Marshal} `{UnicodeLower} `{FloatToInt}.

(** The routes of the repository whose hosts and paths could be confused have one
    host, path and side. *)
Definition distinct_routes (r : RoutesRepo) : Prop :=
  ∀ g1 g2 t1 t2, Routes.Get r g1 = Some t1 → Routes.Get r g2 = Some t2 →
    Routes.Hostname t1 +:+ Routes.Path t1 = Routes.Hostname t2 +:+ Routes.Path t2 ∨
    Routes.Hostname t1 +:+ "/" +:+ Routes.Path t1 = Routes.Hostname t2 +:+ "/" +:+ Routes.Path t2 →
    Routes.Internal t1 = Routes.Internal t2 ∧ Routes.Hostname t1 = Routes.Hostname t2 ∧
    Routes.Path t1 = Routes.Path t2.

(** What a built route keeps of its route. *)
Definition built_of (t : Route) (r : RouteWithBackends) : Prop :=
  FixWeights.Hostname r = Routes.Hostname t ∧ FixWeights.Path r = Routes.Path t ∧
  FixWeights.Internal r = Routes.Internal t.

Lemma joined_built (w : world) rm r :
  joined w rm = Some r → ∃ t, Routes.Get (routes_repo w) (RouteMappings.RouteGUID rm) = Some t ∧ built_of t r.
Proof.
  unfold joined. intros (t & Ht & Hj)%bind_Some. apply bind_Some in Hj as (a & _ & Hj).
  exists t. split; [exact Ht|]. destruct (process_backends _ _ _); by simplify_eq/=.
Qed.

Lemma fix_one_keeps l i r :
  FixWeights.Hostname (fix_one l i r) = FixWeights.Hostname r ∧
  FixWeights.Path (fix_one l i r) = FixWeights.Path r ∧
  FixWeights.Internal (fix_one l i r) = FixWeights.Internal r ∧
  CapiProcessGUID (fix_one l i r) = CapiProcessGUID r ∧
  rBackends (fix_one l i r) = rBackends r.
Proof. unfold fix_one. by case_decide. Qed.

Lemma joined_backends (w : world) rm route a :
  Routes.Get (routes_repo w) (RouteMappings.RouteGUID rm) = Some route →
  Associations.Get (assoc_repo w) (RouteMappings.CAPIProcessGUID rm) = Some a →
  process_backends w (Routes.Internal route) a ≠ [] →
  ∃ r, joined w rm = Some r ∧ FixWeights.Hostname r = Routes.Hostname route ∧
    FixWeights.Path r = Routes.Path route ∧ FixWeights.Internal r = Routes.Internal route ∧
    CapiProcessGUID r = RouteMappings.CAPIProcessGUID rm ∧
    ∃ b bs, elems (Backends (rBackends r)) = b :: bs ∧
      b ∈ process_backends w (Routes.Internal route) a.
Proof.
  intros Hr Ha Hb. unfold joined, routesRepo_Get, capiDiego_Get, world_routes, world_assoc.
  rewrite Hr. simpl. rewrite Ha. simpl.
  destruct (process_backends w (Routes.Internal route) a) as [|b0 bs0] eqn:E; [done|].
  eexists. split; [done|]. simpl. split_and!; [done..|].
  destruct (SliceStable address_less (b0 :: bs0)) as [|b bs] eqn:Es.
  - pose proof (SliceStable_perm address_less (b0 :: bs0)) as Hp. rewrite Es in Hp.
    by apply Permutation_nil_cons in Hp.
  - exists b, bs. split; [done|]. rewrite <-(SliceStable_perm address_less (b0 :: bs0)), Es. by left.
Qed.

(** The collected routes, one by one, in a quiet world. *)
Lemma collected_routes (w : world) :
  ∃ routes, Collect (λ _, w) = Ret routes ∧ wf_collected (elems routes) ∧
    (∀ r, r ∈ elems routes → ∃ g t, Routes.Get (routes_repo w) g = Some t ∧ built_of t r) ∧
    ∀ k rm r0, RouteMappings.repo (mappings_repo w) !! k = Some rm → joined w rm = Some r0 →
      ∃ r rs i, r ∈ elems routes ∧ r = fix_one rs i r0.
Proof.
  destruct (Collect_join w) as (l & rs & Hc & Hp & El).
  destruct (Collect_wf (λ _, w)) as (l' & Hc' & Hwf). rewrite Hc in Hc'. injection Hc' as <-.
  exists l. split; [done|]. split; [done|].
  change (routeMappings_List w) with (RouteMappings.List (mappings_repo w)) in Hp.
  rewrite List_repo in Hp. rewrite El. split.
  - intros r (i & Hi)%list_elem_of_lookup. rewrite list_lookup_imap in Hi.
    destruct (rs !! i) as [r0|] eqn:Hr0; [|done]. simpl in Hi. injection Hi as <-.
    apply list_elem_of_lookup_2 in Hr0. rewrite Hp in Hr0.
    apply list_elem_of_omap in Hr0 as (rm & _ & (t & Ht & Hb)%joined_built).
    exists (RouteMappings.RouteGUID rm), t. split; [done|].
    destruct (fix_one_keeps rs i r0) as (E1 & E2 & E3 & _).
    unfold built_of. by rewrite E1, E2, E3.
  - intros k rm r0 Hk Hj.
    assert (r0 ∈ rs) as (i & Hi)%list_elem_of_lookup.
    { rewrite Hp. apply list_elem_of_omap. exists rm. split; [|done].
      apply list_elem_of_fmap. exists (k, rm). split; [done|]. by apply elem_of_map_to_list. }
    exists (fix_one rs i r0), rs, i. split; [|done].
    apply list_elem_of_lookup. exists i. by rewrite list_lookup_imap, Hi.
Qed.

Lemma distinct_no_collisions (w : world) routes :
  distinct_routes (routes_repo w) →
  (∀ r, r ∈ routes → ∃ g t, Routes.Get (routes_repo w) g = Some t ∧ built_of t r) →
  no_collisions routes.
Proof.
  intros Hd Hr r1 r2 Hr1 Hr2. destruct (Hr r1 Hr1) as (g1 & t1 & Ht1 & E1 & E2 & E3).
  destruct (Hr r2 Hr2) as (g2 & t2 & Ht2 & E1' & E2' & E3').
  unfold fullRoute, routeKey. rewrite E1, E2, E3, E1', E2', E3'. by apply (Hd g1 g2).
Qed.

(** What one collected route becomes in a snapshot. *)
Lemma built_route_in_snapshot (w : world) (routes : gslice RouteWithBackends) v policies certificates
    shot r :
  snapshot_of v (mkInputs routes (inr policies) certificates) = Ret shot →
  wf_collected (elems routes) → no_collisions (elems routes) → r ∈ elems routes →
  ∃ rsc vs hr, rsc ∈ elems (Resources shot VirtualServiceTypeURL) ∧
    Name rsc = virtualServiceName r ∧ Version rsc = v ∧ Body rsc = body_of (PVirtualService vs) ∧
    VsHosts vs = [FixWeights.Hostname r] ∧ hr ∈ VsHttp vs ∧ dest_of r ∈ HRoute hr ∧
    MatchPrefix hr = (if decide (FixWeights.Path r ≠ "" ∧ FixWeights.Internal r = false)
                      then Some (FixWeights.Path r) else None).
Proof.
  intros Hs [Hwf _] Hno Hr. apply snapshot_of_updates in Hs as (ps & g & rs & _ & _ & Hrs & ->).
  simpl in Hrs.
  destruct (service_is_created routes v rs r Hrs) as (vs & Hvs & Hin); [|done|].
  { eapply Forall_impl; [exact Hwf|]. by intros ? [? _]. }
  destruct (route_is_served _ _ vs r Hno Hvs Hr eq_refl) as (Hh & hr & Hhr & Hd & Hm).
  exists (mkResource (virtualServiceName r) v (body_of (PVirtualService vs))), vs, hr.
  split; [|by split_and!]. rewrite Resources_fill.
  change (mkResource (virtualServiceName r) v (body_of (PVirtualService vs)) ∈ elems (appended rs)).
  unfold appended. by rewrite elems_gappend.
Qed.
End served.

(** ** Lemmas: one quiet tick *)
Lemma quiet_tick_serves `{GrowSlice} `{MapOrder} `{Marshal} `{UnicodeLower} `{FloatToInt}
    `{GoSyntax} `{X509} (s : system) (policies : gslice Policy)
    (k : string) (rm : RouteMapping) (route : Route) (a : CAPIDiegoProcessAssociation) :
  client s = Client → sys_inv s →
  RouteMappings.repo (capi_mappings (capi (repos s))) !! k = Some rm →
  Routes.Get (capi_routes (capi (repos s))) (RouteMappings.RouteGUID rm) = Some route →
  Associations.Get (capi_associations (capi (repos s))) (RouteMappings.CAPIProcessGUID rm) = Some a →
  process_backends (world_of (repos s)) (Routes.Internal route) a ≠ [] →
  distinct_routes (capi_routes (capi (repos s))) →
  ∃ s' out shot rsc vs hr d,
    tick_system s (env_of [] (repos s)) (repos s) (inr policies) = Ret (s', out) ∧
    sys_inv s' ∧ client s' = Client ∧ (∃ v i, snapshot_of v i = Ret shot) ∧
    snapshots (cache s') !! node = Some shot ∧
    rsc ∈ elems (Resources shot VirtualServiceTypeURL) ∧ Body rsc = body_of (PVirtualService vs) ∧
    VsHosts vs = [Routes.Hostname route] ∧ hr ∈ VsHttp vs ∧ d ∈ HRoute hr ∧
    MatchPrefix hr = (if decide (Routes.Path route ≠ "" ∧ Routes.Internal route = false)
                      then Some (Routes.Path route) else None) ∧
    DestHost d = Routes.Hostname route ∧ DestSubset d = RouteMappings.CAPIProcessGUID rm ∧
    ∃ b, b ∈ process_backends (world_of (repos s)) (Routes.Internal route) a ∧
      DestPort d = ContainerPort b.
Proof.
  intros Hcl (Hd & Hb & Hsy & Hst) Hmap Hroute Hassoc Hbackends Hdist.
  destruct (tick_inv s (env_of [] (repos s)) (repos s) (inr policies) Hcl Hd Hb Hsy Hst)
    as (routes & s' & out & Hcol & Hwf & Ht & Hinv' & Hcl' & Hl & Hls).
  pose proof Hinv' as (_ & _ & Hsy' & _). unfold synced_with in Hsy'. rewrite Hls in Hsy'. destruct Hsy' as (shot & Hsh & Hof).
  set (w := world_of (repos s)) in *.
  destruct (collected_routes w) as (routes' & Hcol' & _ & Hbuilt & Hjoin).
  assert (routes' = routes) as -> by (change (Collect (λ _, w) = Ret routes) in Hcol; congruence).
  destruct (joined_backends w rm route a) as (r0 & Hj & Hr0); [done..|].
  destruct (Hjoin k rm r0 Hmap Hj) as (r & rs & i & Hr & Er).
  destruct (fix_one_keeps rs i r0) as (E1 & E2 & E3 & E4 & E5). rewrite <-Er in *.
  destruct Hr0 as (F1 & F2 & F3 & F4 & b & bs & Fb & Hin).
  destruct (built_route_in_snapshot w routes _ policies _ shot r Hof Hwf) as
    (rsc & vs & hr & ? & _ & _ & ? & Hhost & ? & ? & Hmatch); [|done|].
  { by apply (distinct_no_collisions w). }
  exists s', out, shot, rsc, vs, hr, (dest_of r). split; [done|]. split; [done|].
  split; [done|]. split; [by eauto|].
  rewrite E1, F1 in Hhost. rewrite E2, E3, F2, F3 in Hmatch. split_and!; try done; simpl.
  - by rewrite E1.
  - by rewrite E4.
  - exists b. split; [done|]. by rewrite E5, Fb.
Qed.

(** ** Lemmas: the start, and a server without policies *)
Lemma NewTicker_Ret d : NewTicker d = Ret () ↔ (0 < d)%Z.
Proof. unfold NewTicker. by case_decide. Qed.

Lemma start_bbs_spec `{GoQuote} {F} `{!Surroundings F} bbs :
  start_bbs (F := F) bbs = Ret None ↔
  match bbs with
  | None => True
  | Some b => bbs_NewClient (F := F) b = None ∧ bbs_Cells (F := F) b = None ∧ (0 < SyncInterval b)%Z
  end.
Proof.
  destruct bbs as [b|]; simpl; [|done].
  destruct (bbs_NewClient b); [naive_solver|]. destruct (bbs_Cells b); [naive_solver|].
  unfold NewTicker. case_decide; simpl; naive_solver.
Qed.

Lemma NewTicker_Panic d why : NewTicker d = Panic why ↔ why = bad_interval ∧ (d ≤ 0)%Z.
Proof. unfold NewTicker. case_decide; [split; [done|lia]|]. split; [intros [= <-]; split; [done|lia]|by intros [-> _]]. Qed.

Lemma start_bbs_panic `{GoQuote} {F} `{!Surroundings F} bbs why :
  start_bbs (F := F) bbs = Panic why ↔
  why = bad_interval ∧ ∃ b, bbs = Some b ∧ bbs_NewClient (F := F) b = None ∧ bbs_Cells (F := F) b = None ∧
    (SyncInterval b ≤ 0)%Z.
Proof.
  destruct bbs as [b|]; simpl; [|naive_solver].
  destruct (bbs_NewClient b) eqn:E1; [naive_solver|]. destruct (bbs_Cells b) eqn:E2; [naive_solver|].
  rewrite bind_Panic, NewTicker_Panic. naive_solver.
Qed.

Section disabled.
Context `{GrowSlice} `{MapOrder} `{Marshal} `{UnicodeLower} `{FloatToInt} `{GoSyntax} `{X509}.

Lemma step_client ok s a s' out : sys_step ok s a (Ret (s', out)) → client s' = client s.
Proof.
  remember (Ret (s', out)) as o eqn:E. destruct 1 as [x o' _ _|r who peer c o' id _|g i|during l r ps _].
  - apply bind_Ret in E as (r & _ & [= <- <-]). done.
  - by injection E as <- <-.
  - by injection E as <- <-.
  - unfold tick_system in E. apply bind_Ret in E as (routes & _ & E).
    apply bind_Ret in E as ([[l' c] o'] & _ & [= <- <-]). done.
Qed.
Lemma reachable_client ok s0 s : reachable ok s0 s → client s = client s0.
Proof. induction 1 as [|s a s' out _ IH Hstep]; [done|]. by rewrite (step_client _ _ _ _ _ Hstep). Qed.
End disabled.

(** ** Properties *)

(** C6. From a start with the policy server enabled, no step of the server panics,
    whatever requests, syncs, BBS events, policy answers and MCP watches come in
    and wherever they fall between the reads of a tick, as long as no swap of the
    backend sets falls inside an insertion; and no MCP client waits with a version
    other than the one being served. *)
Theorem server_never_panics `{GrowSlice} `{MapOrder} `{Marshal} `{UnicodeLower} `{FloatToInt}
    `{GoSyntax} `{X509} (c : Config) (s : system) (a : action)
    (out : outcome (system * list (push Resource)))
    (Hc : PolicyServerDisabled c = false) (Hs : reachable ok_write (new_system c) s)
    (Ha : sys_step ok_write s a out) :
  (∃ s' o, out = Ret (s', o)) ∧ no_stale_watch (cache s).
Proof.
  destruct (reachable_inv (new_system c) s) as (Hinv & Hcl & _);
    [by unfold new_system, policyServerClient; rewrite Hc|apply new_system_inv|done|].
  split; [|by apply Hinv].
  destruct (sys_step_inv s a out Hcl Hinv Ha) as (s' & o & -> & _). eauto.
Qed.

(** C5. The server converges: in whatever reachable state, one tick during which
    nothing is written and the policies arrive leaves the cache serving exactly the
    snapshot of what the repositories hold, the policies and the certificates,
    whether the tick had to publish it or it was there already. *)
Theorem quiet_tick_converges `{GrowSlice} `{MapOrder} `{Marshal} `{UnicodeLower} `{FloatToInt}
    `{GoSyntax} `{X509} (c : Config) (s : system) (policies : gslice Policy)
    (Hc : PolicyServerDisabled c = false) (Hs : reachable ok_write (new_system c) s) :
  ∃ routes s' out shot, Collect (λ _, world_of (repos s)) = Ret routes ∧
    sys_step ok_write s (ATick [] (inr policies)) (Ret (s', out)) ∧
    snapshots (cache s') !! node = Some shot ∧
    snapshot_of (Itoa (ver (loop s')))
      (mkInputs routes (inr policies) (Locate (librarian s))) = Ret shot.
Proof.
  destruct (reachable_inv (new_system c) s) as ((Hd & Hb & Hsy & Hst) & Hcl & _);
    [by unfold new_system, policyServerClient; rewrite Hc|apply new_system_inv|done|].
  destruct (tick_inv s (env_of [] (repos s)) (repos s) (inr policies) Hcl Hd Hb Hsy Hst)
    as (routes & s' & out & Hcol & _ & Ht & (_ & _ & Hsy' & _) & _ & Hl & Hls).
  unfold synced_with in Hsy'. rewrite Hls, Hl in Hsy'. destruct Hsy' as (shot & Hsh & Hof).
  exists routes, s', out, shot. split; [exact Hcol|]. split; [|done].
  rewrite <-Ht. apply step_tick. constructor.
Qed.

(** End to end: when the repositories hold a route, a mapping of it to a
    process, the process's association and a backend on the route's side, and no
    two routes can be confused, then after one quiet tick the cache serves a
    virtual service for the route's host with an HTTP route, matching the route's
    path when it has one and is external, that sends to the process at the port of
    one of its backends. *)
Theorem mapped_route_is_served `{GrowSlice} `{MapOrder} `{Marshal} `{UnicodeLower} `{FloatToInt}
    `{GoSyntax} `{X509} (c : Config) (s : system) (policies : gslice Policy)
    (Hc : PolicyServerDisabled c = false) (Hs : reachable ok_write (new_system c) s)
    (k : string) (rm : RouteMapping) (route : Route) (a : CAPIDiegoProcessAssociation)
    (Hmap : RouteMappings.repo (capi_mappings (capi (repos s))) !! k = Some rm)
    (Hroute : Routes.Get (capi_routes (capi (repos s))) (RouteMappings.RouteGUID rm) = Some route)
    (Hassoc : Associations.Get (capi_associations (capi (repos s)))
                (RouteMappings.CAPIProcessGUID rm) = Some a)
    (Hbackends : process_backends (world_of (repos s)) (Routes.Internal route) a ≠ [])
    (Hdist : distinct_routes (capi_routes (capi (repos s)))) :
  ∃ s' out shot rsc vs hr d,
    sys_step ok_write s (ATick [] (inr policies)) (Ret (s', out)) ∧
    snapshots (cache s') !! node = Some shot ∧
    rsc ∈ elems (Resources shot VirtualServiceTypeURL) ∧ Body rsc = body_of (PVirtualService vs) ∧
    VsHosts vs = [Routes.Hostname route] ∧ hr ∈ VsHttp vs ∧ d ∈ HRoute hr ∧
    MatchPrefix hr = (if decide (Routes.Path route ≠ "" ∧ Routes.Internal route = false)
                      then Some (Routes.Path route) else None) ∧
    DestHost d = Routes.Hostname route ∧ DestSubset d = RouteMappings.CAPIProcessGUID rm ∧
    ∃ b, b ∈ process_backends (world_of (repos s)) (Routes.Internal route) a ∧
      DestPort d = ContainerPort b.
Proof.
  destruct (reachable_inv (new_system c) s) as (Hinv & Hcl & _);
    [by unfold new_system, policyServerClient; rewrite Hc|apply new_system_inv|done|].
  destruct (quiet_tick_serves s policies k rm route a Hcl Hinv) as
    (s' & out & shot & rsc & vs & hr & d & Ht & _ & _ & _ & Hrest); [done..|].
  exists s', out, shot, rsc, vs, hr, d. split; [|exact Hrest].
  rewrite <-Ht. apply step_tick. constructor.
Qed.

(** C38. The start: [mainWithError] gets to run its processes exactly when the
    configuration loads, both TLS configurations can be built, the BBS (unless
    disabled) answers, both intervals are positive and, unless disabled, the policy
    server's TLS configuration can be built; it panics, and not otherwise, when
    everything before a ticker succeeds and the ticker's interval is negative, which
    [Load] lets through; in all other cases it returns an error. *)
Theorem server_starts `{GoQuote} `{Marshal} {F Net K P}
    `{!ConfigFiles Config F} `{!CIDR Net} `{!TLS F K P} `{!Surroundings F} (f : F) (path : string) :
  (∀ s, mainWithError f path = Ret (inr s) ↔
     ∃ cfg pilot cc, ServerConfig.Load f path = inr cfg ∧
       ServerTLSConfigForPilot f cfg = inr pilot ∧ ServerTLSConfigForCloudController f cfg = inr cc ∧
       match BBS cfg with
       | None => True
       | Some b => bbs_NewClient (F := F) b = None ∧ bbs_Cells (F := F) b = None ∧
                   (0 < SyncInterval b)%Z
       end ∧
       (0 < MCPConvergeInterval cfg)%Z ∧
       (PolicyServerDisabled cfg = false →
          ∃ policy, ServerTLSConfigForPolicyServer f cfg = inr policy) ∧ s = new_system cfg) ∧
  (∀ why, mainWithError f path = Panic why ↔
     why = bad_interval ∧ ∃ cfg pilot cc, ServerConfig.Load f path = inr cfg ∧
       ServerTLSConfigForPilot f cfg = inr pilot ∧ ServerTLSConfigForCloudController f cfg = inr cc ∧
       match BBS cfg with
       | None => (MCPConvergeInterval cfg < 0)%Z
       | Some b => bbs_NewClient (F := F) b = None ∧ bbs_Cells (F := F) b = None ∧
                   (SyncInterval b < 0 ∨ MCPConvergeInterval cfg < 0)%Z
       end).
Proof.
  unfold mainWithError. pose proof (loaded_intervals f path) as Hload.
  destruct (ServerConfig.Load f path) as [e|cfg].
  { split; [intros s|intros why]; (split; [done|]); [by intros (? & ? & ? & ? & _)|by intros (_ & ? & ? & ? & ? & _)]. }
  destruct (Hload cfg eq_refl) as [Hi Hbi].
  pose proof (start_bbs_spec (F := F) (BBS cfg)) as Hs.
  pose proof (start_bbs_panic (F := F) (BBS cfg)) as Hp. split.
  - intros s. split.
    + destruct (ServerTLSConfigForPilot f cfg) as [|pilot] eqn:E1; [done|].
      destruct (ServerTLSConfigForCloudController f cfg) as [|cc] eqn:E2; [done|].
      intros (o & Ho & E)%bind_Ret. destruct o as [|]; [done|].
      apply bind_Ret in E as ([] & ?%NewTicker_Ret & E).
      exists cfg, pilot, cc. split; [done|]. split; [done|]. split; [done|].
      split; [by apply Hs|]. split; [done|].
      destruct (PolicyServerDisabled cfg); [by injection E as <-|].
      destruct (ServerTLSConfigForPolicyServer f cfg) as [|policy]; [done|].
      split; [by exists policy|by injection E as <-].
    + intros (? & pilot & cc & [= <-] & -> & -> & Hb%Hs & Htick%NewTicker_Ret & Hpol & ->).
      rewrite Hb. simpl. rewrite Htick. simpl. destruct (PolicyServerDisabled cfg); [done|].
      by destruct (Hpol eq_refl) as [policy ->].
  - intros why. split.
    + destruct (ServerTLSConfigForPilot f cfg) as [|pilot] eqn:E1; [done|].
      destruct (ServerTLSConfigForCloudController f cfg) as [|cc] eqn:E2; [done|]. intros E.
      assert (why = bad_interval ∧ match BBS cfg with
        | None => (MCPConvergeInterval cfg < 0)%Z
        | Some b => bbs_NewClient (F := F) b = None ∧ bbs_Cells (F := F) b = None ∧
                    (SyncInterval b < 0 ∨ MCPConvergeInterval cfg < 0)%Z end) as [-> Hneg]; [|split; [done|]; by exists cfg, pilot, cc].
      apply bind_Panic in E as [E|(o & Ho & E)].
      * apply Hp in E as (-> & b & Hb & Hnc & Hce & Hneg). rewrite Hb in *. split; [done|]. split_and!; [done..|left; lia].
      * destruct o as [|]; [done|]. apply Hs in Ho. apply bind_Panic in E as [E|(? & _ & E)].
        -- apply NewTicker_Panic in E as [-> Hneg]. split; [done|].
           destruct (BBS cfg) as [b|]; [destruct Ho as (? & ? & _); split_and!; [done..|right; lia]|lia].
        -- destruct (PolicyServerDisabled cfg); [done|]. by destruct (ServerTLSConfigForPolicyServer f cfg).
    + intros (-> & ? & pilot & cc & [= <-] & -> & -> & Hneg). apply bind_Panic.
      assert (BBS cfg = None ∨ (∃ b, BBS cfg = Some b ∧ bbs_NewClient (F := F) b = None ∧
        bbs_Cells (F := F) b = None ∧ (0 < SyncInterval b)%Z) ∨ start_bbs (F := F) (BBS cfg) = Panic bad_interval) as Hb.
      { destruct (BBS cfg) as [b|]; [right|by left]. destruct Hneg as (Hnc & Hce & _).
        destruct (decide (0 < SyncInterval b)%Z); [left; eauto|right]. apply Hp. split; [done|]. exists b. split_and!; [done..|lia]. }
      destruct Hb as [Hb|[(b & Hb & Hnc & Hce & Hpos)|Hb]]; [right|right|by left]; exists None;
        (split; [apply Hs; by rewrite Hb|]); apply bind_Panic; left; apply NewTicker_Panic;
        (split; [done|]); rewrite Hb in Hneg; lia.
Qed.

(** With the policy server disabled the server does not survive its first
    tick: the loop is given a nil pointer inside a non-nil interface and calls it.
    In whatever state the server got to, every tick panics. *)
Theorem disabled_policy_server_panics `{GrowSlice} `{MapOrder} `{Marshal} `{UnicodeLower}
    `{FloatToInt} `{GoSyntax} `{X509} (ok : repositories → write → Prop) (c : Config) (s : system)
    (env : nat → world) (r : repositories) (policies : policy_answer)
    (Hc : PolicyServerDisabled c = true) (Hs : reachable ok (new_system c) s) :
  tick_system s env r policies = Panic "invalid memory address or nil pointer dereference".
Proof.
  apply reachable_client in Hs. unfold new_system, policyServerClient in Hs. rewrite Hc in Hs.
  unfold tick_system. destruct (Collect_wf env) as (routes & -> & _). simpl. by rewrite Hs.
Qed.

(** ** Witnesses *)
(** Writes that are enabled, allowed and do not panic, run by evaluation. *)
Section run.
Context `{GrowSlice} `{MapOrder} `{Marshal} `{UnicodeLower} `{FloatToInt} `{GoSyntax} `{X509}.

Fixpoint ok_run (r : repositories) (xs : list write) : Prop :=
  match xs with
  | [] => True
  | x :: xs =>
      ok_write r x ∧
      match apply_write r x with Some (Ret r') => ok_run r' xs | _ => False end
  end.
Fixpoint run_writes (r : repositories) (xs : list write) : repositories :=
  match xs with
  | [] => r
  | x :: xs => match apply_write r x with Some (Ret r') => run_writes r' xs | _ => r end
  end.

Lemma ok_run_writes r xs : ok_run r xs → writes ok_write r xs (run_writes r xs).
Proof.
  revert r; induction xs as [|x xs IH]; intros r; simpl; [constructor|].
  intros [Hx Hok]. destruct (apply_write r x) as [[r'|]|] eqn:Ex; [|done..].
  eapply writes_step; [done|exact Ex|by apply IH].
Qed.
Lemma reach_run s0 s xs :
  reachable ok_write s0 s → ok_run (repos s) xs →
  reachable ok_write s0 (with_repos s (run_writes (repos s) xs)).
Proof. intros Hs Hok%ok_run_writes. by eapply reach_writes. Qed.
End run.

(** A route, its mapping, its association and one created instance. *)
Definition w_route : Route := mkRoute "g" "h.example.com" "/a" false "".
Definition w_mapping : RouteMapping := mkRouteMapping "g" "p" 1.
Definition w_writes : list write := [
  WSyncRoutes [w_route];
  WSyncMappings [w_mapping];
  WSyncAssociations [mkAssociation "p" (Sl ["d"])];
  WDiego (LNext (inr (ActualLRPInstanceCreatedEvent (Some
    (mkActualLRP "d" "10.0.0.1" "10.255.0.1" [Some (mkPortMapping 8080 61000)] "RUNNING" 0)))));
  WDiego LInsert; WDiego LLock2].

#[local] Existing Instances go_grow asc_order transparent ascii_only amd64 w_syntax w_x509.

Definition w_start : system := new_system w_config.
Definition w_repos : repositories := run_writes (repos w_start) w_writes.
Definition w_server : system := with_repos w_start w_repos.

Lemma w_reachable :
  reachable ok_write w_start w_server.
Proof.
  apply (reach_run).
  - apply reach_start.
  - vm_compute. repeat split. eexists. split; [reflexivity|]. repeat constructor. by eexists.
Qed.

Lemma server_never_panics_witness :
  ∃ s' o, tick_system w_server
    (env_of [] w_repos) w_repos (inr Nil) = Ret (s', o).
Proof.
  apply (server_never_panics w_config w_server (ATick [] (inr Nil)) _ eq_refl w_reachable).
  apply step_tick. constructor.
Defined.

Lemma quiet_tick_converges_witness :
  ∃ s' out shot, sys_step ok_write w_server (ATick [] (inr Nil)) (Ret (s', out)) ∧
    snapshots (cache s') !! node = Some shot.
Proof.
  destruct (quiet_tick_converges w_config w_server Nil eq_refl w_reachable) as (_ & s' & out & shot & _ & Hstep & Hsh & _).
  by exists s', out, shot.
Defined.

Lemma mapped_route_is_served_witness :
  ∃ rsc vs hr d, Body rsc = Some (PVirtualService vs) ∧
    VsHosts vs = ["h.example.com"] ∧ hr ∈ VsHttp vs ∧ d ∈ HRoute hr ∧
    MatchPrefix hr = Some "/a" ∧ DestSubset d = "p".
Proof.
  destruct (mapped_route_is_served w_config w_server Nil eq_refl w_reachable (RouteMappings.Key w_mapping) w_mapping w_route
    (mkAssociation "p" (Sl ["d"])))
    as (s' & out & shot & rsc & vs & hr & d & _ & _ & _ & Hb & Hh & Hhr & Hd & Hm & _ & Hs & _).
  - vm_compute. reflexivity.
  - vm_compute. reflexivity.
  - vm_compute. reflexivity.
  - vm_compute. discriminate.
  - assert (Routes.repo (capi_routes (capi (repos w_server))) = {["g" := w_route]}) as E by reflexivity.
    unfold distinct_routes, Routes.Get. rewrite E. intros g1 g2 t1 t2.
    rewrite !lookup_singleton_Some. intros [_ <-] [_ <-] _. done.
  - exists rsc, vs, hr, d. split_and!; assumption.
Defined.

Definition w_disabled : Config :=
  mkConfig "a" "b" "c" "d" "e" "f" "g" true "h" "i" "j" "k" "127.128.0.0/9" second "info" None Nil.

Lemma disabled_policy_server_panics_witness :
  tick_system
    (new_system w_disabled) (env_of [] w_repos) w_repos (inr Nil)
  = Panic "invalid memory address or nil pointer dereference".
Proof.
  apply (disabled_policy_server_panics ok_write w_disabled); [reflexivity|apply reach_start].
Defined.

Definition w_tls : TLS (gmap string string) string string := {|
  X509KeyPair crt key := inr (crt +:+ key);
  ReadBytes _ p := inr p;
  AppendCertsFromPEM s := Some s |}.
Definition w_surroundings : Surroundings (gmap string string) := {|
  bbs_NewClient _ := None; bbs_Cells _ := None |}.

Lemma server_starts_witness :
  @mainWithError transparent id _ _ _ _ w_files w_cidr w_tls w_surroundings {["p" := "{}"]} "p"
  = Ret (inr (@new_system transparent (with_defaults w_config))).
Proof.
  apply (@server_starts id transparent _ _ _ _ w_files w_cidr w_tls w_surroundings {["p" := "{}"]} "p").
  eexists (with_defaults w_config), _, _. split; [reflexivity|]. split; [reflexivity|].
  split; [reflexivity|]. split; [done|]. split; [reflexivity|]. split; [|reflexivity].
  intros _. eexists. reflexivity.
Defined.
