(* ===== verification/EndToEnd.v ===== *)
(** * The server and a client, end to end

    The transition system of the server ([System]) with one MCP stream on its cache
    ([Delivery]) and the client of the tests at the other end of it ([McpClient]): the
    steps of the server happen at any time, what a tick pushes goes to the stream, and
    the stream's own moves act on the server's cache.  A stream that broke is opened anew
    by the client ([stream_reopened]). *)
From S2P Require Import Prelude UniqueQueue GoStrings GoSort GoFloat Routes RouteMappings Associations.
From S2P Require Import BackendSets FixWeights Collector Api Handlers Certs Istio GoSlices Sidecars.
From S2P Require Import Gateways DestinationRules ServiceEntries VirtualServices McpCache McpStream.
From S2P Require Import SnapshotLoop McpClient Delivery ServerConfig System.

Section end_to_end.
Context `{GrowSlice} `{MapOrder} `{Marshal} `{!Unmarshal} `{UnicodeLower} `{FloatToInt} `{GoSyntax} `{X509}.

(** ** State *)
Record deployment := mkDeployment { server : system; stream : link }.

(** A started server, and the client of the tests connecting to it. *)
Definition deploy (c : Config) (peer : string) (who : nat) (client : MockPilotMCPClient) : deployment :=
  mkDeployment (new_system c)
    (connect (CollectionOptionsFromSlice typeURLs) peer who (sinkClient client)).

(** ** Steps *)
(** A step of the server that is not about the stream's own watches. *)
Definition not_ours (f : deployment) (a : action) : Prop :=
  match a with
  | AWatch _ who _ => who ≠ id (con (stream f))
  | ACancel group i => ∀ rw, open_watches (cache (server f)) group !! i = Some rw →
                         pushResponse rw ≠ id (con (stream f))
  | _ => True
  end.

Inductive deployment_step (ok : repositories → write → Prop) (f : deployment) : deployment → Prop :=
| server_step a s' out :
    sys_step ok (server f) a (Ret (s', out)) → not_ours f a →
    deployment_step ok f
      (mkDeployment s' (with_con (stream f) (deliver (con (stream f)) out)))
| stream_step m c l :
    move_link IndexFunction (cache (server f)) (stream f) m = Some (c, l) →
    deployment_step ok f (mkDeployment (with_cache (server f) c) l)
| stream_reopened peer who :
    unused (cache (server f)) who →
    deployment_step ok f
      (mkDeployment (server f)
         (connect (CollectionOptionsFromSlice typeURLs) peer who (Delivery.client (stream f)))).

(** A tick during which nothing is written and the policies arrive. *)
Definition quiet_tick (policies : gslice Policy) (f f1 : deployment) : Prop :=
  ∃ out, sys_step ok_write (server f) (ATick [] (inr policies)) (Ret (server f1, out)) ∧
    stream f1 = with_con (stream f) (deliver (con (stream f)) out).

(** What the deployment can become in a number of steps. *)
Inductive reached (ok : repositories → write → Prop) (f : deployment) : nat → deployment → Prop :=
| reached_start : reached ok f 0 f
| reached_next n f1 f2 : reached ok f n f1 → deployment_step ok f1 f2 → reached ok f (S n) f2.

(** The stream's moves alone. *)
Fixpoint stream_moves (f : deployment) (ms : list move) : option deployment :=
  match ms with
  | [] => Some f
  | m :: ms =>
      '(c, l) ← move_link IndexFunction (cache (server f)) (stream f) m;
      stream_moves (mkDeployment (with_cache (server f) c) l) ms
  end.

(** ** Specification *)
(** Unpacking gives back what was packed. *)
Class RoundTrip := { packed : ∀ m, ∃ a, MarshalAny m = inr a ∧ UnmarshalAny a = inr m }.

(** The published snapshots are numbered in order of publication. *)
Definition numbered (pub : list (string * InMemory Resource)) : Prop :=
  ∀ i g s, pub !! i = Some (g, s) →
    g = node ∧ (∃ inp, snapshot_of (Itoa (Z.of_nat i + 1)) inp = Ret s).

(** Nothing moves on the stream. *)
Definition stream_at_rest (f : deployment) : Prop :=
  ∀ m, move_link IndexFunction (cache (server f)) (stream f) m = None.

(** A client reads a virtual service that sends the route to the process, at the port of
    one of the backends. *)
Definition client_routes (u : MockMCPUpdater) (route : Route) (process : string) (bs : list Backend) : Prop :=
  ∃ vss vs hr d, GetAllVirtualServices u = Ret vss ∧
    vs ∈ vss ∧ VsHosts vs = [Routes.Hostname route] ∧ hr ∈ VsHttp vs ∧ d ∈ HRoute hr ∧
    MatchPrefix hr = (if decide (Routes.Path route ≠ "" ∧ Routes.Internal route = false)
                      then Some (Routes.Path route) else None) ∧
    DestHost d = Routes.Hostname route ∧ DestSubset d = process ∧
    ∃ b, b ∈ bs ∧ DestPort d = ContainerPort b.

Definition as_world (f : deployment) (pub : list (string * InMemory Resource)) : Delivery.world :=
  Delivery.mkWorld (cache (server f)) (stream f) pub.

Record deployment_inv (f : deployment) (pub : list (string * InMemory Resource)) : Prop := mkDeploymentInv {
  dep_sys : sys_inv (server f);
  dep_client : System.client (server f) = Client;
  dep_world : Delivery.inv IndexFunction (as_world f pub);
  dep_numbered : numbered pub;
  dep_ver : ver (loop (server f)) = Z.of_nat (length pub);
}.

(** ** Lemmas *)
(** What a step of the server does to the cache and the loop. *)
Lemma server_step_cache s a s' out :
  System.client s = Client → sys_inv s → sys_step ok_write s a (Ret (s', out)) →
  match a with
  | AWrite _ => cache s' = cache s ∧ out = [] ∧ loop s' = loop s
  | AWatch r who p => (cache s', out) = apply_op IndexFunction (cache s) (OWatch r who p) ∧ loop s' = loop s
  | ACancel g i => (cache s', out) = apply_op IndexFunction (cache s) (OCancel g i) ∧ loop s' = loop s
  | ATick during policies =>
      (cache s' = cache s ∧ out = [] ∧ ver (loop s') = ver (loop s)) ∨
      ∃ shot inp, snapshot_of (Itoa (i64 (ver (loop s) + 1))) inp = Ret shot ∧
        (cache s', out) = SetSnapshot (cache s) node shot ∧ ver (loop s') = i64 (ver (loop s) + 1) ∧
        publishes s during policies s' shot
  end.
Proof.
  intros Hcl (Hr & Hb & Hsync & Hst) Hstep. remember (Ret (s', out)) as o eqn:Eo.
  destruct Hstep as [x o' _ _|r who p c o' i Hw|g i|during l r ps Hsch].
  - apply bind_Ret in Eo as (r & _ & [= <- <-]). done.
  - injection Eo as <- <-. simpl. rewrite Hw. done.
  - by injection Eo as <- <-.
  - unfold tick_system in Eo. apply bind_Ret in Eo as (routes & Hc & Eo).
    destruct (Collect_wf (env_of l r)) as (routes' & Hc' & Hwf). rewrite Hc in Hc'. injection Hc' as <-.
    rewrite Hcl in Eo.
    destruct (tick_cache_spec (loop s) (cache s) _ Hb (collected_wf routes ps (librarian s) Hwf))
      as [(_ & Ht & _)|(shot & l' & Hshot & _ & _ & Hv & _ & Ht)]; rewrite Ht in Eo; injection Eo as <- <-.
    + by left.
    + right. exists shot, (mkInputs routes ps (Locate (librarian s))). split; [done|]. simpl.
      split; [by destruct (SetSnapshot (cache s) node shot)|]. split; [done|].
      eexists l, r, routes, _. split; [done|]. split; [done|]. unfold tick_system. rewrite Hc, Hcl. simpl. rewrite Ht.
      simpl. split; [done|]. split; [done|]. rewrite Hv. split; [done|]. by rewrite snapshots_Set, lookup_insert_eq.
Qed.

Lemma sys_inv_with_cache s c :
  sys_inv s → snapshots c = snapshots (cache s) → no_stale_watch c → sys_inv (with_cache s c).
Proof.
  intros (Hr & Hb & Hsync & _) Hs Hst. split; [done|]. split; [done|]. split; [|done].
  unfold synced_with in *. simpl. by rewrite Hs.
Qed.

(** A move of the stream is one of [Delivery]'s. *)
Lemma stream_move_inv f pub m c l :
  deployment_inv f pub → move_link IndexFunction (cache (server f)) (stream f) m = Some (c, l) →
  deployment_inv (mkDeployment (with_cache (server f) c) l) pub ∧
  id (con l) = id (con (stream f)) ∧ snapshots c = snapshots (cache (server f)) ∧
  dom (sinkState (Delivery.client l)) = dom (sinkState (Delivery.client (stream f))).
Proof.
  intros [Hs Hcl Hw Hn Hv] Hm.
  assert (move_world IndexFunction (as_world f pub) m = Some (Delivery.mkWorld c l pub)) as Hmw
    by (unfold move_world; simpl; by rewrite Hm).
  destruct (move_advances IndexFunction _ m _ Hw Hmw) as [k Ha].
  destruct (advances_inv IndexFunction _ _ k Hw Ha) as [Hw' _].
  destruct Ha as [Hwf _ Hsn Hid Hd _ _ _ _]. simpl in *.
  split; [|done]. split; simpl; try done.
  apply sys_inv_with_cache; [done|done|]. by apply (wf_stale IndexFunction _ Hwf).
Qed.

Lemma server_step_inv f pub a s' out :
  (Z.of_nat (length pub) + 1 < 2 ^ 63)%Z → deployment_inv f pub →
  sys_step ok_write (server f) a (Ret (s', out)) → not_ours f a →
  ∃ pub', (length pub' ≤ length pub + 1 ∧ pub ⊆ pub' ∧
      match a with
      | ATick during policies => ∀ x, x ∈ pub' → x ∈ pub ∨
          publishes (server f) during policies s' x.2 ∧ ver (loop s') = Z.of_nat (length pub + 1)
      | _ => pub' = pub
      end) ∧
    deployment_inv (mkDeployment s' (with_con (stream f) (deliver (con (stream f)) out))) pub'.
Proof.
  intros Hlen [Hs Hcl Hw Hn Hv] Hstep Hno.
  pose proof (server_step_cache _ _ _ _ Hcl Hs Hstep) as Hc.
  destruct (sys_step_inv _ _ _ Hcl Hs Hstep) as (s1 & o1 & [= <- <-] & Hs' & Hcl' & _).
  assert (with_con (stream f) (con (stream f)) = stream f) as Eself by by destruct (stream f).
  assert (∀ o, foreign (as_world f pub) o → (cache s', out) = apply_op IndexFunction (cache (server f)) o →
    loop s' = loop (server f) →
    deployment_inv (mkDeployment s' (with_con (stream f) (deliver (con (stream f)) out))) pub) as Hother.
  { intros o Hf Ho Hl. split; try done; [|by simpl; rewrite Hl].
    pose proof (other_inv IndexFunction _ o Hw Hf) as Hi. unfold other in Hi. simpl in Hi.
    rewrite <-Ho in Hi. exact Hi. }
  destruct a as [x|r who p|g i|during ps]; simpl in Hno.
  - destruct Hc as (Ec & -> & El). exists pub. split; [split_and!; [lia|done|done]|]. simpl. rewrite Eself.
    split; try done; [|by simpl; rewrite El]. unfold as_world. simpl. by rewrite Ec.
  - destruct Hc as [Ec El]. exists pub. split; [split_and!; [lia|done|done]|]. by apply (Hother (OWatch r who p)).
  - destruct Hc as [Ec El]. exists pub. split; [split_and!; [lia|done|done]|]. by apply (Hother (OCancel g i)).
  - destruct Hc as [(Ec & -> & El)|(shot & inp & Hshot & Ec & El & Hpub)].
    + exists pub. split; [split_and!; [lia|done|by left]|]. simpl. rewrite Eself. split; try done; [|by simpl; rewrite El].
      unfold as_world. simpl. by rewrite Ec.
    + exists (pub ++ [(node, shot)]). rewrite length_app.
      rewrite Hv, i64_small in Hshot, El by lia.
      split; [split_and!; [done|set_solver|]|].
      { intros x [Hx|Hx]%elem_of_app; [by left|right]. apply list_elem_of_singleton in Hx as ->.
        split; [exact Hpub|]. rewrite El. lia. }
      split; try done.
      * pose proof (publish_inv IndexFunction _ node shot Hw) as Hi. unfold publish in Hi. simpl in Hi.
        rewrite <-Ec in Hi. exact Hi.
      * intros j g s [Hj|[Hge Hj]]%lookup_app_Some; [by apply (Hn j)|].
        apply list_lookup_singleton_Some in Hj as [Hz [= <- <-]]. split; [done|]. exists inp.
        by replace j with (length pub) by lia.
      * simpl. rewrite El, length_app. simpl. lia.
Qed.

Lemma client_typeURLs_served n : n ∈ client_typeURLs → n ∈ typeURLs.
Proof.
  assert (Forall (λ n, n ∈ typeURLs) client_typeURLs) as Hf.
  { apply (bool_decide_unpack _). vm_compute. exact I. }
  intros Hn. by eapply Forall_forall in Hf.
Qed.

Lemma deploy_inv c peer who cl :
  PolicyServerDisabled c = false → NewMockPilotMCPClient None = inr cl →
  deployment_inv (deploy c peer who cl) [].
Proof.
  intros Hc [= <-]. split.
  - apply new_system_inv.
  - unfold deploy, new_system, policyServerClient. simpl. by rewrite Hc.
  - apply start_inv. split; [exists typeURLs, peer, who, client_typeURLs; split; [apply client_typeURLs_served|done]|].
    split; [|split; [|done]].
    + intros g s i rw Hs. simpl in Hs. by rewrite lookup_empty in Hs.
    + intros g i rw. unfold open_watches. simpl. by rewrite lookup_empty.
  - by intros i g s.
  - done.
Qed.

(** The client asks for the collections it was made with. *)
Lemma elem_of_client_asks k :
  k ∈ dom (sinkState (NewSink (CollectionOptionsFromSlice client_typeURLs) (mkUpdater ∅))) →
  k ∈ client_typeURLs.
Proof.
  intros [st Hk]%elem_of_dom. cbn [NewSink sinkState] in Hk.
  rewrite (lookup_options (λ o, mkPerCollection ∅ (OptIncremental o))) in Hk. by case_decide.
Qed.

Lemma stream_reopened_inv f pub peer who :
  deployment_inv f pub → unused (cache (server f)) who →
  (∀ k, is_Some (sinkState (Delivery.client (stream f)) !! k) → k ∈ typeURLs) →
  deployment_inv (mkDeployment (server f)
    (connect (CollectionOptionsFromSlice typeURLs) peer who (Delivery.client (stream f)))) pub.
Proof.
  intros [Hs Hcl Hw Hn Hv] Hun Hsub. split; [exact Hs|exact Hcl| |exact Hn|exact Hv].
  exact (reconnect_inv IndexFunction _ typeURLs peer who Hw Hun Hsub).
Qed.

Lemma reached_inv c peer who cl n f :
  PolicyServerDisabled c = false → NewMockPilotMCPClient None = inr cl → (Z.of_nat n < 2 ^ 63)%Z →
  reached ok_write (deploy c peer who cl) n f →
  ∃ pub, length pub ≤ n ∧ deployment_inv f pub ∧
    dom (sinkState (Delivery.client (stream f))) = dom (sinkState (sinkClient cl)).
Proof.
  intros Hc Hcl Hn Hr. induction Hr as [|n f1 f2 Hr IH Hstep].
  { exists []. split; [done|]. split; [by apply deploy_inv|done]. }
  destruct IH as (pub & Hl & Hinv & Hd); [lia|]. destruct Hstep as [a s' out Hs Hno|m c' l Hm|peer' who' Hun].
  - destruct (server_step_inv f1 pub a s' out) as (pub' & (Hl' & _) & Hinv'); [lia|done..|].
    exists pub'. split; [lia|]. by split.
  - destruct (stream_move_inv f1 pub m c' l Hinv Hm) as (Hinv' & _ & _ & Hd').
    exists pub. split; [lia|]. split; [done|]. simpl. by rewrite Hd'.
  - exists pub. split; [lia|]. split; [|done]. apply stream_reopened_inv; [done|done|].
    intros k Hk. apply client_typeURLs_served. apply elem_of_dom in Hk. rewrite Hd in Hk.
    injection Hcl as <-. by apply (elem_of_client_asks k).
Qed.

Lemma reached_writes f0 n f xs r :
  reached ok_write f0 n f → writes ok_write (repos (server f)) xs r →
  reached ok_write f0 (length xs + n) (mkDeployment (with_repos (server f) r) (stream f)).
Proof.
  intros Hf Hw. remember (repos (server f)) as r0 eqn:E. revert n f E Hf.
  induction Hw as [r|r x xs r1 r2 Hx Ha _ IH]; intros n f -> Hf; simpl; [by destruct f as [[] ?]|].
  replace (S (length xs + n)) with (length xs + S n) by lia.
  refine (IH (S n) (mkDeployment (with_repos (server f) r1) (stream f)) eq_refl _).
  eapply reached_next; [exact Hf|].
  pose proof (server_step ok_write f (AWrite x) (with_repos (server f) r1) []) as Hs.
  simpl in Hs. replace (with_con (stream f) (con (stream f))) with (stream f) in Hs by by destruct (stream f).
  apply Hs; [|exact I]. by apply (step_write _ (server f) x (Ret r1)).
Qed.

Lemma stream_moves_inv f pub ms f' :
  deployment_inv f pub → stream_moves f ms = Some f' →
  deployment_inv f' pub ∧ snapshots (cache (server f')) = snapshots (cache (server f)) ∧
  dom (sinkState (Delivery.client (stream f'))) = dom (sinkState (Delivery.client (stream f))) ∧
  run_moves IndexFunction (as_world f pub) ms = Some (as_world f' pub).
Proof.
  revert f; induction ms as [|m ms IH]; intros f Hinv; simpl; [by intros [= <-]|].
  destruct (move_link IndexFunction (cache (server f)) (stream f) m) as [[c l]|] eqn:Hm; simpl; [|done].
  intros Hr. destruct (stream_move_inv f pub m c l Hinv Hm) as (Hinv' & _ & Hs & Hd).
  destruct (IH _ Hinv' Hr) as (? & Es & Ed & Hrun). split; [done|].
  split; [by rewrite Es|]. split; [by rewrite Ed|]. unfold move_world. simpl. rewrite Hm. simpl. exact Hrun.
Qed.

(** ** What the client holds at rest *)
(** In a versioned collection the version tells the snapshot. *)
Lemma numbered_version pub k s1 s2 :
  numbered pub → k ∈ versioned_collections → k ∈ typeURLs → (node, s1) ∈ pub → (node, s2) ∈ pub →
  VersionOf s1 k = VersionOf s2 k → s1 = s2.
Proof.
  intros Hn Hk Hu (i & Hi)%list_elem_of_lookup (j & Hj)%list_elem_of_lookup Hv.
  destruct (Hn _ _ _ Hi) as (_ & inp1 & E1), (Hn _ _ _ Hj) as (_ & inp2 & E2).
  rewrite (snapshot_of_version _ _ _ _ E1), (snapshot_of_version _ _ _ _ E2) in Hv by auto.
  rewrite !decide_True in Hv by done.
  apply Itoa_inj in Hv. assert (i = j) as <- by lia. congruence.
Qed.

Lemma rest_holds f pub k s :
  deployment_inv f pub → stream_at_rest f → k ∈ versioned_collections → k ∈ client_typeURLs →
  is_Some (sinkState (Delivery.client (stream f)) !! k) →
  snapshots (cache (server f)) !! node = Some s →
  ∀ os, unpack_all (elems (Resources s k)) = inr os →
    objects (updater (Delivery.client (stream f))) !! k = Some os.
Proof.
  intros [Hs Hcl Hw Hn Hv] Hrest Hk Hkc Hsup Hsn os Hos.
  assert (IndexFunction k = node) as Ek by (apply typeURLs_default; by apply client_typeURLs_served).
  pose proof (client_typeURLs_served k Hkc) as Hu.
  assert ((node, s) ∈ pub) as Hin by (by apply (wf_pub IndexFunction _ (proj1 Hw))).
  assert (at_rest IndexFunction (as_world f pub)) as Hr.
  { intros m. unfold move_world. simpl. by rewrite Hrest. }
  destruct (rest_current IndexFunction _ k s Hw Hr Hsup) as [_ [Hv0|(s' & Hs' & Hv' & Hgot)]].
  - simpl. by rewrite Ek.
  - apply list_elem_of_lookup in Hin as (i & Hi). destruct (Hn _ _ _ Hi) as (_ & inp & E1).
    rewrite (snapshot_of_version _ _ _ _ E1), decide_True in Hv0 by auto. by apply Itoa_ne_empty in Hv0.
  - rewrite Ek in Hs'. simpl in *. rewrite (numbered_version pub k s' s) in Hgot by auto. by apply Hgot.
Qed.
End end_to_end.

(** ** Lemmas: the types of the collections *)
Section types.
Context `{GrowSlice} `{MapOrder} `{Marshal} `{!Unmarshal} `{!RoundTrip}.

(** The resources are packed messages of one type. *)
Definition packs {A} (mk : A → proto) (rs : list Resource) (ms : list A) : Prop :=
  Forall2 (λ r m, Body r = body_of (mk m)) rs ms.

Lemma packs_fmap {A B} (mk : A → proto) (f : B → Resource) (g : B → A) l :
  (∀ x, Body (f x) = body_of (mk (g x))) → packs mk (f <$> l) (g <$> l).
Proof. intros Hf. unfold packs. induction l as [|x l IH]; by constructor. Qed.

Lemma emit_packs version h entries :
  ∃ ms, packs PSidecar (emit version h entries) ms.
Proof.
  revert h; induction entries as [|[source ds] entries IH]; intros h; simpl; [by exists []; constructor|].
  edestruct IH as [ms Hms]. eexists (_ :: ms). constructor; [done|exact Hms].
Qed.

Lemma published_typed v i shot :
  snapshot_of v i = Ret shot →
  (∃ ms, packs PSidecar (elems (Resources shot SidecarTypeURL)) ms) ∧
  (∃ ms, packs PGateway (elems (Resources shot GatewayTypeURL)) ms) ∧
  (∃ ms, packs PDestinationRule (elems (Resources shot DestinationRuleTypeURL)) ms) ∧
  (∃ ms, packs PVirtualService (elems (Resources shot VirtualServiceTypeURL)) ms) ∧
  ∃ ms, packs PServiceEntry (elems (Resources shot ServiceEntryTypeURL)) ms.
Proof.
  intros (ps & g & vs & _ & Hg & Hvs & ->)%snapshot_of_updates.
  rewrite !Resources_fill. split_and!.
  - change (∃ ms, packs PSidecar (elems (appended (CreateSidecarResources (collected i) ps v))) ms).
    unfold appended. rewrite elems_gappend. unfold CreateSidecarResources.
    destruct (route_map (elems (collected i))) as [h routeMap].
    destruct (policy_map routeMap h (elems ps)) as [h' policyMap].
    destruct (emit_packs v h' (map_order policyMap)) as [ms Hms]. exists (default_sidecar :: ms).
    by constructor.
  - change (∃ ms, packs PGateway (elems (appended g)) ms). unfold appended. rewrite elems_gappend.
    unfold CreateGatewayResources in Hg. destruct librarian_Locate as [pairs e].
    apply bind_Ret in Hg as (servers & _ & [= <-]). exists [mkGateway servers]. by repeat constructor.
  - change (∃ ms, packs PDestinationRule
      (elems (appended (CreateDestinationRuleResources (collected i) v))) ms).
    unfold appended. rewrite elems_gappend. eexists. by apply (packs_fmap _ _ snd).
  - change (∃ ms, packs PVirtualService (elems (appended vs)) ms). unfold appended. rewrite elems_gappend.
    unfold CreateVirtualServiceResources in Hvs. apply bind_Ret in Hvs as (st & _ & [= <-]).
    eexists. by apply (packs_fmap _ _ (λ e, deref_service (http_heap st) e.2)).
  - change (∃ ms, packs PServiceEntry
      (elems (appended (CreateServiceEntryResources (collected i) v))) ms).
    unfold appended. rewrite elems_gappend. eexists. by apply (packs_fmap _ _ snd).
Qed.

Lemma body_of_packed m : ∃ a, body_of m = Some a ∧ UnmarshalAny a = inr m.
Proof. destruct (packed m) as (a & E & Hu). exists a. unfold body_of. by rewrite E. Qed.
Lemma body_of_inj m1 m2 : body_of m1 = body_of m2 → m1 = m2.
Proof.
  destruct (body_of_packed m1) as (a & -> & E1), (body_of_packed m2) as (b & -> & E2).
  intros [= ->]. congruence.
Qed.

(** Packed messages arrive. *)
Lemma unpack_packs {A} (mk : A → proto) rs ms :
  packs mk rs ms → ∃ os, unpack_all rs = inr os ∧ ObjBody <$> os = mk <$> ms ∧
    ObjName <$> os = Name <$> rs ∧ ObjVersion <$> os = Version <$> rs.
Proof.
  induction 1 as [|r m rs ms Hr _ (os & Hu & Hb & Hn & Hv)]; [by exists []|].
  destruct (body_of_packed (mk m)) as (a & Ea & Hm). rewrite Ea in Hr.
  exists (mkObject (TypeUrl a) (Name r) (Version r) (mk m) :: os).
  split; [cbn [unpack_all]; unfold unpack; by rewrite Hr, Hm, Hu|]. by rewrite !fmap_cons, Hb, Hn, Hv.
Qed.

Lemma read_back {A} (mk : A → proto) (assert : proto → option A) (u : MockMCPUpdater) k os ms :
  (∀ x, assert (mk x) = Some x) → objects u !! k = Some os → ObjBody <$> os = mk <$> ms →
  bodies_of assert u k = Ret ms.
Proof.
  intros Hmk Ho Hb. rewrite bodies_of_spec. unfold lookup0. rewrite Ho. simpl.
  assert (mapM (λ o, assert (ObjBody o)) os = Some ms) as ->; [|done].
  clear Ho. revert ms Hb; induction os as [|o os IH]; intros [|m ms] Hb; try done.
  rewrite !fmap_cons in Hb. injection Hb as Ho' Hb. simpl. rewrite Ho', Hmk. simpl. by rewrite (IH ms).
Qed.

(** An updater that got the snapshot's resources. *)
Definition receives (u : MockMCPUpdater) (shot : InMemory Resource) (k : string) : Prop :=
  ∀ os, unpack_all (elems (Resources shot k)) = inr os → objects u !! k = Some os.

Lemma received {A} (mk : A → proto) (assert : proto → option A) (u : MockMCPUpdater) shot k ms :
  (∀ x, assert (mk x) = Some x) → receives u shot k → packs mk (elems (Resources shot k)) ms →
  bodies_of assert u k = Ret ms.
Proof.
  intros Hmk Hr Hp. destruct (unpack_packs mk _ ms Hp) as (os & Hu & Hb & _).
  by eapply read_back; [exact Hmk|apply Hr|].
Qed.


(** Every deployment's stream comes to rest. *)
Lemma stream_moves_of f pub ms w :
  run_moves IndexFunction (as_world f pub) ms = Some w →
  ∃ f', stream_moves f ms = Some f' ∧ w = as_world f' pub.
Proof.
  revert f; induction ms as [|m ms IH]; intros f; simpl; [intros [= <-]; by exists f|].
  unfold move_world at 1. simpl.
  destruct (move_link IndexFunction (cache (server f)) (stream f) m) as [[c l]|]; simpl; [|done].
  intros Hr. by apply (IH (mkDeployment (with_cache (server f) c) l)).
Qed.
Lemma stream_comes_to_rest f pub :
  Delivery.inv IndexFunction (as_world f pub) →
  ∃ ms f', stream_moves f ms = Some f' ∧ stream_at_rest f'.
Proof.
  intros Hinv. destruct (drain_rests IndexFunction _ _ Hinv (Nat.le_refl _)) as (Hr & _ & ms & Hms).
  destruct (stream_moves_of f pub ms _ Hms) as (f' & Hf' & Ew). exists ms, f'. split; [done|].
  intros m. specialize (Hr m). rewrite Ew in Hr. unfold move_world in Hr. simpl in Hr.
  by destruct (move_link _ _ _ _) as [[??]|].
Qed.
End types.

(** ** Lemmas: one quiet tick *)
Section quiet.
Context `{GrowSlice} `{MapOrder} `{Marshal} `{!Unmarshal} `{!RoundTrip} `{UnicodeLower} `{FloatToInt}.
Context `{GoSyntax} `{X509}.

Lemma quiet_tick_step policies f f1 : quiet_tick policies f f1 → deployment_step ok_write f f1.
Proof.
  intros (out & Hs & Hc). pose proof (server_step ok_write f _ _ _ Hs I) as Hd.
  rewrite <-Hc in Hd. by destruct f1.
Qed.

(** One quiet tick publishes a served route to whoever receives the virtual services. *)
Lemma quiet_tick_publishes (s : system) policies k rm route a :
  System.client s = Client → sys_inv s →
  RouteMappings.repo (capi_mappings (capi (repos s))) !! k = Some rm →
  Routes.Get (capi_routes (capi (repos s))) (RouteMappings.RouteGUID rm) = Some route →
  Associations.Get (capi_associations (capi (repos s))) (RouteMappings.CAPIProcessGUID rm) = Some a →
  process_backends (world_of (repos s)) (Routes.Internal route) a ≠ [] →
  distinct_routes (capi_routes (capi (repos s))) →
  ∃ s' out shot, sys_step ok_write s (ATick [] (inr policies)) (Ret (s', out)) ∧
    snapshots (cache s') !! node = Some shot ∧
    ∀ u, receives u shot VirtualServiceTypeURL →
      client_routes u route (RouteMappings.CAPIProcessGUID rm)
        (process_backends (world_of (repos s)) (Routes.Internal route) a).
Proof.
  intros Hcl Hinv Hmap Hroute Hassoc Hbackends Hdist.
  destruct (quiet_tick_serves s policies k rm route a Hcl Hinv) as
    (s' & out & shot & rsc & vs & hr & d & Ht & _ & _ & (v & inp & Hof) & Hsh & Hin & Hb & Hh & Hhr & Hd & Hm
     & Hdh & Hds & Hport); [done..|].
  exists s', out, shot. split; [rewrite <-Ht; apply step_tick; constructor|]. split; [done|]. intros u Hrec.
  destruct (published_typed v inp shot Hof) as (_ & _ & _ & (vss & Hp) & _).
  exists vss, vs, hr, d. split; [by eapply (received PVirtualService); [|exact Hrec|exact Hp]|]. split; [|done].
  apply list_elem_of_lookup in Hin as [j Hj]. destruct (Forall2_lookup_l _ _ _ _ _ Hp Hj) as (m & Hmj & Em).
  rewrite Hb in Em. apply body_of_inj in Em. injection Em as <-. by eapply list_elem_of_lookup_2.
Qed.

(** A client at rest that asked for all its collections received the virtual services. *)
Lemma rest_receives f pub shot :
  deployment_inv f pub → stream_at_rest f →
  dom (sinkState (Delivery.client (stream f))) =
    dom (sinkState (NewSink (CollectionOptionsFromSlice client_typeURLs) (mkUpdater ∅))) →
  snapshots (cache (server f)) !! node = Some shot →
  receives (updater (Delivery.client (stream f))) shot VirtualServiceTypeURL.
Proof.
  intros Hinv Hrest Hdom Hsh os Hos. eapply (rest_holds f pub); [done|done|..|exact Hsh|done].
  - apply (bool_decide_unpack _). vm_compute. exact I.
  - apply (bool_decide_unpack _). vm_compute. exact I.
  - apply elem_of_dom. rewrite Hdom. apply elem_of_dom. vm_compute. by eexists.
Qed.

(** After one quiet tick the stream brings a served route to the client. *)
Lemma quiet_tick_reaches_client (c : Config) peer who cl n f policies k rm route a :
  PolicyServerDisabled c = false → NewMockPilotMCPClient None = inr cl →
  (Z.of_nat n + 1 < 2 ^ 63)%Z → reached ok_write (deploy c peer who cl) n f →
  RouteMappings.repo (capi_mappings (capi (repos (server f)))) !! k = Some rm →
  Routes.Get (capi_routes (capi (repos (server f)))) (RouteMappings.RouteGUID rm) = Some route →
  Associations.Get (capi_associations (capi (repos (server f)))) (RouteMappings.CAPIProcessGUID rm) = Some a →
  process_backends (world_of (repos (server f))) (Routes.Internal route) a ≠ [] →
  distinct_routes (capi_routes (capi (repos (server f)))) →
  ∃ f1, quiet_tick policies f f1 ∧
    (∃ ms f2, stream_moves f1 ms = Some f2 ∧ stream_at_rest f2) ∧
    ∀ ms f2, stream_moves f1 ms = Some f2 → stream_at_rest f2 →
      client_routes (updater (Delivery.client (stream f2))) route (RouteMappings.CAPIProcessGUID rm)
        (process_backends (world_of (repos (server f))) (Routes.Internal route) a).
Proof.
  intros Hc Hcl Hn Hf Hmap Hroute Hassoc Hbackends Hdist.
  destruct (reached_inv c peer who cl n f Hc Hcl ltac:(lia) Hf) as (pub & Hl & Hinv & Hdom).
  destruct (quiet_tick_publishes (server f) policies k rm route a (dep_client _ _ Hinv) (dep_sys _ _ Hinv))
    as (s' & out & shot & Hstep & Hsh & Hserves); [done..|].
  destruct (server_step_inv f pub _ s' out ltac:(lia) Hinv Hstep I) as (pub' & _ & Hinv').
  exists (mkDeployment s' (with_con (stream f) (deliver (con (stream f)) out))).
  split; [by exists out|]. set (f1 := mkDeployment s' _) in *. split.
  - apply (stream_comes_to_rest f1 pub'), (dep_world _ _ Hinv').
  - intros ms f2 Hms Hrest. destruct (stream_moves_inv f1 pub' ms f2 Hinv' Hms) as (Hinv2 & Hsn & Hd2 & _).
    apply Hserves. apply (rest_receives f2 pub'); [done|done| |by rewrite Hsn].
    rewrite Hd2. simpl. rewrite Hdom. by injection Hcl as <-.
Qed.
End quiet.

(** ** Properties *)

(** C26. What the server publishes is well typed: a client that got the five collections
    of a snapshot reads each of them back with the getter of its type, no type assertion
    panics, and the messages are those the server packed, in the same order. *)
Theorem published_collections_typed `{GrowSlice} `{MapOrder} `{Marshal} `{!Unmarshal} `{!RoundTrip}
    (u : MockMCPUpdater) (v : string) (i : inputs) (shot : InMemory Resource)
    (Hs : snapshot_of v i = Ret shot)
    (Hu : ∀ k, k ∈ GatewayTypeURL :: versioned_collections → receives u shot k) :
  (∃ l, GetAllSidecars u = Ret l ∧
     body_of ∘ PSidecar <$> l = Body <$> elems (Resources shot SidecarTypeURL)) ∧
  (∃ l, GetAllGateways u = Ret l ∧
     body_of ∘ PGateway <$> l = Body <$> elems (Resources shot GatewayTypeURL)) ∧
  (∃ l, GetAllDestinationRules u = Ret l ∧
     body_of ∘ PDestinationRule <$> l = Body <$> elems (Resources shot DestinationRuleTypeURL)) ∧
  (∃ l, GetAllVirtualServices u = Ret l ∧
     body_of ∘ PVirtualService <$> l = Body <$> elems (Resources shot VirtualServiceTypeURL)) ∧
  ∃ l, GetAllServiceEntries u = Ret l ∧
     body_of ∘ PServiceEntry <$> l = Body <$> elems (Resources shot ServiceEntryTypeURL).
Proof.
  destruct (published_typed v i shot Hs) as ((l1 & P1) & (l2 & P2) & (l3 & P3) & (l4 & P4) & (l5 & P5)).
  assert (∀ {A} (mk : A → proto) rs ms, packs mk rs ms → body_of ∘ mk <$> ms = Body <$> rs) as Hb.
  { intros A mk rs ms. induction 1 as [|r m rs ms Hr _ IH]; [done|]. by rewrite !fmap_cons, IH, Hr. }
  split_and!.
  - exists l1. split; [|by apply Hb]. eapply (received PSidecar); [done| |exact P1].
    apply Hu. by apply (bool_decide_unpack _).
  - exists l2. split; [|by apply Hb]. eapply (received PGateway); [done| |exact P2].
    apply Hu. by apply (bool_decide_unpack _).
  - exists l3. split; [|by apply Hb]. eapply (received PDestinationRule); [done| |exact P3].
    apply Hu. by apply (bool_decide_unpack _).
  - exists l4. split; [|by apply Hb]. eapply (received PVirtualService); [done| |exact P4].
    apply Hu. by apply (bool_decide_unpack _).
  - exists l5. split; [|by apply Hb]. eapply (received PServiceEntry); [done| |exact P5].
    apply Hu. by apply (bool_decide_unpack _).
Qed.

(** From the repositories to the client: take a server that was started with the
    policy server enabled and the client of the tests connected to it, after any history
    of fewer than 2^63 steps, breaks of the client's stream included.  If the
    repositories hold a route, a mapping of it, the process's association and a backend on
    the route's side, and no two routes can be confused, then after one quiet tick the
    stream comes to rest, and whenever it does, the client's virtual services can be read
    and one of them, for the route's host, sends the route's path to the process, at the
    port of one of its backends. *)
Theorem mapped_route_reaches_client `{GrowSlice} `{MapOrder} `{Marshal} `{!Unmarshal} `{!RoundTrip}
    `{UnicodeLower} `{FloatToInt} `{GoSyntax} `{X509} (c : Config) (peer : string) (who : nat)
    (cl : MockPilotMCPClient) (n : nat) (f : deployment) (policies : gslice Policy)
    (k : string) (rm : RouteMapping) (route : Route) (a : CAPIDiegoProcessAssociation)
    (Hc : PolicyServerDisabled c = false) (Hcl : NewMockPilotMCPClient None = inr cl)
    (Hn : (Z.of_nat n + 1 < 2 ^ 63)%Z) (Hf : reached ok_write (deploy c peer who cl) n f)
    (Hmap : RouteMappings.repo (capi_mappings (capi (repos (server f)))) !! k = Some rm)
    (Hroute : Routes.Get (capi_routes (capi (repos (server f)))) (RouteMappings.RouteGUID rm) = Some route)
    (Hassoc : Associations.Get (capi_associations (capi (repos (server f))))
                (RouteMappings.CAPIProcessGUID rm) = Some a)
    (Hbackends : process_backends (world_of (repos (server f))) (Routes.Internal route) a ≠ [])
    (Hdist : distinct_routes (capi_routes (capi (repos (server f))))) :
  ∃ f1, quiet_tick policies f f1 ∧
    (∃ ms f2, stream_moves f1 ms = Some f2 ∧ stream_at_rest f2) ∧
    ∀ ms f2, stream_moves f1 ms = Some f2 → stream_at_rest f2 →
      client_routes (updater (Delivery.client (stream f2))) route (RouteMappings.CAPIProcessGUID rm)
        (process_backends (world_of (repos (server f))) (Routes.Internal route) a).
Proof. by eapply quiet_tick_reaches_client. Qed.

(** ** Witnesses *)
Section witness.
#[local] Existing Instances go_grow asc_order transparent transparent_unmarshal ascii_only amd64 w_syntax w_x509.

#[local] Instance w_roundtrip : RoundTrip.
Proof. split. intros m. by exists m. Qed.

Definition w_client : MockPilotMCPClient :=
  match NewMockPilotMCPClient None with
  | inr cl => cl
  | inl _ => mkPilotClient true (NewSink [] (mkUpdater ∅)) false
  end.
Definition w_deployment : deployment :=
  mkDeployment w_server (stream (deploy w_config "peer" 1 w_client)).

Lemma w_deployed : reached ok_write (deploy w_config "peer" 1 w_client) 6 w_deployment.
Proof.
  apply (reached_writes (deploy w_config "peer" 1 w_client) 0 (deploy w_config "peer" 1 w_client) w_writes).
  - apply reached_start.
  - apply ok_run_writes. vm_compute. repeat split. eexists. split; [reflexivity|]. repeat constructor. by eexists.
Qed.

Lemma mapped_route_reaches_client_witness :
  ∃ f2 vss vs hr, GetAllVirtualServices (updater (Delivery.client (stream f2))) = Ret vss ∧ vs ∈ vss ∧
    VsHosts vs = ["h.example.com"] ∧ hr ∈ VsHttp vs ∧ MatchPrefix hr = Some "/a".
Proof.
  destruct (mapped_route_reaches_client w_config "peer" 1 w_client 6 w_deployment Nil
    (RouteMappings.Key w_mapping) w_mapping w_route (mkAssociation "p" (Sl ["d"])))
    as (f1 & _ & (ms & f2 & Hms & Hrest) & Hall).
  - reflexivity.
  - reflexivity.
  - lia.
  - exact w_deployed.
  - vm_compute. reflexivity.
  - vm_compute. reflexivity.
  - vm_compute. reflexivity.
  - vm_compute. discriminate.
  - assert (Routes.repo (capi_routes (capi (repos w_server))) = {["g" := w_route]}) as E by reflexivity.
    unfold distinct_routes, Routes.Get. change (server w_deployment) with w_server.
    rewrite E. intros g1 g2 t1 t2. rewrite !lookup_singleton_Some. intros [_ <-] [_ <-] _. done.
  - destruct (Hall ms f2 Hms Hrest) as (vss & vs & hr & d & ? & ? & ? & ? & _ & ? & _).
    exists f2, vss, vs, hr. split_and!; assumption.
Defined.

Definition w_typed_inputs : inputs := mkInputs (Sl []) (inr Nil) ([], None).
Definition w_typed_shot : InMemory Resource :=
  match snapshot_of "1" w_typed_inputs with Ret s => s | Panic _ => mkInMemory ∅ ∅ end.
Definition w_typed_client : MockMCPUpdater :=
  mkUpdater ((λ rs, match unpack_all (elems rs) with inr os => os | inl _ => [] end)
    <$> resources w_typed_shot).

Lemma published_collections_typed_witness :
  ∃ l, GetAllGateways w_typed_client = Ret l ∧
    body_of ∘ PGateway <$> l = Body <$> elems (Resources w_typed_shot GatewayTypeURL).
Proof.
  apply (published_collections_typed w_typed_client "1" w_typed_inputs w_typed_shot).
  - vm_compute. reflexivity.
  - assert (Forall (λ k, objects w_typed_client !! k =
      match unpack_all (elems (Resources w_typed_shot k)) with inr os => Some os | inl _ => None end)
      (GatewayTypeURL :: versioned_collections)) as Hf.
    { repeat (constructor; [vm_compute; reflexivity|]). constructor. }
    intros k Hk os Hos. apply (proj1 (Forall_forall _ _) Hf) in Hk. by rewrite Hos in Hk.
Defined.
End witness.
