(* ===== verification/Fitting.v ===== *)
(** * A stream whose messages fit

    When every message that a new stream of Pilot's client can send fits the limits of the
    transport, the stream stays up ([McpPort]) however it moves.  The messages are known:
    the requests and acknowledgements of the collections the client asks for, and the
    responses with those collections of the snapshot that is served, under the nonces of
    the few responses that a stream sends between two publications. *)
From S2P Require Import Prelude UniqueQueue GoStrings GoSort GoFloat Routes RouteMappings Associations.
From S2P Require Import BackendSets FixWeights Collector Api Handlers Wire Certs Istio GoSlices Sidecars.
From S2P Require Import Gateways DestinationRules ServiceEntries VirtualServices McpCache McpStream.
From S2P Require Import SnapshotLoop McpClient ServerConfig Tls Grpc Clients System.
From S2P Require Import Delivery EndToEnd McpPort.

(** ** Specification *)
Section fitting.
Context `{Marshal} `{!Unmarshal} `{MapOrder} `{!McpCodec} `{Compressors} `{GoQuote}.

(** A request without versions or errors, and a collection of a snapshot in full. *)
Definition plain_request (k nonce : string) : RequestResources := mkRequestResources k ∅ false nonce None.
Definition full_response (shot : InMemory Resource) (k nonce : string) : ResourcesMsg :=
  mkResourcesMsg (VersionOf shot k) k (elems (Resources shot k)) [] false nonce.

(** Up to its [n]th response, what a stream for the collections [ks] sends fits. *)
Record snapshot_fits (ks : list string) (n : nat) (shot : InMemory Resource) : Prop := mkSnapshotFits {
  first_fits k : k ∈ ks → fits_up (plain_request k "");
  acks_fit k z : k ∈ ks → (0 < z ≤ Z.of_nat n)%Z → fits_up (plain_request k (FormatInt z));
  responses_fit k z : k ∈ ks → (0 < z ≤ Z.of_nat n)%Z → fits_down (full_response shot k (FormatInt z));
}.

(** What is under way on a link that has sent at most [n] responses. *)
Definition numbered_nonce (n : nat) (nonce : string) : Prop :=
  ∃ z, (0 < z ≤ Z.of_nat n)%Z ∧ nonce = FormatInt z.
Definition plain_up (n : nat) (r : RequestResources) : Prop :=
  r = plain_request (ReqCollection r) (ResponseNonce r) ∧
  (ResponseNonce r = "" ∨ numbered_nonce n (ResponseNonce r)).
Record plain (n : nat) (l : link) : Prop := mkPlain {
  plain_nonce : (0 ≤ streamNonce (con l) ≤ Z.of_nat n)%Z;
  plain_initial : Forall (plain_up n) (initialRequests l);
  plain_requests : Forall (plain_up n) (c2s l);
  plain_responses : Forall (λ m, RemovedResources m = [] ∧ numbered_nonce n (Nonce m)) (s2c l);
}.

(** Links that differ in what the client was given. *)
Record alike (l l0 : link) : Prop := mkAlike {
  alike_con : con l = con l0;
  alike_up : c2s l = c2s l0;
  alike_down : s2c l = s2c l0;
  alike_state : sinkState (client l) = sinkState (client l0);
  alike_initial : initialRequests l = initialRequests l0;
  alike_ended : ended l = ended l0;
}.
End fitting.

(** ** Lemmas: the messages *)
Section lemmas.
Context `{Marshal} `{!Unmarshal} `{MapOrder} `{!McpCodec} `{Compressors} `{GoQuote}.
Context (groupIndex : string → string).

Lemma plain_up_mono n r : plain_up n r → plain_up (S n) r.
Proof. intros [? [?|(z & ? & ?)]]; split; [done|by left|done|right; exists z; split; [lia|done]]. Qed.
Lemma plain_mono n l : plain n l → plain (S n) l.
Proof.
  intros [Hn Hi Hr Hs]. split; [lia|by eapply Forall_impl; [|apply plain_up_mono]..|].
  eapply Forall_impl; [exact Hs|]. intros m [? (z & ? & ?)]. split; [done|]. exists z. split; [lia|done].
Qed.

Lemma plain_connect collections peer who (s : Sink MockMCPUpdater) :
  (∀ k st, sinkState s !! k = Some st → requestIncremental st = false) →
  plain 0 (connect collections peer who s).
Proof.
  intros Hf. split; [done| |by constructor..]. simpl. unfold createInitialRequests. apply Forall_fmap, Forall_forall.
  intros [k st] Hk%elem_of_map_order. unfold plain_up. simpl. rewrite (Hf k st Hk). by split; [|left].
Qed.

Lemma streamNonce_deliver out con0 : streamNonce (deliver con0 out) = streamNonce con0.
Proof.
  revert con0; induction out as [|p out IH]; intros con0; simpl; [done|]. rewrite IH.
  case_decide; [|done]. by destruct (response p).
Qed.

(** A message under way is about a collection the client asks for. *)
Lemma under_way_supported w k :
  Delivery.inv groupIndex w →
  k ∈ ReqCollection <$> initialRequests (wlink w) ∨ k ∈ ReqCollection <$> c2s (wlink w) ∨
    k ∈ MsgCollection <$> s2c (wlink w) → supported w k.
Proof.
  intros Hinv Hk. destruct (token_supported groupIndex w k Hinv) as [? _]; [|done].
  intros (E1 & E2 & _ & E3 & _). simpl in *.
  apply (about_nil_iff groupIndex) in E1, E2, E3. naive_solver.
Qed.

Lemma plain_move w m w' n :
  Delivery.inv groupIndex w →
  (∀ g s k, (g, s) ∈ published w → ∃ os, unpack_all (elems (Resources s k)) = inr os) →
  plain n (wlink w) → move_world groupIndex w m = Some w' → plain (S n) (wlink w').
Proof.
  intros Hinv Hun Hp. pose proof Hinv as [Hwf _]. pose proof (plain_mono n _ Hp) as [_ Hi Hr Hs].
  pose proof (plain_nonce _ _ Hp) as Hn.
  unfold move_world, move_link. rewrite (wf_up _ _ Hwf). destruct m.
  - simpl. destruct (take_entry None (conQueue (con (wlink w)))) as [[q [[k item]|]]|]; [| |done].
    + destruct (conWatches (con (wlink w)) !! k) as [wa|] eqn:Ewa, item as [resp|];
        [|intros [= <-]; split; simpl; rewrite ?app_nil_r; (done || lia)..].
      unfold pushServerResponse. rewrite (wf_full _ _ Hwf _ _ Ewa). simpl. intros [= <-].
      split; simpl; [lia|done..|]. apply Forall_app. split; [done|]. apply Forall_singleton.
      split; [done|]. eexists. split; [|done]. lia.
    + intros [= <-]; split; simpl; rewrite ?app_nil_r; (done || lia).
  - destruct (c2s (wlink w)) as [|req rest]; [done|]. apply Forall_cons in Hr as [_ Hr].
    assert (∀ c1 con1 e, processClientRequest groupIndex (con (wlink w)) (wcache w) req = (con1, c1, e) →
      streamNonce con1 = streamNonce (con (wlink w))) as Hsame.
    { intros c1 con1 e. unfold processClientRequest. destruct (isTriggerResponse req); [by intros [= <- _ _]|].
      destruct (conWatches _ !! _) as [wa|]; [|by intros [= <- _ _]]. case_decide; [|by intros [= <- _ _]].
      destruct (settle wa req) as [wa1 v]. destruct (Watch _ _ _ _ _) as [[c2 out] i].
      intros [= <- _ _]. simpl. apply streamNonce_deliver. }
    simpl. destruct (processClientRequest _ _ _ _) as [[con1 c1] e] eqn:Ep. specialize (Hsame _ _ _ eq_refl).
    intros [= <-]. split; simpl; rewrite ?app_nil_r; (done || lia).
  - destruct (initialRequests (wlink w)) as [|req rest] eqn:Ei; simpl.
    + destruct (s2c (wlink w)) as [|msg rest] eqn:Es; [done|]. simpl. apply Forall_cons in Hs as [[_ Hno] Hs].
      destruct (under_way_supported w (MsgCollection msg) Hinv) as [st Hst].
      { right; right. rewrite Es. apply list_elem_of_fmap_2. by left. }
      destruct (sent_published groupIndex w msg Hinv) as (s & Hin & _ & _ & Hm & _); [rewrite Es; by left|].
      destruct (Hun _ _ (MsgCollection msg) Hin) as [os Hos]. rewrite <-Hm in Hos.
      unfold handleResponse. rewrite Hst, Hos. simpl. rewrite (wf_sink _ _ Hwf _ _ Hst). intros [= <-].
      split; simpl; [lia|by constructor| |done]. apply Forall_app. split; [done|]. apply Forall_singleton.
      split; [done|]. by right.
    + apply Forall_cons in Hi as [Hq Hi]. intros [= <-]. split; simpl; [lia|done| |done].
      apply Forall_app. split; [done|]. by apply Forall_singleton.
Qed.

(** All of it fits. *)
Lemma plain_fits w n ks shot :
  Delivery.inv groupIndex w → (∀ g s, (g, s) ∈ published w → s = shot) →
  (∀ k, supported w k → k ∈ ks) → plain n (wlink w) → snapshot_fits ks n shot → fits (wlink w).
Proof.
  intros Hinv Hpub Hks [_ _ Hr Hs] [Hf Ha Hd]. split; apply Forall_forall.
  - intros r Hin. apply (proj1 (Forall_forall _ _) Hr) in Hin as Hp. destruct Hp as [Er Hno].
    assert (ReqCollection r ∈ ks) as Hk.
    { apply Hks, (under_way_supported w _ Hinv). right; left. by apply list_elem_of_fmap_2. }
    rewrite Er. destruct Hno as [->|(z & Hz & ->)]; [by apply Hf|by apply Ha].
  - intros m Hin. apply (proj1 (Forall_forall _ _) Hs) in Hin as Hp. destruct Hp as [Hrm (z & Hz & Hno)].
    assert (MsgCollection m ∈ ks) as Hk.
    { apply Hks, (under_way_supported w _ Hinv). right; right. by apply list_elem_of_fmap_2. }
    destruct (sent_published groupIndex w m Hinv Hin) as (s & Hsin & _ & Hv & Hm & Hinc).
    rewrite (Hpub _ _ Hsin) in Hv, Hm.
    assert (m = full_response shot (MsgCollection m) (FormatInt z)) as ->; [|by apply Hd].
    destruct m. unfold full_response. simpl in *. by subst.
Qed.

Lemma snapshot_fits_mono ks n n' shot : n ≤ n' → snapshot_fits ks n' shot → snapshot_fits ks n shot.
Proof. intros Hn [Hf Ha Hd]. split; [exact Hf|intros k z Hk Hz; apply Ha|intros k z Hk Hz; apply Hd]; (done || lia). Qed.
End lemmas.

(** ** Lemmas: a test *)
Section test.
Context `{Marshal} `{!Unmarshal} `{!McpCodec} `{Compressors} `{GoQuote}.

Definition request_fits (r : RequestResources) : bool :=
  match send_request r with
  | inr p => match recv_request p with inr _ => true | inl _ => false end
  | inl _ => false
  end.
Definition response_fits (m : ResourcesMsg) : bool :=
  match send_resources m with
  | inr p => match recv_resources p with inr _ => true | inl _ => false end
  | inl _ => false
  end.

Lemma request_fits_up r : request_fits r = true → fits_up r.
Proof.
  unfold request_fits. destruct (send_request r) as [|p] eqn:Es; [done|].
  destruct (recv_request p) as [|r'] eqn:Er; [done|]. intros _.
  pose proof (request_received _ _ _ Es Er) as ->. by exists p.
Qed.
Lemma response_fits_down m : response_fits m = true → fits_down m.
Proof.
  unfold response_fits. destruct (send_resources m) as [|p] eqn:Es; [done|].
  destruct (recv_resources p) as [|m'] eqn:Er; [done|]. intros _.
  pose proof (resources_received _ _ _ Es Er) as ->. by exists p.
Qed.

Definition all_fit_test (ks : list string) (n : nat) (shot : InMemory Resource) : bool :=
  forallb (λ k, request_fits (plain_request k "") &&
    forallb (λ z, request_fits (plain_request k (FormatInt z)) &&
                  response_fits (full_response shot k (FormatInt z))) (seqZ 1 (Z.of_nat n))) ks.
Lemma all_fit ks n shot : all_fit_test ks n shot = true → snapshot_fits ks n shot.
Proof.
  unfold all_fit_test. rewrite forallb_forall. intros Hf.
  assert (∀ k, k ∈ ks → request_fits (plain_request k "") = true ∧ ∀ z, (0 < z ≤ Z.of_nat n)%Z →
    request_fits (plain_request k (FormatInt z)) = true ∧
    response_fits (full_response shot k (FormatInt z)) = true) as Hall.
  { intros k Hk. apply list_elem_of_In in Hk. specialize (Hf k Hk). apply andb_true_iff in Hf as [Hfirst Hf].
    split; [done|]. intros z Hz. rewrite forallb_forall in Hf. apply andb_true_iff, Hf.
    apply list_elem_of_In, elem_of_seqZ. lia. }
  split.
  - intros k Hk. by apply request_fits_up, Hall.
  - intros k z Hk Hz. by apply request_fits_up, Hall.
  - intros k z Hk Hz. by apply response_fits_down, Hall.
Qed.
End test.

(** ** Lemmas: the stream stays up *)
Section stays.
Context `{Marshal} `{!Unmarshal} `{MapOrder} `{!McpCodec} `{Compressors} `{GoQuote}.
Context (groupIndex : string → string).

Lemma handle_alike (s s0 : Sink MockMCPUpdater) msg :
  sinkState s = sinkState s0 →
  (handleResponse s msg).2 = (handleResponse s0 msg).2 ∧
  sinkState (handleResponse s msg).1 = sinkState (handleResponse s0 msg).1.
Proof.
  intros E. unfold handleResponse. rewrite E. destruct (sinkState s0 !! MsgCollection msg) as [st|]; [|done].
  by destruct (unpack_all (MsgResources msg)).
Qed.

Lemma move_alike c l l0 m :
  alike l l0 →
  match move_link groupIndex c l m with
  | None => move_link groupIndex c l0 m = None
  | Some (c1, l1) => ∃ l2, move_link groupIndex c l0 m = Some (c1, l2) ∧ alike l1 l2
  end.
Proof.
  intros [Ec Eu Ed Es Ei Ee]. unfold move_link. rewrite Ec, Eu, Ed, Ei, Ee.
  destruct (ended l0); [done|]. destruct m.
  - destruct (ProcessStream _ _ _ _) as [[[[con1 c1] msgs] v]|]; [|done]. by eexists.
  - destruct (c2s l0) as [|req rest]; [done|].
    destruct (ProcessStream _ _ _ _) as [[[[con1 c1] msgs] v]|]; [|done]. by eexists.
  - destruct (initialRequests l0) as [|req rest]; simpl; [|by eexists].
    destruct (s2c l0) as [|msg rest]; simpl; [done|]. destruct (handle_alike (client l) (client l0) msg Es) as [E2 E1].
    destruct (handleResponse (client l) msg) as [s1 r1], (handleResponse (client l0) msg) as [s2 r2].
    simpl in *. subst r2. by eexists.
Qed.

Lemma alike_fits l l0 : alike l l0 → fits l0 → fits l.
Proof. intros [_ Eu Ed _ _ _] [? ?]. split; by rewrite ?Eu, ?Ed. Qed.

(** A stream for a snapshot that fits; the link it is compared with is one that was only
    ever given that snapshot. *)
Lemma fitting_stays_up ks N shot c ps l w n ms c1 ps1 :
  represents ps l → alive ps → alike l (wlink w) → wcache w = c →
  Delivery.inv groupIndex w → (∀ g s, (g, s) ∈ published w → s = shot) →
  (∀ k, ∃ os, unpack_all (elems (Resources shot k)) = inr os) →
  (∀ k, supported w k → k ∈ ks) → plain n (wlink w) → n + moves_left groupIndex w ≤ N →
  snapshot_fits ks N shot → moves_pilot groupIndex c ps ms = Some (c1, ps1) → alive ps1.
Proof.
  intros Hr Ha Hl Ec Hinv Hpub Hun Hks Hp Hn Hfit.
  revert c ps l w n Hr Ha Hl Ec Hinv Hpub Hks Hp Hn.
  induction ms as [|m ms IH]; intros c ps l w n Hr Ha Hl Ec Hinv Hpub Hks Hp Hn; simpl; [by intros [= _ <-]|].
  pose proof (move_represents groupIndex c ps l m Hr Ha) as Hm.
  destruct (move_pilot groupIndex c ps m) as [[c2 ps2]|]; simpl; [|done].
  destruct Hm as (c3 & l1 & Hml & _ & _ & Hal & Hup).
  pose proof (move_alike c l (wlink w) m Hl) as Hma. rewrite Hml in Hma. destruct Hma as (l2 & Hm2 & Hl2).
  assert (move_world groupIndex w m = Some (mkWorld c3 l2 (published w))) as Hw
    by (unfold move_world; by rewrite Ec, Hm2).
  destruct (move_advances groupIndex w m _ Hinv Hw) as [k Hadv].
  destruct (advances_inv groupIndex w _ k Hinv Hadv) as [Hinv2 Hless].
  assert (plain (S n) l2) as Hp2.
  { apply (plain_move groupIndex w m (mkWorld c3 l2 (published w)) n Hinv); [|done|exact Hw].
    intros g s k' Hs. rewrite (Hpub g s Hs). apply Hun. }
  assert (∀ k, supported (mkWorld c3 l2 (published w)) k → k ∈ ks) as Hks2.
  { intros k' Hk'. apply Hks. unfold supported in *. apply elem_of_dom. rewrite <-(adv_asked _ _ _ _ Hadv).
    by apply elem_of_dom. }
  assert (alive ps2) as Ha2.
  { apply Hup.
    - apply (alike_fits l (wlink w) Hl). apply (plain_fits groupIndex w n ks shot); [done..|].
      apply (snapshot_fits_mono ks n N); [lia|done].
    - apply (alike_fits l1 l2 Hl2). apply (plain_fits groupIndex _ (S n) ks shot Hinv2); [done..|].
      apply (snapshot_fits_mono ks (S n) N); [lia|done].
    - rewrite (alike_ended _ _ Hl2). apply (wf_up _ _ (proj1 Hinv2)). }
  destruct (Hal Ha2) as [-> Hr2].
  by apply (IH c3 ps2 l1 (mkWorld c3 l2 (published w)) (S n) Hr2 Ha2 Hl2 eq_refl Hinv2 Hpub Hks2 Hp2 ltac:(lia)).
Qed.
End stays.

(** ** Lemmas: the snapshots of the server *)
Section published.
Context `{GrowSlice} `{MapOrder} `{Marshal} `{!Unmarshal} `{!RoundTrip}.

Lemma snapshot_unpacks v i shot k :
  snapshot_of v i = Ret shot → ∃ os, unpack_all (elems (Resources shot k)) = inr os.
Proof.
  intros Hs. destruct (published_typed v i shot Hs) as ((? & P1) & (? & P2) & (? & P3) & (? & P4) & (? & P5)).
  destruct (snapshot_of_updates v i shot Hs) as (ps & g & vs & _ & _ & _ & Es).
  pose proof (Resources_fill (updates v (appended g) (appended (CreateSidecarResources (collected i) ps v))
    (appended vs) (appended (CreateDestinationRuleResources (collected i) v))
    (appended (CreateServiceEntryResources (collected i) v))) k) as Hk.
  rewrite <-Es in Hk. destruct (last_with _ _ _) as [u|] eqn:Eu; [|rewrite Hk; by exists []].
  apply last_with_Some in Eu as [<- Hu]. unfold updates in Hu. rewrite !elem_of_cons, elem_of_nil in Hu.
  destruct Hu as [->|[->|[->|[->|[->|Hu]]]]].
  - by destruct (unpack_packs _ _ _ P2) as (os & ? & _); exists os.
  - by destruct (unpack_packs _ _ _ P1) as (os & ? & _); exists os.
  - by destruct (unpack_packs _ _ _ P4) as (os & ? & _); exists os.
  - by destruct (unpack_packs _ _ _ P3) as (os & ? & _); exists os.
  - by destruct (unpack_packs _ _ _ P5) as (os & ? & _); exists os.
  - rewrite Hk. exists []. by repeat destruct Hu as [->|Hu].
Qed.
End published.
