(* ===== verification/Pilot.v ===== *)
(** * The server and Pilot's client over the wire

    The transition system of the server ([System]) with Pilot's client on its MCP port
    ([McpPort]): the client has dialled, opens a stream when it has none, and either end
    of the stream may return at any time, on an error of the transport or because a
    message does not fit, while the other goes on for a while: a source without its sink
    still serves the requests it has read, a sink without its source still reads the
    responses under way.  While both ends are up the stream is a link of [EndToEnd]. *)
From S2P Require Import Prelude UniqueQueue GoStrings GoSort GoFloat Routes RouteMappings Associations.
From S2P Require Import BackendSets FixWeights Collector Api Handlers Wire Certs Istio GoSlices Sidecars.
From S2P Require Import Gateways DestinationRules ServiceEntries VirtualServices McpCache McpStream.
From S2P Require Import SnapshotLoop McpClient ServerConfig Tls Grpc Clients System.
From S2P Require Import Delivery EndToEnd McpPort Fitting.

Section pilot.
Context `{GrowSlice} `{MapOrder} `{Marshal} `{!Unmarshal} `{!McpCodec} `{UnicodeLower} `{FloatToInt}.
Context `{GoSyntax} `{X509} {K P : Type} `{!X509Verify K P} `{Compressors} `{GoQuote} `{Network}.
Context (cfg : Config) (stls : TLSConfig K P).

(** ** State *)
Record piloted := mkPiloted {
  pserver : system;
  pstream : pilot_stream;
  pconn : ClientConn K P;
}.

(** The stream of a client that has none yet. *)
Definition no_stream (s : Sink MockMCPUpdater) : pilot_stream :=
  mkPilotStream (newConnection [] "" 0) [] [] s [] (Some None) (Some None).

(** A started server, and a client that has dialled it. *)
Definition pilot_deploy (client : PilotClient K P) : piloted :=
  mkPiloted (new_system cfg) (no_stream (sinkClient (pilot client))) (conn client).

(** ** Steps *)
(** A step of the server that is not a call of the stream's source; one that has
    returned cancels its watches. *)
Definition not_sources (f : piloted) (a : action) : Prop :=
  match a with
  | AWatch _ who _ => who ≠ id (source (pstream f))
  | ACancel group i => source_end (pstream f) = None →
      ∀ rw, open_watches (cache (pserver f)) group !! i = Some rw →
        pushResponse rw ≠ id (source (pstream f))
  | _ => True
  end.

(** What happens to the stream: a move; an end returns, on an error of the transport or
    since the context is done; the client's loop opens a new stream. *)
Inductive stream_event (f : piloted) : piloted → Prop :=
| event_move m c ps :
    move_pilot IndexFunction (cache (pserver f)) (pstream f) m = Some (c, ps) →
    stream_event f (mkPiloted (with_cache (pserver f) c) ps (pconn f))
| event_source_lost err :
    source_end (pstream f) = None →
    stream_event f (mkPiloted (pserver f) (end_source (pstream f) (source (pstream f)) err) (pconn f))
| event_sink_lost err :
    sink_end (pstream f) = None →
    stream_event f (mkPiloted (pserver f) (end_sink (pstream f) err) (pconn f))
| event_opened peer who :
    sink_end (pstream f) ≠ None → opens (pconn f) (grpcServerForMcp cfg stls) = None →
    unused (cache (pserver f)) who →
    stream_event f (mkPiloted (pserver f)
      (open_stream (CollectionOptionsFromSlice typeURLs) peer who (sink (pstream f))) (pconn f)).

Inductive pilot_step (ok : repositories → write → Prop) (f : piloted) : piloted → Prop :=
| pilot_server a s' out :
    sys_step ok (pserver f) a (Ret (s', out)) → not_sources f a →
    pilot_step ok f (mkPiloted s'
      (with_source (pstream f) (deliver (source (pstream f)) out)) (pconn f))
| pilot_event f' : stream_event f f' → pilot_step ok f f'
| pilot_Close :
    pilot_step ok f (mkPiloted (pserver f)
      (end_sink (pstream f) (Some (StatusError Canceled "context canceled"))) (Close (pconn f)).1).

(** What can become of a client and its server in a number of steps, and of the stream alone. *)
Inductive pilot_reached (ok : repositories → write → Prop) (f : piloted) : nat → piloted → Prop :=
| pilot_start : pilot_reached ok f 0 f
| pilot_next n f1 f2 : pilot_reached ok f n f1 → pilot_step ok f1 f2 → pilot_reached ok f (S n) f2.

Definition quiet_pilot_tick (policies : gslice Policy) (f f1 : piloted) : Prop :=
  ∃ out, sys_step ok_write (pserver f) (ATick [] (inr policies)) (Ret (pserver f1, out)) ∧
    pstream f1 = with_source (pstream f) (deliver (source (pstream f)) out) ∧ pconn f1 = pconn f.

(** ** Specification *)
(** A snapshot that a tick of a history of [n] steps published: the states before and
    after the tick, and what led to and from them. *)
Definition published_in (f0 : piloted) (n : nat) (f : piloted) (shot : InMemory Resource) : Prop :=
  ∃ m f1 during policies f2, m < n ∧ pilot_reached ok_write f0 m f1 ∧
    publishes (pserver f1) during policies (pserver f2) shot ∧ pilot_step ok_write f1 f2 ∧
    (1 ≤ ver (loop (pserver f2)) ≤ Z.of_nat n)%Z ∧ pilot_reached ok_write f2 (n - S m) f.

Definition pilot_at_rest (f : piloted) : Prop :=
  alive (pstream f) ∧ ∀ m, move_pilot IndexFunction (cache (pserver f)) (pstream f) m = None.

(** However the stream moves on its own, neither end returns. *)
Definition stays_up (f : piloted) : Prop :=
  ∀ ms c ps, moves_pilot IndexFunction (cache (pserver f)) (pstream f) ms = Some (c, ps) → alive ps.

(** Whatever a new stream sends of the snapshot fits. *)
Definition stream_bound : nat := 6 * length client_typeURLs.
Definition served_fits (f : piloted) : Prop :=
  ∀ shot, snapshots (cache (pserver f)) !! node = Some shot → snapshot_fits client_typeURLs stream_bound shot.

(** A server and its client whose stream brings [Q] about, whatever becomes of it: the
    client gets to a stream that is up as long as its connection opens any, and that stream
    stays up if what is served fits; a stream that stays up comes to rest; and at rest [Q]
    holds of what the client has. *)
Definition brings_about (f : piloted) (Q : MockMCPUpdater → Prop) : Prop :=
  (opens (pconn f) (grpcServerForMcp cfg stls) = None →
     ∃ f1, rtc stream_event f f1 ∧ alive (pstream f1) ∧ (served_fits f → stays_up f1)) ∧
  (∀ f1, rtc stream_event f f1 → stays_up f1 → ∃ f2, rtc stream_event f1 f2 ∧ pilot_at_rest f2) ∧
  ∀ f1, rtc stream_event f f1 → pilot_at_rest f1 → Q (updater (sink (pstream f1))).

Definition asks : gset string :=
  dom (sinkState (NewSink (CollectionOptionsFromSlice client_typeURLs) (mkUpdater ∅))).

(** Whatever the stream went through, some link has the client's sink, keeps to the
    invariant of [EndToEnd], and is the stream's while that is up; and what the client can
    still read carries published snapshots. *)
Record pilot_inv (f : piloted) (pub : list (string * InMemory Resource)) : Prop := mkPilotInv {
  pilot_link : ∃ l, deployment_inv (mkDeployment (pserver f) l) pub ∧
    Delivery.client l = sink (pstream f) ∧ (alive (pstream f) → represents (pstream f) l);
  pilot_asks : dom (sinkState (sink (pstream f))) = asks;
  pilot_late : sink_end (pstream f) = None →
    Forall (λ p, ∃ m, send_resources m = inr p ∧ carries_published IndexFunction pub m) (down (pstream f));
}.
End pilot.
Arguments piloted {_} _ _.

(** ** Lemmas *)
Section lemmas.
Context `{GrowSlice} `{MapOrder} `{Marshal} `{!Unmarshal} `{!McpCodec} `{UnicodeLower} `{FloatToInt}.
Context `{GoSyntax} `{X509} {K P : Type} `{!X509Verify K P} `{Compressors} `{GoQuote} `{Network}.
Context (cfg : Config) (stls : TLSConfig K P).
Implicit Types (f : piloted K P).

(** Dialling makes the client of the tests. *)
Lemma dialled_client {S} (s : Grpc.server K P S) tls addr (client : PilotClient K P) :
  NewPilotClient s tls addr = Some (inr client) → NewMockPilotMCPClient None = inr (pilot client).
Proof. rewrite NewPilotClient_spec. destruct (resolve addr); [done|]. case_match; [by intros [= <-]|done]. Qed.

(** A fresh link for a sink that has been through something. *)
Lemma fresh_link s l pub (snk : Sink MockMCPUpdater) who peer :
  deployment_inv (mkDeployment s l) pub → sink_ok IndexFunction pub (dom (sinkState snk)) snk →
  dom (sinkState snk) = asks → unused (cache s) who →
  deployment_inv (mkDeployment s (connect (CollectionOptionsFromSlice typeURLs) peer who snk)) pub.
Proof.
  intros [Hs Hcl Hw Hn Hv] Hok Hd Hun. split; [exact Hs|exact Hcl| |exact Hn|exact Hv].
  refine (relink_inv IndexFunction _ snk typeURLs peer who Hw Hun Hok _).
  intros k Hk%elem_of_dom. rewrite Hd in Hk. by apply client_typeURLs_served, elem_of_client_asks.
Qed.

(** A link that takes no part in a step, for a stream that is not up. *)
Lemma idle_link s l pub (used : list nat) :
  deployment_inv (mkDeployment s l) pub → dom (sinkState (Delivery.client l)) = asks →
  ∃ l1, deployment_inv (mkDeployment s l1) pub ∧ Delivery.client l1 = Delivery.client l ∧
    unused (cache s) (id (con l1)) ∧ id (con l1) ∉ used.
Proof.
  intros Hi Hd. destruct (fresh_unused (cache s) used) as (who & Hun & Hu).
  exists (connect (CollectionOptionsFromSlice typeURLs) "" who (Delivery.client l)). split; [|done].
  apply (fresh_link s l); [done| |done|done]. exact (inv_sink_ok IndexFunction _ (dep_world _ _ Hi)).
Qed.

Lemma with_cache_self (s : system) : with_cache s (cache s) = s.
Proof. by destruct s. Qed.

(** A new or closed stream. *)
Lemma ended_inv s l pub ps conn :
  deployment_inv (mkDeployment s l) pub → Delivery.client l = sink ps → dom (sinkState (sink ps)) = asks →
  ¬ alive ps →
  (sink_end ps = None →
   Forall (λ p, ∃ m, send_resources m = inr p ∧ carries_published IndexFunction pub m) (down ps)) →
  pilot_inv (mkPiloted s ps conn : piloted K P) pub.
Proof. intros Hi Hc Hd Ha Hl. split; [|done|done]. by exists l. Qed.

Lemma pilot_deploy_inv (client : PilotClient K P) :
  PolicyServerDisabled cfg = false → NewMockPilotMCPClient None = inr (pilot client) →
  pilot_inv (pilot_deploy cfg client) [].
Proof.
  intros Hc Hcl. pose proof (deploy_inv cfg "" 0 (pilot client) Hc Hcl) as Hi.
  eapply ended_inv; [exact Hi|done| |by intros [? _]|done].
  simpl. by injection Hcl as <-.
Qed.

(** ** Lemmas: steps of the server *)
Lemma pilot_server_inv f pub a s' out :
  (Z.of_nat (length pub) + 1 < 2 ^ 63)%Z → pilot_inv f pub →
  sys_step ok_write (pserver f) a (Ret (s', out)) → not_sources f a →
  ∃ pub', length pub' ≤ length pub + 1 ∧
    pilot_inv (mkPiloted s' (with_source (pstream f) (deliver (source (pstream f)) out)) (pconn f)) pub' ∧
    ∀ x, x ∈ pub' → x ∈ pub ∨ ∃ during policies, publishes (pserver f) during policies s' x.2 ∧
      ver (loop s') = Z.of_nat (length pub + 1).
Proof.
  intros Hlen [(l & Hi & Hc & Hr) Hd Hl] Hs Hno. destruct (decide (alive (pstream f))) as [Ha|Ha].
  - destruct (Hr Ha) as [Hcon Hu Hdn Hsk Hun He].
    destruct (server_step_inv (mkDeployment (pserver f) l) pub a s' out Hlen Hi Hs) as (pub' & (Hn & Hsub & Hnew) & Hi').
    { destruct a; simpl in *; rewrite <-?Hcon; try done. by apply Hno, Ha. }
    simpl in Hi'. exists pub'. split; [done|].
    split; [|destruct a; [subst pub'; by left..|]; intros x Hx; destruct (Hnew x Hx); eauto].
    split; [|done|].
    + eexists. split; [exact Hi'|]. split; [done|]. intros _. split; simpl; try done. by rewrite Hcon.
    + intros Hse. eapply Forall_impl; [exact (Hl Hse)|]. intros p (m & Hm & shot & Hp & Hcar).
      exists m. split; [done|]. exists shot. split; [by apply Hsub|done].
  - set (used := match a with AWatch _ who _ => [who] | _ => [] end).
    destruct (idle_link (pserver f) l pub used Hi) as (l1 & Hi1 & Hc1 & Hun1 & Hus1); [by rewrite Hc|].
    destruct (server_step_inv (mkDeployment (pserver f) l1) pub a s' out Hlen Hi1 Hs) as (pub' & (Hn & Hsub & Hnew) & Hi').
    { destruct a; simpl in *; try done; [set_solver|]. intros rw Hrw. by eapply Hun1. }
    exists pub'. split; [done|].
    split; [|destruct a; [subst pub'; by left..|]; intros x Hx; destruct (Hnew x Hx); eauto].
    eapply ended_inv; [exact Hi'| |done|done|].
    + simpl. by rewrite Hc1.
    + intros Hse. eapply Forall_impl; [exact (Hl Hse)|]. intros p (m & Hm & shot & Hp & Hcar).
      exists m. split; [done|]. exists shot. split; [by apply Hsub|done].
Qed.

(** ** Lemmas: moves of the stream *)
(** What a move of the source can do to the cache: cancel a watch, and open one. *)
Lemma serve_cache c ps c1 ps1 :
  serve IndexFunction c ps = Some (c1, ps1) →
  c1 = c ∨ ∃ c2 r p, (c2 = c ∨ ∃ g i, c2 = cancel c g i) ∧
    c1 = (Watch IndexFunction c2 r (id (source ps)) p).1.1.
Proof.
  unfold serve. destruct (up ps) as [|payload rest]; [done|]. destruct (recv_request payload) as [err|req].
  { simpl. intros [= <- <-]. by left. }
  cbn [ProcessStream]. unfold processClientRequest. destruct (isTriggerResponse req).
  { simpl. intros [= <- <-]. by left. }
  destruct (conWatches (source ps) !! ReqCollection req) as [wa|]; [|simpl; intros [= <- <-]; by left].
  case_decide; [|simpl; intros [= <- <-]; by left].
  destruct (settle wa req) as [wa1 v]. set (c2 := match cancelWatch wa1 with Some i => _ | None => c end).
  pose proof (eq_refl (Watch IndexFunction c2 (mkRequest (ReqCollection req) v (ReqIncremental req))
    (id (source ps)) (peerAddr (source ps)))) as Ew.
  destruct (Watch IndexFunction c2 _ _ _) as [[c3 out] i] in Ew at 1 |- *. simpl. intros [= <- <-]. right.
  exists c2, (mkRequest (ReqCollection req) v (ReqIncremental req)), (peerAddr (source ps)).
  rewrite <-Ew. split; [|done]. subst c2. destruct (cancelWatch wa1); [right; by eauto|by left].
Qed.

(** Calls of a source that is no longer the link's. *)
Lemma foreign_calls s l pub c c2 r who p :
  (Z.of_nat (length pub) + 1 < 2 ^ 63)%Z →
  deployment_inv (mkDeployment s l) pub → unused (cache s) (id (con l)) → id (con l) ≠ who →
  (c2 = cache s ∨ ∃ g i, c2 = cancel (cache s) g i) → c = (Watch IndexFunction c2 r who p).1.1 →
  ∃ l1, deployment_inv (mkDeployment (with_cache s c) l1) pub ∧ Delivery.client l1 = Delivery.client l.
Proof.
  intros Hlen Hi Hun Hne Hc2 ->.
  assert (∃ l1, deployment_inv (mkDeployment (with_cache s c2) l1) pub ∧ Delivery.client l1 = Delivery.client l ∧
            id (con l1) = id (con l)) as (l1 & Hi1 & Hc1 & Hid1).
  { destruct Hc2 as [->|(g & i & ->)]; [exists l; by rewrite with_cache_self|].
    destruct (server_step_inv (mkDeployment s l) pub (ACancel g i) _ [] Hlen Hi (step_cancel ok_write s g i))
      as (pub1 & (_ & _ & ->) & Hi1); [intros rw Hrw; by eapply Hun|].
    eexists. split; [exact Hi1|]. done. }
  destruct (Watch IndexFunction c2 r who p) as [[c3 out] j] eqn:Ew.
  destruct (server_step_inv (mkDeployment (with_cache s c2) l1) pub (AWatch r who p) _ out Hlen Hi1
    (step_watch ok_write (with_cache s c2) r who p c3 out j Ew)) as (pub1 & (_ & _ & ->) & Hi2).
  { simpl. by rewrite Hid1. }
  eexists. split; [exact Hi2|]. simpl. done.
Qed.

(** A response that comes late. *)
Lemma late_response s l pub m :
  deployment_inv (mkDeployment s l) pub → dom (sinkState (Delivery.client l)) = asks →
  carries_published IndexFunction pub m →
  ∃ l1, deployment_inv (mkDeployment s l1) pub ∧
    Delivery.client l1 = (handleResponse (Delivery.client l) m).1 ∧
    dom (sinkState (Delivery.client l1)) = asks.
Proof.
  intros Hi Hd Hm. pose proof (inv_sink_ok IndexFunction _ (dep_world _ _ Hi)) as Hok. simpl in Hok. rewrite Hd in Hok.
  pose proof (handle_sink_ok IndexFunction _ _ _ m Hok Hm) as Hok1. pose proof Hok1 as [Hd1 _].
  destruct (fresh_unused (cache s) []) as (who & Hun & _).
  exists (connect (CollectionOptionsFromSlice typeURLs) "" who (handleResponse (Delivery.client l) m).1).
  split; [|done]. apply (fresh_link s l); [done|by rewrite Hd1|done|done].
Qed.

Lemma represents_late s l pub ps :
  deployment_inv (mkDeployment s l) pub → represents ps l →
  Forall (λ p, ∃ m, send_resources m = inr p ∧ carries_published IndexFunction pub m) (down ps).
Proof.
  intros Hi [_ _ Hd _ _ _].
  assert (∀ m, m ∈ s2c l → carries_published IndexFunction pub m) as Hs
    by (intros m; exact (sent_published IndexFunction _ m (dep_world _ _ Hi))).
  induction Hd as [|p m ps' ms Hp _ IH]; constructor; [|apply IH; intros m' ?; apply Hs; by right].
  exists m. split; [done|]. apply Hs. by left.
Qed.

Lemma pilot_move_up f pub m c ps :
  pilot_inv f pub → alive (pstream f) →
  move_pilot IndexFunction (cache (pserver f)) (pstream f) m = Some (c, ps) →
  snapshots c = snapshots (cache (pserver f)) ∧
  pilot_inv (mkPiloted (with_cache (pserver f) c) ps (pconn f)) pub.
Proof.
  intros [(l & Hi & Hc & Hr) Hd Hl] Ha Hm. pose proof (Hr Ha) as Hrep.
  pose proof (move_represents IndexFunction (cache (pserver f)) (pstream f) l m Hrep Ha) as Hl1.
  rewrite Hm in Hl1. destruct Hl1 as (c2 & l1 & Hml & Hc1 & Hsk & Hup & _).
  destruct (stream_move_inv (mkDeployment (pserver f) l) pub m c2 l1 Hi Hml) as (Hi1 & _ & Hsn & Hdom).
  simpl in Hi1, Hsn, Hdom. split; [by destruct Hc1 as [->| ->]|].
  assert (∃ l2, deployment_inv (mkDeployment (with_cache (pserver f) c) l2) pub ∧
    Delivery.client l2 = sink ps ∧ dom (sinkState (Delivery.client l2)) = asks ∧ (alive ps → represents ps l2))
    as (l2 & Hi2 & Hc2 & Hd2 & Hr2).
  { destruct (decide (alive ps)) as [Ha1|Ha1].
    - destruct (Hup Ha1) as [-> Hr1]. exists l1. split; [done|]. split; [by destruct Hr1|]. split; [|done].
      by rewrite Hdom, Hc.
    - destruct Hsk as [[Es ->]|[Es ->]].
      + exists l. rewrite with_cache_self. split; [done|]. split; [done|]. split; [by rewrite Hc|done].
      + exists l1. split; [done|]. split; [done|]. split; [by rewrite Hdom, Hc|done]. }
  split; simpl.
  - by exists l2.
  - by rewrite <-Hc2.
  - intros Hse. destruct (move_down _ _ _ _ _ _ Hm Ha Hse) as [Ha1| ->]; [|apply Hl, Ha].
    by eapply represents_late; [exact Hi2|apply Hr2].
Qed.

Lemma pilot_move_ended f pub m c ps :
  (Z.of_nat (length pub) + 1 < 2 ^ 63)%Z → pilot_inv f pub → ¬ alive (pstream f) →
  move_pilot IndexFunction (cache (pserver f)) (pstream f) m = Some (c, ps) →
  snapshots c = snapshots (cache (pserver f)) ∧
  pilot_inv (mkPiloted (with_cache (pserver f) c) ps (pconn f)) pub.
Proof.
  intros Hlen [(l & Hi & Hc & _) Hd Hl] Ha Hm. rewrite <-Hc in Hd. unfold alive in Ha.
  destruct m; simpl in Hm.
  - destruct (source_end (pstream f)) eqn:Ese; [done|].
    destruct (flush_keeps _ _ _ _ _ Hm) as (-> & Es & Ek & _). rewrite with_cache_self. split; [done|].
    apply (ended_inv (pserver f) l); [done|by rewrite Es|by rewrite Es, <-Hc|unfold alive; rewrite Ek; tauto|].
    rewrite Ek. intros Ek'. tauto.
  - destruct (source_end (pstream f)) eqn:Ese; [done|].
    destruct (serve_keeps _ _ _ _ _ Hm) as (Es & Ek & _).
    destruct (idle_link (pserver f) l pub [id (source (pstream f))] Hi Hd) as (l1 & Hi1 & Hc1 & Hun & Hne).
    assert (snapshots c = snapshots (cache (pserver f)) ∧
      ∃ l2, deployment_inv (mkDeployment (with_cache (pserver f) c) l2) pub ∧
        Delivery.client l2 = Delivery.client l) as (Hsn & l2 & Hi2 & Hc2).
    { destruct (serve_cache _ _ _ _ Hm) as [->|(c2 & r & p & Hc2 & ->)].
      - split; [done|]. exists l. by rewrite with_cache_self.
      - split.
        + rewrite snapshots_Watch.
          destruct Hc2 as [->|(g & i & ->)]; [done|]. by rewrite snapshots_cancel.
        + rewrite <-Hc1. eapply foreign_calls; [exact Hlen|exact Hi1|exact Hun|by apply not_elem_of_cons in Hne as [Hne _]|exact Hc2|done]. }
    split; [done|].
    apply (ended_inv _ l2); [done|by rewrite Hc2, Hc, Es|by rewrite Es, <-Hc|unfold alive; rewrite Ek; tauto|].
    rewrite Ek. intros Ek'. tauto.
  - destruct (sink_end (pstream f)) eqn:Eke; [done|].
    destruct (ask (pstream f)) as [ps1|] eqn:Eask; simpl in Hm; [|done]. injection Hm as <- <-. split; [done|].
    rewrite with_cache_self. destruct (ask_keeps _ _ Eask) as [_ Ese]. destruct (ask_reads _ _ Eask) as [Hread [pre Hsuf]].
    specialize (Hl eq_refl).
    assert (∃ l2, deployment_inv (mkDeployment (pserver f) l2) pub ∧ Delivery.client l2 = sink ps1 ∧
      dom (sinkState (Delivery.client l2)) = asks) as (l2 & Hi2 & Hc2 & Hd2).
    { destruct Hread as [E|(p & rest & m & Edn & Er & E)]; rewrite E, <-Hc; [by exists l|].
      rewrite Edn in Hl. apply Forall_cons in Hl as [(m' & Hs & Hcar) _].
      rewrite (resources_received _ _ _ Hs Er). exact (late_response _ _ _ _ Hi Hd Hcar). }
    apply (ended_inv _ l2); [done|done|by rewrite <-Hc2|unfold alive; rewrite Ese; tauto|].
    intros _. rewrite Hsuf in Hl. by apply Forall_app in Hl as [_ ?].
Qed.

Lemma stream_event_inv f pub f' :
  (Z.of_nat (length pub) + 1 < 2 ^ 63)%Z → pilot_inv f pub → stream_event cfg stls f f' →
  pilot_inv f' pub ∧ snapshots (cache (pserver f')) = snapshots (cache (pserver f)).
Proof.
  intros Hlen Hinv He. pose proof Hinv as [(l & Hi & Hc & _) Hd Hl].
  destruct He as [m c ps Hm|err Hse|err Hke|peer who Hke Ho Hun].
  - destruct (decide (alive (pstream f))) as [Ha|Ha].
    + by destruct (pilot_move_up f pub m c ps Hinv Ha Hm).
    + by destruct (pilot_move_ended f pub m c ps Hlen Hinv Ha Hm).
  - split; [|done]. apply (ended_inv _ l); [done|done|done|by intros [? _]|done].
  - split; [|done]. apply (ended_inv _ l); [done|done|done|by intros [_ ?]|done].
  - split; [|done]. split; [|done|by constructor].
    exists (connect (CollectionOptionsFromSlice typeURLs) peer who (sink (pstream f))). split; [|split; [done|by split]].
    apply (fresh_link _ l); [done| |done|done].
    rewrite <-Hc. exact (inv_sink_ok IndexFunction _ (dep_world _ _ Hi)).
Qed.

(** Nothing the client did or suffered costs it the invariant. *)
Lemma pilot_step_inv f pub f' :
  (Z.of_nat (length pub) + 1 < 2 ^ 63)%Z → pilot_inv f pub → pilot_step cfg stls ok_write f f' →
  ∃ pub', length pub' ≤ length pub + 1 ∧ pilot_inv f' pub' ∧
    ∀ x, x ∈ pub' → x ∈ pub ∨ ∃ during policies, publishes (pserver f) during policies (pserver f') x.2 ∧
      ver (loop (pserver f')) = Z.of_nat (length pub + 1).
Proof.
  intros Hlen Hinv Hs. destruct Hs as [a s' out Hs Hno|f' He|].
  - by eapply pilot_server_inv.
  - destruct (stream_event_inv f pub f' Hlen Hinv He) as [Hi _]. exists pub. split; [lia|]. split; [done|by left].
  - pose proof Hinv as [(l & Hi & Hc & _) Hd Hl]. exists pub. split; [lia|]. split; [|by left].
    apply (ended_inv _ l); [done|done|done|by intros [_ ?]|done].
Qed.

(** A snapshot that was published stays so as the history goes on. *)
Lemma published_in_later f0 n f f' shot :
  published_in cfg stls f0 n f shot → pilot_step cfg stls ok_write f f' → published_in cfg stls f0 (S n) f' shot.
Proof.
  intros (m & f1 & during & policies & f2 & Hm & Hr1 & Hp & Hs & Hv & Hr2) Hstep.
  exists m, f1, during, policies, f2. split; [lia|]. split; [done|]. split; [done|]. split; [done|]. split; [lia|].
  replace (S n - S m) with (S (n - S m)) by lia. by eapply pilot_next.
Qed.

Lemma pilot_reached_inv (client : PilotClient K P) n f :
  PolicyServerDisabled cfg = false → NewMockPilotMCPClient None = inr (pilot client) →
  (Z.of_nat n < 2 ^ 63)%Z → pilot_reached cfg stls ok_write (pilot_deploy cfg client) n f →
  ∃ pub, length pub ≤ n ∧ pilot_inv f pub ∧
    ∀ x, x ∈ pub → published_in cfg stls (pilot_deploy cfg client) n f x.2.
Proof.
  intros Hc Hcl Hn Hr. induction Hr as [|n f1 f2 Hr IH Hstep].
  { exists []. split; [done|]. split; [by apply pilot_deploy_inv|]. intros x Hx. by apply not_elem_of_nil in Hx. }
  destruct IH as (pub & Hl & Hinv & Hpub); [lia|].
  destruct (pilot_step_inv f1 pub f2 ltac:(lia) Hinv Hstep) as (pub' & Hl' & Hinv' & Hnew).
  exists pub'. split; [lia|]. split; [done|]. intros x Hx.
  destruct (Hnew x Hx) as [Hold|(during & policies & Hp & Hv)]; [by eapply published_in_later; [apply Hpub|]|].
  exists n, f1, during, policies, f2. split; [lia|]. split; [done|]. split; [done|]. split; [done|].
  split; [rewrite Hv; lia|]. replace (S n - S n) with 0 by lia. constructor.
Qed.

Lemma stream_events_inv f pub f' :
  (Z.of_nat (length pub) + 1 < 2 ^ 63)%Z → pilot_inv f pub → rtc (stream_event cfg stls) f f' →
  pilot_inv f' pub ∧ snapshots (cache (pserver f')) = snapshots (cache (pserver f)).
Proof.
  intros Hlen Hinv Hr. induction Hr as [f|f f1 f' He _ IH]; [done|].
  destruct (stream_event_inv f pub f1 Hlen Hinv He) as [Hi Hs].
  destruct (IH Hi) as [Hi' Hs']. split; [done|]. by rewrite Hs'.
Qed.

Lemma pilot_reached_writes f0 n f xs r :
  pilot_reached cfg stls ok_write f0 n f → writes ok_write (repos (pserver f)) xs r →
  pilot_reached cfg stls ok_write f0 (length xs + n)
    (mkPiloted (with_repos (pserver f) r) (pstream f) (pconn f)).
Proof.
  intros Hf Hw. remember (repos (pserver f)) as r0 eqn:E. revert n f E Hf.
  induction Hw as [r|r x xs r1 r2 Hx Ha _ IH]; intros n f -> Hf; simpl; [by destruct f as [[] ? ?]|].
  replace (S (length xs + n)) with (length xs + S n) by lia.
  refine (IH (S n) (mkPiloted (with_repos (pserver f) r1) (pstream f) (pconn f)) eq_refl _).
  eapply pilot_next; [exact Hf|].
  pose proof (pilot_server cfg stls ok_write f (AWrite x) (with_repos (pserver f) r1) []) as Hs.
  simpl in Hs. replace (with_source (pstream f) (source (pstream f))) with (pstream f) in Hs
    by by destruct (pstream f).
  apply Hs; [|exact I]. by apply (step_write _ (pserver f) x (Ret r1)).
Qed.

(** ** Lemmas: the stream at rest *)
Lemma rest_at_rest f l :
  pilot_at_rest f → represents (pstream f) l → stream_at_rest (mkDeployment (pserver f) l).
Proof.
  intros [Ha Hrest] Hr m.
  pose proof (move_represents IndexFunction (cache (pserver f)) (pstream f) l m Hr Ha) as Hm.
  by rewrite Hrest in Hm.
Qed.

Lemma pilot_receives `{!RoundTrip} f pub shot :
  pilot_inv f pub → pilot_at_rest f → snapshots (cache (pserver f)) !! node = Some shot →
  receives (updater (sink (pstream f))) shot VirtualServiceTypeURL.
Proof.
  intros [(l & Hi & Hc & Hr) Hd _] Hrest Hs. pose proof (Hr (proj1 Hrest)) as Hrep.
  rewrite <-Hc. apply (rest_receives (mkDeployment (pserver f) l) pub); [exact Hi|by apply rest_at_rest|by simpl; rewrite Hc|done].
Qed.

(** A stream that stays up does what the link does. *)
Lemma moves_follow (s : system) ps l ms (f' : deployment) :
  represents ps l →
  (∀ ms c ps1, moves_pilot IndexFunction (cache s) ps ms = Some (c, ps1) → alive ps1) →
  stream_moves (mkDeployment s l) ms = Some f' →
  ∃ c ps1, moves_pilot IndexFunction (cache s) ps ms = Some (c, ps1) ∧ alive ps1 ∧
    server f' = with_cache s c ∧ represents ps1 (stream f').
Proof.
  revert s ps l; induction ms as [|m ms IH]; intros s ps l Hr Hup; simpl.
  { intros [= <-]. exists (cache s), ps. split; [done|]. split; [by eapply (Hup [])|]. by rewrite with_cache_self. }
  pose proof (Hup [] _ _ eq_refl) as Ha.
  pose proof (move_represents IndexFunction (cache s) ps l m Hr Ha) as Hm.
  destruct (move_pilot IndexFunction (cache s) ps m) as [[c1 ps1]|] eqn:Em; [|by rewrite Hm].
  destruct Hm as (c2 & l1 & Hl & _ & _ & Hal & _). rewrite Hl. simpl. intros Hms.
  assert (∀ ms' c' ps', moves_pilot IndexFunction c1 ps1 ms' = Some (c', ps') → alive ps') as Hup1.
  { intros ms' c' ps' Hm'. apply (Hup (m :: ms') c' ps'). simpl. by rewrite Em. }
  destruct (Hal (Hup1 [] _ _ eq_refl)) as [-> Hr1].
  destruct (IH (with_cache s c2) ps1 l1 Hr1 Hup1 Hms) as (c & ps2 & Hp & Hrest). exists c, ps2. split; [done|exact Hrest].
Qed.

Lemma moves_events f ms c ps :
  moves_pilot IndexFunction (cache (pserver f)) (pstream f) ms = Some (c, ps) →
  rtc (stream_event cfg stls) f (mkPiloted (with_cache (pserver f) c) ps (pconn f)).
Proof.
  revert f; induction ms as [|m ms IH]; intros f; simpl.
  { intros [= <- <-]. rewrite with_cache_self. by destruct f. }
  destruct (move_pilot IndexFunction (cache (pserver f)) (pstream f) m) as [[c1 ps1]|] eqn:Em; simpl; [|done].
  intros Hms. eapply rtc_l; [by eapply event_move|].
  exact (IH (mkPiloted (with_cache (pserver f) c1) ps1 (pconn f)) Hms).
Qed.

Lemma comes_to_rest f pub :
  pilot_inv f pub → stays_up f → ∃ f', rtc (stream_event cfg stls) f f' ∧ pilot_at_rest f'.
Proof.
  intros [(l & Hi & _ & Hr) _ _] Hup. pose proof (Hr (Hup [] _ _ eq_refl)) as Hrep.
  destruct (stream_comes_to_rest (mkDeployment (pserver f) l) pub (dep_world _ _ Hi)) as (ms & f1 & Hms & Hrest).
  destruct (moves_follow (pserver f) (pstream f) l ms f1 Hrep Hup Hms) as (c & ps & Hp & Ha & Es & Hr1).
  exists (mkPiloted (with_cache (pserver f) c) ps (pconn f)). split; [by eapply moves_events|].
  split; [done|]. intros m. pose proof (move_represents IndexFunction c ps (stream f1) m Hr1 Ha) as Hm. simpl.
  destruct (move_pilot IndexFunction c ps m) as [[c1 ps1]|]; [|done].
  destruct Hm as (c2 & l2 & Hl & _). specialize (Hrest m). rewrite Es in Hrest. simpl in Hrest. congruence.
Qed.

Lemma moves_reached f0 n f ms c ps :
  pilot_reached cfg stls ok_write f0 n f →
  moves_pilot IndexFunction (cache (pserver f)) (pstream f) ms = Some (c, ps) →
  pilot_reached cfg stls ok_write f0 (length ms + n) (mkPiloted (with_cache (pserver f) c) ps (pconn f)).
Proof.
  revert n f; induction ms as [|m ms IH]; intros n f Hf; simpl.
  { intros [= <- <-]. rewrite with_cache_self. by destruct f. }
  destruct (move_pilot IndexFunction (cache (pserver f)) (pstream f) m) as [[c1 ps1]|] eqn:Em; simpl; [|done].
  intros Hms. replace (S (length ms + n)) with (length ms + S n) by lia.
  refine (IH (S n) (mkPiloted (with_cache (pserver f) c1) ps1 (pconn f)) _ Hms).
  eapply pilot_next; [exact Hf|]. by eapply pilot_event, event_move.
Qed.

Lemma pilot_published f pub g s :
  pilot_inv f pub → (g, s) ∈ pub →
  ∃ i inp, (1 ≤ i ≤ Z.of_nat (length pub))%Z ∧ snapshot_of (Itoa i) inp = Ret s.
Proof.
  intros [(l & [_ _ _ Hn _] & _) _ _] (j & Hj)%list_elem_of_lookup. pose proof (lookup_lt_Some _ _ _ Hj) as Hlt.
  destruct (Hn _ _ _ Hj) as (_ & inp & E). exists (Z.of_nat j + 1)%Z, inp. split; [lia|done].
Qed.

(** A new stream for a snapshot that fits. *)
Lemma fresh_stays_up `{!RoundTrip} f pub shot peer who :
  pilot_inv f pub → snapshots (cache (pserver f)) !! node = Some shot →
  snapshot_fits client_typeURLs stream_bound shot → unused (cache (pserver f)) who →
  stays_up (mkPiloted (pserver f)
    (open_stream (CollectionOptionsFromSlice typeURLs) peer who (sink (pstream f))) (pconn f)).
Proof.
  intros Hinv Hshot Hfit Hun ms c1 ps1. set (c := cache (pserver f)) in *. set (snk := sink (pstream f)).
  pose proof Hinv as [(l & Hi & Hc & _) Hd _]. pose proof (dep_world _ _ Hi) as Hw. pose proof Hw as [Hwf _].
  destruct (inv_sink_ok IndexFunction _ Hw) as (_ & Hfull & _). simpl in Hfull. rewrite Hc in Hfull.
  assert (∀ g s, snapshots c !! g = Some s → s = shot) as Honly.
  { intros g s Hs. pose proof (wf_pub IndexFunction _ Hwf g s Hs) as Hin. apply list_elem_of_lookup in Hin as (j & Hj).
    destruct (dep_numbered _ _ Hi _ _ _ Hj) as [-> _]. congruence. }
  assert (dom (sinkState snk) = asks) as Hdom by done.
  set (pub0 := map_to_list (snapshots c)).
  set (w1 := Delivery.mkWorld c (connect (CollectionOptionsFromSlice typeURLs) peer who
    (NewSink (CollectionOptionsFromSlice client_typeURLs) (mkUpdater ∅))) pub0).
  assert (Delivery.inv IndexFunction w1) as Hw1.
  { apply start_inv. split; [|split; [exact (wf_stale IndexFunction _ Hwf)|split; [|done]]].
    - exists typeURLs, peer, who, client_typeURLs. split; [apply client_typeURLs_served|done].
    - intros g i rw Hrw. split; [exact (wf_ids IndexFunction _ Hwf g i rw Hrw)|exact (Hun g i rw Hrw)]. }
  assert (∀ k, is_Some (sinkState snk !! k) → k ∈ client_typeURLs) as Hasks.
  { intros k Hk%elem_of_dom. apply elem_of_client_asks. by rewrite Hdom in Hk. }
  pose proof (relink_inv IndexFunction w1 (mkSink (sinkState snk) (mkUpdater ∅)) typeURLs peer who Hw1 Hun) as Hw2.
  set (w0 := Delivery.mkWorld c (connect (CollectionOptionsFromSlice typeURLs) peer who
    (mkSink (sinkState snk) (mkUpdater ∅))) pub0) in *.
  assert (Delivery.inv IndexFunction w0) as Hw0.
  { apply Hw2; [|intros k Hk; apply client_typeURLs_served, Hasks, Hk].
    split; [done|]. split; [exact Hfull|]. intros k _. by left. }
  eapply (fitting_stays_up IndexFunction client_typeURLs stream_bound shot c _
    (connect (CollectionOptionsFromSlice typeURLs) peer who snk) w0 0);
    [by split|by split|by split|done|exact Hw0|..].
  - intros g s Hs. apply (Honly g). by apply elem_of_map_to_list in Hs.
  - intros k. pose proof (wf_pub IndexFunction _ Hwf node shot Hshot) as Hin.
    destruct (pilot_published f pub _ _ Hinv Hin) as (i & inp & _ & E). exact (snapshot_unpacks _ _ shot k E).
  - intros k. apply Hasks.
  - by apply plain_connect.
  - simpl. pose proof (moves_left_bound IndexFunction _ Hw0) as Hb. simpl in Hb.
    assert (size (sinkState snk) ≤ length client_typeURLs) as Es; [|unfold stream_bound; lia].
    rewrite <-size_dom, Hdom. apply (bool_decide_unpack _). vm_compute. exact I.
  - exact Hfit.
Qed.

(** A client whose connection still opens streams gets to a new one. *)
Lemma gets_stream `{!RoundTrip} f pub :
  pilot_inv f pub → opens (pconn f) (grpcServerForMcp cfg stls) = None →
  ∃ f', rtc (stream_event cfg stls) f f' ∧ alive (pstream f') ∧
    (is_Some (snapshots (cache (pserver f)) !! node) → served_fits f → stays_up f').
Proof.
  intros Hinv Ho. destruct (fresh_unused (cache (pserver f)) []) as (who & Hun & _).
  set (opened := mkPiloted (pserver f)
    (open_stream (CollectionOptionsFromSlice typeURLs) "" who (sink (pstream f))) (pconn f)).
  exists opened. split; [|split; [done|]].
  - destruct (sink_end (pstream f)) as [r|] eqn:He.
    + apply rtc_once, (event_opened _ _ f "" who); [by rewrite He|done|done].
    + eapply rtc_l; [by apply (event_sink_lost _ _ f None)|].
      by apply rtc_once, (event_opened _ _ (mkPiloted (pserver f) (end_sink (pstream f) None) (pconn f)) "" who).
  - intros [shot Hshot] Hfit. eapply fresh_stays_up; [exact Hinv|exact Hshot|by apply Hfit|exact Hun].
Qed.

Lemma asks_client k : k ∈ client_typeURLs → k ∈ asks.
Proof.
  assert (Forall (λ k, k ∈ asks) client_typeURLs) as Hf by (apply (bool_decide_unpack _); vm_compute; exact I).
  intros Hk. by eapply Forall_forall in Hf.
Qed.

Lemma pilot_origin f pub k :
  pilot_inv f pub → k ∈ client_typeURLs → origin IndexFunction pub k (objects (updater (sink (pstream f))) !! k).
Proof.
  intros [(l & Hi & Hc & _) Hd _] Hk. destruct (inv_sink_ok IndexFunction _ (dep_world _ _ Hi)) as (_ & _ & Ho).
  simpl in Ho. rewrite <-Hc. apply Ho. rewrite Hc, Hd. by apply asks_client.
Qed.

(** What the client holds of a collection is of the collection's type. *)
Lemma pilot_reads `{!RoundTrip} {A} (mk : A → proto) assert f pub k :
  (∀ x, assert (mk x) = Some x) →
  (∀ v i shot, snapshot_of v i = Ret shot → ∃ ms, packs mk (elems (Resources shot k)) ms) →
  pilot_inv f pub → bool_decide (k ∈ client_typeURLs) = true →
  ∃ l, bodies_of assert (updater (sink (pstream f))) k = Ret l.
Proof.
  intros Hmk Hp Hinv Hk%bool_decide_eq_true. destruct (pilot_origin f pub k Hinv Hk) as [E|(shot & os & Hin & Hos & E)].
  - exists []. unfold bodies_of, lookup0. by rewrite E.
  - destruct (pilot_published f pub _ _ Hinv Hin) as (i & inp & _ & Es). destruct (Hp _ _ _ Es) as [ms Hms].
    exists ms. eapply received; [exact Hmk| |exact Hms]. intros os' Hos'. rewrite E. congruence.
Qed.

(** ** Lemmas: one quiet tick *)
Lemma quiet_tick_determined ok (s : system) ps o :
  sys_step ok s (ATick [] ps) o → o = tick_system s (env_of [] (repos s)) (repos s) ps.
Proof.
  intros Hs. inversion Hs as [| | |during l r ps' Hsch Ed Eo]; subst.
  by inversion Hsch; subst.
Qed.

Lemma quiet_pilot_tick_is policies f f1 s' out :
  quiet_pilot_tick policies f f1 →
  tick_system (pserver f) (env_of [] (repos (pserver f))) (repos (pserver f)) (inr policies) = Ret (s', out) →
  f1 = mkPiloted s' (with_source (pstream f) (deliver (source (pstream f)) out)) (pconn f).
Proof.
  intros (out1 & Hs & Hps & Hpc) Ht. apply quiet_tick_determined in Hs. rewrite Ht in Hs.
  injection Hs as <- <-. destruct f1. simpl in *. by subst.
Qed.

(** After one quiet tick the stream brings a served route to Pilot. *)
Lemma quiet_tick_reaches_pilot `{!RoundTrip} (client : PilotClient K P) n f policies k rm route a :
  PolicyServerDisabled cfg = false → NewMockPilotMCPClient None = inr (pilot client) →
  (Z.of_nat n + 2 < 2 ^ 63)%Z → pilot_reached cfg stls ok_write (pilot_deploy cfg client) n f →
  RouteMappings.repo (capi_mappings (capi (repos (pserver f)))) !! k = Some rm →
  Routes.Get (capi_routes (capi (repos (pserver f)))) (RouteMappings.RouteGUID rm) = Some route →
  Associations.Get (capi_associations (capi (repos (pserver f)))) (RouteMappings.CAPIProcessGUID rm) = Some a →
  process_backends (world_of (repos (pserver f))) (Routes.Internal route) a ≠ [] →
  distinct_routes (capi_routes (capi (repos (pserver f)))) →
  (∃ f1, quiet_pilot_tick policies f f1) ∧
  ∀ f1, quiet_pilot_tick policies f f1 → brings_about cfg stls f1 (λ u,
    client_routes u route (RouteMappings.CAPIProcessGUID rm)
      (process_backends (world_of (repos (pserver f))) (Routes.Internal route) a)).
Proof.
  intros Hc Hcl Hn Hf Hmap Hroute Hassoc Hbackends Hdist.
  destruct (pilot_reached_inv client n f Hc Hcl ltac:(lia) Hf) as (pub & Hl & Hinv & _).
  pose proof Hinv as [(l & [Hs Hsc _ _ _] & _) _ _]. simpl in Hs, Hsc.
  destruct (quiet_tick_publishes (pserver f) policies k rm route a Hsc Hs)
    as (s' & out & shot & Hstep & Hsh & Hserves); [done..|].
  split.
  { exists (mkPiloted s' (with_source (pstream f) (deliver (source (pstream f)) out)) (pconn f)). by exists out. }
  intros f1 Ht. pose proof (quiet_tick_determined _ _ _ _ Hstep) as E. symmetry in E.
  rewrite (quiet_pilot_tick_is policies f f1 s' out Ht E).
  destruct (pilot_server_inv f pub _ _ out ltac:(lia) Hinv Hstep I) as (pub1 & Hl1 & Hinv1 & _).
  split; [|split; intros f2 Hev; destruct (stream_events_inv _ pub1 f2 ltac:(lia) Hinv1 Hev) as [Hinv2 Hsn]].
  - intros Ho. destruct (gets_stream _ pub1 Hinv1 Ho) as (f2 & Hev & Ha & Hup). exists f2. split; [exact Hev|].
    split; [exact Ha|]. apply Hup. by exists shot.
  - intros Hup. by eapply comes_to_rest.
  - intros Hrest. apply Hserves. eapply pilot_receives; [exact Hinv2|exact Hrest|by rewrite Hsn].
Qed.
End lemmas.

(** ** Properties *)
Section properties.
Context `{GrowSlice} `{MapOrder} `{Marshal} `{!Unmarshal} `{!McpCodec} `{UnicodeLower} `{FloatToInt}.
Context `{GoSyntax} `{X509} {K P : Type} `{!X509Verify K P} `{Compressors} `{GoQuote} `{Network}.
Context (cfg : Config) (stls : TLSConfig K P).

(** C2. Whatever happens to the stream, what Pilot's client holds was published: a client
    that dialled a server with a policy client, after any history of fewer than 2^63 steps
    of the server and of the stream, messages that do not fit, ends that return while the
    other goes on, and reopened streams included, holds of each collection it asks for
    either nothing or all the objects of one snapshot that a tick of this history
    published: made, under the next version, of the routes that this tick collected, the
    policies it was answered and the certificates the server located, and served from
    then on.  So a broken stream never leaves it with a part of a collection, or with one
    that was not collected.  And its five typed getters return, no type assertion
    panics. *)
Theorem pilot_holds_published `{!RoundTrip} (tls : TLSConfig K P) (addr : string)
    (client : PilotClient K P) (n : nat) (f : piloted K P) (Hc : PolicyServerDisabled cfg = false)
    (Hpc : NewPilotClient (grpcServerForMcp cfg stls) tls addr = Some (inr client))
    (Hn : (Z.of_nat n < 2 ^ 63)%Z) (Hf : pilot_reached cfg stls ok_write (pilot_deploy cfg client) n f) :
  let u := updater (sink (pstream f)) in
  (∀ k, k ∈ client_typeURLs →
     objects u !! k = None ∨
     ∃ shot os, published_in cfg stls (pilot_deploy cfg client) n f shot ∧
       unpack_all (elems (Resources shot k)) = inr os ∧ objects u !! k = Some os) ∧
  (∃ l, GetAllSidecars u = Ret l) ∧ (∃ l, GetAllGateways u = Ret l) ∧
  (∃ l, GetAllDestinationRules u = Ret l) ∧ (∃ l, GetAllVirtualServices u = Ret l) ∧
  ∃ l, GetAllServiceEntries u = Ret l.
Proof.
  intros u. destruct (pilot_reached_inv cfg stls client n f Hc (dialled_client _ _ _ _ Hpc) Hn Hf) as (pub & Hl & Hinv & Hpub). split.
  - intros k Hk. destruct (pilot_origin f pub k Hinv Hk) as [E|(shot & os & Hin & Hos & E)]; [by left|right].
    exists shot, os. split; [exact (Hpub _ Hin)|done].
  - split_and!.
    + eapply (pilot_reads PSidecar); [done| |exact Hinv|done]. intros v i s E. apply (published_typed v i s E).
    + eapply (pilot_reads PGateway); [done| |exact Hinv|done]. intros v i s E. apply (published_typed v i s E).
    + eapply (pilot_reads PDestinationRule); [done| |exact Hinv|done]. intros v i s E. apply (published_typed v i s E).
    + eapply (pilot_reads PVirtualService); [done| |exact Hinv|done]. intros v i s E. apply (published_typed v i s E).
    + eapply (pilot_reads PServiceEntry); [done| |exact Hinv|done]. intros v i s E. apply (published_typed v i s E).
Qed.
End properties.

(** ** Witnesses *)
(** Moves until none is possible, or the fuel is spent. *)
Fixpoint drain_pilot `{Marshal} `{!Unmarshal} `{MapOrder} `{!McpCodec} `{Compressors} `{GoQuote}
    (fuel : nat) (c : Cache Resource) (ps : pilot_stream) : list move :=
  match fuel with
  | 0 => []
  | S fuel =>
      match list_find (λ m, is_Some (move_pilot IndexFunction c ps m)) [Flush; Serve; Ask] with
      | Some (_, m) =>
          match move_pilot IndexFunction c ps m with
          | Some (c, ps) => m :: drain_pilot fuel c ps
          | None => []
          end
      | None => []
      end
  end.

Section witness.
#[local] Existing Instances go_grow asc_order transparent transparent_unmarshal ascii_only amd64 w_syntax.
#[local] Existing Instances w_x509 w_verify w_store w_network w_quote w_roundtrip.
#[local] Instance w_any : EqDecision (@any transparent) := proto_eq_dec.

Definition w_pilot : PilotClient string string :=
  match NewPilotClient (grpcServerForMcp w_config w_server_tls) w_client_tls "127.0.0.1:9001" with
  | Some (inr client) => client
  | _ => mkPilot w_client (pilot_conn w_client_tls "")
  end.

(** A tick of the server as it started, for a client that has opened its stream. *)
Definition w_first : system * list (push Resource) :=
  match tick_system w_start (env_of [] (repos w_start)) (repos w_start) (inr Nil) with
  | Ret r => r
  | Panic _ => (w_start, [])
  end.
#[local] Instance w_first_codec : McpCodec :=
  table_codec client_typeURLs [default (mkInMemory ∅ ∅) (snapshots (cache w_first.1) !! node)].

Definition w_opened : piloted string string :=
  mkPiloted w_start (open_stream (CollectionOptionsFromSlice typeURLs) "peer" 1 (sinkClient (pilot w_pilot)))
    (conn w_pilot).
Definition w_told : piloted string string :=
  mkPiloted w_first.1 (with_source (pstream w_opened) (deliver (source (pstream w_opened)) w_first.2)) (conn w_pilot).
Definition w_told_moves : list move := drain_pilot 200 (cache (pserver w_told)) (pstream w_told).
Definition w_moved : Cache Resource * pilot_stream :=
  default (cache (pserver w_told), pstream w_told)
    (moves_pilot IndexFunction (cache (pserver w_told)) (pstream w_told) w_told_moves).
Definition w_before : piloted string string :=
  mkPiloted (with_cache (pserver w_told) w_moved.1) w_moved.2 (pconn w_told).
Definition w_lost : piloted string string :=
  mkPiloted (pserver w_before) (end_source (pstream w_before) (source (pstream w_before)) None) (pconn w_before).

Lemma w_lost_reached :
  pilot_reached w_config w_server_tls ok_write (pilot_deploy w_config w_pilot) (S (length w_told_moves + 2)) w_lost.
Proof.
  apply (pilot_next _ _ _ _ _ w_before);
    [apply (moves_reached _ _ _ _ w_told w_told_moves w_moved.1 w_moved.2)|].
  - eapply pilot_next.
    + eapply pilot_next; [apply pilot_start|]. apply pilot_event, (event_opened _ _ (pilot_deploy w_config w_pilot) "peer" 1).
      * discriminate.
      * vm_compute. reflexivity.
      * intros g i rw. unfold open_watches. simpl. by rewrite lookup_empty.
    + apply (pilot_server _ _ _ w_opened (ATick [] (inr Nil)) w_first.1 w_first.2); [|exact I].
      rewrite <-surjective_pairing.
      assert (tick_system w_start (env_of [] (repos w_start)) (repos w_start) (inr Nil) = Ret w_first) as <-
        by (apply Ret_default; vm_compute; exact I).
      apply step_tick. constructor.
  - rewrite <-surjective_pairing. apply Some_default. vm_compute. reflexivity.
  - apply pilot_event. apply (event_source_lost _ _ w_before). vm_compute. reflexivity.
Qed.

(** The client reads the gateway after the source's end of its stream returned. *)
Lemma pilot_holds_published_witness :
  ¬ alive (pstream w_lost) ∧
  (∃ shot os, published_in w_config w_server_tls (pilot_deploy w_config w_pilot)
       (S (length w_told_moves + 2)) w_lost shot ∧
     unpack_all (elems (Resources shot GatewayTypeURL)) = inr os ∧
     objects (updater (sink (pstream w_lost))) !! GatewayTypeURL = Some os) ∧
  ∃ l, GetAllGateways (updater (sink (pstream w_lost))) = Ret l.
Proof.
  split; [by intros [? _]|].
  destruct (pilot_holds_published w_config w_server_tls w_client_tls "127.0.0.1:9001" w_pilot
    (S (length w_told_moves + 2)) w_lost) as (Hheld & _ & Hg & _).
  - reflexivity.
  - vm_compute. reflexivity.
  - vm_compute. reflexivity.
  - exact w_lost_reached.
  - split; [|exact Hg]. destruct (Hheld GatewayTypeURL) as [E|(shot & os & Hs)].
    + apply (bool_decide_unpack _). vm_compute. exact I.
    + assert (bool_decide (objects (updater (sink (pstream w_lost))) !! GatewayTypeURL = None) = false) as Hne
        by (vm_compute; reflexivity).
      by rewrite bool_decide_true in Hne.
    + by exists shot, os.
Defined.
End witness.
