(* ===== verification/Ports.v ===== *)
(** * The server behind its ports

    The processes of [System] with the two gRPC servers in front of them ([Grpc],
    [Clients]): what arrives at a port is a method's name, an encoding and the bytes of a
    stream, from whatever client, and it changes the server by the writes of [System] and
    by nothing else.  The calls of the clients then compose with the ticks of the loop and
    with the resolver. *)
From Stdlib Require Import Ascii.
From S2P Require Import Prelude GoStrings GoSort GoFloat Routes RouteMappings Associations BackendSets.
From S2P Require Import FixWeights Collector Api Handlers Wire BulkStream Certs Istio GoSlices Sidecars.
From S2P Require Import Gateways DestinationRules ServiceEntries VirtualServices McpCache SnapshotLoop.
From S2P Require Import ServerConfig Tls Grpc Clients System.

(** ** Definitions *)
Section ports.
Context `{GrowSlice} `{MapOrder} `{Marshal} `{UnicodeLower} `{FloatToInt} `{GoSyntax} `{X509}.
Context `{Codec} `{Compressors} `{GoQuote} {K P : Type}.
(** [request.XXX_Unmarshal] of the bulk sync. *)
Context (unmarshal : list Byte.byte → error + BulkSyncRequest).
Context (cfg : Config) (cloudControllerFacingTLSConfig : TLSConfig K P).

(** The servers, their handlers on the repositories of the system. *)
Definition cc_port (s : system) : server K P server_capi :=
  grpcServerForCloudController cfg cloudControllerFacingTLSConfig (capi (repos s)).
Definition vip_port (s : system) : server K P (VIPResolver RoutesRepo) :=
  grpcServerForVIPResolver cfg (mkVIPResolver (capi_routes (capi (repos s)))).

Definition with_capi (s : system) (c : server_capi) : system := with_repos s (on_capi (repos s) c).

(** A call at a port: its method, its encoding, the bytes of its stream, frames or not, and
    what comes after them. *)
Inductive arrival :=
| CallCC (fullMethod enc : string) (bs : list Byte.byte) (ending : recv_error)
| CallVIP (fullMethod enc : string) (bs : list Byte.byte) (ending : recv_error).

(** The bulk sync is the one method that streams. *)
Definition BulkSync_name : string := "api.CloudControllerCopilot/BulkSync".
Definition streaming (s : system) (enc : string) (bs : list Byte.byte) (ending : recv_error)
    : option (outcome (system * option (error + list Byte.byte))) :=
  out ← processStreamingRPC unmarshal (cc_port s) (mkServerStream bs ending enc registered []);
  Some ('(p, reply) ← out; Ret (with_capi s (state p), Some reply)).
Definition unary {S} (p : server K P S) (fullMethod enc : string) (bs : list Byte.byte)
    (ending : recv_error) : outcome (S * option (error + list Byte.byte)) :=
  '(p, reply) ← processUnaryRPC p fullMethod enc ending bs;
  Ret (state p, reply).

(** [Server.handleStream] of both servers: the system afterwards and the answer, if there
    is one; [None] would be a lack of fuel.  A bulk sync is here as if nothing fell
    between its writes; with other steps in between it is the same writes, taken one by
    one in [System]. *)
Definition arrive (s : system) (a : arrival)
    : option (outcome (system * option (error + list Byte.byte))) :=
  match a with
  | CallCC fullMethod enc bs ending =>
      if decide (trim_slash fullMethod = BulkSync_name) then streaming s enc bs ending
      else Some ('(c, reply) ← unary (cc_port s) fullMethod enc bs ending; Ret (with_capi s c, reply))
  | CallVIP fullMethod enc bs ending =>
      Some ('(b, reply) ← unary (vip_port s) fullMethod enc bs ending;
            Ret (with_capi s (with_routes (capi (repos s)) (resolver_routes b)), reply))
  end.

(** What a server with open ports can become; its other steps are [System]'s. *)
Inductive behind_ports (s0 : system) : system → Prop :=
| ports_start : behind_ports s0 s0
| ports_arrival s a s' reply :
    behind_ports s0 s → arrive s a = Some (Ret (s', reply)) → behind_ports s0 s'
| ports_step s a s' out :
    behind_ports s0 s → sys_step ok_write s a (Ret (s', out)) → behind_ports s0 s'.

(** ** Specification *)
(** The request that a message is, if its method writes. *)
Definition request_of (t : mtype) : msg t → option Handlers.request :=
  match t with
  | TUpsertRouteRequest => λ m, Some (RUpsertRoute m)
  | TDeleteRouteRequest => λ m, Some (RDeleteRoute m)
  | TMapRouteRequest => λ m, Some (RMapRoute m)
  | TUnmapRouteRequest => λ m, Some (RUnmapRoute m)
  | TUpsertAssociationRequest => λ m, Some (RUpsertAssociation m)
  | TDeleteAssociationRequest => λ m, Some (RDeleteAssociation m)
  | _ => λ _, None
  end.

(** The message that a stream begins with, if the server gets to it. *)
Definition message (enc : string) (t : mtype) (bs : list Byte.byte) (ending : recv_error) : option (msg t) :=
  if compresses enc && bool_decide (enc ∉ registered) then None
  else match (recvAndDecompress registered enc defaultMaxReceiveMessageSize ending bs).2 with
       | inl _ => None
       | inr data => match decode t data with inl _ => None | inr m => Some m end
       end.

(** A stream that ends before its first message does, and not with a status. *)
Definition cut_short (a : arrival) : Prop :=
  let '(bs, ending) := match a with CallCC _ _ bs e | CallVIP _ _ bs e => (bs, e) end in
  match (recvMsg ending defaultMaxReceiveMessageSize bs).2 with
  | inl EOF => True
  | inl (RecvErr err) => has_status err = false
  | inr _ => False
  end.

(** The writes an arrival stands for. *)
Definition unary_writes (fullMethod enc : string) (bs : list Byte.byte) (ending : recv_error) : list write :=
  match (d ← find_method CloudControllerCopilot (CloudControllerCopilot_methods (R := RoutesRepo)
               (M := RouteMappingsRepo) (A := CAPIDiegoProcessAssociationsRepo))
               ("/" +:+ trim_slash fullMethod);
         message enc (t_in d) bs ending ≫= request_of (t_in d)) with
  | Some r => [WRequest r]
  | None => []
  end.
Definition sync_writes (request : BulkSyncRequest) : list write := [
  WSyncMappings (to_model_mapping <$> omap id (elems (Api.RouteMappings request)));
  WSyncRoutes (sync_route <$> elems (Api.Routes request));
  WSyncAssociations ((λ a, mkAssociation (Api.Association.CapiProcessGuid a)
      (Sl (elems (Api.Association.DiegoProcessGuids a)))) <$>
    omap id (elems (Api.CapiDiegoProcessAssociations request)))].
Definition stream_writes (enc : string) (bs : list Byte.byte) (ending : recv_error)
    : list write :=
  if compresses enc && bool_decide (enc ∉ registered) then []
  else
    let answers := received registered enc ending bs in
    match stream_end answers with
    | Some _ => []
    | None =>
        match (if (length (stream_bytes answers) =? 0)%nat then inr empty_bulk_sync
               else unmarshal (stream_bytes answers)) with
        | inl _ => []
        | inr request => sync_writes request
        end
    end.
Definition arrival_writes (a : arrival) : list write :=
  match a with
  | CallCC fullMethod enc bs ending =>
      if decide (trim_slash fullMethod = BulkSync_name) then stream_writes enc bs ending
      else unary_writes fullMethod enc bs ending
  | CallVIP _ _ _ _ => []
  end.
End ports.

(** ** Lemmas *)
Section lemmas.
Context `{GrowSlice} `{MapOrder} `{Marshal} `{UnicodeLower} `{FloatToInt} `{GoSyntax} `{X509}.
Context `{Codec} `{Compressors} `{GoQuote} {K P : Type}.
Context (unmarshal : list Byte.byte → error + BulkSyncRequest).
Context (cfg : Config) (stls : TLSConfig K P).

Notation ok := ok_write.

(** What decoding gives: unsigned weights, and no nil in a slice. *)
Definition decodes : Prop :=
  (∀ bs m, decode TMapRouteRequest bs = inr m → wf_request (RMapRoute m)) ∧
  (∀ bs m, decode TUnmapRouteRequest bs = inr m → wf_request (RUnmapRoute m)) ∧
  (∀ bs request, unmarshal bs = inr request → no_nil request).
Context (Hdec : decodes).

Lemma writes_one (r r1 : repositories) x :
  ok r x → apply_write r x = Some (Ret r1) → writes ok r [x] r1.
Proof. intros Hx Ha. by eapply writes_step, writes_nil. Qed.

Lemma on_capi_self (r : repositories) : on_capi r (capi r) = r.
Proof. by destruct r. Qed.
Lemma with_capi_self (s : system) : with_capi s (capi (repos s)) = s.
Proof. by destruct s as [[] ? ? ? ?]. Qed.

(** One request, through its handler. *)
Lemma handled_write (r : repositories) (req : Handlers.request) :
  wf_request req →
  ∃ c out, handle (capi r) req = Ret (c, out) ∧ writes ok r [WRequest req] (on_capi r c).
Proof.
  intros Hwf. assert (∃ c out, handle (capi r) req = Ret (c, out)) as (c & out & E).
  { pose proof (handle_branches (capi r) req Hwf) as Hb.
    destruct (request_op req); [eauto|destruct Hb; eauto]. }
  exists c, out. split; [done|]. apply writes_one; [done|]. simpl. by rewrite E.
Qed.

(** A call that is not answered broke off before its message. *)
Lemma unread_cut installed enc bs ending :
  match (recvAndDecompress installed enc defaultMaxReceiveMessageSize ending bs).2 with
  | inl EOF => True
  | inl (RecvErr err) => has_status err = false
  | inr _ => False
  end →
  match (recvMsg ending defaultMaxReceiveMessageSize bs).2 with
  | inl EOF => True
  | inl (RecvErr err) => has_status err = false
  | inr _ => False
  end.
Proof.
  unfold recvAndDecompress. destruct (recvMsg _ _ _) as [rest [err|[pf d]]]; simpl; [done|].
  unfold checkRecvPayload, decompress. repeat case_decide; repeat case_match; simplify_eq/=; done.
Qed.

(** A unary call on a method that is there. *)
Lemma unary_served {S} (p : server K P S) (d : MethodDesc S) fullMethod enc bs ending
    (Q : option (msg (t_in d)) → S → Prop) :
  installed p = registered →
  find_method (service p) (methods p) ("/" +:+ trim_slash fullMethod) = Some d →
  Q None (state p) →
  (∀ data m, decode (t_in d) data = inr m →
     ∃ st out, serve d (state p) m = Ret (st, out) ∧ Q (Some m) st) →
  ∃ st reply, unary p fullMethod enc bs ending = Ret (st, reply) ∧ Q (message enc (t_in d) bs ending) st ∧
    (reply = None → cut_short (CallCC fullMethod enc bs ending)).
Proof.
  intros Hin Hf HQ Hserve. unfold unary, processUnaryRPC, Handler, message. rewrite Hf, Hin.
  assert (∀ m st (reply : error + list Byte.byte), Q m st → ∃ st' reply', Ret (st, Some reply) = Ret (st', reply') ∧ Q m st' ∧
    (reply' = None → cut_short (CallCC fullMethod enc bs ending))) as Hans.
  { intros m st reply HQm. by exists st, (Some reply). }
  destruct (compresses enc && _); [by apply Hans|]. pose proof (unread_cut registered enc bs ending) as Hcut.
  destruct (recvAndDecompress _ _ _ _ _).2 as [[|err]|data]; simpl in *.
  - eexists _, _. split; [done|]. split; [done|]. intros _. by apply Hcut.
  - destruct (has_status err); [by apply Hans|]. eexists _, _. split; [done|]. split; [done|]. intros _. by apply Hcut.
  - destruct (decode (t_in d) data) as [|m] eqn:E; [by apply Hans|].
    destruct (Hserve data m E) as (st & out & Hs & HQs). rewrite Hs. destruct out; by apply Hans.
Qed.

Lemma unary_unknown {S} (p : server K P S) fullMethod enc bs ending :
  find_method (service p) (methods p) ("/" +:+ trim_slash fullMethod) = None →
  ∃ reply, unary p fullMethod enc bs ending = Ret (state p, Some reply).
Proof. intros Hf. unfold unary, processUnaryRPC. rewrite Hf. simpl. eauto. Qed.

(** A method of the Cloud Controller's service performs its request, or nothing. *)
Lemma method_performs (s : system) (d : MethodDesc server_capi) bytes m :
  d ∈ CloudControllerCopilot_methods → decode (t_in d) bytes = inr m →
  ∃ c out, serve d (capi (repos s)) m = Ret (c, out) ∧
    writes ok (repos s) (match request_of (t_in d) m with Some r => [WRequest r] | None => [] end)
      (on_capi (repos s) c).
Proof.
  destruct Hdec as (Hmap & Hunmap & _).
  assert (∀ t (q : capi_call t) req ack, writing q = Some (req, ack) → wf_request req → ∃ c out,
    perform (capi (repos s)) q = Ret (c, out) ∧
    writes ok (repos s) [WRequest req] (on_capi (repos s) c)) as Hw.
  { intros t q req ack Hq Hwf. pose proof (handle_branches (capi (repos s)) req Hwf) as Hh.
    pose proof (perform_branches (capi (repos s)) q req ack Hq Hwf) as Hp.
    destruct (handled_write (repos s) req Hwf) as (c & out & E & Hw). exists c.
    destruct (request_op req) as [o|]; [|destruct Hh as [msg Hh], Hp as [msg' Hp]];
      rewrite Hp; rewrite Hh in E; injection E as <- <-; eauto. }
  assert (∀ t (q : capi_call t), writing q = None → (∃ out, perform (capi (repos s)) q = Ret (capi (repos s), out)) →
    ∃ c out, perform (capi (repos s)) q = Ret (c, out) ∧ writes ok (repos s) [] (on_capi (repos s) c)) as Hr.
  { intros t q _ [out ->]. eexists _, _. split; [done|]. rewrite on_capi_self. constructor. }
  unfold CloudControllerCopilot_methods. rewrite !elem_of_cons, elem_of_nil.
  intros Hd Hm. destruct_or? Hd; subst d; simpl in *; try done.
  - apply (Hr _ (CListCfRoutes m)); [done|]. simpl. destruct (capi (repos s)). eauto.
  - apply (Hr _ (CListCfRouteMappings m)); [done|]. rewrite perform_ListCfRouteMappings. simpl.
    rewrite decide_True by apply no_nil_Some. destruct (capi (repos s)). eauto.
  - apply (Hr _ (CListAssociations m)); [done|]. rewrite perform_ListAssociations. simpl.
    rewrite decide_True by apply no_nil_Some. destruct (capi (repos s)). eauto.
  - by eapply (Hw _ (CUpsertRoute m)).
  - by eapply (Hw _ (CDeleteRoute m)).
  - eapply (Hw _ (CMapRoute m)); [done|]. by apply (Hmap bytes).
  - eapply (Hw _ (CUnmapRoute m)); [done|]. by apply (Hunmap bytes).
  - by eapply (Hw _ (CUpsertAssociation m)).
  - by eapply (Hw _ (CDeleteAssociation m)).
  - apply (Hr _ (CHealth m)); [done|]. simpl. eauto.
Qed.

Lemma find_method_in {S} srv (ds : list (MethodDesc S)) name d : find_method srv ds name = Some d → d ∈ ds.
Proof.
  induction ds as [|d' ds IH]; simpl; [done|]. case_decide; [intros [= <-]; by left|right; auto].
Qed.

(** Every unary call at the Cloud Controller's port. *)
Lemma unary_call (s : system) fullMethod enc bs ending :
  ∃ c reply, unary (cc_port cfg stls s) fullMethod enc bs ending = Ret (c, reply) ∧
    writes ok (repos s) (unary_writes fullMethod enc bs ending) (on_capi (repos s) c) ∧
    (reply = None → cut_short (CallCC fullMethod enc bs ending)).
Proof.
  unfold unary_writes.
  destruct (find_method CloudControllerCopilot CloudControllerCopilot_methods
              ("/" +:+ trim_slash fullMethod)) as [d|] eqn:Hf; simpl.
  - apply (unary_served (cc_port cfg stls s) d fullMethod enc bs ending
      (λ m c, writes ok (repos s) (match m ≫= request_of (t_in d) with Some r => [WRequest r] | None => [] end)
                (on_capi (repos s) c))); [done|exact Hf| |].
    + simpl. rewrite on_capi_self. constructor.
    + intros data m Hm. apply (method_performs s d data m); [by eapply find_method_in|done].
  - destruct (unary_unknown (cc_port cfg stls s) fullMethod enc bs ending Hf) as [reply E].
    exists (capi (repos s)), (Some reply). split; [exact E|]. rewrite on_capi_self. split; [constructor|done].
Qed.

(** And at the resolver's. *)
Lemma vip_call_reads (s : system) fullMethod enc bs ending :
  ∃ b reply, unary (vip_port cfg (K := K) (P := P) s) fullMethod enc bs ending = Ret (b, reply) ∧
    b = mkVIPResolver (capi_routes (capi (repos s))) ∧
    (reply = None → cut_short (CallVIP fullMethod enc bs ending)).
Proof.
  destruct (find_method VIPResolverCopilot VIPResolverCopilot_methods
              ("/" +:+ trim_slash fullMethod)) as [d|] eqn:Hf.
  - apply (unary_served (vip_port cfg s) d fullMethod enc bs ending
      (λ _ b, b = mkVIPResolver (capi_routes (capi (repos s))))); [done|exact Hf|done|].
    intros data m _. apply find_method_in in Hf. unfold VIPResolverCopilot_methods in Hf.
    rewrite !elem_of_cons, elem_of_nil in Hf. destruct_or? Hf; subst d; simpl; try done; eauto.
    destruct (Handlers.GetVIPByName _ m) as [b out] eqn:E. eexists _, _. split; [done|].
    unfold Handlers.GetVIPByName in E. simpl in E. destruct (Routes.GetVIPByName _ _). by simplify_eq/=.
  - destruct (unary_unknown (vip_port cfg (K := K) (P := P) s) fullMethod enc bs ending Hf) as [reply E].
    by eexists _, _.
Qed.

(** The writes of a bulk sync, and the stream it comes over. *)
Lemma sync_writes_run (r : repositories) request :
  writes ok r (sync_writes request) (on_capi r (after_sync (capi r) request)).
Proof. do 3 (eapply writes_step; [done|reflexivity|]). apply writes_nil. Qed.

Lemma stream_call (s : system) enc bs ending :
  ∃ c reply, streaming unmarshal cfg stls s enc bs ending = Some (Ret (with_capi s c, Some reply)) ∧
    writes ok (repos s) (stream_writes unmarshal enc bs ending) (on_capi (repos s) c).
Proof.
  assert (∀ reply : error + list Byte.byte, ∃ c reply',
    Some (Ret (s, Some reply)) = Some (Ret (with_capi s c, Some reply')) ∧
    writes ok (repos s) [] (on_capi (repos s) c)) as Hno.
  { intros reply. exists (capi (repos s)), reply. rewrite with_capi_self, on_capi_self. split; [done|constructor]. }
  unfold streaming, processStreamingRPC, stream_writes. cbn [encoding registry pending].
  destruct (compresses enc && _).
  { simpl. rewrite with_capi_self. apply Hno. }
  set (ss := mkServerStream _ _ _ _ _). destruct (received_playing ss) as (Hp & Hr & left & Hl).
  set (rs := received _ _ _ _) in Hp, Hr, Hl |- *.
  change (received registered enc ending bs) with rs.
  destruct Hdec as (_ & _ & Hnil).
  rewrite (BulkSync_on_spec unmarshal Hnil _ _ _ _ rs Hp Hr). cbv zeta. rewrite app_nil_l.
  destruct (stream_end rs) as [err|]; [simpl; rewrite with_capi_self; apply Hno|].
  destruct (if (length (stream_bytes rs) =? 0)%nat then _ else _) as [err|request];
    [simpl; rewrite with_capi_self; apply Hno|].
  eexists _, _. split; [reflexivity|]. apply sync_writes_run.
Qed.

Lemma arrive_writes (s : system) (a : arrival) :
  ∃ c reply, arrive unmarshal cfg stls s a = Some (Ret (with_capi s c, reply)) ∧
    writes ok (repos s) (arrival_writes unmarshal a) (on_capi (repos s) c) ∧
    (reply = None → cut_short a).
Proof.
  destruct a as [fullMethod enc bs ending|fullMethod enc bs ending]; simpl.
  - case_decide.
    { destruct (stream_call s enc bs ending) as (c & reply & -> & Hw). by exists c, (Some reply). }
    destruct (unary_call s fullMethod enc bs ending) as (c & reply & -> & Hw & Hn). simpl. eauto.
  - destruct (vip_call_reads s fullMethod enc bs ending) as (b & reply & -> & -> & Hn). simpl.
    exists (capi (repos s)), reply. rewrite on_capi_self. split; [|split; [constructor|done]].
    by destruct s as [[[]] ? ? ? ?].
Qed.

Lemma behind_ports_reachable s0 s : behind_ports unmarshal cfg stls s0 s → reachable ok s0 s.
Proof.
  induction 1 as [|s a s' reply _ IH Ha|s a s' out _ IH Ha]; [constructor| |by eapply reach_step].
  destruct (arrive_writes s a) as (c & reply' & E & Hw & _). rewrite E in Ha. injection Ha as <- <-.
  by eapply reach_writes.
Qed.
End lemmas.

(** ** Lemmas: the Cloud Controller's client *)
Section calls.
Context `{GrowSlice} `{MapOrder} `{Marshal} `{UnicodeLower} `{FloatToInt} `{GoSyntax} `{X509}.
Context {K P : Type} `{!X509Verify K P} `{Codec} `{Compressors} `{GoQuote} `{Network}.

(** Requests one after the other. *)
Fixpoint cc_requests {S} (client : cloudControllerClient K P) (p : server K P S) (rs : list Handlers.request)
    : outcome (server K P S * list (error + unit)) :=
  match rs with
  | [] => Ret (p, [])
  | r :: rs =>
      '(p, out) ← cc_request client p r;
      '(p, outs) ← cc_requests client p rs;
      Ret (p, out :: outs)
  end.

Context (cfg : Config) (stls clientTLS : TLSConfig K P) (addr : string).

(** Valid requests of a connected client have their effects, in order. *)
Lemma cc_requests_done (s : system) (rs : list Handlers.request) (os : list repo_op) :
  connectable cfg stls clientTLS addr → empty_carried → Forall request_carried rs →
  Forall wf_request rs → Forall2 (λ r o, request_op r = Some o) rs os →
  ∃ client, NewCloudControllerClient addr clientTLS = inr client ∧
    cc_requests client (cc_port cfg stls s) rs =
    Ret (cc_port cfg stls (with_capi s (foldl apply_repo_op (capi (repos s)) os)), replicate (length rs) (inr ())) ∧
    writes ok_write (repos s) (WRequest <$> rs)
      (on_capi (repos s) (foldl apply_repo_op (capi (repos s)) os)).
Proof.
  intros Hconn Hempty Hc Hwf Hop.
  destruct (dialled cfg stls clientTLS addr (capi (repos s)) Hconn) as (conn & Hd & Ho & Hreach & Hci).
  exists (mkCloudControllerClient conn). split; [done|]. clear Hd. revert s Hreach Hc Hwf.
  induction Hop as [|r o rs os Hr Hop IH]; intros s Hreach Hc Hwf; simpl.
  { rewrite on_capi_self, with_capi_self. split; [done|constructor]. }
  inversion_clear Hc as [|? ? Hcr Hcs]. inversion_clear Hwf as [|? ? Hwr Hws].
  pose proof (handle_branches (capi (repos s)) r Hwr) as Hh. rewrite Hr in Hh.
  unfold cc_port at 1. rewrite (cc_request_handled cfg stls (capi (repos s)) conn r Ho Hreach Hci Hcr Hempty), Hh.
  destruct (IH (with_capi s (apply_repo_op (capi (repos s)) o)) Hreach Hcs Hws) as [E Hw].
  simpl in E, Hw |- *. unfold answered. simpl. unfold with_state. simpl.
  split.
  - change (mkServer _ _ _ _ _ _) with (cc_port cfg stls (with_capi s (apply_repo_op (capi (repos s)) o))).
    rewrite E. done.
  - eapply writes_step; [exact Hwr| |exact Hw]. simpl. by rewrite Hh.
Qed.
End calls.

(** ** Announcing a route *)
(** The three requests that announce a route to the server. *)
Definition announcement (rt : Api.Route.t) (a : Api.Association.t) (weight : Z) : list Handlers.request := [
  RUpsertRoute (mkUpsertRouteRequest (Some rt));
  RUpsertAssociation (mkUpsertAssociationRequest (Some a));
  RMapRoute (mkMapRouteRequest (Some
    (Api.RouteMapping.mk (Api.Association.CapiProcessGuid a) (Api.Route.Guid rt) weight)))].
Definition valid_announcement (rt : Api.Route.t) (a : Api.Association.t) (weight : Z) : Prop :=
  Api.Route.Guid rt ≠ "" ∧ Api.Route.Host rt ≠ "" ∧ Api.Association.CapiProcessGuid a ≠ "" ∧
  elems (Api.Association.DiegoProcessGuids a) ≠ [] ∧ valid_weight weight.
Definition announced_association (a : Api.Association.t) : CAPIDiegoProcessAssociation :=
  mkAssociation (Api.Association.CapiProcessGuid a) (Sl (elems (Api.Association.DiegoProcessGuids a))).
Definition announced_mapping (rt : Api.Route.t) (a : Api.Association.t) (weight : Z) : RouteMapping :=
  mkRouteMapping (Api.Route.Guid rt) (Api.Association.CapiProcessGuid a) weight.

Lemma announcement_ops rt a weight :
  valid_announcement rt a weight →
  Forall wf_request (announcement rt a weight) ∧
  Forall2 (λ r o, request_op r = Some o) (announcement rt a weight)
    [ORoutes (Routes.OUpsert (to_model_route rt));
     OAssociations (Associations.OUpsert (announced_association a));
     OMappings (RouteMappings.OMap (announced_mapping rt a weight))].
Proof.
  unfold valid_announcement, valid_weight. intros (Hg & Hh & Hp & Hd & Hw). split.
  - unfold announcement. rewrite !Forall_cons, Forall_nil. simpl. split_and!; [done|done|lia..|done].
  - unfold announcement. rewrite !Forall2_cons. simpl. rewrite !decide_True by done.
    split_and!; [done..|constructor].
Qed.

(** ** Properties *)
(** C3. Whatever arrives at the ports: any method, encoding and bytes, frames with any flag
    and length, whole, cut short or followed by others, on the Cloud Controller's or the
    resolver's server is taken without a panic, and answered unless its stream breaks off
    before its first message is whole.  It changes the server by exactly the writes it
    stands for, at most one for a unary call, the three syncs of a bulk sync that decodes,
    none at the resolver; so a server with open ports goes only where the transition
    system of the server goes. *)
Theorem ports_refine_system `{GrowSlice} `{MapOrder} `{Marshal} `{UnicodeLower} `{FloatToInt}
    `{GoSyntax} `{X509} `{Codec} `{Compressors} `{GoQuote} {K P : Type} unmarshal (cfg : Config)
    (stls : TLSConfig K P) (s0 s : system) (Hdec : decodes unmarshal)
    (Hs : behind_ports unmarshal cfg stls s0 s) :
  reachable ok_write s0 s ∧
  ∀ a, ∃ s' reply, arrive unmarshal cfg stls s a = Some (Ret (s', reply)) ∧
    s' = with_repos s (repos s') ∧
    writes ok_write (repos s) (arrival_writes unmarshal a) (repos s') ∧
    (reply = None → cut_short a).
Proof.
  split; [by eapply behind_ports_reachable|]. intros a.
  destruct (arrive_writes unmarshal cfg stls Hdec s a) as (c & reply & E & Hw & Hn).
  by exists (with_capi s c), reply.
Qed.

Section announced.
Context `{GrowSlice} `{MapOrder} `{Marshal} `{UnicodeLower} `{FloatToInt} `{GoSyntax} `{X509}.
Context {K P : Type} `{!X509Verify K P} `{Codec} `{Compressors} `{GoQuote} `{Network}.
Context (cfg : Config) (stls clientTLS : TLSConfig K P) (addr : string).

(** From the Cloud Controller to Pilot's cache: the client connects and sends a
    route, the association of a process and their mapping; each call succeeds, and if the
    process has a running backend on the route's side and no two routes can be confused,
    one quiet tick later the cache serves a virtual service for the route's host with an
    HTTP route to the process at the port of one of its backends. *)
Theorem announced_route_is_served (s : system) rt a weight
    (Hc : PolicyServerDisabled cfg = false) (Hs : reachable ok_write (new_system cfg) s)
    (Hconn : connectable cfg stls clientTLS addr) (Hempty : empty_carried)
    (Hcarried : Forall request_carried (announcement rt a weight))
    (Hvalid : valid_announcement rt a weight)
    (Hbackends : process_backends (world_of (repos s)) (Api.Route.Internal rt) (announced_association a) ≠ [])
    (Hdist : distinct_routes (Routes.Upsert (capi_routes (capi (repos s))) (to_model_route rt))) :
  let route := to_model_route rt in
  ∃ client s', NewCloudControllerClient addr clientTLS = inr client ∧
    cc_requests client (cc_port cfg stls s) (announcement rt a weight) =
      Ret (cc_port cfg stls s', [inr (); inr (); inr ()]) ∧
    reachable ok_write (new_system cfg) s' ∧
    ∀ policies, ∃ s'' out shot rsc vs hr d,
      sys_step ok_write s' (ATick [] (inr policies)) (Ret (s'', out)) ∧
      snapshots (cache s'') !! node = Some shot ∧
      rsc ∈ elems (Resources shot VirtualServiceTypeURL) ∧ Body rsc = body_of (PVirtualService vs) ∧
      VsHosts vs = [Routes.Hostname route] ∧ hr ∈ VsHttp vs ∧ d ∈ HRoute hr ∧
      MatchPrefix hr = (if decide (Routes.Path route ≠ "" ∧ Routes.Internal route = false)
                        then Some (Routes.Path route) else None) ∧
      DestHost d = Routes.Hostname route ∧ DestSubset d = Api.Association.CapiProcessGuid a ∧
      ∃ b, b ∈ process_backends (world_of (repos s)) (Routes.Internal route) (announced_association a) ∧
        DestPort d = ContainerPort b.
Proof.
  intros route. destruct (announcement_ops rt a weight Hvalid) as [Hwf Hops].
  destruct (cc_requests_done cfg stls clientTLS addr s _ _ Hconn Hempty Hcarried Hwf Hops)
    as (client & Hcl & Hcalls & Hw). simpl in Hcalls, Hw.
  set (c := with_mappings _ _) in Hcalls, Hw. exists client, (with_capi s c).
  split; [done|]. split; [exact Hcalls|].
  assert (reachable ok_write (new_system cfg) (with_capi s c)) as Hs' by (by eapply reach_writes).
  split; [done|]. intros policies.
  destruct (reachable_inv (new_system cfg) (with_capi s c)) as (Hinv & Hclient & _);
    [by unfold new_system, policyServerClient; rewrite Hc|apply new_system_inv|done|].
  destruct (quiet_tick_serves (with_capi s c) policies (RouteMappings.Key (announced_mapping rt a weight))
    (announced_mapping rt a weight) route (announced_association a) Hclient Hinv) as
    (s'' & out & shot & rsc & vs & hr & d & Ht & _ & _ & _ & Hrest).
  - apply lookup_insert_eq.
  - apply lookup_insert_eq.
  - apply lookup_insert_eq.
  - exact Hbackends.
  - exact Hdist.
  - exists s'', out, shot, rsc, vs, hr, d. split; [|exact Hrest].
    rewrite <-Ht. apply step_tick. constructor.
Qed.

(** C12. From the Cloud Controller to DNS: a route that the Cloud Controller's client has
    just sent is resolved for the resolver's client, under its host with any number of
    dots behind it, to the route's virtual address; neither call is lost, whatever the
    repositories held before, and resolving changes nothing.  This is so unless the host
    itself ends in a dot: such a host is accepted and indexed with its dots, but the
    resolver trims what it is asked for and never asks for it, and the client gets what
    the resolver would have answered before, unless the host without its dots was already
    indexed to the same route. *)
Theorem upserted_route_resolves (s : system) rt resolverAddr n
    (Hconn : connectable cfg stls clientTLS addr) (Hempty : empty_carried)
    (Hcarried : request_carried (RUpsertRoute (mkUpsertRouteRequest (Some rt))))
    (Hvalid : Api.Route.Guid rt ≠ "" ∧ Api.Route.Host rt ≠ "")
    (Hr : resolve resolverAddr = inr (ListenAddressForVIPResolver cfg))
    (Hu : unreachable (ListenAddressForVIPResolver cfg) = None)
    (Hreq : carried "" TGetVIPByNameRequest (mkGetVIPByNameRequest (Api.Route.Host rt +:+ dots n))) :
  let routes := capi_routes (capi (repos s)) in
  let name := TrimRight (Api.Route.Host rt) "." in
  ∃ client resolver s', NewCloudControllerClient addr clientTLS = inr client ∧
    NewVIPResolverCopilotClient resolverAddr [WithInsecure] = inr resolver ∧
    cc_invoke client (cc_port cfg stls s) (CUpsertRoute (mkUpsertRouteRequest (Some rt))) =
      Ret (cc_port cfg stls s', inr mkUpsertRouteResponse) ∧
    let answer := client_GetVIPByName (vip_stub resolver (vip_port cfg s'))
                    (mkGetVIPByNameRequest (Api.Route.Host rt +:+ dots n)) in
    (name = Api.Route.Host rt →
     carried "" TGetVIPByNameResponse (mkGetVIPByNameResponse (Api.Route.Vip rt)) →
     answer = Ret (vip_port cfg s', inr (mkGetVIPByNameResponse (Api.Route.Vip rt)))) ∧
    (name ≠ Api.Route.Host rt → (getGUIDByHostname routes name).1 ≠ Api.Route.Guid rt →
     ∀ ip ok, Routes.GetVIPByName routes name = (ip, ok) →
     carried "" TGetVIPByNameResponse (mkGetVIPByNameResponse ip) →
     answer = Ret (vip_port cfg s',
       if ok then inr (mkGetVIPByNameResponse ip)
       else inl (StatusError Unknown ("route doesn't exist: " +:+ Api.Route.Host rt +:+ dots n)))).
Proof.
  intros routes name.
  destruct (dialled cfg stls clientTLS addr (capi (repos s)) Hconn) as (conn & Hd & Ho & Hreach & Hci).
  set (s' := with_capi s (with_routes (capi (repos s)) (Routes.Upsert routes (to_model_route rt)))).
  pose proof (vip_client_resolves (K := K) (P := P) cfg (mkVIPResolver (capi_routes (capi (repos s'))))
    resolverAddr (mkGetVIPByNameRequest (Api.Route.Host rt +:+ dots n)) Hr Hu Hreq) as Hres.
  exists (mkCloudControllerClient conn), (mkVIPResolverCopilotClient (resolver_conn resolverAddr)), s'.
  split; [done|]. split; [by eapply resolver_dialled|]. split.
  { unfold cc_port at 1. rewrite (cc_invoke_handled cfg stls (capi (repos s)) conn) by (done || (intros; by apply Hempty)).
    pose proof (perform_branches (capi (repos s)) (CUpsertRoute (mkUpsertRouteRequest (Some rt))) _ _ eq_refl I) as Hp.
    simpl in Hp. rewrite decide_True in Hp by done. simpl. by rewrite Hp. }
  assert (∀ ip ok, Routes.GetVIPByName (Routes.Upsert routes (to_model_route rt)) name = (ip, ok) →
    Handlers.GetVIPByName (mkVIPResolver (capi_routes (capi (repos s'))))
      (mkGetVIPByNameRequest (Api.Route.Host rt +:+ dots n)) =
    (mkVIPResolver (capi_routes (capi (repos s'))),
     if ok then inr (mkGetVIPByNameResponse ip)
     else inl (PlainError ("route doesn't exist: " +:+ Api.Route.Host rt +:+ dots n)))) as Hask.
  { intros ip ok E. unfold Handlers.GetVIPByName. simpl. rewrite TrimRight_app_dots.
    unfold resolve_GetVIPByName, RoutesRepo_resolves. fold name. by rewrite E. }
  split.
  - intros Hname Hout. specialize (Hask (Api.Route.Vip rt) true).
    rewrite Hask in Hres.
    + simpl in Hres. apply Hres. by intros out [= <-].
    + rewrite Hname. unfold Routes.GetVIPByName, GetVIPByName_between, getGUIDByHostname, Routes.Get. simpl.
      by rewrite lookup_insert_eq; simpl; rewrite lookup_insert_eq.
  - intros Hname Hguid ip ok E Hout.
    rewrite (Hask ip ok) in Hres.
    + simpl in Hres. etrans; [apply Hres; intros out; destruct ok; [by intros [= <-]|done]|]. by destruct ok.
    + rewrite <-E. unfold Routes.GetVIPByName, GetVIPByName_between, getGUIDByHostname, Routes.Get in *. simpl in *.
      rewrite lookup_insert_ne by done. destruct (repoByHostname routes !! name) as [g|]; simpl in *;
        by rewrite lookup_insert_ne by (intros ?; destruct Hvalid; congruence).
Qed.
End announced.

(** ** Witnesses *)
(** A codec for one announcement, for its route under a dotted host, and for the messages
    of [w_codec]. *)
Definition w_up : UpsertRouteRequest :=
  mkUpsertRouteRequest (Some (Api.Route.mk "g" "h.example.com" "/a" false "127.128.0.1")).
Definition w_assoc : Api.Association.t := Api.Association.mk "p" (Sl ["d"]).
Definition w_map : MapRouteRequest := mkMapRouteRequest (Some (Api.RouteMapping.mk "p" "g" 1)).

(** The route of [w_up] under a host with a dot behind it. *)
Definition w_dotted : Api.Route.t := Api.Route.mk "g" "h.example.com." "/a" false "127.128.0.1".
Definition w_up_dotted : UpsertRouteRequest := mkUpsertRouteRequest (Some w_dotted).
Definition w_ports_encode (t : mtype) : msg t → error + list Byte.byte :=
  match t with
  | TUpsertRouteRequest => λ m,
      inr [if String.eqb (Api.Route_GetHost (urRoute m)) "h.example.com." then Byte.x04 else Byte.x01]
  | TUpsertAssociationRequest => λ _, inr [Byte.x02]
  | TMapRouteRequest => λ _, inr [Byte.x03]
  | t => w_encode t
  end.
Definition w_ports_decode (t : mtype) (bs : list Byte.byte) : error + msg t :=
  match t return error + msg t with
  | TUpsertRouteRequest => inr match bs with [Byte.x04] => w_up_dotted | _ => w_up end
  | TUpsertAssociationRequest => inr (mkUpsertAssociationRequest (Some w_assoc))
  | TMapRouteRequest => inr w_map
  | t => w_decode t bs
  end.
Definition w_ports_form (t : mtype) : msg t → Prop :=
  match t with
  | TUpsertRouteRequest => λ m, m = w_up ∨ m = w_up_dotted
  | TUpsertAssociationRequest => λ m, m = mkUpsertAssociationRequest (Some w_assoc)
  | TMapRouteRequest => λ m, m = w_map
  | t => λ _, w_wire_form t = true
  end.
Definition w_ports_codec : Codec.
Proof.
  refine {| encode := w_ports_encode; decode := w_ports_decode; wire_form := w_ports_form |}.
  - intros t m Ht. pose proof (encode_decode (Codec := w_codec) t m) as Hother.
    destruct t; simpl in *; try exact (Hother Ht);
      (destruct Ht as [->| ->] || rewrite Ht); eexists; split; reflexivity.
  - intros t m Ht. destruct t; try discriminate Ht; reflexivity.
Defined.

#[local] Existing Instances go_grow asc_order transparent ascii_only amd64 w_syntax w_x509.
#[local] Existing Instances w_verify w_store w_network w_ports_codec.
#[local] Instance w_verbatim : GoQuote := id.

Lemma w_decodes : decodes w_unmarshal.
Proof.
  split_and!.
  - intros bs m [= <-]. simpl. lia.
  - intros bs m Hm. discriminate Hm.
  - intros bytes request Hb. unfold w_unmarshal in Hb. repeat case_match; simplify_eq.
    repeat constructor; eauto.
Qed.

Definition w_arrival : arrival :=
  CallCC "/api.CloudControllerCopilot/UpsertRoute" gzip_Name (frame compressionMade [Byte.x01]) EOF.
Definition w_after : system :=
  with_capi w_start (apply_repo_op (capi (repos w_start))
    (ORoutes (Routes.OUpsert (mkRoute "g" "h.example.com" "/a" false "127.128.0.1")))).

Lemma ports_refine_system_witness :
  reachable ok_write w_start w_after ∧
  ∃ s' reply, arrive w_unmarshal w_config w_server_tls w_after w_arrival = Some (Ret (s', reply)) ∧
    writes ok_write (repos w_after) [WRequest (RUpsertRoute w_up)] (repos s').
Proof.
  destruct (ports_refine_system w_unmarshal w_config w_server_tls w_start w_after w_decodes) as [Hr Ha].
  - eapply (ports_arrival _ _ _ _ _ w_arrival _ (Some (inr (frame compressionNone [])))); [apply ports_start|].
    vm_compute. reflexivity.
  - split; [exact Hr|]. destruct (Ha w_arrival) as (s' & reply & E & _ & Hw & _). exists s', reply.
    split; [exact E|]. exact Hw.
Defined.

(** A server on which one instance was reported. *)
Definition w_reported : system := with_repos w_start (run_writes (repos w_start) (drop 3 w_writes)).

Lemma w_reported_reachable : reachable ok_write w_start w_reported.
Proof.
  apply reach_run; [apply reach_start|]. vm_compute. repeat split. eexists. split; [reflexivity|]. repeat constructor. by eexists.
Qed.

Lemma w_announcement_carried : Forall request_carried (announcement (Api.Route.mk "g" "h.example.com" "/a" false "127.128.0.1") w_assoc 1).
Proof.
  unfold announcement. rewrite !Forall_cons, Forall_nil.
  split_and!; [..|done]; (split; [(left; reflexivity) || reflexivity|]); intros bs [= <-]; (split; [done|by eexists]).
Qed.
Lemma w_nothing_carried : empty_carried.
Proof.
  intros t m Ht. split; [destruct t; try discriminate Ht; reflexivity|].
  intros bs He. assert (bs = []) as -> by (destruct t; try discriminate Ht; by injection He as <-).
  split; [done|]. exists []. done.
Qed.

Definition w_rt : Api.Route.t := Api.Route.mk "g" "h.example.com" "/a" false "127.128.0.1".

Lemma w_announced_distinct :
  distinct_routes (Routes.Upsert (capi_routes (capi (repos w_reported))) (to_model_route w_rt)).
Proof.
  assert (∀ g t, Routes.Get (Routes.Upsert (capi_routes (capi (repos w_reported))) (to_model_route w_rt)) g = Some t →
    t = to_model_route w_rt) as Honly.
  { intros g t Hg. unfold Routes.Get in Hg.
    change (<["g" := to_model_route w_rt]> (∅ : gmap string Route) !! g = Some t) in Hg.
    apply lookup_insert_Some in Hg as [[_ <-]|[_ Hg]]; [done|]. by rewrite lookup_empty in Hg. }
  intros g1 g2 t1 t2 H1 H2 _. by rewrite (Honly g1 t1 H1), (Honly g2 t2 H2).
Qed.

Lemma announced_route_is_served_witness :
  let rt := w_rt in
  ∃ client s', NewCloudControllerClient "127.0.0.1:9000" w_client_tls = inr client ∧
    cc_requests client (cc_port w_config w_server_tls w_reported) (announcement rt w_assoc 1) =
      Ret (cc_port w_config w_server_tls s', [inr (); inr (); inr ()]) ∧
    ∃ s'' out shot, sys_step ok_write s' (ATick [] (inr Nil)) (Ret (s'', out)) ∧
      snapshots (cache s'') !! node = Some shot.
Proof.
  intros rt.
  destruct (announced_route_is_served w_config w_server_tls w_client_tls "127.0.0.1:9000" w_reported
    rt w_assoc 1 eq_refl w_reported_reachable w_connectable w_nothing_carried w_announcement_carried)
    as (client & s' & Hd & Hcalls & _ & Hserved).
  - repeat split; discriminate.
  - vm_compute. discriminate.
  - exact w_announced_distinct.
  - destruct (Hserved Nil) as (s'' & out & shot & _ & _ & _ & _ & Hstep & Hsh & _).
    exists client, s'. split; [exact Hd|]. split; [exact Hcalls|]. by exists s'', out, shot.
Defined.

Lemma upserted_route_resolves_witness :
  (∃ client resolver s', NewCloudControllerClient "127.0.0.1:9000" w_client_tls = inr client ∧
    NewVIPResolverCopilotClient "127.0.0.1:9002" [WithInsecure] = inr resolver ∧
    cc_invoke client (cc_port w_config w_server_tls w_start) (CUpsertRoute w_up) =
      Ret (cc_port w_config w_server_tls s', inr mkUpsertRouteResponse) ∧
    client_GetVIPByName (vip_stub resolver (vip_port w_config s')) (mkGetVIPByNameRequest "h.example.com.") =
      Ret (vip_port w_config s', inr (mkGetVIPByNameResponse "127.128.0.1"))) ∧
  (∃ client resolver s', NewCloudControllerClient "127.0.0.1:9000" w_client_tls = inr client ∧
    NewVIPResolverCopilotClient "127.0.0.1:9002" [WithInsecure] = inr resolver ∧
    cc_invoke client (cc_port w_config w_server_tls w_start)
      (CUpsertRoute w_up_dotted) =
      Ret (cc_port w_config w_server_tls s', inr mkUpsertRouteResponse) ∧
    client_GetVIPByName (vip_stub resolver (vip_port w_config s')) (mkGetVIPByNameRequest "h.example.com.") =
      Ret (vip_port w_config s', inl (StatusError Unknown "route doesn't exist: h.example.com."))).
Proof.
  split.
  - destruct (upserted_route_resolves w_config w_server_tls w_client_tls "127.0.0.1:9000" w_start
      w_rt "127.0.0.1:9002" 1 w_connectable w_nothing_carried) as (client & resolver & s' & Hc & Hd & Hcall & Hans & _).
    + exact (proj1 (proj1 (Forall_cons _ _ _) w_announcement_carried)).
    + split; discriminate.
    + reflexivity.
    + reflexivity.
    + split; [reflexivity|]. intros bs [= <-]. split; [vm_compute; discriminate|done].
    + exists client, resolver, s'. split; [exact Hc|]. split; [exact Hd|]. split; [exact Hcall|].
      apply Hans; [reflexivity|]. split; [reflexivity|]. intros bs [= <-]. split; [vm_compute; discriminate|done].
  - destruct (upserted_route_resolves w_config w_server_tls w_client_tls "127.0.0.1:9000" w_start
      w_dotted "127.0.0.1:9002" 0 w_connectable w_nothing_carried) as (client & resolver & s' & Hc & Hd & Hcall & _ & Hans).
    + split; [by right|]. intros bs [= <-]. split; [vm_compute; discriminate|by eexists].
    + split; discriminate.
    + reflexivity.
    + reflexivity.
    + split; [reflexivity|]. intros bs [= <-]. split; [vm_compute; discriminate|done].
    + exists client, resolver, s'. split; [exact Hc|]. split; [exact Hd|]. split; [exact Hcall|].
      apply (Hans ltac:(discriminate) ltac:(discriminate) "" false eq_refl).
      split; [reflexivity|]. intros bs [= <-]. split; [vm_compute; discriminate|done].
Defined.
