(* ===== verification/Pipeline.v ===== *)
(** * From the Cloud Controller to Pilot

    Both ends of the server at once, over the wire: the Cloud Controller's client on its
    port ([Ports]) and Pilot's client on the MCP port ([Pilot]), with the server's ticks
    between them.  A call of the former is a few writes of the server, one tick carries
    their effect into the cache, and the stream brings it to the latter. *)
From S2P Require Import Prelude UniqueQueue GoStrings GoSort GoFloat Routes RouteMappings Associations.
From S2P Require Import BackendSets FixWeights Collector Api Handlers Wire Certs Istio GoSlices Sidecars.
From S2P Require Import Gateways DestinationRules ServiceEntries VirtualServices McpCache SnapshotLoop.
From S2P Require Import ServerConfig Tls Grpc Clients System Ports McpStream McpClient Delivery EndToEnd.
From S2P Require Import McpPort Fitting Pilot.

(** ** Properties *)
Section pipeline.
Context `{GrowSlice} `{MapOrder} `{Marshal} `{!Unmarshal} `{!McpCodec} `{!RoundTrip} `{UnicodeLower}.
Context `{FloatToInt} `{GoSyntax} `{X509} {K P : Type} `{!X509Verify K P} `{Codec} `{Compressors}.
Context `{GoQuote} `{Network}.
Context (cfg : Config) (stls ptls clientTLS pilotTLS : TLSConfig K P) (addr pilotAddr : string).

(** C1. From the Cloud Controller to Pilot: a server with a policy client, whose MCP port
    Pilot's client has dialled, after any history of fewer than 2^63 steps, errors of the
    stream, messages that do not fit and reopened streams included.  The Cloud
    Controller's client connects and sends a route, the association of a process and their
    mapping; each call succeeds.  If the process has a running backend on the route's side
    and no two routes can be confused, then one quiet tick is possible, and after it,
    whatever becomes of the stream: whenever it is up and at rest, Pilot's client has a
    virtual service that sends the route to the process at the port of one of its
    backends; a stream that stays up comes to rest; and as long as the client's connection
    opens streams it gets to one that is up, and that stays up if the collections of the
    published snapshot, and the requests for them, fit the limits of the transport. *)
Theorem announced_route_reaches_pilot (pc : PilotClient K P) (n : nat) (f : piloted K P) rt a weight
    (policies : gslice Policy) (Hc : PolicyServerDisabled cfg = false)
    (Hpc : NewPilotClient (grpcServerForMcp cfg ptls) pilotTLS pilotAddr = Some (inr pc))
    (Hn : (Z.of_nat n + 5 < 2 ^ 63)%Z) (Hf : pilot_reached cfg ptls ok_write (pilot_deploy cfg pc) n f)
    (Hconn : connectable cfg stls clientTLS addr) (Hempty : empty_carried)
    (Hcarried : Forall request_carried (announcement rt a weight))
    (Hvalid : valid_announcement rt a weight)
    (Hbackends : process_backends (world_of (repos (pserver f))) (Api.Route.Internal rt)
                   (announced_association a) ≠ [])
    (Hdist : distinct_routes (Routes.Upsert (capi_routes (capi (repos (pserver f)))) (to_model_route rt))) :
  ∃ client c, NewCloudControllerClient addr clientTLS = inr client ∧
    let s' := with_capi (pserver f) c in
    cc_requests client (cc_port cfg stls (pserver f)) (announcement rt a weight) =
      Ret (cc_port cfg stls s', [inr (); inr (); inr ()]) ∧
    let f' := mkPiloted s' (pstream f) (pconn f) in
    pilot_reached cfg ptls ok_write (pilot_deploy cfg pc) (3 + n) f' ∧
    (∃ f1, quiet_pilot_tick policies f' f1) ∧
    ∀ f1, quiet_pilot_tick policies f' f1 → brings_about cfg ptls f1 (λ u,
      client_routes u (to_model_route rt) (Api.Association.CapiProcessGuid a)
        (process_backends (world_of (repos (pserver f))) (Api.Route.Internal rt) (announced_association a))).
Proof.
  destruct (announcement_ops rt a weight Hvalid) as [Hwf Hops].
  destruct (cc_requests_done cfg stls clientTLS addr (pserver f) _ _ Hconn Hempty Hcarried Hwf Hops)
    as (client & Hd & Hcalls & Hw). simpl in Hcalls, Hw.
  set (c := with_mappings _ _) in Hcalls, Hw. exists client, c.
  split; [done|]. intros s'. split; [exact Hcalls|]. intros f'.
  assert (pilot_reached cfg ptls ok_write (pilot_deploy cfg pc) (3 + n) f') as Hf'
    by exact (pilot_reached_writes _ _ _ _ _ _ _ Hf Hw).
  split; [exact Hf'|].
  apply (quiet_tick_reaches_pilot cfg ptls pc (3 + n) f' policies
    (RouteMappings.Key (announced_mapping rt a weight)) (announced_mapping rt a weight) (to_model_route rt)
    (announced_association a) Hc).
  - exact (dialled_client _ _ _ _ Hpc).
  - lia.
  - exact Hf'.
  - apply lookup_insert_eq.
  - apply lookup_insert_eq.
  - apply lookup_insert_eq.
  - exact Hbackends.
  - exact Hdist.
Qed.
End pipeline.

(** ** Witnesses *)
Section witness.
#[local] Existing Instances go_grow asc_order transparent transparent_unmarshal ascii_only amd64 w_syntax.
#[local] Existing Instances w_x509 w_verify w_store w_network w_quote w_ports_codec w_verbatim w_roundtrip.
#[local] Instance w_any : EqDecision (@any transparent) := proto_eq_dec.

(** What the three calls make of the repositories, and what the tick after them publishes. *)
Definition w_called : server_capi :=
  match NewCloudControllerClient "127.0.0.1:9000" w_client_tls with
  | inr client =>
      match cc_requests client (cc_port w_config w_server_tls w_reported) (announcement w_rt w_assoc 1) with
      | Ret (s, _) => state s
      | Panic _ => empty_capi
      end
  | inl _ => empty_capi
  end.
Definition w_called_system : system := with_capi w_reported w_called.
Definition w_ticked : system * list (push Resource) :=
  match tick_system w_called_system (env_of [] (repos w_called_system)) (repos w_called_system) (inr Nil) with
  | Ret r => r
  | Panic _ => (w_called_system, [])
  end.
Definition w_announced : InMemory Resource := default (mkInMemory ∅ ∅) (snapshots (cache w_ticked.1) !! node).
#[local] Instance w_piped : McpCodec := table_codec client_typeURLs [w_announced].

(** The stream the client opened, as the tick left it, and moves that bring it to rest. *)
Definition w_stream_up : pilot_stream :=
  open_stream (CollectionOptionsFromSlice typeURLs) "peer" 1 (sinkClient (McpPort.pilot w_pilot)).
Definition w_open : piloted string string := mkPiloted w_reported w_stream_up (McpPort.conn w_pilot).
Definition w_pushed : pilot_stream := with_source w_stream_up (deliver (source w_stream_up) w_ticked.2).
Definition w_announced_piloted : piloted string string := mkPiloted w_ticked.1 w_pushed (McpPort.conn w_pilot).
Definition w_piped_moves : list move := drain_pilot 200 (cache (pserver w_announced_piloted)) (pstream w_announced_piloted).
Definition w_rested : Cache Resource * pilot_stream :=
  default (cache (pserver w_announced_piloted), pstream w_announced_piloted)
    (moves_pilot IndexFunction (cache (pserver w_announced_piloted)) (pstream w_announced_piloted) w_piped_moves).

Definition w_rested_piloted : piloted string string :=
  mkPiloted (with_cache (pserver w_announced_piloted) w_rested.1) w_rested.2 (pconn w_announced_piloted).

Lemma w_open_reached : pilot_reached w_config w_server_tls ok_write (pilot_deploy w_config w_pilot) 4 w_open.
Proof.
  refine (pilot_reached_writes w_config w_server_tls _ 1 (mkPiloted w_start w_stream_up (McpPort.conn w_pilot))
    (drop 3 w_writes) _ _ _).
  - eapply pilot_next; [apply pilot_start|]. apply pilot_event, (event_opened _ _ (pilot_deploy w_config w_pilot)).
    + discriminate.
    + vm_compute. reflexivity.
    + intros g i rw. unfold open_watches. simpl. by rewrite lookup_empty.
  - apply ok_run_writes. vm_compute. repeat split. eexists. split; [reflexivity|]. repeat constructor.
    by eexists.
Qed.

Lemma w_rests : rtc (stream_event w_config w_server_tls) w_announced_piloted w_rested_piloted ∧ pilot_at_rest w_rested_piloted.
Proof.
  split.
  - apply (moves_events w_config w_server_tls w_announced_piloted w_piped_moves).
    rewrite <-surjective_pairing. apply Some_default. vm_compute. reflexivity.
  - split; [vm_compute; split; reflexivity|]. intros m. destruct m; vm_compute; reflexivity.
Qed.

(** What is published fits. *)
Lemma w_served_fits : served_fits w_announced_piloted.
Proof.
  intros shot Hs. assert (pserver w_announced_piloted = w_ticked.1) as Ep by (unfold w_announced_piloted; reflexivity).
  rewrite Ep in Hs. assert (w_announced = shot) as <- by (unfold w_announced; by rewrite Hs).
  apply all_fit. vm_compute. reflexivity.
Qed.

Lemma w_called_state client c r :
  NewCloudControllerClient "127.0.0.1:9000" w_client_tls = inr client →
  cc_requests client (cc_port w_config w_server_tls w_reported) (announcement w_rt w_assoc 1) =
    Ret (cc_port w_config w_server_tls (with_capi w_reported c), r) → c = w_called.
Proof.
  intros Hd Hcalls. unfold w_called. rewrite Hd, Hcalls. done.
Qed.

(** The client reads the route off the stream it opened before the calls, and off a new one. *)
Lemma announced_route_reaches_pilot_witness :
  ∃ client f1 f2 vss vs hr, NewCloudControllerClient "127.0.0.1:9000" w_client_tls = inr client ∧
    cc_requests client (cc_port w_config w_server_tls w_reported) (announcement w_rt w_assoc 1) =
      Ret (cc_port w_config w_server_tls w_called_system, [inr (); inr (); inr ()]) ∧
    quiet_pilot_tick Nil (mkPiloted w_called_system w_stream_up (McpPort.conn w_pilot)) f1 ∧
    rtc (stream_event w_config w_server_tls) f1 f2 ∧ alive (pstream f2) ∧
    GetAllVirtualServices (updater (sink (pstream f2))) = Ret vss ∧ vs ∈ vss ∧
    VsHosts vs = ["h.example.com"] ∧ hr ∈ VsHttp vs ∧ MatchPrefix hr = Some "/a" ∧
    ∃ f3 f4 vss', rtc (stream_event w_config w_server_tls) f1 f3 ∧ stays_up f3 ∧
      rtc (stream_event w_config w_server_tls) f3 f4 ∧ pilot_at_rest f4 ∧
      GetAllVirtualServices (updater (sink (pstream f4))) = Ret vss' ∧ vss' ≠ [].
Proof.
  destruct (announced_route_reaches_pilot w_config w_server_tls w_server_tls w_client_tls w_client_tls
    "127.0.0.1:9000" "127.0.0.1:9001" w_pilot 4 w_open w_rt w_assoc 1 Nil eq_refl)
    as (client & c & Hd & Hcalls & _ & (f1 & Ht) & Hall).
  - vm_compute. reflexivity.
  - lia.
  - exact w_open_reached.
  - exact w_connectable.
  - exact w_nothing_carried.
  - exact w_announcement_carried.
  - repeat split; discriminate.
  - vm_compute. discriminate.
  - exact w_announced_distinct.
  - pose proof (w_called_state client c _ Hd Hcalls) as ->.
    assert (f1 = w_announced_piloted) as ->.
    { apply (quiet_pilot_tick_is Nil _ f1 w_ticked.1 w_ticked.2 Ht).
      rewrite <-surjective_pairing. apply Ret_default. vm_compute. exact I. }
    destruct w_rests as [Hev Hrest]. destruct (Hall w_announced_piloted Ht) as (Ho & Hup & Hr).
    destruct (Hr w_rested_piloted Hev Hrest) as (vss & vs & hr & d & ? & ? & ? & ? & _ & ? & _).
    exists client, w_announced_piloted, w_rested_piloted, vss, vs, hr.
    split; [exact Hd|]. split; [exact Hcalls|]. split; [exact Ht|].
    split; [exact Hev|]. split; [exact (proj1 Hrest)|]. do 5 (split; [assumption|]).
    destruct Ho as (f3 & Hev3 & _ & Hup3); [vm_compute; reflexivity|]. specialize (Hup3 w_served_fits).
    destruct (Hup f3 Hev3 Hup3) as (f4 & Hev4 & Hrest4).
    destruct (Hr f4 (transitivity Hev3 Hev4) Hrest4) as (vss' & vs' & _ & _ & ? & Hvs & _).
    exists f3, f4, vss'. do 5 (split; [assumption|]). intros E. rewrite E in Hvs. by apply not_elem_of_nil in Hvs.
Defined.
End witness.
