(* ===== verification/Lifecycle.v ===== *)
(** * The life of the server's processes ([cmd/copilot-server/main.go])

    [mainWithError] ends by running its five members as one ordered group: each is
    started when the one before is ready, and on a signal or an exit the started ones
    are stopped in reverse order.  The group and the signal monitor are the vendored
    [github.com/tedsuo/ifrit] ([grouper/ordered.go], [process.go], [sigmon/sigmon.go]),
    the gRPC members the vendored [grpcrunner]; the other members are the [Run] methods
    of the snapshot loop and of the backend sets.  What the members do while they serve
    is [System]; here it is how they start, take a signal and exit, as one transition
    system of the group and its processes.  Between two of its selects the group does
    not wait, so one step takes it from one select to the next. *)
From S2P Require Import Prelude BackendSets SnapshotLoop ServerConfig System.

(** ** Processes *)
Inductive signal := SIGINT | SIGTERM | SIGQUIT.
Global Instance signal_eq_dec : EqDecision signal.
Proof. solve_decision. Defined.

(** [os.Interrupt]. *)
Definition Interrupt : signal := SIGINT.

(** What [Run] is called on. *)
Inductive runner :=
| GrpcServer (listenAddr : string)
| SnapshotRunner
| NoopUpdater
| DiegoUpdater.

(** A member in [Setup] has not closed its ready channel; a gRPC server that has taken
    a signal drains its connections. *)
Inductive phase := Setup | Serving | Draining | Exited (err : option string).

(** [busy] counts the open connections of a gRPC server, and is one while the
    snapshot loop is in a round; [signalled] is whether a signal was sent. *)
Record process := mkProcess {
  phase_of : phase; is_ready : bool; signalled : bool; busy : nat;
}.

Definition Background : process := mkProcess Setup false false 0.

(** [Signal] does not wait for the signal to be taken. *)
Definition Signal (p : process) : process := mkProcess (phase_of p) (is_ready p) true (busy p).

(** What happens in a process, or to it. *)
Inductive process_event :=
| PReady                      (* the setup succeeds: [close(ready)] *)
| PFail (err : string)        (* the setup fails *)
| POpen                       (* a connection is accepted, a round begins *)
| PClose                      (* a connection is closed, a round ends *)
| PServeFails (err : string)  (* [Serve] returns *)
| PTakeSignal                 (* the select takes a signal *)
| PDrained.                   (* [GracefulStop] returns *)

(** Listening and subscribing to the BBS can fail. *)
Definition setup_can_fail (r : runner) : bool :=
  match r with GrpcServer _ | DiegoUpdater => true | SnapshotRunner | NoopUpdater => false end.

(** The steps of the [Run] methods; [None] when the event cannot happen. *)
Definition run_step (r : runner) (p : process) (e : process_event) : option process :=
  let '(mkProcess ph rdy sig n) := p in
  match e, ph with
  | PReady, Setup => Some (mkProcess Serving true sig n)
  | PFail err, Setup =>
      if setup_can_fail r then Some (mkProcess (Exited (Some err)) rdy sig n) else None
  | POpen, Serving =>
      match r, n with
      | GrpcServer _, _ | SnapshotRunner, 0 => Some (mkProcess Serving rdy sig (S n))
      | _, _ => None
      end
  | PClose, (Serving | Draining) =>
      match n with 0 => None | S n => Some (mkProcess ph rdy sig n) end
  | PServeFails err, Serving =>
      match r with
      | GrpcServer _ => Some (mkProcess (Exited (Some err)) rdy sig n)
      | _ => None
      end
  | PTakeSignal, Serving =>
      if sig then
        match r, n with
        | GrpcServer _, _ => Some (mkProcess Draining rdy sig n)
        | SnapshotRunner, S _ => None
        | _, _ => Some (mkProcess (Exited None) rdy sig n)
        end
      else None
  | PDrained, Draining =>
      match n with 0 => Some (mkProcess (Exited None) rdy sig 0) | S _ => None end
  | _, _ => None
  end.

(** ** The ordered group *)
Record ExitEvent := mkExitEvent { Member : string; Err : option string }.

Inductive group_error :=
| ErrDuplicateNames (names : list string)
| ErrorTrace (events : list ExitEvent).

(** The select at which the group waits, or what it returned. *)
Inductive position :=
| Starting
| Running
| Stopping (i : nat) (sig : signal) (exited : list string) (trace : list ExitEvent)
| Returned (err : option group_error).

(** [pool] has the processes of the members started so far, in the members' order. *)
Record group := mkGroup {
  members : list (string * runner);
  pool : list process;
  at_select : position;
}.

(** [Members.Validate]. *)
Fixpoint duplicateNames (found : list string) (names : list string) : list string :=
  match names with
  | [] => []
  | name :: names =>
      if decide (name ∈ found) then name :: duplicateNames found names
      else duplicateNames (name :: found) names
  end.

Definition errOccurred (trace : list ExitEvent) : bool :=
  existsb (λ e, bool_decide (is_Some (Err e))) trace.

Definition with_pool (g : group) (pool : list process) (pos : position) : group :=
  mkGroup (members g) pool pos.

(** The next round of [orderedStart], or its end. *)
Definition start_next (g : group) : group :=
  if decide (length (pool g) < length (members g))
  then with_pool g (pool g ++ [Background]) Starting
  else with_pool g (pool g) Running.

(** The loop of [stop], from the member below [i] on. *)
Fixpoint stop_next (g : group) (i : nat) (sig : signal) (exited : list string)
    (trace : list ExitEvent) : group :=
  match i with
  | 0 => with_pool g (pool g)
           (Returned (if errOccurred trace then Some (ErrorTrace trace) else None))
  | S i =>
      match members g !! i with
      | Some m =>
          if decide (m.1 ∈ exited) then stop_next g i sig exited trace
          else with_pool g (alter Signal i (pool g)) (Stopping i sig exited trace)
      | None => stop_next g i sig exited trace
      end
  end.

Definition stop (g : group) (sig : signal) (trace : list ExitEvent) : group :=
  stop_next g (length (pool g)) sig (Member <$> trace) trace.

(** [Run] up to its first select. *)
Definition run_group (members : list (string * runner)) : group :=
  match duplicateNames [] members.*1 with
  | [] => start_next (mkGroup members [] Starting)
  | names => mkGroup members [] (Returned (Some (ErrDuplicateNames names)))
  end.

(** A step of a process, a receive from a ready or a wait channel, or a signal to the
    process, which the monitor passes on. *)
Inductive group_event :=
| LProc (j : nat) (e : process_event)
| LReady
| LExit (j : nat)
| LSignal (sig : signal).

Definition exit_event (g : group) (j : nat) : option ExitEvent :=
  m ← members g !! j; p ← pool g !! j;
  match phase_of p with Exited err => Some (mkExitEvent m.1 err) | _ => None end.

Definition group_step (g : group) (e : group_event) : option group :=
  match e with
  | LProc j e =>
      m ← members g !! j; p ← pool g !! j; p ← run_step m.2 p e;
      Some (with_pool g (<[j := p]> (pool g)) (at_select g))
  | LReady =>
      match at_select g with
      | Starting =>
          p ← last (pool g); if is_ready p then Some (start_next g) else None
      | _ => None
      end
  | LExit j =>
      ev ← exit_event g j;
      match at_select g with
      | Starting | Running => Some (stop g Interrupt [ev])
      | Stopping i sig exited trace =>
          if decide (j = i) then Some (stop_next g i sig exited (trace ++ [ev])) else None
      | Returned _ => None
      end
  | LSignal sig =>
      match at_select g with
      | Starting | Running => Some (stop g sig [])
      | Stopping i sig' exited trace =>
          Some (if decide (sig = sig') then g
                else with_pool g (alter Signal i (pool g)) (Stopping i sig exited trace))
      | Returned _ => None
      end
  end.

(** Events one after the other. *)
Fixpoint group_run (g : group) (es : list group_event) : option group :=
  match es with [] => Some g | e :: es => g ← group_step g e; group_run g es end.

(** ** The server *)
(** The members of [mainWithError]. *)
Definition server_members (c : Config) : list (string * runner) := [
  ("grpc-server-for-cloud-controller", GrpcServer (ListenAddressForCloudController c));
  ("grpc-server-for-vip-resolver", GrpcServer (ListenAddressForVIPResolver c));
  ("grpc-server-for-mcp", GrpcServer (ListenAddressForMCP c));
  ("mcp-snapshot", SnapshotRunner);
  ("diego-backend-set-updater",
    match NewBackendSetRepo (BBS c) with
    | NoopBackendSetRepo => NoopUpdater
    | DiegoBackendSetRepo _ => DiegoUpdater
    end)].

(** How [main] ends the process when [mainWithError] has returned an error or nil. *)
Definition main {E} (err : option E) : Z := match err with Some _ => 1 | None => 0 end.

(** ** Specification *)
Definition has_exited (p : process) : Prop := ∃ err, phase_of p = Exited err.

(** What the phases imply: in particular, only a signal ends a process without error. *)
Definition process_ok (p : process) : Prop :=
  match phase_of p with
  | Setup => is_ready p = false
  | Serving => is_ready p = true
  | Draining | Exited None => is_ready p = true ∧ signalled p = true
  | Exited (Some _) => True
  end.

Record wf (g : group) : Prop := mkWf {
  wf_names : NoDup (members g).*1;
  wf_len : length (pool g) ≤ length (members g);
  wf_ok : Forall process_ok (pool g);
  wf_ready : ∀ j p, pool g !! j = Some p → S j < length (pool g) → is_ready p = true;
}.

Definition unsignalled_below (g : group) (i : nat) : Prop :=
  ∀ k p, pool g !! k = Some p → k < i → signalled p = false.

(** A trace has one event of each member in [exited] and of each from [i] on. *)
Definition trace_from (g : group) (i : nat) (exited : list string) (trace : list ExitEvent) : Prop :=
  NoDup (Member <$> trace) ∧
  (∀ ev, ev ∈ trace → ∃ j, exit_event g j = Some ev) ∧
  ∀ n, n ∈ Member <$> trace ↔
    n ∈ exited ∨ ∃ k m, i ≤ k < length (pool g) ∧ members g !! k = Some m ∧ m.1 = n.

Definition result (trace : list ExitEvent) : option group_error :=
  if errOccurred trace then Some (ErrorTrace trace) else None.

Definition group_inv (g : group) : Prop :=
  wf g ∧
  match at_select g with
  | Starting => 0 < length (pool g) ∧ unsignalled_below g (length (pool g))
  | Running =>
      length (pool g) = length (members g) ∧ unsignalled_below g (length (pool g)) ∧
      Forall (λ p, is_ready p = true) (pool g)
  | Stopping i sig exited trace =>
      unsignalled_below g i ∧ trace_from g (S i) exited trace ∧
      ∃ m p, members g !! i = Some m ∧ m.1 ∉ exited ∧ pool g !! i = Some p ∧ signalled p = true
  | Returned err => ∃ exited trace, trace_from g 0 exited trace ∧ err = result trace
  end.

(** The exits of the started members, in the members' order. *)
Definition exit_events (g : group) : list ExitEvent :=
  omap (exit_event g) (seq 0 (length (pool g))).

(** Work the group has left without new connections, rounds and signals. *)
Definition process_work (p : process) : nat :=
  match phase_of p with Setup => 3 | Serving => 2 | Draining => 1 | Exited _ => 0 end + busy p.
Definition rank (n : nat) (pos : position) : nat :=
  match pos with
  | Starting => n + 2 | Running => n + 1 | Stopping i _ _ _ => S i | Returned _ => 0
  end.
Definition group_work (g : group) : nat :=
  sum_list_with process_work (pool g) + 4 * (length (members g) - length (pool g))
  + rank (length (members g)) (at_select g).

(** Connections and rounds that begin, and signals, are not up to the group. *)
Definition opens (e : group_event) : bool := match e with LProc _ POpen => true | _ => false end.
Definition signals (e : group_event) : bool := match e with LSignal _ => true | _ => false end.
Definition count (f : group_event → bool) (es : list group_event) : nat :=
  length (filter (λ e, f e = true) es).

(** ** Lemmas: one process *)
(** How a process changes while a group waits. *)
Definition evolves (p p' : process) : Prop :=
  (is_ready p = true → is_ready p' = true) ∧ (process_ok p → process_ok p') ∧
  ∀ err, phase_of p = Exited err → phase_of p' = Exited err.

Global Instance evolves_refl : Reflexive evolves.
Proof. by intros p. Qed.

Lemma Signal_evolves p : evolves p (Signal p).
Proof. destruct p as [[| | |[]] ? ? ?]; split_and!; try done. all: by intros []. Qed.

Lemma run_step_evolves r p e p' :
  run_step r p e = Some p' → evolves p p' ∧ signalled p' = signalled p.
Proof.
  destruct p as [ph rdy sig n]. unfold evolves, process_ok. intros Hs.
  destruct e, ph, r; simpl in Hs; try done; repeat case_match; simplify_eq; simpl; naive_solver.
Qed.

Lemma run_step_work r p e p' :
  run_step r p e = Some p' →
  match e with POpen => process_work p' = S (process_work p) | _ => process_work p' < process_work p end.
Proof.
  destruct p as [ph rdy sig n]. unfold process_work. intros Hs.
  destruct e, ph, r; simpl in Hs; try done; repeat case_match; simplify_eq; simpl; lia.
Qed.

(** A signalled process that has not exited can move on by itself or by a [PClose]. *)
Lemma signalled_moves r p :
  signalled p = true → ¬ has_exited p →
  ∃ e, e ≠ POpen ∧ is_Some (run_step r p e).
Proof.
  unfold has_exited. destruct p as [ph rdy sig n]. simpl. intros -> Hne. destruct ph.
  - exists PReady. split; [done|]. simpl. eauto.
  - destruct r, n; try (exists PTakeSignal; split; [done|]; simpl; by eauto).
    exists PClose. split; [done|]. simpl. eauto.
  - destruct n; [exists PDrained|exists PClose]; (split; [done|]; simpl; eauto).
  - destruct Hne. eauto.
Qed.

(** ** Lemmas: the group's position *)
Lemma lookup_with_pool (g : group) pool' pos k : pool (with_pool g pool' pos) !! k = pool' !! k.
Proof. done. Qed.

Lemma exit_event_evolve g pool' pos k ev :
  Forall2 evolves (pool g) pool' → exit_event g k = Some ev →
  exit_event (with_pool g pool' pos) k = Some ev.
Proof.
  intros Hev He. unfold exit_event in *. simpl. destruct (members g !! k) as [m|]; [|done].
  simpl in *. destruct (pool g !! k) as [p|] eqn:Hp; [|done]. simpl in *.
  destruct (Forall2_lookup_l _ _ _ _ _ Hev Hp) as (p' & -> & Hp'). simpl.
  destruct (phase_of p) eqn:E; try done. destruct Hp' as (_ & _ & Hx). by rewrite (Hx _ E).
Qed.

Lemma wf_evolve g pool' pos :
  Forall2 evolves (pool g) pool' → wf g → wf (with_pool g pool' pos).
Proof.
  intros Hev [Hn Hl Hok Hr]. pose proof (Forall2_length _ _ _ Hev) as Hlen. split; simpl.
  - done.
  - by rewrite <-Hlen.
  - apply Forall_lookup. intros k p' Hp'.
    destruct (Forall2_lookup_r _ _ _ _ _ Hev Hp') as (p & Hp & _ & Hok' & _).
    by apply Hok', (Forall_lookup_1 _ _ _ _ Hok Hp).
  - intros j p' Hp' Hj. destruct (Forall2_lookup_r _ _ _ _ _ Hev Hp') as (p & Hp & Hrdy & _).
    apply Hrdy, (Hr j p Hp). by rewrite Hlen.
Qed.

Lemma trace_from_evolve g pool' pos i exited trace :
  Forall2 evolves (pool g) pool' → trace_from g i exited trace →
  trace_from (with_pool g pool' pos) i exited trace.
Proof.
  intros Hev (Hnd & He & Hn). pose proof (Forall2_length _ _ _ Hev) as Hlen.
  split_and!; [done| |].
  - intros ev Hin. destruct (He ev Hin) as [j Hj]. exists j. by apply exit_event_evolve.
  - simpl. by rewrite <-Hlen.
Qed.

Lemma alter_Signal_evolves i (l : list process) : Forall2 evolves l (alter Signal i l).
Proof.
  apply Forall2_same_length_lookup_2; [by rewrite length_alter|].
  intros k p p' Hp. rewrite list_lookup_alter, Hp. case_decide; [subst; rewrite Hp|]; intros; simplify_eq/=.
  - apply Signal_evolves.
  - done.
Qed.

Lemma insert_evolves (l : list process) j p p' :
  l !! j = Some p → evolves p p' → Forall2 evolves l (<[j := p']> l).
Proof.
  intros Hp He. apply Forall2_same_length_lookup_2; [by rewrite length_insert|].
  intros k q q' Hq. rewrite list_lookup_insert. case_decide as Hk; intros Hq'.
  - destruct Hk as [-> _]. by simplify_eq.
  - by simplify_eq.
Qed.

Lemma exit_event_lookup g j ev :
  exit_event g j = Some ev ↔
  ∃ m p, members g !! j = Some m ∧ pool g !! j = Some p ∧
    phase_of p = Exited (Err ev) ∧ Member ev = m.1.
Proof.
  unfold exit_event. destruct (members g !! j) as [m|]; simpl; [|naive_solver].
  destruct (pool g !! j) as [p|]; simpl; [|naive_solver].
  destruct ev as [n err], (phase_of p) eqn:E; split; simpl; try naive_solver.
  all: intros (? & ? & ? & ? & ? & ?); simplify_eq; congruence.
Qed.

Lemma same_member g i j m m' :
  wf g → members g !! i = Some m → members g !! j = Some m' → m.1 = m'.1 → i = j.
Proof.
  intros Hwf Hi Hj E. eapply (NoDup_lookup (members g).*1 i j m.1); [apply Hwf| |].
  - by rewrite list_lookup_fmap, Hi.
  - by rewrite list_lookup_fmap, Hj, E.
Qed.

(** Who is in the trace has exited. *)
Lemma traced_exited g i exited trace k p :
  wf g → trace_from g i exited trace → i ≤ k → pool g !! k = Some p → has_exited p.
Proof.
  intros Hwf (_ & He & Hn) Hik Hp. pose proof (lookup_lt_Some _ _ _ Hp) as Hk.
  destruct (lookup_lt_is_Some_2 (members g) k) as [m Hm]; [pose proof (wf_len g Hwf); lia|].
  assert (m.1 ∈ Member <$> trace) as (ev & E & Hin)%list_elem_of_fmap.
  { apply Hn. right. by exists k, m. }
  destruct (He ev Hin) as [j (m' & p' & Hm' & Hp' & Hph & Hname)%exit_event_lookup].
  assert (k = j) as -> by (apply (same_member g k j m m' Hwf); congruence).
  simplify_eq. unfold has_exited. eauto.
Qed.

Lemma trace_from_snoc g i m exited trace ev :
  wf g → trace_from g (S i) exited trace → members g !! i = Some m → m.1 ∉ exited →
  exit_event g i = Some ev → trace_from g i exited (trace ++ [ev]).
Proof.
  intros Hwf (Hnd & He & Hn) Hm Hex Hev.
  pose proof Hev as (m' & p & Hm2 & Hp & _ & Hname)%exit_event_lookup. simplify_eq.
  pose proof (lookup_lt_Some _ _ _ Hp) as Hi. unfold trace_from.
  rewrite fmap_app. simpl. rewrite Hname. split_and!.
  - apply NoDup_app. split; [done|]. split; [|apply NoDup_singleton].
    intros n Hin ->%list_elem_of_singleton. apply Hn in Hin as [?|(k & mk & Hk & Hmk & E)]; [done|].
    pose proof (same_member g k i mk m Hwf Hmk Hm E). lia.
  - intros e [Hin| ->%list_elem_of_singleton]%elem_of_app; eauto.
  - intros n. rewrite elem_of_app, Hn, list_elem_of_singleton. split.
    + intros [[?|(k & mk & Hk & ?)]| ->]; [by left| |]; right; [exists k, mk|exists i, m]; auto with lia.
    + intros [?|(k & mk & Hk & Hmk & <-)]; [by left; left|].
      destruct (decide (k = i)) as [->|]; [right; congruence|].
      left. right. exists k, mk. auto with lia.
Qed.

Lemma trace_from_skip g i m exited trace :
  trace_from g (S i) exited trace → members g !! i = Some m → m.1 ∈ exited →
  trace_from g i exited trace.
Proof.
  intros (Hnd & He & Hn) Hm Hex. split_and!; [done..|]. intros n. rewrite Hn. split.
  - intros [?|(k & mk & Hk & ?)]; [by left|]. right. exists k, mk. auto with lia.
  - intros [?|(k & mk & Hk & Hmk & <-)]; [by left|].
    destruct (decide (k = i)) as [->|]; [left; congruence|]. right. exists k, mk. auto with lia.
Qed.

Lemma wf_move g pos : wf g → wf (with_pool g (pool g) pos).
Proof. apply wf_evolve. reflexivity. Qed.
Lemma trace_from_move g pos i exited trace :
  trace_from g i exited trace → trace_from (with_pool g (pool g) pos) i exited trace.
Proof. apply trace_from_evolve. reflexivity. Qed.

Lemma stop_next_inv g i sig exited trace :
  wf g → i ≤ length (pool g) → unsignalled_below g i → trace_from g i exited trace →
  group_inv (stop_next g i sig exited trace).
Proof.
  intros Hwf. revert trace. induction i as [|i IH]; intros trace Hi Hun Ht; simpl.
  - split; [by apply wf_move|]. exists exited, trace. split; [by apply trace_from_move|done].
  - assert (unsignalled_below g i) as Hun' by (intros k p ??; apply (Hun k p); [done|lia]).
    pose proof (wf_len g Hwf).
    destruct (lookup_lt_is_Some_2 (members g) i) as [m Hm]; [lia|]. rewrite Hm.
    case_decide; [apply IH; [lia|done|by eapply trace_from_skip]|].
    split; [by apply wf_evolve, Hwf; apply alter_Signal_evolves|]. split_and!.
    + intros k p Hp Hk. simpl in Hp. rewrite list_lookup_alter_ne in Hp by lia. by apply (Hun' k p).
    + by apply trace_from_evolve; [apply alter_Signal_evolves|].
    + destruct (lookup_lt_is_Some_2 (pool g) i) as [p Hp]; [lia|].
      exists m, (Signal p). simpl. by rewrite list_lookup_alter_eq, Hp.
Qed.

Lemma stop_inv g sig trace :
  wf g → unsignalled_below g (length (pool g)) → NoDup (Member <$> trace) →
  (∀ ev, ev ∈ trace → ∃ j, exit_event g j = Some ev) → group_inv (stop g sig trace).
Proof.
  intros Hwf Hun Hnd He. apply stop_next_inv; [done..|]. split_and!; [done..|].
  intros n. split; [by left|]. intros [?|(k & ? & ? & ?)]; [done|lia].
Qed.

Lemma start_next_inv g :
  wf g → unsignalled_below g (length (pool g)) → Forall (λ p, is_ready p = true) (pool g) →
  group_inv (start_next g).
Proof.
  intros Hwf Hun Hr. unfold start_next. pose proof (wf_len g Hwf). case_decide as Hlt.
  - split; [|split].
    + destruct Hwf as [Hn Hl Hok Hrd]. split; simpl.
      * done.
      * rewrite length_app. simpl. lia.
      * by apply Forall_app; split; [|repeat constructor].
      * intros j p [Hp|[? Hp]]%lookup_app_Some Hj; [by apply (Forall_lookup_1 _ _ _ _ Hr Hp)|].
        apply list_lookup_singleton_Some in Hp as [? <-]. rewrite length_app in Hj. simpl in Hj. lia.
    + simpl. rewrite length_app. simpl. lia.
    + intros k p Hp _. simpl in Hp. apply lookup_app_Some in Hp as [Hp|[_ Hp]].
      * by apply (Hun k p); [|apply lookup_lt_Some in Hp].
      * by apply list_lookup_singleton_Some in Hp as [? <-].
  - split; [by apply wf_move|]. split_and!; simpl; [lia|done..].
Qed.

Lemma duplicateNames_nil found names :
  NoDup names → (∀ n, n ∈ names → n ∉ found) → duplicateNames found names = [].
Proof.
  revert found. induction names as [|n names IH]; intros found Hnd Hdis; [done|].
  apply NoDup_cons in Hnd as [Hn Hnd]. simpl. rewrite decide_False by (apply Hdis; by left).
  apply IH; [done|]. intros n' Hn' [->|?]%elem_of_cons; [done|]. by apply (Hdis n'); [right|].
Qed.

Lemma run_group_start ms : NoDup ms.*1 → run_group ms = start_next (mkGroup ms [] Starting).
Proof.
  intros Hnd. unfold run_group. rewrite duplicateNames_nil; [done|done|].
  intros n _. apply not_elem_of_nil.
Qed.

Lemma run_group_inv ms : NoDup ms.*1 → group_inv (run_group ms).
Proof.
  intros Hnd. rewrite run_group_start by done.
  apply start_next_inv; [|by intros k p Hp|by constructor].
  split; simpl; [done|lia|by constructor|done].
Qed.

(** ** Lemmas: the group's steps *)
Lemma exited_signalled g j ev :
  wf g → exit_event g j = Some ev → Err ev = None →
  ∃ p, pool g !! j = Some p ∧ signalled p = true.
Proof.
  intros Hwf (m & p & _ & Hp & Hph & _)%exit_event_lookup He.
  pose proof (Forall_lookup_1 _ _ _ _ (wf_ok g Hwf) Hp) as Hok.
  unfold process_ok in Hok. rewrite Hph, He in Hok. naive_solver.
Qed.

Lemma proc_step_inv g j m p e p' :
  group_inv g → members g !! j = Some m → pool g !! j = Some p → run_step m.2 p e = Some p' →
  group_inv (with_pool g (<[j := p']> (pool g)) (at_select g)).
Proof.
  intros [Hwf Hpos] Hm Hp Hs. destruct (run_step_evolves _ _ _ _ Hs) as [Hev Hsig].
  pose proof (insert_evolves (pool g) j p p' Hp Hev) as Hall.
  assert (∀ i, unsignalled_below g i →
    unsignalled_below (with_pool g (<[j := p']> (pool g)) (at_select g)) i) as Hun.
  { intros i Hi k q Hq Hk. simpl in Hq. rewrite list_lookup_insert in Hq.
    case_decide as Hjk; [|by apply (Hi k q)]. destruct Hjk as [-> _]. simplify_eq.
    rewrite Hsig. by apply (Hi k p). }
  split; [by apply wf_evolve|]. simpl.
  destruct (at_select g) as [| |i sig exited trace|err]; rewrite ?length_insert.
  - split; [|apply Hun]; apply Hpos.
  - destruct Hpos as (? & ? & Hr). split_and!; [done|by apply Hun|].
    apply Forall_insert; [done|]. apply Hev. by apply (Forall_lookup_1 _ _ _ _ Hr Hp).
  - destruct Hpos as (Hi & Ht & mi & pi & Hmi & Hex & Hpi & Hsi).
    split_and!; [by apply Hun|by apply trace_from_evolve|].
    destruct (decide (j = i)) as [->|Hne].
    + simplify_eq. exists mi, p'. rewrite list_lookup_insert_eq by (by eapply lookup_lt_Some).
      split_and!; [done..|]. congruence.
    + exists mi, pi. by rewrite list_lookup_insert_ne by done.
  - destruct Hpos as (exited & trace & Ht & ->). exists exited, trace.
    split; [by apply trace_from_evolve|done].
Qed.

Lemma group_step_inv g e g' : group_inv g → group_step g e = Some g' → group_inv g'.
Proof.
  intros Hinv Hs. pose proof Hinv as [Hwf Hpos]. destruct e as [j e| |j|sig]; simpl in Hs.
  - apply bind_Some in Hs as (m & Hm & Hs). apply bind_Some in Hs as (p & Hp & Hs).
    apply bind_Some in Hs as (p' & Hs & [= <-]). by eapply proc_step_inv.
  - destruct (at_select g); try done. apply bind_Some in Hs as (p & Hp & Hs).
    destruct (is_ready p) eqn:Hr; [|done]. injection Hs as <-.
    destruct Hpos as [Hlen Hun]. apply start_next_inv; [done..|].
    apply Forall_lookup. intros k q Hq. pose proof (lookup_lt_Some _ _ _ Hq).
    rewrite last_lookup in Hp. destruct (decide (S k = length (pool g))) as [E|].
    + rewrite <-E in Hp. simpl in Hp. by simplify_eq.
    + apply (wf_ready g Hwf k q Hq). lia.
  - apply bind_Some in Hs as (ev & Hev & Hs).
    assert (∀ sig, unsignalled_below g (length (pool g)) → group_inv (stop g sig [ev])) as Hstop.
    { intros sig Hun. apply stop_inv; [done..|apply NoDup_singleton|].
      intros ev' ->%list_elem_of_singleton. eauto. }
    destruct (at_select g) as [| |i sig exited trace|err]; simplify_eq.
    + apply Hstop, Hpos.
    + apply Hstop, Hpos.
    + case_decide; [|done]. simplify_eq. destruct Hpos as (Hun & Ht & m & p & Hm & Hex & Hp & _).
      apply stop_next_inv; [done| |done|by eapply trace_from_snoc].
      apply lookup_lt_Some in Hp. lia.
  - destruct (at_select g) as [| |i sig' exited trace|err] eqn:Ha; simplify_eq.
    + apply stop_inv; [done|apply Hpos|constructor|]. by intros ev Hev%not_elem_of_nil.
    + apply stop_inv; [done|apply Hpos|constructor|]. by intros ev Hev%not_elem_of_nil.
    + case_decide; [done|]. destruct Hpos as (Hun & Ht & m & p & Hm & Hex & Hp & Hsp).
      split; [by apply wf_evolve, Hwf; apply alter_Signal_evolves|]. split_and!.
      * intros k q Hq Hk. simpl in Hq. rewrite list_lookup_alter_ne in Hq by lia. by apply (Hun k q).
      * by apply trace_from_evolve; [apply alter_Signal_evolves|].
      * exists m, (Signal p). simpl. by rewrite list_lookup_alter_eq, Hp.
Qed.

Lemma group_run_inv g es g' : group_inv g → group_run g es = Some g' → group_inv g'.
Proof.
  revert g. induction es as [|e es IH]; intros g Hinv; simpl; [by intros [= <-]|].
  intros (g1 & Hs & Hr)%bind_Some. by eapply IH, Hr; eapply group_step_inv.
Qed.

Lemma NoDup_omap {A B} (f : A → option B) (l : list A) :
  (∀ x y z, f x = Some z → f y = Some z → x = y) → NoDup l → NoDup (omap f l).
Proof.
  intros Hinj. induction 1 as [|x l Hx _ IH]; simpl; [constructor|].
  destruct (f x) as [z|] eqn:E; [|done]. apply NoDup_cons. split; [|done].
  intros (y & Hy & Hf)%list_elem_of_omap. by rewrite (Hinj x y z E Hf) in Hx.
Qed.

Lemma trace_exit_events g exited trace :
  wf g → trace_from g 0 exited trace → trace ≡ₚ exit_events g.
Proof.
  intros Hwf (Hnd & He & Hn). apply NoDup_Permutation.
  - by eapply NoDup_fmap_1.
  - unfold exit_events. apply NoDup_omap; [|apply NoDup_seq].
    intros j k ev (m & p & Hm & _ & _ & E)%exit_event_lookup (m' & p' & Hm' & _ & _ & E')%exit_event_lookup.
    apply (same_member g j k m m' Hwf); congruence.
  - intros ev. unfold exit_events. rewrite list_elem_of_omap. split.
    + intros [j Hj]%He. exists j. split; [|done]. apply elem_of_seq.
      apply exit_event_lookup in Hj as (_ & p & _ & Hp & _). apply lookup_lt_Some in Hp. lia.
    + intros (j & _ & Hj). pose proof Hj as (m & p & Hm & Hp & _ & E)%exit_event_lookup.
      assert (Member ev ∈ Member <$> trace) as (ev' & E' & Hin)%list_elem_of_fmap.
      { apply Hn. right. exists j, m. apply lookup_lt_Some in Hp. auto with lia. }
      destruct (He ev' Hin) as [j' Hj'].
      pose proof Hj' as (m' & p' & Hm' & _ & _ & E'')%exit_event_lookup.
      assert (j = j') as <- by (apply (same_member g j j' m m' Hwf); congruence). congruence.
Qed.

Lemma errOccurred_spec trace : errOccurred trace = false ↔ ∀ ev, ev ∈ trace → Err ev = None.
Proof.
  induction trace as [|ev trace IH]; simpl.
  - split; [|done]. by intros _ ev Hev%not_elem_of_nil.
  - rewrite orb_false_iff, IH, bool_decide_eq_false, <-eq_None_not_Some.
    setoid_rewrite elem_of_cons. naive_solver.
Qed.

Lemma main_result trace : main (result trace) = 0%Z ↔ ∀ ev, ev ∈ trace → Err ev = None.
Proof.
  rewrite <-errOccurred_spec. unfold result. by destruct (errOccurred trace).
Qed.

Lemma exited_event g k p :
  wf g → pool g !! k = Some p → has_exited p →
  ∃ ev, ev ∈ exit_events g ∧ phase_of p = Exited (Err ev).
Proof.
  intros Hwf Hp [err Hph]. pose proof (lookup_lt_Some _ _ _ Hp).
  destruct (lookup_lt_is_Some_2 (members g) k) as [m Hm]; [pose proof (wf_len g Hwf); lia|].
  exists (mkExitEvent m.1 err). split; [|done]. apply list_elem_of_omap. exists k.
  split; [apply elem_of_seq; lia|]. apply exit_event_lookup. eauto 10.
Qed.

(** Without a signal from outside, the group stops because of an error. *)
Definition failing (g : group) : Prop :=
  match at_select g with
  | Starting | Running => True
  | Stopping _ _ _ trace => errOccurred trace = true
  | Returned err => err ≠ None
  end.

Lemma stop_next_failing g i sig exited trace :
  errOccurred trace = true → failing (stop_next g i sig exited trace).
Proof.
  intros He. induction i as [|i IH]; simpl; [unfold failing; simpl; by rewrite He|].
  destruct (members g !! i); [|done]. by case_decide.
Qed.

Lemma group_step_failing g e g' :
  group_inv g → failing g → signals e = false → group_step g e = Some g' → failing g'.
Proof.
  intros [Hwf Hpos] Hf He Hs. destruct e as [j e| |j|sig]; simpl in Hs; [| | |done].
  - apply bind_Some in Hs as (m & Hm & Hs). apply bind_Some in Hs as (p & Hp & Hs).
    by apply bind_Some in Hs as (p' & Hs & [= <-]).
  - destruct (at_select g); try done. apply bind_Some in Hs as (p & Hp & Hs).
    destruct (is_ready p); [|done]. injection Hs as <-. unfold start_next. by case_decide.
  - apply bind_Some in Hs as (ev & Hev & Hs).
    assert (∀ sig, unsignalled_below g (length (pool g)) → failing (stop g sig [ev])) as Hstop.
    { intros sig Hun. apply stop_next_failing. destruct (Err ev) eqn:E; simpl; rewrite E; [done|].
      destruct (exited_signalled g j ev Hwf Hev E) as (p & Hp & Hsig).
      rewrite (Hun j p Hp) in Hsig by by eapply lookup_lt_Some. done. }
    destruct (at_select g) as [| |i sig exited trace|err] eqn:Ha; simplify_eq.
    + apply Hstop, Hpos.
    + apply Hstop, Hpos.
    + case_decide; [|done]. simplify_eq. apply stop_next_failing.
      unfold failing in Hf. rewrite Ha in Hf. unfold errOccurred in *. by rewrite existsb_app, Hf.
Qed.

Lemma group_run_failing g es g' :
  group_inv g → failing g → (∀ sig, LSignal sig ∉ es) → group_run g es = Some g' → failing g'.
Proof.
  revert g. induction es as [|e es IH]; intros g Hinv Hf He; simpl; [by intros [= <-]|].
  intros (g1 & Hs & Hr)%bind_Some. eapply (IH g1), Hr.
  - by eapply group_step_inv.
  - eapply group_step_failing; [done|done| |done]. destruct e; try done. destruct (He sig). by left.
  - intros sig Hin. apply (He sig). by right.
Qed.
Lemma run_group_failing ms : NoDup ms.*1 → failing (run_group ms).
Proof. intros. rewrite run_group_start by done. unfold start_next. by case_decide. Qed.

(** ** Lemmas: the work left *)
Lemma sum_list_insert {A} (f : A → nat) (l : list A) j x y :
  l !! j = Some x → sum_list_with f (<[j := y]> l) + f x = sum_list_with f l + f y.
Proof.
  revert j. induction l as [|z l IH]; intros [|j] Hj; simplify_eq/=; [lia|].
  specialize (IH j Hj). lia.
Qed.
Lemma work_Signal i (l : list process) :
  sum_list_with process_work (alter Signal i l) = sum_list_with process_work l.
Proof.
  revert i. induction l as [|z l IH]; intros [|i]; [done..|]. simpl. f_equal. apply IH.
Qed.

(** The work of a group that is about to look at the members below [i]. *)
Definition work_at (g : group) (r : nat) : nat :=
  sum_list_with process_work (pool g) + 4 * (length (members g) - length (pool g)) + r.

Lemma stop_next_work g i sig exited trace :
  group_work (stop_next g i sig exited trace) ≤ work_at g i.
Proof.
  induction i as [|i IH]; unfold group_work, work_at in *; simpl; [lia|].
  destruct (members g !! i) as [m|]; [|lia]. case_decide; [lia|].
  simpl. rewrite work_Signal, length_alter. lia.
Qed.
Lemma start_next_work g :
  length (pool g) ≤ length (members g) →
  group_work (start_next g) ≤ work_at g (length (members g) + 1).
Proof.
  intros Hl. unfold start_next, group_work, work_at. case_decide; simpl; [|lia].
  rewrite sum_list_with_app, length_app. simpl. lia.
Qed.
Lemma group_step_work g e g' :
  wf g → group_step g e = Some g' →
  if opens e then group_work g' = S (group_work g)
  else if signals e then group_work g' ≤ group_work g else group_work g' < group_work g.
Proof.
  intros Hwf Hs. pose proof (wf_len g Hwf) as Hl. destruct e as [j e| |j|sig]; simpl in Hs.
  - apply bind_Some in Hs as (m & Hm & Hs). apply bind_Some in Hs as (p & Hp & Hs).
    apply bind_Some in Hs as (p' & Hs & [= <-]). apply run_step_work in Hs.
    pose proof (sum_list_insert process_work (pool g) j p p' Hp).
    unfold group_work. simpl. rewrite length_insert. destruct e; simpl; lia.
  - destruct (at_select g) eqn:Ha; try done. apply bind_Some in Hs as (p & Hp & Hs).
    destruct (is_ready p); [|done]. injection Hs as <-. simpl.
    pose proof (start_next_work g Hl). unfold group_work at 2. rewrite Ha. simpl.
    unfold work_at in *. lia.
  - simpl. apply bind_Some in Hs as (ev & Hev & Hs). unfold group_work at 2.
    destruct (at_select g) as [| |i sig exited trace|err] eqn:Ha; simplify_eq; simpl.
    + pose proof (stop_next_work g (length (pool g)) Interrupt (Member <$> [ev]) [ev]).
      unfold work_at, stop in *. lia.
    + pose proof (stop_next_work g (length (pool g)) Interrupt (Member <$> [ev]) [ev]).
      unfold work_at, stop in *. lia.
    + case_decide; [|done]. simplify_eq.
      pose proof (stop_next_work g i sig exited (trace ++ [ev])). unfold work_at in *. lia.
  - simpl. unfold group_work at 2.
    destruct (at_select g) as [| |i sig' exited trace|err] eqn:Ha; simplify_eq; simpl.
    + pose proof (stop_next_work g (length (pool g)) sig [] []). unfold work_at, stop in *. simpl. lia.
    + pose proof (stop_next_work g (length (pool g)) sig [] []). unfold work_at, stop in *. simpl. lia.
    + case_decide; simplify_eq; unfold group_work; [by rewrite Ha|].
      simpl. rewrite work_Signal, length_alter. lia.
Qed.

Lemma group_run_work g es g' :
  group_inv g → group_run g es = Some g' →
  length es + group_work g' ≤ group_work g + 2 * count opens es + count signals es.
Proof.
  revert g. induction es as [|e es IH]; intros g Hinv; simpl.
  - intros [= <-]. unfold count. simpl. lia.
  - intros (g1 & Hs & Hr)%bind_Some. pose proof (group_step_inv g e g1 Hinv Hs) as Hinv1.
    specialize (IH g1 Hinv1 Hr). pose proof (group_step_work g e g1 (proj1 Hinv) Hs) as Hw.
    unfold count in *. rewrite !filter_cons.
    destruct (opens e) eqn:Eo, (signals e) eqn:Es; simpl; lia.
Qed.

Lemma run_group_work ms : NoDup ms.*1 → group_work (run_group ms) ≤ 5 * length ms + 1.
Proof.
  intros. rewrite run_group_start by done.
  etrans; [apply start_next_work; simpl; lia|]. unfold work_at. simpl. lia.
Qed.

(** A group that is stopping can go on without anything from outside but the end of
    connections and rounds. *)
Definition stopping (g : group) : Prop :=
  match at_select g with Stopping _ _ _ _ | Returned _ => True | _ => False end.

Lemma stop_next_stopping g i sig exited trace : stopping (stop_next g i sig exited trace).
Proof.
  induction i as [|i IH]; simpl; [done|]. destruct (members g !! i); [|done]. by case_decide.
Qed.
Lemma group_step_stopping g e g' : stopping g → group_step g e = Some g' → stopping g'.
Proof.
  intros Hst Hs. destruct e as [j e| |j|sig]; simpl in Hs.
  - apply bind_Some in Hs as (m & _ & Hs). apply bind_Some in Hs as (p & _ & Hs).
    by apply bind_Some in Hs as (p' & _ & [= <-]).
  - unfold stopping in Hst. by destruct (at_select g).
  - apply bind_Some in Hs as (ev & _ & Hs). unfold stopping in Hst.
    destruct (at_select g); simplify_eq; try done.
    case_decide; [|done]. simplify_eq. apply stop_next_stopping.
  - unfold stopping in Hst. destruct (at_select g) eqn:Ha; simplify_eq; try done.
    case_decide; [|done]. unfold stopping. by rewrite Ha.
Qed.

Lemma stopping_moves g :
  group_inv g → stopping g → (∀ err, at_select g ≠ Returned err) →
  ∃ e g', opens e = false ∧ signals e = false ∧ group_step g e = Some g'.
Proof.
  intros [Hwf Hpos] Hst Hret. unfold stopping in Hst.
  destruct (at_select g) as [| |i sig exited trace|err] eqn:Ha; [done..| |by destruct (Hret err)].
  destruct Hpos as (_ & _ & m & p & Hm & _ & Hp & Hsig).
  destruct (phase_of p) as [| | |err] eqn:Hph.
  4: { exists (LExit i). simpl. rewrite Ha. unfold exit_event. rewrite Hm. simpl. rewrite Hp. simpl.
       rewrite Hph. simpl. rewrite decide_True by done. eauto. }
  all: destruct (signalled_moves m.2 p Hsig) as (e & He & p' & Hs);
    [by intros [? ?]; congruence|]; exists (LProc i e); simpl; rewrite Hm; simpl; rewrite Hp; simpl;
    rewrite Hs; simpl; eexists; split_and!; [by destruct e|done|done].
Qed.

Lemma winds_down g :
  group_inv g → stopping g →
  ∃ es g' err, group_run g es = Some g' ∧ at_select g' = Returned err ∧
    count opens es = 0 ∧ count signals es = 0 ∧ length es ≤ group_work g.
Proof.
  remember (group_work g) as n eqn:En. revert g En.
  induction n as [n IH] using lt_wf_ind. intros g -> Hinv Hst.
  destruct (at_select g) as [| |i sig exited trace|err] eqn:Ha; try (by unfold stopping in Hst; rewrite Ha in Hst).
  2: { exists [], g, err. simpl. rewrite Ha. split_and!; [done..|]. lia. }
  destruct (stopping_moves g Hinv Hst) as (e & g1 & Ho & Hs & Hstep); [by rewrite Ha|].
  pose proof (group_step_work g e g1 (proj1 Hinv) Hstep) as Hw. rewrite Ho, Hs in Hw.
  destruct (IH _ Hw g1 eq_refl) as (es & g' & err & Hr & Hret & Hco & Hcs & Hlen).
  { by eapply group_step_inv. } { by eapply group_step_stopping. }
  exists (e :: es), g', err. simpl. rewrite Hstep. simpl. unfold count in *.
  rewrite !filter_cons, Ho, Hs. simpl. split_and!; [done..|]. lia.
Qed.

Lemma server_members_distinct c : NoDup (server_members c).*1.
Proof. apply (bool_decide_unpack _). reflexivity. Qed.
Lemma server_inv c es g :
  group_run (run_group (server_members c)) es = Some g → group_inv g.
Proof. apply group_run_inv, run_group_inv, server_members_distinct. Qed.

(** A draining server is left by the end of its connections only. *)
Lemma held_step g e g' i sig exited trace p :
  at_select g = Stopping i sig exited trace → pool g !! i = Some p → phase_of p = Draining →
  0 < busy p → e ≠ LProc i PClose → group_step g e = Some g' →
  ∃ sig' p', at_select g' = Stopping i sig' exited trace ∧ pool g' !! i = Some p' ∧
    phase_of p' = Draining ∧ busy p' = busy p.
Proof.
  intros Ha Hp Hph Hb He Hs. destruct e as [j e| |j|sig']; simpl in Hs; rewrite ?Ha in Hs; [|done| |].
  - apply bind_Some in Hs as (m & Hm & Hs). apply bind_Some in Hs as (q & Hq & Hs).
    apply bind_Some in Hs as (q' & Hs & [= <-]). simpl. exists sig.
    destruct (decide (j = i)) as [->|]; [|exists p; by rewrite list_lookup_insert_ne by done].
    rewrite list_lookup_insert_eq by (by eapply lookup_lt_Some). simplify_eq. exists q'. split_and!; [done..| |];
      destruct p as [ph rdy sg n]; simplify_eq/=; destruct e, n; simplify_eq/=; try done; lia.
  - apply bind_Some in Hs as (ev & Hev & Hs). case_decide; [|done]. subst j.
    apply exit_event_lookup in Hev as (? & ? & _ & ? & ? & _). congruence.
  - injection Hs as <-. case_decide; [subst sig'; by exists sig, p|].
    exists sig', (Signal p). simpl. by rewrite list_lookup_alter_eq, Hp.
Qed.

(** ** Properties *)
(** C7. The server's processes start in the order of [mainWithError] and stop in the
    reverse order: whatever happens, a process is started only when the one before is
    ready, none is signalled before the stop begins, and none is signalled while a
    process that was started after it still runs. *)
Theorem shutdown_in_order c es g :
  group_run (run_group (server_members c)) es = Some g →
  (∀ j k p q, j < k → pool g !! j = Some p → pool g !! k = Some q →
    is_ready p = true ∧ (signalled p = true → has_exited q)) ∧
  (at_select g = Starting ∨ at_select g = Running → ∀ p, p ∈ pool g → signalled p = false).
Proof.
  intros Hr. destruct (server_inv c es g Hr) as [Hwf Hpos]. split.
  - intros j k p q Hjk Hp Hq. pose proof (lookup_lt_Some _ _ _ Hq) as Hk.
    pose proof (lookup_lt_Some _ _ _ Hp) as Hj. split; [apply (wf_ready g Hwf j p Hp); lia|].
    intros Hsig. destruct (at_select g) as [| |i sig exited trace|err].
    + destruct Hpos as [_ Hun]. by rewrite (Hun j p) in Hsig.
    + destruct Hpos as (_ & Hun & _). by rewrite (Hun j p) in Hsig.
    + destruct Hpos as (Hun & Ht & _). apply (traced_exited g (S i) exited trace k q); [done..| |done].
      destruct (decide (j < i)); [by rewrite (Hun j p) in Hsig|lia].
    + destruct Hpos as (exited & trace & Ht & _).
      apply (traced_exited g 0 exited trace k q); [done..|lia|done].
  - intros Hat p [j Hp]%list_elem_of_lookup_1. pose proof (lookup_lt_Some _ _ _ Hp).
    destruct Hat as [E|E]; rewrite E in Hpos; [destruct Hpos as [_ Hun]|destruct Hpos as (_ & Hun & _)];
      by apply (Hun j p).
Qed.

(** C24. When the group has returned, every started process has exited and the error lists
    each of their exits once.  The server's exit status is zero exactly when all of them
    ended without an error, and never without a signal from outside. *)
Theorem exit_status c es g err :
  group_run (run_group (server_members c)) es = Some g → at_select g = Returned err →
  (∀ p, p ∈ pool g → has_exited p) ∧
  (∃ trace, trace ≡ₚ exit_events g ∧ err = result trace) ∧
  (main err = 0%Z ↔ ∀ p, p ∈ pool g → phase_of p = Exited None) ∧
  (main err = 0%Z → ∃ sig, LSignal sig ∈ es).
Proof.
  intros Hr Hat. destruct (server_inv c es g Hr) as [Hwf Hpos]. rewrite Hat in Hpos.
  destruct Hpos as (exited & trace & Ht & ->).
  pose proof (trace_exit_events g exited trace Hwf Ht) as Hp.
  assert (∀ p, p ∈ pool g → has_exited p) as Hex.
  { intros p [k Hk]%list_elem_of_lookup_1. by apply (traced_exited g 0 exited trace k p); [| |lia|]. }
  split_and!; [done|by exists trace| |].
  - rewrite main_result. setoid_rewrite Hp. split.
    + intros He p Hin. pose proof Hin as [k Hk]%list_elem_of_lookup_1.
      destruct (exited_event g k p Hwf Hk (Hex p Hin)) as (ev & Hev & ->). by rewrite (He ev Hev).
    + intros He ev (k & _ & Hev)%list_elem_of_omap.
      apply exit_event_lookup in Hev as (m & p & _ & Hk & Hph & _).
      rewrite (He p) in Hph by (by eapply list_elem_of_lookup_2). congruence.
  - intros H0. destruct (decide (Exists (λ e, signals e = true) es)) as [Hs|Hs].
    + apply Exists_exists in Hs as ([] & ? & ?); try done. eauto.
    + assert (failing g) as Hf.
      { eapply group_run_failing, Hr; [apply run_group_inv|apply run_group_failing|]; [apply server_members_distinct..|].
        intros sig Hin. apply Hs, Exists_exists. eauto. }
      unfold failing in Hf. rewrite Hat in Hf. destruct (result trace); done.
Qed.

(** C23. The stop ends.  A run of the group takes at most 26 steps, two more per connection
    or round that begins and one more per signal; a stopping group that has not returned
    always has something to do that is neither; and so it can be led to its return. *)
Theorem shutdown_terminates c es g :
  group_run (run_group (server_members c)) es = Some g →
  length es ≤ 26 + 2 * count opens es + count signals es ∧
  (stopping g → (∀ err, at_select g ≠ Returned err) →
    ∃ e g', opens e = false ∧ signals e = false ∧ group_step g e = Some g') ∧
  (stopping g → ∃ es' g' err, group_run g es' = Some g' ∧ at_select g' = Returned err ∧
    count opens es' = 0 ∧ count signals es' = 0).
Proof.
  intros Hr. pose proof (server_inv c es g Hr) as Hinv. split_and!.
  - pose proof (group_run_work _ es g (run_group_inv _ (server_members_distinct c)) Hr).
    pose proof (run_group_work _ (server_members_distinct c)). simpl in *. lia.
  - by apply stopping_moves.
  - intros Hst. destruct (winds_down g Hinv Hst) as (es' & g' & err & ? & ? & ? & ? & _). by exists es', g', err.
Qed.

(** A connection holds the shutdown up: while the group waits for a gRPC server that
    drains and has a connection, whatever else happens, further signals included, it goes
    on waiting for that server, unless one of the server's connections ends. *)
Theorem connection_holds_shutdown g es g' i sig exited trace p :
  at_select g = Stopping i sig exited trace → pool g !! i = Some p → phase_of p = Draining →
  0 < busy p → LProc i PClose ∉ es → group_run g es = Some g' →
  ∃ sig' p', at_select g' = Stopping i sig' exited trace ∧ pool g' !! i = Some p' ∧
    phase_of p' = Draining ∧ busy p' = busy p.
Proof.
  revert g sig p. induction es as [|e es IH]; intros g sig p Ha Hp Hph Hb He; simpl.
  - intros [= <-]. by exists sig, p.
  - intros (g1 & Hs & Hr)%bind_Some. apply not_elem_of_cons in He as [He Hes].
    destruct (held_step g e g1 i sig exited trace p Ha Hp Hph Hb (not_eq_sym He) Hs)
      as (sig1 & p1 & Ha1 & Hp1 & Hph1 & Hb1).
    destruct (IH g1 sig1 p1 Ha1 Hp1 Hph1 ltac:(lia) Hes Hr) as (sig' & p' & ? & ? & ? & ?).
    exists sig', p'. split_and!; [done..|congruence].
Qed.

(** ** Witnesses *)
(** The start of all five members, and the end of one of them. *)
Definition w_started : list group_event :=
  flat_map (λ j, [LProc j PReady; LReady]) (seq 0 5).
Definition w_ends (j : nat) (drains : bool) : list group_event :=
  [LProc j PTakeSignal] ++ (if drains then [LProc j PDrained] else []) ++ [LExit j].
Definition w_shutdown : list group_event :=
  w_started ++ [LSignal SIGTERM] ++ w_ends 4 false ++ w_ends 3 false ++ w_ends 2 true ++
  w_ends 1 true ++ w_ends 0 true.
Definition w_group : group := run_group (server_members w_config).
(** After SIGTERM, with a client connected to the MCP server. *)
Definition w_held : list group_event :=
  w_started ++ [LProc 2 POpen; LSignal SIGTERM] ++ w_ends 4 false ++ w_ends 3 false ++
  [LProc 2 PTakeSignal].
Definition w_waiting : group := default w_group (group_run w_group w_held).

Definition w_stopped : group := default w_group (group_run w_group w_shutdown).

Lemma w_held_run : group_run (run_group (server_members w_config)) w_held = Some w_waiting.
Proof. vm_compute. reflexivity. Qed.
Lemma w_shutdown_run : group_run (run_group (server_members w_config)) w_shutdown = Some w_stopped.
Proof. vm_compute. reflexivity. Qed.
Lemma w_stopped_at : at_select w_stopped = Returned None.
Proof. vm_compute. reflexivity. Qed.

Lemma shutdown_in_order_witness :
  ∃ p q, pool w_waiting !! 2 = Some p ∧ pool w_waiting !! 3 = Some q ∧
    is_ready p = true ∧ signalled p = true ∧ has_exited q.
Proof.
  exists (mkProcess Draining true true 1), (mkProcess (Exited None) true true 0).
  assert (pool w_waiting !! 2 = Some (mkProcess Draining true true 1)) as Hp by (vm_compute; reflexivity).
  assert (pool w_waiting !! 3 = Some (mkProcess (Exited None) true true 0)) as Hq
    by (vm_compute; reflexivity).
  destruct (proj1 (shutdown_in_order w_config w_held w_waiting w_held_run) 2 3 _ _ ltac:(lia) Hp Hq)
    as [Hr He].
  split; [exact Hp|]. split; [exact Hq|]. split; [exact Hr|]. split; [reflexivity|]. by apply He.
Defined.

Lemma exit_status_witness :
  main (E := group_error) None = 0%Z ∧ (∀ p, p ∈ pool w_stopped → has_exited p) ∧
  ∃ sig, LSignal sig ∈ w_shutdown.
Proof.
  destruct (exit_status w_config w_shutdown w_stopped None w_shutdown_run w_stopped_at)
    as (He & _ & _ & Hs).
  split; [reflexivity|]. split; [exact He|]. apply Hs. reflexivity.
Defined.

Lemma shutdown_terminates_witness :
  at_select w_waiting = Stopping 2 SIGTERM []
    [mkExitEvent "diego-backend-set-updater" None; mkExitEvent "mcp-snapshot" None] ∧
  ∃ es' g' err, group_run w_waiting es' = Some g' ∧ at_select g' = Returned err ∧
    count opens es' = 0 ∧ count signals es' = 0.
Proof.
  split; [vm_compute; reflexivity|].
  apply (shutdown_terminates w_config w_held w_waiting w_held_run). vm_compute. exact I.
Defined.

Lemma connection_holds_shutdown_witness :
  ∃ g', group_run w_waiting [LSignal SIGINT; LProc 1 POpen; LSignal SIGQUIT] = Some g' ∧
    ∃ sig' p', at_select g' = Stopping 2 sig' []
        [mkExitEvent "diego-backend-set-updater" None; mkExitEvent "mcp-snapshot" None] ∧
      pool g' !! 2 = Some p' ∧ phase_of p' = Draining ∧ busy p' = 1.
Proof.
  exists (default w_group (group_run w_waiting [LSignal SIGINT; LProc 1 POpen; LSignal SIGQUIT])).
  split; [vm_compute; reflexivity|].
  apply (connection_holds_shutdown w_waiting [LSignal SIGINT; LProc 1 POpen; LSignal SIGQUIT] _ 2 SIGTERM
    [] _ (mkProcess Draining true true 1)); try (vm_compute; reflexivity).
  rewrite !not_elem_of_cons. split_and!; [done..|]. apply not_elem_of_nil.
Defined.
