(* ===== verification/Fakes.v ===== *)
(** * Fakes (the template behind [*/fakes/*.go] and [testhelpers/fakebulksyncserver.go])

    The tests of the repository run its parts against fakes that counterfeiter
    generates from their interfaces: a fake records the arguments of every call and
    answers with a stub, with what was scripted for that call, or with a default.
    All fakes are instances of one template, which this file models: an interface
    gives the methods with the types of their arguments and results, a fake has a
    state per method and the log of all invocations.  [FakeInstances] lists the
    interfaces.

    Every function runs under the mutex of its method and is one function here; a
    stub runs after the mutex is released and may act on the world around the fake,
    which is passed along, but not on the fake itself.  Slices are recorded as
    copies, so as values.  The older template hands out its own log and not a copy of
    it; here [Invocations] is the log at the time of the call. *)
From S2P Require Import Prelude.

(** ** Families of values with a decidable index *)
Section family.
Context {I : Type} `{!EqDecision I} {F : I → Type}.

Definition cast {i j : I} (e : i = j) (v : F i) : F j := eq_rect i F v j e.

Definition update (f : ∀ i, F i) (i : I) (v : F i) : ∀ j, F j :=
  λ j, match decide (i = j) with left e => cast e v | right _ => f j end.

Lemma update_same f i v : update f i v i = v.
Proof.
  unfold update. destruct (decide (i = i)) as [e|]; [|done].
  by rewrite (proof_irrel e eq_refl).
Qed.

Lemma update_other f i v j : i ≠ j → update f i v j = f j.
Proof. intros. unfold update. by destruct (decide (i = j)). Qed.
End family.

(** ** Interfaces *)
(** A value of Go's empty interface. *)
Inductive anything : Type :=
| Any (T : Type) (v : T).
Arguments Any {T} v.

(** [Results] of a method without results is [unit]; [zero] are the zero values of
    the results, [boxed] the arguments as [recordInvocation] gets them. *)
Record interface := mkInterface {
  meth : Type;
  meth_eq_dec : EqDecision meth;
  name : meth → string;
  Args : meth → Type;
  Results : meth → Type;
  zero : ∀ m, Results m;
  boxed : ∀ m, Args m → list anything;
}.
#[global] Existing Instance meth_eq_dec.

(** ** The state of a fake *)
Section fake.
Context (I : interface) (W : Type).

Definition stub_of (m : meth I) : Type := Args I m → W → W * Results I m.

Record method (m : meth I) := mkMethod {
  stub : option (stub_of m);
  argsForCall : list (Args I m);
  returns : Results I m;
  returnsOnCall : gmap Z (Results I m);
}.

Record fake := mkFake {
  methods : ∀ m, method m;
  invocations : gmap string (list (list anything));
}.

Definition new_method (m : meth I) : method m := mkMethod m None [] (zero I m) ∅.
Definition new_fake : fake := mkFake new_method ∅.
End fake.

Arguments mkMethod {I W} m _ _ _ _.
Arguments stub {I W m} _.
Arguments argsForCall {I W m} _.
Arguments returns {I W m} _.
Arguments returnsOnCall {I W m} _.
Arguments mkFake {I W} _ _.
Arguments methods {I W} _ _.
Arguments invocations {I W} _.
Arguments new_method {I W} _.
Arguments new_fake {I W}.

(** ** The generated functions *)
Section functions.
Context {I : interface} {W : Type}.

Definition recordInvocation (log : gmap string (list (list anything))) (key : string)
    (args : list anything) : gmap string (list (list anything)) :=
  <[key := lookup0 [] log key ++ [args]]> log.

Definition with_method (f : fake I W) (m : meth I) (s : method I W m) : fake I W :=
  mkFake (update (methods f) m s) (invocations f).

(** The method itself: the scripted answer is looked up under the number of earlier
    calls, and the call is recorded before the stub runs. *)
Definition call (f : fake I W) (m : meth I) (args : Args I m) (w : W)
    : fake I W * (W * Results I m) :=
  let s := methods f m in
  let ret := returnsOnCall s !! Z.of_nat (length (argsForCall s)) in
  let f := mkFake
    (update (methods f) m
       (mkMethod m (stub s) (argsForCall s ++ [args]) (returns s) (returnsOnCall s)))
    (recordInvocation (invocations f) (name I m) (boxed I m args)) in
  (f, match stub s with
      | Some stub => stub args w
      | None => (w, match ret with Some result => result | None => returns s end)
      end).

Definition CallCount (f : fake I W) (m : meth I) : Z := Z.of_nat (length (argsForCall (methods f m))).

Definition Calls (f : fake I W) (m : meth I) (stub : option (stub_of I W m)) : fake I W :=
  let s := methods f m in
  with_method f m (mkMethod m stub (argsForCall s) (returns s) (returnsOnCall s)).

(** Indexing panics out of range. *)
Definition ArgsForCall (f : fake I W) (m : meth I) (i : Z) : outcome (Args I m) :=
  if decide (i < 0)%Z then Panic "index out of range"
  else match argsForCall (methods f m) !! Z.to_nat i with
       | Some args => Ret args
       | None => Panic "index out of range"
       end.

Definition Returns (f : fake I W) (m : meth I) (result : Results I m) : fake I W :=
  let s := methods f m in
  with_method f m (mkMethod m None (argsForCall s) result (returnsOnCall s)).

Definition ReturnsOnCall (f : fake I W) (m : meth I) (i : Z) (result : Results I m) : fake I W :=
  let s := methods f m in
  with_method f m (mkMethod m None (argsForCall s) (returns s) (<[i := result]> (returnsOnCall s))).

Definition Invocations (f : fake I W) : gmap string (list (list anything)) := invocations f.

(** The functions that are generated for a method.  The older template has no
    [Calls], where tests assign the stub; a method without arguments has no
    [ArgsForCall], one without results neither [Returns] nor [ReturnsOnCall]. *)
Record generated (m : meth I) := mkGenerated {
  gen_call : fake I W → Args I m → W → fake I W * (W * Results I m);
  gen_CallCount : fake I W → Z;
  gen_Calls : option (fake I W → option (stub_of I W m) → fake I W);
  gen_ArgsForCall : option (fake I W → Z → outcome (Args I m));
  gen_Returns : option (fake I W → Results I m → fake I W);
  gen_ReturnsOnCall : option (fake I W → Z → Results I m → fake I W);
}.

Definition generate (newer arguments results : bool) (m : meth I) : generated m := {|
  gen_call f := call f m;
  gen_CallCount f := CallCount f m;
  gen_Calls := if newer then Some (λ f, Calls f m) else None;
  gen_ArgsForCall := if arguments then Some (λ f, ArgsForCall f m) else None;
  gen_Returns := if results then Some (λ f, Returns f m) else None;
  gen_ReturnsOnCall := if results then Some (λ f, ReturnsOnCall f m) else None;
|}.
End functions.

(** ** Specification: a fake by the history of its use *)
Section spec.
Context {I : interface} {W : Type}.

Inductive op :=
| OCall (m : meth I) (args : Args I m)
| OCalls (m : meth I) (stub : option (stub_of I W m))
| OReturns (m : meth I) (result : Results I m)
| OReturnsOnCall (m : meth I) (i : Z) (result : Results I m).

Definition apply_op (s : fake I W * W) (o : op) : fake I W * W :=
  match o with
  | OCall m args => let '(f, (w, _)) := call s.1 m args s.2 in (f, w)
  | OCalls m stub => (Calls s.1 m stub, s.2)
  | OReturns m result => (Returns s.1 m result, s.2)
  | OReturnsOnCall m i result => (ReturnsOnCall s.1 m i result, s.2)
  end.

(** A history, newest operation first. *)
Definition run (w : W) (h : list op) : fake I W * W := foldr (λ o s, apply_op s o) (new_fake, w) h.

(** The arguments of the calls of a method, oldest first. *)
Definition arg_of (m : meth I) (o : op) : option (Args I m) :=
  match o with
  | OCall m' args => match decide (m' = m) with left e => Some (cast e args) | right _ => None end
  | _ => None
  end.
Fixpoint calls_of (m : meth I) (h : list op) : list (Args I m) :=
  match h with [] => [] | o :: h => calls_of m h ++ option_list (arg_of m o) end.

(** The stub: set by the last [Calls], unless answers were given after it. *)
Fixpoint stub_in (m : meth I) (h : list op) : option (stub_of I W m) :=
  match h with
  | [] => None
  | OCalls m' stub :: h =>
      match decide (m' = m) with left e => cast (F := λ m, option (stub_of I W m)) e stub
                               | right _ => stub_in m h end
  | OReturns m' _ :: h | OReturnsOnCall m' _ _ :: h =>
      if decide (m' = m) then None else stub_in m h
  | OCall _ _ :: h => stub_in m h
  end.

(** The default answer: the last one given, or the zero values. *)
Fixpoint default_in (m : meth I) (h : list op) : Results I m :=
  match h with
  | [] => zero I m
  | OReturns m' result :: h =>
      match decide (m' = m) with left e => cast e result | right _ => default_in m h end
  | _ :: h => default_in m h
  end.

(** The answer given for one call. *)
Fixpoint scripted_in (m : meth I) (i : Z) (h : list op) : option (Results I m) :=
  match h with
  | [] => None
  | OReturnsOnCall m' j result :: h =>
      match decide (m' = m) with
      | left e => if decide (j = i) then Some (cast e result) else scripted_in m i h
      | right _ => scripted_in m i h
      end
  | _ :: h => scripted_in m i h
  end.

(** What the next call answers. *)
Definition answer_in (m : meth I) (h : list op) (args : Args I m) (w : W) : W * Results I m :=
  match stub_in m h with
  | Some stub => stub args w
  | None => (w, default (default_in m h) (scripted_in m (Z.of_nat (length (calls_of m h))) h))
  end.

(** The calls that were recorded under a name, in order. *)
Definition logged (key : string) (o : op) : option (list anything) :=
  match o with
  | OCall m args => if decide (name I m = key) then Some (boxed I m args) else None
  | _ => None
  end.
Fixpoint log_of (key : string) (h : list op) : list (list anything) :=
  match h with [] => [] | o :: h => log_of key h ++ option_list (logged key o) end.
End spec.
Arguments op : clear implicits.

(** ** Lemmas *)
Section lemmas.
Context {I : interface} {W : Type}.
Implicit Types (m : meth I) (h : list (op I W)).

Lemma decide_refl {A} m (a : m = m → A) (b : m ≠ m → A) :
  match decide (m = m) with left e => a e | right n => b n end = a eq_refl.
Proof. destruct (decide (m = m)) as [e|]; [|done]. by rewrite (proof_irrel e eq_refl). Qed.

Lemma decide_other {A} m m' (a : m' = m → A) (b : A) :
  m' ≠ m → match decide (m' = m) with left e => a e | right _ => b end = b.
Proof. intros. by destruct (decide (m' = m)). Qed.

Lemma call_same (f : fake I W) m args w :
  methods (call f m args w).1 m =
  mkMethod m (stub (methods f m)) (argsForCall (methods f m) ++ [args]) (returns (methods f m))
    (returnsOnCall (methods f m)).
Proof. apply update_same. Qed.

Lemma call_other (f : fake I W) m args w m' :
  m ≠ m' → methods (call f m args w).1 m' = methods f m'.
Proof. apply update_other. Qed.

Lemma apply_op_call (f : fake I W) m args w :
  apply_op (f, w) (OCall m args) = ((call f m args w).1, (call f m args w).2.1).
Proof. unfold apply_op. cbn [fst snd]. by destruct (call f m args w) as [? [??]]. Qed.

(** The state of a method, read off the history. *)
Record method_in m h (s : method I W m) : Prop := mkMethodIn {
  in_stub : stub s = stub_in m h;
  in_args : argsForCall s = calls_of m h;
  in_returns : returns s = default_in m h;
  in_scripted : ∀ i, returnsOnCall s !! i = scripted_in m i h;
}.

Lemma run_method w h m : method_in m h (methods (run w h).1 m).
Proof.
  induction h as [|o h IH]; [done|]. simpl run. destruct (run w h) as [f w'] eqn:Er. simpl in IH.
  destruct IH as [H1 H2 H3 H4].
  destruct o as [m' args|m' st|m' res|m' i res]; rewrite ?apply_op_call; simpl fst;
    unfold Calls, Returns, ReturnsOnCall, with_method; simpl methods;
    (destruct (decide (m' = m)) as [->|Hne];
     [rewrite ?call_same, ?update_same|rewrite ?call_other, ?update_other by done]).
  all: constructor; intros; simpl; rewrite ?H1, ?H2, ?H3, ?H4, ?decide_refl, ?app_nil_r; try done;
    rewrite ?decide_other, ?app_nil_r by done; try done.
  all: rewrite lookup_insert; by case_decide.
Qed.

Lemma run_invocations w h key :
  invocations (run w h).1 !! key = match log_of key h with [] => None | l => Some l end.
Proof.
  induction h as [|o h IH]; [apply lookup_empty|]. simpl run.
  destruct (run w h) as [f w'] eqn:Er. simpl in IH.
  destruct o as [m' args|m' st|m' res|m' i res]; rewrite ?apply_op_call; simpl; rewrite ?app_nil_r; try done.
  unfold recordInvocation, lookup0. rewrite lookup_insert. case_decide as E.
  - rewrite E. rewrite IH. by destruct (log_of key h).
  - by rewrite app_nil_r.
Qed.
End lemmas.

(** ** Properties *)

(** C40. A fake is determined by the history of its use, method by method: after any
    history of calls and configuration, the next call of a method answers with the
    stub if one was set after the last scripted answer, else with the answer
    scripted for the number of earlier calls of that method, else with the last
    default or the zero values, and the world changes only through a stub; the
    recorded arguments are those of the calls in order, reading them panics exactly
    out of range, and the log has under each name the calls of the methods of that
    name in order.  What happens to other methods never matters. *)
Theorem fake_refines_history {I W} (w : W) (h : list (op I W)) (m : meth I) :
  let '(f, w') := run w h in
  (∀ args, (call f m args w').2 = answer_in m h args w') ∧
  CallCount f m = Z.of_nat (length (calls_of m h)) ∧
  (∀ i args, ArgsForCall f m i = Ret args ↔ (0 ≤ i)%Z ∧ calls_of m h !! Z.to_nat i = Some args) ∧
  (∀ i, is_ret (ArgsForCall f m i) ↔ (0 ≤ i < CallCount f m)%Z) ∧
  (∀ key, lookup0 [] (Invocations f) key = log_of key h).
Proof.
  pose proof (run_method w h m) as [H1 H2 H3 H4]. pose proof (run_invocations w h) as Hl.
  destruct (run w h) as [f w']. simpl in *.
  assert (∀ i args, ArgsForCall f m i = Ret args ↔
    (0 ≤ i)%Z ∧ calls_of m h !! Z.to_nat i = Some args) as Hargs.
  { intros i args. unfold ArgsForCall. rewrite H2. case_decide; [split; [done|lia]|].
    destruct (_ !! _); naive_solver lia. }
  split; [|split; [|split; [|split]]]; [| |exact Hargs| |].
  - intros args. unfold answer_in. by rewrite H1, H2, H3, H4.
  - unfold CallCount. by rewrite H2.
  - intros i. unfold is_ret, CallCount. setoid_rewrite Hargs. rewrite H2. split.
    + intros (args & ? & Ha%lookup_lt_Some). lia.
    + intros ?. destruct (lookup_lt_is_Some_2 (calls_of m h) (Z.to_nat i)) as [args Ha]; [lia|].
      exists args. split; [lia|done].
  - intros key. unfold lookup0, Invocations. rewrite Hl. by destruct (log_of key h).
Qed.
