(* ===== verification/FakeInstances.v ===== *)
(** * The generated fakes ([certs/fakes], [handlers/fakes], [models/fakes],
    [routes/fakes], [snapshot/fakes], [testhelpers/fakebulksyncserver.go])

    One module per package and one per fake: its methods with the types of their
    arguments and results, and for every method the functions that are generated for
    it, as instances of the template of [Fakes].  As everywhere in the development,
    slices of pointers are slices of the values they point to, and a single pointer
    may be nil. *)
From S2P Require Import Prelude GoStrings Routes RouteMappings Associations BackendSets FixWeights.
From S2P Require Import Api Handlers Certs Istio Sidecars McpCache.
From S2P Require Import BulkStream Fakes.

(** ** [fakes.NewTicker] ([models/fakes/ticker.go]) *)
(** The fake ticker: a channel with room for one tick; [None] when a send or a
    receive blocks. *)
Record Ticker (Time : Type) := mkTicker { C : list Time }.
Arguments mkTicker {Time} _.
Arguments C {Time} _.

Definition NewTicker {Time} : Ticker Time := mkTicker [].
Definition ticker_send {Time} (t : Ticker Time) (now : Time) : option (Ticker Time) :=
  match C t with [] => Some (mkTicker [now]) | _ => None end.
Definition ticker_receive {Time} (t : Ticker Time) : option (Ticker Time * Time) :=
  match C t with [] => None | now :: rest => Some (mkTicker rest, now) end.

(** ** The fake of [certs.Librarian]. *)
Module certs_fakes.
Module Locator.
Inductive method := Locate | Stow.
#[global] Instance method_eq_dec : EqDecision method.
Proof. solve_decision. Defined.

Definition fake_interface : interface := {|
  meth := method;
  name m := match m with Locate => "Locate" | Stow => "Stow" end;
  Args m := match m with Locate => unit | Stow => unit end;
  Results m := match m with
    | Locate => (gslice PemInfo * option string)%type
    | Stow => option string end;
  zero m := match m with Locate => (Nil, None) | Stow => None end;
  boxed m := match m with Locate => λ _, [] | Stow => λ _, [] end;
|}.

Section generated_functions.
Context {W : Type}.
Notation functions := (generated (I := fake_interface) (W := W)).

Definition Locate_functions : functions Locate :=
  generate (I := fake_interface) true false true Locate.
Definition Stow_functions : functions Stow :=
  generate (I := fake_interface) true false true Stow.
Definition log_functions := (Invocations (I := fake_interface) (W := W), recordInvocation).
End generated_functions.
End Locator.

End certs_fakes.

(** ** The fakes of the interfaces in [handlers/]. *)
Module handlers_fakes.
Module BackendSetRepo.
Inductive method := Get | GetInternalBackends.
#[global] Instance method_eq_dec : EqDecision method.
Proof. solve_decision. Defined.

Definition fake_interface : interface := {|
  meth := method;
  name m := match m with Get => "Get" | GetInternalBackends => "GetInternalBackends" end;
  Args m := match m with Get => string | GetInternalBackends => string end;
  Results m := match m with Get => option BackendSet | GetInternalBackends => option BackendSet end;
  zero m := match m with Get => None | GetInternalBackends => None end;
  boxed m := match m with Get => λ a, [Any a] | GetInternalBackends => λ a, [Any a] end;
|}.

Section generated_functions.
Context {W : Type}.
Notation functions := (generated (I := fake_interface) (W := W)).

Definition Get_functions : functions Get :=
  generate (I := fake_interface) false true true Get.
Definition GetInternalBackends_functions : functions GetInternalBackends :=
  generate (I := fake_interface) false true true GetInternalBackends.
Definition log_functions := (Invocations (I := fake_interface) (W := W), recordInvocation).
End generated_functions.
End BackendSetRepo.

Module CAPIDiegoProcessAssociationsRepo.
Inductive method := Upsert | Delete | Sync | List | Get.
#[global] Instance method_eq_dec : EqDecision method.
Proof. solve_decision. Defined.

Definition fake_interface : interface := {|
  meth := method;
  name m := match m with
    | Upsert => "Upsert"
    | Delete => "Delete"
    | Sync => "Sync"
    | List => "List"
    | Get => "Get" end;
  Args m := match m with
    | Upsert => option CAPIDiegoProcessAssociation
    | Delete => option string
    | Sync => gslice CAPIDiegoProcessAssociation
    | List => unit
    | Get => option string end;
  Results m := match m with
    | Upsert => unit
    | Delete => unit
    | Sync => unit
    | List => gmap string (option DiegoProcessGUIDs)
    | Get => option CAPIDiegoProcessAssociation end;
  zero m := match m with Upsert => tt | Delete => tt | Sync => tt | List => ∅ | Get => None end;
  boxed m := match m with
    | Upsert => λ a, [Any a]
    | Delete => λ a, [Any a]
    | Sync => λ a, [Any a]
    | List => λ _, []
    | Get => λ a, [Any a] end;
|}.

Section generated_functions.
Context {W : Type}.
Notation functions := (generated (I := fake_interface) (W := W)).

Definition Upsert_functions : functions Upsert :=
  generate (I := fake_interface) false true false Upsert.
Definition Delete_functions : functions Delete :=
  generate (I := fake_interface) false true false Delete.
Definition Sync_functions : functions Sync :=
  generate (I := fake_interface) false true false Sync.
Definition List_functions : functions List :=
  generate (I := fake_interface) false false true List.
Definition Get_functions : functions Get :=
  generate (I := fake_interface) false true true Get.
Definition log_functions := (Invocations (I := fake_interface) (W := W), recordInvocation).
End generated_functions.
End CAPIDiegoProcessAssociationsRepo.

Module Collector.
Inductive method := Collect.
#[global] Instance method_eq_dec : EqDecision method.
Proof. solve_decision. Defined.

Definition fake_interface : interface := {|
  meth := method;
  name m := match m with Collect => "Collect" end;
  Args m := match m with Collect => unit end;
  Results m := match m with Collect => gslice RouteWithBackends end;
  zero m := match m with Collect => Nil end;
  boxed m := match m with Collect => λ _, [] end;
|}.

Section generated_functions.
Context {W : Type}.
Notation functions := (generated (I := fake_interface) (W := W)).

Definition Collect_functions : functions Collect :=
  generate (I := fake_interface) false false true Collect.
Definition log_functions := (Invocations (I := fake_interface) (W := W), recordInvocation).
End generated_functions.
End Collector.

Module RouteMappingsRepo.
Inductive method := GetCalculatedWeight | Map | Unmap | Sync | List.
#[global] Instance method_eq_dec : EqDecision method.
Proof. solve_decision. Defined.

Definition fake_interface : interface := {|
  meth := method;
  name m := match m with
    | GetCalculatedWeight => "GetCalculatedWeight"
    | Map => "Map"
    | Unmap => "Unmap"
    | Sync => "Sync"
    | List => "List" end;
  Args m := match m with
    | GetCalculatedWeight => option RouteMapping
    | Map => option RouteMapping
    | Unmap => option RouteMapping
    | Sync => gslice RouteMapping
    | List => unit end;
  Results m := match m with
    | GetCalculatedWeight => Z
    | Map => unit
    | Unmap => unit
    | Sync => unit
    | List => gmap string (option RouteMapping) end;
  zero m := match m with
    | GetCalculatedWeight => 0%Z
    | Map => tt
    | Unmap => tt
    | Sync => tt
    | List => ∅ end;
  boxed m := match m with
    | GetCalculatedWeight => λ a, [Any a]
    | Map => λ a, [Any a]
    | Unmap => λ a, [Any a]
    | Sync => λ a, [Any a]
    | List => λ _, [] end;
|}.

Section generated_functions.
Context {W : Type}.
Notation functions := (generated (I := fake_interface) (W := W)).

Definition GetCalculatedWeight_functions : functions GetCalculatedWeight :=
  generate (I := fake_interface) false true true GetCalculatedWeight.
Definition Map_functions : functions Map :=
  generate (I := fake_interface) false true false Map.
Definition Unmap_functions : functions Unmap :=
  generate (I := fake_interface) false true false Unmap.
Definition Sync_functions : functions Sync :=
  generate (I := fake_interface) false true false Sync.
Definition List_functions : functions List :=
  generate (I := fake_interface) false false true List.
Definition log_functions := (Invocations (I := fake_interface) (W := W), recordInvocation).
End generated_functions.
End RouteMappingsRepo.

Module RoutesRepo.
Inductive method := Upsert | Delete | Sync | Get | List.
#[global] Instance method_eq_dec : EqDecision method.
Proof. solve_decision. Defined.

Definition fake_interface : interface := {|
  meth := method;
  name m := match m with
    | Upsert => "Upsert"
    | Delete => "Delete"
    | Sync => "Sync"
    | Get => "Get"
    | List => "List" end;
  Args m := match m with
    | Upsert => option Route
    | Delete => string
    | Sync => gslice Route
    | Get => string
    | List => unit end;
  Results m := match m with
    | Upsert => unit
    | Delete => unit
    | Sync => unit
    | Get => (option Route * bool)%type
    | List => gmap string string end;
  zero m := match m with
    | Upsert => tt
    | Delete => tt
    | Sync => tt
    | Get => (None, false)
    | List => ∅ end;
  boxed m := match m with
    | Upsert => λ a, [Any a]
    | Delete => λ a, [Any a]
    | Sync => λ a, [Any a]
    | Get => λ a, [Any a]
    | List => λ _, [] end;
|}.

Section generated_functions.
Context {W : Type}.
Notation functions := (generated (I := fake_interface) (W := W)).

Definition Upsert_functions : functions Upsert :=
  generate (I := fake_interface) false true false Upsert.
Definition Delete_functions : functions Delete :=
  generate (I := fake_interface) false true false Delete.
Definition Sync_functions : functions Sync :=
  generate (I := fake_interface) false true false Sync.
Definition Get_functions : functions Get :=
  generate (I := fake_interface) false true true Get.
Definition List_functions : functions List :=
  generate (I := fake_interface) false false true List.
Definition log_functions := (Invocations (I := fake_interface) (W := W), recordInvocation).
End generated_functions.
End RoutesRepo.

Module RoutesRepoVIPResolverInterface.
Inductive method := GetVIPByName.
#[global] Instance method_eq_dec : EqDecision method.
Proof. solve_decision. Defined.

Definition fake_interface : interface := {|
  meth := method;
  name m := match m with GetVIPByName => "GetVIPByName" end;
  Args m := match m with GetVIPByName => string end;
  Results m := match m with GetVIPByName => (string * bool)%type end;
  zero m := match m with GetVIPByName => ("", false) end;
  boxed m := match m with GetVIPByName => λ a, [Any a] end;
|}.

Section generated_functions.
Context {W : Type}.
Notation functions := (generated (I := fake_interface) (W := W)).

Definition GetVIPByName_functions : functions GetVIPByName :=
  generate (I := fake_interface) false true true GetVIPByName.
Definition log_functions := (Invocations (I := fake_interface) (W := W), recordInvocation).
End generated_functions.
End RoutesRepoVIPResolverInterface.

Module VIPProvider.
Inductive method := Get.
#[global] Instance method_eq_dec : EqDecision method.
Proof. solve_decision. Defined.

Definition fake_interface : interface := {|
  meth := method;
  name m := match m with Get => "Get" end;
  Args m := match m with Get => string end;
  Results m := match m with Get => string end;
  zero m := match m with Get => "" end;
  boxed m := match m with Get => λ a, [Any a] end;
|}.

Section generated_functions.
Context {W : Type}.
Notation functions := (generated (I := fake_interface) (W := W)).

Definition Get_functions : functions Get :=
  generate (I := fake_interface) false true true Get.
Definition log_functions := (Invocations (I := fake_interface) (W := W), recordInvocation).
End generated_functions.
End VIPProvider.

End handlers_fakes.

(** ** The fakes of the interfaces in [models/]; the logger, the filter and the event source
    are the BBS client's. *)
Module models_fakes.
Module BBSEventer.
Section bbsevent_types.
Context {Logger ActualLRPFilter EventSource : Type}.

Inductive method := ActualLRPs | SubscribeToInstanceEvents.
#[global] Instance method_eq_dec : EqDecision method.
Proof. solve_decision. Defined.

Definition fake_interface : interface := {|
  meth := method;
  name m := match m with
    | ActualLRPs => "ActualLRPs"
    | SubscribeToInstanceEvents => "SubscribeToInstanceEvents" end;
  Args m := match m with
    | ActualLRPs => (Logger * ActualLRPFilter)%type
    | SubscribeToInstanceEvents => Logger end;
  Results m := match m with
    | ActualLRPs => (gslice (option ActualLRP) * option string)%type
    | SubscribeToInstanceEvents => (option EventSource * option string)%type end;
  zero m := match m with ActualLRPs => (Nil, None) | SubscribeToInstanceEvents => (None, None) end;
  boxed m := match m with
    | ActualLRPs => λ '(arg1, arg2), [Any arg1; Any arg2]
    | SubscribeToInstanceEvents => λ a, [Any a] end;
|}.

Section generated_functions.
Context {W : Type}.
Notation functions := (generated (I := fake_interface) (W := W)).

Definition ActualLRPs_functions : functions ActualLRPs :=
  generate (I := fake_interface) true true true ActualLRPs.
Definition SubscribeToInstanceEvents_functions : functions SubscribeToInstanceEvents :=
  generate (I := fake_interface) true true true SubscribeToInstanceEvents.
Definition log_functions := (Invocations (I := fake_interface) (W := W), recordInvocation).
End generated_functions.
End bbsevent_types.
End BBSEventer.

Module VIPProvider.
Inductive method := Get.
#[global] Instance method_eq_dec : EqDecision method.
Proof. solve_decision. Defined.

Definition fake_interface : interface := {|
  meth := method;
  name m := match m with Get => "Get" end;
  Args m := match m with Get => string end;
  Results m := match m with Get => string end;
  zero m := match m with Get => "" end;
  boxed m := match m with Get => λ a, [Any a] end;
|}.

Section generated_functions.
Context {W : Type}.
Notation functions := (generated (I := fake_interface) (W := W)).

Definition Get_functions : functions Get :=
  generate (I := fake_interface) false true true Get.
Definition log_functions := (Invocations (I := fake_interface) (W := W), recordInvocation).
End generated_functions.
End VIPProvider.

End models_fakes.

(** ** The fakes of the interfaces in [routes/]. *)
Module routes_fakes.
Module BackendSet.
Inductive method := Get | GetInternalBackends.
#[global] Instance method_eq_dec : EqDecision method.
Proof. solve_decision. Defined.

Definition fake_interface : interface := {|
  meth := method;
  name m := match m with Get => "Get" | GetInternalBackends => "GetInternalBackends" end;
  Args m := match m with Get => string | GetInternalBackends => string end;
  Results m := match m with
    | Get => option BackendSets.BackendSet
    | GetInternalBackends => option BackendSets.BackendSet end;
  zero m := match m with Get => None | GetInternalBackends => None end;
  boxed m := match m with Get => λ a, [Any a] | GetInternalBackends => λ a, [Any a] end;
|}.

Section generated_functions.
Context {W : Type}.
Notation functions := (generated (I := fake_interface) (W := W)).

Definition Get_functions : functions Get :=
  generate (I := fake_interface) true true true Get.
Definition GetInternalBackends_functions : functions GetInternalBackends :=
  generate (I := fake_interface) true true true GetInternalBackends.
Definition log_functions := (Invocations (I := fake_interface) (W := W), recordInvocation).
End generated_functions.
End BackendSet.

Module CapiDiego.
Inductive method := Get.
#[global] Instance method_eq_dec : EqDecision method.
Proof. solve_decision. Defined.

Definition fake_interface : interface := {|
  meth := method;
  name m := match m with Get => "Get" end;
  Args m := match m with Get => option string end;
  Results m := match m with Get => option CAPIDiegoProcessAssociation end;
  zero m := match m with Get => None end;
  boxed m := match m with Get => λ a, [Any a] end;
|}.

Section generated_functions.
Context {W : Type}.
Notation functions := (generated (I := fake_interface) (W := W)).

Definition Get_functions : functions Get :=
  generate (I := fake_interface) true true true Get.
Definition log_functions := (Invocations (I := fake_interface) (W := W), recordInvocation).
End generated_functions.
End CapiDiego.

Module RouteMappings.
Inductive method := GetCalculatedWeight | List.
#[global] Instance method_eq_dec : EqDecision method.
Proof. solve_decision. Defined.

Definition fake_interface : interface := {|
  meth := method;
  name m := match m with GetCalculatedWeight => "GetCalculatedWeight" | List => "List" end;
  Args m := match m with GetCalculatedWeight => option RouteMapping | List => unit end;
  Results m := match m with GetCalculatedWeight => Z | List => gmap string RouteMapping end;
  zero m := match m with GetCalculatedWeight => 0%Z | List => ∅ end;
  boxed m := match m with GetCalculatedWeight => λ a, [Any a] | List => λ _, [] end;
|}.

Section generated_functions.
Context {W : Type}.
Notation functions := (generated (I := fake_interface) (W := W)).

Definition GetCalculatedWeight_functions : functions GetCalculatedWeight :=
  generate (I := fake_interface) true true true GetCalculatedWeight.
Definition List_functions : functions List :=
  generate (I := fake_interface) true false true List.
Definition log_functions := (Invocations (I := fake_interface) (W := W), recordInvocation).
End generated_functions.
End RouteMappings.

Module RoutesRepo.
Inductive method := Get.
#[global] Instance method_eq_dec : EqDecision method.
Proof. solve_decision. Defined.

Definition fake_interface : interface := {|
  meth := method;
  name m := match m with Get => "Get" end;
  Args m := match m with Get => string end;
  Results m := match m with Get => (option Route * bool)%type end;
  zero m := match m with Get => (None, false) end;
  boxed m := match m with Get => λ a, [Any a] end;
|}.

Section generated_functions.
Context {W : Type}.
Notation functions := (generated (I := fake_interface) (W := W)).

Definition Get_functions : functions Get :=
  generate (I := fake_interface) true true true Get.
Definition log_functions := (Invocations (I := fake_interface) (W := W), recordInvocation).
End generated_functions.
End RoutesRepo.

Module VIPProvider.
Inductive method := Get.
#[global] Instance method_eq_dec : EqDecision method.
Proof. solve_decision. Defined.

Definition fake_interface : interface := {|
  meth := method;
  name m := match m with Get => "Get" end;
  Args m := match m with Get => string end;
  Results m := match m with Get => string end;
  zero m := match m with Get => "" end;
  boxed m := match m with Get => λ a, [Any a] end;
|}.

Section generated_functions.
Context {W : Type}.
Notation functions := (generated (I := fake_interface) (W := W)).

Definition Get_functions : functions Get :=
  generate (I := fake_interface) true true true Get.
Definition log_functions := (Invocations (I := fake_interface) (W := W), recordInvocation).
End generated_functions.
End VIPProvider.

End routes_fakes.

(** ** The fakes of the interfaces in [snapshot/]. *)
Module snapshot_fakes.
Module Collector.
Inductive method := Collect.
#[global] Instance method_eq_dec : EqDecision method.
Proof. solve_decision. Defined.

Definition fake_interface : interface := {|
  meth := method;
  name m := match m with Collect => "Collect" end;
  Args m := match m with Collect => unit end;
  Results m := match m with Collect => gslice RouteWithBackends end;
  zero m := match m with Collect => Nil end;
  boxed m := match m with Collect => λ _, [] end;
|}.

Section generated_functions.
Context {W : Type}.
Notation functions := (generated (I := fake_interface) (W := W)).

Definition Collect_functions : functions Collect :=
  generate (I := fake_interface) true false true Collect.
Definition log_functions := (Invocations (I := fake_interface) (W := W), recordInvocation).
End generated_functions.
End Collector.

Module Config.
Section config_types.
Context `{Marshal}.

Inductive method := CreateDestinationRuleResources | CreateGatewayResources | CreateServiceEntryResources | CreateSidecarResources | CreateVirtualServiceResources | EmptyResponse.
#[global] Instance method_eq_dec : EqDecision method.
Proof. solve_decision. Defined.

Definition fake_interface : interface := {|
  meth := method;
  name m := match m with
    | CreateDestinationRuleResources => "CreateDestinationRuleResources"
    | CreateGatewayResources => "CreateGatewayResources"
    | CreateServiceEntryResources => "CreateServiceEntryResources"
    | CreateSidecarResources => "CreateSidecarResources"
    | CreateVirtualServiceResources => "CreateVirtualServiceResources"
    | EmptyResponse => "EmptyResponse" end;
  Args m := match m with
    | CreateDestinationRuleResources => ((gslice RouteWithBackends) * string)%type
    | CreateGatewayResources => unit
    | CreateServiceEntryResources => ((gslice RouteWithBackends) * string)%type
    | CreateSidecarResources => ((gslice RouteWithBackends) * (gslice Policy) * string)%type
    | CreateVirtualServiceResources => ((gslice RouteWithBackends) * string)%type
    | EmptyResponse => unit end;
  Results m := match m with
    | CreateDestinationRuleResources => gslice Resource
    | CreateGatewayResources => gslice Resource
    | CreateServiceEntryResources => gslice Resource
    | CreateSidecarResources => gslice Resource
    | CreateVirtualServiceResources => gslice Resource
    | EmptyResponse => gslice Resource end;
  zero m := match m with
    | CreateDestinationRuleResources => Nil
    | CreateGatewayResources => Nil
    | CreateServiceEntryResources => Nil
    | CreateSidecarResources => Nil
    | CreateVirtualServiceResources => Nil
    | EmptyResponse => Nil end;
  boxed m := match m with
    | CreateDestinationRuleResources => λ '(arg1, arg2), [Any arg1; Any arg2]
    | CreateGatewayResources => λ _, []
    | CreateServiceEntryResources => λ '(arg1, arg2), [Any arg1; Any arg2]
    | CreateSidecarResources => λ '(arg1, arg2, arg3), [Any arg1; Any arg2; Any arg3]
    | CreateVirtualServiceResources => λ '(arg1, arg2), [Any arg1; Any arg2]
    | EmptyResponse => λ _, [] end;
|}.

Section generated_functions.
Context {W : Type}.
Notation functions := (generated (I := fake_interface) (W := W)).

Definition CreateDestinationRuleResources_functions : functions CreateDestinationRuleResources :=
  generate (I := fake_interface) true true true CreateDestinationRuleResources.
Definition CreateGatewayResources_functions : functions CreateGatewayResources :=
  generate (I := fake_interface) true false true CreateGatewayResources.
Definition CreateServiceEntryResources_functions : functions CreateServiceEntryResources :=
  generate (I := fake_interface) true true true CreateServiceEntryResources.
Definition CreateSidecarResources_functions : functions CreateSidecarResources :=
  generate (I := fake_interface) true true true CreateSidecarResources.
Definition CreateVirtualServiceResources_functions : functions CreateVirtualServiceResources :=
  generate (I := fake_interface) true true true CreateVirtualServiceResources.
Definition EmptyResponse_functions : functions EmptyResponse :=
  generate (I := fake_interface) true false true EmptyResponse.
Definition log_functions := (Invocations (I := fake_interface) (W := W), recordInvocation).
End generated_functions.
End config_types.
End Config.

Module Setter.
Section setter_types.
Context `{Marshal}.

Inductive method := SetSnapshot.
#[global] Instance method_eq_dec : EqDecision method.
Proof. solve_decision. Defined.

Definition fake_interface : interface := {|
  meth := method;
  name m := match m with SetSnapshot => "SetSnapshot" end;
  Args m := match m with SetSnapshot => (string * (InMemory Resource))%type end;
  Results m := match m with SetSnapshot => unit end;
  zero m := match m with SetSnapshot => tt end;
  boxed m := match m with SetSnapshot => λ '(arg1, arg2), [Any arg1; Any arg2] end;
|}.

Section generated_functions.
Context {W : Type}.
Notation functions := (generated (I := fake_interface) (W := W)).

Definition SetSnapshot_functions : functions SetSnapshot :=
  generate (I := fake_interface) true true false SetSnapshot.
Definition log_functions := (Invocations (I := fake_interface) (W := W), recordInvocation).
End generated_functions.
End setter_types.
End Setter.

End snapshot_fakes.

(** ** The fake of the stream of [BulkSync]; metadata, contexts and messages of
    any type are gRPC's. *)
Module testhelpers.
Module FakeCloudControllerCopilot_BulkSyncServer.
Section fakeclou_types.
Context {MD Context Message : Type}.

Inductive method := SendAndClose | Recv | SetHeader | SendHeader | SetTrailer | Context_ | SendMsg | RecvMsg.
#[global] Instance method_eq_dec : EqDecision method.
Proof. solve_decision. Defined.

Definition fake_interface : interface := {|
  meth := method;
  name m := match m with
    | SendAndClose => "SendAndClose"
    | Recv => "Recv"
    | SetHeader => "SetHeader"
    | SendHeader => "SendHeader"
    | SetTrailer => "SetTrailer"
    | Context_ => "Context"
    | SendMsg => "SendMsg"
    | RecvMsg => "RecvMsg" end;
  Args m := match m with
    | SendAndClose => option BulkSyncResponse
    | Recv => unit
    | SetHeader => MD
    | SendHeader => MD
    | SetTrailer => MD
    | Context_ => unit
    | SendMsg => option Message
    | RecvMsg => option Message end;
  Results m := match m with
    | SendAndClose => option error
    | Recv => (option BulkSyncRequestChunk * option recv_error)%type
    | SetHeader => option error
    | SendHeader => option error
    | SetTrailer => unit
    | Context_ => option Context
    | SendMsg => option error
    | RecvMsg => option error end;
  zero m := match m with
    | SendAndClose => None
    | Recv => (None, None)
    | SetHeader => None
    | SendHeader => None
    | SetTrailer => tt
    | Context_ => None
    | SendMsg => None
    | RecvMsg => None end;
  boxed m := match m with
    | SendAndClose => λ a, [Any a]
    | Recv => λ _, []
    | SetHeader => λ a, [Any a]
    | SendHeader => λ a, [Any a]
    | SetTrailer => λ a, [Any a]
    | Context_ => λ _, []
    | SendMsg => λ a, [Any a]
    | RecvMsg => λ a, [Any a] end;
|}.

Section generated_functions.
Context {W : Type}.
Notation functions := (generated (I := fake_interface) (W := W)).

Definition SendAndClose_functions : functions SendAndClose :=
  generate (I := fake_interface) false true true SendAndClose.
Definition Recv_functions : functions Recv :=
  generate (I := fake_interface) false false true Recv.
Definition SetHeader_functions : functions SetHeader :=
  generate (I := fake_interface) false true true SetHeader.
Definition SendHeader_functions : functions SendHeader :=
  generate (I := fake_interface) false true true SendHeader.
Definition SetTrailer_functions : functions SetTrailer :=
  generate (I := fake_interface) false true false SetTrailer.
Definition Context_functions : functions Context_ :=
  generate (I := fake_interface) false false true Context_.
Definition SendMsg_functions : functions SendMsg :=
  generate (I := fake_interface) false true true SendMsg.
Definition RecvMsg_functions : functions RecvMsg :=
  generate (I := fake_interface) false true true RecvMsg.
Definition log_functions := (Invocations (I := fake_interface) (W := W), recordInvocation).
End generated_functions.
End fakeclou_types.
End FakeCloudControllerCopilot_BulkSyncServer.

End testhelpers.
