(* ===== verification/FakeRuns.v ===== *)
(** * The program against its fakes

    What the tests do: the handlers, the bulk sync and the snapshot loop run over the
    interfaces of [Handlers] and [LoopInterfaces], implemented by the generated fakes.
    A fake in use is a fake with the world its stubs act on, and the theorems say
    which calls the program makes, for fakes in any state: with stubs, with scripted
    answers or fresh. *)
From S2P Require Import Prelude GoStrings Routes RouteMappings Associations BackendSets FixWeights.
From S2P Require Import Api Handlers Certs Istio Sidecars McpCache SnapshotLoop LoopInterfaces.
From S2P Require Import BulkStream Fakes FakeInstances.

(** ** Fakes in use *)
Section use.
Context {I : interface} {W : Type}.

Definition in_use : Type := fake I W * W.

Definition invoke (s : in_use) (m : meth I) (args : Args I m) : in_use * Results I m :=
  ((call s.1 m args s.2).1, (call s.1 m args s.2).2.1, (call s.1 m args s.2).2.2).

(** The recorded arguments of a method. *)
Definition recorded (s : in_use) (m : meth I) : list (Args I m) := argsForCall (methods s.1 m).

Lemma recorded_same s m args : recorded (invoke s m args).1 m = recorded s m ++ [args].
Proof. unfold recorded, invoke. cbn [fst snd]. by rewrite call_same. Qed.

Lemma recorded_other s m args m' : m ≠ m' → recorded (invoke s m args).1 m' = recorded s m'.
Proof. intros. unfold recorded, invoke. cbn [fst snd]. by rewrite call_other. Qed.

(** Without a stub, the answer is the one for the number of earlier calls. *)
Lemma invoke_scripted s m args r :
  stub (methods s.1 m) = None →
  returnsOnCall (methods s.1 m) !! Z.of_nat (length (recorded s m)) = Some r →
  (invoke s m args).2 = r.
Proof. unfold invoke, call, recorded. simpl. by intros -> ->. Qed.
End use.
Arguments in_use : clear implicits.
Global Arguments invoke : simpl never.
Global Arguments recorded : simpl never.

(** What a sequence of calls adds to the records. *)
Ltac records :=
  repeat first [rewrite recorded_same | rewrite recorded_other by discriminate];
  rewrite <-?app_assoc, ?app_nil_r; try done.

(** ** The fakes implement the interfaces of the handlers *)
Module Import handler_fakes.
Import handlers_fakes.

Notation on_routes := (invoke (I := RoutesRepo.fake_interface)).
Notation on_mappings := (invoke (I := RouteMappingsRepo.fake_interface)).
Notation on_associations := (invoke (I := CAPIDiegoProcessAssociationsRepo.fake_interface)).
Notation on_resolver := (invoke (I := RoutesRepoVIPResolverInterface.fake_interface)).

Section instances.
Context {W : Type}.

#[export] Instance RoutesRepo_fake
    : routesRepoInterface (in_use RoutesRepo.fake_interface W) := {|
  routes_Upsert s route := (on_routes s RoutesRepo.Upsert (Some route)).1;
  routes_Delete s guid := (on_routes s RoutesRepo.Delete guid).1;
  routes_Sync s routes := (on_routes s RoutesRepo.Sync (Sl routes)).1;
  routes_Get s guid :=
    let '(s, (route, ok)) := on_routes s RoutesRepo.Get guid in
    (s, if ok then route else None);
  routes_List s := on_routes s RoutesRepo.List tt;
|}.
#[export] Instance RouteMappingsRepo_fake
    : routeMappingsRepoInterface (in_use RouteMappingsRepo.fake_interface W) := {|
  mappings_GetCalculatedWeight s rm := on_mappings s RouteMappingsRepo.GetCalculatedWeight (Some rm);
  mappings_Map s rm := (on_mappings s RouteMappingsRepo.Map (Some rm)).1;
  mappings_Unmap s rm := (on_mappings s RouteMappingsRepo.Unmap (Some rm)).1;
  mappings_Sync s rms := (on_mappings s RouteMappingsRepo.Sync (Sl rms)).1;
  mappings_List s := on_mappings s RouteMappingsRepo.List tt;
|}.
#[export] Instance AssociationsRepo_fake
    : capiDiegoProcessAssociationsRepoInterface
        (in_use CAPIDiegoProcessAssociationsRepo.fake_interface W) := {|
  associations_Upsert s a := (on_associations s CAPIDiegoProcessAssociationsRepo.Upsert (Some a)).1;
  associations_Delete s guid := (on_associations s CAPIDiegoProcessAssociationsRepo.Delete (Some guid)).1;
  associations_Sync s l := (on_associations s CAPIDiegoProcessAssociationsRepo.Sync (Sl l)).1;
  associations_List s := on_associations s CAPIDiegoProcessAssociationsRepo.List tt;
  associations_Get s guid := on_associations s CAPIDiegoProcessAssociationsRepo.Get (Some guid);
|}.
#[export] Instance Resolver_fake
    : routesRepoVIPResolverInterface (in_use RoutesRepoVIPResolverInterface.fake_interface W) :=
  λ s hostname, on_resolver s RoutesRepoVIPResolverInterface.GetVIPByName hostname.
End instances.

(** The handlers with fakes for all three repositories. *)
Definition fake_capi (W : Type) : Type :=
  CAPI (in_use RoutesRepo.fake_interface W) (in_use RouteMappingsRepo.fake_interface W)
       (in_use CAPIDiegoProcessAssociationsRepo.fake_interface W).

(** ** Specification: the calls that a repository operation is *)
Definition routes_calls (o : repo_op) (m : RoutesRepo.method)
    : list (Args RoutesRepo.fake_interface m) :=
  match o, m with
  | ORoutes (Routes.OUpsert route), RoutesRepo.Upsert => [Some route]
  | ORoutes (Routes.ODelete guid), RoutesRepo.Delete => [guid]
  | ORoutes (Routes.OSync routes), RoutesRepo.Sync => [Sl routes]
  | _, _ => []
  end.
Definition mappings_calls (o : repo_op) (m : RouteMappingsRepo.method)
    : list (Args RouteMappingsRepo.fake_interface m) :=
  match o, m with
  | OMappings (RouteMappings.OMap rm), RouteMappingsRepo.Map => [Some rm]
  | OMappings (RouteMappings.OUnmap rm), RouteMappingsRepo.Unmap => [Some rm]
  | OMappings (RouteMappings.OSync rms), RouteMappingsRepo.Sync => [Sl rms]
  | _, _ => []
  end.
Definition associations_calls (o : repo_op) (m : CAPIDiegoProcessAssociationsRepo.method)
    : list (Args CAPIDiegoProcessAssociationsRepo.fake_interface m) :=
  match o, m with
  | OAssociations (Associations.OUpsert a), CAPIDiegoProcessAssociationsRepo.Upsert => [Some a]
  | OAssociations (Associations.ODelete guid), CAPIDiegoProcessAssociationsRepo.Delete =>
      [Some guid]
  | OAssociations (Associations.OSync l), CAPIDiegoProcessAssociationsRepo.Sync => [Sl l]
  | _, _ => []
  end.

(** The calls recorded between two states are exactly those of some operations. *)
Definition recorded_ops {W} (c c' : fake_capi W) (os : list repo_op) : Prop :=
  (∀ m, recorded (capi_routes c') m =
        recorded (capi_routes c) m ++ (os ≫= λ o, routes_calls o m)) ∧
  (∀ m, recorded (capi_mappings c') m =
        recorded (capi_mappings c) m ++ (os ≫= λ o, mappings_calls o m)) ∧
  (∀ m, recorded (capi_associations c') m =
        recorded (capi_associations c) m ++ (os ≫= λ o, associations_calls o m)).

Lemma recorded_nothing {W} (c : fake_capi W) : recorded_ops c c [].
Proof. split_and!; intros m; by rewrite app_nil_r. Qed.

Lemma recorded_trans {W} (c1 c2 c3 : fake_capi W) os1 os2 :
  recorded_ops c1 c2 os1 → recorded_ops c2 c3 os2 → recorded_ops c1 c3 (os1 ++ os2).
Proof.
  intros (Hr1 & Hm1 & Ha1) (Hr2 & Hm2 & Ha2). split_and!; intros m.
  - by rewrite Hr2, Hr1, bind_app, app_assoc.
  - by rewrite Hm2, Hm1, bind_app, app_assoc.
  - by rewrite Ha2, Ha1, bind_app, app_assoc.
Qed.

Lemma recorded_op {W} (c : fake_capi W) o : recorded_ops c (apply_repo_op c o) [o].
Proof.
  split_and!; intros m; simpl; rewrite app_nil_r.
  - destruct o as [[]|[]|[]], m; simpl; records.
  - destruct o as [[]|[]|[]], m; simpl; records.
  - destruct o as [[]|[]|[]], m; simpl; records.
Qed.

Lemma recorded_all {W} (c : fake_capi W) os : recorded_ops c (foldl apply_repo_op c os) os.
Proof.
  revert c; induction os as [|o os IH]; intros c; [apply recorded_nothing|].
  apply (recorded_trans _ (apply_repo_op c o) _ [o]); [apply recorded_op|apply IH].
Qed.

(** Unary requests one after the other, with their answers. *)
Fixpoint requests `{GoSyntax} {W} (c : fake_capi W) (rs : list Handlers.request)
    : outcome (fake_capi W * list (error + unit)) :=
  match rs with
  | [] => Ret (c, [])
  | r :: rs =>
      '(c, out) ← handle c r; '(c, outs) ← requests c rs; Ret (c, out :: outs)
  end.

Lemma requests_recorded `{GoSyntax} {W} (c : fake_capi W) (rs : list Handlers.request) :
  Forall wf_request rs →
  ∃ c' outs, requests c rs = Ret (c', outs) ∧ recorded_ops c c' (omap request_op rs) ∧
    Forall2 (λ r out, out = inr () ↔ is_Some (request_op r)) rs outs.
Proof.
  intros Hwf. revert c; induction Hwf as [|r rs Hr Hwf IH]; intros c.
  { exists c, []. split_and!; [done|apply recorded_nothing|constructor]. }
  pose proof (handle_branches c r Hr) as Hb. cbn [requests].
  change (omap request_op (r :: rs)) with
    (match request_op r with Some o => o :: omap request_op rs | None => omap request_op rs end).
  destruct (request_op r) as [o|] eqn:Eo.
  - rewrite Hb. simpl. destruct (IH (apply_repo_op c o)) as (c' & outs & -> & Hrec & Houts).
    simpl. exists c', (inr () :: outs). split; [done|]. split.
    + by apply (recorded_trans _ (apply_repo_op c o) _ [o]); [apply recorded_op|].
    + constructor; [|done]. by rewrite Eo.
  - destruct Hb as [msg ->]. simpl. destruct (IH c) as (c' & outs & -> & Hrec & Houts).
    simpl. exists c', (inl (InvalidArgument msg) :: outs). split; [done|]. split; [done|].
    constructor; [|done]. rewrite Eo. split; [done|]. by intros [? ?].
Qed.
End handler_fakes.

(** ** Bulk sync over its stream *)
Module Import bulk_fakes.
Module fake_server := testhelpers.FakeCloudControllerCopilot_BulkSyncServer.

(** The request of a stream, when it ends well and decodes; the answer to it; the
    operations it asks for. *)
Definition decoded (unmarshal : list Byte.byte → error + BulkSyncRequest) (s : stream)
    : option BulkSyncRequest :=
  match stream_end s with
  | Some _ => None
  | None =>
      match (if (length (stream_bytes s) =? 0)%nat then inr empty_bulk_sync
             else unmarshal (stream_bytes s)) with
      | inl _ => None
      | inr request => Some request
      end
  end.
Definition sync_response (s : stream) : BulkSyncResponse :=
  mkBulkSyncResponse (i32 (Z.of_nat (length (stream_bytes s)))).
Definition sync_ops (request : BulkSyncRequest) : list repo_op := [
  OMappings (RouteMappings.OSync (to_model_mapping <$> omap id (elems (Api.RouteMappings request))));
  ORoutes (Routes.OSync (sync_route <$> elems (Api.Routes request)));
  OAssociations (Associations.OSync
    ((λ a, mkAssociation (Api.Association.CapiProcessGuid a)
             (Sl (elems (Api.Association.DiegoProcessGuids a)))) <$>
     omap id (elems (Api.CapiDiegoProcessAssociations request))))].

Lemma after_sync_recorded {W} (c : fake_capi W) request :
  recorded_ops c (after_sync c request) (sync_ops request).
Proof.
  change (after_sync c request) with (foldl apply_repo_op c (sync_ops request)). apply recorded_all.
Qed.

(** The fake of the tests. *)
Section fake_stream.
Context {MD Context_type Message W : Type}.
Notation stream_interface :=
  (fake_server.fake_interface (MD := MD) (Context := Context_type) (Message := Message)).
Notation on_stream := (invoke (I := stream_interface)).
Notation fake_stream := (in_use stream_interface W).

#[export] Instance BulkSync_fake : BulkSyncServer fake_stream := {|
  Recv st := on_stream st fake_server.Recv tt;
  SendAndClose st response :=
    on_stream st fake_server.SendAndClose (Some response);
|}.

(** What [Recv] answers, call after call, for a stream. *)
Fixpoint script (s : stream) : list (option BulkSyncRequestChunk * option recv_error) :=
  match s with
  | SChunk chunk rest => (Some chunk, None) :: script rest
  | SEof => [(None, Some EOF)]
  | SError err => [(None, Some (RecvErr err))]
  end.

(** The fake plays the stream from now on: [RecvReturnsOnCall] for each call. *)
Definition plays (st : fake_stream) (s : stream) : Prop :=
  let f := methods (I := stream_interface) st.1 fake_server.Recv in
  stub f = None ∧
  ∀ i a, script s !! i = Some a → returnsOnCall f !! Z.of_nat (length (argsForCall f) + i) = Some a.

(** ** Lemmas *)
Notation received st := (recorded (I := stream_interface) st fake_server.Recv).
Notation answered st := (recorded (I := stream_interface) st fake_server.SendAndClose).

Lemma plays_next st s a :
  plays st s → head (script s) = Some a →
  (Recv st).2 = a ∧ (∀ chunk rest, s = SChunk chunk rest → plays (Recv st).1 rest).
Proof.
  intros [Hstub Hs] Ha. split.
  - apply (invoke_scripted (I := stream_interface) st fake_server.Recv tt a); [done|].
    specialize (Hs 0 a). rewrite Nat.add_0_r in Hs. apply Hs. by destruct (script s).
  - intros chunk rest ->. unfold plays.
    pose proof (call_same (I := stream_interface) st.1 fake_server.Recv tt st.2) as E.
    change (Recv st).1 with (on_stream st fake_server.Recv tt).1. unfold invoke. cbn [fst snd].
    cbv zeta. rewrite E. split; [done|]. simpl. intros i b Hb. specialize (Hs (S i) b Hb). rewrite length_app. simpl.
    rewrite <-Nat.add_assoc. exact Hs.
Qed.

Lemma played_records st s :
  received (played st s) = received st ++ replicate (receives s) tt ∧
  answered (played st s) = answered st.
Proof.
  revert st; induction s as [chunk rest IH| |err]; intros st; cbn [played receives replicate].
  - destruct (IH (Recv st).1) as [-> ->].
    change (Recv st).1 with (on_stream st fake_server.Recv tt).1. split; records.
  - change (Recv st).1 with (on_stream st fake_server.Recv tt).1. split; records.
  - change (Recv st).1 with (on_stream st fake_server.Recv tt).1. split; records.
Qed.

Lemma plays_playing st s : plays st s → playing st s.
Proof.
  revert st; induction s as [chunk rest IH| |err]; intros st Hp; cbn [playing].
  - destruct (plays_next st _ (Some chunk, None) Hp eq_refl) as [Ha Hp'].
    split; [done|]. by apply IH, (Hp' chunk).
  - by destruct (plays_next st _ (None, Some EOF) Hp eq_refl) as [-> _].
  - by destruct (plays_next st _ (None, Some (RecvErr err)) Hp eq_refl) as [-> _].
Qed.
End fake_stream.
End bulk_fakes.

(** ** The snapshot loop *)
Module Import loop_fakes.
Import snapshot_fakes.

Section loop.
Context `{Marshal} {W1 W2 W3 P : Type} `{!InternalPolicyClient P}.
Notation fake_collector := (in_use Collector.fake_interface W1).
Notation fake_config := (in_use Config.fake_interface W2).
Notation fake_setter := (in_use Setter.fake_interface W3).
Notation on_collector := (invoke (I := Collector.fake_interface)).
Notation on_config := (invoke (I := Config.fake_interface)).
Notation on_setter := (invoke (I := Setter.fake_interface)).

#[export] Instance Collector_fake : collector fake_collector :=
  λ s, Ret (on_collector s Collector.Collect tt).
#[export] Instance Config_fake : config fake_config := {|
  EmptyResponse s := Ret (on_config s Config.EmptyResponse tt);
  CreateGatewayResources s := Ret (on_config s Config.CreateGatewayResources tt);
  CreateSidecarResources s routes policies version :=
    Ret (on_config s Config.CreateSidecarResources (routes, policies, version));
  CreateVirtualServiceResources s routes version :=
    Ret (on_config s Config.CreateVirtualServiceResources (routes, version));
  CreateDestinationRuleResources s routes version :=
    Ret (on_config s Config.CreateDestinationRuleResources (routes, version));
  CreateServiceEntryResources s routes version :=
    Ret (on_config s Config.CreateServiceEntryResources (routes, version));
|}.
#[export] Instance Setter_fake : setter fake_setter :=
  λ s node shot, Ret ((on_setter s Setter.SetSnapshot (node, shot)).1).

Notation fake_loop := (Loop fake_collector P fake_config fake_setter).

(** What the loop asks of its configuration to publish. *)
Definition config_calls (routes : gslice RouteWithBackends) (policies : gslice Policy) (v : string)
    (m : Config.method) : list (Args Config.fake_interface m) :=
  match m with
  | Config.CreateGatewayResources => [tt]
  | Config.CreateSidecarResources => [(routes, policies, v)]
  | Config.CreateVirtualServiceResources => [(routes, v)]
  | Config.CreateDestinationRuleResources => [(routes, v)]
  | Config.CreateServiceEntryResources => [(routes, v)]
  | Config.EmptyResponse => replicate (length unsupported) tt
  end.

(** The versions it sets. *)
Definition published_versions (v : string) : list (string * string) :=
  [(GatewayTypeURL, "1"); (SidecarTypeURL, v); (VirtualServiceTypeURL, v);
   (DestinationRuleTypeURL, v); (ServiceEntryTypeURL, v)] ++ ((λ url, (url, "1")) <$> unsupported).

Fixpoint empties (n : nat) (k : fake_config) : fake_config :=
  match n with 0 => k | S n => empties n (on_config k Config.EmptyResponse tt).1 end.

Lemma recorded_empties n k m :
  recorded (I := Config.fake_interface) (empties n k) m =
  recorded (I := Config.fake_interface) k m ++
  match m return list (Args Config.fake_interface m) with
  | Config.EmptyResponse => replicate n tt | _ => [] end.
Proof.
  revert k; induction n as [|n IH]; intros k; cbn [empties]; [by destruct m; rewrite app_nil_r|].
  rewrite IH. by destruct m; records.
Qed.

Lemma set_empty_fakes k b urls :
  ∃ b', foldM set_empty (k, Some b) urls = Ret (empties (length urls) k, Some b') ∧
    versions b' = insert_all fst snd ((λ url, (url, "1")) <$> urls) (versions b).
Proof.
  revert k b; induction urls as [|url urls IH]; intros k b; [by exists b|]. simpl.
  destruct (IH (on_config k Config.EmptyResponse tt).1
    (mkInMemory (<[url := (on_config k Config.EmptyResponse tt).2]> (resources b))
                (<[url := "1"]> (versions b)))) as (b' & E & Hb').
  exists b'. split; [exact E|done].
Qed.

(** A publishing round's calls, on fakes in any state. *)
Lemma fill_builder_fakes k b routes policies v :
  ∃ k' b', fill_builder k (Some b) routes policies v = Ret (k', Some b') ∧
    (∀ m, recorded (I := Config.fake_interface) k' m =
          recorded (I := Config.fake_interface) k m ++ config_calls routes policies v m) ∧
    versions b' = insert_all fst snd (published_versions v) (versions b).
Proof.
  pose (k1 := on_config k Config.CreateGatewayResources tt).
  pose (k2 := on_config k1.1 Config.CreateSidecarResources (routes, policies, v)).
  pose (k3 := on_config k2.1 Config.CreateVirtualServiceResources (routes, v)).
  pose (k4 := on_config k3.1 Config.CreateDestinationRuleResources (routes, v)).
  pose (k5 := on_config k4.1 Config.CreateServiceEntryResources (routes, v)).
  pose (entries := [(GatewayTypeURL, k1.2); (SidecarTypeURL, k2.2); (VirtualServiceTypeURL, k3.2);
    (DestinationRuleTypeURL, k4.2); (ServiceEntryTypeURL, k5.2)]).
  destruct (set_empty_fakes k5.1
    (mkInMemory (insert_all fst snd entries (resources b))
       (insert_all fst snd (take 5 (published_versions v)) (versions b))) unsupported)
    as (b' & E & Hb').
  exists (empties (length unsupported) k5.1), b'. split; [exact E|]. split.
  - intros m. rewrite recorded_empties. unfold k5, k4, k3, k2, k1.
    by destruct m; records.
  - exact Hb'.
Qed.

Lemma published_version v m url version :
  (url, version) ∈ published_versions v →
  default "" (insert_all fst snd (published_versions v) m !! url) = version.
Proof.
  rewrite lookup_insert_all. unfold published_versions. simpl. rewrite !elem_of_cons, elem_of_nil.
  intros Hin. repeat destruct Hin as [[= -> ->]|Hin]; [vm_compute; reflexivity..|done].
Qed.

(** The loop's builder is there between rounds. *)
Definition has_builder (l : fake_loop) : Prop := is_Some (builder (fields l)).

(** One round on fakes, on all branches. *)
Lemma round_fakes (l : fake_loop) p policies :
  has_builder l → get_policies (loop_policies l) = Ret (p, policies) →
  ∃ l', round l = Ret l' ∧ has_builder l' ∧ loop_policies l' = p ∧
    loop_collector l' = (on_collector (loop_collector l) Collector.Collect tt).1 ∧
    let routes := (on_collector (loop_collector l) Collector.Collect tt).2 in
    match policies with
    | inl _ => fields l' = fields l ∧ loop_config l' = loop_config l ∧ loop_setter l' = loop_setter l
    | inr ps =>
        if decide (last_seen (fields l) = Some (routes, ps))
        then fields l' = fields l ∧ loop_config l' = loop_config l ∧ loop_setter l' = loop_setter l
        else let v := Itoa (i64 (ver (fields l) + 1)) in
          last_seen (fields l') = Some (routes, ps) ∧
          ver (fields l') = i64 (ver (fields l) + 1) ∧
          (∀ m, recorded (I := Config.fake_interface) (loop_config l') m =
                recorded (I := Config.fake_interface) (loop_config l) m ++
                config_calls routes ps v m) ∧
          ∃ shot, loop_setter l' = (on_setter (loop_setter l) Setter.SetSnapshot (node, shot)).1 ∧
            ∀ url version, (url, version) ∈ published_versions v → VersionOf shot url = version
    end.
Proof.
  intros [b Hb] Hp. unfold round. change (Collect (loop_collector l)) with
    (Ret (A := fake_collector * _) (on_collector (loop_collector l) Collector.Collect tt)).
  destruct (on_collector (loop_collector l) Collector.Collect tt) as [c routes]. simpl.
  rewrite Hp. simpl. destruct policies as [err|ps]; [eexists; split; [done|]; split; [by exists b|done]|].
  rewrite unchanged_iff. case_decide as E.
  { rewrite bool_decide_eq_true_2 by done. eexists; split; [done|]. split; [by exists b|done]. }
  rewrite bool_decide_eq_false_2 by done.
  destruct (fill_builder_fakes (loop_config l) b routes ps (Itoa (i64 (ver (fields l) + 1))))
    as (k & b' & Hfill & Hrec & Hv).
  simpl. rewrite Hb, Hfill. simpl. eexists. split; [reflexivity|]. split; [by eexists|].
  split_and!; [done..|]. exists b'. split; [done|]. intros url version Hin. unfold VersionOf, lookup0.
  rewrite Hv. by apply published_version.
Qed.

Fixpoint rounds (n : nat) (l : fake_loop) : outcome fake_loop :=
  match n with 0 => Ret l | S n => l ← round l; rounds n l end.

(** How often a publication calls a method of the configuration. *)
Definition calls_per_shot (m : Config.method) : nat :=
  match m with Config.EmptyResponse => length unsupported | _ => 1 end.

Lemma config_calls_length routes ps v m : length (config_calls routes ps v m) = calls_per_shot m.
Proof. by destruct m. Qed.

Lemma get_policies_total (p : option P) :
  (∀ p, is_ret (GetPolicies p)) → ∃ r, get_policies p = Ret r.
Proof.
  intros Hp. destruct p as [p|]; [|by eexists]. destruct (Hp p) as [r Hr]. simpl. rewrite Hr.
  by eexists.
Qed.

Lemma rounds_fakes n (l : fake_loop) :
  (∀ p : P, is_ret (GetPolicies p)) → has_builder l →
  (0 ≤ ver (fields l))%Z → (ver (fields l) + Z.of_nat n < 2 ^ 63)%Z →
  ∃ l' shots, rounds n l = Ret l' ∧
    recorded (I := Collector.fake_interface) (loop_collector l') Collector.Collect =
      recorded (I := Collector.fake_interface) (loop_collector l) Collector.Collect ++ replicate n tt ∧
    recorded (I := Setter.fake_interface) (loop_setter l') Setter.SetSnapshot =
      recorded (I := Setter.fake_interface) (loop_setter l) Setter.SetSnapshot ++
      ((λ shot, (node, shot)) <$> shots) ∧
    length shots ≤ n ∧
    (∀ i shot url version, shots !! i = Some shot →
       (url, version) ∈ published_versions (Itoa (ver (fields l) + 1 + Z.of_nat i)) →
       VersionOf shot url = version) ∧
    (∀ m, length (recorded (I := Config.fake_interface) (loop_config l') m) =
          length (recorded (I := Config.fake_interface) (loop_config l) m) +
          length shots * calls_per_shot m).
Proof.
  intros Hp. revert l; induction n as [|n IH]; intros l Hb Hv Hn.
  { exists l, []. rewrite !app_nil_r. split_and!; [done..|simpl; lia]. }
  destruct (get_policies_total (loop_policies l) Hp) as [[p policies] Hpol].
  destruct (round_fakes l p policies Hb Hpol) as (l1 & Hr & Hb1 & _ & Hc & Hcase). cbv zeta in Hcase.
  assert (recorded (I := Collector.fake_interface) (loop_collector l1) Collector.Collect =
    recorded (I := Collector.fake_interface) (loop_collector l) Collector.Collect ++ [tt]) as Hc1.
  { rewrite Hc. apply (recorded_same (I := Collector.fake_interface)). }
  assert (fields l1 = fields l ∧ loop_config l1 = loop_config l ∧ loop_setter l1 = loop_setter l ∨
    ver (fields l1) = (ver (fields l) + 1)%Z ∧
    (∀ m, length (recorded (I := Config.fake_interface) (loop_config l1) m) =
          length (recorded (I := Config.fake_interface) (loop_config l) m) + calls_per_shot m) ∧
    ∃ shot, recorded (I := Setter.fake_interface) (loop_setter l1) Setter.SetSnapshot =
        recorded (I := Setter.fake_interface) (loop_setter l) Setter.SetSnapshot ++ [(node, shot)] ∧
      ∀ url version, (url, version) ∈ published_versions (Itoa (ver (fields l) + 1)) →
        VersionOf shot url = version) as Hround.
  { destruct policies as [err|ps]; [by left|]. case_decide; [by left|]. right.
    destruct Hcase as (_ & Hv1 & Hrec & shot & Hset & Hver). rewrite i64_small in Hv1, Hver by lia.
    split; [done|]. split.
    - intros m. rewrite Hrec, length_app. f_equal. apply config_calls_length.
    - exists shot. rewrite Hset. split; [|done].
      exact (recorded_same (I := Setter.fake_interface) (loop_setter l) Setter.SetSnapshot (node, shot)). }
  cbn [rounds]. rewrite Hr. simpl. clear Hcase Hc Hr.
  destruct Hround as [(Hf & Hk & Hset)|(Hv1 & Hk & shot & Hset & Hver)].
  - destruct (IH l1 Hb1) as (l' & shots & Hrs & Hc' & Hs' & Hlen & Hver & Hk');
      [rewrite Hf; lia..|].
    exists l', shots. rewrite Hc', Hs', Hc1, Hset. rewrite Hf in Hver. rewrite Hk in Hk'.
    split_and!; [done|by rewrite <-app_assoc|done|lia|done|done].
  - destruct (IH l1 Hb1) as (l' & shots & Hrs & Hc' & Hs' & Hlen & Hver' & Hk'); [lia..|].
    exists l', (shot :: shots). rewrite Hc', Hs', Hc1, Hset, <-!app_assoc.
    split_and!; [done..|simpl; lia| |].
    + intros [|i] shot' url version Hi Hin; simpl in Hi.
      * injection Hi as <-. apply Hver. by rewrite Z.add_0_r in Hin.
      * apply (Hver' i shot' url version Hi). rewrite Hv1. by replace (ver (fields l) + 1 + 1 + Z.of_nat i)%Z
          with (ver (fields l) + 1 + Z.of_nat (S i))%Z by lia.
    + intros m. etrans; [exact (Hk' m)|].
      etrans; [exact (f_equal (λ x, x + length shots * calls_per_shot m) (Hk m))|]. simpl. lia.
Qed.
End loop.
End loop_fakes.

(** ** Properties *)

(** On fakes in any state, with any stubs and scripted answers, a sequence of unary
    requests never panics, accepts exactly the valid ones, and makes exactly the
    method calls that these ask for, in order: nothing else is recorded by any
    method of any of the three repositories. *)
Theorem requests_make_their_calls `{GoSyntax} {W} (c : fake_capi W) (rs : list Handlers.request)
    (Hwf : Forall wf_request rs) :
  ∃ c' outs, requests c rs = Ret (c', outs) ∧ recorded_ops c c' (omap request_op rs) ∧
    Forall2 (λ r out, out = inr () ↔ is_Some (request_op r)) rs outs.
Proof. by apply requests_recorded. Qed.

(** A bulk sync on a fake stream that plays a stream of chunks, with fakes for the
    repositories: with as much fuel as the stream has answers it ends, having called
    [Recv] once per answer; when the stream ends well and its bytes decode, it makes
    the three [Sync] calls of the request and answers once, with the number of bytes;
    otherwise it calls nothing else and returns an error. *)
Theorem bulk_sync_on_fakes {MD Context_type Message W V : Type}
    (unmarshal : list Byte.byte → error + BulkSyncRequest)
    (st : in_use (testhelpers.FakeCloudControllerCopilot_BulkSyncServer.fake_interface
                    (MD := MD) (Context := Context_type) (Message := Message)) W)
    (c : fake_capi V) (s : stream) (fuel : nat)
    (Hdecode : ∀ bytes request, unmarshal bytes = inr request → no_nil request)
    (Hplays : plays st s) (Hfuel : receives s ≤ fuel) :
  ∃ c' st' err, BulkSync_on unmarshal fuel c st [] = Some (Ret (c', st', err)) ∧
    recorded st' fake_server.Recv = recorded st fake_server.Recv ++ replicate (receives s) tt ∧
    recorded st' fake_server.SendAndClose =
      recorded st fake_server.SendAndClose ++
      match decoded unmarshal s with Some _ => [Some (sync_response s)] | None => [] end ∧
    recorded_ops c c' (match decoded unmarshal s with Some r => sync_ops r | None => [] end) ∧
    (decoded unmarshal s = None → is_Some err).
Proof.
  rewrite (BulkSync_on_spec unmarshal Hdecode fuel c st [] s) by (done || by apply plays_playing).
  destruct (played_records st s) as [Hr Ha]. unfold decoded, sync_response. simpl "++".
  destruct (stream_end s) as [err|].
  { eexists _, _, _. split; [reflexivity|]. rewrite app_nil_r.
    split_and!; [done|done|apply recorded_nothing|by eexists]. }
  cbv zeta.
  destruct (if (length (stream_bytes s) =? 0)%nat then inr empty_bulk_sync
            else unmarshal (stream_bytes s)) as [err|request].
  { eexists _, _, _. split; [reflexivity|]. rewrite app_nil_r.
    split_and!; [done|done|apply recorded_nothing|by eexists]. }
  eexists _, _, _. split; [reflexivity|].
  split; [|split; [|split; [apply after_sync_recorded|done]]].
  - etrans; [|exact Hr]. by apply (recorded_other (I := fake_server.fake_interface)).
  - etrans; [apply (recorded_same (I := fake_server.fake_interface))|].
    exact (f_equal (λ calls, calls ++ [_]) Ha).
Qed.

(** The loop on a fake collector, configuration and setter, in any state and with
    any stubs, and any policy client that does not panic: every number of rounds
    runs without a panic; each round collects exactly once; every publication calls
    [SetSnapshot] exactly once, for the one node, each of the five builders exactly
    once and [EmptyResponse] twelve times, and rounds that do not publish call none of
    them; and the published snapshots carry the next version numbers in order in the
    collections that change, and version 1 in the others. *)
Theorem loop_on_fakes `{Marshal} {W1 W2 W3 P} `{!InternalPolicyClient P} (n : nat)
    (l : Loop (in_use snapshot_fakes.Collector.fake_interface W1) P
              (in_use snapshot_fakes.Config.fake_interface W2)
              (in_use snapshot_fakes.Setter.fake_interface W3))
    (Hp : ∀ p : P, is_ret (GetPolicies p)) (Hb : has_builder l)
    (Hv : (0 ≤ ver (fields l))%Z) (Hn : (ver (fields l) + Z.of_nat n < 2 ^ 63)%Z) :
  ∃ l' shots, rounds n l = Ret l' ∧
    recorded (loop_collector l') snapshot_fakes.Collector.Collect =
      recorded (loop_collector l) snapshot_fakes.Collector.Collect ++ replicate n tt ∧
    recorded (loop_setter l') snapshot_fakes.Setter.SetSnapshot =
      recorded (loop_setter l) snapshot_fakes.Setter.SetSnapshot ++
      ((λ shot, (node, shot)) <$> shots) ∧
    length shots ≤ n ∧
    (∀ i shot url version, shots !! i = Some shot →
       (url, version) ∈ published_versions (Itoa (ver (fields l) + 1 + Z.of_nat i)) →
       VersionOf shot url = version) ∧
    (∀ m, length (recorded (loop_config l') m) =
          length (recorded (loop_config l) m) + length shots * calls_per_shot m).
Proof. by apply rounds_fakes. Qed.

(** ** Witnesses *)
#[local] Existing Instances transparent w_syntax.

Lemma requests_make_their_calls_witness :
  ∃ c' outs, requests (W := unit) (mkCAPI (new_fake, tt) (new_fake, tt) (new_fake, tt))
               [w_map_request] = Ret (c', outs) ∧
    recorded (capi_mappings c') handlers_fakes.RouteMappingsRepo.Map =
      [Some (mkRouteMapping "r1" "p1" 128)].
Proof.
  destruct (requests_make_their_calls (W := unit)
    (mkCAPI (new_fake, tt) (new_fake, tt) (new_fake, tt)) [w_map_request])
    as (c' & outs & E & (_ & Hm & _) & _).
  - repeat constructor. simpl. lia.
  - exists c', outs. split; [exact E|]. rewrite (Hm handlers_fakes.RouteMappingsRepo.Map). reflexivity.
Defined.

(** A policy client without policies. *)
Definition w_policies : InternalPolicyClient unit := λ p, Ret (p, inr Nil).
#[local] Existing Instance w_policies.
Definition w_fake_loop := NewLoop (K := in_use snapshot_fakes.Config.fake_interface unit)
  (new_fake (I := snapshot_fakes.Collector.fake_interface) (W := unit), tt)
  (new_fake (I := snapshot_fakes.Setter.fake_interface) (W := unit), tt)
  NewInMemoryBuilder (Some tt) (new_fake, tt).

Lemma loop_on_fakes_witness :
  ∃ l' shots, rounds 2 w_fake_loop = Ret l' ∧
    recorded (loop_setter l') snapshot_fakes.Setter.SetSnapshot =
      (λ shot, (node, shot)) <$> shots ∧ length shots ≤ 2.
Proof.
  destruct (loop_on_fakes 2 w_fake_loop) as (l' & shots & E & _ & Hs & Hn & _).
  - intros p. by eexists.
  - by eexists.
  - simpl. lia.
  - simpl. lia.
  - exists l', shots. split; [exact E|]. split; [exact Hs|exact Hn].
Defined.
